(** * FASP algebraic multigrid: strength graph, C/F splitting, interpolation
      truncation, hierarchy setup, recursive cycle and CSR transposition.

    A shallow embedding of the routines of [base/src] that build and use the
    AMG hierarchy, with the properties proved about them.

    Conventions of the embedding.
    - [INT] and [SHORT] are [Z]; where a routine can leave the range of
      [INT] by its arithmetic ([fasp_dcsr_shift], the unsigned counters of
      the splitting) the wrap-around is written out.
    - [REAL] is [Q], every finite [double] being a rational; comparisons
      are exact.  Where a routine decides by the result of an operation on
      [REAL]s ([generate_S], [fasp_dvec_maxdiff]) the operation is the one
      of the machine, rounded as the machine rounds it: a field of
      [Constants], of which nothing is assumed.  The other routines are
      taken over exact arithmetic, and the properties about them say so.
    - A C array reached through a pointer ([INT *], [REAL *]) is a total map
      from index to cell, [arr T = Z -> T]; a store is [upd].  Cells that C
      would leave undefined (outside the allocation) are ordinary cells
      here; where a routine can overrun a buffer of its own or store
      through NULL ([fasp_dcsr_sort], [fasp_dcsr_perm], [fasp_dcsr_permz])
      it has no result then.
    - A counted loop [for (k = lo; k < hi; ++k)] whose bounds the body does
      not change is [for_loop lo hi body].
    - Constants, macros and routines that the sources use but do not define
      ([fasp.h], [linklist.inl], the BLAS kernels, smoothers, ...) are fields
      of the classes [Constants] and of the per-module [Externals]. *)

From Stdlib Require Import ZArith QArith Qabs List Lia Bool Lqa Sorted.
Import ListNotations.
Open Scope Z_scope.

(* ------------------------------------------------------------------ *)
(** ** Arrays, ranges and loops *)

Definition arr (T : Type) : Type := Z -> T.

Definition upd {T : Type} (a : arr T) (k : Z) (v : T) : arr T :=
  fun i => if i =? k then v else a i.

Definition of_list {T : Type} (d : T) (l : list T) : arr T :=
  fun i => if i <? 0 then d else nth (Z.to_nat i) l d.

Fixpoint zrange_from (lo : Z) (n : nat) : list Z :=
  match n with
  | O => []
  | S n' => lo :: zrange_from (lo + 1) n'
  end.

(** The indices [lo, lo+1, ..., hi-1] (none when [hi <= lo]). *)
Definition zrange (lo hi : Z) : list Z := zrange_from lo (Z.to_nat (hi - lo)).

Definition to_list {T : Type} (a : arr T) (n : Z) : list T := map a (zrange 0 n).

Definition for_loop {St : Type} (lo hi : Z) (body : St -> Z -> St) (s : St) : St :=
  fold_left body (zrange lo hi) s.

(* ------------------------------------------------------------------ *)
(** ** REAL arithmetic and the comparison macros *)

Definition Qltb (x y : Q) : bool := (Qnum x * QDen y <? Qnum y * QDen x)%Z.
Definition Qgtb (x y : Q) : bool := Qltb y x.
Definition Qgeb (x y : Q) : bool := negb (Qltb x y).

(** Modelled from the spec: the macros [MIN], [MAX] and [ABS] of [fasp.h]
    (not among the sources), with their usual meaning
    [((a)<(b)?(a):(b))], [((a)>(b)?(a):(b))], [((a)>=0.0?(a):-(a))]. *)
Definition MIN (a b : Q) : Q := if Qltb a b then a else b.
Definition MAX (a b : Q) : Q := if Qgtb a b then a else b.
Definition ABS (a : Q) : Q := if Qgeb a 0 then a else (- a)%Q.

Definition ZMAX (a b : Z) : Z := if a >? b then a else b.

(* ------------------------------------------------------------------ *)
(** ** Return codes and vertex labels ([messages.h]) *)

Definition SUCCESS : Z := 0.
Definition RUN_FAIL : Z := -100.

Definition FGPT : Z := 0.
Definition CGPT : Z := 1.
Definition ISPT : Z := 2.
Definition UNPT : Z := -1.

Definition PRINT_NONE : Z := 0.

(** The type codes and error codes that [base/src] uses and the header among
    the sources does not define; and what the machine makes of [x + y],
    [x - y], [x * y] and [x / y] on [REAL]s: the rounded result, whatever
    the rounding is. *)
Class Constants : Type := {
  COARSE_RS : Z;
  COARSE_AC : Z;
  COARSE_CR : Z;
  INTERP_REG : Z;
  INTERP_ENG_MIN : Z;
  INTERP_STD : Z;
  ERROR_AMG_COARSE_TYPE : Z;
  ERROR_AMG_INTERP_TYPE : Z;
  SMALLREAL : Q;
  REAL_add : Q -> Q -> Q;
  REAL_sub : Q -> Q -> Q;
  REAL_mul : Q -> Q -> Q;
  REAL_div : Q -> Q -> Q
}.

(** What a C compiler and the error convention guarantee of them: the labels
    of one [switch] are pairwise distinct, error codes are their own negative
    numbers, and [SMALLREAL] is a positive threshold. *)
Record Constants_ok (K : Constants) : Prop := {
  coarse_rs_ac : COARSE_RS <> COARSE_AC;
  coarse_rs_cr : COARSE_RS <> COARSE_CR;
  coarse_ac_cr : COARSE_AC <> COARSE_CR;
  interp_reg_eng : INTERP_REG <> INTERP_ENG_MIN;
  interp_reg_std : INTERP_REG <> INTERP_STD;
  interp_eng_std : INTERP_ENG_MIN <> INTERP_STD;
  err_coarse_neg : ERROR_AMG_COARSE_TYPE < 0;
  err_coarse_not_fail : ERROR_AMG_COARSE_TYPE <> RUN_FAIL;
  err_interp_neg : ERROR_AMG_INTERP_TYPE < 0;
  smallreal_pos : (0 < SMALLREAL)%Q
}.

(* ------------------------------------------------------------------ *)
(** ** Sparse matrices and vectors *)

(** [dCSRmat]: [val] is [None] for a matrix that carries a pattern only
    ([A->val == NULL]). *)
Record dCSRmat : Type := {
  row : Z;
  col : Z;
  nnz : Z;
  IA : arr Z;
  JA : arr Z;
  val : option (arr Q)
}.

Record iCSRmat : Type := {
  irow : Z;
  icol : Z;
  innz : Z;
  iIA : arr Z;
  iJA : arr Z;
  ival : option (arr Z)
}.

(** [A->val[k]] (a pattern-only matrix has no cell to read: [0]). *)
Definition aval (A : dCSRmat) (k : Z) : Q :=
  match val A with
  | Some v => v k
  | None => 0%Q
  end.

Definition zeros {T : Type} (z : T) : arr T := fun _ => z.

(** A routine that fills the arrays of a matrix whose sizes are [m] and
    [n]: the arrays and [nnz] are those of [M]. *)
Definition sized (m n : Z) (M : dCSRmat) : dCSRmat :=
  {| row := m; col := n; nnz := nnz M; IA := IA M; JA := JA M; val := val M |}.

(** A [dvector] is the list of its [row] entries; [x->val[i]] is [vget x i]
    and a store into the buffer is [vset]. *)
Definition dvector : Type := list Q.

Definition vget (x : dvector) (i : Z) : Q :=
  if i <? 0 then 0%Q else nth (Z.to_nat i) x 0%Q.

Fixpoint list_set (l : list Q) (n : nat) (v : Q) : list Q :=
  match l, n with
  | [], _ => []
  | _ :: t, O => v :: t
  | h :: t, S n' => h :: list_set t n' v
  end.

Definition vset (x : dvector) (i : Z) (v : Q) : dvector :=
  if i <? 0 then x else list_set x (Z.to_nat i) v.

(** [fasp_iarray_cp (n, x, y)] and [fasp_array_cp (n, x, y)]: [y[i] = x[i]]
    for [i < n]. *)
Definition fasp_iarray_cp (n : Z) (x y : arr Z) : arr Z :=
  for_loop 0 n (fun y i => upd y i (x i)) y.

Definition fasp_array_cp (n : Z) (x y : arr Q) : arr Q :=
  for_loop 0 n (fun y i => upd y i (x i)) y.

(* ------------------------------------------------------------------ *)
(** ** BlaSparseCSR.c *)

Module BlaSparseCSR.

(** [fasp_dcsr_getdiag (n, A, diag)]: the first [n] diagonal entries; in
    row [i] the first position whose column is [i] is taken, and a row
    without one leaves the zero that [fasp_dvec_alloc] put there. *)
Definition fasp_dcsr_getdiag (n : Z) (A : dCSRmat) : dvector :=
  let n := if (n =? 0) || (n >? row A) || (n >? col A)
           then Z.min (row A) (col A) else n in
  map (fun i =>
         match find (fun k => JA A k - i =? 0) (zrange (IA A i) (IA A (i + 1))) with
         | Some k => aval A k
         | None => 0%Q
         end)
      (zrange 0 n).

(** First pass of the transposition: [AT->IA[i+2]] counts the entries of
    column [i], for the columns before the last one. *)
Definition trans_count (m nnz : Z) (ja : arr Z) : arr Z :=
  for_loop 0 nnz
    (fun ia j => let i := ja j in
                 if i <? m - 1 then upd ia (i + 2) (ia (i + 2) + 1) else ia)
    (zeros 0).

(** [for (i=2;i<=m;++i) AT->IA[i]+=AT->IA[i-1];] *)
Definition trans_prefix (m : Z) (ia : arr Z) : arr Z :=
  for_loop 2 (m + 1) (fun ia i => upd ia i (ia i + ia (i - 1))) ia.

(** Second pass: row [i] of [A] is scattered; [AT->IA[j]] is the next free
    position of row [j-1] of the transpose.  The source has the loop twice,
    with and without the copy of the value; [v] tells which. *)
Definition trans_scatter {T : Type} (n : Z) (aia aja : arr Z) (v : option (arr T))
  (st : arr Z * arr Z * arr T) : arr Z * arr Z * arr T :=
  for_loop 0 n
    (fun st i =>
       for_loop (aia i) (aia (i + 1))
         (fun '(tia, tja, tval) p =>
            let j := aja p + 1 in
            let k := tia j in
            (upd tia j (k + 1),
             upd tja k i,
             match v with Some av => upd tval k (av p) | None => tval end))
         st)
    st.

Definition fasp_dcsr_trans (A : dCSRmat) : dCSRmat :=
  let n := row A in
  let m := col A in
  let ia0 := trans_prefix m (trans_count m (nnz A) (JA A)) in
  let '(tia, tja, tval) :=
    trans_scatter n (IA A) (JA A) (val A) (ia0, zeros 0, zeros 0%Q) in
  {| row := m; col := n; nnz := nnz A; IA := tia; JA := tja;
     val := match val A with Some _ => Some tval | None => None end |}.

Definition fasp_icsr_trans (A : iCSRmat) : iCSRmat :=
  let n := irow A in
  let m := icol A in
  let ia0 := trans_prefix m (trans_count m (innz A) (iJA A)) in
  let '(tia, tja, tval) :=
    trans_scatter n (iIA A) (iJA A) (ival A) (ia0, zeros 0, zeros 0) in
  {| irow := m; icol := n; innz := innz A; iIA := tia; iJA := tja;
     ival := match ival A with Some _ => Some tval | None => None end |}.

End BlaSparseCSR.

(* ------------------------------------------------------------------ *)
(** ** coarsening_rs.c: the strength graph *)

Module StrengthGraph.
Import BlaSparseCSR.

Section WithConstants.
Context {K : Constants}.

(** [row_scale] and the raw [row_sum] of row [i]:
    [row_scale=MIN(row_scale, aj[j]); row_sum+=aj[j];], the sum rounded at
    every step. *)
Definition row_scale_sum (A : dCSRmat) (i : Z) : Q * Q :=
  for_loop (IA A i) (IA A (i + 1))
    (fun '(row_scale, row_sum) j =>
       (MIN row_scale (aval A j), REAL_add row_sum (aval A j)))
    (0%Q, 0%Q).

Definition row_scale (A : dCSRmat) (i : Z) : Q := fst (row_scale_sum A i).

(** [row_sum=ABS(row_sum)/MAX(SMALLREAL,ABS(diag.val[i]));] *)
Definition row_sum (A : dCSRmat) (diag : dvector) (i : Z) : Q :=
  REAL_div (ABS (snd (row_scale_sum A i))) (MAX SMALLREAL (ABS (vget diag i))).

(** [(row_sum>max_row_sum)&&(max_row_sum<1)] *)
Definition all_weak (A : dCSRmat) (diag : dvector) (max_row_sum : Q) (i : Z) : bool :=
  Qgtb (row_sum A diag i) max_row_sum && Qltb max_row_sum 1.

(** The body of the row loop of step 1: the entries of row [i] that are not
    strong are overwritten with [-1] in [S->JA].  The test is
    [A->val[j]>=epsilon_str*row_scale], against the rounded product. *)
Definition mark_row (A : dCSRmat) (epsilon_str max_row_sum : Q) (diag : dvector)
  (sja : arr Z) (i : Z) : arr Z :=
  let begin_row := IA A i in
  let end_row := IA A (i + 1) in
  let sja1 :=
    match find (fun j => JA A j =? i) (zrange begin_row end_row) with
    | Some j => upd sja j (-1)
    | None => sja
    end in
  if all_weak A diag max_row_sum i
  then for_loop begin_row end_row (fun s j => upd s j (-1)) sja1
  else for_loop begin_row end_row
         (fun s j =>
            if Qgeb (aval A j) (REAL_mul epsilon_str (row_scale A i))
            then upd s j (-1) else s)
         sja1.

(** The body of the row loop of the compression. *)
Definition compress_row (A : dCSRmat) (st : arr Z * arr Z * Z) (i : Z)
  : arr Z * arr Z * Z :=
  let '(sia, sja, index) := st in
  let begin_row := IA A i in
  let end_row := IA A (i + 1) - 1 in
  let '(sja1, index1) :=
    for_loop begin_row (end_row + 1)
      (fun '(s, idx) j => if s j >? -1 then (upd s idx (s j), idx + 1) else (s, idx))
      (sja, index) in
  (upd sia i index, sja1, index1).

(** [generate_S (A, S, param)], with the two parameters it reads.  The
    branch taken under OpenMP runs the same row body over a partition of the
    rows.  When no entry is strong the source sets [S->JA = NULL]: the model
    keeps the cells, which nothing may read since [S->nnz = 0]. *)
Definition generate_S (A : dCSRmat) (max_row_sum epsilon_str : Q) : iCSRmat :=
  let row := row A in
  let nnz := IA A row - IA A 0 in
  let diag := fasp_dcsr_getdiag 0 A in
  let sia0 := fasp_iarray_cp (row + 1) (IA A) (zeros 0) in
  let sja0 := fasp_iarray_cp nnz (JA A) (zeros 0) in
  let sja1 := for_loop 0 row (mark_row A epsilon_str max_row_sum diag) sja0 in
  let '(sia2, sja2, index) := for_loop 0 row (compress_row A) (sia0, sja1, 0) in
  if index >? 0
  then {| irow := row; icol := col A; innz := index;
          iIA := upd sia2 row index; iJA := sja2; ival := None |}
  else {| irow := row; icol := col A; innz := 0;
          iIA := sia2; iJA := sja2; ival := None |}.

End WithConstants.
End StrengthGraph.

(* ------------------------------------------------------------------ *)
(** ** Parameters and levels *)

(** The fields of [AMG_param] that the routines below read or write. *)
Record AMG_param : Type := {
  print_level : Z;
  max_levels : Z;
  coarse_dof : Z;
  cycle_type : Z;
  tol : Q;
  smoother : Z;
  smooth_order : Z;
  presmooth_iter : Z;
  postsmooth_iter : Z;
  relaxation : Q;
  polynomial_degree : Z;
  coarsening_type : Z;
  interpolation_type : Z;
  strong_threshold : Q;
  max_row_sum : Q;
  truncation_threshold : Q;
  aggressive_level : Z;
  aggressive_path : Z;
  tentative_smooth : Q;
  ILU_levels : Z;
  schwarz_levels : Z
}.

Definition set_coarsening_type (p : AMG_param) (v : Z) : AMG_param :=
  {| print_level := print_level p; max_levels := max_levels p;
     coarse_dof := coarse_dof p; cycle_type := cycle_type p; tol := tol p;
     smoother := smoother p; smooth_order := smooth_order p;
     presmooth_iter := presmooth_iter p; postsmooth_iter := postsmooth_iter p;
     relaxation := relaxation p; polynomial_degree := polynomial_degree p;
     coarsening_type := v; interpolation_type := interpolation_type p;
     strong_threshold := strong_threshold p; max_row_sum := max_row_sum p;
     truncation_threshold := truncation_threshold p;
     aggressive_level := aggressive_level p; aggressive_path := aggressive_path p;
     tentative_smooth := tentative_smooth p; ILU_levels := ILU_levels p;
     schwarz_levels := schwarz_levels p |}.

Definition set_aggressive_level (p : AMG_param) (v : Z) : AMG_param :=
  {| print_level := print_level p; max_levels := max_levels p;
     coarse_dof := coarse_dof p; cycle_type := cycle_type p; tol := tol p;
     smoother := smoother p; smooth_order := smooth_order p;
     presmooth_iter := presmooth_iter p; postsmooth_iter := postsmooth_iter p;
     relaxation := relaxation p; polynomial_degree := polynomial_degree p;
     coarsening_type := coarsening_type p; interpolation_type := interpolation_type p;
     strong_threshold := strong_threshold p; max_row_sum := max_row_sum p;
     truncation_threshold := truncation_threshold p;
     aggressive_level := v; aggressive_path := aggressive_path p;
     tentative_smooth := tentative_smooth p; ILU_levels := ILU_levels p;
     schwarz_levels := schwarz_levels p |}.

Definition set_tentative_smooth (p : AMG_param) (v : Q) : AMG_param :=
  {| print_level := print_level p; max_levels := max_levels p;
     coarse_dof := coarse_dof p; cycle_type := cycle_type p; tol := tol p;
     smoother := smoother p; smooth_order := smooth_order p;
     presmooth_iter := presmooth_iter p; postsmooth_iter := postsmooth_iter p;
     relaxation := relaxation p; polynomial_degree := polynomial_degree p;
     coarsening_type := coarsening_type p; interpolation_type := interpolation_type p;
     strong_threshold := strong_threshold p; max_row_sum := max_row_sum p;
     truncation_threshold := truncation_threshold p;
     aggressive_level := aggressive_level p; aggressive_path := aggressive_path p;
     tentative_smooth := v; ILU_levels := ILU_levels p;
     schwarz_levels := schwarz_levels p |}.

(** The data the ILU smoother keeps for a level ([ILU_data], declared in a
    header that is not among the sources). *)
Class SmootherData : Type := {
  ILU_data : Type;
  ILU_null : ILU_data
}.

(** One level of [AMG_data]: [w] is used through [w.val] only, and [cfmark]
    through [cfmark.val]. *)
Record AMG_data {D : SmootherData} : Type := {
  A : dCSRmat;
  P : dCSRmat;
  R : dCSRmat;
  b : dvector;
  x : dvector;
  w : arr Q;
  cfmark : arr Z;
  num_levels : Z;
  LU : ILU_data
}.

(* ------------------------------------------------------------------ *)
(** ** interpolation.c: the truncation pass and the dispatch *)

Module Interpolation.

(** The state the truncation pass threads through the rows: [num_lost],
    the two write cursors, and the arrays of the truncated operator. *)
Record trunc_state : Type := {
  num_lost : Z;
  index1 : Z;
  index2 : Z;
  tIA : arr Z;
  tJA : arr Z;
  tval : arr Q
}.

(** First loop over a row: [mMin], [pMax], [mSum], [pSum]. *)
Definition row_extremes (pv : arr Q) (b e : Z) : Q * Q * Q * Q :=
  for_loop b e
    (fun '(mMin, pMax, mSum, pSum) j =>
       let '(mMin, mSum) :=
         if Qltb (pv j) 0
         then ((if Qltb (pv j) mMin then pv j else mMin), (mSum + pv j)%Q)
         else (mMin, mSum) in
       let '(pMax, pSum) :=
         if Qgtb (pv j) 0
         then ((if Qgtb (pv j) pMax then pv j else pMax), (pSum + pv j)%Q)
         else (pMax, pSum) in
       (mMin, pMax, mSum, pSum))
    (0%Q, 0%Q, 0%Q, 0%Q).

(** Second loop: [num_lost--] for every entry that is kept (the counters
    [mTruncCount] and [pTruncCount] are written and never read). *)
Definition row_count (pv : arr Q) (epsilon_tr mMin pMax : Q) (b e : Z) (nl : Z) : Z :=
  for_loop b e
    (fun nl j =>
       let nl := if Qltb (pv j) 0
                 then (if Qgtb (pv j) (mMin * epsilon_tr) then nl else nl - 1)
                 else nl in
       if Qgtb (pv j) 0
       then (if Qltb (pv j) (pMax * epsilon_tr) then nl else nl - 1)
       else nl)
    nl.

(** Step 2: the columns of the kept entries, and the sums of the kept
    negative and positive entries. *)
Definition row_pattern (pja : arr Z) (pv : arr Q) (epsilon_tr mMin pMax : Q) (b e : Z)
  (st : arr Z * Z * Q * Q) : arr Z * Z * Q * Q :=
  for_loop b e
    (fun '(ja, i1, mTruncedSum, pTruncedSum) j =>
       let '(ja, i1, mTruncedSum) :=
         if Qltb (pv j) 0 && negb (Qgtb (pv j) (mMin * epsilon_tr))
         then (upd ja i1 (pja j), i1 + 1, (mTruncedSum + pv j)%Q)
         else (ja, i1, mTruncedSum) in
       if Qgtb (pv j) 0 && negb (Qltb (pv j) (pMax * epsilon_tr))
       then (upd ja i1 (pja j), i1 + 1, mTruncedSum, (pTruncedSum + pv j)%Q)
       else (ja, i1, mTruncedSum, pTruncedSum))
    st.

(** Step 3: the kept entries, rescaled. *)
Definition row_values (pv : arr Q) (epsilon_tr mMin pMax mSum pSum mTruncedSum pTruncedSum : Q)
  (b e : Z) (st : arr Q * Z) : arr Q * Z :=
  for_loop b e
    (fun '(v, i2) j =>
       let '(v, i2) :=
         if Qltb (pv j) 0 && negb (Qgtb (pv j) (mMin * epsilon_tr))
         then (upd v i2 (pv j / mTruncedSum * mSum)%Q, i2 + 1)
         else (v, i2) in
       if Qgtb (pv j) 0 && negb (Qltb (pv j) (pMax * epsilon_tr))
       then (upd v i2 (pv j / pTruncedSum * pSum)%Q, i2 + 1)
       else (v, i2))
    st.

(** The body of the row loop of the truncation. *)
Definition truncate_row (pia pja : arr Z) (pv : arr Q) (epsilon_tr : Q)
  (st : trunc_state) (i : Z) : trunc_state :=
  let b := pia i in
  let e := pia (i + 1) in
  let ia := upd (tIA st) i (tIA st i - num_lost st) in
  let '(mMin, pMax, mSum, pSum) := row_extremes pv b e in
  let nl := row_count pv epsilon_tr mMin pMax b e (num_lost st) in
  let '(ja, i1, mTruncedSum, pTruncedSum) :=
    row_pattern pja pv epsilon_tr mMin pMax b e (tJA st, index1 st, 0%Q, 0%Q) in
  let '(v, i2) :=
    row_values pv epsilon_tr mMin pMax mSum pSum mTruncedSum pTruncedSum b e
      (tval st, index2 st) in
  {| num_lost := nl; index1 := i1; index2 := i2; tIA := ia; tJA := ja; tval := v |}.

(** "Truncation of interpolation", the closing part of [interp_RS] and of
    [interp_STD] (the same statements in both): [P] is the operator built so
    far, the result replaces it.  The arrays of the result are fresh and
    zeroed ([fasp_mem_calloc]). *)
Definition truncation (P : dCSRmat) (epsilon_tr : Q) : dCSRmat :=
  let st :=
    for_loop 0 (row P) (truncate_row (IA P) (JA P) (aval P) epsilon_tr)
      {| num_lost := 0; index1 := 0; index2 := 0;
         tIA := zeros 0; tJA := zeros 0; tval := zeros 0%Q |} in
  let ia := upd (tIA st) (row P) (tIA st (row P) - num_lost st) in
  {| row := row P; col := col P; nnz := ia (row P);
     IA := ia; JA := tJA st; val := Some (tval st) |}.

(** The interpolation routines proper, which the dispatch calls.
    [interp_RS] and [interp_EM] write the arrays and [nnz] of [P] and leave
    [P->row] and [P->col] alone, which [fasp_amg_interp] below writes out;
    [interp_STD] also sets [P->col]. *)
Class Externals : Type := {
  interp_RS : dCSRmat -> arr Z -> dCSRmat -> AMG_param -> dCSRmat;
  interp_EM : dCSRmat -> arr Z -> dCSRmat -> AMG_param -> dCSRmat;
  interp_STD : dCSRmat -> arr Z -> dCSRmat -> iCSRmat -> AMG_param -> dCSRmat
}.

(** What a call of [fasp_amg_interp] does: the operator it leaves in [P],
    the status passed to [fasp_chkerr] if that was called, and the status
    returned. *)
Record interp_result : Type := {
  P_out : dCSRmat;
  chkerr : option Z;
  status : Z
}.

Section Dispatch.
Context {K : Constants} {E : Externals}.

(** [fasp_amg_interp (A, vertices, P, S, param)].  In the [switch],
    [case INTERP_STD] has no [break] and runs on into [default]. *)
Definition fasp_amg_interp (A : dCSRmat) (vertices : arr Z) (P : dCSRmat)
  (S : iCSRmat) (param : AMG_param) : interp_result :=
  let interp_type := interpolation_type param in
  let interp_type := if coarsening_type param =? 4 then INTERP_STD else interp_type in
  if interp_type =? INTERP_REG then
    {| P_out := sized (row P) (col P) (interp_RS A vertices P param);
       chkerr := None; status := SUCCESS |}
  else if interp_type =? INTERP_ENG_MIN then
    {| P_out := sized (row P) (col P) (interp_EM A vertices P param);
       chkerr := None; status := SUCCESS |}
  else if interp_type =? INTERP_STD then
    {| P_out := interp_STD A vertices P S param;
       chkerr := Some ERROR_AMG_INTERP_TYPE; status := SUCCESS |}
  else
    {| P_out := P; chkerr := Some ERROR_AMG_INTERP_TYPE; status := SUCCESS |}.

End Dispatch.
End Interpolation.

(* ------------------------------------------------------------------ *)
(** ** PreAMGSetupUA.c: the aggregation step of the setup loop *)

Module PreAMGSetupUA.

(** The fields of [AMG_param] that the step reads or writes. *)
Record AMG_param : Type := {
  aggregation_type : Z;
  strong_coupled : Q
}.

(** The two aggregation routines (given in [.inl] files that are not among
    the sources), by what they return: the status and the number of
    aggregates.  [VMB] is the type code of the first. *)
Class Externals : Type := {
  VMB : Z;
  aggregation_vmb : dCSRmat -> AMG_param -> Z -> Z * Z;
  aggregation_pairwise : dCSRmat -> AMG_param -> Z -> Z * Z
}.

Section Step.
Context {E : Externals}.

(** The [switch ( param->aggregation_type )] of the main loop of
    [amg_setup_unsmoothP_unsmoothR], on level [lvl] with operator [A]:
    the status, [num_aggs[lvl]] and the parameters after it. *)
Definition amg_setup_unsmoothP_unsmoothR_aggregation (A : dCSRmat) (param : AMG_param)
  (lvl : Z) : Z * Z * AMG_param :=
  if aggregation_type param =? VMB then
    let '(status, num_aggs) := aggregation_vmb A param (lvl + 1) in
    let param' :=
      if num_aggs * 4 >? row A then
        {| aggregation_type := aggregation_type param;
           strong_coupled := (strong_coupled param / 2)%Q |}
      else if Qltb (inject_Z num_aggs * (125 # 100)) (inject_Z (row A)) then
        {| aggregation_type := aggregation_type param;
           strong_coupled := (strong_coupled param * 2)%Q |}
      else param in
    (status, num_aggs, param')
  else
    let '(status, num_aggs) := aggregation_pairwise A param lvl in
    (status, num_aggs, param).

End Step.
End PreAMGSetupUA.

(* ------------------------------------------------------------------ *)
(** ** coarsening_rs.c: the C/F splitting *)

Module Coarsening.
Import BlaSparseCSR StrengthGraph.

(** The bucket lists of [linklist.inl] (not among the sources), by their
    interface: [LoL] stands for [LoL_head], [LoL_tail], [lists] and [where]
    together, [LoL_head_head] is [LoL_head->head], with [None] when
    [LoL_head] is [NULL]. *)
Class LinkList : Type := {
  LoL : Type;
  LoL_null : LoL;
  enter_list : LoL -> Z -> Z -> LoL;
  remove_node : LoL -> Z -> Z -> LoL;
  LoL_head_head : LoL -> option Z
}.

(** Modelled from the spec: [linklist.inl], "a bucket priority queue keyed by
    lambda", one list per measure, extraction from the bucket of the largest
    measure, "first-in-bucket-wins".  The buckets are kept by decreasing
    measure; a vertex enters at the tail of the bucket of its measure; a
    bucket that becomes empty is dropped. *)
Fixpoint bucket_enter (q : list (Z * list Z)) (measure index : Z) : list (Z * list Z) :=
  match q with
  | [] => [(measure, [index])]
  | (m, l) :: q' =>
      if measure >? m then (measure, [index]) :: q
      else if measure =? m then (m, l ++ [index]) :: q'
      else (m, l) :: bucket_enter q' measure index
  end.

Fixpoint bucket_remove (q : list (Z * list Z)) (measure index : Z) : list (Z * list Z) :=
  match q with
  | [] => []
  | (m, l) :: q' =>
      if measure =? m then
        match filter (fun x => negb (x =? index)) l with
        | [] => q'
        | l' => (m, l') :: q'
        end
      else (m, l) :: bucket_remove q' measure index
  end.

Definition bucket_head (q : list (Z * list Z)) : option Z :=
  match q with
  | (_, i :: _) :: _ => Some i
  | _ => None
  end.

Definition bucket_lists : LinkList :=
  {| LoL := list (Z * list Z);
     LoL_null := [];
     enter_list := bucket_enter;
     remove_node := bucket_remove;
     LoL_head_head := bucket_head |}.

Section Splitting.
Context {L : LinkList}.

(** [unsigned INT num_left]: [--num_left] wraps. *)
Definition udec (n : Z) : Z := (n - 1) mod 4294967296.

(** The variables of phase one. *)
Record phase1 : Type := {
  vec : arr Z;
  lambda : arr Z;
  lol : LoL;
  num_left : Z;
  col1 : Z
}.

Definition set_vec (st : phase1) (v : arr Z) : phase1 :=
  {| vec := v; lambda := lambda st; lol := lol st; num_left := num_left st; col1 := col1 st |}.
Definition set_lambda (st : phase1) (l : arr Z) : phase1 :=
  {| vec := vec st; lambda := l; lol := lol st; num_left := num_left st; col1 := col1 st |}.
Definition set_lol (st : phase1) (q : LoL) : phase1 :=
  {| vec := vec st; lambda := lambda st; lol := q; num_left := num_left st; col1 := col1 st |}.
Definition set_num_left (st : phase1) (n : Z) : phase1 :=
  {| vec := vec st; lambda := lambda st; lol := lol st; num_left := n; col1 := col1 st |}.
Definition set_col1 (st : phase1) (c : Z) : phase1 :=
  {| vec := vec st; lambda := lambda st; lol := lol st; num_left := num_left st; col1 := c |}.

(** Steps 1 and 2: [lambda] from the transpose, isolated vertices. *)
Definition init_lambda (ST : iCSRmat) (row : Z) : arr Z :=
  for_loop 0 row (fun lam i => upd lam i (iIA ST (i + 1) - iIA ST i)) (zeros 0).

Definition init_vertices (A : dCSRmat) (row : Z) (st : phase1) : phase1 :=
  for_loop 0 row
    (fun st i =>
       if IA A (i + 1) - IA A i <=? 1
       then set_lambda (set_vec st (upd (vec st) i ISPT)) (upd (lambda st) i 0)
       else set_num_left (set_vec st (upd (vec st) i UNPT)) (num_left st + 1))
    st.

(** [remove_node (lambda[k], k); new_meas = ++lambda[k]; enter_list (new_meas, k)] *)
Definition bump (st : phase1) (k : Z) : phase1 :=
  let q := remove_node (lol st) (lambda st k) k in
  let new_meas := lambda st k + 1 in
  set_lol (set_lambda st (upd (lambda st) k new_meas)) (enter_list q new_meas k).

(** The loop over the strong neighbours [k] of a vertex [j] that has just
    become fine: each undecided [k] gains one. *)
Definition bump_undecided (S : iCSRmat) (j : Z) (st : phase1) : phase1 :=
  for_loop (iIA S j) (iIA S (j + 1))
    (fun st l => let k := iJA S l in
                 if vec st k =? UNPT then bump st k else st)
    st.

(** Step 3: vertices with a non-positive measure become fine. *)
Definition step3 (S : iCSRmat) (row : Z) (st : phase1) : phase1 :=
  for_loop 0 row
    (fun st i =>
       let measure := lambda st i in
       if negb (vec st i =? ISPT) then
         if measure >? 0 then set_lol st (enter_list (lol st) (lambda st i) i)
         else
           let st := set_vec st (upd (vec st) i FGPT) in
           let st :=
             for_loop (iIA S i) (iIA S (i + 1))
               (fun st k =>
                  let j := iJA S k in
                  if negb (vec st j =? ISPT) then
                    if j <? i then
                      let new_meas := lambda st j in
                      let q := if new_meas >? 0
                               then remove_node (lol st) new_meas j else lol st in
                      let new_meas := lambda st j + 1 in
                      set_lol (set_lambda st (upd (lambda st) j new_meas))
                              (enter_list q new_meas j)
                    else set_lambda st (upd (lambda st) j (lambda st j + 1))
                  else st)
               st in
           set_num_left st (udec (num_left st))
       else st)
    st.

(** One turn of the main loop, for the vertex [maxnode] at the head. *)
Definition main_body (S ST : iCSRmat) (maxnode : Z) (st : phase1) : phase1 :=
  let maxlambda := lambda st maxnode in
  let st := set_vec st (upd (vec st) maxnode CGPT) in
  let st := set_lambda st (upd (lambda st) maxnode 0) in
  let st := set_num_left st (udec (num_left st)) in
  let st := set_lol st (remove_node (lol st) maxlambda maxnode) in
  let st := set_col1 st (col1 st + 1) in
  let st :=
    for_loop (iIA ST maxnode) (iIA ST (maxnode + 1))
      (fun st i =>
         let j := iJA ST i in
         if vec st j =? UNPT then
           let st := set_vec st (upd (vec st) j FGPT) in
           let st := set_lol st (remove_node (lol st) (lambda st j) j) in
           let st := set_num_left st (udec (num_left st)) in
           bump_undecided S j st
         else st)
      st in
  for_loop (iIA S maxnode) (iIA S (maxnode + 1))
    (fun st i =>
       let j := iJA S i in
       if vec st j =? UNPT then
         let measure := lambda st j in
         let st := set_lol st (remove_node (lol st) measure j) in
         let measure := measure - 1 in
         let st := set_lambda st (upd (lambda st) j measure) in
         if measure >? 0 then set_lol st (enter_list (lol st) measure j)
         else
           let st := set_vec st (upd (vec st) j FGPT) in
           let st := set_num_left st (udec (num_left st)) in
           bump_undecided S j st
       else st)
    st.

(** [while (num_left>0)]: [None] when [LoL_head] is [NULL] at the top of a
    turn (the source dereferences it), or when the turns allowed are used up. *)
Fixpoint main_loop (fuel : nat) (S ST : iCSRmat) (st : phase1) : option phase1 :=
  if num_left st >? 0 then
    match fuel with
    | O => None
    | Datatypes.S fuel' =>
        match LoL_head_head (lol st) with
        | None => None
        | Some maxnode => main_loop fuel' S ST (main_body S ST maxnode st)
        end
    end
  else Some st.

(** The variables of phase two. *)
Record phase2 : Type := {
  vec2 : arr Z;
  graph_array : arr Z;
  ci_tilde : Z;
  ci_tilde_mark : Z;
  C_i_nonempty : Z;
  col2 : Z
}.

(** [set_empty] for the fine neighbour [j] of [i]: no strong neighbour of
    [j] is marked with [i]. *)
Definition set_empty (S : iCSRmat) (ga : arr Z) (i j : Z) : bool :=
  negb (existsb (fun jj => ga (iJA S jj) =? i) (zrange (iIA S j) (iIA S (j + 1)))).

(** The body of the loop of phase two for the vertex [i]; the second
    component is [i] as the body leaves it ([i--] in one branch). *)
Definition phase2_body (S : iCSRmat) (st : phase2) (i : Z) : phase2 * Z :=
  let mark := Z.lor (ci_tilde_mark st) i in
  let tilde := if negb (mark =? 0) then -1 else ci_tilde st in
  if vec2 st i =? FGPT then
    let ga :=
      for_loop (iIA S i) (iIA S (i + 1))
        (fun ga ji => let j := iJA S ji in
                      if vec2 st j =? CGPT then upd ga j i else ga)
        (graph_array st) in
    match find (fun ji => let j := iJA S ji in
                          (vec2 st j =? FGPT) && set_empty S ga i j)
               (zrange (iIA S i) (iIA S (i + 1))) with
    | None =>
        ({| vec2 := vec2 st; graph_array := ga; ci_tilde := tilde;
            ci_tilde_mark := mark; C_i_nonempty := C_i_nonempty st;
            col2 := col2 st |}, i)
    | Some ji =>
        let j := iJA S ji in
        if negb (C_i_nonempty st =? 0) then
          let v := upd (vec2 st) i CGPT in
          let c := col2 st + 1 in
          if tilde >? -1 then
            ({| vec2 := upd v tilde FGPT; graph_array := ga; ci_tilde := -1;
                ci_tilde_mark := mark; C_i_nonempty := 0; col2 := c - 1 |}, i)
          else
            ({| vec2 := v; graph_array := ga; ci_tilde := tilde;
                ci_tilde_mark := mark; C_i_nonempty := 0; col2 := c |}, i)
        else
          ({| vec2 := upd (vec2 st) j CGPT; graph_array := ga; ci_tilde := j;
              ci_tilde_mark := i; C_i_nonempty := 1; col2 := col2 st + 1 |}, i - 1)
    end
  else
    ({| vec2 := vec2 st; graph_array := graph_array st; ci_tilde := tilde;
        ci_tilde_mark := mark; C_i_nonempty := C_i_nonempty st; col2 := col2 st |}, i).

(** [for (i=0; i < row; ++i)] of phase two; the body may step [i] back. *)
Fixpoint phase2_loop (fuel : nat) (S : iCSRmat) (row : Z) (st : phase2) (i : Z)
  : option phase2 :=
  if i <? row then
    match fuel with
    | O => None
    | Datatypes.S fuel' =>
        let '(st', i') := phase2_body S st i in
        phase2_loop fuel' S row st' (i' + 1)
    end
  else Some st.

(** Phase two, entered with the labels [v] and the count [c] of phase one.
    No vertex is examined more than twice, which the turns allowed cover. *)
Definition phase_two (S : iCSRmat) (row : Z) (v : arr Z) (c : Z) : option (arr Z * Z) :=
  let ga := for_loop 0 row (fun ga i => upd ga i (-1)) (zeros 0) in
  match phase2_loop (2 * Z.to_nat row + 1) S row
          {| vec2 := v; graph_array := ga; ci_tilde := -1; ci_tilde_mark := -1;
             C_i_nonempty := 0; col2 := c |} 0 with
  | Some st => Some (vec2 st, col2 st)
  | None => None
  end.

(** Phase one: the labels and the number of coarse vertices after the main
    loop.  In the main loop every turn labels one more vertex, so [row + 1]
    turns are allowed. *)
Definition phase_one (A : dCSRmat) (S : iCSRmat) (vec0 : arr Z) (row : Z)
  : option (arr Z * Z) :=
  let ST := fasp_icsr_trans S in
  let st := {| vec := vec0; lambda := init_lambda ST row; lol := LoL_null;
               num_left := 0; col1 := 0 |} in
  let st := init_vertices A row st in
  let st := step3 S row st in
  match main_loop (Z.to_nat row + 1) S ST st with
  | Some st => Some (vec st, col1 st)
  | None => None
  end.

Context {K : Constants}.

(** [form_coarse_level (A, S, vertices, row, interp_type)]: the labels left
    in [vertices] and the value returned. *)
Definition form_coarse_level (A : dCSRmat) (S : iCSRmat) (vertices : arr Z)
  (row interp_type : Z) : option (arr Z * Z) :=
  match phase_one A S vertices row with
  | None => None
  | Some (v, c) =>
      if negb (interp_type =? INTERP_STD) then phase_two S row v c
      else Some (v, c)
  end.

End Splitting.

(** The routines of the file that the properties below do not look into,
    and compatible relaxation, which is in none of the sources.  Of
    [generate_sparsity_P] and [generate_sparsity_P_std] the class has the
    arrays they build; both begin with [P->row=row; P->col=col;], which
    [fasp_amg_coarsening_rs] below writes out. *)
Class Externals : Type := {
  form_coarse_level_ag :
    dCSRmat -> iCSRmat -> arr Z -> Z -> Z -> Z -> arr Z * Z;
  fasp_amg_coarsening_cr : Z -> Z -> dCSRmat -> arr Z -> AMG_param -> arr Z * Z;
  generate_sparsity_P : dCSRmat -> iCSRmat -> arr Z -> Z -> Z -> dCSRmat;
  generate_sparsity_P_std : dCSRmat -> iCSRmat -> arr Z -> Z -> Z -> dCSRmat
}.

(** What [fasp_amg_coarsening_rs] leaves behind. *)
Record coarsening_result : Type := {
  status : Z;
  vertices_out : arr Z;
  P_out : dCSRmat;
  S_out : iCSRmat
}.

Section Dispatch.
Context {K : Constants} {L : LinkList} {E : Externals}.

(** [fasp_amg_coarsening_rs (A, vertices, P, S, param)]; [None] when the
    splitting of [form_coarse_level] does not come back. *)
Definition fasp_amg_coarsening_rs (A : dCSRmat) (vertices : arr Z) (P : dCSRmat)
  (S : iCSRmat) (param : AMG_param) : option coarsening_result :=
  let ctype := coarsening_type param in
  let row := row A in
  let interp_type := interpolation_type param in
  if (ctype =? COARSE_RS) || (ctype =? COARSE_AC) || (ctype =? COARSE_CR) then
    let interp_type :=
      if negb (ctype =? COARSE_RS) && (ctype =? COARSE_AC) then INTERP_STD
      else interp_type in
    let S := generate_S A (max_row_sum param) (strong_threshold param) in
    if innz S =? 0 then
      Some {| status := RUN_FAIL; vertices_out := vertices; P_out := P; S_out := S |}
    else
      let split :=
        if ctype =? COARSE_RS then form_coarse_level A S vertices row interp_type
        else if ctype =? COARSE_AC then
          Some (form_coarse_level_ag A S vertices row interp_type (aggressive_path param))
        else Some (fasp_amg_coarsening_cr 0 (row - 1) A vertices param) in
      match split with
      | None => None
      | Some (v, c) =>
          let P := if interp_type =? INTERP_STD
                   then sized row c (generate_sparsity_P_std P S v row c)
                   else sized row c (generate_sparsity_P P S v row c) in
          Some {| status := SUCCESS; vertices_out := v; P_out := P; S_out := S |}
      end
  else
    Some {| status := ERROR_AMG_COARSE_TYPE; vertices_out := vertices;
            P_out := P; S_out := S |}.

End Dispatch.
End Coarsening.

(* ------------------------------------------------------------------ *)
(** ** amg_setup_rs.c: the setup phase *)

Module AmgSetupRS.
Import BlaSparseCSR Interpolation Coarsening.

Section Setup.
Context {K : Constants} {D : SmootherData}.

(** What the setup calls and the sources do not give: the ILU setup (its
    status and the data of the level; [iluparam] is a copy of fields of
    [param]), the Galerkin product, and the row reordering that is compiled
    in under [DIAGONAL_PREF] (the identity otherwise). *)
Class Externals : Type := {
  fasp_ilu_dcsr_setup : dCSRmat -> AMG_param -> Z * ILU_data;
  fasp_blas_dcsr_rap : dCSRmat -> dCSRmat -> dCSRmat -> dCSRmat;
  fasp_dcsr_diagpref : dCSRmat -> dCSRmat
}.

Context {L : LinkList} {EC : Coarsening.Externals} {EI : Interpolation.Externals}
        {ES : Externals}.

Definition set_A (l : AMG_data) (v : dCSRmat) : AMG_data :=
  {| A := v; P := P l; R := R l; b := b l; x := x l; w := w l;
     cfmark := cfmark l; num_levels := num_levels l; LU := LU l |}.
Definition set_P (l : AMG_data) (v : dCSRmat) : AMG_data :=
  {| A := A l; P := v; R := R l; b := b l; x := x l; w := w l;
     cfmark := cfmark l; num_levels := num_levels l; LU := LU l |}.
Definition set_R (l : AMG_data) (v : dCSRmat) : AMG_data :=
  {| A := A l; P := P l; R := v; b := b l; x := x l; w := w l;
     cfmark := cfmark l; num_levels := num_levels l; LU := LU l |}.
Definition set_cfmark (l : AMG_data) (v : arr Z) : AMG_data :=
  {| A := A l; P := P l; R := R l; b := b l; x := x l; w := w l;
     cfmark := v; num_levels := num_levels l; LU := LU l |}.
Definition set_LU (l : AMG_data) (v : ILU_data) : AMG_data :=
  {| A := A l; P := P l; R := R l; b := b l; x := x l; w := w l;
     cfmark := cfmark l; num_levels := num_levels l; LU := v |}.
Definition set_num_levels (l : AMG_data) (v : Z) : AMG_data :=
  {| A := A l; P := P l; R := R l; b := b l; x := x l; w := w l;
     cfmark := cfmark l; num_levels := v; LU := LU l |}.
Definition set_work (l : AMG_data) (vb vx : dvector) (vw : arr Q) : AMG_data :=
  {| A := A l; P := P l; R := R l; b := vb; x := vx; w := vw;
     cfmark := cfmark l; num_levels := num_levels l; LU := LU l |}.

(** [fasp_dvec_create (m)]: [m] zeroed entries. *)
Definition fasp_dvec_create (m : Z) : dvector := repeat 0%Q (Z.to_nat m).

(** The variables of the main loop. *)
Record setup_state : Type := {
  mgl : arr AMG_data;
  param : AMG_param;
  vertices : arr Z;
  S : iCSRmat;
  level : Z;
  status : Z
}.

(** How one turn of the main loop ends. *)
Inductive turn : Type :=
| Next (st : setup_state)
| Break (st : setup_state)
| Finished (st : setup_state)
| Exit (code : Z)
| Lost.

(** How the setup ends: it returns a status and leaves the hierarchy and
    the parameters; or [fasp_chkerr], called by [fasp_amg_interp] with a
    negative status, ends the process with that code ([fasp_chkerr] is not
    among the sources; it returns when the status is not negative); or the
    C/F splitting did not come back. *)
Inductive outcome : Type :=
| Returned (status : Z) (mgl : arr AMG_data) (param : AMG_param)
| Exited (code : Z)
| NoReturn.

(** The body of [while ( (mgl[level].A.row>MAX(param->coarse_dof,50)) &&
    (level<max_levels-1) )].  The Schwarz setup, which writes data that only
    the Schwarz smoother reads, and the printing are left out. *)
Definition setup_turn (st : setup_state) : turn :=
  let level := level st in
  let lv := mgl st level in
  (* ILU decomposition *)
  let '(ilu_failed, st) :=
    if level <? ILU_levels (param st) then
      let '(s, lu) := fasp_ilu_dcsr_setup (A lv) (param st) in
      (s <? 0,
       {| mgl := upd (mgl st) level (set_LU lv lu); param := param st;
          vertices := vertices st; S := S st; level := level; status := s |})
    else (false, st) in
  if ilu_failed then Finished st
  else
    let lv := mgl st level in
    (* aggressive coarsening only up to the specified level *)
    let prm :=
      if (coarsening_type (param st) =? COARSE_AC)
         && (level >=? aggressive_level (param st))
      then set_coarsening_type (param st) COARSE_RS else param st in
    (* coarsening and the structure of the interpolation *)
    match fasp_amg_coarsening_rs (A lv) (vertices st) (P lv) (S st) prm with
    | None => Lost
    | Some c =>
        let lv := set_P lv (Coarsening.P_out c) in
        let st :=
          {| mgl := upd (mgl st) level lv; param := prm;
             vertices := vertices_out c; S := S_out c; level := level;
             status := Coarsening.status c |} in
        if Coarsening.status c <? 0 then Break st
        else
          (* the C/F marker *)
          let size := row (A lv) in
          let lv := set_cfmark lv (fasp_iarray_cp size (vertices st) (zeros 0)) in
          let st :=
            {| mgl := upd (mgl st) level lv; param := prm; vertices := vertices st;
               S := S st; level := level; status := status st |} in
          if col (P lv) <=? 50 then Break st
          else
            let prm :=
              if Qgtb (inject_Z (col (P lv)) * (15 # 10)) (inject_Z (row (A lv)))
              then set_coarsening_type prm COARSE_RS else prm in
            (* interpolation *)
            let r := fasp_amg_interp (A lv) (vertices st) (P lv) (S st) prm in
            let continue :=
              let lv := set_P lv (Interpolation.P_out r) in
              let st :=
                {| mgl := upd (mgl st) level lv; param := prm;
                   vertices := vertices st; S := S st; level := level;
                   status := Interpolation.status r |} in
              if Interpolation.status r <? 0 then Break st
              else
                (* restriction and the coarse level operator *)
                let lv := set_R lv (fasp_dcsr_trans (P lv)) in
                let a1 := fasp_dcsr_diagpref (fasp_blas_dcsr_rap (R lv) (A lv) (P lv)) in
                let m := upd (mgl st) level lv in
                Next {| mgl := upd m (level + 1) (set_A (m (level + 1)) a1);
                        param := prm; vertices := vertices st; S := S st;
                        level := level + 1; status := Interpolation.status r |} in
            match chkerr r with
            | Some code => if code <? 0 then Exit code else continue
            | None => continue
            end
    end.

(** What follows the loop: the number of levels and the work vectors. *)
Definition setup_finish (st : setup_state) : outcome :=
  let clevel := level st in
  let max_levels := clevel + 1 in
  let l0 := mgl st 0 in
  let m := upd (mgl st) 0
             (set_work (set_num_levels l0 max_levels) (b l0) (x l0) (zeros 0%Q)) in
  let m :=
    for_loop 1 (clevel + 1)
      (fun m level =>
         let lv := m level in
         let mm := row (A lv) in
         upd m level
           (set_work (set_num_levels lv max_levels)
              (fasp_dvec_create mm) (fasp_dvec_create mm) (zeros 0%Q)))
      m in
  Returned (status st) m (param st).

(** The main loop.  [level] grows by one in every turn and stays below
    [max_levels - 1], so a number of turns is given that cannot run out. *)
Fixpoint setup_loop (turns : nat) (max_levels : Z) (st : setup_state) : outcome :=
  if (row (A (mgl st (level st))) >? ZMAX (coarse_dof (param st)) 50)
     && (level st <? max_levels - 1) then
    match turns with
    | O => NoReturn
    | Datatypes.S turns' =>
        match setup_turn st with
        | Next st' => setup_loop turns' max_levels st'
        | Break st' => setup_finish st'
        | Finished st' => Returned (status st') (mgl st') (param st')
        | Exit code => Exited code
        | Lost => NoReturn
        end
    end
  else setup_finish st.

(** [fasp_amg_setup_rs (mgl, param)]; [S0] is what the uninitialised local
    [S] holds.  The AMLI coefficients and the copies of [ILU_levels] and
    [schwarz_levels] into [mgl], which nothing here reads, are left out, and
    so are the steps compiled in for UMFPACK and MUMPS. *)
Definition fasp_amg_setup_rs (mgl0 : arr AMG_data) (param0 : AMG_param)
  (S0 : iCSRmat) : outcome :=
  let max_levels := max_levels param0 in
  let vertices := zeros 0 in
  let prm := set_tentative_smooth param0 1%Q in
  let prm :=
    if (coarsening_type prm =? COARSE_AC) && (aggressive_level prm <? 1)
    then set_aggressive_level prm 1 else prm in
  let mgl1 := upd mgl0 0 (set_A (mgl0 0) (fasp_dcsr_diagpref (A (mgl0 0)))) in
  setup_loop (Z.to_nat max_levels) max_levels
    {| mgl := mgl1; param := prm; vertices := vertices; S := S0;
       level := 0; status := SUCCESS |}.

End Setup.
End AmgSetupRS.

(* ------------------------------------------------------------------ *)
(** ** mgrecur.c: the recursive cycle *)

Module MGRecur.

(** The cells of a [dvector] as a raw buffer, and the entries of a
    [dvector] after a routine has written into its buffer. *)
Definition buf (x : dvector) : arr Q := vget x.

Definition store (x : dvector) (a : arr Q) : dvector :=
  map a (zrange 0 (Z.of_nat (length x))).

(** The dot product of row [i] of [A] with [x]. *)
Definition row_dot (A : dCSRmat) (x : arr Q) (i : Z) : Q :=
  for_loop (IA A i) (IA A (i + 1))
    (fun t k => (t + aval A k * x (JA A k))%Q) 0%Q.

(** Modelled from the spec: [fasp_blas_dcsr_mxv (A, x, y)], "b_{l+1} = R_l
    r", that is [y = A x]; the kernel is not among the sources. *)
Definition fasp_blas_dcsr_mxv (A : dCSRmat) (x y : arr Q) : arr Q :=
  for_loop 0 (row A) (fun y i => upd y i (row_dot A x i)) y.

(** Modelled from the spec: [fasp_blas_dcsr_aAxpy (alpha, A, x, y)],
    "r = b_l - A_l x_l" and "x_l += P_l x_{l+1}", that is
    [y = y + alpha A x]; the kernel is not among the sources. *)
Definition fasp_blas_dcsr_aAxpy (alpha : Q) (A : dCSRmat) (x y : arr Q) : arr Q :=
  for_loop 0 (row A) (fun y i => upd y i (y i + alpha * row_dot A x i)%Q) y.

(** [fasp_dvec_set (n, x, val)]: [n > 0] also sets [x->row]; otherwise the
    [x->row] entries there are are set. *)
Definition fasp_dvec_set (n : Z) (x : dvector) (v : Q) : dvector :=
  if n >? 0 then repeat v (Z.to_nat n) else repeat v (length x).

(** The steps of a cycle, as a trace records them. *)
Inductive event : Type :=
| PreSmooth (level : Z)
| Residual (level : Z)
| Restrict (level : Z)
| ZeroCorrection (level : Z)
| Prolong (level : Z)
| PostSmooth (level : Z)
| CoarseSolve (level : Z).

Section Cycle.
Context {D : SmootherData}.

(** The smoothers and the solver of the coarsest level (the direct solver
    compiled in, or [fasp_coarse_itsolver]): each returns the new [x]. *)
Class Externals : Type := {
  fasp_smoother_dcsr_ilu : dCSRmat -> dvector -> dvector -> ILU_data -> dvector;
  fasp_dcsr_presmoothing :
    Z -> dCSRmat -> dvector -> dvector -> Z -> Z -> Z -> Z -> Q -> Z -> Z -> arr Z -> dvector;
  fasp_dcsr_postsmoothing :
    Z -> dCSRmat -> dvector -> dvector -> Z -> Z -> Z -> Z -> Q -> Z -> Z -> arr Z -> dvector;
  coarse_solver : dCSRmat -> dvector -> dvector -> AMG_param -> dvector
}.

Context {E : Externals}.

Definition set_x (l : AMG_data) (v : dvector) : AMG_data :=
  {| A := A l; P := P l; R := R l; b := b l; x := v; w := w l;
     cfmark := cfmark l; num_levels := num_levels l; LU := LU l |}.
Definition set_b (l : AMG_data) (v : dvector) : AMG_data :=
  {| A := A l; P := P l; R := R l; b := v; x := x l; w := w l;
     cfmark := cfmark l; num_levels := num_levels l; LU := LU l |}.
Definition set_w (l : AMG_data) (v : arr Q) : AMG_data :=
  {| A := A l; P := P l; R := R l; b := b l; x := x l; w := v;
     cfmark := cfmark l; num_levels := num_levels l; LU := LU l |}.

(** A hierarchy with the trace of what has been done to it. *)
Definition run : Type := arr AMG_data * list event.

(** "pre smoothing" *)
Definition pre_smoothing (param : AMG_param) (level : Z) (mgl : arr AMG_data)
  : arr AMG_data :=
  let l0 := mgl level in
  let m0 := row (A l0) in
  let e0 :=
    if level <? ILU_levels param
    then fasp_smoother_dcsr_ilu (A l0) (b l0) (x l0) (LU l0)
    else fasp_dcsr_presmoothing (smoother param) (A l0) (b l0) (x l0)
           (presmooth_iter param) 0 (m0 - 1) 1 (relaxation param)
           (polynomial_degree param) (smooth_order param) (cfmark l0) in
  upd mgl level (set_x l0 e0).

(** "form residual r = b - A x" *)
Definition form_residual (level : Z) (mgl : arr AMG_data) : arr AMG_data :=
  let l0 := mgl level in
  let m0 := row (A l0) in
  let r := fasp_array_cp m0 (buf (b l0)) (w l0) in
  let r := fasp_blas_dcsr_aAxpy (-1) (A l0) (buf (x l0)) r in
  upd mgl level (set_w l0 r).

(** "restriction r1 = R*r0" *)
Definition restriction (level : Z) (mgl : arr AMG_data) : arr AMG_data :=
  let l0 := mgl level in
  let l1 := mgl (level + 1) in
  let b1 := store (b l1) (fasp_blas_dcsr_mxv (R l0) (w l0) (buf (b l1))) in
  upd mgl (level + 1) (set_b l1 b1).

(** [fasp_dvec_set(m1,e1,0.0)] *)
Definition zero_correction (level : Z) (mgl : arr AMG_data) : arr AMG_data :=
  let l1 := mgl (level + 1) in
  let m1 := row (A l1) in
  upd mgl (level + 1) (set_x l1 (fasp_dvec_set m1 (x l1) 0%Q)).

(** "prolongation e0 = e0 + P*e1" *)
Definition prolongation (level : Z) (mgl : arr AMG_data) : arr AMG_data :=
  let l0 := mgl level in
  let l1 := mgl (level + 1) in
  let e0 := store (x l0) (fasp_blas_dcsr_aAxpy 1 (P l0) (buf (x l1)) (buf (x l0))) in
  upd mgl level (set_x l0 e0).

(** "post smoothing" *)
Definition post_smoothing (param : AMG_param) (level : Z) (mgl : arr AMG_data)
  : arr AMG_data :=
  let l0 := mgl level in
  let m0 := row (A l0) in
  let e0 :=
    if level <? ILU_levels param
    then fasp_smoother_dcsr_ilu (A l0) (b l0) (x l0) (LU l0)
    else fasp_dcsr_postsmoothing (smoother param) (A l0) (b l0) (x l0)
           (postsmooth_iter param) 0 (m0 - 1) (-1) (relaxation param)
           (polynomial_degree param) (smooth_order param) (cfmark l0) in
  upd mgl level (set_x l0 e0).

(** "coarsest level solver" *)
Definition coarsest_solve (param : AMG_param) (level : Z) (mgl : arr AMG_data)
  : arr AMG_data :=
  let l0 := mgl level in
  upd mgl level (set_x l0 (coarse_solver (A l0) (b l0) (x l0) param)).

(** [for (i=0; i<cycle_type; ++i) call (...)]: [n] calls in a row, each on
    what the one before left; [None] as soon as one does not come back. *)
Fixpoint repeat_call (n : nat) (call : arr AMG_data -> option run) (r : run)
  : option run :=
  match n with
  | O => Some r
  | Datatypes.S n' =>
      match call (fst r) with
      | None => None
      | Some (mgl, tr) => repeat_call n' call (mgl, snd r ++ tr)
      end
  end.

(** [fasp_solver_mgrecur (mgl, param, level)]: the hierarchy it leaves and
    the trace of its steps.  [depth] bounds the nesting of the calls;
    [None] when it is used up. *)
Fixpoint fasp_solver_mgrecur (depth : nat) (param : AMG_param) (level : Z)
  (mgl : arr AMG_data) : option run :=
  match depth with
  | O => None
  | Datatypes.S depth' =>
      if level <? num_levels (mgl level) - 1 then
        let mgl := pre_smoothing param level mgl in
        let mgl := form_residual level mgl in
        let mgl := restriction level mgl in
        let mgl := zero_correction level mgl in
        match repeat_call (Z.to_nat (cycle_type param))
                (fasp_solver_mgrecur depth' param (level + 1))
                (mgl, [PreSmooth level; Residual level; Restrict level;
                       ZeroCorrection (level + 1)]) with
        | None => None
        | Some (mgl, tr) =>
            let mgl := prolongation level mgl in
            let mgl := post_smoothing param level mgl in
            Some (mgl, tr ++ [Prolong level; PostSmooth level])
        end
      else
        Some (coarsest_solve param level mgl, [CoarseSolve level])
  end.

End Cycle.
End MGRecur.

(* ------------------------------------------------------------------ *)
(** ** Concrete inputs, for evaluating the routines *)

Module Samples.
Import BlaSparseCSR StrengthGraph Interpolation Coarsening.

(** One assignment of the constants that the sources leave open, on a
    machine that does not round. *)
Definition sample_constants : Constants :=
  {| COARSE_RS := 1; COARSE_AC := 4; COARSE_CR := 3;
     INTERP_REG := 1; INTERP_ENG_MIN := 3; INTERP_STD := 2;
     ERROR_AMG_COARSE_TYPE := -32; ERROR_AMG_INTERP_TYPE := -30;
     SMALLREAL := 1 # 100000000000000000000;
     REAL_add := Qplus; REAL_sub := Qminus; REAL_mul := Qmult; REAL_div := Qdiv |}.

(** A matrix from its three arrays. *)
Definition csr (m n : Z) (ia ja : list Z) (a : list Q) : dCSRmat :=
  {| row := m; col := n; nnz := Z.of_nat (length ja);
     IA := of_list 0 ia; JA := of_list 0 ja; val := Some (of_list 0%Q a) |}.

Definition empty_matrix : dCSRmat := csr 0 0 [0] [] [].

Definition empty_graph : iCSRmat :=
  {| irow := 0; icol := 0; innz := 0; iIA := zeros 0; iJA := zeros 0; ival := None |}.

(** The default parameters of [fasp_param_amg_init], for the fields kept. *)
Definition default_param : AMG_param :=
  {| print_level := 0; max_levels := 20; coarse_dof := 500; cycle_type := 1;
     tol := 1 # 1000000; smoother := 2; smooth_order := 1;
     presmooth_iter := 1; postsmooth_iter := 1; relaxation := 1;
     polynomial_degree := 3; coarsening_type := 1; interpolation_type := 1;
     strong_threshold := 3 # 10; max_row_sum := 9 # 10;
     truncation_threshold := 2 # 10; aggressive_level := 0; aggressive_path := 1;
     tentative_smooth := 67 # 100; ILU_levels := 0; schwarz_levels := 0 |}.

(** Stand-ins for the routines that are parameters: each leaves its
    operand as it is. *)
Definition idle_interpolation : Interpolation.Externals :=
  {| interp_RS := fun _ _ P _ => P;
     interp_EM := fun _ _ P _ => P;
     interp_STD := fun _ _ P _ _ => P |}.

Definition idle_coarsening : Coarsening.Externals :=
  {| form_coarse_level_ag := fun _ _ v _ _ _ => (v, 0);
     fasp_amg_coarsening_cr := fun _ _ _ v _ => (v, 0);
     generate_sparsity_P := fun P _ _ m n =>
       {| row := m; col := n; nnz := nnz P; IA := IA P; JA := JA P; val := val P |};
     generate_sparsity_P_std := fun P _ _ m n =>
       {| row := m; col := n; nnz := nnz P; IA := IA P; JA := JA P; val := val P |} |}.

(** A VMB aggregation that reports [n] aggregates. *)
Definition vmb_reporting (n : Z) : PreAMGSetupUA.Externals :=
  {| PreAMGSetupUA.VMB := 1;
     PreAMGSetupUA.aggregation_vmb := fun _ _ _ => (0, n);
     PreAMGSetupUA.aggregation_pairwise := fun _ _ _ => (0, n) |}.

Definition vmb_param : PreAMGSetupUA.AMG_param :=
  {| PreAMGSetupUA.aggregation_type := 1; PreAMGSetupUA.strong_coupled := 8 # 100 |}.

(** A matrix of which only the number of rows matters. *)
Definition rows_only (m : Z) : dCSRmat :=
  {| row := m; col := m; nnz := 0; IA := zeros 0; JA := zeros 0; val := None |}.

(** An operator with the rows [-1, -1/10, 1] and [1]. *)
Definition two_row_operator : dCSRmat :=
  csr 2 2 [0; 3; 4] [0; 1; 0; 1] [-1; -(1 # 10); 1; 1]%Q.

(** A 3 x 3 matrix with the rows [4, -1, -2], [1] and [1] (on the
    diagonal): with the threshold [1/2], the entry [-1] of the first row
    equals the threshold times the least entry. *)
Definition boundary_operator : dCSRmat :=
  csr 3 3 [0; 3; 4; 5] [0; 1; 2; 1; 2] [4; -1; -2; 1; 1]%Q.

(** The rows [2, -1] and [0, 2]: the first vertex depends on the second,
    the second on none. *)
Definition one_way_operator : dCSRmat :=
  csr 2 2 [0; 2; 3] [0; 1; 1] [2; -1; 2]%Q.

(** Three vertices on a directed cycle: row [i] holds [2] on the diagonal
    and [-1] in the column of the next vertex. *)
Definition cycle_operator : dCSRmat :=
  csr 3 3 [0; 2; 4; 6] [0; 1; 1; 2; 2; 0] [2; -1; 2; -1; 2; -1]%Q.

(** A 2 x 3 matrix with the rows [(0, 1) (2, 5)] and [(1, 7)]. *)
Definition wide_operator : dCSRmat :=
  csr 2 3 [0; 2; 3] [0; 2; 1] [1; 5; 7]%Q.

(** A smoother and a coarse solver for evaluation: the smoother leaves [x]
    alone and the solver of the coarsest level returns [b]. *)
Definition no_data : SmootherData := {| ILU_data := unit; ILU_null := tt |}.

Definition plain_parts : @MGRecur.Externals no_data :=
  {| MGRecur.fasp_smoother_dcsr_ilu := fun _ _ x _ => x;
     MGRecur.fasp_dcsr_presmoothing := fun _ _ _ x _ _ _ _ _ _ _ _ => x;
     MGRecur.fasp_dcsr_postsmoothing := fun _ _ _ x _ _ _ _ _ _ _ _ => x;
     MGRecur.coarse_solver := fun _ b _ _ => b |}.

(** Two levels: a 2 x 2 operator, restricted to one unknown. *)
Definition fine_level : @AMG_data no_data :=
  {| A := csr 2 2 [0; 2; 4] [0; 1; 0; 1] [2; -1; -1; 2]%Q;
     P := csr 2 1 [0; 1; 2] [0; 0] [1; 1]%Q;
     R := csr 1 2 [0; 2] [0; 1] [1; 1]%Q;
     b := [1; 1]%Q; x := [0; 0]%Q; w := zeros 0%Q; cfmark := zeros 0;
     num_levels := 2; LU := ILU_null |}.

Definition coarse_level : @AMG_data no_data :=
  {| A := csr 1 1 [0; 1] [0] [2]%Q;
     P := empty_matrix; R := empty_matrix;
     b := [0]%Q; x := [0]%Q; w := zeros 0%Q; cfmark := zeros 0;
     num_levels := 2; LU := ILU_null |}.

Definition two_levels : arr (@AMG_data no_data) :=
  fun l => if l =? 0 then fine_level else coarse_level.

(** The identity matrix with [n] rows, by its arrays: position [p] is the
    diagonal of row [p]. *)
Definition identity_operator (n : Z) : dCSRmat :=
  {| row := n; col := n; nnz := n; IA := fun i => i; JA := fun p => p;
     val := Some (fun _ => 1%Q) |}.

(** Stand-ins for the routines the setup calls: an ILU setup that succeeds,
    a product with the rows of [R] and the columns of [P], no reordering. *)
Definition idle_setup : @AmgSetupRS.Externals no_data :=
  {| AmgSetupRS.fasp_ilu_dcsr_setup := fun _ _ => (0, ILU_null);
     AmgSetupRS.fasp_blas_dcsr_rap := fun R A P =>
       {| row := row R; col := col P; nnz := nnz A; IA := IA A; JA := JA A;
          val := val A |};
     AmgSetupRS.fasp_dcsr_diagpref := fun M => M |}.

(** Levels that all hold the matrix [M] and nothing else yet. *)
Definition flat_levels (M : dCSRmat) : arr (@AMG_data no_data) :=
  fun _ => {| A := M; P := empty_matrix; R := empty_matrix; b := []; x := [];
              w := zeros 0%Q; cfmark := zeros 0; num_levels := 0; LU := ILU_null |}.

(** The matrix of a chain of [n] vertices: [2] on the diagonal and [-1]
    next to it.  Row [0] has the positions [0] and [1], a later row [i] the
    positions from [3 i - 1] on. *)
Definition chain_operator (n : Z) : dCSRmat :=
  {| row := n; col := n; nnz := 3 * n - 2;
     IA := fun i => if i <=? 0 then 0 else if i <? n then 3 * i - 1 else 3 * n - 2;
     JA := fun p => (p + 1) / 3 - 1 + (p + 1) mod 3;
     val := Some (fun p => if (p + 1) mod 3 =? 1 then 2%Q else (-1)%Q) |}.

(** [n] rows that each store their diagonal twice: [4], and then [-1]. *)
Definition doubled_operator (n : Z) : dCSRmat :=
  {| row := n; col := n; nnz := 2 * n; IA := fun i => 2 * i; JA := fun p => p / 2;
     val := Some (fun p => if p mod 2 =? 0 then 4%Q else (-1)%Q) |}.

(** The default parameters with the coarsest size lowered to [50]. *)
Definition small_param : AMG_param :=
  {| print_level := 0; max_levels := 20; coarse_dof := 50; cycle_type := 1;
     tol := 1 # 1000000; smoother := 2; smooth_order := 1;
     presmooth_iter := 1; postsmooth_iter := 1; relaxation := 1;
     polynomial_degree := 3; coarsening_type := 1; interpolation_type := 1;
     strong_threshold := 3 # 10; max_row_sum := 9 # 10;
     truncation_threshold := 2 # 10; aggressive_level := 0; aggressive_path := 1;
     tentative_smooth := 67 # 100; ILU_levels := 0; schwarz_levels := 0 |}.

(** Stand-ins for the routines the setup calls on a chain: the product is
    the chain with the rows of [R]. *)
Definition chain_setup : @AmgSetupRS.Externals no_data :=
  {| AmgSetupRS.fasp_ilu_dcsr_setup := fun _ _ => (0, ILU_null);
     AmgSetupRS.fasp_blas_dcsr_rap := fun R _ _ => chain_operator (row R);
     AmgSetupRS.fasp_dcsr_diagpref := fun M => M |}.

End Samples.

(* ------------------------------------------------------------------ *)
(** ** Vocabulary of the statements *)

Module Rows.

(** The positions of row [i] of a matrix with row offsets [ia]. *)
Definition positions (ia : arr Z) (i : Z) : list Z := zrange (ia i) (ia (i + 1)).

(** The values and the columns of row [i], in storage order. *)
Definition row_vals (M : dCSRmat) (i : Z) : list Q := map (aval M) (positions (IA M) i).
Definition row_cols (M : dCSRmat) (i : Z) : list Z := map (JA M) (positions (IA M) i).
Definition irow_cols (S : iCSRmat) (i : Z) : list Z := map (iJA S) (positions (iIA S) i).

Fixpoint qsum (l : list Q) : Q :=
  match l with
  | [] => 0%Q
  | v :: t => (v + qsum t)%Q
  end.

Definition negatives (l : list Q) : list Q := filter (fun v => Qltb v 0) l.
Definition positives (l : list Q) : list Q := filter (fun v => Qgtb v 0) l.

(** [(i, j, v)] is an entry of [M]: [i] is a row of [M], and some position
    of that row holds column [j] and value [v]. *)
Definition entry (M : dCSRmat) (i j : Z) (v : Q) : Prop :=
  0 <= i < row M /\
  exists p, IA M i <= p < IA M (i + 1) /\ JA M p = j /\ aval M p = v.

(** The row offsets start at [0], do not decrease, and end at [nnz]; the
    columns are in range. *)
Record csr_valid (M : dCSRmat) : Prop := {
  valid_row : 0 <= row M;
  valid_col : 0 <= col M;
  valid_first : IA M 0 = 0;
  valid_last : IA M (row M) = nnz M;
  valid_mono : forall i, 0 <= i < row M -> IA M i <= IA M (i + 1);
  valid_cols : forall p, 0 <= p < nnz M -> 0 <= JA M p < col M
}.

End Rows.

(* ------------------------------------------------------------------ *)
(** ** Auxiliary notions of the proofs *)

(** The truncation of one row, told on the list of its values. *)
Module TruncatedRow.

Definition f_min (m v : Q) : Q := if Qltb v 0 then (if Qltb v m then v else m) else m.
Definition f_max (m v : Q) : Q := if Qgtb v 0 then (if Qgtb v m then v else m) else m.
Definition f_nsum (s v : Q) : Q := if Qltb v 0 then (s + v)%Q else s.
Definition f_psum (s v : Q) : Q := if Qgtb v 0 then (s + v)%Q else s.

(** A negative (positive) entry is kept when it is not above (below) the
    fraction [eps] of the extreme. *)
Definition negkeep (eps mMin v : Q) : bool := Qltb v 0 && negb (Qgtb v (mMin * eps)).
Definition poskeep (eps pMax v : Q) : bool := Qgtb v 0 && negb (Qltb v (pMax * eps)).
Definition keep (eps mMin pMax v : Q) : bool := negkeep eps mMin v || poskeep eps pMax v.

Definition f_knsum (eps mMin s v : Q) : Q := if negkeep eps mMin v then (s + v)%Q else s.
Definition f_kpsum (eps pMax s v : Q) : Q := if poskeep eps pMax v then (s + v)%Q else s.

Definition scaled (eps mMin mSum pSum mT pT v : Q) : Q :=
  if negkeep eps mMin v then (v / mT * mSum)%Q else (v / pT * pSum)%Q.

(** The values of a truncated row, from the values [vs] of the row. *)
Definition out_vals (eps : Q) (vs : list Q) : list Q :=
  let mMin := fold_left f_min vs 0%Q in
  let pMax := fold_left f_max vs 0%Q in
  let mSum := fold_left f_nsum vs 0%Q in
  let pSum := fold_left f_psum vs 0%Q in
  let mT := fold_left (f_knsum eps mMin) vs 0%Q in
  let pT := fold_left (f_kpsum eps pMax) vs 0%Q in
  map (scaled eps mMin mSum pSum mT pT) (filter (keep eps mMin pMax) vs).

(** The values of row [i] as the truncation reads them. *)
Definition row_in (pia : arr Z) (pv : arr Q) (i : Z) : list Q :=
  map pv (zrange (pia i) (pia (i + 1))).

(** The state of the truncation before the first row, and after the rows
    before [i]. *)
Definition start_state : Interpolation.trunc_state :=
  {| Interpolation.num_lost := 0; Interpolation.index1 := 0;
     Interpolation.index2 := 0; Interpolation.tIA := zeros 0;
     Interpolation.tJA := zeros 0; Interpolation.tval := zeros 0%Q |}.

Definition prefix (P : dCSRmat) (eps : Q) (i : Z) : Interpolation.trunc_state :=
  for_loop 0 i (Interpolation.truncate_row (IA P) (JA P) (aval P) eps) start_state.

End TruncatedRow.

(** The hierarchy as the cycle sees it. *)
Module Hierarchy.
Import MGRecur.

Section WithData.
Context {D : SmootherData}.

(** Every level records the same number of levels, as the setup leaves it. *)
Definition coherent (n : Z) (mgl : arr AMG_data) : Prop :=
  forall l, num_levels (mgl l) = n.

(** [calls call m runs m']: the calls [call], made one after the other
    from [m], come back with [runs] (what each left, and its trace) and
    leave [m']. *)
Inductive calls (call : arr AMG_data -> option run)
  : arr AMG_data -> list run -> arr AMG_data -> Prop :=
| calls_none (m : arr AMG_data) : calls call m [] m
| calls_more (m m1 m' : arr AMG_data) (t : list event) (rest : list run) :
    call m = Some (m1, t) -> calls call m1 rest m' ->
    calls call m ((m1, t) :: rest) m'.

(** The parts of a level that a cycle does not write. *)
Definition fixed_part (l : AMG_data) : dCSRmat * dCSRmat * dCSRmat * arr Z * Z * ILU_data :=
  (A l, P l, R l, cfmark l, num_levels l, LU l).

(** The shape the setup gives the levels above the coarsest: the columns
    of the restriction index the rows of the level, the right-hand side of
    the next level has at most as many entries as the restriction has rows,
    and the next level is not empty. *)
Definition shaped (n : Z) (mgl : arr AMG_data) : Prop :=
  forall l, 0 <= l < n - 1 ->
    (forall i k, 0 <= i < row (R (mgl l)) ->
                 IA (R (mgl l)) i <= k < IA (R (mgl l)) (i + 1) ->
                 0 <= JA (R (mgl l)) k < row (A (mgl l)))
    /\ Z.of_nat (length (b (mgl (l + 1)))) <= row (R (mgl l))
    /\ 0 < row (A (mgl (l + 1))).

(** Two hierarchies agree down to level [l]: the same fixed parts and
    lengths of the right-hand sides everywhere, and the same [b] and [x] on
    the levels [0 .. l].  The work arrays and the vectors of the coarser
    levels may differ. *)
Definition agree (l : Z) (m1 m2 : arr AMG_data) : Prop :=
  (forall k, fixed_part (m1 k) = fixed_part (m2 k))
  /\ (forall k, length (b (m1 k)) = length (b (m2 k)))
  /\ (forall k, 0 <= k <= l -> b (m1 k) = b (m2 k) /\ x (m1 k) = x (m2 k)).

(** A cycle is started on level 0 with the right-hand side [bv] and the
    first guess [xv]. *)
Definition start (bv xv : dvector) (mgl : arr AMG_data) : arr AMG_data :=
  upd mgl 0 (set_b (set_x (mgl 0) xv) bv).

End WithData.

(** Entry [i] of the product of the matrix [M] with the vector [v]: the
    sum over the positions of row [i]. *)
Definition mat_vec (M : dCSRmat) (v : arr Q) (i : Z) : Q :=
  Rows.qsum (map (fun p => (aval M p * v (JA M p))%Q) (Rows.positions (IA M) i)).

(** "r = b - A x": the cells of [r] that are rows of [A] hold the residual,
    the others what [old] held. *)
Definition residual_of (M : dCSRmat) (bv xv old r : arr Q) : Prop :=
  forall i, if (0 <=? i) && (i <? row M)
            then (r i == bv i - mat_vec M xv i)%Q
            else r i = old i.

(** "b1 = R r": [b1] has the entries of [old], those that are rows of [M]
    replaced by the product. *)
Definition restriction_of (M : dCSRmat) (r : arr Q) (old b1 : dvector) : Prop :=
  length b1 = length old /\
  forall i, 0 <= i < Z.of_nat (length old) ->
            if i <? row M then (vget b1 i == mat_vec M r i)%Q
            else vget b1 i = vget old i.

(** "x1 = 0": [m1] zeros, or as many as [old] has entries when [m1] is
    not positive. *)
Definition zero_vector (m1 : Z) (old e1 : dvector) : Prop :=
  length e1 = (if m1 >? 0 then Z.to_nat m1 else length old) /\
  Forall (fun v => v = 0%Q) e1.

(** "x = x + P x1": [e0'] has the entries of [old], those that are rows of
    [M] increased by the product. *)
Definition prolongation_of (M : dCSRmat) (x1 : arr Q) (old e0' : dvector) : Prop :=
  length e0' = length old /\
  forall i, 0 <= i < Z.of_nat (length old) ->
            if i <? row M then (vget e0' i == vget old i + mat_vec M x1 i)%Q
            else vget e0' i = vget old i.
End Hierarchy.

(* ------------------------------------------------------------------ *)
(** ** Vocabulary of the transposition *)

Module Transposed.

(** Among the positions before [t], how many hold column [c], and how many
    hold a column before [c]. *)
Definition count (ja : arr Z) (c t : Z) : Z :=
  Z.of_nat (length (filter (fun p => ja p =? c) (zrange 0 t))).

Definition below (ja : arr Z) (c t : Z) : Z :=
  Z.of_nat (length (filter (fun p => ja p <? c) (zrange 0 t))).

(** Where position [p] of a matrix with [N] positions goes. *)
Definition dest (ja : arr Z) (N p : Z) : Z := below ja (ja p) N + count ja (ja p) p.

(** The state of the second pass when the positions before [t] have been
    scattered. *)
Definition scattered {T : Type} (n m N : Z) (aia aja : arr Z) (v : option (arr T))
  (t : Z) (st : arr Z * arr Z * arr T) : Prop :=
  let '(tia, tja, tval) := st in
  (forall k, tia k = if (1 <=? k) && (k <=? m)
                     then below aja (k - 1) N + count aja (k - 1) t else 0) /\
  (forall p i, 0 <= i < n -> aia i <= p < aia (i + 1) -> p < t ->
               tja (dest aja N p) = i /\
               forall av, v = Some av -> tval (dest aja N p) = av p).

(** In every row the columns do not decrease along the positions. *)
Definition sorted_rows (M : dCSRmat) : Prop :=
  forall i p q, 0 <= i < row M -> IA M i <= p -> p <= q -> q < IA M (i + 1) ->
                JA M p <= JA M q.

(** [T] holds the entry [(j, i, v)] exactly when [M] holds [(i, j, v)]. *)
Definition exact_transpose (M T : dCSRmat) : Prop :=
  row T = col M /\ col T = row M /\ nnz T = nnz M /\
  forall i j v, Rows.entry T j i v <-> Rows.entry M i j v.

(** [M'] has the sizes and the entries of [M]. *)
Definition same_entries (M M' : dCSRmat) : Prop :=
  row M' = row M /\ col M' = col M /\ nnz M' = nnz M /\
  forall i j v, Rows.entry M' i j v <-> Rows.entry M i j v.

End Transposed.

(* ------------------------------------------------------------------ *)
(** ** Vocabulary of the strength graph *)

Module Strength.
Import BlaSparseCSR StrengthGraph Rows.

(** Each row holds its diagonal, at one position. *)
Definition diagonal_once (A : dCSRmat) : Prop :=
  forall i, 0 <= i < row A ->
    exists d, IA A i <= d < IA A (i + 1) /\ JA A d = i /\
              forall p, IA A i <= p < IA A (i + 1) -> JA A p = i -> p = d.

(** [m] is the least of [0] and the members of [l]. *)
Definition capped_min (l : list Q) (m : Q) : Prop :=
  (m <= 0)%Q /\ (forall v, In v l -> (m <= v)%Q) /\ (m = 0%Q \/ In m l).

(** The positions that the compression has kept when it reaches position
    [j] of the marked array [mk], and the state it is in then. *)
Definition kept_before (mk : arr Z) (j : Z) : list Z :=
  filter (fun p => mk p >? -1) (zrange 0 j).

Definition compressing (mk : arr Z) (j : Z) (st : arr Z * Z) : Prop :=
  let '(s, idx) := st in
  idx = Z.of_nat (length (kept_before mk j)) /\
  (forall q, j <= q -> s q = mk q) /\
  to_list s idx = map mk (kept_before mk j).

Section WithConstants.
Context {K : Constants}.

(** Position [p] of row [i] is a strong edge. *)
Definition strong (A : dCSRmat) (cap th : Q) (i p : Z) : bool :=
  negb (JA A p =? i)
  && negb (all_weak A (fasp_dcsr_getdiag 0 A) cap i)
  && Qltb (aval A p) (REAL_mul th (row_scale A i)).

(** The entries of a list added up from the left, from [0], each sum
    rounded. *)
Definition rounded_sum (l : list Q) : Q := fold_left REAL_add l 0%Q.

(** The strong positions of row [i], and those of the rows before [k]. *)
Definition strong_row (A : dCSRmat) (cap th : Q) (i : Z) : list Z :=
  filter (strong A cap th i) (positions (IA A) i).

Definition strong_before (A : dCSRmat) (cap th : Q) (k : Z) : list Z :=
  flat_map (strong_row A cap th) (zrange 0 k).

(** The row sum of row [i], taken against its diagonal entry (at position
    [d]), is over the cap. *)
Definition over_cap (A : dCSRmat) (cap : Q) (i d : Z) : Prop :=
  (cap < 1)%Q /\
  (cap < REAL_div (ABS (rounded_sum (row_vals A i)))
                  (MAX SMALLREAL (ABS (aval A d))))%Q.

(** [S] is the compacted graph of the strong edges of [A]: its column array
    holds the columns of the strong positions, row after row, and its
    offsets count them. *)
Definition compacted (A : dCSRmat) (cap th : Q) (S : iCSRmat) : Prop :=
  irow S = row A /\ icol S = col A /\
  innz S = Z.of_nat (length (strong_before A cap th (row A))) /\
  to_list (iJA S) (innz S) = map (JA A) (strong_before A cap th (row A)) /\
  (forall i, 0 <= i < row A ->
             iIA S i = Z.of_nat (length (strong_before A cap th i))) /\
  (0 < innz S -> iIA S (row A) = innz S).

End WithConstants.

(** A level operator as the coarsening expects it: square, with valid
    arrays, every row holding its diagonal at one position. *)
Definition level_operator (A : dCSRmat) : Prop :=
  csr_valid A /\ row A = col A /\ diagonal_once A.

(** The same, as a test on the arrays. *)
Definition level_operatorb (A : dCSRmat) : bool :=
  (0 <=? row A) && (row A =? col A) && (IA A 0 =? 0) && (IA A (row A) =? nnz A)
  && forallb (fun i => IA A i <=? IA A (i + 1)) (zrange 0 (row A))
  && forallb (fun p => (0 <=? JA A p) && (JA A p <? col A)) (zrange 0 (nnz A))
  && forallb (fun i => match filter (fun p => JA A p =? i) (positions (IA A) i) with
                       | [_] => true
                       | _ => false
                       end) (zrange 0 (row A)).

End Strength.

(* ------------------------------------------------------------------ *)
(** ** Vocabulary of the C/F splitting *)

Module Covering.
Import Coarsening.

(** [j] is a strong neighbour of [i]: a position of row [i] of [S] holds
    the column [j]. *)
Definition neighbour (S : iCSRmat) (i j : Z) : Prop :=
  exists p, iIA S i <= p < iIA S (i + 1) /\ iJA S p = j.

(** The columns of the first [row] rows of [S] are vertices. *)
Definition graph_cols (S : iCSRmat) (row : Z) : Prop :=
  forall i p, 0 <= i < row -> iIA S i <= p < iIA S (i + 1) -> 0 <= iJA S p < row.

(** Every fine strong neighbour of [i] shares a coarse strong neighbour
    with [i]. *)
Definition pairs_covered (S : iCSRmat) (vec : arr Z) (i : Z) : Prop :=
  forall j, neighbour S i j -> vec j = FGPT ->
            exists k, neighbour S i k /\ neighbour S j k /\ vec k = CGPT.

Definition fine_pairs_covered (S : iCSRmat) (row : Z) (vec : arr Z) : Prop :=
  forall i, 0 <= i < row -> vec i = FGPT -> pairs_covered S vec i.

(** Every fine vertex has a coarse vertex within two hops. *)
Definition two_hop_covered (S : iCSRmat) (row : Z) (vec : arr Z) : Prop :=
  forall i, 0 <= i < row -> vec i = FGPT ->
            exists k, 0 <= k < row /\ vec k = CGPT /\
                      (neighbour S i k \/
                       exists j, neighbour S i j /\ neighbour S j k).

(** The state of phase two at the top of the loop, with the index at [i]:
    the fine vertices before [i] are done; a cell of [graph_array] that
    holds [i] belongs to a coarse strong neighbour of [i]; a tentative
    coarse vertex that may still be taken back is coarse. *)
Record examined (S : iCSRmat) (row : Z) (st : phase2) (i : Z) : Prop := {
  done_before : forall i', 0 <= i' < i -> vec2 st i' = FGPT ->
                           pairs_covered S (vec2 st) i';
  marks_sound : forall k, 0 <= k < row ->
                          graph_array st k <= i /\
                          (graph_array st k = i ->
                           vec2 st k = CGPT /\ neighbour S i k);
  flag_binary : C_i_nonempty st = 0 \/ C_i_nonempty st = 1;
  tentative_coarse : ci_tilde_mark st = 0 -> ci_tilde st > -1 ->
                     vec2 st (ci_tilde st) = CGPT
}.

(** The strength graph as a matrix: offsets that start at [0], do not
    decrease and end at [innz], columns in range. *)
Record icsr_valid (S : iCSRmat) : Prop := {
  ivalid_row : 0 <= irow S;
  ivalid_first : iIA S 0 = 0;
  ivalid_last : iIA S (irow S) = innz S;
  ivalid_mono : forall i, 0 <= i < irow S -> iIA S i <= iIA S (i + 1);
  ivalid_cols : forall p, 0 <= p < innz S -> 0 <= iJA S p < icol S
}.

(** No vertex is a strong neighbour of itself. *)
Definition loop_free (S : iCSRmat) : Prop :=
  forall i p, 0 <= i < irow S -> iIA S i <= p < iIA S (i + 1) -> iJA S p <> i.

(** The number of vertices before [n] that are labelled coarse. *)
Definition coarse_count (v : arr Z) (n : Z) : Z :=
  Z.of_nat (length (filter (fun i => v i =? CGPT) (zrange 0 n))).

(** Some vertex is settled as fine or isolated. *)
Definition settled (v : arr Z) (row : Z) : Prop :=
  exists i, 0 <= i < row /\ (v i = FGPT \/ v i = ISPT).

(** The pairs of a measure and a vertex that the bucket lists hold, and
    the order of the buckets: the largest measure first. *)
Definition entries (q : list (Z * list Z)) : list (Z * Z) :=
  flat_map (fun b => map (pair (fst b)) (snd b)) q.

Definition decreasing (q : list (Z * list Z)) : Prop :=
  StronglySorted (fun a b => fst a > fst b) q.

(** The state of phase one between two steps: the lists hold undecided
    vertices only, each in the bucket of its measure, and [col] counts the
    coarse vertices. *)
Record queued (row : Z) (st : @phase1 bucket_lists) : Prop := {
  queue_sorted : decreasing (lol st);
  queue_members : forall m j, In (m, j) (entries (lol st)) ->
                              lambda st j = m /\ vec st j = UNPT /\ 0 <= j < row;
  queue_count : col1 st = coarse_count (vec st) row
}.

(** [queued], and with [b] set also that some vertex is settled. *)
Definition kept (row : Z) (b : bool) (st : @phase1 bucket_lists) : Prop :=
  queued row st /\ (b = true -> settled (vec st) row).

(** The number of vertices that depend strongly on [j]: the positions of
    [S] that hold the column [j]. *)
Definition dependents (S : iCSRmat) (j : Z) : Z :=
  Transposed.count (iJA S) j (innz S).

(** The state of step 3 of phase one when the vertices before [i] have
    been looked at. *)
Record sifted (S : iCSRmat) (row i : Z) (st : @phase1 bucket_lists) : Prop := {
  sift_queued : queued row st;
  sift_before : forall m j, In (m, j) (entries (lol st)) -> j < i;
  sift_positive : forall j, 0 <= j < i -> vec st j = UNPT -> lambda st j > 0;
  sift_measure : forall j, 0 <= j < row -> vec st j = UNPT ->
                           dependents S j <= lambda st j;
  sift_fine : forall j, 0 <= j < row -> vec st j = FGPT -> dependents S j <= 0;
  sift_labels : forall j, 0 <= j < row ->
                          vec st j = UNPT \/ vec st j = FGPT \/ vec st j = ISPT;
  sift_pending : forall j, i <= j < row -> vec st j = UNPT \/ vec st j = ISPT;
  sift_fresh : forall j, 0 <= j < row ->
                         settled (vec st) row \/ lambda st j = dependents S j
}.

(** The state of phase one at the top of the main loop: until a vertex is
    settled, every vertex is undecided and its measure is the number of its
    dependents, which is positive. *)
Record picking (S : iCSRmat) (row : Z) (st : @phase1 bucket_lists) : Prop := {
  pick_queued : queued row st;
  pick_fresh : forall j, 0 <= j < row ->
                         settled (vec st) row \/
                         (vec st j = UNPT /\ lambda st j = dependents S j /\
                          lambda st j > 0)
}.

(** The count of phase two: [col] does not exceed the number of coarse
    vertices, and one vertex is not coarse. *)
Record tallied (row : Z) (st : phase2) : Prop := {
  tally_count : col2 st <= coarse_count (vec2 st) row;
  tally_rest : exists i, 0 <= i < row /\ vec2 st i <> CGPT
}.

(** A bound on the turns that phase two still takes. *)
Definition turns_left (row : Z) (st : phase2) (i : Z) : Z :=
  2 * (row - i) - C_i_nonempty st.

End Covering.

From Stdlib Require Import Permutation.

(* ------------------------------------------------------------------ *)
(** ** BlaSparseCSR.c: further routines *)

Module SparseOps.

(** Error codes of [messages.h]. *)
Definition ERROR_MISC : Z := -19.

(** The two codes that the header among the sources does not define. *)
Class Codes : Type := {
  FASP_SUCCESS : Z;
  ERROR_UNKNOWN : Z
}.

(** How a routine ends that may call [fasp_chkerr] with an error code of
    [messages.h], all of which are negative: it returns, or the process
    ends with the code. *)
Inductive ending (T : Type) : Type :=
| Returns (v : T)
| Exits (code : Z).
Arguments Returns {T} v.
Arguments Exits {T} code.

(** The columns and values of row [i], paired, in storage order. *)
Definition row_entries (M : dCSRmat) (i : Z) : list (Z * Q) :=
  map (fun p => (JA M p, aval M p)) (Rows.positions (IA M) i).


(** The body of the row loop of [fasp_dcsr_diagpref], in the branch that
    runs without OpenMP: [base] is how far the pointers [A_j] and [A_data]
    have been moved on.  After the search loop [j] is at [row_size] or, for
    a row of fewer than two entries, at [1]. *)
Definition diagpref_row (A_i : arr Z) (st : arr Z * arr Q * Z) (i : Z)
  : ending (arr Z * arr Q * Z) :=
  let '(A_j, A_data, base) := st in
  let row_size := A_i (i + 1) - A_i i in
  if negb (A_j base =? i) then
    match find (fun j => A_j (base + j) =? i) (zrange 1 row_size) with
    | Some j =>
        let tempi := A_j base in
        let A_j := upd (upd A_j base (A_j (base + j))) (base + j) tempi in
        let tempd := A_data base in
        let A_data := upd (upd A_data base (A_data (base + j))) (base + j) tempd in
        Returns (A_j, A_data, base + row_size)
    | None =>
        if Z.max 1 row_size =? row_size then Exits ERROR_MISC
        else Returns (A_j, A_data, base + row_size)
    end
  else Returns (A_j, A_data, base + row_size).

(** The row loop of [fasp_dcsr_diagpref]; nothing follows the exit. *)
Definition diagpref_rows (A : dCSRmat) : ending (arr Z * arr Q * Z) :=
  for_loop 0 (row A)
    (fun st i => match st with
                 | Returns s => diagpref_row (IA A) s i
                 | Exits c => Exits c
                 end)
    (Returns (JA A, aval A, 0)).

(** [fasp_dcsr_diagpref (A)]: the matrix reordered in place, or the exit of
    [fasp_chkerr (ERROR_MISC, ...)]. *)
Definition fasp_dcsr_diagpref (A : dCSRmat) : ending dCSRmat :=
  match diagpref_rows A with
  | Returns (A_j, A_data, _) =>
      Returns {| row := row A; col := col A; nnz := nnz A; IA := IA A; JA := A_j;
                 val := match val A with Some _ => Some A_data | None => None end |}
  | Exits c => Exits c
  end.

Section WithConstants.
Context {K : Constants} {C : Codes}.

(** The two loops of [fasp_dcsr_regdiag (A, value)]: the values they leave,
    and the flag that tells that [goto FINISHED] has been taken. *)
Definition regdiag_scan (A : dCSRmat) (value : Q) : arr Q * bool :=
  for_loop 0 (row A)
    (fun (st : arr Q * bool) i =>
       for_loop (IA A i) (IA A (i + 1))
         (fun '((aj, finished) : arr Q * bool) k =>
            if finished then (aj, finished)
            else if i =? JA A k then
              if Qltb (aj k) 0 then (aj, true)
              else if Qltb (aj k) SMALLREAL then (upd aj k value, false)
              else (aj, false)
            else (aj, false))
         st)
    (aval A, false).

(** [fasp_dcsr_regdiag (A, value)]: the matrix it leaves and the status. *)
Definition fasp_dcsr_regdiag (A : dCSRmat) (value : Q) : dCSRmat * Z :=
  let '(aj, finished) := regdiag_scan A value in
  ({| row := row A; col := col A; nnz := nnz A; IA := IA A; JA := JA A;
      val := match val A with Some _ => Some aj | None => None end |},
   if finished then ERROR_UNKNOWN else FASP_SUCCESS).

(** What position [p] of row [i] holds after the regularization, and the
    state of the scan when it has come to position [k]. *)
Definition regular (A : dCSRmat) (value : Q) (i p : Z) : Q :=
  if (JA A p =? i) && Qltb (aval A p) SMALLREAL then value else aval A p.

Definition regdiag_scanned_to (A : dCSRmat) (value : Q) (k : Z) (st : arr Q * bool)
  : Prop :=
  (snd st = true ->
   exists i p, 0 <= i < row A /\ IA A i <= p < IA A (i + 1) /\ JA A p = i /\
               Qltb (aval A p) 0 = true) /\
  (snd st = false ->
   (forall p, k <= p -> fst st p = aval A p) /\
   (forall i p, 0 <= i < row A -> IA A i <= p < IA A (i + 1) -> p < k ->
                ~ (JA A p = i /\ Qltb (aval A p) 0 = true) /\
                fst st p = regular A value i p)).

(** Some row holds a negative value at a position of its diagonal. *)
Definition negative_diagonal (A : dCSRmat) : Prop :=
  exists i p, 0 <= i < row A /\ IA A i <= p < IA A (i + 1) /\ JA A p = i /\
              Qltb (aval A p) 0 = true.

End WithConstants.

(** First pass of [fasp_dcsr_compress (A, B, dtol)]: [index], [B->IA] and
    the count [k]. *)
Definition compress_index (A : dCSRmat) (dtol : Q) : arr Z * arr Z * Z :=
  for_loop 0 (row A)
    (fun '(index, bia, k) i =>
       let '(index, k) :=
         for_loop (IA A i) (IA A (i + 1))
           (fun '(index, k) j =>
              if Qgtb (ABS (aval A j)) dtol then (upd index k j, k + 1)
              else (index, k))
           (index, k) in
       (index, upd bia (i + 1) k, k))
    (zeros 0, upd (zeros 0) 0 (IA A 0), 0).

(** [fasp_dcsr_compress (A, B, dtol)]: the matrix left in [B]. *)
Definition fasp_dcsr_compress (A : dCSRmat) (dtol : Q) : dCSRmat :=
  let '(index, bia, k) := compress_index A dtol in
  let '(bja, bval) :=
    for_loop 0 k
      (fun '(bja, bval) i =>
         (upd bja i (JA A (index i)), upd bval i (aval A (index i))))
      (zeros 0, zeros 0%Q) in
  {| row := row A; col := col A; nnz := k; IA := bia; JA := bja; val := Some bval |}.

(** The loop of [fasp_dcsr_compress_inplace (A, dtol)]: the arrays, the
    count [k] and [iend]. *)
Definition compress_inplace_scan (A : dCSRmat) (dtol : Q)
  : arr Z * arr Z * arr Q * Z * Z :=
  for_loop 0 (row A)
    (fun '(ia, ja, a, k, iend) i =>
       let ibegin := iend in
       let iend := ia (i + 1) in
       let '(ja, a, k) :=
         for_loop ibegin iend
           (fun '(ja, a, k) j =>
              if Qgtb (ABS (a j)) dtol
              then (upd ja k (ja j), upd a k (a j), k + 1)
              else (ja, a, k))
           (ja, a, k) in
       (upd ia (i + 1) k, ja, a, k, iend))
    (IA A, JA A, aval A, 0, IA A 0).

(** [fasp_dcsr_compress_inplace (A, dtol)]: the matrix it leaves and the
    status. *)
Definition fasp_dcsr_compress_inplace {C : Codes} (A : dCSRmat) (dtol : Q)
  : dCSRmat * Z :=
  let '(ia, ja, a, k, iend) := compress_inplace_scan A dtol in
  let v := match val A with Some _ => Some a | None => None end in
  if k <=? nnz A
  then ({| row := row A; col := col A; nnz := k; IA := ia; JA := ja; val := v |},
        FASP_SUCCESS)
  else ({| row := row A; col := col A; nnz := nnz A; IA := ia; JA := ja; val := v |},
        ERROR_UNKNOWN).

(** The values of [INT], and what an addition of [INT]s leaves: the sum
    modulo [2^32], taken into that range. *)
Definition is_INT (z : Z) : Prop := -2147483648 <= z <= 2147483647.

Definition INT_wrap (z : Z) : Z := (z + 2147483648) mod 4294967296 - 2147483648.

(** [fasp_dcsr_shift (A, offset)]: [ai[i]+=offset] over [n = A->row+1]
    cells and [aj[i]+=offset] over [nnz] cells, in [INT] arithmetic. *)
Definition fasp_dcsr_shift (A : dCSRmat) (offset : Z) : dCSRmat :=
  let n := INT_wrap (row A + 1) in
  {| row := row A; col := col A; nnz := nnz A;
     IA := for_loop 0 n (fun ai i => upd ai i (INT_wrap (ai i + offset))) (IA A);
     JA := for_loop 0 (nnz A) (fun aj i => upd aj i (INT_wrap (aj i + offset))) (JA A);
     val := val A |}.


Definition perm_offsets (A : dCSRmat) (P : arr Z) : arr Z :=
  for_loop 0 (row A)
    (fun pia i => let k := P i in
                  upd pia (i + 1) (pia i + (IA A (k + 1) - IA A k)))
    (upd (zeros 0) 0 0).

Definition perm_rows (A : dCSRmat) (P pia : arr Z) : arr Z * arr Q :=
  for_loop 0 (row A)
    (fun (st : arr Z * arr Q) i =>
       let i1 := pia i in
       let i2 := pia (i + 1) - 1 in
       let k := P i in
       let start := IA A k in
       for_loop i1 (i2 + 1)
         (fun '(pja, pval) j =>
            let jaj := start + j - i1 in
            (upd pja j (JA A jaj), upd pval j (aval A jaj)))
         st)
    (zeros 0, zeros 0%Q).



(** The positions from [b] up to [e] whose value the compression keeps. *)
Definition kept_positions (A : dCSRmat) (dtol : Q) (b e : Z) : list Z :=
  filter (fun j => Qgtb (ABS (aval A j)) dtol) (zrange b e).

(** [B] holds the kept positions of [A], packed: [B->IA] counts them row
    after row, and cell [n] of [B->JA] and [B->val] holds the column and
    the value of the [n]-th of them. *)
Definition packed (A : dCSRmat) (dtol : Q) (B : dCSRmat) : Prop :=
  row B = row A /\ col B = col A /\
  nnz B = Z.of_nat (length (kept_positions A dtol 0 (nnz A))) /\
  (forall i, 0 <= i <= row A ->
             IA B i = Z.of_nat (length (kept_positions A dtol 0 (IA A i)))) /\
  (forall n, 0 <= n < nnz B ->
             JA B n = JA A (nth (Z.to_nat n) (kept_positions A dtol 0 (nnz A)) 0) /\
             aval B n = aval A (nth (Z.to_nat n) (kept_positions A dtol 0 (nnz A)) 0)).

(** Row [i] of the arrays [ja] and [a] holds the entries of row [i] of
    [A] in some order, the diagonal first if the row is not empty. *)
Definition diag_first (A : dCSRmat) (ja : arr Z) (a : arr Q) (i : Z) : Prop :=
  Permutation (map (fun p => (ja p, a p)) (Rows.positions (IA A) i))
              (row_entries A i) /\
  (IA A i < IA A (i + 1) -> ja (IA A i) = i).

(** Row [i] has an entry, and none on the diagonal. *)
Definition lacks_diagonal (A : dCSRmat) (i : Z) : Prop :=
  IA A i < IA A (i + 1) /\ forall p, IA A i <= p < IA A (i + 1) -> JA A p <> i.

(** The state of the reordering when the rows before [t] are done. *)
Definition diagpref_done (A : dCSRmat) (t : Z) (st : ending (arr Z * arr Q * Z))
  : Prop :=
  match st with
  | Returns (ja, a, base) =>
      base = IA A t /\
      (forall q, IA A t <= q -> ja q = JA A q /\ a q = aval A q) /\
      forall i, 0 <= i < t -> diag_first A ja a i
  | Exits c =>
      c = ERROR_MISC /\ exists i, 0 <= i < t /\ lacks_diagonal A i
  end.

(** [P] permutes the indices before [n]. *)
Definition permutes (n : Z) (P : arr Z) : Prop :=
  (forall i, 0 <= i < n -> 0 <= P i < n) /\
  (forall i i', 0 <= i < n -> 0 <= i' < n -> P i = P i' -> i = i').

(** The sum of a list of integers. *)
Definition zsum (l : list Z) : Z := fold_right Z.add 0 l.

(** The structure of a matrix, as a test on its arrays. *)
Definition csr_validb (A : dCSRmat) : bool :=
  (0 <=? row A) && (0 <=? col A) && (IA A 0 =? 0) && (IA A (row A) =? nnz A)
  && forallb (fun i => IA A i <=? IA A (i + 1)) (zrange 0 (row A))
  && forallb (fun p => (0 <=? JA A p) && (JA A p <? col A)) (zrange 0 (nnz A)).

(** The rows [(1, 5) (0, 2)] and [(0, 3) (1, 4)]: the diagonal comes last
    in both. *)
Definition late_diagonal : dCSRmat :=
  Samples.csr 2 2 [0; 2; 4] [1; 0; 0; 1] [5; 2; 3; 4]%Q.


(** One assignment of the two codes. *)
Definition sample_codes : Codes := {| FASP_SUCCESS := 0; ERROR_UNKNOWN := -99 |}.

End SparseOps.

From Stdlib Require Import Permutation.

(* ------------------------------------------------------------------ *)
(** ** ordering.c: searching and sorting; the copy of [fasp_BinarySearch]
    in interpolation.c is the same text *)

Module Ordering.

(** A [while] loop: [None] when the turns allowed are used up with the
    condition still true. *)
Fixpoint while_loop {St : Type} (turns : nat) (cond : St -> bool)
  (body : St -> St) (s : St) : option St :=
  if cond s then
    match turns with
    | O => None
    | Datatypes.S turns' => while_loop turns' cond body (body s)
    end
  else Some s.

(** The loop of [fasp_BinarySearch]; [(low + high) / 2] is the division of
    C, which rounds towards zero. *)
Fixpoint binary_search (turns : nat) (list : arr Z) (value low high : Z)
  : option Z :=
  if low <=? high then
    match turns with
    | O => None
    | Datatypes.S turns' =>
        let m := Z.quot (low + high) 2 in
        if value <? list m then binary_search turns' list value low (m - 1)
        else if value >? list m then binary_search turns' list value (m + 1) high
        else Some m
    end
  else Some (-1).

(** [fasp_BinarySearch (list, value, list_length)].  A turn of the loop
    leaves less than half of the cells between [low] and [high], so
    [list_length] turns are allowed. *)
Definition fasp_BinarySearch (list : arr Z) (value list_length : Z) : option Z :=
  binary_search (Z.to_nat list_length) list value 0 (list_length - 1).

(** [fasp_aux_unique (numbers, size)]: the array it leaves and the new size. *)
Definition fasp_aux_unique (numbers : arr Z) (size : Z) : arr Z * Z :=
  if size =? 0 then (numbers, 0)
  else
    let '(numbers, newsize) :=
      for_loop 1 size
        (fun '((numbers, newsize) : arr Z * Z) i =>
           if numbers newsize <? numbers i
           then (upd numbers (newsize + 1) (numbers i), newsize + 1)
           else (numbers, newsize))
        (numbers, 0) in
    (numbers, newsize + 1).

(** [fasp_aux_merge (numbers, work, left, mid, right)]: the two arrays it
    leaves.  Each turn of a [while] loop moves one cell, and there are
    [num_elements] cells. *)
Definition fasp_aux_merge (numbers work : arr Z) (left mid right : Z)
  : option (arr Z * arr Z) :=
  let left_end := mid - 1 in
  let tmp_pos := left in
  let num_elements := right - left + 1 in
  let turns := Z.to_nat num_elements in
  match
    while_loop turns
      (fun '((_, left, mid, _) : arr Z * Z * Z * Z) =>
         (left <=? left_end) && (mid <=? right))
      (fun '((work, left, mid, tmp_pos) : arr Z * Z * Z * Z) =>
         if numbers left <=? numbers mid
         then (upd work tmp_pos (numbers left), left + 1, mid, tmp_pos + 1)
         else (upd work tmp_pos (numbers mid), left, mid + 1, tmp_pos + 1))
      (work, left, mid, tmp_pos)
  with
  | None => None
  | Some st =>
      match
        while_loop turns
          (fun '((_, left, _, _) : arr Z * Z * Z * Z) => left <=? left_end)
          (fun '((work, left, mid, tmp_pos) : arr Z * Z * Z * Z) =>
             (upd work tmp_pos (numbers left), left + 1, mid, tmp_pos + 1))
          st
      with
      | None => None
      | Some st =>
          match
            while_loop turns
              (fun '((_, _, mid, _) : arr Z * Z * Z * Z) => mid <=? right)
              (fun '((work, left, mid, tmp_pos) : arr Z * Z * Z * Z) =>
                 (upd work tmp_pos (numbers mid), left, mid + 1, tmp_pos + 1))
              st
          with
          | None => None
          | Some (work, _, _, _) =>
              let '(numbers, _) :=
                for_loop 0 num_elements
                  (fun '((numbers, right) : arr Z * Z) _ =>
                     (upd numbers right (work right), right - 1))
                  (numbers, right) in
              Some (numbers, work)
          end
      end
  end.

(** [fasp_aux_msort (numbers, work, left, right)]; [depth] bounds the
    nesting of the calls, [None] when it is used up. *)
Fixpoint fasp_aux_msort (depth : nat) (numbers work : arr Z) (left right : Z)
  : option (arr Z * arr Z) :=
  if right >? left then
    match depth with
    | O => None
    | Datatypes.S depth' =>
        let mid := Z.quot (right + left) 2 in
        match fasp_aux_msort depth' numbers work left mid with
        | None => None
        | Some (numbers, work) =>
            match fasp_aux_msort depth' numbers work (mid + 1) right with
            | None => None
            | Some (numbers, work) =>
                fasp_aux_merge numbers work left (mid + 1) right
            end
        end
    end
  else Some (numbers, work).

(** [iSwapping (w, i, j)] *)
Definition iSwapping (w : arr Z) (i j : Z) : arr Z :=
  let temp := w i in
  let w := upd w i (w j) in
  upd w j temp.

(** [fasp_aux_iQuickSort (a, left, right)]; [depth] bounds the nesting of
    the calls, [None] when it is used up. *)
Fixpoint fasp_aux_iQuickSort (depth : nat) (a : arr Z) (left right : Z)
  : option (arr Z) :=
  if left >=? right then Some a
  else
    match depth with
    | O => None
    | Datatypes.S depth' =>
        let a := iSwapping a left (Z.quot (left + right) 2) in
        let '(a, last) :=
          for_loop (left + 1) (right + 1)
            (fun '((a, last) : arr Z * Z) i =>
               if a i <? a left then (iSwapping a (last + 1) i, last + 1)
               else (a, last))
            (a, left) in
        let a := iSwapping a left last in
        match fasp_aux_iQuickSort depth' a left (last - 1) with
        | None => None
        | Some a => fasp_aux_iQuickSort depth' a (last + 1) right
        end
    end.

(** [fasp_aux_iQuickSortIndex (a, left, right, index)]: the array [index]
    it leaves; [a] is only read. *)
Fixpoint fasp_aux_iQuickSortIndex (depth : nat) (a : arr Z) (left right : Z)
  (index : arr Z) : option (arr Z) :=
  if left >=? right then Some index
  else
    match depth with
    | O => None
    | Datatypes.S depth' =>
        let index := iSwapping index left (Z.quot (left + right) 2) in
        let '(index, last) :=
          for_loop (left + 1) (right + 1)
            (fun '((index, last) : arr Z * Z) i =>
               if a (index i) <? a (index left)
               then (iSwapping index (last + 1) i, last + 1)
               else (index, last))
            (index, left) in
        let index := iSwapping index left last in
        match fasp_aux_iQuickSortIndex depth' a left (last - 1) index with
        | None => None
        | Some index => fasp_aux_iQuickSortIndex depth' a (last + 1) right index
        end
    end.

(** The cells [lo .. hi - 1] of an array. *)
Definition segment {T : Type} (a : arr T) (lo hi : Z) : list T :=
  map a (zrange lo hi).

(** The cells [lo .. hi - 1] do not decrease. *)
Definition ascending (a : arr Z) (lo hi : Z) : Prop :=
  forall i j, lo <= i -> i <= j -> j < hi -> a i <= a j.

(** The cells [lo .. hi - 1] increase strictly. *)
Definition increasing (a : arr Z) (lo hi : Z) : Prop :=
  forall i j, lo <= i -> i < j -> j < hi -> a i < a j.

(** What the loop of [fasp_aux_unique] has made of [numbers] when it comes
    to the cell [t]. *)
Definition unique_upto (numbers : arr Z) (size t : Z) (st : arr Z * Z) : Prop :=
  let '(a, ns) := st in
  0 <= ns < t /\
  increasing a 0 (ns + 1) /\
  (forall j, 0 <= j <= ns -> exists i, 0 <= i < t /\ a j = numbers i) /\
  (forall k, ns < k -> a k = numbers k) /\
  (ascending numbers 0 size ->
   a ns = numbers (t - 1) /\
   forall i, 0 <= i < t -> exists j, 0 <= j <= ns /\ a j = numbers i).

(** The state of the partition loop of [fasp_aux_iQuickSortIndex] when it
    comes to the cell [t]: the cells after [left] up to [last] hold indices
    of keys below the key of the pivot at [left], the cells after [last]
    hold the others. *)
Definition partitioned (a index0 : arr Z) (left right t : Z) (st : arr Z * Z)
  : Prop :=
  let '(index, last) := st in
  left <= last < t /\
  index left = index0 left /\
  (forall k, left < k <= last -> a (index k) < a (index left)) /\
  (forall k, last < k < t -> a (index left) <= a (index k)) /\
  Permutation (segment index left (right + 1)) (segment index0 left (right + 1)) /\
  (forall k, k < left \/ right < k -> index k = index0 k).

(** The state of the [while] loops of [fasp_aux_merge]: [work] holds from
    [left] on, in ascending order, the cells of the two runs of [numbers]
    that have been passed, and none of them exceeds the cell that comes
    next in either run. *)
Definition merging (numbers : arr Z) (left mid right : Z)
  (st : arr Z * Z * Z * Z) : Prop :=
  let '(work, l, m, tmp_pos) := st in
  left <= l <= mid /\ mid <= m <= right + 1 /\ tmp_pos = l + (m - mid) /\
  ascending work left tmp_pos /\
  Permutation (segment work left tmp_pos)
              (segment numbers left l ++ segment numbers mid m) /\
  (forall k, left <= k < tmp_pos ->
             (l < mid -> work k <= numbers l) /\
             (m <= right -> work k <= numbers m)).

Definition ascendingb (a : arr Z) (lo hi : Z) : bool :=
  forallb (fun i => a i <=? a (i + 1)) (zrange lo (hi - 1)).

(** The array [2 3 5 7 11 13]. *)
Definition primes : arr Z := of_list 0 [2; 3; 5; 7; 11; 13].

(** The array [4 1 3 1 5 9 2 6]. *)
Definition digits : arr Z := of_list 0 [4; 1; 3; 1; 5; 9; 2; 6].

End Ordering.

(* ------------------------------------------------------------------ *)
(** ** BlaSparseCSR.c: sorting the rows *)

Module SparseSort.
Import SparseOps Ordering.

(** The scratch arrays of [fasp_dcsr_sort] beside the arrays of the matrix. *)
Record sort_state : Type := {
  sJA : arr Z;
  sval : arr Q;
  sindex : arr Z;
  sja : arr Z;
  sa : arr Q
}.

(** The body of the row loop of [fasp_dcsr_sort].  The quick sort is given
    [&(A->JA[start])], and nests no deeper than the row is long.  The
    scratch arrays [index], [ja] and [a] have [n = A->col] cells each
    ([fasp_mem_calloc(n, ...)]): in a row with more entries than that the
    loops store past their end, which is [None] here. *)
Definition sort_row (n : Z) (A_IA : arr Z) (st : sort_state) (i : Z)
  : option sort_state :=
  let start := A_IA i in
  let row_length := A_IA (i + 1) - start in
  if row_length >? n then None
  else
    let index := for_loop 0 row_length (fun index j => upd index j j) (sindex st) in
    match fasp_aux_iQuickSortIndex (Z.to_nat row_length)
            (fun k => sJA st (start + k)) 0 (row_length - 1) index with
    | None => None
    | Some index =>
        let '(ja, a) :=
          for_loop 0 row_length
            (fun '((ja, a) : arr Z * arr Q) j =>
               (upd ja j (sJA st (start + index j)),
                upd a j (sval st (start + index j))))
            (sja st, sa st) in
        let '(A_JA, A_val) :=
          for_loop 0 row_length
            (fun '((A_JA, A_val) : arr Z * arr Q) j =>
               (upd A_JA (start + j) (ja j), upd A_val (start + j) (a j)))
            (sJA st, sval st) in
        Some {| sJA := A_JA; sval := A_val; sindex := index; sja := ja; sa := a |}
    end.

(** [fasp_dcsr_sort (A)]: the loop runs over [A->col] rows.  [None] when
    a row overruns the scratch arrays. *)
Definition fasp_dcsr_sort (A : dCSRmat) : option dCSRmat :=
  let n := col A in
  match
    for_loop 0 n
      (fun st i => match st with
                   | Some s => sort_row n (IA A) s i
                   | None => None
                   end)
      (Some {| sJA := JA A; sval := aval A; sindex := zeros 0; sja := zeros 0;
               sa := zeros 0%Q |})
  with
  | Some s =>
      Some {| row := row A; col := col A; nnz := nnz A; IA := IA A; JA := sJA s;
              val := match val A with Some _ => Some (sval s) | None => None end |}
  | None => None
  end.

(** The state of the row loop of [fasp_dcsr_sort] when it comes to row [t]:
    the rows before [t] hold their entries by ascending column, and the
    positions from row [t] on are as they were. *)
Definition rows_sorted_to (A : dCSRmat) (t : Z) (st : option sort_state) : Prop :=
  match st with
  | None => False
  | Some s =>
      (forall i, 0 <= i < t ->
                 Permutation (map (fun p => (sJA s p, sval s p))
                                  (Rows.positions (IA A) i))
                             (row_entries A i) /\
                 ascending (sJA s) (IA A i) (IA A (i + 1))) /\
      (forall p, p < 0 \/ IA A t <= p -> sJA s p = JA A p /\ sval s p = aval A p)
  end.

(** The rows [(2, 5) (0, 1) (1, 7)], [(1, 4)] and [(2, 9) (0, 3)]. *)
Definition unsorted_rows : dCSRmat :=
  Samples.csr 3 3 [0; 3; 4; 6] [2; 0; 1; 1; 2; 0] [5; 1; 7; 4; 9; 3]%Q.

(** One row and one column, with the entries [(0, 1) (0, 2)]. *)
Definition repeated_column : dCSRmat :=
  Samples.csr 1 1 [0; 2] [0; 0] [1; 2]%Q.

End SparseSort.

(* ------------------------------------------------------------------ *)
(** ** vec.c *)

Module Vec.

Section WithConstants.
Context {K : Constants}.

(** [fasp_dvec_maxdiff (x, y)]: the loop runs over the [x->row] cells;
    [xpt[i]-ypt[i]] is the difference as the machine rounds it. *)
Definition fasp_dvec_maxdiff (x y : dvector) : Q :=
  for_loop 0 (Z.of_nat (length x))
    (fun Linf i =>
       let diffi := ABS (REAL_sub (vget x i) (vget y i)) in
       if Qgtb diffi Linf then diffi else Linf)
    0%Q.

End WithConstants.

End Vec.

(* ------------------------------------------------------------------ *)
(** ** coarsening_rs.c: the pattern of the prolongation *)

Module SparsityP.
Import SparseOps.

(** Step 1 of [generate_sparsity_P], in the branch that runs without
    OpenMP: the length of row [i] in the cell [i + 1] of the fresh [P->IA]. *)
Definition sparsity_counts (S : iCSRmat) (vec : arr Z) (row : Z) : arr Z :=
  for_loop 0 row
    (fun pia i =>
       if vec i =? FGPT then
         for_loop (iIA S i) (iIA S (i + 1))
           (fun pia j =>
              let k := iJA S j in
              if vec k =? CGPT then upd pia (i + 1) (pia (i + 1) + 1) else pia)
           pia
       else if vec i =? ISPT then upd pia (i + 1) 0
       else upd pia (i + 1) 1)
    (zeros 0).

(** [for (i=0;i<P->row;++i) P->IA[i+1]+=P->IA[i];] *)
Definition sparsity_offsets (row : Z) (pia : arr Z) : arr Z :=
  for_loop 0 row (fun pia i => upd pia (i + 1) (pia (i + 1) + pia i)) pia.

(** Step 2: the columns, and [index] as the loop leaves it. *)
Definition sparsity_columns (S : iCSRmat) (vec : arr Z) (row : Z) : arr Z * Z :=
  for_loop 0 row
    (fun (st : arr Z * Z) i =>
       if vec i =? FGPT then
         for_loop (iIA S i) (iIA S (i + 1))
           (fun '((pja, index) : arr Z * Z) j =>
              let k := iJA S j in
              if vec k =? CGPT then (upd pja index k, index + 1) else (pja, index))
           st
       else if vec i =? ISPT then st
       else let '(pja, index) := st in (upd pja index i, index + 1))
    (zeros 0, 0).

(** [generate_sparsity_P (P, S, vertices, row, col)]: the arrays of [P] are
    allocated anew, so that nothing of what [P] held is left. *)
Definition generate_sparsity_P (P : dCSRmat) (S : iCSRmat) (vec : arr Z)
  (row col : Z) : dCSRmat :=
  let pia := sparsity_offsets row (sparsity_counts S vec row) in
  let nnz := pia row - pia 0 in
  let '(pja, _) := sparsity_columns S vec row in
  {| row := row; col := col; nnz := nnz; IA := pia; JA := pja;
     val := Some (zeros 0%Q) |}.

(** The columns that row [i] of the pattern is to hold: for a fine vertex
    its strong neighbours that are coarse, for an isolated vertex none, for
    any other vertex the vertex itself. *)
Definition pattern_row (S : iCSRmat) (vec : arr Z) (i : Z) : list Z :=
  if vec i =? FGPT then filter (fun k => vec k =? CGPT) (Rows.irow_cols S i)
  else if vec i =? ISPT then []
  else [i].

Definition pattern_length (S : iCSRmat) (vec : arr Z) (i : Z) : Z :=
  Z.of_nat (length (pattern_row S vec i)).

(** Where row [k] of the pattern begins: the lengths of the rows before it
    added up. *)
Definition pattern_offset (S : iCSRmat) (vec : arr Z) (k : Z) : Z :=
  zsum (map (pattern_length S vec) (zrange 0 k)).

(** The graph with the rows [1 2], [0 2], [0 1 3], [2] and the labels
    fine, coarse, fine, isolated, undecided. *)
Definition kite : iCSRmat :=
  {| irow := 4; icol := 4; innz := 8; iIA := of_list 0 [0; 2; 4; 7; 8];
     iJA := of_list 0 [1; 2; 0; 2; 0; 1; 3; 2]; ival := None |}.

Definition kite_labels : arr Z := of_list 0 [FGPT; CGPT; FGPT; ISPT; UNPT].

End SparsityP.

From Stdlib Require Import Permutation.

(* ------------------------------------------------------------------ *)
(** ** BlaSparseCSR.c: the other transpositions *)

Module Transposing.
Import SparseOps Ordering.

(** A matrix as a list of entries: [row[i]], [col[i]] and [val[i]] for
    [i < tniz]. *)
Record triplets : Type := {
  ent_row : arr Z;
  ent_col : arr Z;
  ent_val : arr Q
}.

(** [fasp_dcsr_transpose (row, col, val, nn, tniz)]: what is left in
    [row[1]], [col[1]] and [val[1]], given in [out]; [row[0]], [col[0]] and
    [val[0]] are [inp], [nn[1]] is [nca] and [tniz[0]] is [tniz0]. *)
Definition fasp_dcsr_transpose (inp out : triplets) (nca tniz0 : Z) : triplets :=
  let izc := for_loop 0 tniz0
               (fun izc i => upd izc (ent_col inp i) (izc (ent_col inp i) + 1))
               (zeros 0) in
  let izcaux := upd (zeros 0) 0 0 in
  let izcaux := for_loop 1 nca
                  (fun izcaux i => upd izcaux i (izcaux (i - 1) + izc (i - 1)))
                  izcaux in
  let izc := for_loop 0 nca (fun izc i => upd izc i 0) izc in
  let '(_, out) :=
    for_loop 0 tniz0
      (fun '((izc, out) : arr Z * triplets) i =>
         let m := ent_col inp i in
         let itmp := izcaux m + izc m in
         (upd izc m (izc m + 1),
          {| ent_row := upd (ent_row out) itmp m;
             ent_col := upd (ent_col out) itmp (ent_row inp i);
             ent_val := upd (ent_val out) itmp (ent_val inp i) |}))
      (izc, out) in
  out.

(** The entry at position [i], and the entry at position [i] with row and
    column exchanged. *)
Definition triplet (t : triplets) (i : Z) : Z * Z * Q :=
  (ent_row t i, ent_col t i, ent_val t i).

Definition flipped (t : triplets) (i : Z) : Z * Z * Q :=
  (ent_col t i, ent_row t i, ent_val t i).

(** The state of the second pass of [fasp_dcsr_transpose] when it comes to
    position [t]. *)
Definition transposing (inp out0 : triplets) (nca N t : Z)
  (st : arr Z * triplets) : Prop :=
  let '(izc, out) := st in
  (forall c, 0 <= c < nca -> izc c = Transposed.count (ent_col inp) c t) /\
  (forall i, 0 <= i < t ->
             triplet out (Transposed.dest (ent_col inp) N i) = flipped inp i) /\
  (forall q, (forall i, 0 <= i < t -> q <> Transposed.dest (ent_col inp) N i) ->
             triplet out q = triplet out0 q).

(** The entries [(0, 2, 5) (1, 0, 7) (0, 1, 3) (2, 2, 4) (1, 1, 9)]. *)
Definition scattered_entries : triplets :=
  {| ent_row := of_list 0 [0; 1; 0; 2; 1];
     ent_col := of_list 0 [2; 0; 1; 2; 1];
     ent_val := of_list 0%Q [5; 7; 3; 4; 9]%Q |}.

Definition blank : triplets :=
  {| ent_row := zeros 0; ent_col := zeros 0; ent_val := zeros 0%Q |}.

(** [fasp_dcsr_create (m, n, nnz)]: zeroed arrays ([fasp_mem_calloc]), and
    no value array unless [nnz > 0].  The arrays are as they are for
    [m > 0] and [n > 0]; otherwise [IA] or [JA] is NULL, and what a caller
    that stores through it then does is written out where it calls. *)
Definition fasp_dcsr_create (m n nnz : Z) : dCSRmat :=
  {| row := m; col := n; nnz := nnz; IA := zeros 0; JA := zeros 0;
     val := if nnz >? 0 then Some (zeros 0%Q) else None |}.

(** [fasp_dcsr_cp (A, B)]: the arrays of [A] are copied into those of [B]. *)
Definition fasp_dcsr_cp (A B : dCSRmat) : dCSRmat :=
  {| row := row A; col := col A; nnz := nnz A;
     IA := fasp_iarray_cp (row A + 1) (IA A) (IA B);
     JA := fasp_iarray_cp (nnz A) (JA A) (JA B);
     val := match val B with
            | Some bv => Some (fasp_array_cp (nnz A) (aval A) bv)
            | None => None
            end |}.

(** The loop over the rows that [fasp_dcsr_transz] has four times, with
    [pi=p[i]] or [i] itself ([perm]) and with or without the copy of the
    value ([a]). *)
Definition transz_pass (A : dCSRmat) (perm : Z -> Z) (a : option (arr Q))
  (st : arr Z * arr Z * arr Q) : arr Z * arr Z * arr Q :=
  for_loop 0 (row A)
    (fun st i =>
       let pi := perm i in
       let iabeg := IA A pi in
       let iaend := IA A (pi + 1) in
       if iaend >? iabeg then
         for_loop iabeg iaend
           (fun '((iat, jat, atv) : arr Z * arr Z * arr Q) jp =>
              let j := JA A jp + 1 in
              let k := iat j in
              (upd iat j (k + 1),
               upd jat k i,
               match a with Some a => upd atv k (a jp) | None => atv end))
           st
       else st)
    st.

(** The offsets that [fasp_dcsr_transz] prepares in [AT->IA] before the
    loop over the rows. *)
Definition transz_offsets (A : dCSRmat) (iat : arr Z) : arr Z :=
  let m := col A in
  let m1 := m + 1 in
  let iat := for_loop 0 m1 (fun iat i => upd iat i 0) iat in
  let iaend := IA A (row A) in
  let iat := for_loop 0 iaend
               (fun iat i => let j := JA A i + 2 in
                             if j <? m1 then upd iat j (iat j + 1) else iat)
               iat in
  let iat := upd iat 0 0 in
  let iat := upd iat 1 0 in
  if negb (m =? 1)
  then for_loop 2 m1 (fun iat i => upd iat i (iat i + iat (i - 1))) iat
  else iat.

(** [fasp_dcsr_transz (A, p, AT)]: what is left in [AT], whose arrays are
    there already; [p] is [None] for [NULL]. *)
Definition fasp_dcsr_transz (A : dCSRmat) (p : option (arr Z)) (AT : dCSRmat)
  : dCSRmat :=
  let iat := transz_offsets A (IA AT) in
  let st := (iat, JA AT, aval AT) in
  let '(iat, jat, atv) :=
    match p, val A with
    | Some p, Some a => transz_pass A (fun i => p i) (Some a) st
    | None, Some a => transz_pass A (fun i => i) (Some a) st
    | Some p, None => transz_pass A (fun i => p i) None st
    | None, None => transz_pass A (fun i => i) None st
    end in
  {| row := col A; col := row A; nnz := nnz A; IA := iat; JA := jat;
     val := match val AT with Some _ => Some atv | None => None end |}.

(** What [fasp_dcsr_permz (A, p)] leaves in [Aperm] when the arrays of
    the two matrices it creates are there. *)
Definition permz_arrays (A : dCSRmat) (p : option (arr Z)) : dCSRmat :=
  let n := row A in
  let nnz := nnz A in
  let Aperm1 := fasp_dcsr_create n n nnz in
  let Aperm := fasp_dcsr_create n n nnz in
  let Aperm1 := fasp_dcsr_transz A p Aperm1 in
  fasp_dcsr_transz Aperm1 p Aperm.

(** [fasp_dcsr_permz (A, p)].  [fasp_dcsr_create (n, n, nnz)] allocates
    [IA] only when [n > 0]; without rows it is NULL and [iat[i] = 0] of
    [fasp_dcsr_transz] stores through it: no result. *)
Definition fasp_dcsr_permz (A : dCSRmat) (p : option (arr Z)) : option dCSRmat :=
  if row A >? 0 then Some (permz_arrays A p) else None.

(** [fasp_dcsr_sortz (A, isym)]: what is left in [A]. *)
Definition fasp_dcsr_sortz (A : dCSRmat) (isym : Z) : dCSRmat :=
  let n := row A in
  let m := col A in
  let nnz := nnz A in
  let AT := fasp_dcsr_create m n nnz in
  let AT := fasp_dcsr_transz A None AT in
  if (m =? n) && negb (isym =? 0) then fasp_dcsr_cp AT A
  else fasp_dcsr_transz AT None A.

(** [T] is laid out as the transpose of [M] by the counting sort: row [k]
    starts after the entries of the columns before [k], and position [p] of
    row [i] of [M] is found at its place with the column [i]. *)
Definition placed (M T : dCSRmat) : Prop :=
  row T = col M /\ col T = row M /\ nnz T = nnz M /\
  (forall k, 0 <= k <= col M -> IA T k = Transposed.below (JA M) k (nnz M)) /\
  (forall p i, 0 <= i < row M -> IA M i <= p < IA M (i + 1) ->
               JA T (Transposed.dest (JA M) (nnz M) p) = i /\
               aval T (Transposed.dest (JA M) (nnz M) p) = aval M p).

(** The state of the loop over the rows of [fasp_dcsr_transz] without a
    permutation when it comes to position [t]. *)
Definition placing (M : dCSRmat) (a : option (arr Q)) (t : Z)
  (st : arr Z * arr Z * arr Q) : Prop :=
  let '(iat, jat, atv) := st in
  (forall k, 1 <= k <= col M ->
             iat k = Transposed.below (JA M) (k - 1) (nnz M)
                     + Transposed.count (JA M) (k - 1) t) /\
  iat 0 = 0 /\
  (forall p i, 0 <= i < row M -> IA M i <= p < IA M (i + 1) -> p < t ->
               jat (Transposed.dest (JA M) (nnz M) p) = i /\
               forall av, a = Some av ->
                          atv (Transposed.dest (JA M) (nnz M) p) = av p).

End Transposing.

From Stdlib Require Import Permutation.

(* ------------------------------------------------------------------ *)
(** ** interpolation.c: direct interpolation *)

Module DirectInterp.
Import Interpolation Rows.

(** An [INT] read as [unsigned INT]. *)
Definition uint (x : Z) : Z := x mod 4294967296.

(** The index after [for (k=b; k<e; ++k) if (hit k) break;]. *)
Definition stop_at (b e : Z) (hit : Z -> bool) : Z :=
  match find hit (zrange b e) with
  | Some k => k
  | None => Z.max b e
  end.

(** The loop over the row of [A] that adds up [amN], [amP], [apN], [apP]
    and counts [countPplus].  Its index [j] is an [unsigned INT] and its
    bound [end_row] an [INT], which the comparison [j<=end_row] turns into
    an [unsigned INT]; the other comparisons of the routine are between
    numbers that are not negative in a matrix of valid structure. *)
Definition row_sums (A Ptr : dCSRmat) (i begin_row end_row diagindex : Z)
  : Q * Q * Q * Q * Z :=
  for_loop begin_row (uint end_row + 1)
    (fun '((amN, amP, apN, apP, countPplus) : Q * Q * Q * Q * Z) j =>
       if j =? diagindex then (amN, amP, apN, apP, countPplus)
       else
         let k := stop_at (IA Ptr i) (IA Ptr (i + 1))
                    (fun k => JA Ptr k =? JA A j) in
         if Qgtb (aval A j) 0 then
           let apN := (apN + aval A j)%Q in
           if k <? IA Ptr (i + 1)
           then (amN, amP, apN, (apP + aval A j)%Q, countPplus + 1)
           else (amN, amP, apN, apP, countPplus)
         else
           let amN := (amN + aval A j)%Q in
           if k <? IA Ptr (i + 1)
           then (amN, (amP + aval A j)%Q, apN, apP, countPplus)
           else (amN, amP, apN, apP, countPplus))
    (0%Q, 0%Q, 0%Q, 0%Q, 0).

(** The body of the row loop of "step 3: Fill the data of P", in the branch
    that runs without OpenMP.  [aii] lives on from row to row: a row
    without a diagonal entry takes over what the rows before left. *)
Definition fill_row (A : dCSRmat) (vec : arr Z) (Ptr : dCSRmat) (PIA PJA : arr Z)
  (st : arr Q * Q) (i : Z) : arr Q * Q :=
  let '(pval, aii) := st in
  let begin_row := IA A i in
  let end_row := IA A (i + 1) - 1 in
  let found := find (fun d => JA A d =? i) (zrange begin_row (end_row + 1)) in
  let diagindex := match found with
                   | Some d => d
                   | None => Z.max begin_row (end_row + 1)
                   end in
  let aii := match found with Some d => aval A d | None => aii end in
  if vec i =? 0 then
    let '(amN, amP, apN, apP, countPplus) :=
      row_sums A Ptr i begin_row end_row diagindex in
    let alpha := (amN / amP)%Q in
    let '(beta, aii) := if countPplus >? 0 then ((apN / apP)%Q, aii)
                        else (0%Q, (aii + apN)%Q) in
    let pval :=
      for_loop (PIA i) (PIA (i + 1))
        (fun pval j =>
           let k := PJA j in
           let l := stop_at (IA A i) (IA A (i + 1)) (fun l => JA A l =? k) in
           if Qgtb (aval A l) 0
           then upd pval j (- beta * aval A l / aii)%Q
           else upd pval j (- alpha * aval A l / aii)%Q)
        pval in
    (pval, aii)
  else if vec i =? 2 then (pval, aii)
  else (upd pval (PIA i) 1%Q, aii).

(** [CoarseIndex]: the coarse vertices numbered in their order. *)
Definition coarse_index (vec : arr Z) (n : Z) : arr Z :=
  fst (for_loop 0 n
         (fun '((ci, index) : arr Z * Z) i =>
            if vec i =? 1 then (upd ci i index, index + 1) else (ci, index))
         (zeros 0, 0)).

(** The operator [P] of [interp_RS] before the truncation: the pattern
    copied from [Ptr], the weights, and the columns renumbered. *)
Definition direct_weights (A : dCSRmat) (vec : arr Z) (Ptr : dCSRmat) : dCSRmat :=
  let PIA := fasp_iarray_cp (row Ptr + 1) (IA Ptr) (zeros 0) in
  let PJA := fasp_iarray_cp (nnz Ptr) (JA Ptr) (zeros 0) in
  let '(pval, _) :=
    for_loop 0 (row A) (fill_row A vec Ptr PIA PJA) (zeros 0%Q, 0%Q) in
  let CoarseIndex := coarse_index vec (row A) in
  let PJA := for_loop 0 (PIA (row Ptr))
               (fun pja i => let j := pja i in upd pja i (CoarseIndex j)) PJA in
  {| row := row Ptr; col := col Ptr; nnz := nnz Ptr; IA := PIA; JA := PJA;
     val := Some pval |}.

(** [interp_RS (A, vertices, Ptr, param)]: what is left in [Ptr]. *)
Definition interp_RS (A : dCSRmat) (vec : arr Z) (Ptr : dCSRmat) (param : AMG_param)
  : dCSRmat :=
  truncation (direct_weights A vec Ptr) (truncation_threshold param).

(** The entries of row [i] of [A] off the diagonal, and those of them
    whose column is a column of row [i] of the pattern [Ptr]. *)
Definition offdiag (A : dCSRmat) (i : Z) : list Q :=
  map (aval A) (filter (fun j => negb (JA A j =? i)) (positions (IA A) i)).

Definition interpolatory (A Ptr : dCSRmat) (i : Z) : list Q :=
  map (aval A)
      (filter (fun j => negb (JA A j =? i)
                        && existsb (fun k => JA Ptr k =? JA A j) (positions (IA Ptr) i))
              (positions (IA A) i)).

(** The entries that are not positive. *)
Definition nonpositives (l : list Q) : list Q := filter (fun v => negb (Qgtb v 0)) l.

(** The offsets of a pattern with the rows of [A]. *)
Record pattern_valid (A Ptr : dCSRmat) : Prop := {
  pattern_rows : row Ptr = row A;
  pattern_first : IA Ptr 0 = 0;
  pattern_last : IA Ptr (row Ptr) = nnz Ptr;
  pattern_mono : forall i, 0 <= i < row Ptr -> IA Ptr i <= IA Ptr (i + 1)
}.

(** The positions of row [i] of [A] before [t] other than [d], and the test
    that the column of a position is a column of row [i] of the pattern. *)
Definition others (A : dCSRmat) (i d t : Z) : list Z :=
  filter (fun j => negb (j =? d)) (zrange (IA A i) t).

Definition in_pattern (A Ptr : dCSRmat) (i j : Z) : bool :=
  existsb (fun k => JA Ptr k =? JA A j) (positions (IA Ptr) i).

(** The state of the loop of [row_sums] when it comes to position [t]. *)
Definition summing (A Ptr : dCSRmat) (i d t : Z) (st : Q * Q * Q * Q * Z) : Prop :=
  let '(amN, amP, apN, apP, countPplus) := st in
  let all := map (aval A) (others A i d t) in
  let part := map (aval A) (filter (in_pattern A Ptr i) (others A i d t)) in
  (amN == qsum (nonpositives all))%Q /\
  (amP == qsum (nonpositives part))%Q /\
  (apN == qsum (positives all))%Q /\
  (apP == qsum (positives part))%Q /\
  countPplus = Z.of_nat (length (positives part)).

(** The weight that [fill_row] computes from an entry [a] of [A]. *)
Definition weight (alpha beta aii a : Q) : Q :=
  if Qgtb a 0 then (- beta * a / aii)%Q else (- alpha * a / aii)%Q.

(** A matrix with the rows [(0, 4) (1, -1) (2, -2) (3, -1)],
    [(1, 4) (0, -1) (2, -3)], [(2, 4) (0, -2) (1, -2)] and [(3, 1) (0, -1)],
    the splitting fine, coarse, coarse, fine, and the pattern that
    [generate_sparsity_P] builds for them from all the couplings. *)
Definition star : dCSRmat :=
  Samples.csr 4 4 [0; 4; 7; 10; 12] [0; 1; 2; 3; 1; 0; 2; 2; 0; 1; 3; 0]
    [4; -1; -2; -1; 4; -1; -3; 4; -2; -2; 1; -1]%Q.

Definition star_labels : arr Z := of_list 0 [0; 1; 1; 0].

Definition star_pattern : dCSRmat :=
  {| row := 4; col := 2; nnz := 4; IA := of_list 0 [0; 2; 3; 4; 4];
     JA := of_list 0 [1; 2; 1; 2]; val := Some (zeros 0%Q) |}.

End DirectInterp.

(* ------------------------------------------------------------------ *)
(** ** coarsening_rs.c: the vertices that phase one has still to decide *)

Module Deciding.
Import BlaSparseCSR StrengthGraph Coarsening Covering.

(** The number of vertices before [n] that are still undecided. *)
Definition undecided_count (v : arr Z) (n : Z) : Z :=
  Z.of_nat (length (filter (fun i => v i =? UNPT) (zrange 0 n))).

(** No bucket of the lists is empty. *)
Definition full (q : list (Z * list Z)) : Prop :=
  Forall (fun b => snd b <> []) q.

(** The state of phase one when the vertices before [t] have been looked
    at: each of them that is undecided is in the bucket of its measure,
    [num_left] is the number of undecided vertices, and every vertex has
    one of the four labels. *)
Record complete (row t : Z) (st : @phase1 bucket_lists) : Prop := {
  complete_listed : forall j, 0 <= j < t -> vec st j = UNPT ->
                              In (lambda st j, j) (entries (lol st));
  complete_left : num_left st = undecided_count (vec st) row;
  complete_full : full (lol st);
  complete_labels : forall j, 0 <= j < row ->
                              vec st j = UNPT \/ vec st j = CGPT \/
                              vec st j = FGPT \/ vec st j = ISPT
}.

(** [complete], with no more than [N] vertices left. *)
Definition within (row t N : Z) (st : @phase1 bucket_lists) : Prop :=
  complete row t st /\ num_left st <= N.

(** A chain of four vertices and a vertex on its own. *)
Definition path_operator : dCSRmat :=
  Samples.csr 5 5 [0; 2; 5; 8; 10; 11] [0; 1; 0; 1; 2; 1; 2; 3; 2; 3; 4]
    [2; -1; -1; 2; -1; -1; 2; -1; -1; 2; 1]%Q.

End Deciding.

(* ------------------------------------------------------------------ *)
(** ** coarsening_rs.c: the strong couplings between coarse vertices *)

Module Aggressive.
Import BlaSparseCSR Coarsening Covering.

(** The marks, the counter and the columns of [Sh] while a row is scanned. *)
Record scan : Type := {
  times_visited : arr Z;
  count : Z;
  ShJA : arr Z
}.

(** [times_visited[c]=ci+1; Sh->JA[count]=c; count++;], the write to
    [Sh->JA] in step 2 only ([fill]). *)
Definition emit (fill : bool) (ci c : Z) (st : scan) : scan :=
  {| times_visited := upd (times_visited st) c (ci + 1);
     count := count st + 1;
     ShJA := if fill then upd (ShJA st) (count st) c else ShJA st |}.

(** [if (times_visited[c]!=ci+1) { ... }] *)
Definition visit (fill : bool) (ci c : Z) (st : scan) : scan :=
  if negb (times_visited st c =? ci + 1) then emit fill ci c st else st.

(** [if (times_visited[c]==ci+1) {} else if (times_visited[c]==-ci-1)
    { ... } else times_visited[c]=-ci-1;] *)
Definition visit_twice (fill : bool) (ci c : Z) (st : scan) : scan :=
  if times_visited st c =? ci + 1 then st
  else if times_visited st c =? - ci - 1 then emit fill ci c st
  else {| times_visited := upd (times_visited st) c (- ci - 1);
          count := count st;
          ShJA := ShJA st |}.

(** The loops over the strong neighbours [fj] of the coarse vertex [i],
    the [ci]-th one, and over the strong neighbours [ck] of each fine
    [fj].  The two routines differ in the inner loop only ([second] for
    [generate_S_rs_ag_2]). *)
Definition scan_row (second fill : bool) (S : iCSRmat) (vec cp_rindex : arr Z)
  (ci i : Z) (st : scan) : scan :=
  for_loop (iIA S i) (iIA S (i + 1))
    (fun st j =>
       let fj := iJA S j in
       if (vec fj =? CGPT) && negb (fj =? i) then visit fill ci (cp_rindex fj) st
       else if vec fj =? FGPT then
         for_loop (iIA S fj) (iIA S (fj + 1))
           (fun st k =>
              let ck := iJA S k in
              if (vec ck =? CGPT) && negb (ck =? i) then
                if second then visit_twice fill ci (cp_rindex ck) st
                else visit fill ci (cp_rindex ck) st
              else st)
           st
       else st)
    st.

(** [num_c]: the number of coarse vertices. *)
Definition count_coarse (vec : arr Z) (row : Z) : Z :=
  for_loop 0 row (fun n i => if vec i =? CGPT then n + 1 else n) 0.

(** [cp_index] and [cp_rindex], with the counter [j]. *)
Definition index_coarse (vec : arr Z) (row : Z) : arr Z * arr Z * Z :=
  for_loop 0 row
    (fun '((cp_index, cp_rindex, j) : arr Z * arr Z * Z) i =>
       if vec i =? CGPT then (upd cp_index j i, upd cp_rindex i j, j + 1)
       else (cp_index, cp_rindex, j))
    (zeros 0, zeros 0, 0).

(** Step 1: the row offsets of [Sh]. *)
Definition ag_offsets (second : bool) (S : iCSRmat) (vec cp_index cp_rindex : arr Z)
  (num_c : Z) : arr Z * arr Z :=
  for_loop 0 num_c
    (fun '((tv, ia) : arr Z * arr Z) ci =>
       let st := scan_row second false S vec cp_rindex ci (cp_index ci)
                   {| times_visited := tv; count := 0; ShJA := zeros 0 |} in
       (times_visited st, upd ia (ci + 1) (ia ci + count st)))
    (zeros 0, upd (zeros 0) 0 0).

(** Step 2: the columns of [Sh]. *)
Definition ag_columns (second : bool) (S : iCSRmat) (vec cp_index cp_rindex : arr Z)
  (num_c : Z) (tv ia : arr Z) : scan :=
  for_loop 0 num_c
    (fun st ci =>
       scan_row second true S vec cp_rindex ci (cp_index ci)
         {| times_visited := times_visited st; count := ia ci; ShJA := ShJA st |})
    {| times_visited := tv; count := 0; ShJA := zeros 0 |}.

(** What the routines leave: [Sh], and the values of [CGPT_index] and
    [CGPT_rindex]. *)
Record coarse_graph : Type := {
  Sh : iCSRmat;
  CGPT_index : arr Z;
  CGPT_rindex : arr Z
}.

(** [generate_S_rs_ag_1] and [generate_S_rs_ag_2]; [row] is
    [vertices->row]. *)
Definition generate_S_rs_ag (second : bool) (S : iCSRmat) (vec : arr Z) (row : Z)
  : coarse_graph :=
  let num_c := count_coarse vec row in
  let '(cp_index, cp_rindex, _) := index_coarse vec row in
  let '(tv, ia) := ag_offsets second S vec cp_index cp_rindex num_c in
  let tv := for_loop 0 num_c (fun tv i => upd tv i 0) tv in
  let st := ag_columns second S vec cp_index cp_rindex num_c tv ia in
  {| Sh := {| irow := num_c; icol := num_c; innz := ia num_c;
              iIA := ia; iJA := ShJA st; ival := None |};
     CGPT_index := cp_index;
     CGPT_rindex := cp_rindex |}.

Definition generate_S_rs_ag_1 (S : iCSRmat) (vec : arr Z) (row : Z) : coarse_graph :=
  generate_S_rs_ag false S vec row.

Definition generate_S_rs_ag_2 (S : iCSRmat) (vec : arr Z) (row : Z) : coarse_graph :=
  generate_S_rs_ag true S vec row.

(** *** The vocabulary of the properties *)

(** The coarse vertices that the scan of the row of [i] comes across, in
    its order: [true] with a strong neighbour that is coarse, [false] with
    a coarse strong neighbour of a fine strong neighbour. *)
Definition events (S : iCSRmat) (vec cp_rindex : arr Z) (i : Z) : list (bool * Z) :=
  flat_map
    (fun j =>
       let fj := iJA S j in
       if (vec fj =? CGPT) && negb (fj =? i) then [(true, cp_rindex fj)]
       else if vec fj =? FGPT then
         map (fun k => (false, cp_rindex (iJA S k)))
           (filter (fun k => (vec (iJA S k) =? CGPT) && negb (iJA S k =? i))
              (zrange (iIA S fj) (iIA S (fj + 1))))
       else [])
    (zrange (iIA S i) (iIA S (i + 1))).

(** One step of the scan. *)
Definition scan_step (second fill : bool) (ci : Z) (st : scan) (e : bool * Z) : scan :=
  if fst e then visit fill ci (snd e) st
  else if second then visit_twice fill ci (snd e) st
  else visit fill ci (snd e) st.

(** How often [c] was come across over a fine vertex, and whether it has
    been taken into the row. *)
Definition halves (l : list (bool * Z)) (c : Z) : nat :=
  length (filter (fun e => negb (fst e) && (snd e =? c)) l).

Definition reached (second : bool) (l : list (bool * Z)) (c : Z) : bool :=
  existsb (fun e => fst e && (snd e =? c)) l
  || (if second then 2 <=? halves l c else 1 <=? halves l c)%nat.

(** The row that the events [l] give: its entries are distinct and are
    the vertices reached. *)
Definition row_of_events (second : bool) (l : list (bool * Z)) (out : list Z) : Prop :=
  NoDup out /\ forall c, In c out <-> reached second l c = true.

(** The mark of [c] after the events [l] of the scan of row [ci]. *)
Definition mark_after (second : bool) (ci : Z) (l : list (bool * Z)) (tv0 : arr Z)
  (c : Z) : Z :=
  if reached second l c then ci + 1
  else if second && (1 <=? halves l c)%nat then - ci - 1
  else tv0 c.

(** The scan of the events [l] has led from [st0] to [st] and has taken
    the vertices [out] into the row. *)
Definition scanned (second fill : bool) (ci : Z) (l : list (bool * Z))
  (st0 st : scan) (out : list Z) : Prop :=
  row_of_events second l out /\
  count st = count st0 + Z.of_nat (length out) /\
  (forall c, times_visited st c = mark_after second ci l (times_visited st0) c) /\
  (forall p, p < count st0 -> ShJA st p = ShJA st0 p) /\
  (fill = true -> forall k, (k < length out)%nat ->
                            ShJA st (count st0 + Z.of_nat k) = nth k out 0).

(** A path of two strong couplings from [i] to [k] over a fine vertex:
    the position [p] of the row of [i] holds a fine vertex, and the
    position [q] of the row of that vertex holds [k]. *)
Definition via (S : iCSRmat) (vec : arr Z) (i k p q : Z) : Prop :=
  iIA S i <= p < iIA S (i + 1) /\ vec (iJA S p) = FGPT /\
  iIA S (iJA S p) <= q < iIA S (iJA S p + 1) /\ iJA S q = k.

Definition via_paths (S : iCSRmat) (vec : arr Z) (i k : Z) : list (Z * Z) :=
  flat_map
    (fun p =>
       if vec (iJA S p) =? FGPT then
         map (pair p)
           (filter (fun q => iJA S q =? k)
              (zrange (iIA S (iJA S p)) (iIA S (iJA S p + 1))))
       else [])
    (zrange (iIA S i) (iIA S (i + 1))).

(** The numbering of the coarse vertices. *)
Record numbered (vec : arr Z) (row : Z) (G : coarse_graph) : Prop := {
  number_rows : irow (Sh G) = coarse_count vec row;
  number_cols : icol (Sh G) = coarse_count vec row;
  number_index : forall c, 0 <= c < irow (Sh G) ->
                           0 <= CGPT_index G c < row /\
                           vec (CGPT_index G c) = CGPT /\
                           CGPT_rindex G (CGPT_index G c) = c;
  number_order : forall c c', 0 <= c -> c < c' -> c' < irow (Sh G) ->
                              CGPT_index G c < CGPT_index G c';
  number_back : forall i, 0 <= i < row -> vec i = CGPT ->
                          0 <= CGPT_rindex G i < irow (Sh G) /\
                          CGPT_index G (CGPT_rindex G i) = i
}.

(** Five vertices: the first, the fourth and the fifth are coarse, the
    second and the third fine.  The first depends on both fine ones and on
    the fourth; the second depends on the fourth and the fifth, the third
    on the fourth only. *)
Definition cross_graph : iCSRmat :=
  {| irow := 5; icol := 5; innz := 6;
     iIA := of_list 0 [0; 3; 5; 6; 6; 6];
     iJA := of_list 0 [1; 2; 3; 3; 4; 3];
     ival := None |}.

Definition cross_labels : arr Z := of_list 0 [CGPT; FGPT; FGPT; CGPT; CGPT].

End Aggressive.

(* ------------------------------------------------------------------ *)
(** ** BlaSparseCSR.c: the rows of a matrix in another order *)

Module RowOrder.
Import Rows SparseOps Transposing.

(** The matrix whose row [i] is row [P i] of [A], position by position:
    what "compute IA of P*A" and "perform actual P*A" of [fasp_dcsr_perm]
    give, before the columns are renamed. *)
Definition rows_by (A : dCSRmat) (P : arr Z) : dCSRmat :=
  {| row := row A; col := col A; nnz := nnz A;
     IA := perm_offsets A P;
     JA := fst (perm_rows A P (perm_offsets A P));
     val := Some (snd (perm_rows A P (perm_offsets A P))) |}.

(** The order that moves each of three indices one place on. *)
Definition rotation : arr Z := of_list 0 [1; 2; 0].

End RowOrder.

(* ------------------------------------------------------------------ *)
(** ** coarsening_rs.c: the pattern of the standard interpolation *)

Module SparsityStd.
Import SparseOps SparsityP Covering.

(** [for (i=0; i<row; i++) times_visited[i] = -1;] *)
Definition unvisited (row : Z) (times_visited : arr Z) : arr Z :=
  for_loop 0 row (fun tv i => upd tv i (-1)) times_visited.

(** Step 1, at a coarse vertex [c] that row [i] comes across:
    [if (times_visited[c] == i) {} else { times_visited[c] = i;
    P->IA[i+1]++; }] *)
Definition std_visit_count (i c : Z) (st : arr Z * arr Z) : arr Z * arr Z :=
  let '(times_visited, pia) := st in
  if times_visited c =? i then st
  else (upd times_visited c i, upd pia (i + 1) (pia (i + 1) + 1)).

(** Step 1: the marks, and the length of row [i] in the cell [i + 1] of
    the fresh [P->IA]. *)
Definition std_counts (S : iCSRmat) (vec : arr Z) (row : Z) : arr Z * arr Z :=
  for_loop 0 row
    (fun (st : arr Z * arr Z) i =>
       if vec i =? FGPT then
         for_loop (iIA S i) (iIA S (i + 1))
           (fun st j =>
              let k := iJA S j in
              if vec k =? CGPT then std_visit_count i k st
              else if (vec k =? FGPT) && negb (k =? i) then
                for_loop (iIA S k) (iIA S (k + 1))
                  (fun st l =>
                     let h := iJA S l in
                     if vec h =? CGPT then std_visit_count i h st else st)
                  st
              else st)
           st
       else if vec i =? ISPT then (fst st, upd (snd st) (i + 1) 0)
       else (fst st, upd (snd st) (i + 1) 1))
    (unvisited row (zeros 0), zeros 0).

(** Step 2, at a coarse vertex [c] that row [i] comes across:
    [if (times_visited[c] == i) {} else { times_visited[c] = i;
    P->JA[P->IA[i]+index] = c; index++; }] *)
Definition std_visit_fill (pia : arr Z) (i c : Z) (st : arr Z * Z * arr Z)
  : arr Z * Z * arr Z :=
  let '(times_visited, index, pja) := st in
  if times_visited c =? i then st
  else (upd times_visited c i, index + 1, upd pja (pia i + index) c).

(** Step 2: the marks and the columns; [index] starts from [0] in every
    row. *)
Definition std_columns (S : iCSRmat) (vec : arr Z) (row : Z)
  (times_visited pia : arr Z) : arr Z * arr Z :=
  for_loop 0 row
    (fun '((times_visited, pja) : arr Z * arr Z) i =>
       if vec i =? FGPT then
         let '(times_visited, _, pja) :=
           for_loop (iIA S i) (iIA S (i + 1))
             (fun st j =>
                let k := iJA S j in
                if vec k =? CGPT then std_visit_fill pia i k st
                else if (vec k =? FGPT) && negb (k =? i) then
                  for_loop (iIA S k) (iIA S (k + 1))
                    (fun st l =>
                       let h := iJA S l in
                       if vec h =? CGPT then std_visit_fill pia i h st else st)
                    st
                else st)
             (times_visited, 0, pja) in
         (times_visited, pja)
       else if vec i =? ISPT then (times_visited, pja)
       else (times_visited, upd pja (pia i) i))
    (unvisited row times_visited, zeros 0).

(** [generate_sparsity_P_std (P, S, vertices, row, col)]: the arrays of
    [P] are allocated anew. *)
Definition generate_sparsity_P_std (P : dCSRmat) (S : iCSRmat) (vec : arr Z)
  (row col : Z) : dCSRmat :=
  let '(times_visited, counts) := std_counts S vec row in
  let pia := sparsity_offsets row counts in
  let nnz := pia row - pia 0 in
  let pja := snd (std_columns S vec row times_visited pia) in
  {| row := row; col := col; nnz := nnz; IA := pia; JA := pja;
     val := Some (zeros 0%Q) |}.

(** *** The vocabulary of the properties *)

(** The coarse vertices that the scan of the row of a fine vertex [i]
    comes across, in its order. *)
Definition std_candidates (S : iCSRmat) (vec : arr Z) (i : Z) : list Z :=
  flat_map
    (fun j =>
       let k := iJA S j in
       if vec k =? CGPT then [k]
       else if (vec k =? FGPT) && negb (k =? i) then
         map (iJA S)
           (filter (fun l => vec (iJA S l) =? CGPT)
              (zrange (iIA S k) (iIA S (k + 1))))
       else [])
    (zrange (iIA S i) (iIA S (i + 1))).

(** A list without the repetitions of its elements. *)
Definition add_new (acc : list Z) (c : Z) : list Z :=
  if existsb (Z.eqb c) acc then acc else acc ++ [c].

Definition firsts (l : list Z) : list Z := fold_left add_new l [].

(** The columns that row [i] of the pattern is to hold. *)
Definition std_row (S : iCSRmat) (vec : arr Z) (i : Z) : list Z :=
  if vec i =? FGPT then firsts (std_candidates S vec i)
  else if vec i =? ISPT then []
  else [i].

Definition std_length (S : iCSRmat) (vec : arr Z) (i : Z) : Z :=
  Z.of_nat (length (std_row S vec i)).

Definition std_offset (S : iCSRmat) (vec : arr Z) (k : Z) : Z :=
  zsum (map (std_length S vec) (zrange 0 k)).

(** Five vertices labelled fine, fine, coarse, coarse, isolated: the first
    depends on the second, on the third and once more on the third, the
    second on the third and the fourth. *)
Definition fan : iCSRmat :=
  {| irow := 5; icol := 5; innz := 5; iIA := of_list 0 [0; 3; 5; 5; 5; 5];
     iJA := of_list 0 [1; 2; 2; 2; 3]; ival := None |}.

Definition fan_labels : arr Z := of_list 0 [FGPT; FGPT; CGPT; CGPT; ISPT].

End SparsityStd.

(* ------------------------------------------------------------------ *)
(** ** interpolation.c: the entries of a matrix put in order *)

Module Assembling.
Import Rows SparseOps Transposing.

(** [for (i=0;i<tniz;++i) { rows[0][i]=rows[1][i]; cols[0][i]=cols[1][i];
    vals[0][i]=vals[1][i]; }], from [src] into [dst]. *)
Definition copy_entries (tniz : Z) (src dst : triplets) : triplets :=
  for_loop 0 tniz
    (fun d i =>
       {| ent_row := upd (ent_row d) i (ent_row src i);
          ent_col := upd (ent_col d) i (ent_col src i);
          ent_val := upd (ent_val d) i (ent_val src i) |})
    dst.

(** The local arrays and sizes of [orderone]: [rows[0]], [cols[0]] and
    [vals[0]], then [rows[1]], [cols[1]] and [vals[1]], then [nns]. *)
Record locals : Type := {
  front : triplets;
  back : triplets;
  nns0 : Z;
  nns1 : Z
}.

(** [fasp_dcsr_transpose(rows,cols,vals,nns,tnizs);], the copy of what it
    leaves into the front arrays, and the exchange of [nns[0]] and
    [nns[1]] over [tnizs[1]]: the block that [orderone] has four times. *)
Definition transposed_back (tniz tnizs0 : Z) (s : locals) : locals :=
  let out := fasp_dcsr_transpose (front s) (back s) (nns1 s) tnizs0 in
  let t := copy_entries tniz out (front s) in
  let tnizs1 := nns0 s in
  {| front := t; back := out; nns0 := nns1 s; nns1 := tnizs1 |}.

(** [for (i=0;i<tniz-1;++i) if (rows[0][i]==rows[0][i+1]&&
    cols[0][i]==cols[0][i+1]) { vals[0][i+1]+=vals[0][i];
    rows[0][i]=nns[0]; cols[0][i]=nns[1]; }] *)
Definition merge_equal (n0 n1 tniz : Z) (t : triplets) : triplets :=
  for_loop 0 (tniz - 1)
    (fun t i =>
       if (ent_row t i =? ent_row t (i + 1)) && (ent_col t i =? ent_col t (i + 1))
       then {| ent_row := upd (ent_row t) i n0;
               ent_col := upd (ent_col t) i n1;
               ent_val := upd (ent_val t) (i + 1)
                            (Qplus (ent_val t (i + 1)) (ent_val t i)) |}
       else t)
    t.

(** [tniz=0; for (i=0;i<tnizs[0];++i) if (rows[0][i]<nns[0]-1) tniz++;] *)
Definition count_kept (t : triplets) (n0 tnizs0 : Z) : Z :=
  for_loop 0 tnizs0 (fun n i => if ent_row t i <? n0 - 1 then n + 1 else n) 0.

(** [orderone (mat, matval, lengths)]: what is left in [mat[0]], [mat[1]]
    and [matval[0]], and in [lengths].  The local arrays come from
    [fasp_mem_calloc]. *)
Definition orderone (mat : triplets) (lengths : arr Z) : triplets * arr Z :=
  let tnizs0 := lengths 2 in
  let tniz := lengths 2 in
  let t0 := copy_entries tniz mat blank in
  let s := {| front := t0; back := blank; nns0 := lengths 0; nns1 := lengths 1 |} in
  let s := transposed_back tniz tnizs0 s in
  let s := transposed_back tniz tnizs0 s in
  let tniz := tnizs0 in
  let s := {| front := merge_equal (nns0 s) (nns1 s) tniz (front s);
              back := back s; nns0 := nns0 s + 1; nns1 := nns1 s + 1 |} in
  let s := transposed_back tniz tnizs0 s in
  let s := transposed_back tniz tnizs0 s in
  let tniz := count_kept (front s) (nns0 s) tnizs0 in
  (copy_entries tniz (front s) mat,
   upd (upd (upd lengths 0 (nns0 s - 1)) 1 (nns1 s - 1)) 2 tniz).

(** *** The vocabulary of the properties *)

(** Entry [i] comes before entry [j] by its row and then by its column. *)
Definition precedes (t : triplets) (i j : Z) : Prop :=
  ent_row t i < ent_row t j \/
  (ent_row t i = ent_row t j /\ ent_col t i < ent_col t j).

(** Entries [i] and [j] are at the same row and column. *)
Definition same_place (t : triplets) (i j : Z) : Prop :=
  ent_row t i = ent_row t j /\ ent_col t i = ent_col t j.

(** The sum of the values that the first [n] entries have at row [r] and
    column [c]. *)
Definition summed (t : triplets) (n r c : Z) : Q :=
  qsum (map (ent_val t)
          (filter (fun j => (ent_row t j =? r) && (ent_col t j =? c)) (zrange 0 n))).

(** The first [N] entries of [b] are those of [a], ordered by row and then
    by column, entries at the same place in the order they had. *)
Definition sorted_copy (N : Z) (a b : triplets) : Prop :=
  exists place : arr Z,
    permutes N place /\
    (forall i, 0 <= i < N -> triplet b (place i) = triplet a i) /\
    (forall i i', 0 <= i < N -> 0 <= i' < N ->
                  precedes a i i' \/ (same_place a i i' /\ i < i') ->
                  place i < place i').

(** Entry [i] of the first [N] has the place of the next one. *)
Definition repeated (t : triplets) (N i : Z) : bool :=
  (i + 1 <? N) && (ent_row t i =? ent_row t (i + 1))
  && (ent_col t i =? ent_col t (i + 1)).

(** The entries [(1, 0, 2) (0, 1, 3) (1, 0, 5) (0, 0, 1) (0, 1, 4)
    (1, 0, -7)] of a matrix with two rows and two columns. *)
Definition repeated_entries : triplets :=
  {| ent_row := of_list 0 [1; 0; 1; 0; 0; 1];
     ent_col := of_list 0 [0; 1; 0; 0; 1; 0];
     ent_val := of_list 0%Q [2; 3; 5; 1; 4; -7]%Q |}.

Definition repeated_sizes : arr Z := of_list 0 [2; 2; 6].

End Assembling.

(* ------------------------------------------------------------------ *)
(** ** coarsening_rs.c: the aggressive splitting *)

Module AggressiveLevel.
Import BlaSparseCSR StrengthGraph Coarsening Covering Deciding Aggressive.

(** [vertices->row=A->row;] *)
Definition vertices_row (A : dCSRmat) : Z := row A.

Section Splitting.
Context {L : LinkList}.

(** [unsigned INT num_left]: [num_left++] wraps. *)
Definition uinc (n : Z) : Z := (n + 1) mod 4294967296.

(** Step 2 of phase two, over the temporary coarse vertices [ci]: one
    with a positive measure enters the lists, another one becomes fine and
    each of its neighbours in [Sh] gains one. *)
Definition ag_step2 (Sh : iCSRmat) (cp_index : arr Z) (num_c : Z) (st : phase1)
  : phase1 :=
  for_loop 0 num_c
    (fun st ci =>
       let i := cp_index ci in
       let measure := lambda st ci in
       if negb (vec st i =? ISPT) then
         if measure >? 0 then
           let st := set_lol st (enter_list (lol st) (lambda st ci) ci) in
           set_num_left st (uinc (num_left st))
         else
           let st := set_vec st (upd (vec st) i FGPT) in
           for_loop (iIA Sh ci) (iIA Sh (ci + 1))
             (fun st ck =>
                let cj := iJA Sh ck in
                let j := cp_index cj in
                if negb (vec st j =? ISPT) then
                  if cj <? ci then
                    let new_meas := lambda st cj in
                    let st :=
                      if new_meas >? 0 then
                        let st := set_lol st (remove_node (lol st) new_meas cj) in
                        set_num_left st (udec (num_left st))
                      else st in
                    let new_meas := lambda st cj + 1 in
                    let st := set_lambda st (upd (lambda st) cj new_meas) in
                    let st := set_lol st (enter_list (lol st) new_meas cj) in
                    set_num_left st (uinc (num_left st))
                  else set_lambda st (upd (lambda st) cj (lambda st cj + 1))
                else st)
             st
       else st)
    st.

(** The loop over the neighbours [ck] in [Sh] of a vertex [cj] that has
    just left the temporary coarse vertices: each one that is still
    temporary gains one. *)
Definition bump_coarse (Sh : iCSRmat) (cp_index : arr Z) (cj : Z) (st : phase1)
  : phase1 :=
  for_loop (iIA Sh cj) (iIA Sh (cj + 1))
    (fun st cl => let ck := iJA Sh cl in
                  let k := cp_index ck in
                  if vec st k =? CGPT then bump st ck else st)
    st.

(** One turn of the main loop of phase two, for the vertex [maxnode] at
    the head: it becomes a real coarse vertex, labelled [3]; the temporary
    coarse vertices that depend on it become fake ones, labelled [4]. *)
Definition ag_main_body (Sh ShT : iCSRmat) (cp_index : arr Z) (maxnode : Z)
  (st : phase1) : phase1 :=
  let maxlambda := lambda st maxnode in
  let st := set_vec st (upd (vec st) (cp_index maxnode) 3) in
  let st := set_num_left st (udec (num_left st)) in
  let st := set_lol st (remove_node (lol st) maxlambda maxnode) in
  let st := set_lambda st (upd (lambda st) maxnode 0) in
  let st := set_col1 st (col1 st + 1) in
  let st :=
    for_loop (iIA ShT maxnode) (iIA ShT (maxnode + 1))
      (fun st ci =>
         let cj := iJA ShT ci in
         let j := cp_index cj in
         if vec st j =? CGPT then
           let st := set_vec st (upd (vec st) j 4) in
           let st := set_lol st (remove_node (lol st) (lambda st cj) cj) in
           let st := set_num_left st (udec (num_left st)) in
           bump_coarse Sh cp_index cj st
         else st)
      st in
  for_loop (iIA Sh maxnode) (iIA Sh (maxnode + 1))
    (fun st ci =>
       let cj := iJA Sh ci in
       let j := cp_index cj in
       if vec st j =? CGPT then
         let measure := lambda st cj in
         let st := set_lol st (remove_node (lol st) measure cj) in
         let measure := measure - 1 in
         let st := set_lambda st (upd (lambda st) cj measure) in
         if measure >? 0 then set_lol st (enter_list (lol st) measure cj)
         else
           let st := set_vec st (upd (vec st) j 4) in
           let st := set_num_left st (udec (num_left st)) in
           bump_coarse Sh cp_index cj st
       else st)
    st.

(** [while (num_left>0)]: [None] when [LoL_head] is [NULL] at the top of a
    turn (the source dereferences it), or when the turns allowed are used up. *)
Fixpoint ag_main_loop (fuel : nat) (Sh ShT : iCSRmat) (cp_index : arr Z)
  (st : phase1) : option phase1 :=
  if num_left st >? 0 then
    match fuel with
    | O => None
    | Datatypes.S fuel' =>
        match LoL_head_head (lol st) with
        | None => None
        | Some maxnode =>
            ag_main_loop fuel' Sh ShT cp_index (ag_main_body Sh ShT cp_index maxnode st)
        end
    end
  else Some st.

(** The temporary and the fake coarse vertices become fine, then the real
    ones coarse. *)
Definition relabel (row : Z) (v : arr Z) : arr Z :=
  let v := for_loop 0 row
             (fun v i => if (v i =? CGPT) || (v i =? 4) then upd v i FGPT else v) v in
  for_loop 0 row (fun v i => if v i =? 3 then upd v i CGPT else v) v.

(** [flag] for the fine vertex [i] in phase three; a [break] leaves the
    rest of a loop out. *)
Definition near_flag (S : iCSRmat) (v : arr Z) (i : Z) : Z :=
  for_loop (iIA S i) (iIA S (i + 1))
    (fun flag j =>
       let k := iJA S j in
       if flag =? 1 then flag
       else if v k =? CGPT then 1
       else if v k =? FGPT then
         for_loop (iIA S k) (iIA S (k + 1))
           (fun flag l =>
              let m := iJA S l in
              if flag =? 1 then flag
              else if v m =? CGPT then 1 else flag)
           flag
       else flag)
    0.

(** Phase three (sequential branch): a fine vertex without a coarse vertex
    within two strong couplings becomes coarse. *)
Definition phase_three (S : iCSRmat) (row : Z) (st : arr Z * Z) : arr Z * Z :=
  for_loop 0 row
    (fun '((v, col) : arr Z * Z) i =>
       if v i =? FGPT then
         if near_flag S v i =? 0 then (upd v i CGPT, col + 1) else (v, col)
       else (v, col))
    st.

Context {K : Constants}.

(** [form_coarse_level_ag (A, S, vertices, row, interp_type,
    aggressive_path)]: the labels left in [vertices] and the value
    returned.  Every turn of the main loop takes a vertex off the lists,
    so [num_c + 1] turns are allowed. *)
Definition form_coarse_level_ag (A : dCSRmat) (S : iCSRmat) (vertices : arr Z)
  (row interp_type aggressive_path : Z) : option (arr Z * Z) :=
  match form_coarse_level A S vertices row interp_type with
  | None => None
  | Some (v, num_c) =>
      let G := if aggressive_path <? 2 then generate_S_rs_ag_1 S v (vertices_row A)
               else generate_S_rs_ag_2 S v (vertices_row A) in
      let ShT := fasp_icsr_trans (Sh G) in
      let cp_index := CGPT_index G in
      let st := {| vec := v; lambda := init_lambda ShT num_c; lol := LoL_null;
                   num_left := 0; col1 := 0 |} in
      let st := ag_step2 (Sh G) cp_index num_c st in
      match ag_main_loop (Z.to_nat num_c + 1) (Sh G) ShT cp_index st with
      | None => None
      | Some st => Some (phase_three S row (relabel row (vec st), col1 st))
      end
  end.

End Splitting.

(** *** The vocabulary of the properties *)

(** The vertex [c] is in the lists, and the number of such vertices
    before [n]. *)
Definition is_listed (q : list (Z * list Z)) (c : Z) : bool :=
  existsb (fun e => snd e =? c) (entries q).

Definition listed_count (q : list (Z * list Z)) (n : Z) : Z :=
  Z.of_nat (length (filter (is_listed q) (zrange 0 n))).

(** The number of vertices before [n] with the label [3]. *)
Definition real_count (v : arr Z) (n : Z) : Z :=
  Z.of_nat (length (filter (fun i => v i =? 3) (zrange 0 n))).

(** The state of phase two when the temporary coarse vertices before [t]
    have been looked at: the lists hold some of them, each in the bucket
    of its measure and labelled coarse or fine; each one that is labelled
    coarse is in the lists; [num_left] is the number of vertices in the
    lists and [col] the number of real coarse vertices. *)
Record choosing (idx : arr Z) (num_c row t : Z) (st : @phase1 bucket_lists)
  : Prop := {
  choose_sorted : decreasing (lol st);
  choose_full : full (lol st);
  choose_members : forall m c, In (m, c) (entries (lol st)) ->
                               lambda st c = m /\ 0 <= c < t /\
                               (vec st (idx c) = CGPT \/ vec st (idx c) = FGPT);
  choose_listed : forall c, 0 <= c < t -> vec st (idx c) = CGPT ->
                            In (lambda st c, c) (entries (lol st));
  choose_left : num_left st = listed_count (lol st) num_c;
  choose_labels : forall j, 0 <= j < row ->
                            vec st j = CGPT \/ vec st j = FGPT \/ vec st j = ISPT \/
                            vec st j = 3 \/ vec st j = 4;
  choose_col : col1 st = real_count (vec st) row
}.

(** In step 2 moreover: the vertices not yet looked at are labelled
    coarse, the others coarse or fine, no measure is negative, and a
    vertex looked at is in the lists when its measure is positive. *)
Record entering (idx : arr Z) (num_c row t : Z) (st : @phase1 bucket_lists)
  : Prop := {
  enter_choosing : choosing idx num_c row t st;
  enter_pending : forall c, t <= c < num_c -> vec st (idx c) = CGPT;
  enter_temp : forall c, 0 <= c < num_c ->
                         vec st (idx c) = CGPT \/ vec st (idx c) = FGPT;
  enter_nonneg : forall c, 0 <= c < num_c -> 0 <= lambda st c;
  enter_positive : forall c, 0 <= c < t -> lambda st c > 0 ->
                             In (lambda st c, c) (entries (lol st));
  enter_unlisted : forall m c, In (m, c) (entries (lol st)) -> m > 0;
  enter_none : real_count (vec st) row = 0
}.

(** The numbering of the temporary coarse vertices that phase two works
    with, and the graph between them. *)
Record coarse_frame (Sh : iCSRmat) (idx : arr Z) (num_c row : Z) : Prop := {
  frame_graph : icsr_valid Sh;
  frame_rows : irow Sh = num_c;
  frame_cols : icol Sh = num_c;
  frame_free : loop_free Sh;
  frame_range : forall c, 0 <= c < num_c -> 0 <= idx c < row;
  frame_apart : forall c c', 0 <= c < num_c -> 0 <= c' < num_c ->
                             idx c = idx c' -> c = c'
}.

(** A coarse vertex within two strong couplings of [i]. *)
Definition near_coarse (S : iCSRmat) (v : arr Z) (i : Z) : Prop :=
  exists k, neighbour S i k /\
            (v k = CGPT \/ (v k = FGPT /\ exists m, neighbour S k m /\ v m = CGPT)).

End AggressiveLevel.

(* ------------------------------------------------------------------ *)
(** ** interpolation.c: standard interpolation *)

Module StandardInterp.
Import Interpolation Rows DirectInterp.

(** The first loops of [interp_STD]: [flag] is set to [-1]; then, row by
    row, [flag[k]=i] marks the coarse strong neighbours [k] of [i], [cs[i]]
    adds up the entries of row [i] of [A] at the marked columns, [diag[i]]
    takes the entry on the diagonal and [n[i]] adds up the others.  The
    result is [(flag, cs, n, diag)]; the arrays are zeroed when allocated. *)
Definition std_sums (A : dCSRmat) (S : iCSRmat) (vec : arr Z) (row : Z)
  : arr Z * arr Q * arr Q * arr Q :=
  for_loop 0 row
    (fun '((flag, cs, n, diag) : arr Z * arr Q * arr Q * arr Q) i =>
       let flag :=
         for_loop (iIA S i) (iIA S (i + 1))
           (fun flag j => let k := iJA S j in
                          if vec k =? CGPT then upd flag k i else flag)
           flag in
       let '(cs, n, diag) :=
         for_loop (IA A i) (IA A (i + 1))
           (fun '((cs, n, diag) : arr Q * arr Q * arr Q) j =>
              let k := JA A j in
              let cs := if flag k =? i then upd cs i (cs i + aval A j)%Q else cs in
              if k =? i then (cs, n, upd diag i (aval A j))
              else (cs, upd n i (n i + aval A j)%Q, diag))
           (cs, n, diag) in
       (flag, cs, n, diag))
    (for_loop 0 row (fun flag i => upd flag i (-1)) (zeros 0),
     zeros 0%Q, zeros 0%Q, zeros 0%Q).

(** [aki]: the entry of row [k] of [A] in column [i], [0] without one. *)
Definition find_aki (A : dCSRmat) (k i : Z) : Q :=
  for_loop (IA A k) (IA A (k + 1))
    (fun aki p => if JA A p =? i then aval A p else aki) 0%Q.

(** [Arind1], [Arind2]: for a row of [A], the position of each column. *)
Definition reverse_index (A : dCSRmat) (r : Z) (Arind : arr Z) : arr Z :=
  for_loop (IA A r) (IA A (r + 1)) (fun ar j => upd ar (JA A j) j) Arind.

(** The loop over the strong neighbours [h] of [k], a fine strong
    neighbour of the fine vertex [i]: [hatA[h]] loses [aik*akh/akk] when
    [h] is coarse or is [i]. *)
Definition std_share (A : dCSRmat) (S : iCSRmat) (vec : arr Z) (Arind2 : arr Z)
  (i k : Z) (aik akk : Q) (hatA : arr Q) : arr Q :=
  for_loop (iIA S k) (iIA S (k + 1))
    (fun hatA m =>
       let h := iJA S m in
       let akh := aval A (Arind2 h) in
       if vec h =? CGPT then upd hatA h (hatA h - aik * akh / akk)%Q
       else if h =? i then upd hatA h (hatA h - aik * akh / akk)%Q
       else hatA)
    hatA.

(** The turn of the loop over the strong neighbours of the fine vertex [i]
    for the position [j] of row [i] of [S]. *)
Definition std_neighbour (A : dCSRmat) (S : iCSRmat) (vec : arr Z)
  (cs n diag : arr Q) (Arind1 : arr Z) (i : Z) (st : Q * Q * arr Z * arr Q) (j : Z)
  : Q * Q * arr Z * arr Q :=
  let '(alN, alP, Arind2, hatA) := st in
  let k := iJA S j in
  let l := Arind1 k in
  if vec k =? CGPT then (alN, alP, Arind2, upd hatA k (hatA k + aval A l)%Q)
  else if vec k =? FGPT then
    let aik := aval A l in
    let akk := diag k in
    let aki := find_aki A k i in
    let alN := (alN - (n k - aki + akk) * aik / akk)%Q in
    let alP := (alP - cs k * aik / akk)%Q in
    let Arind2 := reverse_index A k Arind2 in
    let hatA := std_share A S vec Arind2 i k aik akk hatA in
    (alN, alP, Arind2, hatA)
  else (alN, alP, Arind2, hatA).

(** The body of the loop over the rows that fills [P->val]; the state is
    [(Arind1, Arind2, hatA, P->val)]. *)
Definition std_row_weights (A : dCSRmat) (S : iCSRmat) (vec : arr Z) (P : dCSRmat)
  (cs n diag : arr Q) (st : arr Z * arr Z * arr Q * arr Q) (i : Z)
  : arr Z * arr Z * arr Q * arr Q :=
  let '(Arind1, Arind2, hatA, pval) := st in
  if vec i =? FGPT then
    let Arind1 := reverse_index A i Arind1 in
    let alN := n i in
    let alP := cs i in
    let hatA := for_loop (IA P i) (IA P (i + 1))
                  (fun hatA j => upd hatA (JA P j) 0%Q) hatA in
    let hatA := upd hatA i (diag i) in
    let '(alN, alP, Arind2, hatA) :=
      for_loop (iIA S i) (iIA S (i + 1))
        (std_neighbour A S vec cs n diag Arind1 i) (alN, alP, Arind2, hatA) in
    let alpha := (alN / alP)%Q in
    let pval := for_loop (IA P i) (IA P (i + 1))
                  (fun pval j => upd pval j (- alpha * hatA (JA P j) / hatA i)%Q)
                  pval in
    (Arind1, Arind2, hatA, pval)
  else if vec i =? CGPT then (Arind1, Arind2, hatA, upd pval (IA P i) 1%Q)
  else st.

(** The operator [P] of [interp_STD] before the truncation: the weights,
    the number of columns and the columns renumbered. *)
Definition std_weights (A : dCSRmat) (vec : arr Z) (P : dCSRmat) (S : iCSRmat)
  : dCSRmat :=
  let prow := row P in
  let '(_, cs, n, diag) := std_sums A S vec prow in
  let '(_, _, _, pval) :=
    for_loop 0 prow (std_row_weights A S vec P cs n diag)
      (zeros 0, zeros 0, zeros 0%Q, aval P) in
  let '(CoarseIndex, index) :=
    for_loop 0 (row A)
      (fun '((ci, index) : arr Z * Z) i =>
         if vec i =? 1 then (upd ci i index, index + 1) else (ci, index))
      (zeros 0, 0) in
  let PJA := for_loop 0 (IA P prow)
               (fun pja i => let j := pja i in upd pja i (CoarseIndex j)) (JA P) in
  {| row := prow; col := index; nnz := nnz P; IA := IA P; JA := PJA;
     val := Some pval |}.

(** [interp_STD (A, vertices, P, S, param)]: what is left in [P]. *)
Definition interp_STD (A : dCSRmat) (vec : arr Z) (P : dCSRmat) (S : iCSRmat)
  (param : AMG_param) : dCSRmat :=
  truncation (std_weights A vec P S) (truncation_threshold param).

(** *** The vocabulary of the properties *)

(** The entry of row [r] of [A] in column [c]: the entries of the row with
    that column added up, [0] without one. *)
Definition coef (A : dCSRmat) (r c : Z) : Q :=
  qsum (map (aval A) (filter (fun p => JA A p =? c) (positions (IA A) r))).

(** The coarse and the fine strong neighbours of [r]. *)
Definition strong_coarse (S : iCSRmat) (vec : arr Z) (r : Z) : list Z :=
  filter (fun c => vec c =? CGPT) (irow_cols S r).

Definition strong_fine (S : iCSRmat) (vec : arr Z) (r : Z) : list Z :=
  filter (fun k => vec k =? FGPT) (irow_cols S r).

(** The entries of row [r] at the coarse strong neighbours of [r], added up. *)
Definition coarse_sum (A : dCSRmat) (S : iCSRmat) (vec : arr Z) (r : Z) : Q :=
  qsum (map (coef A r) (strong_coarse S vec r)).

(** What [alN], [alP] and [hatA[i]] come to for the fine vertex [i]: the
    row of [i] with the rows of its fine strong neighbours [k] folded in,
    each scaled by [a_ik / a_kk]; [hatA[i]] takes a share of row [k] only
    when [i] is a strong neighbour of [k]. *)
Definition all_total (A : dCSRmat) (S : iCSRmat) (vec : arr Z) (i : Z) : Q :=
  (qsum (offdiag A i)
   - qsum (map (fun k => (qsum (offdiag A k) - coef A k i + coef A k k)
                         * coef A i k / coef A k k)
               (strong_fine S vec i)))%Q.

Definition coarse_total (A : dCSRmat) (S : iCSRmat) (vec : arr Z) (i : Z) : Q :=
  (coarse_sum A S vec i
   - qsum (map (fun k => coarse_sum A S vec k * coef A i k / coef A k k)
               (strong_fine S vec i)))%Q.

Definition pivot (A : dCSRmat) (S : iCSRmat) (vec : arr Z) (i : Z) : Q :=
  (coef A i i
   - qsum (map (fun k => if existsb (Z.eqb i) (irow_cols S k)
                         then coef A i k * coef A k i / coef A k k else 0)
               (strong_fine S vec i)))%Q.

(** Four vertices in a row, coarse, fine, fine, coarse, numbered [2 0 1 3]:
    the rows [(0, 4) (1, -2) (2, -2)], [(1, 4) (0, -2) (3, -2)],
    [(2, 2) (0, -2)] and [(3, 2) (1, -2)], every coupling strong. *)
Definition rail : dCSRmat :=
  Samples.csr 4 4 [0; 3; 6; 8; 10] [0; 1; 2; 1; 0; 3; 2; 0; 3; 1]
    [4; -2; -2; 4; -2; -2; 2; -2; 2; -2]%Q.

Definition rail_graph : iCSRmat :=
  {| irow := 4; icol := 4; innz := 6; iIA := of_list 0 [0; 2; 4; 5; 6];
     iJA := of_list 0 [1; 2; 0; 3; 0; 1]; ival := None |}.

Definition rail_labels : arr Z := of_list 0 [FGPT; FGPT; CGPT; CGPT].

End StandardInterp.

(* ------------------------------------------------------------------ *)
(** ** amg_setup_rs.c with the routines of the sources put in *)

Module WholeSetup.
Import BlaSparseCSR Coarsening Interpolation AmgSetupRS.

Section WithConstants.
Context {K : Constants}.

(** The routines of coarsening_rs.c that [fasp_amg_coarsening_rs] calls,
    as the sources have them.  [form_coarse_level_ag] hands back what it
    was given when its splitting does not come back, and compatible
    relaxation, which is in none of the sources, leaves the labels. *)
Definition code_coarsening : Coarsening.Externals :=
  {| Coarsening.form_coarse_level_ag := fun A S v row interp_type path =>
       match @AggressiveLevel.form_coarse_level_ag bucket_lists K
               A S v row interp_type path with
       | Some r => r
       | None => (v, 0)
       end;
     Coarsening.fasp_amg_coarsening_cr := fun _ _ _ v _ => (v, 0);
     Coarsening.generate_sparsity_P := SparsityP.generate_sparsity_P;
     Coarsening.generate_sparsity_P_std := SparsityStd.generate_sparsity_P_std |}.

(** The routines of interpolation.c that [fasp_amg_interp] calls, as the
    sources have them; energy minimisation leaves its operand. *)
Definition code_interpolation : Interpolation.Externals :=
  {| Interpolation.interp_RS := DirectInterp.interp_RS;
     Interpolation.interp_EM := fun _ _ P _ => P;
     Interpolation.interp_STD := StandardInterp.interp_STD |}.

(** The coarsening of level [i] of the hierarchy [m] that the setup has
    returned was the classical one: the setup was entered with a type
    other than compatible relaxation and, if with the aggressive type,
    [i] is none of the levels to coarsen aggressively (the first, and
    those below [aggressive_level]); or an earlier level kept more than
    two thirds of its rows, upon which the setup goes over to the
    classical coarsening. *)
Definition coarsened_classically {D : SmootherData} (param0 : AMG_param)
  (m : arr AMG_data) (i : Z) : Prop :=
  (coarsening_type param0 <> COARSE_CR /\
   (coarsening_type param0 = COARSE_AC -> 1 <= i /\ aggressive_level param0 <= i))
  \/ exists j, 0 <= j < i /\ 2 * row (A (m j)) < 3 * row (A (m (j + 1))).

End WithConstants.

(** Of the Galerkin product, which is not among the sources, the number
    of rows only: those of [R].  The ILU setup succeeds and the rows are
    not reordered. *)
Definition rows_of_R : @AmgSetupRS.Externals Samples.no_data :=
  {| AmgSetupRS.fasp_ilu_dcsr_setup := fun _ _ => (0, ILU_null);
     AmgSetupRS.fasp_blas_dcsr_rap := fun R _ _ => Samples.rows_only (row R);
     AmgSetupRS.fasp_dcsr_diagpref := fun M => M |}.

(** A star of [n] vertices: row [0] holds [n - 1] on the diagonal and [-1]
    in every other column; a row [i > 0] holds [1] on the diagonal and
    then [1] in column [0].  Every row stores its diagonal once. *)
Definition star_operator (n : Z) : dCSRmat :=
  {| row := n; col := n; nnz := n + 2 * (n - 1);
     IA := fun i => if i <=? 0 then 0
                    else if i <? n then n + 2 * (i - 1) else n + 2 * (n - 1);
     JA := fun p => if p <? n then p
                    else if (p - n) mod 2 =? 0 then (p - n) / 2 + 1 else 0;
     val := Some (fun p => if p =? 0 then inject_Z (n - 1)
                           else if p <? n then (-1)%Q else 1%Q) |}.

(** The default parameters with the coarsest size lowered to [50] and two
    levels at most, for the classical and for the aggressive coarsening. *)
Definition two_level_param (ctype : Z) : AMG_param :=
  {| print_level := 0; max_levels := 2; coarse_dof := 50; cycle_type := 1;
     tol := 1 # 1000000; smoother := 2; smooth_order := 1;
     presmooth_iter := 1; postsmooth_iter := 1; relaxation := 1;
     polynomial_degree := 3; coarsening_type := ctype; interpolation_type := 1;
     strong_threshold := 3 # 10; max_row_sum := 9 # 10;
     truncation_threshold := 2 # 10; aggressive_level := 0; aggressive_path := 1;
     tentative_smooth := 67 # 100; ILU_levels := 0; schwarz_levels := 0 |}.

End WholeSetup.

(* ================================================================== *)
(** * Properties *)

(* ------------------------------------------------------------------ *)
(** ** Arrays, ranges and loops *)

Lemma upd_same {T : Type} (a : arr T) (k : Z) (v : T) : upd a k v k = v.
Proof. unfold upd. now rewrite Z.eqb_refl. Qed.

Lemma upd_other {T : Type} (a : arr T) (k i : Z) (v : T) : i <> k -> upd a k v i = a i.
Proof. intros H. unfold upd. destruct (Z.eqb_spec i k); [contradiction | reflexivity]. Qed.

Lemma zrange_from_length (n : nat) : forall lo, length (zrange_from lo n) = n.
Proof. induction n as [|n IH]; intros lo; simpl; [reflexivity | now rewrite IH]. Qed.

Lemma zrange_from_app (n m : nat) : forall lo,
  zrange_from lo (n + m) = zrange_from lo n ++ zrange_from (lo + Z.of_nat n) m.
Proof.
  induction n as [|n IH]; intros lo.
  - simpl. now rewrite Z.add_0_r.
  - cbn [Nat.add zrange_from app]. rewrite IH. do 3 f_equal. lia.
Qed.

Lemma zrange_from_In (n : nat) : forall lo k,
  In k (zrange_from lo n) <-> lo <= k < lo + Z.of_nat n.
Proof.
  induction n as [|n IH]; intros lo k.
  - simpl. lia.
  - cbn [zrange_from In]. rewrite IH. lia.
Qed.

Lemma zrange_In (lo hi k : Z) : In k (zrange lo hi) <-> lo <= k < hi.
Proof. unfold zrange. rewrite zrange_from_In. lia. Qed.

Lemma zrange_empty (lo hi : Z) : hi <= lo -> zrange lo hi = [].
Proof.
  intros H. unfold zrange. replace (Z.to_nat (hi - lo)) with O by lia. reflexivity.
Qed.

Lemma zrange_split (lo mid hi : Z) :
  lo <= mid <= hi -> zrange lo hi = zrange lo mid ++ zrange mid hi.
Proof.
  intros H. unfold zrange.
  replace (Z.to_nat (hi - lo)) with (Z.to_nat (mid - lo) + Z.to_nat (hi - mid))%nat by lia.
  rewrite zrange_from_app. do 2 f_equal. lia.
Qed.

Lemma zrange_first (lo hi : Z) : lo < hi -> zrange lo hi = lo :: zrange (lo + 1) hi.
Proof.
  intros H. unfold zrange.
  replace (Z.to_nat (hi - lo)) with (S (Z.to_nat (hi - (lo + 1)))) by lia.
  reflexivity.
Qed.

Lemma zrange_last (lo hi : Z) : lo <= hi -> zrange lo (hi + 1) = zrange lo hi ++ [hi].
Proof.
  intros H. rewrite (zrange_split lo hi (hi + 1)) by lia.
  f_equal. rewrite zrange_first by lia. now rewrite zrange_empty by lia.
Qed.

Lemma zrange_length (lo hi : Z) : length (zrange lo hi) = Z.to_nat (hi - lo).
Proof. unfold zrange. apply zrange_from_length. Qed.

Lemma zrange_NoDup (lo hi : Z) : NoDup (zrange lo hi).
Proof.
  unfold zrange. generalize (Z.to_nat (hi - lo)) as n. intros n. revert lo.
  induction n as [|n IH]; intros lo; simpl; constructor.
  - rewrite zrange_from_In. lia.
  - apply IH.
Qed.

Lemma for_loop_empty {St : Type} (lo hi : Z) (body : St -> Z -> St) (s : St) :
  hi <= lo -> for_loop lo hi body s = s.
Proof. intros H. unfold for_loop. now rewrite zrange_empty. Qed.

Lemma for_loop_first {St : Type} (lo hi : Z) (body : St -> Z -> St) (s : St) :
  lo < hi -> for_loop lo hi body s = for_loop (lo + 1) hi body (body s lo).
Proof. intros H. unfold for_loop. now rewrite zrange_first. Qed.

Lemma for_loop_last {St : Type} (lo hi : Z) (body : St -> Z -> St) (s : St) :
  lo <= hi -> for_loop lo (hi + 1) body s = body (for_loop lo hi body s) hi.
Proof. intros H. unfold for_loop. rewrite zrange_last by lia. now rewrite fold_left_app. Qed.

Lemma for_loop_split {St : Type} (lo mid hi : Z) (body : St -> Z -> St) (s : St) :
  lo <= mid <= hi ->
  for_loop lo hi body s = for_loop mid hi body (for_loop lo mid body s).
Proof.
  intros H. unfold for_loop. rewrite (zrange_split lo mid hi) by lia.
  now rewrite fold_left_app.
Qed.

(** The invariant rule of a counted loop. *)
Lemma for_loop_inv {St : Type} (I : Z -> St -> Prop) (lo hi : Z)
  (body : St -> Z -> St) (s : St) :
  lo <= hi ->
  I lo s ->
  (forall k t, lo <= k < hi -> I k t -> I (k + 1) (body t k)) ->
  I hi (for_loop lo hi body s).
Proof.
  intros Hle H0 Hstep.
  assert (G : forall n : nat, lo + Z.of_nat n <= hi ->
                              I (lo + Z.of_nat n) (for_loop lo (lo + Z.of_nat n) body s)).
  { induction n as [|n IH]; intros Hn.
    - rewrite Z.add_0_r. now rewrite for_loop_empty by lia.
    - replace (lo + Z.of_nat (S n)) with (lo + Z.of_nat n + 1) by lia.
      rewrite for_loop_last by lia. apply Hstep; [lia | apply IH; lia]. }
  specialize (G (Z.to_nat (hi - lo))).
  replace (lo + Z.of_nat (Z.to_nat (hi - lo))) with hi in G by lia.
  apply G. lia.
Qed.

(** Two bodies that agree on the range give the same loop. *)
Lemma for_loop_ext {St : Type} (lo hi : Z) (f g : St -> Z -> St) (s : St) :
  (forall t k, lo <= k < hi -> f t k = g t k) ->
  for_loop lo hi f s = for_loop lo hi g s.
Proof.
  intros H. unfold for_loop.
  assert (G : forall l, (forall k, In k l -> lo <= k < hi) ->
                        forall t, fold_left f l t = fold_left g l t).
  { induction l as [|a l IH]; intros Hl t; simpl; [reflexivity|].
    rewrite H by (apply Hl; now left). apply IH. intros k Hk. apply Hl. now right. }
  apply G. intros k Hk. now apply zrange_In.
Qed.

(** Case analysis on the comparisons of a goal. *)
Ltac zbool :=
  repeat match goal with
         | |- context [?a <=? ?b] => destruct (Z.leb_spec a b)
         | |- context [?a <? ?b] => destruct (Z.ltb_spec a b)
         | |- context [?a =? ?b] => destruct (Z.eqb_spec a b)
         end;
  cbn [andb orb negb]; try reflexivity; try lia.

(** A loop that rewrites cell [i] in turn [i]. *)
Lemma cellwise_loop {T : Type} (f : T -> Z -> T) (n : Z) (y : arr T) (k : Z) :
  for_loop 0 n (fun y i => upd y i (f (y i) i)) y k
  = if (0 <=? k) && (k <? n) then f (y k) k else y k.
Proof.
  destruct (Z.le_gt_cases n 0) as [Hn|Hn].
  - rewrite for_loop_empty by lia.
    destruct (Z.leb_spec 0 k); destruct (Z.ltb_spec k n); cbn; try reflexivity; lia.
  - apply (for_loop_inv
             (fun j t => t k = if (0 <=? k) && (k <? j) then f (y k) k else y k)).
    + lia.
    + destruct (Z.leb_spec 0 k); destruct (Z.ltb_spec k 0); cbn; try reflexivity; lia.
    + intros j t Hj Ht. unfold upd. destruct (Z.eqb_spec k j) as [->|Hne].
      * rewrite Ht.
        destruct (Z.leb_spec 0 j); destruct (Z.ltb_spec j j); destruct (Z.ltb_spec j (j + 1));
          cbn; try reflexivity; lia.
      * rewrite Ht.
        destruct (Z.leb_spec 0 k); destruct (Z.ltb_spec k j); destruct (Z.ltb_spec k (j + 1));
          cbn; try reflexivity; lia.
Qed.

Lemma iarray_cp_cells (n : Z) (x y : arr Z) (k : Z) :
  fasp_iarray_cp n x y k = if (0 <=? k) && (k <? n) then x k else y k.
Proof. unfold fasp_iarray_cp. apply (cellwise_loop (fun _ i => x i)). Qed.

(** A loop that overwrites the cells picked by [c]. *)
Lemma mark_loop {T : Type} (c : Z -> bool) (v : T) (b e : Z) (s : arr T) (p : Z) :
  for_loop b e (fun s j => if c j then upd s j v else s) s p
  = if (b <=? p) && (p <? e) && c p then v else s p.
Proof.
  destruct (Z.le_gt_cases e b) as [H | H].
  - rewrite for_loop_empty by lia. zbool.
  - apply (for_loop_inv
             (fun j t => t p = if (b <=? p) && (p <? j) && c p then v else s p)).
    + lia.
    + zbool.
    + intros j t Hj Ht. destruct (c j) eqn:Ec.
      * unfold upd. destruct (Z.eqb_spec p j) as [-> | Hne].
        { rewrite Ec. zbool. }
        { rewrite Ht. zbool. }
      * rewrite Ht. destruct (Z.eqb_spec p j) as [-> | Hne].
        { rewrite Ec. zbool; cbn; zbool. }
        { zbool. }
Qed.

Lemma nth_zrange {T : Type} (f : Z -> T) (d : T) (n i : Z) :
  0 <= i < n -> nth (Z.to_nat i) (map f (zrange 0 n)) d = f i.
Proof.
  intros H. rewrite (zrange_split 0 i n) by lia. rewrite map_app.
  rewrite app_nth2; rewrite length_map, zrange_length; [|lia].
  replace (Z.to_nat i - Z.to_nat (i - 0))%nat with O by lia.
  rewrite zrange_first by lia. reflexivity.
Qed.

(* ------------------------------------------------------------------ *)
(** ** Comparisons of REAL *)

Lemma Qltb_lt (x y : Q) : Qltb x y = true <-> (x < y)%Q.
Proof. unfold Qltb, Qlt. apply Z.ltb_lt. Qed.

Lemma Qltb_ge (x y : Q) : Qltb x y = false <-> (y <= x)%Q.
Proof. unfold Qltb, Qle. rewrite Z.ltb_ge. reflexivity. Qed.

Lemma Qgtb_gt (x y : Q) : Qgtb x y = true <-> (y < x)%Q.
Proof. apply Qltb_lt. Qed.

Lemma Qgtb_le (x y : Q) : Qgtb x y = false <-> (x <= y)%Q.
Proof. apply Qltb_ge. Qed.

Lemma Qgeb_ge (x y : Q) : Qgeb x y = true <-> (y <= x)%Q.
Proof. unfold Qgeb. rewrite negb_true_iff. apply Qltb_ge. Qed.

Lemma Qgeb_lt (x y : Q) : Qgeb x y = false <-> (x < y)%Q.
Proof. unfold Qgeb. rewrite negb_false_iff. apply Qltb_lt. Qed.

Lemma Qltb_spec (x y : Q) : reflect (x < y)%Q (Qltb x y).
Proof.
  destruct (Qltb x y) eqn:E; constructor.
  - now apply Qltb_lt.
  - apply Qle_not_lt. now apply Qltb_ge.
Qed.

(* ------------------------------------------------------------------ *)
(** ** The adaptive threshold of the unsmoothed-aggregation setup *)

Module ThresholdFacts.
Import PreAMGSetupUA Samples.

(** C9, as the claim words it, fails: with 50 aggregates on 100 rows the
    count times 1.25 is below the row count, and yet the threshold is not
    doubled: the first test (count times 4 above the row count) holds too
    and wins, so the threshold is halved. *)
Lemma C9_second_test_is_shadowed :
  let E := vmb_reporting 50 in
  let r := amg_setup_unsmoothP_unsmoothR_aggregation (rows_only 100) vmb_param 0 in
  (inject_Z 50 * (125 # 100) < inject_Z 100)%Q
  /\ strong_coupled (snd r) = (strong_coupled vmb_param / 2)%Q
  /\ ~ (strong_coupled (snd r) == strong_coupled vmb_param * 2)%Q.
Proof.
  cbv zeta. repeat split.
  intros H. vm_compute in H. discriminate H.
Qed.

(** C9 (amended): with VMB aggregation the threshold is halved when the
    aggregate count times 4 exceeds the row count; otherwise it is doubled
    when the count times 1.25 is below the row count; otherwise it is left
    alone.  The count is the one [aggregation_vmb] reports, and the
    aggregation type is not touched. *)
Theorem C9_threshold_adaptation (E : Externals) (A : dCSRmat) (param : AMG_param)
  (lvl : Z) :
  aggregation_type param = VMB ->
  let num_aggs := snd (aggregation_vmb A param (lvl + 1)) in
  let r := amg_setup_unsmoothP_unsmoothR_aggregation A param lvl in
  fst r = aggregation_vmb A param (lvl + 1)
  /\ aggregation_type (snd r) = aggregation_type param
  /\ (num_aggs * 4 > row A ->
      strong_coupled (snd r) = (strong_coupled param / 2)%Q)
  /\ (num_aggs * 4 <= row A ->
      (inject_Z num_aggs * (125 # 100) < inject_Z (row A))%Q ->
      strong_coupled (snd r) = (strong_coupled param * 2)%Q)
  /\ (num_aggs * 4 <= row A ->
      (inject_Z (row A) <= inject_Z num_aggs * (125 # 100))%Q ->
      snd r = param).
Proof.
  intros Hvmb num_aggs r. subst num_aggs r.
  unfold amg_setup_unsmoothP_unsmoothR_aggregation.
  rewrite Hvmb, Z.eqb_refl.
  destruct (aggregation_vmb A param (lvl + 1)) as [st n] eqn:Hagg. cbn [fst snd].
  destruct (Z.gtb_spec (n * 4) (row A)) as [Hgt | Hle].
  - cbn [fst snd strong_coupled aggregation_type]. repeat split; try reflexivity; lia.
  - destruct (Qltb_spec (inject_Z n * (125 # 100)) (inject_Z (row A))) as [Hlt | Hge];
      cbn [fst snd strong_coupled aggregation_type].
    + repeat split; try reflexivity; try lia.
      intros _ Hc. exfalso. apply (Qlt_not_le _ _ Hlt). exact Hc.
    + repeat split; try reflexivity; try lia.
      intros _ Hc. contradiction.
Qed.

(** With 20 aggregates on 100 rows the first test fails and the second
    holds: the threshold is doubled. *)
Lemma C9_threshold_adaptation_witness :
  let E := vmb_reporting 20 in
  strong_coupled
    (snd (amg_setup_unsmoothP_unsmoothR_aggregation (rows_only 100) vmb_param 0))
  = (strong_coupled vmb_param * 2)%Q.
Proof.
  cbv zeta.
  refine (proj1 (proj2 (proj2 (proj2
    (C9_threshold_adaptation (vmb_reporting 20) (rows_only 100) vmb_param 0 eq_refl))))
    _ _).
  - vm_compute. discriminate.
  - vm_compute. reflexivity.
Defined.

End ThresholdFacts.

(* ------------------------------------------------------------------ *)
(** ** The type codes: which of them are refused *)

Module TypeCodeFacts.
Import Interpolation Coarsening Samples.

Section WithParts.
Context {K : Constants} {L : LinkList} {EC : Coarsening.Externals}
        {EI : Interpolation.Externals}.

(** An unknown coarsening type is refused at once, with the error code. *)
Lemma coarsening_unknown_type (A : dCSRmat) (vertices : arr Z) (P : dCSRmat)
  (S : iCSRmat) (param : AMG_param) :
  coarsening_type param <> COARSE_RS ->
  coarsening_type param <> COARSE_AC ->
  coarsening_type param <> COARSE_CR ->
  fasp_amg_coarsening_rs A vertices P S param
  = Some {| Coarsening.status := ERROR_AMG_COARSE_TYPE; vertices_out := vertices;
            Coarsening.P_out := P; S_out := S |}.
Proof.
  intros H1 H2 H3. unfold fasp_amg_coarsening_rs.
  destruct (Z.eqb_spec (coarsening_type param) COARSE_RS); [contradiction|].
  destruct (Z.eqb_spec (coarsening_type param) COARSE_AC); [contradiction|].
  destruct (Z.eqb_spec (coarsening_type param) COARSE_CR); [contradiction|].
  reflexivity.
Qed.

(** A known coarsening type ends with [RUN_FAIL] or [SUCCESS]. *)
Lemma coarsening_known_type (A : dCSRmat) (vertices : arr Z) (P : dCSRmat)
  (S : iCSRmat) (param : AMG_param) (r : coarsening_result) :
  coarsening_type param = COARSE_RS \/ coarsening_type param = COARSE_AC
  \/ coarsening_type param = COARSE_CR ->
  fasp_amg_coarsening_rs A vertices P S param = Some r ->
  Coarsening.status r = RUN_FAIL \/ Coarsening.status r = SUCCESS.
Proof.
  intros Hk. unfold fasp_amg_coarsening_rs.
  replace ((coarsening_type param =? COARSE_RS) || (coarsening_type param =? COARSE_AC)
           || (coarsening_type param =? COARSE_CR)) with true.
  2:{ symmetry. destruct Hk as [H | [H | H]]; rewrite H, Z.eqb_refl;
      rewrite ?orb_true_r; reflexivity. }
  destruct (innz _ =? 0).
  - intros [= <-]. now left.
  - match goal with |- context [match ?s with Some _ => _ | None => _ end] =>
      destruct s as [[v c]|] end.
    + intros [= <-]. now right.
    + discriminate.
Qed.

(** What [fasp_amg_interp] does with each type code. *)
Lemma interp_dispatch (A : dCSRmat) (vertices : arr Z) (P : dCSRmat) (S : iCSRmat)
  (param : AMG_param) :
  let t := if coarsening_type param =? 4 then INTERP_STD else interpolation_type param in
  chkerr (fasp_amg_interp A vertices P S param)
  = if (t =? INTERP_REG) || (t =? INTERP_ENG_MIN) then None
    else Some ERROR_AMG_INTERP_TYPE.
Proof.
  cbv zeta. unfold fasp_amg_interp.
  destruct (_ =? INTERP_REG); [reflexivity|].
  destruct (_ =? INTERP_ENG_MIN); [reflexivity|].
  destruct (_ =? INTERP_STD); reflexivity.
Qed.

End WithParts.

(** C7 (what the code does): [fasp_amg_coarsening_rs] returns the
    coarse-type error exactly for the coarsening types it does not know;
    [fasp_amg_interp] passes the interpolation-type error to [fasp_chkerr]
    for every type other than direct and energy-minimisation, the standard
    type included: after [interp_STD] has run, control falls into the
    [default] label. *)
Theorem C7_type_errors (K : Constants) (L : LinkList) (EC : Coarsening.Externals)
  (EI : Interpolation.Externals) (A : dCSRmat) (vertices : arr Z) (P : dCSRmat)
  (S : iCSRmat) (param : AMG_param) :
  Constants_ok K ->
  (forall r, fasp_amg_coarsening_rs A vertices P S param = Some r ->
     (Coarsening.status r = ERROR_AMG_COARSE_TYPE <->
      coarsening_type param <> COARSE_RS /\ coarsening_type param <> COARSE_AC
      /\ coarsening_type param <> COARSE_CR))
  /\ (coarsening_type param <> 4 -> interpolation_type param = INTERP_STD ->
      fasp_amg_interp A vertices P S param
      = {| Interpolation.P_out := interp_STD A vertices P S param;
           chkerr := Some ERROR_AMG_INTERP_TYPE;
           Interpolation.status := SUCCESS |}).
Proof.
  intros OK. split.
  - intros r Hr. split.
    + intros Hs.
      destruct (Z.eq_dec (coarsening_type param) COARSE_RS) as [e1|n1];
      [|destruct (Z.eq_dec (coarsening_type param) COARSE_AC) as [e2|n2];
        [|destruct (Z.eq_dec (coarsening_type param) COARSE_CR) as [e3|n3]]];
      try (repeat split; assumption);
      exfalso;
      (assert (Hk : Coarsening.status r = RUN_FAIL \/ Coarsening.status r = SUCCESS)
         by (eapply coarsening_known_type; [|exact Hr]; tauto));
      pose proof (err_coarse_neg K OK); pose proof (err_coarse_not_fail K OK);
      unfold RUN_FAIL, SUCCESS in *; destruct Hk; lia.
    + intros (H1 & H2 & H3).
      rewrite (coarsening_unknown_type A vertices P S param H1 H2 H3) in Hr.
      now injection Hr as <-.
  - intros H4 Hstd. unfold fasp_amg_interp.
    destruct (Z.eqb_spec (coarsening_type param) 4); [contradiction|].
    rewrite Hstd.
    destruct (Z.eqb_spec INTERP_STD INTERP_REG) as [e|_].
    { exfalso. apply (interp_reg_std K OK). now symmetry. }
    destruct (Z.eqb_spec INTERP_STD INTERP_ENG_MIN) as [e|_].
    { exfalso. apply (interp_eng_std K OK). now symmetry. }
    now rewrite Z.eqb_refl.
Qed.

Lemma sample_constants_ok : Constants_ok sample_constants.
Proof. constructor; cbn; try lia; try discriminate. reflexivity. Qed.

(** With the sample constants and the standard type selected, the error
    code [-30] reaches [fasp_chkerr]. *)
Lemma C7_type_errors_witness :
  @chkerr (@fasp_amg_interp sample_constants idle_interpolation
             empty_matrix (zeros 0) empty_matrix empty_graph
             (set_coarsening_type
                {| print_level := 0; max_levels := 20; coarse_dof := 500;
                   cycle_type := 1; tol := 1 # 1000000; smoother := 2;
                   smooth_order := 1; presmooth_iter := 1; postsmooth_iter := 1;
                   relaxation := 1; polynomial_degree := 3; coarsening_type := 1;
                   interpolation_type := 2; strong_threshold := 3 # 10;
                   max_row_sum := 9 # 10; truncation_threshold := 2 # 10;
                   aggressive_level := 0; aggressive_path := 1;
                   tentative_smooth := 67 # 100; ILU_levels := 0;
                   schwarz_levels := 0 |} 1))
  = Some (-30).
Proof.
  rewrite (proj2 (C7_type_errors sample_constants bucket_lists idle_coarsening
                    idle_interpolation empty_matrix (zeros 0) empty_matrix empty_graph
                    _ sample_constants_ok)).
  - reflexivity.
  - cbn. discriminate.
  - reflexivity.
Defined.

End TypeCodeFacts.

(* ------------------------------------------------------------------ *)
(** ** The truncation of the interpolation *)

Module TruncationFacts.
Import Interpolation Rows TruncatedRow Samples.

(** *** The four loops over a row, as folds over its values *)

Lemma extremes_fold (pv : arr Q) (l : list Z) : forall m p s t,
  fold_left
    (fun '(mMin, pMax, mSum, pSum) j =>
       let '(mMin, mSum) :=
         if Qltb (pv j) 0
         then ((if Qltb (pv j) mMin then pv j else mMin), (mSum + pv j)%Q)
         else (mMin, mSum) in
       let '(pMax, pSum) :=
         if Qgtb (pv j) 0
         then ((if Qgtb (pv j) pMax then pv j else pMax), (pSum + pv j)%Q)
         else (pMax, pSum) in
       (mMin, pMax, mSum, pSum)) l (m, p, s, t)
  = (fold_left f_min (map pv l) m, fold_left f_max (map pv l) p,
     fold_left f_nsum (map pv l) s, fold_left f_psum (map pv l) t).
Proof.
  induction l as [|j l IH]; intros m p s t; [reflexivity|].
  cbn [fold_left map]. unfold f_min at 2, f_max at 2, f_nsum at 2, f_psum at 2.
  destruct (Qltb (pv j) 0); destruct (Qgtb (pv j) 0); apply IH.
Qed.

Lemma row_extremes_eq (pv : arr Q) (b e : Z) :
  row_extremes pv b e
  = (fold_left f_min (map pv (zrange b e)) 0%Q, fold_left f_max (map pv (zrange b e)) 0%Q,
     fold_left f_nsum (map pv (zrange b e)) 0%Q, fold_left f_psum (map pv (zrange b e)) 0%Q).
Proof. unfold row_extremes, for_loop. apply extremes_fold. Qed.

(** A value is not both negative and positive. *)
Lemma not_both_signs (v : Q) : Qltb v 0 = true -> Qgtb v 0 = true -> False.
Proof.
  intros H1 H2. apply Qltb_lt in H1. apply Qgtb_gt in H2.
  apply (Qlt_irrefl 0). now apply Qlt_trans with v.
Qed.

Lemma keep_cases (eps mMin pMax v : Q) :
  (negkeep eps mMin v = true /\ poskeep eps pMax v = false)
  \/ (negkeep eps mMin v = false /\ poskeep eps pMax v = true)
  \/ (negkeep eps mMin v = false /\ poskeep eps pMax v = false).
Proof.
  unfold negkeep, poskeep.
  destruct (Qltb v 0) eqn:E1; destruct (Qgtb v 0) eqn:E2; cbn [andb].
  - exfalso. eapply not_both_signs; eassumption.
  - destruct (negb _); auto.
  - destruct (negb (Qltb _ _)); auto.
  - auto.
Qed.

Ltac raw_keep := unfold keep, f_knsum, f_kpsum, scaled in *; unfold negkeep, poskeep in *.

Ltac split_signs v a b :=
  destruct (Qltb v 0) eqn:?E1; destruct (Qgtb v 0) eqn:?E2;
  [ exfalso; eapply not_both_signs; eassumption | | | ];
  destruct (Qgtb v a) eqn:?E3; destruct (Qltb v b) eqn:?E4;
  cbn [andb orb negb length map filter].

Lemma count_fold (pv : arr Q) (eps mMin pMax : Q) (l : list Z) : forall nl,
  fold_left
    (fun nl j =>
       let nl := if Qltb (pv j) 0
                 then (if Qgtb (pv j) (mMin * eps) then nl else nl - 1)
                 else nl in
       if Qgtb (pv j) 0
       then (if Qltb (pv j) (pMax * eps) then nl else nl - 1)
       else nl) l nl
  = nl - Z.of_nat (length (filter (keep eps mMin pMax) (map pv l))).
Proof.
  raw_keep.
  induction l as [|j l IH]; intros nl; [cbn; lia|].
  cbn [fold_left map filter]. rewrite IH.
  split_signs (pv j) (mMin * eps)%Q (pMax * eps)%Q; lia.
Qed.

Lemma pattern_fold (pja : arr Z) (pv : arr Q) (eps mMin pMax : Q) (l : list Z) :
  forall ja i1 mT pT,
  let r :=
    fold_left
      (fun '(ja, i1, mTruncedSum, pTruncedSum) j =>
         let '(ja, i1, mTruncedSum) :=
           if Qltb (pv j) 0 && negb (Qgtb (pv j) (mMin * eps))
           then (upd ja i1 (pja j), i1 + 1, (mTruncedSum + pv j)%Q)
           else (ja, i1, mTruncedSum) in
         if Qgtb (pv j) 0 && negb (Qltb (pv j) (pMax * eps))
         then (upd ja i1 (pja j), i1 + 1, mTruncedSum, (pTruncedSum + pv j)%Q)
         else (ja, i1, mTruncedSum, pTruncedSum)) l (ja, i1, mT, pT) in
  snd (fst (fst r)) = i1 + Z.of_nat (length (filter (keep eps mMin pMax) (map pv l)))
  /\ snd (fst r) = fold_left (f_knsum eps mMin) (map pv l) mT
  /\ snd r = fold_left (f_kpsum eps pMax) (map pv l) pT.
Proof.
  raw_keep.
  induction l as [|j l IH]; intros ja i1 mT pT; [cbn; repeat split; lia|].
  cbn [fold_left map filter].
  split_signs (pv j) (mMin * eps)%Q (pMax * eps)%Q;
    match goal with |- context [fold_left ?f l (?a, ?b, ?c, ?d)] =>
      destruct (IH a b c d) as (H1 & H2 & H3) end;
    cbv zeta; rewrite H1, H2, H3; repeat split; lia.
Qed.

Lemma values_fold (pv : arr Q) (eps mMin pMax mSum pSum mT pT : Q) (l : list Z) :
  forall v i2,
  let r :=
    fold_left
      (fun '(v, i2) j =>
         let '(v, i2) :=
           if Qltb (pv j) 0 && negb (Qgtb (pv j) (mMin * eps))
           then (upd v i2 (pv j / mT * mSum)%Q, i2 + 1)
           else (v, i2) in
         if Qgtb (pv j) 0 && negb (Qltb (pv j) (pMax * eps))
         then (upd v i2 (pv j / pT * pSum)%Q, i2 + 1)
         else (v, i2)) l (v, i2) in
  let kept := filter (keep eps mMin pMax) (map pv l) in
  snd r = i2 + Z.of_nat (length kept)
  /\ map (fst r) (zrange i2 (i2 + Z.of_nat (length kept)))
     = map (scaled eps mMin mSum pSum mT pT) kept
  /\ (forall k, k < i2 \/ i2 + Z.of_nat (length kept) <= k -> fst r k = v k).
Proof.
  raw_keep.
  induction l as [|j l IH]; intros v i2.
  - cbn. rewrite Z.add_0_r, zrange_empty by lia. repeat split; lia.
  - cbn [fold_left map filter].
    split_signs (pv j) (mMin * eps)%Q (pMax * eps)%Q;
      match goal with |- context [fold_left ?f l (?a, ?b)] =>
        destruct (IH a b) as (H1 & H2 & H3) end;
      cbv zeta; rewrite H1;
      (split; [lia|]);
      first
        [ split; [exact H2 | intros k Hk; apply H3; lia]
        | split;
          [ match goal with |- context [Z.of_nat (S ?n)] =>
              replace (i2 + Z.of_nat (S n)) with (i2 + 1 + Z.of_nat n) by lia end;
            rewrite zrange_first by lia; cbn [map]; rewrite H2; f_equal;
            rewrite H3 by lia; rewrite upd_same;
            rewrite ?E1, ?E2, ?E3, ?E4; reflexivity
          | intros k Hk; rewrite H3 by lia; apply upd_other; lia ] ].
Qed.

(** *** One row *)

Lemma out_vals_length (eps : Q) (vs : list Q) :
  length (out_vals eps vs)
  = length (filter (keep eps (fold_left f_min vs 0%Q) (fold_left f_max vs 0%Q)) vs).
Proof. unfold out_vals. cbv zeta. apply length_map. Qed.

Lemma truncate_row_effect (pia pja : arr Z) (pv : arr Q) (eps : Q)
  (st : trunc_state) (i : Z) :
  let st' := truncate_row pia pja pv eps st i in
  let out := out_vals eps (row_in pia pv i) in
  num_lost st' = num_lost st - Z.of_nat (length out)
  /\ index1 st' = index1 st + Z.of_nat (length out)
  /\ index2 st' = index2 st + Z.of_nat (length out)
  /\ tIA st' = upd (tIA st) i (tIA st i - num_lost st)
  /\ map (tval st') (zrange (index2 st) (index2 st + Z.of_nat (length out))) = out
  /\ (forall k, k < index2 st \/ index2 st + Z.of_nat (length out) <= k ->
                tval st' k = tval st k).
Proof.
  cbv zeta. unfold truncate_row. rewrite row_extremes_eq.
  fold (row_in pia pv i).
  set (vs := row_in pia pv i).
  set (mMin := fold_left f_min vs 0%Q). set (pMax := fold_left f_max vs 0%Q).
  set (mSum := fold_left f_nsum vs 0%Q). set (pSum := fold_left f_psum vs 0%Q).
  pose proof (pattern_fold pja pv eps mMin pMax (zrange (pia i) (pia (i + 1)))
                (tJA st) (index1 st) 0%Q 0%Q) as HP.
  cbv zeta in HP. fold (row_in pia pv i) in HP. fold vs in HP.
  unfold row_pattern, for_loop.
  destruct (fold_left _ (zrange (pia i) (pia (i + 1))) (tJA st, index1 st, 0%Q, 0%Q))
    as [[[ja i1] mT] pT] eqn:EP.
  cbn [fst snd] in HP. destruct HP as (HP1 & HP2 & HP3).
  pose proof (values_fold pv eps mMin pMax mSum pSum mT pT (zrange (pia i) (pia (i + 1)))
                (tval st) (index2 st)) as HV.
  cbv zeta in HV. fold (row_in pia pv i) in HV. fold vs in HV.
  unfold row_values, for_loop.
  destruct (fold_left _ (zrange (pia i) (pia (i + 1))) (tval st, index2 st))
    as [v i2] eqn:EV.
  cbn [fst snd] in HV. destruct HV as (HV1 & HV2 & HV3).
  cbn [num_lost index1 index2 tIA tJA tval].
  rewrite out_vals_length. fold mMin pMax.
  unfold row_count, for_loop. rewrite count_fold. fold (row_in pia pv i). fold vs.
  repeat split; try assumption; try reflexivity.
  rewrite HV2. unfold out_vals. cbv zeta. fold mMin pMax mSum pSum.
  rewrite HP2, HP3. reflexivity.
Qed.

(** *** All rows *)

Lemma prefix_succ (P : dCSRmat) (eps : Q) (i : Z) :
  0 <= i ->
  prefix P eps (i + 1) = truncate_row (IA P) (JA P) (aval P) eps (prefix P eps i) i.
Proof. intros H. unfold prefix. now rewrite for_loop_last. Qed.

Lemma row_in_row_vals (P : dCSRmat) (i : Z) : row_in (IA P) (aval P) i = row_vals P i.
Proof. reflexivity. Qed.

Lemma prefix_inv (P : dCSRmat) (eps : Q) (n : nat) :
  let i := Z.of_nat n in
  let st := prefix P eps i in
  index1 st = index2 st
  /\ num_lost st = - index2 st
  /\ (forall k, i <= k -> tIA st k = 0)
  /\ (forall i', 0 <= i' < i ->
        tIA st i' = index2 (prefix P eps i')
        /\ index2 (prefix P eps i') <= index2 (prefix P eps (i' + 1)) <= index2 st
        /\ map (tval st) (zrange (index2 (prefix P eps i')) (index2 (prefix P eps (i' + 1))))
           = out_vals eps (row_vals P i')).
Proof.
  induction n as [|n IH].
  - cbv zeta. unfold prefix. cbn [Z.of_nat]. rewrite for_loop_empty by lia.
    cbn. repeat split; try lia.
  - cbv zeta in IH |- *. destruct IH as (I1 & I2 & I3 & I4).
    replace (Z.of_nat (S n)) with (Z.of_nat n + 1) by lia.
    rewrite prefix_succ by lia.
    set (i := Z.of_nat n) in *. set (st := prefix P eps i) in *.
    destruct (truncate_row_effect (IA P) (JA P) (aval P) eps st i)
      as (T1 & T2 & T3 & T4 & T5 & T6).
    rewrite row_in_row_vals in *.
    set (st' := truncate_row (IA P) (JA P) (aval P) eps st i) in *.
    set (c := Z.of_nat (length (out_vals eps (row_vals P i)))) in *.
    assert (Hst' : prefix P eps (i + 1) = st').
    { unfold st', st. apply prefix_succ. lia. }
    repeat split.
    + lia.
    + lia.
    + intros k Hk. rewrite T4. rewrite upd_other by lia. apply I3. lia.
    + rewrite T4. destruct (Z.eq_dec i' i) as [->|Hne].
      * rewrite upd_same. rewrite I3 by lia. fold st. lia.
      * rewrite upd_other by lia. apply I4. lia.
    + destruct (Z.eq_dec i' i) as [->|Hne].
      * fold st. rewrite Hst'. lia.
      * apply I4. lia.
    + destruct (Z.eq_dec i' i) as [->|Hne].
      * rewrite Hst'. lia.
      * destruct (I4 i') as (_ & J & _); lia.
    + destruct (Z.eq_dec i' i) as [->|Hne].
      * rewrite Hst'. fold st. rewrite T3. exact T5.
      * destruct (I4 i') as (_ & J & J'); [lia|].
        rewrite <- J'. apply map_ext_in. intros k Hk. apply zrange_In in Hk.
        apply T6. lia.
Qed.

(** Each row of the truncated operator holds the truncated values of the
    same row of the operator given. *)
Lemma truncation_rows (P : dCSRmat) (eps : Q) (i : Z) :
  0 <= i < row P ->
  row_vals (truncation P eps) i = out_vals eps (row_vals P i).
Proof.
  intros Hi. unfold truncation. fold start_state. fold (prefix P eps (row P)).
  set (st := prefix P eps (row P)).
  destruct (prefix_inv P eps (Z.to_nat (row P))) as (I1 & I2 & I3 & I4).
  replace (Z.of_nat (Z.to_nat (row P))) with (row P) in * by lia. fold st in I1, I2, I3, I4.
  destruct (I4 i Hi) as (J1 & J2 & J3).
  rewrite <- J3.
  unfold row_vals, positions, aval. cbn [IA val].
  rewrite upd_other by lia. rewrite J1.
  destruct (Z.eq_dec (i + 1) (row P)) as [e|ne].
  - rewrite e, upd_same. rewrite I3 by lia. rewrite I2.
    replace (0 - - index2 st) with (index2 st) by lia.
    reflexivity.
  - rewrite upd_other by lia.
    destruct (I4 (i + 1)) as (K1 & _); [lia|]. rewrite K1. reflexivity.
Qed.

(** *** Sums of the negative and of the positive entries *)

Lemma fold_nsum (vs : list Q) : forall s,
  (fold_left f_nsum vs s == s + qsum (negatives vs))%Q.
Proof.
  induction vs as [|v vs IH]; intros s; cbn [fold_left negatives filter qsum].
  - ring.
  - rewrite IH. unfold f_nsum. fold (negatives vs).
    destruct (Qltb v 0); cbn [qsum]; ring.
Qed.

Lemma fold_psum (vs : list Q) : forall s,
  (fold_left f_psum vs s == s + qsum (positives vs))%Q.
Proof.
  induction vs as [|v vs IH]; intros s; cbn [fold_left positives filter qsum].
  - ring.
  - rewrite IH. unfold f_psum. fold (positives vs).
    destruct (Qgtb v 0); cbn [qsum]; ring.
Qed.

Lemma fold_knsum (eps m : Q) (vs : list Q) : forall s,
  (fold_left (f_knsum eps m) vs s == s + qsum (filter (negkeep eps m) vs))%Q.
Proof.
  induction vs as [|v vs IH]; intros s; cbn [fold_left filter qsum].
  - ring.
  - rewrite IH. unfold f_knsum. destruct (negkeep eps m v); cbn [qsum]; ring.
Qed.

Lemma fold_kpsum (eps m : Q) (vs : list Q) : forall s,
  (fold_left (f_kpsum eps m) vs s == s + qsum (filter (poskeep eps m) vs))%Q.
Proof.
  induction vs as [|v vs IH]; intros s; cbn [fold_left filter qsum].
  - ring.
  - rewrite IH. unfold f_kpsum. destruct (poskeep eps m v); cbn [qsum]; ring.
Qed.

Lemma qsum_negative (l : list Q) :
  l <> [] -> (forall v, In v l -> (v < 0)%Q) -> (qsum l < 0)%Q.
Proof.
  induction l as [|v l IH]; intros Hne Hall; [contradiction|].
  cbn [qsum]. assert (Hv : (v < 0)%Q) by (apply Hall; now left).
  destruct l as [|u l].
  - cbn [qsum]. lra.
  - assert ((qsum (u :: l) < 0)%Q).
    { apply IH; [discriminate|]. intros t Ht. apply Hall. now right. }
    lra.
Qed.

Lemma qsum_positive (l : list Q) :
  l <> [] -> (forall v, In v l -> (0 < v)%Q) -> (0 < qsum l)%Q.
Proof.
  induction l as [|v l IH]; intros Hne Hall; [contradiction|].
  cbn [qsum]. assert (Hv : (0 < v)%Q) by (apply Hall; now left).
  destruct l as [|u l].
  - cbn [qsum]. lra.
  - assert ((0 < qsum (u :: l))%Q).
    { apply IH; [discriminate|]. intros t Ht. apply Hall. now right. }
    lra.
Qed.

Lemma qsum_scaled (c d : Q) (l : list Q) :
  (qsum (map (fun v => v / c * d) l) == qsum l / c * d)%Q.
Proof.
  induction l as [|v l IH]; cbn [map qsum].
  - unfold Qdiv. ring.
  - rewrite IH. unfold Qdiv. ring.
Qed.

(** The quotient of two negative numbers is positive. *)
Lemma Qdiv_neg_neg (a c : Q) : (a < 0)%Q -> (c < 0)%Q -> (0 < a / c)%Q.
Proof.
  intros Ha Hc.
  assert (E : (a / c == (- a) / (- c))%Q) by (field; lra).
  rewrite E. apply Qlt_shift_div_l; lra.
Qed.

Lemma Qdiv_pos_pos (a c : Q) : (0 < a)%Q -> (0 < c)%Q -> (0 < a / c)%Q.
Proof. intros Ha Hc. apply Qlt_shift_div_l; lra. Qed.

Lemma scaled_negative (a c d : Q) :
  (a < 0)%Q -> (c < 0)%Q -> (d < 0)%Q -> (a / c * d < 0)%Q.
Proof.
  intros Ha Hc Hd. pose proof (Qdiv_neg_neg a c Ha Hc) as Hq.
  setoid_replace 0%Q with (a / c * 0)%Q by ring.
  apply Qmult_lt_l; assumption.
Qed.

Lemma scaled_positive (a c d : Q) :
  (0 < a)%Q -> (0 < c)%Q -> (0 < d)%Q -> (0 < a / c * d)%Q.
Proof.
  intros Ha Hc Hd. pose proof (Qdiv_pos_pos a c Ha Hc) as Hq.
  setoid_replace 0%Q with (a / c * 0)%Q by ring.
  apply Qmult_lt_l; assumption.
Qed.

(** The extremes found by the first loop. *)
Lemma fold_min_props (vs : list Q) : forall m0,
  (m0 <= 0)%Q ->
  let m := fold_left f_min vs m0 in
  (m <= m0)%Q
  /\ (forall v, In v vs -> (v < 0)%Q -> (m <= v)%Q)
  /\ (m = m0 \/ (In m vs /\ (m < 0)%Q)).
Proof.
  induction vs as [|v vs IH]; intros m0 H0; cbv zeta; cbn [fold_left].
  - repeat split; [lra | intros v [] | now left].
  - assert (Hf : (f_min m0 v <= m0)%Q
                 /\ ((v < 0)%Q -> (f_min m0 v <= v)%Q)
                 /\ (f_min m0 v = m0 \/ (f_min m0 v = v /\ (v < 0)%Q))).
    { unfold f_min. destruct (Qltb_spec v 0) as [Hv|Hv].
      - destruct (Qltb_spec v m0) as [Hm|Hm].
        + repeat split; try lra. right. split; [reflexivity | assumption].
        + apply Qnot_lt_le in Hm. repeat split; try lra. now left.
      - repeat split; try lra. now left. }
    destruct Hf as (F1 & F2 & F3).
    destruct (IH (f_min m0 v)) as (I1 & I2 & I3); [lra|].
    repeat split.
    + lra.
    + intros u [<- | Hu] Hneg.
      * specialize (F2 Hneg). lra.
      * now apply I2.
    + destruct I3 as [E | [Hin Hneg]].
      * rewrite E. destruct F3 as [F3 | [F3 Hv]].
        -- now left.
        -- right. rewrite F3. split; [now left | assumption].
      * right. split; [now right | assumption].
Qed.

Lemma fold_max_props (vs : list Q) : forall m0,
  (0 <= m0)%Q ->
  let m := fold_left f_max vs m0 in
  (m0 <= m)%Q
  /\ (forall v, In v vs -> (0 < v)%Q -> (v <= m)%Q)
  /\ (m = m0 \/ (In m vs /\ (0 < m)%Q)).
Proof.
  induction vs as [|v vs IH]; intros m0 H0; cbv zeta; cbn [fold_left].
  - repeat split; [lra | intros v [] | now left].
  - assert (Hf : (m0 <= f_max m0 v)%Q
                 /\ ((0 < v)%Q -> (v <= f_max m0 v)%Q)
                 /\ (f_max m0 v = m0 \/ (f_max m0 v = v /\ (0 < v)%Q))).
    { unfold f_max, Qgtb. destruct (Qltb_spec 0 v) as [Hv|Hv].
      - destruct (Qltb_spec m0 v) as [Hm|Hm].
        + repeat split; try lra. right. split; [reflexivity | assumption].
        + apply Qnot_lt_le in Hm. repeat split; try lra. now left.
      - repeat split; try lra. now left. }
    destruct Hf as (F1 & F2 & F3).
    destruct (IH (f_max m0 v)) as (I1 & I2 & I3); [lra|].
    repeat split.
    + lra.
    + intros u [<- | Hu] Hpos.
      * specialize (F2 Hpos). lra.
      * now apply I2.
    + destruct I3 as [E | [Hin Hpos]].
      * rewrite E. destruct F3 as [F3 | [F3 Hv]].
        -- now left.
        -- right. rewrite F3. split; [now left | assumption].
      * right. split; [now right | assumption].
Qed.

Lemma negkeep_negative (eps m v : Q) : negkeep eps m v = true -> (v < 0)%Q.
Proof. unfold negkeep. intros H. apply andb_prop in H. now apply Qltb_lt. Qed.

Lemma poskeep_positive (eps m v : Q) : poskeep eps m v = true -> (0 < v)%Q.
Proof. unfold poskeep. intros H. apply andb_prop in H. now apply Qgtb_gt. Qed.

Lemma signs_of_scaled (eps mMin pMax mSum pSum mT pT : Q) (l : list Q) :
  (forall v, In v l -> negkeep eps mMin v = true -> (v / mT * mSum < 0)%Q) ->
  (forall v, In v l -> poskeep eps pMax v = true -> (0 < v / pT * pSum)%Q) ->
  negatives (map (scaled eps mMin mSum pSum mT pT) (filter (keep eps mMin pMax) l))
  = map (fun v => v / mT * mSum)%Q (filter (negkeep eps mMin) l)
  /\ positives (map (scaled eps mMin mSum pSum mT pT) (filter (keep eps mMin pMax) l))
     = map (fun v => v / pT * pSum)%Q (filter (poskeep eps pMax) l).
Proof.
  induction l as [|v l IH]; intros Hn Hp; [split; reflexivity|].
  destruct IH as (IH1 & IH2).
  { intros u Hu. apply Hn. now right. }
  { intros u Hu. apply Hp. now right. }
  unfold negatives, positives in *.
  destruct (keep_cases eps mMin pMax v) as [[H1 H2] | [[H1 H2] | [H1 H2]]].
  - assert (Hk : keep eps mMin pMax v = true) by (unfold keep; now rewrite H1).
    assert (Es : scaled eps mMin mSum pSum mT pT v = (v / mT * mSum)%Q)
      by (unfold scaled; now rewrite H1).
    assert (Hs : (v / mT * mSum < 0)%Q) by (apply Hn; [now left | assumption]).
    assert (B1 : Qltb (v / mT * mSum) 0 = true) by now apply Qltb_lt.
    assert (B2 : Qgtb (v / mT * mSum) 0 = false)
      by (apply Qgtb_le; now apply Qlt_le_weak).
    cbn [filter]. rewrite Hk, H1, H2. cbn [map filter]. rewrite Es, B1, B2.
    rewrite IH1, IH2. split; reflexivity.
  - assert (Hk : keep eps mMin pMax v = true)
      by (unfold keep; rewrite H2; apply orb_true_r).
    assert (Es : scaled eps mMin mSum pSum mT pT v = (v / pT * pSum)%Q)
      by (unfold scaled; now rewrite H1).
    assert (Hs : (0 < v / pT * pSum)%Q) by (apply Hp; [now left | assumption]).
    assert (B1 : Qgtb (v / pT * pSum) 0 = true) by now apply Qgtb_gt.
    assert (B2 : Qltb (v / pT * pSum) 0 = false)
      by (apply Qltb_ge; now apply Qlt_le_weak).
    cbn [filter]. rewrite Hk, H1, H2. cbn [map filter]. rewrite Es, B1, B2.
    rewrite IH1, IH2. split; reflexivity.
  - assert (Hk : keep eps mMin pMax v = false) by (unfold keep; now rewrite H1, H2).
    cbn [filter]. rewrite Hk, H1, H2. split; assumption.
Qed.

Lemma filter_nonempty {T : Type} (f : T -> bool) (l : list T) (v : T) :
  In v l -> f v = true -> filter f l <> [].
Proof.
  intros Hin Hf E. assert (H : In v (filter f l)) by (apply filter_In; now split).
  rewrite E in H. contradiction.
Qed.

(** With a threshold that is at most one, the extreme entry of each sign
    is kept. *)
Lemma min_is_kept (eps : Q) (vs : list Q) (v : Q) :
  (eps <= 1)%Q -> In v vs -> (v < 0)%Q ->
  filter (negkeep eps (fold_left f_min vs 0%Q)) vs <> [].
Proof.
  intros He Hin Hv.
  destruct (fold_min_props vs 0%Q) as (M1 & M2 & M3); [lra|]. cbv zeta in *.
  set (m := fold_left f_min vs 0%Q) in *.
  specialize (M2 v Hin Hv).
  destruct M3 as [E | [Hm Hneg]]; [rewrite E in M2; lra|].
  apply (filter_nonempty _ vs m Hm).
  unfold negkeep. apply andb_true_intro. split; [now apply Qltb_lt|].
  apply negb_true_iff. apply Qgtb_le.
  assert (0 <= (- m) * (1 - eps))%Q by (apply Qmult_le_0_compat; lra).
  lra.
Qed.

Lemma max_is_kept (eps : Q) (vs : list Q) (v : Q) :
  (eps <= 1)%Q -> In v vs -> (0 < v)%Q ->
  filter (poskeep eps (fold_left f_max vs 0%Q)) vs <> [].
Proof.
  intros He Hin Hv.
  destruct (fold_max_props vs 0%Q) as (M1 & M2 & M3); [lra|]. cbv zeta in *.
  set (m := fold_left f_max vs 0%Q) in *.
  specialize (M2 v Hin Hv).
  destruct M3 as [E | [Hm Hpos]]; [rewrite E in M2; lra|].
  apply (filter_nonempty _ vs m Hm).
  unfold poskeep. apply andb_true_intro. split; [now apply Qgtb_gt|].
  apply negb_true_iff. apply Qltb_ge.
  assert (0 <= m * (1 - eps))%Q by (apply Qmult_le_0_compat; lra).
  lra.
Qed.

(** The truncated values of a row keep the sum of its negative entries and
    the sum of its positive entries. *)
Lemma out_vals_sums (eps : Q) (vs : list Q) :
  (eps <= 1)%Q ->
  (qsum (negatives (out_vals eps vs)) == qsum (negatives vs))%Q
  /\ (qsum (positives (out_vals eps vs)) == qsum (positives vs))%Q.
Proof.
  intros He. unfold out_vals. cbv zeta.
  set (mMin := fold_left f_min vs 0%Q). set (pMax := fold_left f_max vs 0%Q).
  set (mSum := fold_left f_nsum vs 0%Q). set (pSum := fold_left f_psum vs 0%Q).
  set (mT := fold_left (f_knsum eps mMin) vs 0%Q).
  set (pT := fold_left (f_kpsum eps pMax) vs 0%Q).
  assert (EmS : (mSum == qsum (negatives vs))%Q)
    by (unfold mSum; rewrite fold_nsum; ring).
  assert (EpS : (pSum == qsum (positives vs))%Q)
    by (unfold pSum; rewrite fold_psum; ring).
  assert (EmT : (mT == qsum (filter (negkeep eps mMin) vs))%Q)
    by (unfold mT; rewrite fold_knsum; ring).
  assert (EpT : (pT == qsum (filter (poskeep eps pMax) vs))%Q)
    by (unfold pT; rewrite fold_kpsum; ring).
  assert (Nneg : filter (negkeep eps mMin) vs <> [] -> (mT < 0)%Q /\ (mSum < 0)%Q).
  { intros Hne. split.
    - rewrite EmT. apply qsum_negative; [assumption|].
      intros v Hv. apply filter_In in Hv. eapply negkeep_negative. apply Hv.
    - rewrite EmS. apply qsum_negative.
      + destruct (filter (negkeep eps mMin) vs) as [|v t] eqn:E; [contradiction|].
        assert (Hv : In v (filter (negkeep eps mMin) vs)) by (rewrite E; now left).
        apply filter_In in Hv. destruct Hv as [Hv1 Hv2].
        apply (filter_nonempty _ vs v Hv1). apply Qltb_lt.
        eapply negkeep_negative. exact Hv2.
      + intros v Hv. apply filter_In in Hv. now apply Qltb_lt. }
  assert (Npos : filter (poskeep eps pMax) vs <> [] -> (0 < pT)%Q /\ (0 < pSum)%Q).
  { intros Hne. split.
    - rewrite EpT. apply qsum_positive; [assumption|].
      intros v Hv. apply filter_In in Hv. eapply poskeep_positive. apply Hv.
    - rewrite EpS. apply qsum_positive.
      + destruct (filter (poskeep eps pMax) vs) as [|v t] eqn:E; [contradiction|].
        assert (Hv : In v (filter (poskeep eps pMax) vs)) by (rewrite E; now left).
        apply filter_In in Hv. destruct Hv as [Hv1 Hv2].
        apply (filter_nonempty _ vs v Hv1). apply Qgtb_gt.
        eapply poskeep_positive. exact Hv2.
      + intros v Hv. apply filter_In in Hv. now apply Qgtb_gt. }
  destruct (signs_of_scaled eps mMin pMax mSum pSum mT pT vs) as (S1 & S2).
  { intros v Hin Hk. destruct Nneg as [N1 N2]; [now apply (filter_nonempty _ vs v)|].
    apply scaled_negative; try assumption. eapply negkeep_negative. exact Hk. }
  { intros v Hin Hk. destruct Npos as [N1 N2]; [now apply (filter_nonempty _ vs v)|].
    apply scaled_positive; try assumption. eapply poskeep_positive. exact Hk. }
  rewrite S1, S2, !qsum_scaled. split.
  - destruct (filter (negkeep eps mMin) vs) as [|k K] eqn:EK.
    + cbn [qsum]. destruct (negatives vs) as [|v t] eqn:EN.
      * cbn [qsum]. unfold Qdiv. ring.
      * exfalso. assert (Hv : In v (negatives vs)) by (rewrite EN; now left).
        apply filter_In in Hv. destruct Hv as [Hv1 Hv2]. apply Qltb_lt in Hv2.
        apply (min_is_kept eps vs v He Hv1 Hv2). exact EK.
    + destruct Nneg as [N1 N2]; [discriminate|].
      rewrite <- EmT, <- EmS. field. lra.
  - destruct (filter (poskeep eps pMax) vs) as [|k K] eqn:EK.
    + cbn [qsum]. destruct (positives vs) as [|v t] eqn:EN.
      * cbn [qsum]. unfold Qdiv. ring.
      * exfalso. assert (Hv : In v (positives vs)) by (rewrite EN; now left).
        apply filter_In in Hv. destruct Hv as [Hv1 Hv2]. apply Qgtb_gt in Hv2.
        apply (max_is_kept eps vs v He Hv1 Hv2). exact EK.
    + destruct Npos as [N1 N2]; [discriminate|].
      rewrite <- EpT, <- EpS. field. lra.
Qed.

(** C3: in every row, truncation keeps the sum of the negative entries and
    the sum of the positive entries (over exact arithmetic), the threshold
    being a fraction: at most one.  This is the closing pass of [interp_RS]
    and of [interp_STD]; [interp_EM] has no such pass. *)
Theorem C3_truncation_keeps_signed_sums (P : dCSRmat) (epsilon_tr : Q) (i : Z) :
  0 <= i < row P ->
  (epsilon_tr <= 1)%Q ->
  (qsum (negatives (row_vals (truncation P epsilon_tr) i))
   == qsum (negatives (row_vals P i)))%Q
  /\ (qsum (positives (row_vals (truncation P epsilon_tr) i))
      == qsum (positives (row_vals P i)))%Q.
Proof.
  intros Hi He. rewrite truncation_rows by assumption. now apply out_vals_sums.
Qed.

(** C3 as stated fails for a threshold above one: with the threshold [2]
    no entry of the first row of the sample reaches twice the extreme of
    its sign, the truncated row is empty, and the sum of its negative
    entries is not the one before. *)
Lemma C3_threshold_above_one_drops_all :
  row_vals (truncation two_row_operator 2) 0 = []
  /\ ~ (qsum (negatives (row_vals (truncation two_row_operator 2) 0))
        == qsum (negatives (row_vals two_row_operator 0)))%Q.
Proof. split; [reflexivity | intros H; vm_compute in H; discriminate H]. Qed.

(** The first row of the sample, truncated with the default threshold
    [0.2]. *)
Lemma C3_truncation_keeps_signed_sums_witness :
  (qsum (negatives (row_vals (truncation two_row_operator (2 # 10)) 0))
   == qsum (negatives (row_vals two_row_operator 0)))%Q
  /\ (qsum (positives (row_vals (truncation two_row_operator (2 # 10)) 0))
      == qsum (positives (row_vals two_row_operator 0)))%Q.
Proof.
  apply (C3_truncation_keeps_signed_sums two_row_operator (2 # 10) 0).
  - cbn. lia.
  - vm_compute. discriminate.
Defined.

End TruncationFacts.

(* ------------------------------------------------------------------ *)
(** ** The recursive cycle: its steps and their order *)

Module CycleFacts.
Import MGRecur Hierarchy.

Section WithParts.
Context {D : SmootherData} {E : Externals}.

(** *** The steps leave the fixed parts of every level alone *)

Lemma fixed_upd_x (mgl : arr AMG_data) (l k : Z) (v : dvector) :
  fixed_part (upd mgl l (set_x (mgl l) v) k) = fixed_part (mgl k).
Proof. unfold upd. destruct (k =? l) eqn:Ek; [apply Z.eqb_eq in Ek; subst|]; reflexivity. Qed.

Lemma fixed_upd_b (mgl : arr AMG_data) (l k : Z) (v : dvector) :
  fixed_part (upd mgl l (set_b (mgl l) v) k) = fixed_part (mgl k).
Proof. unfold upd. destruct (k =? l) eqn:Ek; [apply Z.eqb_eq in Ek; subst|]; reflexivity. Qed.

Lemma fixed_upd_w (mgl : arr AMG_data) (l k : Z) (v : arr Q) :
  fixed_part (upd mgl l (set_w (mgl l) v) k) = fixed_part (mgl k).
Proof. unfold upd. destruct (k =? l) eqn:Ek; [apply Z.eqb_eq in Ek; subst|]; reflexivity. Qed.

Lemma fixed_pre_smoothing (param : AMG_param) (l k : Z) (mgl : arr AMG_data) :
  fixed_part (pre_smoothing param l mgl k) = fixed_part (mgl k).
Proof. apply fixed_upd_x. Qed.

Lemma fixed_form_residual (l k : Z) (mgl : arr AMG_data) :
  fixed_part (form_residual l mgl k) = fixed_part (mgl k).
Proof. apply fixed_upd_w. Qed.

Lemma fixed_restriction (l k : Z) (mgl : arr AMG_data) :
  fixed_part (restriction l mgl k) = fixed_part (mgl k).
Proof. apply fixed_upd_b. Qed.

Lemma fixed_zero_correction (l k : Z) (mgl : arr AMG_data) :
  fixed_part (zero_correction l mgl k) = fixed_part (mgl k).
Proof. apply fixed_upd_x. Qed.

Lemma fixed_prolongation (l k : Z) (mgl : arr AMG_data) :
  fixed_part (prolongation l mgl k) = fixed_part (mgl k).
Proof. apply fixed_upd_x. Qed.

Lemma fixed_post_smoothing (param : AMG_param) (l k : Z) (mgl : arr AMG_data) :
  fixed_part (post_smoothing param l mgl k) = fixed_part (mgl k).
Proof. apply fixed_upd_x. Qed.

Lemma fixed_coarsest_solve (param : AMG_param) (l k : Z) (mgl : arr AMG_data) :
  fixed_part (coarsest_solve param l mgl k) = fixed_part (mgl k).
Proof. apply fixed_upd_x. Qed.

Lemma fixed_num_levels (l1 l2 : AMG_data) :
  fixed_part l1 = fixed_part l2 -> num_levels l1 = num_levels l2.
Proof. unfold fixed_part. congruence. Qed.

Lemma calls_fixed (call : arr AMG_data -> option run) (m m' : arr AMG_data)
  (runs : list run) :
  (forall a a' t, call a = Some (a', t) -> forall k, fixed_part (a' k) = fixed_part (a k)) ->
  calls call m runs m' -> forall k, fixed_part (m' k) = fixed_part (m k).
Proof.
  intros Hc H. induction H as [m | m m1 m' t rest H1 H2 IH]; intros k; [reflexivity|].
  rewrite IH. eapply Hc. exact H1.
Qed.

(** *** The loop of the recursive calls *)

Lemma repeat_call_calls (call : arr AMG_data -> option run) (n : nat) :
  forall m tr r,
    repeat_call n call (m, tr) = Some r ->
    exists runs,
      length runs = n /\ calls call m runs (fst r)
      /\ snd r = tr ++ concat (map snd runs).
Proof.
  induction n as [|n IH]; intros m tr r H.
  - cbn in H. injection H as <-. exists []. cbn. rewrite app_nil_r.
    repeat split. constructor.
  - cbn [repeat_call fst snd] in H.
    destruct (call m) as [[m1 t]|] eqn:Hc; [|discriminate].
    destruct (IH m1 (tr ++ t) r H) as (runs & H1 & H2 & H3).
    exists ((m1, t) :: runs). cbn [length map concat snd]. repeat split.
    + now rewrite H1.
    + econstructor; eassumption.
    + rewrite H3. now rewrite app_assoc.
Qed.

Lemma repeat_call_total (call : arr AMG_data -> option run) (I : arr AMG_data -> Prop)
  (n : nat) :
  (forall m, I m -> exists m' t, call m = Some (m', t) /\ I m') ->
  forall m tr, I m -> exists r, repeat_call n call (m, tr) = Some r /\ I (fst r).
Proof.
  intros Hc. induction n as [|n IH]; intros m tr Hm.
  - exists (m, tr). split; [reflexivity | assumption].
  - cbn [repeat_call fst snd]. destruct (Hc m Hm) as (m' & t & H1 & H2).
    rewrite H1. apply IH. assumption.
Qed.

(** *** The cycle comes back, and leaves the fixed parts alone *)

Lemma mgrecur_fixed (param : AMG_param) (depth : nat) :
  forall level mgl r,
    fasp_solver_mgrecur depth param level mgl = Some r ->
    forall k, fixed_part (fst r k) = fixed_part (mgl k).
Proof.
  induction depth as [|depth IH]; intros level mgl r H k; [discriminate|].
  cbn [fasp_solver_mgrecur] in H.
  destruct (level <? num_levels (mgl level) - 1).
  - destruct (repeat_call _ _ _) as [[m tr]|] eqn:Hr; [|discriminate].
    injection H as <-. cbn [fst].
    rewrite fixed_post_smoothing, fixed_prolongation.
    destruct (repeat_call_calls _ _ _ _ _ Hr) as (runs & _ & Hc & _). cbn [fst] in Hc.
    rewrite (calls_fixed _ _ _ _ (fun a a' t Ha => IH (level + 1) a (a', t) Ha) Hc).
    now rewrite fixed_zero_correction, fixed_restriction, fixed_form_residual,
      fixed_pre_smoothing.
  - injection H as <-. cbn [fst]. apply fixed_coarsest_solve.
Qed.

Lemma coherent_fixed (n : Z) (m m' : arr AMG_data) :
  (forall k, fixed_part (m' k) = fixed_part (m k)) -> coherent n m -> coherent n m'.
Proof. intros H Hc l. rewrite (fixed_num_levels _ _ (H l)). apply Hc. Qed.

Lemma mgrecur_total (param : AMG_param) (n : Z) (depth : nat) :
  forall level mgl,
    coherent n mgl ->
    (Z.to_nat (n - 1 - level) < depth)%nat ->
    exists r, fasp_solver_mgrecur depth param level mgl = Some r /\ coherent n (fst r).
Proof.
  induction depth as [|depth IH]; intros level mgl Hc Hd; [lia|].
  cbn [fasp_solver_mgrecur]. rewrite (Hc level).
  destruct (Z.ltb_spec level (n - 1)) as [Hl|Hl].
  - set (m0 := zero_correction level _).
    assert (Hm0 : coherent n m0).
    { apply (coherent_fixed n mgl); [|assumption]. intros k. unfold m0.
      now rewrite fixed_zero_correction, fixed_restriction, fixed_form_residual,
        fixed_pre_smoothing. }
    destruct (repeat_call_total (fasp_solver_mgrecur depth param (level + 1))
                (coherent n) (Z.to_nat (cycle_type param))) with
      (m := m0) (tr := [PreSmooth level; Residual level; Restrict level;
                        ZeroCorrection (level + 1)])
      as ([m tr] & H1 & H2); [|assumption|].
    { intros m Hm. destruct (IH (level + 1) m Hm) as ([m' t] & H1 & H2); [lia|].
      exists m', t. split; assumption. }
    rewrite H1. eexists. split; [reflexivity|]. cbn [fst] in *.
    apply (coherent_fixed n m); [|assumption]. intros k.
    now rewrite fixed_post_smoothing, fixed_prolongation.
  - eexists. split; [reflexivity|]. cbn [fst].
    apply (coherent_fixed n mgl); [|assumption]. intros k. apply fixed_coarsest_solve.
Qed.

End WithParts.

(** The trace of a V-cycle over the two sample levels. *)
Example two_level_trace :
  let D := Samples.no_data in
  let E := Samples.plain_parts in
  option_map snd (fasp_solver_mgrecur 2 Samples.default_param 0 Samples.two_levels)
  = Some [PreSmooth 0; Residual 0; Restrict 0; ZeroCorrection 1; CoarseSolve 1;
          Prolong 0; PostSmooth 0]
  /\ option_map (fun r => x (fst r 0))
       (fasp_solver_mgrecur 2 Samples.default_param 0 Samples.two_levels)
     = Some [2; 2]%Q.
Proof. cbv zeta. split; vm_compute; reflexivity. Qed.

(* ------------------------------------------------------------------ *)
(** ** The recursive cycle: nothing carries over between two runs *)

Section NonInterference.
Context {D : SmootherData} {E : Externals}.

(** *** What the kernels write *)

Lemma array_cp_cells (n : Z) (x y : arr Q) (k : Z) :
  fasp_array_cp n x y k = if (0 <=? k) && (k <? n) then x k else y k.
Proof. unfold fasp_array_cp. apply (cellwise_loop (fun _ i => x i)). Qed.

Lemma aAxpy_cells (alpha : Q) (M : dCSRmat) (x y : arr Q) (k : Z) :
  fasp_blas_dcsr_aAxpy alpha M x y k
  = if (0 <=? k) && (k <? row M) then (y k + alpha * row_dot M x k)%Q else y k.
Proof.
  unfold fasp_blas_dcsr_aAxpy.
  apply (cellwise_loop (fun c i => (c + alpha * row_dot M x i)%Q)).
Qed.

Lemma mxv_cells (M : dCSRmat) (x y : arr Q) (k : Z) :
  fasp_blas_dcsr_mxv M x y k
  = if (0 <=? k) && (k <? row M) then row_dot M x k else y k.
Proof. unfold fasp_blas_dcsr_mxv. apply (cellwise_loop (fun _ i => row_dot M x i)). Qed.

Lemma row_dot_ext (M : dCSRmat) (x x' : arr Q) (i : Z) :
  (forall k, IA M i <= k < IA M (i + 1) -> x (JA M k) = x' (JA M k)) ->
  row_dot M x i = row_dot M x' i.
Proof.
  intros H. unfold row_dot. apply for_loop_ext. intros t k Hk. now rewrite H.
Qed.

Lemma store_length (xs : dvector) (a : arr Q) : length (store xs a) = length xs.
Proof. unfold store. rewrite length_map, zrange_length. lia. Qed.

Lemma store_ext (xs xs' : dvector) (a a' : arr Q) :
  length xs = length xs' ->
  (forall i, 0 <= i < Z.of_nat (length xs) -> a i = a' i) ->
  store xs a = store xs' a'.
Proof.
  intros Hl H. unfold store. rewrite <- Hl. apply map_ext_in.
  intros i Hi. apply zrange_In in Hi. apply H. lia.
Qed.

(** *** Reading a level after a store into one *)

Lemma upd_level_same (mgl : arr AMG_data) (l : Z) (v : AMG_data) : upd mgl l v l = v.
Proof. apply upd_same. Qed.

Lemma length_b_restriction (l k : Z) (mgl : arr AMG_data) :
  length (b (restriction l mgl k)) = length (b (mgl k)).
Proof.
  unfold restriction, upd. destruct (Z.eqb_spec k (l + 1)) as [->|]; [|reflexivity].
  cbn [b set_b]. apply store_length.
Qed.

Lemma b_upd_x (mgl : arr AMG_data) (l k : Z) (v : dvector) :
  b (upd mgl l (set_x (mgl l) v) k) = b (mgl k).
Proof. unfold upd. destruct (Z.eqb_spec k l) as [->|]; reflexivity. Qed.

Lemma b_upd_w (mgl : arr AMG_data) (l k : Z) (v : arr Q) :
  b (upd mgl l (set_w (mgl l) v) k) = b (mgl k).
Proof. unfold upd. destruct (Z.eqb_spec k l) as [->|]; reflexivity. Qed.

Lemma x_upd_w (mgl : arr AMG_data) (l k : Z) (v : arr Q) :
  x (upd mgl l (set_w (mgl l) v) k) = x (mgl k).
Proof. unfold upd. destruct (Z.eqb_spec k l) as [->|]; reflexivity. Qed.

Lemma x_upd_b (mgl : arr AMG_data) (l k : Z) (v : dvector) :
  x (upd mgl l (set_b (mgl l) v) k) = x (mgl k).
Proof. unfold upd. destruct (Z.eqb_spec k l) as [->|]; reflexivity. Qed.

Lemma x_upd_x (mgl : arr AMG_data) (l k : Z) (v : dvector) :
  x (upd mgl l (set_x (mgl l) v) k) = if k =? l then v else x (mgl k).
Proof. unfold upd. destruct (Z.eqb_spec k l) as [->|]; reflexivity. Qed.

Lemma b_upd_b (mgl : arr AMG_data) (l k : Z) (v : dvector) :
  b (upd mgl l (set_b (mgl l) v) k) = if k =? l then v else b (mgl k).
Proof. unfold upd. destruct (Z.eqb_spec k l) as [->|]; reflexivity. Qed.

(** *** The fields of the fixed part, one by one *)

Lemma fixed_fields (l1 l2 : AMG_data) :
  fixed_part l1 = fixed_part l2 ->
  A l1 = A l2 /\ P l1 = P l2 /\ R l1 = R l2 /\ cfmark l1 = cfmark l2
  /\ num_levels l1 = num_levels l2 /\ LU l1 = LU l2.
Proof. unfold fixed_part. intros H. injection H as -> -> -> -> -> ->. repeat split. Qed.

(** *** Each step keeps two hierarchies in agreement *)

Lemma agree_weaken (l : Z) (m1 m2 : arr AMG_data) : agree (l + 1) m1 m2 -> agree l m1 m2.
Proof. intros (H1 & H2 & H3). repeat split; try apply H1; try apply H2; apply H3; lia. Qed.

Lemma agree_set_x (l k : Z) (m1 m2 : arr AMG_data) (v : dvector) :
  agree l m1 m2 ->
  agree l (upd m1 k (set_x (m1 k) v)) (upd m2 k (set_x (m2 k) v)).
Proof.
  intros (H1 & H2 & H3). repeat split.
  - intros j. rewrite !fixed_upd_x. apply H1.
  - intros j. rewrite !b_upd_x. apply H2.
  - rewrite !b_upd_x. now apply H3.
  - rewrite !x_upd_x. destruct (k0 =? k); [reflexivity | now apply H3].
Qed.

Lemma agree_pre_smoothing (param : AMG_param) (l : Z) (m1 m2 : arr AMG_data) :
  0 <= l -> agree l m1 m2 ->
  agree l (pre_smoothing param l m1) (pre_smoothing param l m2).
Proof.
  intros Hl Ha. unfold pre_smoothing.
  pose proof Ha as (H1 & H2 & H3).
  destruct (fixed_fields _ _ (H1 l)) as (EA & EP & ER & Ec & En & ELU).
  destruct (H3 l) as [Eb Ex]; [lia|].
  rewrite EA, Eb, Ex, ELU, Ec.
  apply agree_set_x. exact Ha.
Qed.

Lemma agree_post_smoothing (param : AMG_param) (l l' : Z) (m1 m2 : arr AMG_data) :
  0 <= l <= l' -> agree l' m1 m2 ->
  agree l' (post_smoothing param l m1) (post_smoothing param l m2).
Proof.
  intros Hl Ha. unfold post_smoothing.
  pose proof Ha as (H1 & H2 & H3).
  destruct (fixed_fields _ _ (H1 l)) as (EA & EP & ER & Ec & En & ELU).
  destruct (H3 l) as [Eb Ex]; [lia|].
  rewrite EA, Eb, Ex, ELU, Ec.
  apply agree_set_x. exact Ha.
Qed.

Lemma agree_coarsest_solve (param : AMG_param) (l : Z) (m1 m2 : arr AMG_data) :
  0 <= l -> agree l m1 m2 ->
  agree l (coarsest_solve param l m1) (coarsest_solve param l m2).
Proof.
  intros Hl Ha. unfold coarsest_solve.
  pose proof Ha as (H1 & H2 & H3).
  destruct (fixed_fields _ _ (H1 l)) as (EA & EP & ER & Ec & En & ELU).
  destruct (H3 l) as [Eb Ex]; [lia|].
  rewrite EA, Eb, Ex.
  apply agree_set_x. exact Ha.
Qed.

Lemma agree_prolongation (l : Z) (m1 m2 : arr AMG_data) :
  0 <= l -> agree (l + 1) m1 m2 ->
  agree (l + 1) (prolongation l m1) (prolongation l m2).
Proof.
  intros Hl Ha. unfold prolongation.
  pose proof Ha as (H1 & H2 & H3).
  destruct (fixed_fields _ _ (H1 l)) as (EA & EP & ER & Ec & En & ELU).
  destruct (H3 l) as [Eb Ex]; [lia|].
  destruct (H3 (l + 1)) as [Eb1 Ex1]; [lia|].
  rewrite EP, Ex, Ex1.
  apply agree_set_x. exact Ha.
Qed.

(** The residual: the work arrays may differ, the residual they hold after
    the step does not. *)
Lemma agree_form_residual (l : Z) (m1 m2 : arr AMG_data) :
  0 <= l -> agree l m1 m2 ->
  agree l (form_residual l m1) (form_residual l m2)
  /\ (forall i, 0 <= i < row (A (m1 l)) ->
        w (form_residual l m1 l) i = w (form_residual l m2 l) i).
Proof.
  intros Hl (H1 & H2 & H3). split.
  - unfold form_residual. repeat split.
    + intros k. rewrite !fixed_upd_w. apply H1.
    + intros k. rewrite !b_upd_w. apply H2.
    + rewrite !b_upd_w. now apply H3.
    + rewrite !x_upd_w. now apply H3.
  - intros i Hi. unfold form_residual. rewrite !upd_level_same. cbn [w set_w].
    destruct (fixed_fields _ _ (H1 l)) as (EA & _).
    destruct (H3 l) as [Eb Ex]; [lia|].
    rewrite <- EA, <- Eb, <- Ex. rewrite !aAxpy_cells, !array_cp_cells.
    destruct (Z.leb_spec 0 i); destruct (Z.ltb_spec i (row (A (m1 l)))); cbn [andb];
      try lia. reflexivity.
Qed.

Lemma agree_restriction (n l : Z) (m1 m2 : arr AMG_data) :
  0 <= l < n - 1 -> shaped n m1 -> agree l m1 m2 ->
  (forall i, 0 <= i < row (A (m1 l)) -> w (m1 l) i = w (m2 l) i) ->
  let r1 := restriction l m1 in
  let r2 := restriction l m2 in
  (forall k, fixed_part (r1 k) = fixed_part (r2 k))
  /\ (forall k, length (b (r1 k)) = length (b (r2 k)))
  /\ (forall k, 0 <= k <= l -> b (r1 k) = b (r2 k) /\ x (r1 k) = x (r2 k))
  /\ b (r1 (l + 1)) = b (r2 (l + 1)).
Proof.
  intros Hl Hs (H1 & H2 & H3) Hw. cbv zeta.
  destruct (Hs l Hl) as (S1 & S2 & S3).
  destruct (fixed_fields _ _ (H1 l)) as (EA & EP & ER & _).
  repeat split.
  - intros k. rewrite !fixed_restriction. apply H1.
  - intros k. rewrite !length_b_restriction. apply H2.
  - unfold restriction. rewrite !b_upd_b.
    destruct (Z.eqb_spec k (l + 1)); [lia | now apply H3].
  - unfold restriction. rewrite !x_upd_b. now apply H3.
  - unfold restriction. rewrite !upd_level_same. cbn [b set_b].
    apply store_ext; [apply H2|].
    intros i Hi. rewrite !mxv_cells. rewrite <- ER.
    destruct (Z.leb_spec 0 i); destruct (Z.ltb_spec i (row (R (m1 l)))); cbn [andb];
      try lia.
    apply row_dot_ext. intros k Hk. apply Hw. apply (S1 i k); lia.
Qed.

(** *** The cycle keeps the lengths of the right-hand sides and the shape *)

Lemma calls_length_b (call : arr AMG_data -> option run) (m m' : arr AMG_data)
  (runs : list run) :
  (forall a a' t, call a = Some (a', t) ->
                  forall k, length (b (a' k)) = length (b (a k))) ->
  calls call m runs m' -> forall k, length (b (m' k)) = length (b (m k)).
Proof.
  intros Hc H. induction H as [m | m m1 m' t rest H1 H2 IH]; intros k; [reflexivity|].
  rewrite IH. eapply Hc. exact H1.
Qed.

Lemma mgrecur_length_b (param : AMG_param) (depth : nat) :
  forall level mgl r,
    fasp_solver_mgrecur depth param level mgl = Some r ->
    forall k, length (b (fst r k)) = length (b (mgl k)).
Proof.
  induction depth as [|depth IH]; intros level mgl r H k; [discriminate|].
  cbn [fasp_solver_mgrecur] in H.
  destruct (level <? num_levels (mgl level) - 1).
  - destruct (repeat_call _ _ _) as [[m tr]|] eqn:Hr; [|discriminate].
    injection H as <-. cbn [fst].
    unfold post_smoothing, prolongation. rewrite !b_upd_x.
    destruct (repeat_call_calls _ _ _ _ _ Hr) as (runs & _ & Hc & _). cbn [fst] in Hc.
    rewrite (calls_length_b _ _ _ _ (fun a a' t Ha => IH (level + 1) a (a', t) Ha) Hc).
    unfold zero_correction. rewrite b_upd_x, length_b_restriction.
    unfold form_residual, pre_smoothing. now rewrite b_upd_w, b_upd_x.
  - injection H as <-. cbn [fst]. unfold coarsest_solve. now rewrite b_upd_x.
Qed.

Lemma shaped_preserved (n : Z) (m m' : arr AMG_data) :
  (forall k, fixed_part (m' k) = fixed_part (m k)) ->
  (forall k, length (b (m' k)) = length (b (m k))) ->
  shaped n m -> shaped n m'.
Proof.
  intros Hf Hb Hs l Hl. destruct (Hs l Hl) as (S1 & S2 & S3).
  destruct (fixed_fields _ _ (Hf l)) as (EA & _ & ER & _).
  destruct (fixed_fields _ _ (Hf (l + 1))) as (EA1 & _).
  rewrite EA, ER, EA1, Hb. split; [exact S1 | split; assumption].
Qed.

(** *** Two hierarchies that agree are taken to hierarchies that agree *)

Lemma repeat_call_agree (call : arr AMG_data -> option run) (Inv : arr AMG_data -> Prop)
  (L : Z) :
  (forall a1 a2 r1, Inv a1 -> agree L a1 a2 -> call a1 = Some r1 ->
     exists r2, call a2 = Some r2 /\ agree L (fst r1) (fst r2) /\ snd r1 = snd r2
                /\ Inv (fst r1)) ->
  forall n a1 a2 tr r1,
    Inv a1 -> agree L a1 a2 -> repeat_call n call (a1, tr) = Some r1 ->
    exists r2, repeat_call n call (a2, tr) = Some r2 /\ agree L (fst r1) (fst r2)
               /\ snd r1 = snd r2.
Proof.
  intros Hc. induction n as [|n IH]; intros a1 a2 tr r1 Hi Ha H.
  - cbn in H. injection H as <-. exists (a2, tr).
    split; [reflexivity | split; [exact Ha | reflexivity]].
  - cbn [repeat_call fst snd] in H |- *.
    destruct (call a1) as [[m1 t1]|] eqn:H1; [|discriminate].
    destruct (Hc a1 a2 (m1, t1) Hi Ha H1) as ([m2 t2] & E2 & Ag & Et & Hi').
    cbn [fst snd] in *. subst t2. rewrite E2.
    apply (IH m1 m2 (tr ++ t1) r1 Hi' Ag H).
Qed.

Lemma mgrecur_agree (param : AMG_param) (n : Z) (depth : nat) :
  forall level m1 m2 r1,
    0 <= level -> coherent n m1 -> shaped n m1 -> agree level m1 m2 ->
    fasp_solver_mgrecur depth param level m1 = Some r1 ->
    exists r2, fasp_solver_mgrecur depth param level m2 = Some r2
               /\ agree level (fst r1) (fst r2) /\ snd r1 = snd r2.
Proof.
  induction depth as [|depth IH]; intros level m1 m2 r1 Hl Hc Hs Ha H; [discriminate|].
  cbn [fasp_solver_mgrecur] in H |- *.
  pose proof Ha as (F & _).
  destruct (fixed_fields _ _ (F level)) as (_ & _ & _ & _ & En & _).
  rewrite <- En. rewrite (Hc level) in *.
  destruct (Z.ltb_spec level (n - 1)) as [Hlt|Hge].
  - (* the steps before the recursive calls *)
    pose proof (agree_pre_smoothing param level m1 m2 Hl Ha) as A1.
    destruct (agree_form_residual level _ _ Hl A1) as (A2 & W2).
    set (p1 := pre_smoothing param level m1) in *.
    set (p2 := pre_smoothing param level m2) in *.
    set (f1 := form_residual level p1) in *. set (f2 := form_residual level p2) in *.
    assert (Sf1 : shaped n f1).
    { apply (shaped_preserved n m1); [| |assumption]; intros k; unfold f1, p1.
      - now rewrite fixed_form_residual, fixed_pre_smoothing.
      - unfold form_residual, pre_smoothing. now rewrite b_upd_w, b_upd_x. }
    assert (W2' : forall i, 0 <= i < row (A (f1 level)) -> w (f1 level) i = w (f2 level) i).
    { intros i Hi. apply W2.
      destruct (fixed_fields _ _ (fixed_form_residual level level p1)) as (EA & _).
      now rewrite <- EA. }
    destruct (agree_restriction n level f1 f2 (conj Hl Hlt) Sf1 A2 W2')
      as (R1 & R2 & R3 & R4).
    set (c1 := restriction level f1) in *. set (c2 := restriction level f2) in *.
    assert (Sc1 : shaped n c1).
    { apply (shaped_preserved n f1); [| |assumption]; intros k; unfold c1.
      - apply fixed_restriction.
      - apply length_b_restriction. }
    assert (A4 : agree (level + 1) (zero_correction level c1) (zero_correction level c2)).
    { unfold zero_correction.
      destruct (fixed_fields _ _ (R1 (level + 1))) as (EA & _).
      destruct (Sc1 level (conj Hl Hlt)) as (_ & _ & Hpos).
      rewrite <- EA. unfold fasp_dvec_set.
      replace (row (A (c1 (level + 1))) >? 0) with true by (symmetry; lia).
      repeat split.
      - intros k. rewrite !fixed_upd_x. apply R1.
      - intros k. rewrite !b_upd_x. apply R2.
      - rewrite !b_upd_x. destruct (Z.eq_dec k (level + 1)) as [->|Hne];
          [assumption | apply R3; lia].
      - rewrite !x_upd_x. destruct (Z.eqb_spec k (level + 1)); [reflexivity|].
        apply R3. lia. }
    set (z1 := zero_correction level c1) in *. set (z2 := zero_correction level c2) in *.
    assert (Iz1 : coherent n z1 /\ shaped n z1).
    { split.
      - apply (coherent_fixed n m1); [|assumption]. intros k. unfold z1, c1, f1, p1.
        now rewrite fixed_zero_correction, fixed_restriction, fixed_form_residual,
          fixed_pre_smoothing.
      - apply (shaped_preserved n c1); [| |assumption]; intros k; unfold z1.
        + apply fixed_zero_correction.
        + unfold zero_correction. now rewrite b_upd_x. }
    (* the recursive calls *)
    destruct (repeat_call _ _ (z1, _)) as [[e1 t1]|] eqn:Hr; [|discriminate].
    destruct (repeat_call_agree (fasp_solver_mgrecur depth param (level + 1))
                (fun a => coherent n a /\ shaped n a) (level + 1)) with
      (n := Z.to_nat (cycle_type param)) (a1 := z1) (a2 := z2)
      (tr := [PreSmooth level; Residual level; Restrict level; ZeroCorrection (level + 1)])
      (r1 := (e1, t1)) as ([e2 t2] & E2 & Ae & Et); try assumption.
    { intros a1 a2 s1 (Ic & Is) Ag Hs1.
      destruct (IH (level + 1) a1 a2 s1) as (s2 & G1 & G2 & G3); try assumption; [lia|].
      exists s2. split; [exact G1 | split; [exact G2 | split; [exact G3 | split]]].
      - apply (coherent_fixed n a1); [|assumption]. now apply (mgrecur_fixed param depth (level + 1)).
      - apply (shaped_preserved n a1); [| |assumption].
        + now apply (mgrecur_fixed param depth (level + 1)).
        + now apply (mgrecur_length_b param depth (level + 1)). }
    cbn [fst snd] in Ae, Et. subst t2. rewrite E2.
    injection H as <-. eexists. split; [reflexivity|]. cbn [fst snd]. split; [|reflexivity].
    apply agree_weaken. apply agree_post_smoothing; [lia|].
    apply agree_prolongation; assumption.
  - injection H as <-. eexists. split; [reflexivity|]. cbn [fst snd].
    split; [|reflexivity]. now apply agree_coarsest_solve.
Qed.

End NonInterference.

(* ------------------------------------------------------------------ *)
(** ** The recursive cycle: what each step computes *)

Section Steps.
Context {D : SmootherData} {E : Externals}.

Lemma fold_sum (f : Z -> Q) (l : list Z) :
  forall a, (fold_left (fun t k => t + f k) l a == a + Rows.qsum (map f l))%Q.
Proof.
  induction l as [|k l IH]; intros a; cbn [fold_left map Rows.qsum].
  - ring.
  - rewrite IH. ring.
Qed.

(** The loop over a row adds up the products of the row. *)
Lemma row_dot_mat_vec (M : dCSRmat) (v : arr Q) (i : Z) :
  (row_dot M v i == mat_vec M v i)%Q.
Proof.
  unfold row_dot, mat_vec, for_loop, Rows.positions.
  rewrite (fold_sum (fun p => aval M p * v (JA M p))%Q). ring.
Qed.

Lemma vget_store (xs : dvector) (a : arr Q) (i : Z) :
  0 <= i < Z.of_nat (length xs) -> vget (store xs a) i = a i.
Proof.
  intros Hi. unfold vget, store.
  destruct (Z.ltb_spec i 0) as [|_]; [lia|]. now apply nth_zrange.
Qed.

Lemma residual_cells (M : dCSRmat) (bv xv old : arr Q) :
  residual_of M bv xv old
    (fasp_blas_dcsr_aAxpy (-1) M xv (fasp_array_cp (row M) bv old)).
Proof.
  intros i. rewrite aAxpy_cells, array_cp_cells.
  destruct ((0 <=? i) && (i <? row M)); [|reflexivity].
  rewrite row_dot_mat_vec. ring.
Qed.

Lemma restriction_cells (M : dCSRmat) (r : arr Q) (old : dvector) :
  restriction_of M r old (store old (fasp_blas_dcsr_mxv M r (buf old))).
Proof.
  split; [apply store_length|]. intros i Hi.
  rewrite vget_store, mxv_cells by exact Hi.
  replace (0 <=? i) with true by (symmetry; apply Z.leb_le; lia). cbn [andb].
  destruct (i <? row M); [apply row_dot_mat_vec | reflexivity].
Qed.

Lemma zero_cells (m1 : Z) (old : dvector) :
  zero_vector m1 old (fasp_dvec_set m1 old 0%Q).
Proof.
  unfold zero_vector, fasp_dvec_set.
  destruct (m1 >? 0); (split; [apply repeat_length|]);
    apply Forall_forall; intros v Hv; now apply repeat_spec in Hv.
Qed.

Lemma prolongation_cells (M : dCSRmat) (x1 : arr Q) (old : dvector) :
  prolongation_of M x1 old (store old (fasp_blas_dcsr_aAxpy 1 M x1 (buf old))).
Proof.
  split; [apply store_length|]. intros i Hi.
  rewrite vget_store, aAxpy_cells by exact Hi.
  replace (0 <=? i) with true by (symmetry; apply Z.leb_le; lia). cbn [andb].
  destruct (i <? row M); [|reflexivity].
  rewrite row_dot_mat_vec. unfold buf. ring.
Qed.

(** *** A call on a level leaves the levels above it alone *)

Lemma calls_below (call : arr AMG_data -> option run) (L : Z)
  (m m' : arr AMG_data) (runs : list run) :
  (forall a a' t, call a = Some (a', t) -> forall k, k < L -> a' k = a k) ->
  calls call m runs m' -> forall k, k < L -> m' k = m k.
Proof.
  intros Hc H. induction H as [m | m m1 m' t rest H1 H2 IH]; intros k Hk;
    [reflexivity|].
  rewrite IH by exact Hk. eapply Hc; eassumption.
Qed.

Lemma mgrecur_below (param : AMG_param) (depth : nat) :
  forall level mgl r,
    fasp_solver_mgrecur depth param level mgl = Some r ->
    forall k, k < level -> fst r k = mgl k.
Proof.
  induction depth as [|depth IH]; intros level mgl r H k Hk; [discriminate|].
  cbn [fasp_solver_mgrecur] in H.
  destruct (level <? num_levels (mgl level) - 1).
  - destruct (repeat_call _ _ _) as [[m tr]|] eqn:Hr; [|discriminate].
    injection H as <-. cbn [fst].
    destruct (repeat_call_calls _ _ _ _ _ Hr) as (runs & _ & Hc & _). cbn [fst] in Hc.
    unfold post_smoothing, prolongation. rewrite !upd_other by lia.
    rewrite (calls_below _ (level + 1) _ _ _
               (fun a a' t Ha => IH (level + 1) a (a', t) Ha) Hc) by lia.
    unfold zero_correction, restriction, form_residual, pre_smoothing.
    now rewrite !upd_other by lia.
  - injection H as <-. cbn [fst]. unfold coarsest_solve. now rewrite upd_other by lia.
Qed.

End Steps.

(** C4.  One call of the cycle on a level [l] above the coarsest does, in
    this order: pre-smoothing of [x_l] against [(A_l, b_l)], which gives
    [e0]; the residual [r = b_l - A_l e0] on the work array; the
    restriction [b_{l+1} = R_l r]; the zeroing of [x_{l+1}]; [cycle_type]
    calls of itself on level [l + 1], each from what the one before left,
    which leave level [l] as it was; the prolongation
    [e2 = e0 + P_l x_{l+1}]; and post-smoothing of [e2] against
    [(A_l, b_l)].  On the coarsest level it does the coarse solve and
    nothing else.  With a depth that covers the levels below, the call
    comes back.  The products are those of the kernels, which are not
    among the sources. *)
Theorem C4_cycle_steps (D : SmootherData) (E : Externals) (param : AMG_param)
  (n level : Z) (depth : nat) (mgl : arr AMG_data) :
  coherent n mgl ->
  (Z.to_nat (n - 1 - level) < depth)%nat ->
  let l0 := mgl level in
  let l1 := mgl (level + 1) in
  exists mgl' tr,
    fasp_solver_mgrecur depth param level mgl = Some (mgl', tr)
    /\ (level < n - 1 ->
        let e0 :=
          if level <? ILU_levels param
          then fasp_smoother_dcsr_ilu (A l0) (b l0) (x l0) (LU l0)
          else fasp_dcsr_presmoothing (smoother param) (A l0) (b l0) (x l0)
                 (presmooth_iter param) 0 (row (A l0) - 1) 1 (relaxation param)
                 (polynomial_degree param) (smooth_order param) (cfmark l0) in
        exists (r : arr Q) (b1 e1 : dvector) (z : arr AMG_data)
               (runs : list run) (m : arr AMG_data) (e2 : dvector),
          residual_of (A l0) (vget (b l0)) (vget e0) (w l0) r
          /\ restriction_of (R l0) r (b l1) b1
          /\ zero_vector (row (A l1)) (x l1) e1
          /\ (forall k, z k = if k =? level then set_w (set_x l0 e0) r
                              else if k =? level + 1 then set_x (set_b l1 b1) e1
                              else mgl k)
          /\ length runs = Z.to_nat (cycle_type param)
          /\ calls (fasp_solver_mgrecur (depth - 1) param (level + 1)) z runs m
          /\ m level = z level
          /\ prolongation_of (P l0) (vget (x (m (level + 1)))) e0 e2
          /\ (forall k,
                mgl' k =
                if k =? level
                then set_x (m level)
                       (if level <? ILU_levels param
                        then fasp_smoother_dcsr_ilu (A l0) (b l0) e2 (LU l0)
                        else fasp_dcsr_postsmoothing (smoother param) (A l0) (b l0) e2
                               (postsmooth_iter param) 0 (row (A l0) - 1) (-1)
                               (relaxation param) (polynomial_degree param)
                               (smooth_order param) (cfmark l0))
                else m k)
          /\ tr = [PreSmooth level; Residual level; Restrict level;
                   ZeroCorrection (level + 1)]
                  ++ concat (map snd runs) ++ [Prolong level; PostSmooth level])
    /\ (n - 1 <= level ->
        mgl' = upd mgl level (set_x l0 (coarse_solver (A l0) (b l0) (x l0) param))
        /\ tr = [CoarseSolve level]).
Proof.
  intros Hc Hd. cbv zeta.
  destruct (mgrecur_total param n depth level mgl Hc Hd) as ([mgl' tr] & Hr & _).
  exists mgl', tr. split; [exact Hr|].
  destruct depth as [|depth]; [lia|].
  cbn [fasp_solver_mgrecur] in Hr. rewrite (Hc level) in Hr.
  replace (S depth - 1)%nat with depth by lia.
  destruct (Z.ltb_spec level (n - 1)) as [Hl|Hl].
  - split; [|lia]. intros _.
    destruct (repeat_call _ _ _) as [[m t]|] eqn:Hrc; [|discriminate].
    injection Hr as <- <-.
    destruct (repeat_call_calls _ _ _ _ _ Hrc) as (runs & H1 & H2 & H3).
    cbn [fst snd] in H2, H3.
    set (e0 := if level <? ILU_levels param then _ else _).
    set (s1 := pre_smoothing param level mgl) in *.
    assert (E1 : s1 level = set_x (mgl level) e0) by apply upd_same.
    assert (F1 : s1 (level + 1) = mgl (level + 1)) by (apply upd_other; lia).
    set (r := fasp_blas_dcsr_aAxpy (-1) (A (mgl level)) (vget e0)
                (fasp_array_cp (row (A (mgl level))) (vget (b (mgl level)))
                   (w (mgl level)))).
    set (s2 := form_residual level s1) in *.
    assert (E2 : s2 level = set_w (set_x (mgl level) e0) r).
    { unfold s2, form_residual. cbv zeta. rewrite upd_same, E1. reflexivity. }
    assert (F2 : s2 (level + 1) = mgl (level + 1)).
    { unfold s2, form_residual. cbv zeta. rewrite upd_other by lia. exact F1. }
    set (b1 := store (b (mgl (level + 1)))
                 (fasp_blas_dcsr_mxv (R (mgl level)) r (buf (b (mgl (level + 1)))))).
    set (s3 := restriction level s2) in *.
    assert (E3 : s3 level = set_w (set_x (mgl level) e0) r).
    { unfold s3, restriction. cbv zeta. rewrite upd_other by lia. exact E2. }
    assert (F3 : s3 (level + 1) = set_b (mgl (level + 1)) b1).
    { unfold s3, restriction. cbv zeta. rewrite upd_same, E2, F2. reflexivity. }
    set (e1 := fasp_dvec_set (row (A (mgl (level + 1)))) (x (mgl (level + 1))) 0%Q).
    set (s4 := zero_correction level s3) in *.
    assert (E4 : forall k, s4 k = if k =? level then set_w (set_x (mgl level) e0) r
                                  else if k =? level + 1
                                       then set_x (set_b (mgl (level + 1)) b1) e1
                                       else mgl k).
    { intros k. unfold s4, zero_correction. cbv zeta.
      destruct (Z.eqb_spec k level) as [-> | N0].
      - rewrite upd_other by lia. exact E3.
      - destruct (Z.eqb_spec k (level + 1)) as [-> | N1].
        + rewrite upd_same, F3. reflexivity.
        + rewrite upd_other by exact N1.
          unfold s3, restriction. cbv zeta. rewrite upd_other by exact N1.
          unfold s2, form_residual. cbv zeta. rewrite upd_other by exact N0.
          unfold s1, pre_smoothing. cbv zeta. now rewrite upd_other by exact N0. }
    assert (Em : m level = s4 level).
    { apply (calls_below _ (level + 1) _ _ _
               (fun a a' t0 Ha => mgrecur_below param depth (level + 1) a (a', t0) Ha) H2).
      lia. }
    assert (Em' : m level = set_w (set_x (mgl level) e0) r).
    { rewrite Em, E4. now rewrite Z.eqb_refl. }
    exists r, b1, e1, s4, runs, m,
      (store e0 (fasp_blas_dcsr_aAxpy 1 (P (mgl level)) (buf (x (m (level + 1))))
                   (buf e0))).
    split; [apply residual_cells|]. split; [apply restriction_cells|].
    split; [apply zero_cells|]. split; [exact E4|]. split; [exact H1|].
    split; [exact H2|]. split; [exact Em|].
    split; [apply prolongation_cells|]. split.
    + intros k. unfold post_smoothing, prolongation. cbv zeta.
      destruct (Z.eqb_spec k level) as [-> | N0].
      * rewrite !upd_same, Em'. reflexivity.
      * now rewrite !upd_other by exact N0.
    + rewrite H3. now rewrite <- app_assoc.
  - split; [lia|]. intros _. injection Hr as <- <-. split; reflexivity.
Qed.

(** The two sample levels, from level [0], with depth [2]. *)
Lemma C4_cycle_steps_witness :
  let D := Samples.no_data in
  let E := Samples.plain_parts in
  let param := Samples.default_param in
  let mgl := Samples.two_levels in
  let l0 := mgl 0 in
  let l1 := mgl (0 + 1) in
  exists mgl' tr,
    fasp_solver_mgrecur 2 param 0 mgl = Some (mgl', tr)
    /\ (0 < 2 - 1 ->
        let e0 :=
          if 0 <? ILU_levels param
          then fasp_smoother_dcsr_ilu (A l0) (b l0) (x l0) (LU l0)
          else fasp_dcsr_presmoothing (smoother param) (A l0) (b l0) (x l0)
                 (presmooth_iter param) 0 (row (A l0) - 1) 1 (relaxation param)
                 (polynomial_degree param) (smooth_order param) (cfmark l0) in
        exists (r : arr Q) (b1 e1 : dvector) (z : arr AMG_data)
               (runs : list run) (m : arr AMG_data) (e2 : dvector),
          residual_of (A l0) (vget (b l0)) (vget e0) (w l0) r
          /\ restriction_of (R l0) r (b l1) b1
          /\ zero_vector (row (A l1)) (x l1) e1
          /\ (forall k, z k = if k =? 0 then set_w (set_x l0 e0) r
                              else if k =? 0 + 1 then set_x (set_b l1 b1) e1
                              else mgl k)
          /\ length runs = Z.to_nat (cycle_type param)
          /\ calls (fasp_solver_mgrecur (2 - 1) param (0 + 1)) z runs m
          /\ m 0 = z 0
          /\ prolongation_of (P l0) (vget (x (m (0 + 1)))) e0 e2
          /\ (forall k,
                mgl' k =
                if k =? 0
                then set_x (m 0)
                       (if 0 <? ILU_levels param
                        then fasp_smoother_dcsr_ilu (A l0) (b l0) e2 (LU l0)
                        else fasp_dcsr_postsmoothing (smoother param) (A l0) (b l0) e2
                               (postsmooth_iter param) 0 (row (A l0) - 1) (-1)
                               (relaxation param) (polynomial_degree param)
                               (smooth_order param) (cfmark l0))
                else m k)
          /\ tr = [PreSmooth 0; Residual 0; Restrict 0; ZeroCorrection (0 + 1)]
                  ++ concat (map snd runs) ++ [Prolong 0; PostSmooth 0])
    /\ (2 - 1 <= 0 ->
        mgl' = upd mgl 0 (set_x l0 (coarse_solver (A l0) (b l0) (x l0) param))
        /\ tr = [CoarseSolve 0]).
Proof.
  cbv zeta.
  apply (C4_cycle_steps Samples.no_data Samples.plain_parts Samples.default_param 2 0 2
           Samples.two_levels).
  - intros l. unfold Samples.two_levels. destruct (l =? 0); reflexivity.
  - cbn. lia.
Defined.

(** On the two sample levels, with the right-hand side [1, 1] and the
    first guess [0, 0] (the sample smoother leaves [x] alone, the sample
    solver of the coarsest level returns [b]): the residual is [1, 1], its
    restriction [2], and the prolongation adds [2, 2]. *)
Example two_level_values :
  let D := Samples.no_data in
  let E := Samples.plain_parts in
  option_map
    (fun r => (map (w (fst r 0)) (zrange 0 2), b (fst r 1), x (fst r 1), x (fst r 0)))
    (fasp_solver_mgrecur 2 Samples.default_param 0 Samples.two_levels)
  = Some ([1; 1]%Q, [2]%Q, [2]%Q, [2; 2]%Q).
Proof. cbv zeta. vm_compute. reflexivity. Qed.

(** C8: a cycle started with the same right-hand side and the same first
    guess on two hierarchies that differ only in what a cycle overwrites
    (the work arrays, the vectors of the coarser levels) returns the same
    [x] and does the same steps; so a second run, started on what the first
    one left, repeats the first.  The hierarchy has the shape the setup
    gives it. *)
Theorem C8_two_runs_agree (D : SmootherData) (E : Externals) (param : AMG_param)
  (n : Z) (depth : nat) (mgl : arr AMG_data) (bv xv : dvector) :
  coherent n mgl -> shaped n mgl ->
  (Z.to_nat (n - 1) < depth)%nat ->
  exists m1 t1,
    fasp_solver_mgrecur depth param 0 (start bv xv mgl) = Some (m1, t1)
    /\ (exists m2, fasp_solver_mgrecur depth param 0 (start bv xv m1) = Some (m2, t1)
                   /\ x (m2 0) = x (m1 0))
    /\ (forall mgl', agree 0 (start bv xv mgl) mgl' ->
        exists m', fasp_solver_mgrecur depth param 0 mgl' = Some (m', t1)
                   /\ x (m' 0) = x (m1 0)).
Proof.
  intros Hc Hs Hd.
  assert (Fs : forall m k, fixed_part (start bv xv m k) = fixed_part (m k)).
  { intros m k. unfold start, upd.
    destruct (Z.eqb_spec k 0) as [->|]; reflexivity. }
  assert (Hc0 : coherent n (start bv xv mgl)) by (apply (coherent_fixed n mgl); auto).
  assert (Hs0 : shaped n (start bv xv mgl)).
  { intros l Hl. destruct (Hs l Hl) as (S1 & S2 & S3).
    destruct (fixed_fields _ _ (Fs mgl l)) as (EA & _ & ER & _).
    destruct (fixed_fields _ _ (Fs mgl (l + 1))) as (EA1 & _).
    rewrite EA, ER, EA1. split; [exact S1 | split; [|assumption]].
    unfold start, upd. destruct (Z.eqb_spec (l + 1) 0); [lia | assumption]. }
  destruct (mgrecur_total param n depth 0 (start bv xv mgl) Hc0) as ([m1 t1] & H1 & _).
  { replace (n - 1 - 0) with (n - 1) by lia. exact Hd. }
  exists m1, t1. split; [exact H1|].
  assert (General : forall mgl', agree 0 (start bv xv mgl) mgl' ->
            exists m', fasp_solver_mgrecur depth param 0 mgl' = Some (m', t1)
                       /\ x (m' 0) = x (m1 0)).
  { intros mgl' Ha.
    destruct (mgrecur_agree param n depth 0 _ mgl' (m1, t1) (Z.le_refl 0) Hc0 Hs0 Ha H1)
      as ([m' t'] & G1 & (_ & _ & G2) & G3).
    cbn [fst snd] in *. subst t'. exists m'. split; [exact G1|].
    destruct (G2 0) as [_ Ex]; [lia|]. now symmetry. }
  split; [|exact General].
  apply General.
  pose proof (mgrecur_fixed param depth 0 _ _ H1) as Hf. cbn [fst] in Hf.
  pose proof (mgrecur_length_b param depth 0 _ _ H1) as Hb. cbn [fst] in Hb.
  split; [|split].
  - intros k. rewrite !Fs. rewrite Hf. now rewrite Fs.
  - intros k. destruct (Z.eq_dec k 0) as [->|Hne].
    + unfold start. rewrite !upd_level_same. reflexivity.
    + replace (start bv xv m1 k) with (m1 k)
        by (unfold start; symmetry; apply upd_other; assumption).
      now rewrite Hb.
  - intros k Hk. assert (k = 0) by lia. subst k. unfold start.
    rewrite !upd_level_same. split; reflexivity.
Qed.

(** The two sample levels, with the right-hand side [1, 1] and the first
    guess [0, 0]. *)
Lemma C8_two_runs_agree_witness :
  let D := Samples.no_data in
  let E := Samples.plain_parts in
  exists m1 t1,
    fasp_solver_mgrecur 2 Samples.default_param 0
      (start [1; 1]%Q [0; 0]%Q Samples.two_levels) = Some (m1, t1)
    /\ (exists m2, fasp_solver_mgrecur 2 Samples.default_param 0
                     (start [1; 1]%Q [0; 0]%Q m1) = Some (m2, t1)
                   /\ x (m2 0) = x (m1 0))
    /\ (forall mgl', agree 0 (start [1; 1]%Q [0; 0]%Q Samples.two_levels) mgl' ->
        exists m', fasp_solver_mgrecur 2 Samples.default_param 0 mgl' = Some (m', t1)
                   /\ x (m' 0) = x (m1 0)).
Proof.
  cbv zeta.
  apply (C8_two_runs_agree Samples.no_data Samples.plain_parts Samples.default_param 2 2
           Samples.two_levels [1; 1]%Q [0; 0]%Q).
  - intros l. unfold Samples.two_levels. destruct (l =? 0); reflexivity.
  - intros l Hl. assert (l = 0) by lia. subst l. split; [|split].
    + intros i k Hi Hk. cbn in Hi. assert (i = 0) by lia. subst i.
      assert (E1 : IA (R (Samples.two_levels 0)) 0 = 0) by reflexivity.
      assert (E2 : IA (R (Samples.two_levels 0)) (0 + 1) = 2) by reflexivity.
      rewrite E1, E2 in Hk.
      assert (Hk' : k = 0 \/ k = 1) by lia.
      destruct Hk' as [-> | ->]; vm_compute; split; congruence.
    + cbn. lia.
    + cbn. lia.
  - cbn. lia.
Defined.

End CycleFacts.

(* ------------------------------------------------------------------ *)
(** ** BlaSparseCSR.c: the transposition *)

Module TransposeFacts.
Import BlaSparseCSR Rows Transposed.

Lemma filter_none {X : Type} (f : X -> bool) (l : list X) :
  (forall x, In x l -> f x = false) -> filter f l = [].
Proof.
  induction l as [|a l IH]; intros H; simpl; [reflexivity|].
  rewrite (H a) by now left. apply IH. intros x Hx. apply H. now right.
Qed.

Lemma filter_all {X : Type} (f : X -> bool) (l : list X) :
  (forall x, In x l -> f x = true) -> filter f l = l.
Proof.
  induction l as [|a l IH]; intros H; simpl; [reflexivity|].
  rewrite (H a) by now left. f_equal. apply IH. intros x Hx. apply H. now right.
Qed.

Section Counting.
Variable ja : arr Z.

Lemma count_nonneg (c t : Z) : 0 <= count ja c t.
Proof. unfold count. lia. Qed.

Lemma count_start (c t : Z) : t <= 0 -> count ja c t = 0.
Proof. intros H. unfold count. now rewrite zrange_empty by lia. Qed.

Lemma count_succ (c t : Z) :
  0 <= t -> count ja c (t + 1) = count ja c t + (if ja t =? c then 1 else 0).
Proof.
  intros H. unfold count. rewrite zrange_last by lia.
  rewrite filter_app, length_app. cbn [filter].
  destruct (ja t =? c); cbn [length]; lia.
Qed.

Lemma count_mono (c t t' : Z) : t <= t' -> count ja c t <= count ja c t'.
Proof.
  intros H. destruct (Z_lt_le_dec t 0) as [Hn | Hp].
  - rewrite (count_start c t) by lia. apply count_nonneg.
  - unfold count. rewrite (zrange_split 0 t t') by lia.
    rewrite filter_app, length_app. lia.
Qed.

Lemma count_lt (c p t : Z) :
  0 <= p < t -> ja p = c -> count ja c p < count ja c t.
Proof.
  intros H E. pose proof (count_mono c (p + 1) t ltac:(lia)) as M.
  rewrite count_succ in M by lia. rewrite E, Z.eqb_refl in M. lia.
Qed.

Lemma below_split (c t : Z) : below ja (c + 1) t = below ja c t + count ja c t.
Proof.
  unfold below, count. induction (zrange 0 t) as [|a l IH]; [reflexivity|].
  cbn [filter]. zbool; cbn [length]; lia.
Qed.

Lemma below_mono (c c' t : Z) : c <= c' -> below ja c t <= below ja c' t.
Proof.
  intros H. unfold below. induction (zrange 0 t) as [|a l IH]; [reflexivity|].
  cbn [filter]. zbool; cbn [length]; lia.
Qed.

Lemma below_none (c t : Z) :
  (forall p, 0 <= p < t -> c <= ja p) -> below ja c t = 0.
Proof.
  intros H. unfold below. rewrite filter_none; [reflexivity|].
  intros p Hp. apply zrange_In in Hp. apply Z.ltb_ge. apply H. lia.
Qed.

Lemma below_all (c t : Z) :
  0 <= t -> (forall p, 0 <= p < t -> ja p < c) -> below ja c t = t.
Proof.
  intros Ht H. unfold below. rewrite filter_all.
  - rewrite zrange_length. lia.
  - intros p Hp. apply zrange_In in Hp. apply Z.ltb_lt. apply H. lia.
Qed.

(** Every count below [count c t] is the count at a position that holds
    column [c]. *)
Lemma count_onto (c : Z) (t : nat) : forall k,
  0 <= k < count ja c (Z.of_nat t) ->
  exists p, 0 <= p < Z.of_nat t /\ ja p = c /\ count ja c p = k.
Proof.
  induction t as [|t IH]; intros k Hk.
  - rewrite count_start in Hk by lia. lia.
  - replace (Z.of_nat (S t)) with (Z.of_nat t + 1) in * by lia.
    rewrite count_succ in Hk by lia.
    destruct (Z_lt_le_dec k (count ja c (Z.of_nat t))) as [Hlt | Hge].
    + destruct (IH k ltac:(lia)) as (p & Hp & E1 & E2).
      exists p. split; [lia | now split].
    + destruct (Z.eqb_spec (ja (Z.of_nat t)) c) as [E | E]; [|lia].
      exists (Z.of_nat t). split; [lia | split; [exact E | lia]].
Qed.

End Counting.

Section Pass.
Variables (n m N : Z) (aia aja : arr Z).
Hypothesis Hn : 0 <= n.
Hypothesis Hfirst : aia 0 = 0.
Hypothesis Hlast : aia n = N.
Hypothesis Hmono : forall i, 0 <= i < n -> aia i <= aia (i + 1).
Hypothesis Hcols : forall p, 0 <= p < N -> 0 <= aja p < m.

Lemma offsets_mono (i : Z) (d : nat) :
  0 <= i -> i + Z.of_nat d <= n -> aia i <= aia (i + Z.of_nat d).
Proof.
  intros Hi. induction d as [|d IH]; intros Hd.
  - rewrite Z.add_0_r. lia.
  - replace (i + Z.of_nat (S d)) with (i + Z.of_nat d + 1) by lia.
    pose proof (Hmono (i + Z.of_nat d) ltac:(lia)). lia.
Qed.

Lemma offsets_le (i k : Z) : 0 <= i -> i <= k -> k <= n -> aia i <= aia k.
Proof.
  intros Hi Hik Hk. pose proof (offsets_mono i (Z.to_nat (k - i)) Hi ltac:(lia)) as M.
  replace (i + Z.of_nat (Z.to_nat (k - i))) with k in M by lia. exact M.
Qed.

Lemma positions_nonneg : 0 <= N.
Proof. rewrite <- Hlast, <- Hfirst. apply offsets_le; lia. Qed.

Lemma row_in_range (i p : Z) : 0 <= i < n -> aia i <= p < aia (i + 1) -> 0 <= p < N.
Proof.
  intros Hi Hp. pose proof (offsets_le 0 i ltac:(lia) ltac:(lia) ltac:(lia)).
  pose proof (offsets_le (i + 1) n ltac:(lia) ltac:(lia) ltac:(lia)). lia.
Qed.

Lemma row_of (p : Z) :
  0 <= p < N -> exists i, 0 <= i < n /\ aia i <= p < aia (i + 1).
Proof.
  intros Hp.
  assert (G : forall k : nat, Z.of_nat k <= n -> p < aia (Z.of_nat k) ->
                              exists i, 0 <= i < Z.of_nat k /\ aia i <= p < aia (i + 1)).
  { induction k as [|k IH]; intros Hk Hlt.
    - cbn in Hlt. lia.
    - destruct (Z_lt_le_dec p (aia (Z.of_nat k))) as [Hl | Hg].
      + destruct (IH ltac:(lia) Hl) as (i & Hi & Hr). exists i. split; [lia | exact Hr].
      + exists (Z.of_nat k). replace (Z.of_nat k + 1) with (Z.of_nat (S k)) by lia.
        split; lia. }
  destruct (G (Z.to_nat n)) as (i & Hi & Hr).
  - lia.
  - replace (Z.of_nat (Z.to_nat n)) with n by lia. lia.
  - exists i. split; [lia | exact Hr].
Qed.

Lemma rows_ordered (i i' p q : Z) :
  0 <= i < n -> 0 <= i' < n ->
  aia i <= p < aia (i + 1) -> aia i' <= q < aia (i' + 1) -> p <= q -> i <= i'.
Proof.
  intros Hi Hi' Hp Hq Hpq. destruct (Z_le_gt_dec i i') as [L | G]; [exact L|].
  pose proof (offsets_le (i' + 1) i ltac:(lia) ltac:(lia) ltac:(lia)). lia.
Qed.

Lemma row_unique (i i' p : Z) :
  0 <= i < n -> 0 <= i' < n ->
  aia i <= p < aia (i + 1) -> aia i' <= p < aia (i' + 1) -> i = i'.
Proof.
  intros Hi Hi' Hp Hq.
  pose proof (rows_ordered i i' p p Hi Hi' Hp Hq ltac:(lia)).
  pose proof (rows_ordered i' i p p Hi' Hi Hq Hp ltac:(lia)). lia.
Qed.

Lemma dest_range (p : Z) :
  0 <= p < N ->
  below aja (aja p) N <= dest aja N p < below aja (aja p + 1) N.
Proof.
  intros Hp. unfold dest. rewrite below_split.
  pose proof (count_nonneg aja (aja p) p).
  pose proof (count_lt aja (aja p) p N Hp eq_refl). lia.
Qed.

Lemma dest_apart (p q : Z) : 0 <= p -> p < q -> q < N -> dest aja N p <> dest aja N q.
Proof.
  intros H0 Hpq Hq.
  pose proof (dest_range p ltac:(lia)) as Rp.
  pose proof (dest_range q ltac:(lia)) as Rq.
  destruct (Z.lt_trichotomy (aja p) (aja q)) as [L | [E | G]].
  - pose proof (below_mono aja (aja p + 1) (aja q) N ltac:(lia)). lia.
  - unfold dest. rewrite E.
    pose proof (count_lt aja (aja q) p q ltac:(lia) E). lia.
  - pose proof (below_mono aja (aja q + 1) (aja p) N ltac:(lia)). lia.
Qed.

Lemma dest_onto (c k : Z) :
  below aja c N <= k < below aja (c + 1) N ->
  exists p, 0 <= p < N /\ aja p = c /\ dest aja N p = k.
Proof.
  intros Hk. rewrite below_split in Hk. pose proof positions_nonneg as HN.
  destruct (count_onto aja c (Z.to_nat N) (k - below aja c N)) as (p & Hp & E1 & E2).
  - replace (Z.of_nat (Z.to_nat N)) with N by lia. lia.
  - exists p. split; [lia | split; [exact E1|]]. unfold dest. rewrite E1. lia.
Qed.

Lemma below_first : below aja 0 N = 0.
Proof. apply below_none. intros p Hp. apply Hcols. exact Hp. Qed.

Lemma below_last : below aja m N = N.
Proof.
  apply below_all; [apply positions_nonneg|]. intros p Hp. apply Hcols. exact Hp.
Qed.

Lemma dest_total (q : Z) :
  0 <= q < N ->
  exists p, 0 <= p < N /\ 0 <= aja p < m /\
            below aja (aja p) N <= q < below aja (aja p + 1) N /\ dest aja N p = q.
Proof.
  intros Hq.
  assert (G : forall c : nat, q < below aja (Z.of_nat c) N ->
                              exists c', 0 <= c' < Z.of_nat c /\
                                         below aja c' N <= q < below aja (c' + 1) N).
  { induction c as [|c IH]; intros Hlt.
    - cbn [Z.of_nat] in Hlt. rewrite below_first in Hlt. lia.
    - destruct (Z_lt_le_dec q (below aja (Z.of_nat c) N)) as [Hl | Hg].
      + destruct (IH Hl) as (c' & Hc' & Hr). exists c'. split; [lia | exact Hr].
      + exists (Z.of_nat c). replace (Z.of_nat c + 1) with (Z.of_nat (S c)) by lia.
        split; lia. }
  assert (Hm : 0 <= m) by (pose proof (Hcols q Hq); lia).
  destruct (G (Z.to_nat m)) as (c & Hc & Hr).
  - replace (Z.of_nat (Z.to_nat m)) with m by lia. rewrite below_last. lia.
  - destruct (dest_onto c q Hr) as (p & Hp & E1 & E2).
    exists p. rewrite E1. split; [exact Hp | split; [lia | split; [exact Hr | exact E2]]].
Qed.

(** The first pass leaves the number of entries of column [k-2] in cell
    [k], for [2 <= k <= m]. *)
Lemma count_pass (k : Z) :
  trans_count m N aja k = if (2 <=? k) && (k <=? m) then count aja (k - 2) N else 0.
Proof.
  revert k. unfold trans_count.
  apply (for_loop_inv
           (fun t ia => forall k, ia k = if (2 <=? k) && (k <=? m)
                                         then count aja (k - 2) t else 0)).
  - apply positions_nonneg.
  - intros k. unfold zeros. rewrite count_start by lia. now destruct ((2 <=? k) && (k <=? m)).
  - intros t ia Ht IH k. pose proof (Hcols t Ht) as Hc.
    cbv zeta. rewrite count_succ by lia.
    destruct (Z.ltb_spec (aja t) (m - 1)) as [Hl | Hg].
    + destruct (Z.eqb_spec k (aja t + 2)) as [-> | Hne].
      * rewrite upd_same, IH. zbool.
      * rewrite upd_other by exact Hne. rewrite IH. zbool.
    + rewrite IH. zbool.
Qed.

(** The running sums turn the counts into the first position of each row
    of the transpose, one cell late. *)
Lemma prefix_pass (k : Z) :
  trans_prefix m (trans_count m N aja) k =
  if (1 <=? k) && (k <=? m) then below aja (k - 1) N else 0.
Proof.
  unfold trans_prefix. destruct (Z_lt_le_dec m 1) as [Hs | Hb].
  - rewrite for_loop_empty by lia. rewrite count_pass. zbool.
  - revert k.
    assert (G : forall k,
               for_loop 2 (m + 1) (fun ia i => upd ia i (ia i + ia (i - 1)))
                 (trans_count m N aja) k =
               if k <? m + 1
               then (if (1 <=? k) && (k <=? m) then below aja (k - 1) N else 0)
               else trans_count m N aja k).
    { apply (for_loop_inv
               (fun i ia => forall k,
                    ia k = if k <? i
                           then (if (1 <=? k) && (k <=? m) then below aja (k - 1) N else 0)
                           else trans_count m N aja k)).
      - lia.
      - intros k. rewrite count_pass. zbool.
        replace (k - 1) with 0 by lia. now rewrite below_first.
      - intros i ia Hi IH k. destruct (Z.eqb_spec k i) as [-> | Hne].
        + rewrite upd_same. rewrite (IH i), (IH (i - 1)). rewrite count_pass.
          pose proof (below_split aja (i - 2) N) as B.
          replace (i - 2 + 1) with (i - 1) in B by lia.
          replace (i - 1 - 1) with (i - 2) by lia. rewrite B. zbool.
        + rewrite upd_other by exact Hne. rewrite IH. zbool. }
    intros k. rewrite G. rewrite count_pass. zbool.
Qed.

(** One step of the second pass. *)
Lemma scatter_step {T : Type} (v : option (arr T)) (i p : Z)
  (tia tja : arr Z) (tval : arr T) :
  0 <= i < n -> aia i <= p < aia (i + 1) ->
  scattered n m N aia aja v p (tia, tja, tval) ->
  scattered n m N aia aja v (p + 1)
    (upd tia (aja p + 1) (tia (aja p + 1) + 1),
     upd tja (tia (aja p + 1)) i,
     match v with Some av => upd tval (tia (aja p + 1)) (av p) | None => tval end).
Proof.
  intros Hi Hp [H1 H2].
  pose proof (row_in_range i p Hi Hp) as HpN. pose proof (Hcols p HpN) as Hc.
  assert (Ek : tia (aja p + 1) = dest aja N p).
  { rewrite H1. unfold dest. replace (aja p + 1 - 1) with (aja p) by lia. zbool. }
  split.
  - intros k. rewrite (count_succ aja (k - 1) p) by lia.
    destruct (Z.eqb_spec k (aja p + 1)) as [-> | Hne].
    + rewrite upd_same, H1. zbool.
    + rewrite upd_other by exact Hne. rewrite H1. zbool.
  - intros q i' Hi' Hq Hlt. rewrite Ek.
    destruct (Z.eq_dec q p) as [-> | Hne].
    + rewrite upd_same. split; [apply (row_unique i i' p); assumption|].
      intros av ->. now rewrite upd_same.
    + pose proof (row_in_range i' q Hi' Hq) as HqN.
      assert (Hd : dest aja N q <> dest aja N p) by (apply dest_apart; lia).
      destruct (H2 q i' Hi' Hq ltac:(lia)) as [J1 J2].
      rewrite upd_other by exact Hd. split; [exact J1|].
      intros av ->. rewrite upd_other by exact Hd. now apply J2.
Qed.

(** The second pass, run on what the first pass and the running sums
    left. *)
Lemma scatter_pass {T : Type} (v : option (arr T)) (tja0 : arr Z) (tval0 : arr T) :
  scattered n m N aia aja v N
    (trans_scatter n aia aja v (trans_prefix m (trans_count m N aja), tja0, tval0)).
Proof.
  assert (G : scattered n m N aia aja v (aia n)
                (trans_scatter n aia aja v
                   (trans_prefix m (trans_count m N aja), tja0, tval0))).
  { unfold trans_scatter.
    apply (for_loop_inv (fun i st => scattered n m N aia aja v (aia i) st)).
    - exact Hn.
    - split.
      + intros k. rewrite prefix_pass. rewrite count_start by lia. zbool.
      + intros p i Hi Hp Hlt. pose proof (row_in_range i p Hi Hp). lia.
    - intros i st Hi IH.
      apply (for_loop_inv (fun p st => scattered n m N aia aja v p st)).
      + apply Hmono. exact Hi.
      + exact IH.
      + intros p [[tia tja] tval] Hp IHp. apply scatter_step; assumption. }
  rewrite Hlast in G. exact G.
Qed.

End Pass.

Section Matrix.
Variable M : dCSRmat.
Hypothesis HM : csr_valid M.

Lemma trans_shape :
  row (fasp_dcsr_trans M) = col M /\ col (fasp_dcsr_trans M) = row M /\
  nnz (fasp_dcsr_trans M) = nnz M.
Proof.
  unfold fasp_dcsr_trans.
  destruct (trans_scatter _ _ _ _ _) as [[tia tja] tval]. cbn. tauto.
Qed.

(** The arrays of the transpose: the offsets, and where each position of
    [M] is found. *)
Lemma trans_arrays :
  (forall k, 0 <= k <= col M -> IA (fasp_dcsr_trans M) k = below (JA M) k (nnz M)) /\
  (forall p i, 0 <= i < row M -> IA M i <= p < IA M (i + 1) ->
               JA (fasp_dcsr_trans M) (dest (JA M) (nnz M) p) = i /\
               aval (fasp_dcsr_trans M) (dest (JA M) (nnz M) p) = aval M p).
Proof.
  assert (S : scattered (row M) (col M) (nnz M) (IA M) (JA M) (val M) (nnz M)
                (trans_scatter (row M) (IA M) (JA M) (val M)
                   (trans_prefix (col M) (trans_count (col M) (nnz M) (JA M)),
                    zeros 0, zeros 0%Q)))
    by (apply scatter_pass; destruct HM; assumption).
  unfold fasp_dcsr_trans, aval.
  destruct (trans_scatter _ _ _ _ _) as [[tia tja] tval]. destruct S as [S1 S2].
  cbn [IA JA val]. split.
  - intros k Hk. rewrite S1. destruct (Z.eq_dec k 0) as [-> | Hne].
    + cbn. symmetry. apply (below_first (col M)). apply (valid_cols _ HM).
    + pose proof (below_split (JA M) (k - 1) (nnz M)) as B.
      replace (k - 1 + 1) with k in B by lia. rewrite B. zbool.
  - intros p i Hi Hp.
    assert (HpN : 0 <= p < nnz M)
      by (apply (row_in_range (row M) (nnz M) (IA M)) with (i := i);
          try assumption; destruct HM; assumption).
    destruct (S2 p i Hi Hp ltac:(lia)) as [J1 J2]. split; [exact J1|].
    destruct (val M) as [av|]; [now apply J2 | reflexivity].
Qed.

Lemma trans_valid : csr_valid (fasp_dcsr_trans M).
Proof.
  destruct trans_shape as (Er & Ec & En). destruct trans_arrays as [Hia Hja].
  pose proof HM as [V1 V2 V3 V4 V5 V6].
  constructor; rewrite ?Er, ?Ec, ?En.
  - exact V2.
  - exact V1.
  - rewrite Hia by lia. now apply (below_first (col M)).
  - rewrite Hia by lia. now apply (below_last (row M) (col M) (nnz M) (IA M) (JA M)).
  - intros i Hi. rewrite !Hia by lia. apply below_mono. lia.
  - intros q Hq.
    destruct (dest_total (row M) (col M) (nnz M) (IA M) (JA M) V1 V3 V4 V5 V6 q Hq)
      as (p & Hp & _ & _ & <-).
    destruct (row_of (row M) (nnz M) (IA M) V1 V3 V4 p Hp) as (i & Hi & Hr).
    destruct (Hja p i Hi Hr) as [-> _]. exact Hi.
Qed.

Lemma trans_entries (i j : Z) (v : Q) :
  entry (fasp_dcsr_trans M) j i v <-> entry M i j v.
Proof.
  destruct trans_shape as (Er & Ec & En). destruct trans_arrays as [Hia Hja].
  pose proof HM as [V1 V2 V3 V4 V5 V6].
  unfold entry. rewrite Er. split.
  - intros [Hj (q & Hq & E1 & E2)]. rewrite !Hia in Hq by lia.
    destruct (dest_onto (row M) (nnz M) (IA M) (JA M) V1 V3 V4 V5 j q Hq)
      as (p & Hp & Ej & <-).
    destruct (row_of (row M) (nnz M) (IA M) V1 V3 V4 p Hp) as (i' & Hi' & Hr).
    destruct (Hja p i' Hi' Hr) as [J1 J2]. rewrite J1 in E1. subst i'.
    split; [exact Hi'|]. exists p. rewrite <- E2, J2. now split.
  - intros [Hi (p & Hp & E1 & E2)].
    assert (HpN : 0 <= p < nnz M)
      by (apply (row_in_range (row M) (nnz M) (IA M)) with (i := i); assumption).
    pose proof (V6 p HpN) as Hc. rewrite E1 in Hc. split; [exact Hc|].
    exists (dest (JA M) (nnz M) p). rewrite !Hia by lia.
    pose proof (dest_range (nnz M) (JA M) p HpN) as R. rewrite E1 in R.
    destruct (Hja p i Hi Hp) as [J1 J2]. rewrite J1, J2. now split.
Qed.

(** A transpose has the columns of each row in order: the second pass
    visits the rows of [M] in order. *)
Lemma trans_sorted : sorted_rows (fasp_dcsr_trans M).
Proof.
  destruct trans_shape as (Er & Ec & En). destruct trans_arrays as [Hia Hja].
  pose proof HM as [V1 V2 V3 V4 V5 V6].
  intros c q1 q2 Hc H1 H12 H2. rewrite Er in Hc. rewrite !Hia in * by lia.
  destruct (dest_onto (row M) (nnz M) (IA M) (JA M) V1 V3 V4 V5 c q1 ltac:(lia))
    as (p1 & Hp1 & Ec1 & <-).
  destruct (dest_onto (row M) (nnz M) (IA M) (JA M) V1 V3 V4 V5 c q2 ltac:(lia))
    as (p2 & Hp2 & Ec2 & <-).
  destruct (row_of (row M) (nnz M) (IA M) V1 V3 V4 p1 Hp1) as (i1 & Hi1 & Hr1).
  destruct (row_of (row M) (nnz M) (IA M) V1 V3 V4 p2 Hp2) as (i2 & Hi2 & Hr2).
  destruct (Hja p1 i1 Hi1 Hr1) as [-> _]. destruct (Hja p2 i2 Hi2 Hr2) as [-> _].
  apply (rows_ordered (row M) (IA M) V5 i1 i2 p1 p2); try assumption.
  destruct (Z_le_gt_dec p1 p2) as [L | G]; [exact L|].
  unfold dest in H12. rewrite Ec1, Ec2 in H12.
  pose proof (count_lt (JA M) c p2 p1 ltac:(lia) Ec2). lia.
Qed.

End Matrix.

(** C10.  For a matrix [M] of valid structure (row offsets that start at
    [0], do not decrease and end at [nnz], columns in [[0, col)]),
    [fasp_dcsr_trans] gives the exact transpose: the result has [col M]
    rows, [row M] columns and [nnz M] positions, and holds [(j, i, v)]
    exactly when [M] holds [(i, j, v)].  Hence transposing twice gives a
    matrix with the sizes and the entries of [M], in which the columns of
    every row are in order. *)
Theorem C10_transpose_exact (M : dCSRmat) :
  csr_valid M ->
  exact_transpose M (fasp_dcsr_trans M) /\
  same_entries M (fasp_dcsr_trans (fasp_dcsr_trans M)) /\
  sorted_rows (fasp_dcsr_trans (fasp_dcsr_trans M)).
Proof.
  intros HM. pose proof (trans_valid M HM) as HT.
  destruct (trans_shape M) as (Er & Ec & En).
  destruct (trans_shape (fasp_dcsr_trans M)) as (Er' & Ec' & En').
  split; [|split].
  - split; [exact Er | split; [exact Ec | split; [exact En|]]].
    intros i j v. apply trans_entries. exact HM.
  - split; [congruence | split; [congruence | split; [congruence|]]].
    intros i j v. rewrite (trans_entries _ HT). apply trans_entries. exact HM.
  - apply trans_sorted. exact HT.
Qed.

Lemma wide_operator_valid : csr_valid Samples.wide_operator.
Proof.
  constructor.
  - cbn. lia.
  - cbn. lia.
  - reflexivity.
  - reflexivity.
  - intros i Hi. change (row Samples.wide_operator) with 2 in Hi.
    assert (H : i = 0 \/ i = 1) by lia. destruct H as [-> | ->]; vm_compute; congruence.
  - intros p Hp. change (nnz Samples.wide_operator) with 3 in Hp.
    assert (H : p = 0 \/ p = 1 \/ p = 2) by lia.
    destruct H as [-> | [-> | ->]]; vm_compute; split; congruence.
Qed.

(** The 2 x 3 sample. *)
Lemma C10_transpose_exact_witness :
  exact_transpose Samples.wide_operator (fasp_dcsr_trans Samples.wide_operator) /\
  same_entries Samples.wide_operator
    (fasp_dcsr_trans (fasp_dcsr_trans Samples.wide_operator)) /\
  sorted_rows (fasp_dcsr_trans (fasp_dcsr_trans Samples.wide_operator)).
Proof.
  apply (C10_transpose_exact Samples.wide_operator). exact wide_operator_valid.
Defined.

(** The transpose of the 2 x 3 sample, and the transpose of that. *)
Example wide_operator_transposed :
  let T := fasp_dcsr_trans Samples.wide_operator in
  (row T, col T, nnz T) = (3, 2, 3) /\
  to_list (IA T) 4 = [0; 1; 2; 3] /\ to_list (JA T) 3 = [0; 1; 0] /\
  map Qred (to_list (aval T) 3) = [1; 7; 5]%Q /\
  let TT := fasp_dcsr_trans T in
  to_list (IA TT) 3 = [0; 2; 3] /\ to_list (JA TT) 3 = [0; 2; 1] /\
  map Qred (to_list (aval TT) 3) = [1; 5; 7]%Q.
Proof. vm_compute. repeat split. Qed.

End TransposeFacts.

(* ------------------------------------------------------------------ *)
(** ** coarsening_rs.c: the strength graph *)

Module StrengthFacts.
Import BlaSparseCSR StrengthGraph Rows Strength.

Lemma capped_min_snoc (l : list Q) (m v : Q) :
  capped_min l m -> capped_min (l ++ [v]) (MIN m v).
Proof.
  intros (H1 & H2 & H3). unfold MIN.
  destruct (Qltb_spec m v) as [L | G].
  - split; [exact H1 | split].
    + intros u Hu. apply in_app_or in Hu. destruct Hu as [Hu | [<- | []]].
      * now apply H2.
      * lra.
    + destruct H3 as [-> | H3]; [now left | right; apply in_or_app; now left].
  - assert (Hv : (v <= m)%Q) by lra. split; [lra | split].
    + intros u Hu. apply in_app_or in Hu. destruct Hu as [Hu | [<- | []]].
      * pose proof (H2 u Hu). lra.
      * lra.
    + right. apply in_or_app. right. now left.
Qed.

(** One turn of the inner loop of the compression. *)
Lemma compress_step (mk : arr Z) (j : Z) (s : arr Z) (idx : Z) :
  0 <= j -> compressing mk j (s, idx) ->
  compressing mk (j + 1) (if s j >? -1 then (upd s idx (s j), idx + 1) else (s, idx)).
Proof.
  intros Hj (I1 & I2 & I3).
  assert (Hle : 0 <= idx <= j).
  { rewrite I1. unfold kept_before.
    pose proof (filter_length_le (fun p => mk p >? -1) (zrange 0 j)) as L.
    rewrite zrange_length in L. lia. }
  assert (EK : kept_before mk (j + 1)
               = kept_before mk j ++ (if mk j >? -1 then [j] else [])).
  { unfold kept_before. rewrite zrange_last by lia. rewrite filter_app.
    cbn [filter]. reflexivity. }
  rewrite (I2 j) by lia. destruct (mk j >? -1) eqn:E.
  - split; [|split].
    + rewrite EK, length_app. cbn [length]. lia.
    + intros q Hq. rewrite upd_other by lia. apply I2. lia.
    + unfold to_list. rewrite zrange_last by lia. rewrite map_app. cbn [map].
      rewrite upd_same. rewrite EK, map_app. cbn [map]. f_equal.
      rewrite <- I3. unfold to_list. apply map_ext_in. intros q Hq.
      apply zrange_In in Hq. apply upd_other. lia.
  - split; [|split].
    + rewrite EK, app_nil_r. exact I1.
    + intros q Hq. apply I2. lia.
    + rewrite EK, app_nil_r. exact I3.
Qed.

(** The body of the row loop of the compression. *)
Lemma compress_row_spec (A : dCSRmat) (mk sia s : arr Z) (idx i : Z) :
  0 <= IA A i <= IA A (i + 1) ->
  compressing mk (IA A i) (s, idx) ->
  exists s' idx',
    compress_row A (sia, s, idx) i = (upd sia i idx, s', idx') /\
    compressing mk (IA A (i + 1)) (s', idx').
Proof.
  intros Hi I. unfold compress_row.
  replace (IA A (i + 1) - 1 + 1) with (IA A (i + 1)) by lia.
  match goal with
  | |- context [for_loop ?b ?e ?f ?x] =>
      assert (G : compressing mk e (for_loop b e f x))
  end.
  { apply (for_loop_inv (fun j st => compressing mk j st)).
    - lia.
    - exact I.
    - intros j [s' idx'] Hj IH. apply compress_step; [lia | exact IH]. }
  destruct (for_loop _ _ _ _) as [s' idx']. exists s', idx'. now split.
Qed.

Section WithConstants.
Context {K : Constants}.

(** The first loop over a row: the least of [0] and the entries, and the
    entries added up in their order, each sum rounded. *)
Lemma row_scale_sum_spec (A : dCSRmat) (i : Z) :
  IA A i <= IA A (i + 1) ->
  capped_min (row_vals A i) (row_scale A i) /\
  snd (row_scale_sum A i) = rounded_sum (row_vals A i).
Proof.
  intros H. unfold row_scale, row_scale_sum, row_vals, positions, rounded_sum.
  apply (for_loop_inv
           (fun j st => capped_min (map (aval A) (zrange (IA A i) j)) (fst st) /\
                        snd st = fold_left REAL_add
                                   (map (aval A) (zrange (IA A i) j)) 0%Q)).
  - exact H.
  - rewrite zrange_empty by lia. cbn. split; [|reflexivity].
    split; [lra | split; [intros v [] | now left]].
  - intros j [m s] Hj [I1 I2]. cbn [fst snd] in *.
    rewrite zrange_last by lia. rewrite map_app. cbn [map]. split.
    + now apply capped_min_snoc.
    + rewrite fold_left_app, <- I2. reflexivity.
Qed.

Section Matrix.
Variables (A : dCSRmat) (cap th : Q).
Hypothesis HA : csr_valid A.
Hypothesis HD : diagonal_once A.

Lemma in_row_range (i p : Z) :
  0 <= i < row A -> IA A i <= p < IA A (i + 1) -> 0 <= p < nnz A.
Proof.
  destruct HA as [V1 V2 V3 V4 V5 V6].
  apply (TransposeFacts.row_in_range (row A) (nnz A) (IA A)); assumption.
Qed.

Lemma same_row (i i' p : Z) :
  0 <= i < row A -> 0 <= i' < row A ->
  IA A i <= p < IA A (i + 1) -> IA A i' <= p < IA A (i' + 1) -> i = i'.
Proof.
  destruct HA as [V1 V2 V3 V4 V5 V6].
  apply (TransposeFacts.row_unique (row A) (IA A)); assumption.
Qed.

(** The search for the diagonal finds the one diagonal position. *)
Lemma find_diagonal (f : Z -> bool) (i d : Z) :
  (forall p, f p = (JA A p =? i)) ->
  0 <= i < row A -> IA A i <= d < IA A (i + 1) -> JA A d = i ->
  find f (zrange (IA A i) (IA A (i + 1))) = Some d.
Proof.
  intros Hf Hi Hd Ed. destruct (HD i Hi) as (d' & Hd' & Ed' & U).
  assert (d = d') by (apply U; assumption). subst d'.
  destruct (find f _) as [k|] eqn:E.
  - apply find_some in E. destruct E as [E1 E2]. apply zrange_In in E1.
    rewrite Hf in E2. apply Z.eqb_eq in E2. f_equal. now apply U.
  - pose proof (find_none _ _ E d ltac:(apply zrange_In; exact Hd)) as N.
    rewrite Hf, Ed, Z.eqb_refl in N. discriminate.
Qed.

(** [diag.val[i]] is the entry at the diagonal position. *)
Lemma diag_cell (i d : Z) :
  0 <= i < row A -> IA A i <= d < IA A (i + 1) -> JA A d = i ->
  vget (fasp_dcsr_getdiag 0 A) i = aval A d.
Proof.
  intros Hi Hd Ed. pose proof (in_row_range i d Hi Hd) as HdN.
  pose proof (valid_cols _ HA d HdN) as Hc. rewrite Ed in Hc.
  unfold fasp_dcsr_getdiag, vget. cbn [Z.eqb orb].
  destruct (Z.ltb_spec i 0); [lia|].
  rewrite nth_zrange by lia.
  rewrite (find_diagonal _ i d); try assumption; [reflexivity|].
  intros p. destruct (Z.eqb_spec (JA A p - i) 0); destruct (Z.eqb_spec (JA A p) i);
    try reflexivity; lia.
Qed.

(** What the row loop of step 1 leaves in the cells of [S->JA]. *)
Lemma mark_row_cells (sja : arr Z) (i p : Z) :
  0 <= i < row A ->
  mark_row A th cap (fasp_dcsr_getdiag 0 A) sja i p =
  if (IA A i <=? p) && (p <? IA A (i + 1))
  then (if strong A cap th i p then sja p else -1)
  else sja p.
Proof.
  intros Hi. destruct (HD i Hi) as (d & Hd & Ed & U).
  unfold mark_row. cbv zeta.
  rewrite (find_diagonal _ i d) by (try assumption; reflexivity).
  unfold strong.
  destruct (all_weak A (fasp_dcsr_getdiag 0 A) cap i).
  - change (fun (s : arr Z) (j : Z) => upd s j (-1))
      with (fun (s : arr Z) (j : Z) => if (fun _ => true) j then upd s j (-1) else s).
    rewrite mark_loop. rewrite andb_false_r. cbn [negb andb].
    unfold upd. zbool.
  - rewrite mark_loop. unfold Qgeb, upd. cbn [negb]. rewrite andb_true_r.
    destruct (Z.leb_spec (IA A i) p); destruct (Z.ltb_spec p (IA A (i + 1)));
      cbn [andb].
    + destruct (Z.eqb_spec p d) as [-> | Hne].
      * rewrite Ed, Z.eqb_refl. cbn [negb andb].
        now destruct (Qltb (aval A d) (REAL_mul th (row_scale A i))).
      * destruct (Z.eqb_spec (JA A p) i) as [E | E].
        { exfalso. apply Hne. apply U; [lia | exact E]. }
        { cbn [negb andb].
          now destruct (Qltb (aval A p) (REAL_mul th (row_scale A i))). }
    + destruct (Z.eqb_spec p d); [lia | reflexivity].
    + destruct (Z.eqb_spec p d); [lia | reflexivity].
    + destruct (Z.eqb_spec p d); [lia | reflexivity].
Qed.

(** After step 1, a cell holds its column when the position is strong and
    [-1] when it is not. *)
Lemma marked_cells (i p : Z) :
  0 <= i < row A -> IA A i <= p < IA A (i + 1) ->
  for_loop 0 (row A) (mark_row A th cap (fasp_dcsr_getdiag 0 A))
    (fasp_iarray_cp (IA A (row A) - IA A 0) (JA A) (zeros 0)) p
  = if strong A cap th i p then JA A p else -1.
Proof.
  intros Hi Hp.
  assert (G : forall i p, 0 <= i < row A -> IA A i <= p < IA A (i + 1) ->
              for_loop 0 (row A) (mark_row A th cap (fasp_dcsr_getdiag 0 A))
                (fasp_iarray_cp (IA A (row A) - IA A 0) (JA A) (zeros 0)) p
              = if i <? row A then (if strong A cap th i p then JA A p else -1)
                else JA A p).
  { apply (for_loop_inv
             (fun k s => forall i p, 0 <= i < row A -> IA A i <= p < IA A (i + 1) ->
                s p = if i <? k then (if strong A cap th i p then JA A p else -1)
                      else JA A p)).
    - apply (valid_row _ HA).
    - intros j q Hj Hq. pose proof (in_row_range j q Hj Hq).
      rewrite iarray_cp_cells. rewrite (valid_first _ HA), (valid_last _ HA).
      zbool.
    - intros k s Hk IH j q Hj Hq. rewrite mark_row_cells by exact Hk.
      destruct (Z.leb_spec (IA A k) q); destruct (Z.ltb_spec q (IA A (k + 1)));
        cbn [andb].
      + assert (j = k) by (apply (same_row j k q); try assumption; lia). subst j.
        rewrite (IH k q Hk Hq). zbool.
      + assert (j <> k) by (intros ->; lia). rewrite (IH j q Hj Hq). zbool.
      + assert (j <> k) by (intros ->; lia). rewrite (IH j q Hj Hq). zbool.
      + assert (j <> k) by (intros ->; lia). rewrite (IH j q Hj Hq). zbool. }
  rewrite (G i p Hi Hp). zbool.
Qed.

Lemma offsets_range (i : Z) : 0 <= i < row A -> 0 <= IA A i <= IA A (i + 1).
Proof.
  intros Hi. destruct HA as [V1 V2 V3 V4 V5 V6].
  pose proof (TransposeFacts.offsets_le (row A) (IA A) V5 0 i ltac:(lia) ltac:(lia)
                ltac:(lia)).
  pose proof (V5 i Hi). lia.
Qed.

(** The compression, run on a marked array [mk]. *)
Lemma compress_spec (mk sia0 : arr Z) :
  exists sia s idx,
    for_loop 0 (row A) (compress_row A) (sia0, mk, 0) = (sia, s, idx) /\
    compressing mk (nnz A) (s, idx) /\
    forall k, 0 <= k < row A -> sia k = Z.of_nat (length (kept_before mk (IA A k))).
Proof.
  assert (G : let '(sia, s, idx) :=
                for_loop 0 (row A) (compress_row A) (sia0, mk, 0) in
              compressing mk (IA A (row A)) (s, idx) /\
              forall k, 0 <= k < row A ->
                        sia k = Z.of_nat (length (kept_before mk (IA A k)))).
  { apply (for_loop_inv
             (fun i (st : arr Z * arr Z * Z) =>
                let '(sia, s, idx) := st in
                compressing mk (IA A i) (s, idx) /\
                forall k, 0 <= k < i ->
                          sia k = Z.of_nat (length (kept_before mk (IA A k))))).
    - apply (valid_row _ HA).
    - rewrite (valid_first _ HA). split; [|intros k Hk; lia].
      split; [reflexivity | split; [reflexivity | reflexivity]].
    - intros i [[sia s] idx] Hi [I1 I2].
      destruct (compress_row_spec A mk sia s idx i (offsets_range i Hi) I1)
        as (s' & idx' & E & I').
      rewrite E. split; [exact I'|]. intros k Hk.
      destruct (Z.eq_dec k i) as [-> | Hne].
      + rewrite upd_same. apply I1.
      + rewrite upd_other by exact Hne. apply I2. lia. }
  destruct (for_loop 0 (row A) (compress_row A) (sia0, mk, 0)) as [[sia s] idx].
  exists sia, s, idx. rewrite (valid_last _ HA) in G. destruct G as [G1 G2].
  split; [reflexivity | split; assumption].
Qed.

(** The cells that the compression keeps are those of the strong
    positions. *)
Lemma kept_is_strong (i : nat) :
  Z.of_nat i <= row A ->
  kept_before
    (for_loop 0 (row A) (mark_row A th cap (fasp_dcsr_getdiag 0 A))
       (fasp_iarray_cp (IA A (row A) - IA A 0) (JA A) (zeros 0)))
    (IA A (Z.of_nat i))
  = strong_before A cap th (Z.of_nat i).
Proof.
  induction i as [|i IH]; intros Hi.
  - cbn [Z.of_nat]. rewrite (valid_first _ HA). reflexivity.
  - replace (Z.of_nat (S i)) with (Z.of_nat i + 1) by lia.
    pose proof (offsets_range (Z.of_nat i) ltac:(lia)) as R.
    unfold kept_before in *.
    rewrite (zrange_split 0 (IA A (Z.of_nat i)) (IA A (Z.of_nat i + 1))) by lia.
    rewrite filter_app, IH by lia. unfold strong_before.
    rewrite (zrange_last 0 (Z.of_nat i)) by lia. rewrite flat_map_app.
    cbn [flat_map]. rewrite app_nil_r. f_equal.
    unfold strong_row, positions. apply filter_ext_in. intros p Hp.
    apply zrange_In in Hp. rewrite (marked_cells (Z.of_nat i) p) by lia.
    pose proof (in_row_range (Z.of_nat i) p ltac:(lia) Hp) as HpN.
    pose proof (valid_cols _ HA p HpN).
    destruct (strong A cap th (Z.of_nat i) p); [|reflexivity].
    apply Z.gtb_lt. lia.
Qed.

(** The row rule, in terms of the row sum and the diagonal entry. *)
Lemma all_weak_spec (i d : Z) :
  0 <= i < row A -> IA A i <= d < IA A (i + 1) -> JA A d = i ->
  all_weak A (fasp_dcsr_getdiag 0 A) cap i = true <-> over_cap A cap i d.
Proof.
  intros Hi Hd Ed. unfold all_weak, over_cap, row_sum.
  rewrite andb_true_iff, Qgtb_gt, Qltb_lt. rewrite (diag_cell i d Hi Hd Ed).
  destruct (row_scale_sum_spec A i ltac:(pose proof (offsets_range i Hi); lia))
    as [_ E].
  rewrite E. tauto.
Qed.

Lemma strong_spec (i p d : Z) :
  0 <= i < row A -> IA A i <= d < IA A (i + 1) -> JA A d = i ->
  strong A cap th i p = true <->
  JA A p <> i /\ ~ over_cap A cap i d /\
  (aval A p < REAL_mul th (row_scale A i))%Q.
Proof.
  intros Hi Hd Ed. unfold strong.
  rewrite !andb_true_iff, !negb_true_iff, Z.eqb_neq, Qltb_lt.
  rewrite <- (all_weak_spec i d Hi Hd Ed).
  destruct (all_weak A (fasp_dcsr_getdiag 0 A) cap i); intuition congruence.
Qed.

Lemma generate_S_compacted : compacted A cap th (generate_S A cap th).
Proof.
  unfold generate_S. cbv zeta.
  set (mk := for_loop 0 (row A) (mark_row A th cap (fasp_dcsr_getdiag 0 A))
               (fasp_iarray_cp (IA A (row A) - IA A 0) (JA A) (zeros 0))).
  destruct (compress_spec mk (fasp_iarray_cp (row A + 1) (IA A) (zeros 0)))
    as (sia & s & idx & E & (I1 & I2 & I3) & J).
  rewrite E.
  assert (EK : kept_before mk (nnz A) = strong_before A cap th (row A)).
  { rewrite <- (valid_last _ HA).
    pose proof (kept_is_strong (Z.to_nat (row A))) as G.
    pose proof (valid_row _ HA).
    replace (Z.of_nat (Z.to_nat (row A))) with (row A) in G by lia.
    apply G. lia. }
  assert (EJ : forall k, 0 <= k < row A ->
                         sia k = Z.of_nat (length (strong_before A cap th k))).
  { intros k Hk. rewrite (J k Hk).
    pose proof (kept_is_strong (Z.to_nat k)) as G.
    replace (Z.of_nat (Z.to_nat k)) with k in G by lia.
    fold mk in G. rewrite G by lia. reflexivity. }
  assert (EM : map mk (strong_before A cap th (row A))
               = map (JA A) (strong_before A cap th (row A))).
  { apply map_ext_in. intros p Hp. unfold strong_before in Hp.
    apply in_flat_map in Hp. destruct Hp as (i & Hi & Hp).
    apply zrange_In in Hi. unfold strong_row in Hp. apply filter_In in Hp.
    destruct Hp as [Hp Hs]. apply zrange_In in Hp.
    unfold mk. rewrite (marked_cells i p Hi Hp). now rewrite Hs. }
  rewrite EK in I1, I3. rewrite EM in I3.
  destruct (Z.gtb_spec idx 0) as [Hpos | Hzero]; unfold compacted;
    cbn [irow icol innz iIA iJA].
  - split; [reflexivity | split; [reflexivity | split; [exact I1|]]].
    split; [exact I3 | split].
    + intros i Hi. rewrite upd_other by lia. now apply EJ.
    + intros _. apply upd_same.
  - assert (Hz : idx = 0) by lia.
    split; [reflexivity | split; [reflexivity | split; [lia|]]].
    split; [rewrite Hz in I3; exact I3 | split].
    + exact EJ.
    + lia.
Qed.

End Matrix.

(** C1 (amended).  For a matrix [A] of valid structure in which every row
    holds its diagonal at one position, [generate_S] gives the compacted
    graph of the strong edges: the first [S.nnz] cells of the column array
    of [S] hold the columns of the strong positions, row after row in the
    order of [A], [S.IA[i]] counts the strong positions of the rows before
    [i], and [S.IA[row] = S.nnz] when there is an edge.  A position [(i, j)]
    is strong exactly when it is off the diagonal, the row is not over the
    cap, and [a_ij < th * min_k a_ik] strictly, where the minimum is taken
    over row [i] and capped above by [0]; the row is over the cap when
    [cap < 1] and [|sum_j a_ij| / max (SMALLREAL, |a_ii|) > cap].  The
    product, the sum (taken in the order of the row) and the quotient are
    the ones the machine computes, rounded: this holds for every rounding,
    the exact results among them. *)
Theorem C1_strong_edges (A : dCSRmat) (cap th : Q) :
  csr_valid A -> diagonal_once A ->
  compacted A cap th (generate_S A cap th) /\
  (forall i, 0 <= i < row A -> capped_min (row_vals A i) (row_scale A i)) /\
  (forall i p d,
      0 <= i < row A -> IA A i <= p < IA A (i + 1) ->
      IA A i <= d < IA A (i + 1) -> JA A d = i ->
      (strong A cap th i p = true <->
       JA A p <> i /\ ~ over_cap A cap i d /\
       (aval A p < REAL_mul th (row_scale A i))%Q)).
Proof.
  intros HA HD. split; [|split].
  - now apply generate_S_compacted.
  - intros i Hi. apply row_scale_sum_spec.
    pose proof (offsets_range A HA i Hi). lia.
  - intros i p d Hi _ Hd Ed. now apply strong_spec.
Qed.

End WithConstants.

Lemma boundary_operator_valid : csr_valid Samples.boundary_operator.
Proof.
  constructor.
  - cbn. lia.
  - cbn. lia.
  - reflexivity.
  - reflexivity.
  - intros i Hi. change (row Samples.boundary_operator) with 3 in Hi.
    assert (H : i = 0 \/ i = 1 \/ i = 2) by lia.
    destruct H as [-> | [-> | ->]]; vm_compute; congruence.
  - intros p Hp. change (nnz Samples.boundary_operator) with 5 in Hp.
    assert (H : p = 0 \/ p = 1 \/ p = 2 \/ p = 3 \/ p = 4) by lia.
    destruct H as [-> | [-> | [-> | [-> | ->]]]]; vm_compute; split; congruence.
Qed.

Lemma boundary_operator_diagonal : diagonal_once Samples.boundary_operator.
Proof.
  intros i Hi. change (row Samples.boundary_operator) with 3 in Hi.
  assert (H : i = 0 \/ i = 1 \/ i = 2) by lia.
  destruct H as [-> | [-> | ->]].
  - exists 0. split; [vm_compute; split; congruence | split; [reflexivity|]].
    intros p Hp Ep.
    change (IA Samples.boundary_operator 0) with 0 in Hp.
    change (IA Samples.boundary_operator (0 + 1)) with 3 in Hp.
    assert (H : p = 0 \/ p = 1 \/ p = 2) by lia.
    destruct H as [-> | [-> | ->]]; [reflexivity | discriminate Ep | discriminate Ep].
  - exists 3. split; [vm_compute; split; congruence | split; [reflexivity|]].
    intros p Hp Ep.
    change (IA Samples.boundary_operator 1) with 3 in Hp.
    change (IA Samples.boundary_operator (1 + 1)) with 4 in Hp. lia.
  - exists 4. split; [vm_compute; split; congruence | split; [reflexivity|]].
    intros p Hp Ep.
    change (IA Samples.boundary_operator 2) with 4 in Hp.
    change (IA Samples.boundary_operator (2 + 1)) with 5 in Hp. lia.
Qed.

(** The 3 x 3 sample, with the cap [0.9] and the threshold [1/2]. *)
Lemma C1_strong_edges_witness :
  let K := Samples.sample_constants in
  let A := Samples.boundary_operator in
  compacted A (9 # 10) (1 # 2) (generate_S A (9 # 10) (1 # 2)) /\
  (forall i, 0 <= i < row A -> capped_min (row_vals A i) (row_scale A i)) /\
  (forall i p d,
      0 <= i < row A -> IA A i <= p < IA A (i + 1) ->
      IA A i <= d < IA A (i + 1) -> JA A d = i ->
      (strong A (9 # 10) (1 # 2) i p = true <->
       JA A p <> i /\ ~ over_cap A (9 # 10) i d /\
       (aval A p < REAL_mul (1 # 2) (row_scale A i))%Q)).
Proof.
  cbv zeta.
  apply (@C1_strong_edges Samples.sample_constants Samples.boundary_operator
           (9 # 10) (1 # 2)).
  - exact boundary_operator_valid.
  - exact boundary_operator_diagonal.
Defined.

(** C1 as stated fails at the threshold itself: in the first row
    [4, -1, -2] of the sample, with the threshold [1/2], the off-diagonal
    entry [-1] (position [1], column [1]) satisfies
    [a_ij <= th * min_k a_ik] and the row is not over the cap, yet the
    graph keeps the column [2] only.  (No rounding is involved: the
    product [1/2 * -2] and the sums of the rows are exact on any binary
    machine.) *)
Lemma C1_threshold_entry_is_weak :
  let K := Samples.sample_constants in
  let A := Samples.boundary_operator in
  let S := generate_S A (9 # 10) (1 # 2) in
  row_cols A 0 = [0; 1; 2] /\
  (aval A 1 <= (1 # 2) * row_scale A 0)%Q /\
  all_weak A (fasp_dcsr_getdiag 0 A) (9 # 10) 0 = false /\
  innz S = 1 /\ to_list (iIA S) 4 = [0; 1; 1; 1] /\ irow_cols S 0 = [2].
Proof.
  cbv zeta. split; [reflexivity | split; [|repeat split]].
  vm_compute. discriminate.
Qed.

End StrengthFacts.

(* ------------------------------------------------------------------ *)
(** ** coarsening_rs.c: phase two of the C/F splitting *)

Module SplittingFacts.
Import BlaSparseCSR StrengthGraph Coarsening Covering.

Lemma existsb_snoc {X : Type} (f : X -> bool) (l : list X) (x : X) :
  existsb f (l ++ [x]) = existsb f l || f x.
Proof. rewrite existsb_app. cbn. now rewrite orb_false_r. Qed.

Lemma coarse_not_fine : CGPT <> FGPT.
Proof. discriminate. Qed.

(** [ci_tilde_mark |= i] is zero only for the mark [0] and the vertex [0]. *)
Lemma mark_zero (cm i : Z) : Z.lor cm i = 0 -> cm = 0 /\ i = 0.
Proof. apply Z.lor_eq_0_iff. Qed.

(** The first loop over the row of a fine vertex [i]: the cells of its
    coarse strong neighbours take [i]. *)
Lemma marking_cells (S : iCSRmat) (vec ga : arr Z) (i b e k : Z) :
  for_loop b e
    (fun ga ji => let j := iJA S ji in if vec j =? CGPT then upd ga j i else ga) ga k
  = if existsb (fun ji => (iJA S ji =? k) && (vec (iJA S ji) =? CGPT)) (zrange b e)
    then i else ga k.
Proof.
  destruct (Z.le_gt_cases e b) as [H | H].
  - rewrite for_loop_empty by lia. now rewrite zrange_empty by lia.
  - apply (for_loop_inv
             (fun j t =>
                t k = if existsb (fun ji => (iJA S ji =? k) && (vec (iJA S ji) =? CGPT))
                                 (zrange b j)
                      then i else ga k)).
    + lia.
    + now rewrite zrange_empty by lia.
    + intros j t Hj IH. cbv zeta. rewrite zrange_last by lia. rewrite existsb_snoc.
      destruct (vec (iJA S j) =? CGPT).
      * unfold upd. rewrite IH. rewrite andb_true_r.
        destruct (Z.eqb_spec k (iJA S j)); destruct (Z.eqb_spec (iJA S j) k);
          try lia.
        { now rewrite orb_true_r. }
        { now rewrite orb_false_r. }
      * rewrite IH. rewrite andb_false_r. now rewrite orb_false_r.
Qed.

(** Labels that only move from fine to coarse keep a vertex done. *)
Lemma pairs_covered_mono (S : iCSRmat) (vec vec' : arr Z) (i : Z) :
  (forall k, vec' k = FGPT -> vec k = FGPT) ->
  (forall k, vec k = CGPT -> vec' k = CGPT) ->
  pairs_covered S vec i -> pairs_covered S vec' i.
Proof.
  intros HF HC H j Hj Fj. destruct (H j Hj (HF j Fj)) as (k & K1 & K2 & K3).
  exists k. split; [exact K1 | split; [exact K2 | now apply HC]].
Qed.

Lemma upd_coarse_fine (vec : arr Z) (j k : Z) :
  upd vec j CGPT k = FGPT -> vec k = FGPT.
Proof.
  unfold upd. destruct (Z.eqb_spec k j); [intros H; now apply coarse_not_fine in H | auto].
Qed.

Lemma upd_coarse_coarse (vec : arr Z) (j k : Z) :
  vec k = CGPT -> upd vec j CGPT k = CGPT.
Proof. unfold upd. destruct (Z.eqb_spec k j); auto. Qed.

Section PhaseTwo.
Variables (S : iCSRmat) (row : Z).
Hypothesis Hcols : graph_cols S row.

Lemma marked_sound (st : phase2) (i k : Z) :
  examined S row st i -> 0 <= k < row ->
  let ga' :=
    for_loop (iIA S i) (iIA S (i + 1))
      (fun ga ji => let j := iJA S ji in
                    if vec2 st j =? CGPT then upd ga j i else ga)
      (graph_array st) in
  ga' k <= i /\ (ga' k = i -> vec2 st k = CGPT /\ neighbour S i k).
Proof.
  intros [Ha Hb Hc He] Hk. cbv zeta. rewrite marking_cells.
  destruct (existsb _ _) eqn:E.
  - apply existsb_exists in E. destruct E as (ji & Hin & Hji).
    apply zrange_In in Hin. apply andb_true_iff in Hji. destruct Hji as [E1 E2].
    apply Z.eqb_eq in E1, E2. rewrite E1 in E2.
    split; [lia|]. intros _. split; [exact E2|]. exists ji. now split.
  - apply Hb. exact Hk.
Qed.

Lemma not_empty_shared (vec ga : arr Z) (i j : Z) :
  (forall k, 0 <= k < row -> ga k = i -> vec k = CGPT /\ neighbour S i k) ->
  0 <= j < row -> set_empty S ga i j = false ->
  exists k, neighbour S i k /\ neighbour S j k /\ vec k = CGPT.
Proof.
  intros Hg Hj E. unfold set_empty in E. apply negb_false_iff in E.
  apply existsb_exists in E. destruct E as (jj & Hin & Hjj).
  apply zrange_In in Hin. apply Z.eqb_eq in Hjj.
  destruct (Hg (iJA S jj) (Hcols j jj Hj Hin) Hjj) as [C N].
  exists (iJA S jj). split; [exact N | split; [|exact C]]. exists jj. now split.
Qed.

(** One turn of the loop of phase two. *)
Lemma phase2_body_examined (st st' : phase2) (i i' : Z) :
  examined S row st i -> 0 <= i < row ->
  phase2_body S st i = (st', i') ->
  examined S row st' (i' + 1) /\ 0 <= i' + 1 /\
  turns_left row st' (i' + 1) < turns_left row st i.
Proof.
  intros X Hi E. pose proof X as [Ha Hb Hc He].
  unfold phase2_body in E. cbv zeta in E.
  set (mark := Z.lor (ci_tilde_mark st) i) in *.
  set (tilde := if negb (mark =? 0) then -1 else ci_tilde st) in *.
  assert (T : tilde > -1 -> i = 0 /\ mark = 0 /\ vec2 st tilde = CGPT).
  { unfold tilde. destruct (Z.eqb_spec mark 0) as [Em | Em]; cbn [negb]; [|lia].
    intros Hgt. destruct (mark_zero _ _ Em) as [E1 E2].
    split; [exact E2 | split; [exact Em | now apply He]]. }
  assert (T' : mark = 0 -> tilde > -1 -> vec2 st tilde = CGPT)
    by (intros _ Hgt; now apply T).
  destruct (Z.eqb_spec (vec2 st i) FGPT) as [EF | EF].
  - pose proof (fun k Hk => marked_sound st i k X Hk) as Hb'. cbv zeta in Hb'.
    set (ga' := for_loop (iIA S i) (iIA S (i + 1))
                  (fun ga ji => let j := iJA S ji in
                                if vec2 st j =? CGPT then upd ga j i else ga)
                  (graph_array st)) in *.
    destruct (find _ _) as [ji|] eqn:Efind.
    + apply find_some in Efind. destruct Efind as [Hin Hf].
      apply zrange_In in Hin. apply andb_true_iff in Hf. destruct Hf as [Fj _].
      apply Z.eqb_eq in Fj.
      destruct (Z.eqb_spec (C_i_nonempty st) 0) as [EC | EC]; cbn [negb] in E.
      * (* the neighbour becomes coarse, for now *)
        injection E as <- <-. replace (i - 1 + 1) with i by lia.
        split; [|split; [lia | unfold turns_left; cbn [C_i_nonempty]; lia]].
        constructor; cbn [vec2 graph_array ci_tilde ci_tilde_mark C_i_nonempty].
        { intros i0 Hi0 F0. apply (pairs_covered_mono S (vec2 st)).
          - intros k. apply upd_coarse_fine.
          - intros k. apply upd_coarse_coarse.
          - apply Ha; [exact Hi0 | now apply upd_coarse_fine in F0]. }
        { intros k Hk. destruct (Hb' k Hk) as [B1 B2]. split; [exact B1|].
          intros Ek. destruct (B2 Ek) as [C N]. split; [|exact N].
          now apply upd_coarse_coarse. }
        { now right. }
        { intros _ _. apply upd_same. }
      * (* the vertex itself becomes coarse *)
        assert (C_i_nonempty st = 1) by (destruct Hc; [contradiction | assumption]).
        destruct (Z.gtb_spec tilde (-1)) as [ET | ET]; injection E as <- <-.
        { destruct (T ltac:(lia)) as (E0 & Em & Ct).
          split; [|split; [lia | unfold turns_left; cbn [C_i_nonempty]; lia]].
          constructor; cbn [vec2 graph_array ci_tilde ci_tilde_mark C_i_nonempty].
          - intros i0 Hi0 F0. exfalso. assert (i0 = i) by lia. subst i0.
            unfold upd in F0. rewrite Z.eqb_refl in F0.
            destruct (Z.eqb_spec i tilde) as [Et | Et].
            + rewrite <- Et in Ct. rewrite EF in Ct. now apply coarse_not_fine.
            + now apply coarse_not_fine.
          - intros k Hk. destruct (Hb' k Hk) as [B1 B2]. split; lia.
          - now left.
          - intros _ Hgt. lia. }
        { split; [|split; [lia | unfold turns_left; cbn [C_i_nonempty]; lia]].
          constructor; cbn [vec2 graph_array ci_tilde ci_tilde_mark C_i_nonempty].
          - intros i0 Hi0 F0. pose proof (upd_coarse_fine _ _ _ F0) as F1.
            assert (i0 <> i).
            { intros ->. unfold upd in F0. rewrite Z.eqb_refl in F0.
              now apply coarse_not_fine. }
            apply (pairs_covered_mono S (vec2 st)).
            + intros k. apply upd_coarse_fine.
            + intros k. apply upd_coarse_coarse.
            + apply Ha; [lia | exact F1].
          - intros k Hk. destruct (Hb' k Hk) as [B1 B2]. split; lia.
          - now left.
          - intros _ Hgt. lia. }
    + (* every fine neighbour shares a coarse one *)
      injection E as <- <-.
      split; [|split; [lia | unfold turns_left; cbn [C_i_nonempty]; lia]].
      constructor; cbn [vec2 graph_array ci_tilde ci_tilde_mark C_i_nonempty].
      * intros i0 Hi0 F0. destruct (Z.eq_dec i0 i) as [-> | Hne].
        { intros j (ji & Hji & Ej) Fj.
          pose proof (find_none _ _ Efind ji ltac:(apply zrange_In; exact Hji)) as N.
          cbv beta zeta in N. rewrite Ej in N. rewrite Fj, Z.eqb_refl in N.
          cbn [andb] in N.
          apply (not_empty_shared (vec2 st) ga' i j); [|  | exact N].
          - intros k Hk Ek. now apply Hb'.
          - rewrite <- Ej. now apply (Hcols i ji). }
        { apply Ha; [lia | exact F0]. }
      * intros k Hk. destruct (Hb' k Hk) as [B1 B2]. split; lia.
      * exact Hc.
      * exact T'.
  - injection E as <- <-.
    split; [|split; [lia | unfold turns_left; cbn [C_i_nonempty]; lia]].
    constructor; cbn [vec2 graph_array ci_tilde ci_tilde_mark C_i_nonempty].
    + intros i0 Hi0 F0. assert (i0 <> i) by (intros ->; contradiction).
      apply Ha; [lia | exact F0].
    + intros k Hk. destruct (Hb k Hk) as [B1 B2]. split; lia.
    + exact Hc.
    + exact T'.
Qed.

(** The loop of phase two comes to its end within the turns that are
    left, and then every fine vertex is done. *)
Lemma phase2_loop_covers (fuel : nat) : forall st i,
  examined S row st i -> 0 <= i -> turns_left row st i <= Z.of_nat fuel ->
  exists st', phase2_loop fuel S row st i = Some st' /\
              fine_pairs_covered S row (vec2 st').
Proof.
  induction fuel as [|fuel IH]; intros st i X Hi Hf; cbn [phase2_loop];
    destruct (Z.ltb_spec i row) as [L | G].
  - exfalso. unfold turns_left in Hf. destruct (flag_binary _ _ _ _ X); lia.
  - exists st. split; [reflexivity|]. intros i0 Hi0 F0.
    apply (done_before _ _ _ _ X); [lia | exact F0].
  - destruct (phase2_body S st i) as [st' i'] eqn:E.
    destruct (phase2_body_examined st st' i i' X ltac:(lia) E) as (X' & Hi' & Hm).
    apply IH; [exact X' | exact Hi' | lia].
  - exists st. split; [reflexivity|]. intros i0 Hi0 F0.
    apply (done_before _ _ _ _ X); [lia | exact F0].
Qed.

(** Phase two returns, whatever the labels it starts from, and leaves every
    fine vertex with a coarse strong neighbour in common with each of its
    fine strong neighbours. *)
Lemma phase_two_covers (v : arr Z) (c : Z) :
  exists v' c', phase_two S row v c = Some (v', c') /\ fine_pairs_covered S row v'.
Proof.
  unfold phase_two. cbv zeta.
  match goal with
  | |- context [phase2_loop ?f S row ?st0 0] =>
      destruct (phase2_loop_covers f st0 0) as (st' & E & Hc)
  end.
  - constructor; cbn [vec2 graph_array ci_tilde ci_tilde_mark C_i_nonempty].
    + intros i' Hi'. lia.
    + intros k Hk. rewrite (cellwise_loop (fun _ _ => -1)).
      destruct (Z.leb_spec 0 k); destruct (Z.ltb_spec k row); cbn [andb]; lia.
    + now left.
    + intros H. discriminate H.
  - lia.
  - unfold turns_left. cbn [C_i_nonempty]. lia.
  - rewrite E. exists (vec2 st'), (col2 st'). now split.
Qed.

End PhaseTwo.

(** The graph of [generate_S] has its columns among the vertices, for a
    square matrix that has a strong edge. *)
Lemma generate_S_cols {K : Constants} (A : dCSRmat) (cap th : Q) :
  Rows.csr_valid A -> Strength.compacted A cap th (generate_S A cap th) ->
  row A = col A -> 0 < innz (generate_S A cap th) ->
  graph_cols (generate_S A cap th) (row A).
Proof.
  intros HA (_ & _ & En & Ej & Ei & El) Hsq Hpos i p Hi Hp.
  set (G := generate_S A cap th) in *.
  assert (Hlen : forall k, 0 <= k <= row A ->
            Z.of_nat (length (Strength.strong_before A cap th k)) <= innz G).
  { intros k Hk. rewrite En. unfold Strength.strong_before.
    rewrite (zrange_split 0 k (row A)) by lia.
    rewrite flat_map_app, length_app. lia. }
  assert (Hoff : forall k, 0 <= k <= row A -> 0 <= iIA G k <= innz G).
  { intros k Hk. destruct (Z.eq_dec k (row A)) as [-> | Hne].
    - rewrite (El Hpos). lia.
    - rewrite Ei by lia. pose proof (Hlen k Hk). lia. }
  pose proof (Hoff i ltac:(lia)). pose proof (Hoff (i + 1) ltac:(lia)).
  assert (HpN : 0 <= p < innz G) by lia.
  assert (Ep : iJA G p = nth (Z.to_nat p) (to_list (iJA G) (innz G)) 0).
  { unfold to_list. now rewrite nth_zrange. }
  rewrite Ej in Ep.
  assert (Hq : (Z.to_nat p < length (Strength.strong_before A cap th (row A)))%nat)
    by lia.
  rewrite (nth_indep _ 0 (JA A 0)) in Ep by (rewrite length_map; exact Hq).
  rewrite map_nth in Ep.
  pose proof (nth_In _ 0 Hq) as Hin. rewrite Ep.
  set (q := nth (Z.to_nat p) (Strength.strong_before A cap th (row A)) 0) in *.
  unfold Strength.strong_before in Hin. apply in_flat_map in Hin.
  destruct Hin as (r & Hr & Hin). apply zrange_In in Hr.
  unfold Strength.strong_row in Hin. apply filter_In in Hin.
  destruct Hin as [Hin _]. apply zrange_In in Hin.
  destruct HA as [V1 V2 V3 V4 V5 V6]. rewrite Hsq. apply V6.
  apply (TransposeFacts.row_in_range (row A) (nnz A) (IA A)) with (i := r);
    assumption.
Qed.

Section Splitting.
Context {K : Constants} {L : LinkList}.

(** C2 (amended).  With an interpolation type other than the standard one,
    [form_coarse_level] returns whenever its phase one does, and after it
    every vertex labelled fine shares, with each of its strong neighbours
    that is labelled fine, a strong neighbour that is labelled coarse
    (which is then within one hop of it, and of that neighbour). *)
Theorem C2_fine_pairs_share_coarse (A : dCSRmat) (S : iCSRmat) (vertices : arr Z)
  (row interp_type : Z) :
  graph_cols S row -> interp_type <> INTERP_STD ->
  phase_one A S vertices row <> None ->
  exists v c, form_coarse_level A S vertices row interp_type = Some (v, c) /\
              fine_pairs_covered S row v.
Proof.
  intros Hcols Ht H1. unfold form_coarse_level.
  destruct (phase_one A S vertices row) as [[v c]|]; [|contradiction].
  destruct (Z.eqb_spec interp_type INTERP_STD) as [E | _]; [contradiction|].
  cbn [negb]. now apply phase_two_covers.
Qed.

End Splitting.

Lemma cycle_graph_cols :
  graph_cols (@generate_S Samples.sample_constants Samples.cycle_operator
                (9 # 10) (3 # 10)) 3.
Proof.
  intros i p Hi Hp. assert (H : i = 0 \/ i = 1 \/ i = 2) by lia.
  destruct H as [-> | [-> | ->]].
  - change (0 <= p < 1) in Hp. assert (p = 0) by lia. subst p.
    vm_compute. split; congruence.
  - change (1 <= p < 2) in Hp. assert (p = 1) by lia. subst p.
    vm_compute. split; congruence.
  - change (2 <= p < 3) in Hp. assert (p = 2) by lia. subst p.
    vm_compute. split; congruence.
Qed.

(** The cycle of three vertices, with the default cap and threshold. *)
Lemma C2_fine_pairs_share_coarse_witness :
  let K := Samples.sample_constants in
  let L := bucket_lists in
  let A := Samples.cycle_operator in
  let S := generate_S A (9 # 10) (3 # 10) in
  exists v c, form_coarse_level A S (zeros 0) 3 INTERP_REG = Some (v, c) /\
              fine_pairs_covered S 3 v.
Proof.
  cbv zeta.
  apply (@C2_fine_pairs_share_coarse Samples.sample_constants bucket_lists
           Samples.cycle_operator
           (@generate_S Samples.sample_constants Samples.cycle_operator
              (9 # 10) (3 # 10))
           (zeros 0) 3 1).
  - exact cycle_graph_cols.
  - vm_compute. discriminate.
  - vm_compute. discriminate.
Defined.

(** On the cycle, phase one leaves the labels coarse, fine, fine, and phase
    two makes the last vertex coarse. *)
Example cycle_splitting :
  let K := Samples.sample_constants in
  let L := bucket_lists in
  let A := Samples.cycle_operator in
  let S := generate_S A (9 # 10) (3 # 10) in
  option_map (fun r => (to_list (fst r) 3, snd r)) (phase_one A S (zeros 0) 3)
  = Some ([CGPT; FGPT; FGPT], 1) /\
  option_map (fun r => (to_list (fst r) 3, snd r))
    (form_coarse_level A S (zeros 0) 3 INTERP_REG)
  = Some ([CGPT; FGPT; CGPT], 2).
Proof. vm_compute. split; reflexivity. Qed.

(** C2 as stated fails: in the matrix with the rows [2, -1] and [0, 2] the
    first vertex depends strongly on the second and the second is isolated;
    the splitting labels the first fine and the second isolated, so no
    vertex is coarse. *)
Lemma C2_fine_vertex_without_coarse :
  let K := Samples.sample_constants in
  let L := bucket_lists in
  let A := Samples.one_way_operator in
  let S := generate_S A (9 # 10) (3 # 10) in
  match form_coarse_level A S (zeros 0) 2 INTERP_REG with
  | Some (v, c) =>
      to_list v 2 = [FGPT; ISPT] /\ c = 0 /\ ~ two_hop_covered S 2 v
  | None => False
  end.
Proof.
  cbv zeta.
  destruct (@form_coarse_level bucket_lists Samples.sample_constants
              Samples.one_way_operator _ (zeros 0) 2 INTERP_REG)
    as [[v c]|] eqn:E; vm_compute in E; [|discriminate E].
  injection E as <- <-. split; [reflexivity | split; [reflexivity|]].
  intros H. destruct (H 0 ltac:(lia) eq_refl) as (k & Hk & Ck & _).
  assert (Hk' : k = 0 \/ k = 1) by lia.
  destruct Hk' as [-> | ->]; vm_compute in Ck; discriminate Ck.
Qed.

End SplittingFacts.

(* ------------------------------------------------------------------ *)
(** ** amg_setup_rs.c: a level without strong edges *)

Module SetupFacts.
Import BlaSparseCSR StrengthGraph Coarsening Interpolation AmgSetupRS.

(** A loop that rewrites cell [i] in turn [i], from [lo] on. *)
Lemma cellwise_from {T : Type} (g : T -> Z -> T) (lo hi : Z) (y : Z -> T) (k : Z) :
  for_loop lo hi (fun (y : Z -> T) i => upd y i (g (y i) i)) y k
  = if (lo <=? k) && (k <? hi) then g (y k) k else y k.
Proof.
  destruct (Z.le_gt_cases hi lo) as [H | H].
  - rewrite for_loop_empty by lia. zbool.
  - apply (for_loop_inv
             (fun j (t : Z -> T) => (t k = if (lo <=? k) && (k <? j) then g (y k) k else y k))).
    + lia.
    + zbool.
    + intros j t Hj Ht. unfold upd. destruct (Z.eqb_spec k j) as [-> | Hne].
      * rewrite Ht. zbool.
      * rewrite Ht. zbool.
Qed.

Section Setup.
Context {K : Constants} {D : SmootherData} {L : LinkList}
        {EC : Coarsening.Externals} {EI : Interpolation.Externals}
        {ES : AmgSetupRS.Externals}.

(** What the bookkeeping after the loop leaves in a level. *)
Lemma setup_finish_levels (st : setup_state) :
  exists m, setup_finish st = Returned (status st) m (param st) /\
            (forall l, 0 <= l <= level st -> num_levels (m l) = level st + 1) /\
            (forall l, A (m l) = A (mgl st l) /\ P (m l) = P (mgl st l) /\
                       R (m l) = R (mgl st l)).
Proof.
  unfold setup_finish. cbv zeta. eexists. split; [reflexivity|].
  split.
  - intros l Hl.
    rewrite (cellwise_from
               (fun lv _ => set_work (set_num_levels lv (level st + 1))
                              (fasp_dvec_create (row (A lv)))
                              (fasp_dvec_create (row (A lv))) (zeros 0%Q))).
    destruct (Z.leb_spec 1 l); destruct (Z.ltb_spec l (level st + 1)); cbn [andb];
      try lia; [reflexivity|].
    assert (l = 0) by lia. subst l. rewrite upd_same. reflexivity.
  - intros l.
    rewrite (cellwise_from
               (fun lv _ => set_work (set_num_levels lv (level st + 1))
                              (fasp_dvec_create (row (A lv)))
                              (fasp_dvec_create (row (A lv))) (zeros 0%Q))).
    destruct ((1 <=? l) && (l <? level st + 1)); unfold upd;
      destruct (Z.eqb_spec l 0) as [-> | Hne]; cbn; auto.
Qed.

(** C6, as the code has it.  When the strength graph of the current level
    has no edge, the coarsening reports [RUN_FAIL], the loop of the setup
    stops at this level, the levels built so far are kept and the number of
    levels is recorded: but the status that the setup returns is
    [RUN_FAIL], a negative status, and not [SUCCESS]. *)
Theorem C6_zero_edges_status (turns : nat) (max_lv : Z) (st : setup_state) :
  let lv := mgl st (level st) in
  let prm :=
    if (coarsening_type (param st) =? COARSE_AC)
       && (level st >=? aggressive_level (param st))
    then set_coarsening_type (param st) COARSE_RS else param st in
  row (A lv) > ZMAX (coarse_dof (param st)) 50 ->
  level st < max_lv - 1 ->
  ILU_levels (param st) <= level st ->
  (coarsening_type prm = COARSE_RS \/ coarsening_type prm = COARSE_AC \/
   coarsening_type prm = COARSE_CR) ->
  innz (generate_S (A lv) (max_row_sum prm) (strong_threshold prm)) = 0 ->
  exists m,
    setup_loop (Datatypes.S turns) max_lv st = Returned RUN_FAIL m prm /\
    RUN_FAIL < 0 /\
    (forall l, 0 <= l <= level st -> num_levels (m l) = level st + 1) /\
    (forall l, A (m l) = A (mgl st l) /\ P (m l) = P (mgl st l) /\
               R (m l) = R (mgl st l)).
Proof.
  intros lv prm Hrow Hlev Hilu Htype Hnnz.
  cbn [setup_loop].
  replace (row (A (mgl st (level st))) >? ZMAX (coarse_dof (param st)) 50) with true
    by (symmetry; apply Z.gtb_lt; fold lv; lia).
  replace (level st <? max_lv - 1) with true by (symmetry; apply Z.ltb_lt; lia).
  cbn [andb]. unfold setup_turn. cbv zeta.
  replace (level st <? ILU_levels (param st)) with false
    by (symmetry; apply Z.ltb_ge; lia).
  fold lv. fold prm. unfold fasp_amg_coarsening_rs. cbv zeta.
  replace ((coarsening_type prm =? COARSE_RS) || (coarsening_type prm =? COARSE_AC)
           || (coarsening_type prm =? COARSE_CR)) with true.
  2:{ symmetry. destruct Htype as [-> | [-> | ->]]; rewrite Z.eqb_refl;
      rewrite ?orb_true_r; reflexivity. }
  rewrite Hnnz. cbn [Z.eqb Coarsening.status]. change (RUN_FAIL <? 0) with true.
  cbv iota.
  match goal with
  | |- context [setup_finish ?s] =>
      destruct (setup_finish_levels s) as (m & E & Hn & Hk)
  end.
  cbn [status param level mgl] in *. exists m.
  split; [exact E | split; [reflexivity | split; [exact Hn|]]].
  intros l. destruct (Hk l) as (E1 & E2 & E3). rewrite E1, E2, E3.
  unfold upd. destruct (Z.eqb_spec l (level st)) as [-> | _]; cbn; auto.
Qed.

End Setup.

(** The identity matrix with 501 rows and the default parameters, at
    level [0]. *)
Lemma C6_zero_edges_status_witness :
  let K := Samples.sample_constants in
  let D := Samples.no_data in
  let L := bucket_lists in
  let EC := Samples.idle_coarsening in
  let EI := Samples.idle_interpolation in
  let ES := Samples.idle_setup in
  let st := {| mgl := Samples.flat_levels (Samples.identity_operator 501);
               param := set_tentative_smooth Samples.default_param 1;
               vertices := zeros 0; S := Samples.empty_graph; level := 0;
               status := SUCCESS |} in
  exists m,
    setup_loop 20 20 st = Returned RUN_FAIL m (param st) /\
    RUN_FAIL < 0 /\
    (forall l, 0 <= l <= 0 -> num_levels (m l) = 0 + 1) /\
    (forall l, A (m l) = A (mgl st l) /\ P (m l) = P (mgl st l) /\
               R (m l) = R (mgl st l)).
Proof.
  cbv zeta.
  apply (@C6_zero_edges_status Samples.sample_constants Samples.no_data bucket_lists
           Samples.idle_coarsening Samples.idle_interpolation Samples.idle_setup
           19 20
           {| mgl := Samples.flat_levels (Samples.identity_operator 501);
              param := set_tentative_smooth Samples.default_param 1;
              vertices := zeros 0; S := Samples.empty_graph; level := 0;
              status := SUCCESS |}).
  - vm_compute. reflexivity.
  - vm_compute. reflexivity.
  - vm_compute. discriminate.
  - left. reflexivity.
  - vm_compute. reflexivity.
Defined.

(** The setup of the identity matrix with 501 rows, with the default
    parameters: one level, and the status [-100]. *)
Example identity_setup_status :
  let K := Samples.sample_constants in
  let D := Samples.no_data in
  let L := bucket_lists in
  let EC := Samples.idle_coarsening in
  let EI := Samples.idle_interpolation in
  let ES := Samples.idle_setup in
  match fasp_amg_setup_rs (Samples.flat_levels (Samples.identity_operator 501))
          Samples.default_param Samples.empty_graph with
  | Returned s m _ => s = -100 /\ num_levels (m 0) = 1
  | _ => False
  end.
Proof. vm_compute. split; reflexivity. Qed.

End SetupFacts.

(* ------------------------------------------------------------------ *)
(** ** coarsening_rs.c: the number of coarse vertices *)

Module CountFacts.
Import BlaSparseCSR StrengthGraph Coarsening Covering Transposed.

(** *** The bucket lists *)

Lemma entries_cons (m : Z) (l : list Z) (q : list (Z * list Z)) :
  entries ((m, l) :: q) = map (pair m) l ++ entries q.
Proof. reflexivity. Qed.

Lemma entries_pruned (m : Z) (l : list Z) (q : list (Z * list Z)) :
  entries (match l with [] => q | x :: t => (m, x :: t) :: q end)
  = map (pair m) l ++ entries q.
Proof. destruct l; reflexivity. Qed.

Lemma enter_entries (q : list (Z * list Z)) (m i : Z) (x : Z * Z) :
  In x (entries (bucket_enter q m i)) <-> x = (m, i) \/ In x (entries q).
Proof.
  induction q as [|[m0 l] q IH]; cbn [bucket_enter].
  - cbn. intuition.
  - destruct (Z.gtb_spec m m0) as [G | G]; [|destruct (Z.eqb_spec m m0) as [E | E]].
    + rewrite (entries_cons m [i]). cbn [map app In]. intuition.
    + subst m0. rewrite !entries_cons, map_app, !in_app_iff. cbn [map In]. intuition.
    + rewrite !entries_cons, !in_app_iff, IH. tauto.
Qed.

Lemma remove_sub (q : list (Z * list Z)) (m i : Z) (x : Z * Z) :
  In x (entries (bucket_remove q m i)) -> In x (entries q).
Proof.
  induction q as [|[m0 l] q IH]; cbn [bucket_remove]; [auto|].
  destruct (Z.eqb_spec m m0) as [E | E].
  - rewrite entries_pruned, entries_cons, !in_app_iff.
    intros [H | H]; [left | now right].
    apply in_map_iff in H. destruct H as (j & <- & Hj).
    apply filter_In in Hj. apply in_map. tauto.
  - rewrite !entries_cons, !in_app_iff. intros [H | H]; [now left | right; auto].
Qed.

Lemma bounded_entries (P : Z -> Prop) (q : list (Z * list Z)) :
  Forall (fun b => P (fst b)) q -> forall m j, In (m, j) (entries q) -> P m.
Proof.
  induction q as [|[m0 l] q IH]; intros F m j H; [contradiction|].
  inversion F as [|? ? F1 F2]; subst. rewrite entries_cons in H.
  apply in_app_or in H. destruct H as [H | H].
  - apply in_map_iff in H. destruct H as (k & E & _). injection E as <- _. exact F1.
  - now apply (IH F2 m j).
Qed.

Lemma enter_bounded (P : Z -> Prop) (q : list (Z * list Z)) (m i : Z) :
  P m -> Forall (fun b => P (fst b)) q ->
  Forall (fun b => P (fst b)) (bucket_enter q m i).
Proof.
  intros Pm. induction q as [|[m0 l] q IH]; intros F; cbn [bucket_enter].
  - constructor; [exact Pm | constructor].
  - inversion F as [|? ? F1 F2]; subst.
    destruct (m >? m0); [|destruct (m =? m0)].
    + constructor; [exact Pm | exact F].
    + constructor; [exact F1 | exact F2].
    + constructor; [exact F1 | now apply IH].
Qed.

Lemma remove_bounded (P : Z -> Prop) (q : list (Z * list Z)) (m i : Z) :
  Forall (fun b => P (fst b)) q ->
  Forall (fun b => P (fst b)) (bucket_remove q m i).
Proof.
  induction q as [|[m0 l] q IH]; intros F; cbn [bucket_remove]; [constructor|].
  inversion F as [|? ? F1 F2]; subst.
  destruct (m =? m0).
  - destruct (filter _ l); [exact F2 | constructor; [exact F1 | exact F2]].
  - constructor; [exact F1 | now apply IH].
Qed.

Lemma enter_sorted (q : list (Z * list Z)) (m i : Z) :
  decreasing q -> decreasing (bucket_enter q m i).
Proof.
  unfold decreasing. induction q as [|[m0 l] q IH]; intros H; cbn [bucket_enter].
  - constructor; constructor.
  - inversion H as [|? ? H1 H2]; subst.
    destruct (Z.gtb_spec m m0) as [G | G]; [|destruct (Z.eqb_spec m m0) as [E | E]].
    + constructor; [exact H|]. constructor; [cbn; lia|].
      apply (Forall_impl _ (P := fun b => fst (m0, l) > fst b)); [|exact H2].
      intros b Hb. cbn in *. lia.
    + constructor; [exact H1 | exact H2].
    + constructor; [now apply IH|].
      apply (enter_bounded (fun x => m0 > x)); [cbn; lia | exact H2].
Qed.

Lemma remove_sorted (q : list (Z * list Z)) (m i : Z) :
  decreasing q -> decreasing (bucket_remove q m i).
Proof.
  unfold decreasing. induction q as [|[m0 l] q IH]; intros H; cbn [bucket_remove];
    [constructor|].
  inversion H as [|? ? H1 H2]; subst.
  destruct (m =? m0).
  - destruct (filter _ l); [exact H1 | constructor; [exact H1 | exact H2]].
  - constructor; [now apply IH|].
    apply (remove_bounded (fun x => m0 > x)). exact H2.
Qed.

(** A vertex that is removed from the bucket of its measure is gone from
    that measure. *)
Lemma remove_gone (q : list (Z * list Z)) (m i : Z) :
  decreasing q -> ~ In (m, i) (entries (bucket_remove q m i)).
Proof.
  unfold decreasing. induction q as [|[m0 l] q IH]; intros H; cbn [bucket_remove];
    [auto|].
  inversion H as [|? ? H1 H2]; subst.
  destruct (Z.eqb_spec m m0) as [E | E].
  - subst m0. rewrite entries_pruned, in_app_iff. intros [G | G].
    + apply in_map_iff in G. destruct G as (j & Ej & Hj). injection Ej as ->.
      apply filter_In in Hj. destruct Hj as [_ Hj]. rewrite Z.eqb_refl in Hj.
      discriminate.
    + pose proof (bounded_entries (fun x => m > x) q H2 m i G). cbn in *. lia.
  - rewrite entries_cons, in_app_iff. intros [G | G].
    + apply in_map_iff in G. destruct G as (j & Ej & _). injection Ej as Em _.
      now apply E.
    + now apply IH.
Qed.

Lemma head_entry (q : list (Z * list Z)) (i : Z) :
  bucket_head q = Some i -> exists m, In (m, i) (entries q).
Proof.
  destruct q as [|[m [|j l]] q]; cbn [bucket_head]; try discriminate.
  intros E. injection E as ->. exists m. rewrite entries_cons. now left.
Qed.

(** *** Counting the coarse vertices *)

Lemma coarse_count_ext (v v' : arr Z) (n : Z) :
  (forall i, 0 <= i < n -> v' i = v i) -> coarse_count v' n = coarse_count v n.
Proof.
  intros H. unfold coarse_count. f_equal. f_equal. apply filter_ext_in.
  intros i Hi. apply zrange_In in Hi. now rewrite H.
Qed.

Lemma coarse_count_upd (v : arr Z) (k x n : Z) :
  0 <= k < n ->
  coarse_count (upd v k x) n =
  coarse_count v n + (if x =? CGPT then 1 else 0) - (if v k =? CGPT then 1 else 0).
Proof.
  intros Hk. unfold coarse_count.
  rewrite (zrange_split 0 k n) by lia. rewrite (zrange_first k n) by lia.
  rewrite !filter_app. cbn [filter]. rewrite upd_same.
  rewrite (filter_ext_in (fun i => upd v k x i =? CGPT) (fun i => v i =? CGPT)
             (zrange 0 k)).
  2:{ intros i Hi. apply zrange_In in Hi. now rewrite upd_other by lia. }
  rewrite (filter_ext_in (fun i => upd v k x i =? CGPT) (fun i => v i =? CGPT)
             (zrange (k + 1) n)).
  2:{ intros i Hi. apply zrange_In in Hi. now rewrite upd_other by lia. }
  rewrite !length_app.
  destruct (x =? CGPT); destruct (v k =? CGPT); cbn [length]; lia.
Qed.

(** A label written outside the range, or a label other than coarse
    written over one other than coarse, leaves the count. *)
Lemma coarse_count_same (v : arr Z) (k x n : Z) :
  x <> CGPT -> v k <> CGPT -> coarse_count (upd v k x) n = coarse_count v n.
Proof.
  intros Hx Hv. unfold coarse_count. f_equal. f_equal. apply filter_ext_in.
  intros i _. unfold upd. destruct (Z.eqb_spec i k) as [-> | _]; [|reflexivity].
  destruct (Z.eqb_spec x CGPT); destruct (Z.eqb_spec (v k) CGPT); congruence.
Qed.

Lemma coarse_count_below (v : arr Z) (i n : Z) :
  0 <= i < n -> v i <> CGPT -> coarse_count v n < n.
Proof.
  intros Hi Hv. unfold coarse_count.
  rewrite (zrange_split 0 i n) by lia. rewrite (zrange_first i n) by lia.
  rewrite !filter_app, !length_app. cbn [filter].
  destruct (Z.eqb_spec (v i) CGPT); [contradiction|].
  pose proof (filter_length_le (fun i => v i =? CGPT) (zrange 0 i)) as L1.
  pose proof (filter_length_le (fun i => v i =? CGPT) (zrange (i + 1) n)) as L2.
  rewrite zrange_length in L1, L2. lia.
Qed.

(** *** The transpose of the strength graph *)

Section GraphTranspose.
Variable S : iCSRmat.
Hypothesis HS : icsr_valid S.

Lemma itrans_arrays :
  (forall k, 0 <= k <= icol S ->
             iIA (fasp_icsr_trans S) k = below (iJA S) k (innz S)) /\
  (forall p i, 0 <= i < irow S -> iIA S i <= p < iIA S (i + 1) ->
               iJA (fasp_icsr_trans S) (dest (iJA S) (innz S) p) = i).
Proof.
  pose proof HS as [V1 V3 V4 V5 V6].
  assert (X : scattered (irow S) (icol S) (innz S) (iIA S) (iJA S) (ival S) (innz S)
                (trans_scatter (irow S) (iIA S) (iJA S) (ival S)
                   (trans_prefix (icol S) (trans_count (icol S) (innz S) (iJA S)),
                    zeros 0, zeros 0)))
    by (apply TransposeFacts.scatter_pass; assumption).
  unfold fasp_icsr_trans.
  destruct (trans_scatter _ _ _ _ _) as [[tia tja] tval]. destruct X as [X1 X2].
  cbn [iIA iJA]. split.
  - intros k Hk. rewrite X1. destruct (Z.eq_dec k 0) as [-> | Hne].
    + cbn. symmetry. now apply (TransposeFacts.below_first (icol S)).
    + pose proof (TransposeFacts.below_split (iJA S) (k - 1) (innz S)) as B.
      replace (k - 1 + 1) with k in B by lia. rewrite B. zbool.
  - intros p i Hi Hp.
    assert (HpN : 0 <= p < innz S)
      by (apply (TransposeFacts.row_in_range (irow S) (innz S) (iIA S)) with (i := i);
          assumption).
    destruct (X2 p i Hi Hp ltac:(lia)) as [J1 _]. exact J1.
Qed.

(** The rows of the transpose: as many positions as the column has in
    [S], each holding a row of [S] that has the column. *)
Lemma dependents_size (j : Z) :
  0 <= j < icol S ->
  iIA (fasp_icsr_trans S) (j + 1) - iIA (fasp_icsr_trans S) j
  = count (iJA S) j (innz S).
Proof.
  intros Hj. destruct itrans_arrays as [Hia _]. rewrite !Hia by lia.
  rewrite TransposeFacts.below_split. lia.
Qed.

Lemma dependents_member (m q : Z) :
  0 <= m < icol S ->
  iIA (fasp_icsr_trans S) m <= q < iIA (fasp_icsr_trans S) (m + 1) ->
  exists i p, 0 <= i < irow S /\ iIA S i <= p < iIA S (i + 1) /\
              iJA S p = m /\ iJA (fasp_icsr_trans S) q = i.
Proof.
  intros Hm Hq. pose proof HS as [V1 V3 V4 V5 V6].
  destruct itrans_arrays as [Hia Hja]. rewrite !Hia in Hq by lia.
  destruct (TransposeFacts.dest_onto (irow S) (innz S) (iIA S) (iJA S) V1 V3 V4 V5 m q Hq)
    as (p & Hp & Em & <-).
  destruct (TransposeFacts.row_of (irow S) (innz S) (iIA S) V1 V3 V4 p Hp)
    as (i & Hi & Hr).
  exists i, p. split; [exact Hi | split; [exact Hr | split; [exact Em|]]].
  now apply Hja.
Qed.

Lemma neighbour_counted (i p : Z) :
  0 <= i < irow S -> iIA S i <= p < iIA S (i + 1) ->
  1 <= count (iJA S) (iJA S p) (innz S).
Proof.
  intros Hi Hp. pose proof HS as [V1 V3 V4 V5 V6].
  assert (HpN : 0 <= p < innz S)
    by (apply (TransposeFacts.row_in_range (irow S) (innz S) (iIA S)) with (i := i);
        assumption).
  pose proof (TransposeFacts.count_lt (iJA S) (iJA S p) p (innz S) HpN eq_refl).
  pose proof (TransposeFacts.count_nonneg (iJA S) (iJA S p) p). lia.
Qed.

End GraphTranspose.

End CountFacts.

(* ------------------------------------------------------------------ *)
(** ** coarsening_rs.c: phase one of the C/F splitting *)

Module PhaseOneFacts.
Import BlaSparseCSR StrengthGraph Coarsening Covering Transposed CountFacts.

Lemma undecided_not_coarse : UNPT <> CGPT.
Proof. discriminate. Qed.

Lemma fine_not_undecided : FGPT <> UNPT.
Proof. discriminate. Qed.

Lemma isolated_not_undecided : ISPT <> UNPT.
Proof. discriminate. Qed.

(** A label written over an undecided vertex leaves a settled vertex
    settled. *)
Lemma settled_upd (v : arr Z) (row j x : Z) :
  v j = UNPT -> settled v row -> settled (upd v j x) row.
Proof.
  intros Hj (i & Hi & Hv). exists i. split; [exact Hi|].
  rewrite upd_other; [exact Hv|]. intros ->.
  destruct Hv as [Hv | Hv]; rewrite Hj in Hv; discriminate Hv.
Qed.

(** *** The steps that keep the lists in order *)

Section Steps.
Variables (row : Z) (b : bool) (st st' : @phase1 bucket_lists).
Hypothesis H : kept row b st.

(** A vertex leaves the undecided ones: it takes the label [x] and is
    removed from the bucket of its measure. *)
Lemma kept_leave (j x : Z) :
  vec st j = UNPT ->
  vec st' = upd (vec st) j x ->
  (forall i, i <> j -> lambda st' i = lambda st i) ->
  lol st' = bucket_remove (lol st) (lambda st j) j ->
  (x = CGPT -> 0 <= j < row) ->
  col1 st' = col1 st + (if x =? CGPT then 1 else 0) ->
  kept row b st'.
Proof.
  intros Hj Ev El Eq Hx Ec. destruct H as [[Q1 Q2 Q3] Hs]. split; [constructor|].
  - rewrite Eq. now apply remove_sorted.
  - intros m i Hin. rewrite Eq in Hin.
    destruct (Q2 m i (remove_sub _ _ _ _ Hin)) as (E1 & E2 & E3).
    assert (Hne : i <> j).
    { intros ->. subst m. now apply (remove_gone _ _ _ Q1) in Hin. }
    rewrite El by exact Hne. rewrite Ev, upd_other by exact Hne. auto.
  - rewrite Ec, Ev, Q3. destruct (Z.eqb_spec x CGPT) as [-> | Hne].
    + rewrite coarse_count_upd by (now apply Hx). rewrite Hj. cbn. lia.
    + rewrite coarse_count_same; [lia | exact Hne |].
      rewrite Hj. exact undecided_not_coarse.
  - intros Hb. rewrite Ev. apply settled_upd; [exact Hj | now apply Hs].
Qed.

(** An undecided vertex moves to the bucket of a new measure. *)
Lemma kept_move (k new : Z) :
  vec st k = UNPT -> 0 <= k < row ->
  vec st' = vec st ->
  lambda st' = upd (lambda st) k new ->
  lol st' = bucket_enter (bucket_remove (lol st) (lambda st k) k) new k ->
  col1 st' = col1 st ->
  kept row b st'.
Proof.
  intros Hk Hr Ev El Eq Ec. destruct H as [[Q1 Q2 Q3] Hs]. split; [constructor|].
  - rewrite Eq. apply enter_sorted. now apply remove_sorted.
  - intros m i Hin. rewrite Eq in Hin. apply enter_entries in Hin.
    rewrite El, Ev. destruct Hin as [Hin | Hin].
    + injection Hin as -> ->. rewrite upd_same. auto.
    + destruct (Q2 m i (remove_sub _ _ _ _ Hin)) as (E1 & E2 & E3).
      assert (Hne : i <> k).
      { intros ->. subst m. now apply (remove_gone _ _ _ Q1) in Hin. }
      rewrite upd_other by exact Hne. auto.
  - rewrite Ec, Ev. exact Q3.
  - intros Hb. rewrite Ev. now apply Hs.
Qed.

(** An undecided vertex enters the bucket of its measure. *)
Lemma kept_enter (k : Z) :
  vec st k = UNPT -> 0 <= k < row ->
  vec st' = vec st ->
  lambda st' = lambda st ->
  lol st' = bucket_enter (lol st) (lambda st k) k ->
  col1 st' = col1 st ->
  kept row b st'.
Proof.
  intros Hk Hr Ev El Eq Ec. destruct H as [[Q1 Q2 Q3] Hs]. split; [constructor|].
  - rewrite Eq. now apply enter_sorted.
  - intros m i Hin. rewrite Eq in Hin. apply enter_entries in Hin.
    rewrite El, Ev. destruct Hin as [Hin | Hin].
    + injection Hin as -> ->. auto.
    + now apply Q2.
  - rewrite Ec, Ev. exact Q3.
  - intros Hb. rewrite Ev. now apply Hs.
Qed.

(** The measure of a vertex that is in no bucket changes. *)
Lemma kept_measure (j : Z) :
  (forall m, ~ In (m, j) (entries (lol st))) ->
  vec st' = vec st ->
  (forall i, i <> j -> lambda st' i = lambda st i) ->
  lol st' = lol st ->
  col1 st' = col1 st ->
  kept row b st'.
Proof.
  intros Hj Ev El Eq Ec. destruct H as [[Q1 Q2 Q3] Hs]. split; [constructor|].
  - rewrite Eq. exact Q1.
  - intros m i Hin. rewrite Eq in Hin.
    assert (Hne : i <> j) by (intros ->; now apply (Hj m)).
    rewrite El by exact Hne. rewrite Ev. now apply Q2.
  - rewrite Ec, Ev. exact Q3.
  - intros Hb. rewrite Ev. now apply Hs.
Qed.

(** Nothing that the lists or the count depend on changes. *)
Lemma kept_same :
  vec st' = vec st -> lambda st' = lambda st -> lol st' = lol st ->
  col1 st' = col1 st -> kept row b st'.
Proof.
  intros Ev El Eq Ec. destruct H as [[Q1 Q2 Q3] Hs]. split; [constructor|].
  - rewrite Eq. exact Q1.
  - intros m i Hin. rewrite Eq in Hin. rewrite El, Ev. now apply Q2.
  - rewrite Ec, Ev. exact Q3.
  - intros Hb. rewrite Ev. now apply Hs.
Qed.

End Steps.

(** *** The main loop *)

Section Graph.
Variables (S : iCSRmat) (row : Z).
Hypothesis HS : icsr_valid S.
Hypothesis Hrows : irow S = row.
Hypothesis Hcolumns : icol S = row.
Hypothesis Hfree : loop_free S.

Lemma graph_in_range (i p : Z) :
  0 <= i < row -> iIA S i <= p < iIA S (i + 1) -> 0 <= p < innz S.
Proof.
  intros Hi Hp. pose proof HS as [V1 V3 V4 V5 V6].
  apply (TransposeFacts.row_in_range (irow S) (innz S) (iIA S)) with (i := i);
    try assumption. lia.
Qed.

Lemma graph_columns : graph_cols S row.
Proof.
  intros i p Hi Hp. rewrite <- Hcolumns. apply (ivalid_cols _ HS).
  now apply (graph_in_range i).
Qed.

Lemma graph_offsets (i : Z) : 0 <= i < row -> iIA S i <= iIA S (i + 1).
Proof. intros Hi. apply (ivalid_mono _ HS). lia. Qed.

Lemma transpose_offsets (m : Z) :
  0 <= m < row ->
  iIA (fasp_icsr_trans S) m <= iIA (fasp_icsr_trans S) (m + 1).
Proof.
  intros Hm. pose proof (dependents_size S HS m ltac:(lia)) as E.
  pose proof (TransposeFacts.count_nonneg (iJA S) m (innz S)). lia.
Qed.

Lemma transpose_columns (m q : Z) :
  0 <= m < row ->
  iIA (fasp_icsr_trans S) m <= q < iIA (fasp_icsr_trans S) (m + 1) ->
  0 <= iJA (fasp_icsr_trans S) q < row /\ iJA (fasp_icsr_trans S) q <> m.
Proof.
  intros Hm Hq.
  destruct (dependents_member S HS m q ltac:(lia) Hq) as (i & p & Hi & Hp & Em & ->).
  split; [lia|]. intros ->. now apply (Hfree m p Hi Hp).
Qed.

Section Turn.
Variable b : bool.

Lemma kept_bump (st : @phase1 bucket_lists) (k : Z) :
  kept row b st -> vec st k = UNPT -> 0 <= k < row -> kept row b (bump st k).
Proof.
  intros H Hk Hr.
  apply (kept_move row b st _ H k (lambda st k + 1)); try assumption; reflexivity.
Qed.

Lemma kept_bump_undecided (st : @phase1 bucket_lists) (j : Z) :
  0 <= j < row -> kept row b st -> kept row b (bump_undecided S j st).
Proof.
  intros Hj H. unfold bump_undecided.
  apply (for_loop_inv (fun _ t => kept row b t)).
  - now apply graph_offsets.
  - exact H.
  - intros l t Hl IH. cbv zeta.
    destruct (Z.eqb_spec (vec t (iJA S l)) UNPT) as [E | E]; [|exact IH].
    apply kept_bump; [exact IH | exact E | now apply (graph_columns j)].
Qed.

(** The vertices that depend on the new coarse vertex become fine. *)
Lemma kept_dependents (st : @phase1 bucket_lists) (m lo : Z) :
  0 <= m < row ->
  iIA (fasp_icsr_trans S) m <= lo <= iIA (fasp_icsr_trans S) (m + 1) ->
  kept row b st ->
  kept row b
    (for_loop lo (iIA (fasp_icsr_trans S) (m + 1))
       (fun st i =>
          let j := iJA (fasp_icsr_trans S) i in
          if vec st j =? UNPT then
            let st := set_vec st (upd (vec st) j FGPT) in
            let st := set_lol st (remove_node (lol st) (lambda st j) j) in
            let st := set_num_left st (udec (num_left st)) in
            bump_undecided S j st
          else st)
       st).
Proof.
  intros Hm Hlo H.
  apply (for_loop_inv (fun _ t => kept row b t)).
  - lia.
  - exact H.
  - intros i t Hi IH. cbv zeta.
    destruct (Z.eqb_spec (vec t (iJA (fasp_icsr_trans S) i)) UNPT) as [E | E];
      [|exact IH].
    apply kept_bump_undecided.
    + apply (transpose_columns m i Hm). lia.
    + apply (kept_leave row b t _ IH (iJA (fasp_icsr_trans S) i) FGPT);
        try reflexivity; [exact E | intros X; discriminate X | cbn; lia].
Qed.

(** The strong neighbours of the new coarse vertex lose one. *)
Lemma kept_neighbours (st : @phase1 bucket_lists) (m : Z) :
  0 <= m < row ->
  kept row b st ->
  kept row b
    (for_loop (iIA S m) (iIA S (m + 1))
       (fun st i =>
          let j := iJA S i in
          if vec st j =? UNPT then
            let measure := lambda st j in
            let st := set_lol st (remove_node (lol st) measure j) in
            let measure := measure - 1 in
            let st := set_lambda st (upd (lambda st) j measure) in
            if measure >? 0 then set_lol st (enter_list (lol st) measure j)
            else
              let st := set_vec st (upd (vec st) j FGPT) in
              let st := set_num_left st (udec (num_left st)) in
              bump_undecided S j st
          else st)
       st).
Proof.
  intros Hm H.
  apply (for_loop_inv (fun _ t => kept row b t)).
  - now apply graph_offsets.
  - exact H.
  - intros i t Hi IH. cbv zeta.
    pose proof (graph_columns m i Hm Hi) as Hj.
    destruct (Z.eqb_spec (vec t (iJA S i)) UNPT) as [E | E]; [|exact IH].
    destruct (lambda t (iJA S i) - 1 >? 0).
    + apply (kept_move row b t _ IH (iJA S i) (lambda t (iJA S i) - 1));
        try assumption; reflexivity.
    + apply kept_bump_undecided; [exact Hj|].
      apply (kept_leave row b t _ IH (iJA S i) FGPT);
        try reflexivity; [exact E | | intros X; discriminate X | cbn; lia].
      intros k Hk. cbn. now rewrite upd_other.
Qed.

(** The vertex at the head of the lists is an undecided vertex. *)
Lemma head_undecided (st : @phase1 bucket_lists) (m : Z) :
  queued row st -> LoL_head_head (lol st) = Some m ->
  vec st m = UNPT /\ 0 <= m < row.
Proof.
  intros [Q1 Q2 Q3] Hh. destruct (head_entry _ _ Hh) as (x & Hx).
  destruct (Q2 x m Hx) as (_ & E & R). now split.
Qed.

(** One turn of the main loop. *)
Lemma kept_main_body (st : @phase1 bucket_lists) (m : Z) :
  kept row b st -> LoL_head_head (lol st) = Some m ->
  kept row b (main_body S (fasp_icsr_trans S) m st).
Proof.
  intros H Hh. destruct (head_undecided st m (proj1 H) Hh) as [Hu Hr].
  unfold main_body. cbv zeta.
  apply kept_neighbours; [exact Hr|].
  apply kept_dependents; [exact Hr | pose proof (transpose_offsets m Hr); lia |].
  apply (kept_leave row b st _ H m CGPT); try reflexivity;
    [exact Hu | | intros _; exact Hr].
  intros i Hi. cbn. now rewrite upd_other.
Qed.

End Turn.

(** *** Steps 1 to 3 *)

Lemma kept_queued (b : bool) (st : @phase1 bucket_lists) :
  kept row b st -> queued row st.
Proof. now intros [Q _]. Qed.

Lemma queued_kept (st : @phase1 bucket_lists) : queued row st -> kept row false st.
Proof. intros Q. split; [exact Q | discriminate]. Qed.

Lemma kept_settled (b : bool) (st : @phase1 bucket_lists) :
  kept row b st -> settled (vec st) row -> kept row true st.
Proof. intros [Q _] Hs. split; [exact Q | intros _; exact Hs]. Qed.

(** A label other than coarse written over one other than coarse, at a
    vertex that is in no bucket. *)
Lemma queued_label (st st' : @phase1 bucket_lists) (j x : Z) :
  queued row st ->
  (forall m, ~ In (m, j) (entries (lol st))) ->
  x <> CGPT -> vec st j <> CGPT ->
  vec st' = upd (vec st) j x -> lambda st' = lambda st -> lol st' = lol st ->
  col1 st' = col1 st ->
  queued row st'.
Proof.
  intros [Q1 Q2 Q3] Hj Hx Hv Ev El Eq Ec. constructor.
  - rewrite Eq. exact Q1.
  - intros m i Hin. rewrite Eq in Hin.
    assert (Hne : i <> j) by (intros ->; now apply (Hj m)).
    rewrite El, Ev, upd_other by exact Hne. now apply Q2.
  - rewrite Ec, Ev, Q3. symmetry. now apply coarse_count_same.
Qed.

Lemma coarse_count_none (v : arr Z) (n : Z) :
  (forall i, 0 <= i < n -> v i <> CGPT) -> coarse_count v n = 0.
Proof.
  intros H. unfold coarse_count.
  rewrite (filter_ext_in _ (fun _ => false)).
  - now rewrite TransposeFacts.filter_none.
  - intros i Hi. apply zrange_In in Hi. apply Z.eqb_neq. now apply H.
Qed.

(** The measures of step 1: the number of dependents. *)
Lemma init_lambda_cells (j : Z) :
  0 <= j < row -> init_lambda (fasp_icsr_trans S) row j = dependents S j.
Proof.
  intros Hj. unfold init_lambda.
  rewrite (cellwise_loop
             (fun _ i => iIA (fasp_icsr_trans S) (i + 1) - iIA (fasp_icsr_trans S) i)).
  destruct (Z.leb_spec 0 j); destruct (Z.ltb_spec j row); cbn [andb]; try lia.
  apply (dependents_size S HS). lia.
Qed.

(** Step 2 labels every vertex isolated or undecided, and gives the
    isolated ones the measure zero. *)
Lemma init_vertices_cells (A : dCSRmat) (st : @phase1 bucket_lists) :
  0 <= row ->
  let st' := init_vertices A row st in
  lol st' = lol st /\ col1 st' = col1 st /\
  forall j, 0 <= j < row ->
            (vec st' j = ISPT /\ lambda st' j = 0) \/
            (vec st' j = UNPT /\ lambda st' j = lambda st j).
Proof.
  intros Hrow. cbv zeta.
  enough (G : lol (init_vertices A row st) = lol st /\
              col1 (init_vertices A row st) = col1 st /\
              (forall j, 0 <= j < row ->
                         (vec (init_vertices A row st) j = ISPT /\
                          lambda (init_vertices A row st) j = 0) \/
                         (vec (init_vertices A row st) j = UNPT /\
                          lambda (init_vertices A row st) j = lambda st j)) /\
              (forall j, row <= j -> lambda (init_vertices A row st) j = lambda st j))
    by (destruct G as (E1 & E2 & E3 & _); auto).
  unfold init_vertices.
  apply (for_loop_inv
           (fun i t => lol t = lol st /\ col1 t = col1 st /\
                       (forall j, 0 <= j < i ->
                                  (vec t j = ISPT /\ lambda t j = 0) \/
                                  (vec t j = UNPT /\ lambda t j = lambda st j)) /\
                       (forall j, i <= j -> lambda t j = lambda st j))).
  - exact Hrow.
  - split; [reflexivity | split; [reflexivity | split]].
    + intros j Hj. lia.
    + intros j _. reflexivity.
  - intros i t Hi (E1 & E2 & E3 & E4).
    destruct (IA A (i + 1) - IA A i <=? 1); cbn [vec lambda lol col1 set_vec
      set_lambda set_num_left]; (split; [exact E1 | split; [exact E2 | split]]).
    + intros j Hj. destruct (Z.eq_dec j i) as [-> | Hne].
      * left. now rewrite !upd_same.
      * rewrite !upd_other by exact Hne. apply E3. lia.
    + intros j Hj. rewrite upd_other by lia. apply E4. lia.
    + intros j Hj. destruct (Z.eq_dec j i) as [-> | Hne].
      * right. rewrite upd_same. split; [reflexivity | apply E4; lia].
      * rewrite !upd_other by exact Hne. apply E3. lia.
    + intros j Hj. apply E4. lia.
Qed.

(** The state that step 3 starts from. *)
Lemma sifted_start (A : dCSRmat) (vec0 : arr Z) :
  0 <= row ->
  sifted S row 0
    (init_vertices A row
       ({| vec := vec0; lambda := init_lambda (fasp_icsr_trans S) row;
           lol := LoL_null; num_left := 0; col1 := 0 |} : @phase1 bucket_lists)).
Proof.
  intros Hrow.
  destruct (init_vertices_cells A
              ({| vec := vec0; lambda := init_lambda (fasp_icsr_trans S) row;
                  lol := LoL_null; num_left := 0; col1 := 0 |} : @phase1 bucket_lists)
              Hrow) as (E1 & E2 & E3).
  cbn [lol col1 lambda] in E1, E2, E3. constructor.
  - constructor.
    + rewrite E1. constructor.
    + intros m j Hin. rewrite E1 in Hin. contradiction.
    + rewrite E2. symmetry. apply coarse_count_none. intros i Hi.
      destruct (E3 i Hi) as [[-> _] | [-> _]]; discriminate.
  - intros m j Hin. rewrite E1 in Hin. contradiction.
  - intros j Hj. lia.
  - intros j Hj Hu. destruct (E3 j Hj) as [[E _] | [_ E]].
    + rewrite E in Hu. discriminate Hu.
    + rewrite E, init_lambda_cells by exact Hj. lia.
  - intros j Hj Hf. destruct (E3 j Hj) as [[E _] | [E _]];
      rewrite E in Hf; discriminate Hf.
  - intros j Hj. destruct (E3 j Hj) as [[E _] | [E _]]; auto.
  - intros j Hj. destruct (E3 j ltac:(lia)) as [[E _] | [E _]]; auto.
  - intros j Hj. destruct (E3 j Hj) as [[E _] | [_ E]].
    + left. exists j. auto.
    + right. rewrite E. now apply init_lambda_cells.
Qed.

(** Once a vertex is settled, measures may grow. *)
Lemma sifted_raise (i : Z) (st st' : @phase1 bucket_lists) :
  sifted S row i st -> settled (vec st) row ->
  vec st' = vec st ->
  (forall j, lambda st j <= lambda st' j) ->
  queued row st' ->
  (forall m j, In (m, j) (entries (lol st')) -> j < i) ->
  sifted S row i st'.
Proof.
  intros [F1 F2 F3 F4 F5 F6 F7 F8] Hs Ev El Q B. constructor; try assumption.
  - intros j Hj Hu. rewrite Ev in Hu. pose proof (F3 j Hj Hu). pose proof (El j). lia.
  - intros j Hj Hu. rewrite Ev in Hu. pose proof (F4 j Hj Hu). pose proof (El j). lia.
  - intros j Hj Hf. rewrite Ev in Hf. now apply F5.
  - intros j Hj. rewrite Ev. now apply F6.
  - intros j Hj. rewrite Ev. now apply F7.
  - intros j Hj. left. now rewrite Ev.
Qed.

(** The strong neighbours of a vertex that step 3 makes fine gain one. *)
Lemma step3_neighbours (i : Z) (st : @phase1 bucket_lists) :
  0 <= i < row ->
  sifted S row (i + 1) st -> settled (vec st) row ->
  sifted S row (i + 1)
    (for_loop (iIA S i) (iIA S (i + 1))
       (fun st k =>
          let j := iJA S k in
          if negb (vec st j =? ISPT) then
            if j <? i then
              let new_meas := lambda st j in
              let q := if new_meas >? 0
                       then remove_node (lol st) new_meas j else lol st in
              let new_meas := lambda st j + 1 in
              set_lol (set_lambda st (upd (lambda st) j new_meas))
                      (enter_list q new_meas j)
            else set_lambda st (upd (lambda st) j (lambda st j + 1))
          else st)
       st).
Proof.
  intros Hi H Hs.
  enough (G : sifted S row (i + 1)
                (for_loop (iIA S i) (iIA S (i + 1))
                   (fun st k =>
                      let j := iJA S k in
                      if negb (vec st j =? ISPT) then
                        if j <? i then
                          let new_meas := lambda st j in
                          let q := if new_meas >? 0
                                   then remove_node (lol st) new_meas j else lol st in
                          let new_meas := lambda st j + 1 in
                          set_lol (set_lambda st (upd (lambda st) j new_meas))
                                  (enter_list q new_meas j)
                        else set_lambda st (upd (lambda st) j (lambda st j + 1))
                      else st)
                   st) /\
              settled
                (vec (for_loop (iIA S i) (iIA S (i + 1))
                   (fun st k =>
                      let j := iJA S k in
                      if negb (vec st j =? ISPT) then
                        if j <? i then
                          let new_meas := lambda st j in
                          let q := if new_meas >? 0
                                   then remove_node (lol st) new_meas j else lol st in
                          let new_meas := lambda st j + 1 in
                          set_lol (set_lambda st (upd (lambda st) j new_meas))
                                  (enter_list q new_meas j)
                        else set_lambda st (upd (lambda st) j (lambda st j + 1))
                      else st)
                   st)) row) by apply G.
  apply (for_loop_inv (fun _ t => sifted S row (i + 1) t /\ settled (vec t) row)).
  - now apply graph_offsets.
  - now split.
  - intros k t Hk [IH Ht]. cbv zeta.
    pose proof (graph_columns i k Hi Hk) as Hj.
    destruct (Z.eqb_spec (vec t (iJA S k)) ISPT) as [E | E]; cbn [negb];
      [now split|].
    pose proof IH as [F1 F2 F3 F4 F5 F6 F7 F8].
    assert (Hu : vec t (iJA S k) = UNPT).
    { destruct (F6 _ Hj) as [U | [F | I]]; [exact U | | contradiction].
      pose proof (F5 _ Hj F) as D. unfold dependents in D.
      pose proof (neighbour_counted S HS i k ltac:(lia) Hk). lia. }
    assert (Hne : iJA S k <> i) by (apply (Hfree i k); lia).
    destruct (Z.ltb_spec (iJA S k) i) as [Hlt | Hge].
    + pose proof (F3 (iJA S k) ltac:(lia) Hu) as Hpos.
      replace (lambda t (iJA S k) >? 0) with true by (symmetry; apply Z.gtb_lt; lia).
      split; [|exact Ht].
      apply (sifted_raise (i + 1) t); [exact IH | exact Ht | reflexivity | | |].
      * intros x. cbn [lambda set_lol set_lambda]. unfold upd.
        destruct (Z.eqb_spec x (iJA S k)) as [-> | _]; lia.
      * apply (kept_queued false).
        apply (kept_move row false t _ (queued_kept t F1) (iJA S k)
                 (lambda t (iJA S k) + 1)); try reflexivity; assumption.
      * intros m x Hin. cbn [lol set_lol] in Hin. apply enter_entries in Hin.
        destruct Hin as [Hin | Hin]; [injection Hin as -> ->; lia|].
        apply remove_sub in Hin. now apply (F2 m).
    + split; [|exact Ht].
      apply (sifted_raise (i + 1) t); [exact IH | exact Ht | reflexivity | | |].
      * intros x. cbn [lambda set_lambda]. unfold upd.
        destruct (Z.eqb_spec x (iJA S k)) as [-> | _]; lia.
      * apply (kept_queued false).
        apply (kept_measure row false t _ (queued_kept t F1) (iJA S k));
          try reflexivity.
        { intros m Hin. apply F2 in Hin. lia. }
        { intros x Hx. cbn [lambda set_lambda]. now rewrite upd_other. }
      * intros m x Hin. cbn [lol set_lambda] in Hin. now apply (F2 m).
Qed.

(** One turn of step 3. *)
Lemma step3_turn (i : Z) (st : @phase1 bucket_lists) :
  0 <= i < row ->
  sifted S row i st ->
  sifted S row (i + 1)
    (let measure := lambda st i in
     if negb (vec st i =? ISPT) then
       if measure >? 0 then set_lol st (enter_list (lol st) (lambda st i) i)
       else
         let st := set_vec st (upd (vec st) i FGPT) in
         let st :=
           for_loop (iIA S i) (iIA S (i + 1))
             (fun st k =>
                let j := iJA S k in
                if negb (vec st j =? ISPT) then
                  if j <? i then
                    let new_meas := lambda st j in
                    let q := if new_meas >? 0
                             then remove_node (lol st) new_meas j else lol st in
                    let new_meas := lambda st j + 1 in
                    set_lol (set_lambda st (upd (lambda st) j new_meas))
                            (enter_list q new_meas j)
                  else set_lambda st (upd (lambda st) j (lambda st j + 1))
                else st)
             st in
         set_num_left st (udec (num_left st))
     else st).
Proof.
  intros Hi H. pose proof H as [F1 F2 F3 F4 F5 F6 F7 F8]. cbv zeta.
  destruct (Z.eqb_spec (vec st i) ISPT) as [E | E]; cbn [negb].
  - constructor; try assumption.
    + intros m j Hin. apply F2 in Hin. lia.
    + intros j Hj Hu. destruct (Z.eq_dec j i) as [-> | Hne].
      * rewrite E in Hu. discriminate Hu.
      * apply F3; [lia | exact Hu].
    + intros j Hj. apply F7. lia.
  - assert (Hu : vec st i = UNPT)
      by (destruct (F7 i ltac:(lia)) as [U | I]; [exact U | contradiction]).
    destruct (Z.gtb_spec (lambda st i) 0) as [Hpos | Hpos].
    + constructor; try assumption.
      * apply (kept_queued false).
        apply (kept_enter row false st _ (queued_kept st F1) i);
          try reflexivity; assumption.
      * intros m j Hin. cbn [lol set_lol] in Hin. apply enter_entries in Hin.
        destruct Hin as [Hin | Hin]; [injection Hin as -> ->; lia|].
        apply F2 in Hin. lia.
      * intros j Hj Hv. cbn [lambda set_lol]. destruct (Z.eq_dec j i) as [-> | Hne];
          [lia | apply F3; [lia | exact Hv]].
      * intros j Hj. apply F7. lia.
    + assert (Hs : settled (upd (vec st) i FGPT) row)
        by (exists i; split; [exact Hi | left; apply upd_same]).
      assert (G : sifted S row (i + 1) (set_vec st (upd (vec st) i FGPT))).
      { constructor.
        - apply (queued_label st _ i FGPT F1); try reflexivity.
          + intros m Hin. apply F2 in Hin. lia.
          + discriminate.
          + rewrite Hu. discriminate.
        - intros m j Hin. apply F2 in Hin. lia.
        - intros j Hj Hv. cbn [vec set_vec] in Hv. unfold upd in Hv.
          destruct (Z.eqb_spec j i) as [-> | Hne]; [discriminate Hv|].
          apply F3; [lia | exact Hv].
        - intros j Hj Hv. cbn [vec set_vec] in Hv. unfold upd in Hv.
          destruct (Z.eqb_spec j i) as [-> | Hne]; [discriminate Hv|].
          now apply F4.
        - intros j Hj Hv. cbn [vec set_vec] in Hv. unfold upd in Hv.
          destruct (Z.eqb_spec j i) as [-> | Hne]; [|now apply F5].
          pose proof (F4 i Hi Hu). cbn [lambda set_vec]. lia.
        - intros j Hj. cbn [vec set_vec]. unfold upd.
          destruct (Z.eqb_spec j i) as [-> | Hne]; [auto | now apply F6].
        - intros j Hj. cbn [vec set_vec]. rewrite upd_other by lia. apply F7. lia.
        - intros j Hj. left. exact Hs. }
      pose proof (step3_neighbours i _ Hi G Hs) as G'.
      destruct G' as [Q B P M F Lb Pd Fr]. constructor; try assumption.
      destruct Q as [Q1 Q2 Q3]. constructor; assumption.
Qed.

(** Step 3. *)
Lemma step3_sifted (st : @phase1 bucket_lists) :
  0 <= row -> sifted S row 0 st -> sifted S row row (step3 S row st).
Proof.
  intros Hrow H. unfold step3.
  apply (for_loop_inv (fun i t => sifted S row i t)); [exact Hrow | exact H |].
  intros i t Hi IH. now apply step3_turn.
Qed.

(** *** Phase one as a whole *)

Lemma sifted_picking (st : @phase1 bucket_lists) :
  sifted S row row st -> picking S row st.
Proof.
  intros [F1 F2 F3 F4 F5 F6 F7 F8]. constructor; [exact F1|].
  intros j Hj. destruct (F8 j Hj) as [Hs | El]; [now left|].
  destruct (F6 j Hj) as [U | [F | I]].
  - right. split; [exact U | split; [exact El | now apply F3]].
  - left. exists j. auto.
  - left. exists j. auto.
Qed.

Lemma settled_rest (v : arr Z) :
  settled v row -> exists i, 0 <= i < row /\ v i <> CGPT.
Proof.
  intros (i & Hi & [E | E]); exists i; (split; [exact Hi|]); rewrite E; discriminate.
Qed.

(** A turn of the main loop settles a vertex: while none is settled, the
    vertex at the head has a dependent, which is undecided and becomes
    fine. *)
Lemma picking_turn (st : @phase1 bucket_lists) (m : Z) :
  picking S row st -> LoL_head_head (lol st) = Some m ->
  kept row true (main_body S (fasp_icsr_trans S) m st).
Proof.
  intros [Q Fr] Hh. destruct (head_undecided st m Q Hh) as [Hu Hm].
  assert (Hold : settled (vec st) row ->
                 kept row true (main_body S (fasp_icsr_trans S) m st)).
  { intros Hs. apply kept_main_body; [|exact Hh]. split; [exact Q | now intros _]. }
  destruct (Fr m Hm) as [Hs | (_ & El & Hpos)]; [now apply Hold|].
  pose proof (dependents_size S HS m ltac:(lia)) as Hsize. fold (dependents S m) in Hsize.
  assert (Hfirst : iIA (fasp_icsr_trans S) m <= iIA (fasp_icsr_trans S) m
                   < iIA (fasp_icsr_trans S) (m + 1)) by lia.
  destruct (transpose_columns m _ Hm Hfirst) as [Hj Hne].
  destruct (Fr _ Hj) as [Hs | (Hju & _)]; [now apply Hold|].
  unfold main_body. cbv zeta.
  apply kept_neighbours; [exact Hm|].
  rewrite for_loop_first by lia.
  apply kept_dependents; [exact Hm | lia |].
  cbn [vec lambda lol num_left col1 set_vec set_lambda set_lol set_num_left set_col1].
  rewrite upd_other by exact Hne. rewrite Hju. cbn [Z.eqb UNPT Pos.eqb].
  apply kept_bump_undecided; [exact Hj|].
  assert (K1 : kept row false
                 (set_col1
                    (set_lol
                       (set_num_left
                          (set_lambda (set_vec st (upd (vec st) m CGPT))
                             (upd (lambda st) m 0))
                          (udec (num_left st)))
                       (remove_node (lol st) (lambda st m) m))
                    (col1 st + 1))).
  { apply (kept_leave row false st _ (queued_kept st Q) m CGPT); try reflexivity;
      [exact Hu | | intros _; exact Hm].
    intros i Hi. cbn. now rewrite upd_other. }
  apply (kept_settled false).
  - apply (kept_leave row false _ _ K1 (iJA (fasp_icsr_trans S) (iIA (fasp_icsr_trans S) m))
             FGPT); try reflexivity.
    + cbn. now rewrite upd_other.
    + intros X. discriminate X.
    + cbn. lia.
  - exists (iJA (fasp_icsr_trans S) (iIA (fasp_icsr_trans S) m)).
    split; [exact Hj | left]. cbn. apply upd_same.
Qed.

Lemma main_loop_rest (fuel : nat) :
  forall st st' : @phase1 bucket_lists,
    picking S row st ->
    (exists i, 0 <= i < row /\ vec st i <> CGPT) ->
    main_loop fuel S (fasp_icsr_trans S) st = Some st' ->
    col1 st' = coarse_count (vec st') row /\
    exists i, 0 <= i < row /\ vec st' i <> CGPT.
Proof.
  induction fuel as [|fuel IH]; intros st st' Hp Hr; cbn [main_loop].
  - destruct (num_left st >? 0); [discriminate|]. intros E. injection E as <-.
    split; [apply (queue_count _ _ (pick_queued _ _ _ Hp)) | exact Hr].
  - destruct (num_left st >? 0).
    + destruct (LoL_head_head (lol st)) as [m|] eqn:Hh; [|discriminate].
      pose proof (picking_turn st m Hp Hh) as [Q Hs]. specialize (Hs eq_refl).
      apply IH.
      * constructor; [exact Q | intros j Hj; now left].
      * now apply settled_rest.
    + intros E. injection E as <-.
      split; [apply (queue_count _ _ (pick_queued _ _ _ Hp)) | exact Hr].
Qed.

(** Phase one counts its coarse vertices and leaves a vertex that is not
    coarse. *)
Lemma phase_one_count (A : dCSRmat) (vec0 v : arr Z) (c : Z) :
  0 < row ->
  @phase_one bucket_lists A S vec0 row = Some (v, c) ->
  c = coarse_count v row /\ exists i, 0 <= i < row /\ v i <> CGPT.
Proof.
  intros Hrow. unfold phase_one. cbv zeta.
  pose proof (step3_sifted _ ltac:(lia) (sifted_start A vec0 ltac:(lia))) as H3.
  destruct (main_loop _ _ _ _) as [st'|] eqn:E; [|discriminate].
  intros X. injection X as <- <-.
  apply (main_loop_rest _ _ _ (sifted_picking _ H3)) in E; [exact E|].
  exists 0. split; [lia|].
  destruct (sift_labels _ _ _ _ H3 0 ltac:(lia)) as [U | [F | I]];
    rewrite ?U, ?F, ?I; discriminate.
Qed.

End Graph.

End PhaseOneFacts.

(* ------------------------------------------------------------------ *)
(** ** coarsening_rs.c: the number of coarse vertices *)

Module SplittingCount.
Import BlaSparseCSR StrengthGraph Coarsening Covering Transposed CountFacts
       PhaseOneFacts.

Section Graph.
Variables (S : iCSRmat) (row : Z).
Hypothesis HS : icsr_valid S.
Hypothesis Hrows : irow S = row.
Hypothesis Hcolumns : icol S = row.
Hypothesis Hfree : loop_free S.

(** A label written over a vertex does not lower the count unless the
    vertex was coarse. *)
Lemma coarse_count_fine (v : arr Z) (k x : Z) :
  coarse_count v row - 1 <= coarse_count (upd v k x) row.
Proof.
  destruct (Z_lt_dec k 0) as [Hk | Hk]; [|destruct (Z_lt_dec k row) as [Hk' | Hk']].
  - rewrite (coarse_count_ext v (upd v k x)) by (intros i Hi; apply upd_other; lia). lia.
  - rewrite coarse_count_upd by lia.
    destruct (x =? CGPT); destruct (v k =? CGPT); lia.
  - rewrite (coarse_count_ext v (upd v k x)) by (intros i Hi; apply upd_other; lia). lia.
Qed.

Lemma coarse_count_gain (v : arr Z) (k : Z) :
  0 <= k < row -> v k = FGPT ->
  coarse_count (upd v k CGPT) row = coarse_count v row + 1.
Proof.
  intros Hk E. rewrite coarse_count_upd by exact Hk. rewrite E. cbn. lia.
Qed.

(** One turn of the loop of phase two. *)
Lemma phase2_body_tallied (st : phase2) (i : Z) :
  0 <= i < row -> tallied row st -> tallied row (fst (phase2_body S st i)).
Proof.
  intros Hi [T1 T2]. unfold phase2_body. cbv zeta.
  generalize (if negb (Z.lor (ci_tilde_mark st) i =? 0) then -1 else ci_tilde st).
  intros t.
  destruct (Z.eqb_spec (vec2 st i) FGPT) as [Ei | Ei];
    [|constructor; [exact T1 | exact T2]].
  destruct (find _ _) as [ji|] eqn:Ef; [|constructor; [exact T1 | exact T2]].
  apply find_some in Ef. destruct Ef as [Hji Ej]. apply zrange_In in Hji.
  cbv beta zeta in Ej. apply andb_prop in Ej. destruct Ej as [Ej _].
  apply Z.eqb_eq in Ej.
  pose proof (graph_columns S row HS Hrows Hcolumns i ji Hi Hji) as Hj.
  assert (Hne : iJA S ji <> i) by (apply (Hfree i ji); lia).
  destruct (Z.eqb_spec (C_i_nonempty st) 0) as [E0 | E0]; cbn [negb].
  - cbn [fst]. constructor; cbn [vec2 col2].
    + rewrite coarse_count_gain by assumption. lia.
    + exists i. split; [exact Hi|]. rewrite upd_other by auto. rewrite Ei. discriminate.
  - destruct (t >? -1); cbn [fst]; constructor; cbn [vec2 col2].
    + pose proof (coarse_count_fine (upd (vec2 st) i CGPT) t FGPT) as G.
      rewrite coarse_count_gain in G by assumption. lia.
    + exists (iJA S ji). split; [exact Hj|]. unfold upd.
      destruct (iJA S ji =? t); [discriminate|].
      destruct (Z.eqb_spec (iJA S ji) i) as [E | _]; [contradiction|].
      rewrite Ej. discriminate.
    + rewrite coarse_count_gain by assumption. lia.
    + exists (iJA S ji). split; [exact Hj|]. rewrite upd_other by exact Hne.
      rewrite Ej. discriminate.
Qed.

Lemma phase2_loop_tallied (fuel : nat) :
  forall (st st' : phase2) (i : Z),
    0 <= i -> tallied row st ->
    phase2_loop fuel S row st i = Some st' -> tallied row st'.
Proof.
  induction fuel as [|fuel IH]; intros st st' i Hi T; cbn [phase2_loop].
  - destruct (Z.ltb_spec i row); [discriminate|]. intros E. now injection E as <-.
  - destruct (Z.ltb_spec i row) as [Hlt | Hge];
      [|intros E; now injection E as <-].
    pose proof (phase2_body_tallied st i ltac:(lia) T) as T'.
    assert (Hnext : 0 <= snd (phase2_body S st i) + 1).
    { unfold phase2_body. cbv zeta.
      destruct (vec2 st i =? FGPT); [|cbn; lia].
      destruct (find _ _); [|cbn; lia].
      destruct (negb (C_i_nonempty st =? 0)); [|cbn; lia].
      destruct (_ >? -1); cbn; lia. }
    destruct (phase2_body S st i) as [st1 i1]. cbn [fst snd] in T', Hnext.
    now apply IH.
Qed.

(** Phase two leaves a vertex that is not coarse, so that its count stays
    below the number of vertices. *)
Lemma phase_two_count (v v' : arr Z) (c c' : Z) :
  c <= coarse_count v row ->
  (exists i, 0 <= i < row /\ v i <> CGPT) ->
  phase_two S row v c = Some (v', c') -> c' < row.
Proof.
  intros Hc Hr. unfold phase_two. cbv zeta.
  destruct (phase2_loop _ _ _ _ _) as [st'|] eqn:E; [|discriminate].
  intros X. injection X as <- <-.
  apply phase2_loop_tallied in E; [|lia|constructor; assumption].
  destruct E as [T1 (i & Hi & Hv)].
  pose proof (coarse_count_below (vec2 st') i row Hi Hv). lia.
Qed.

Context {K : Constants}.

(** The value that [form_coarse_level] returns is below the number of
    vertices. *)
Lemma form_coarse_level_count (A : dCSRmat) (vertices v : arr Z)
  (interp_type c : Z) :
  0 < row ->
  @form_coarse_level bucket_lists K A S vertices row interp_type = Some (v, c) ->
  c < row.
Proof.
  intros Hrow. unfold form_coarse_level.
  destruct (phase_one A S vertices row) as [[v1 c1]|] eqn:E1; [|discriminate].
  destruct (phase_one_count S row HS Hrows Hcolumns Hfree A vertices v1 c1 Hrow E1)
    as [Ec (i & Hi & Hv)].
  destruct (negb (interp_type =? INTERP_STD)).
  - apply phase_two_count; [lia | now exists i].
  - intros X. injection X as <- <-.
    pose proof (coarse_count_below v1 i row Hi Hv). lia.
Qed.

End Graph.

End SplittingCount.

(* ------------------------------------------------------------------ *)
(** ** amg_setup_rs.c: the sizes of the levels *)

Module DecreaseFacts.
Import BlaSparseCSR StrengthGraph Coarsening AmgSetupRS Rows Strength Covering.
Import WholeSetup.

(** *** The strength graph as a graph without loops *)

Section StrongGraph.
Context {K : Constants}.
Variables (A : dCSRmat) (cap th : Q).
Hypothesis HA : csr_valid A.
Hypothesis HD : diagonal_once A.
Hypothesis Hsq : row A = col A.
Hypothesis Hpos : 0 < innz (generate_S A cap th).

Lemma strong_before_succ (k : Z) :
  0 <= k ->
  strong_before A cap th (k + 1) = strong_before A cap th k ++ strong_row A cap th k.
Proof.
  intros Hk. unfold strong_before. rewrite zrange_last by lia.
  rewrite flat_map_app. cbn [flat_map]. now rewrite app_nil_r.
Qed.

Lemma strong_before_split (i : Z) :
  0 <= i < row A ->
  strong_before A cap th (row A)
  = strong_before A cap th i
    ++ strong_row A cap th i ++ flat_map (strong_row A cap th) (zrange (i + 1) (row A)).
Proof.
  intros Hi. unfold strong_before. rewrite (zrange_split 0 i (row A)) by lia.
  rewrite flat_map_app. f_equal. rewrite (zrange_first i (row A)) by lia.
  reflexivity.
Qed.

Lemma strong_offsets (k : Z) :
  0 <= k <= row A ->
  iIA (generate_S A cap th) k = Z.of_nat (length (strong_before A cap th k)).
Proof.
  intros Hk.
  destruct (StrengthFacts.generate_S_compacted A cap th HA HD)
    as (_ & _ & En & _ & Ei & El).
  destruct (Z.eq_dec k (row A)) as [-> | Hne].
  - rewrite (El Hpos). exact En.
  - apply Ei. lia.
Qed.

(** A position of row [i] of the graph holds the column of a strong
    position of row [i] of the matrix. *)
Lemma strong_cell (i p : Z) :
  0 <= i < row A ->
  iIA (generate_S A cap th) i <= p < iIA (generate_S A cap th) (i + 1) ->
  exists q, In q (strong_row A cap th i) /\ iJA (generate_S A cap th) p = JA A q.
Proof.
  intros Hi Hp. rewrite !strong_offsets in Hp by lia.
  rewrite strong_before_succ, length_app in Hp by lia.
  destruct (StrengthFacts.generate_S_compacted A cap th HA HD)
    as (_ & _ & En & Ej & _ & _).
  set (G := generate_S A cap th) in *.
  pose proof (strong_before_split i Hi) as Es.
  assert (HpN : 0 <= p < innz G).
  { rewrite En, Es, !length_app. lia. }
  assert (Ep : iJA G p = nth (Z.to_nat p) (to_list (iJA G) (innz G)) 0).
  { unfold to_list. now rewrite nth_zrange. }
  rewrite Ej in Ep.
  rewrite (nth_indep _ 0 (JA A 0)) in Ep by (rewrite length_map; lia).
  rewrite map_nth in Ep. rewrite Es in Ep.
  rewrite app_nth2 in Ep by lia. rewrite app_nth1 in Ep by lia.
  eexists. split; [|exact Ep]. apply nth_In. lia.
Qed.

Lemma strong_graph_valid : icsr_valid (generate_S A cap th).
Proof.
  destruct (StrengthFacts.generate_S_compacted A cap th HA HD)
    as (Er & Ec & En & Ej & Ei & El).
  pose proof HA as [V1 V2 V3 V4 V5 V6].
  assert (Hmono : forall i, 0 <= i < irow (generate_S A cap th) ->
            iIA (generate_S A cap th) i <= iIA (generate_S A cap th) (i + 1)).
  { intros i Hi. rewrite Er in Hi. rewrite !strong_offsets by lia.
    rewrite strong_before_succ, length_app by lia. lia. }
  assert (Hfirst : iIA (generate_S A cap th) 0 = 0)
    by (rewrite strong_offsets by lia; reflexivity).
  assert (Hlast : iIA (generate_S A cap th) (irow (generate_S A cap th))
                  = innz (generate_S A cap th))
    by (rewrite Er; exact (El Hpos)).
  constructor; try assumption.
  - rewrite Er. exact V1.
  - intros p Hp.
    assert (H0 : 0 <= irow (generate_S A cap th)) by (rewrite Er; exact V1).
    destruct (TransposeFacts.row_of _ _ _ H0 Hfirst Hlast p Hp) as (i & Hi & Hr).
    rewrite Er in Hi. destruct (strong_cell i p Hi Hr) as (q & Hq & ->).
    unfold strong_row in Hq. apply filter_In in Hq. destruct Hq as [Hq _].
    apply zrange_In in Hq. rewrite Ec. apply V6.
    now apply (TransposeFacts.row_in_range (row A) (nnz A) (IA A)) with (i := i).
Qed.

Lemma strong_graph_loop_free : loop_free (generate_S A cap th).
Proof.
  destruct (StrengthFacts.generate_S_compacted A cap th HA HD) as (Er & _).
  intros i p Hi Hp. rewrite Er in Hi.
  destruct (strong_cell i p Hi Hp) as (q & Hq & ->).
  unfold strong_row in Hq. apply filter_In in Hq. destruct Hq as [_ Hq].
  unfold strong in Hq. apply andb_prop in Hq. destruct Hq as [Hq _].
  apply andb_prop in Hq. destruct Hq as [Hq _].
  destruct (Z.eqb_spec (JA A q) i); [discriminate | assumption].
Qed.

End StrongGraph.

(** *** One turn of the setup loop *)

Section Setup.
Context {K : Constants} {D : SmootherData}
        {EC : Coarsening.Externals} {EI : Interpolation.Externals}
        {ES : AmgSetupRS.Externals}.
Existing Instance bucket_lists.
Hypothesis HK : Constants_ok K.

(** Of the Galerkin product and of the row reordering, which are not among
    the sources, the number of rows: the product [R A P] has the rows of
    [R], the reordering keeps them. *)
Hypothesis Hrap : forall R A P, row (fasp_blas_dcsr_rap R A P) = row R.
Hypothesis Hpref : forall M, row (fasp_dcsr_diagpref M) = row M.

(** The classical coarsening of a level operator gives fewer columns to
    the interpolation than the operator has rows. *)
Lemma coarsening_rs_cols (A : dCSRmat) (v : arr Z) (P : dCSRmat) (S : iCSRmat)
  (prm : AMG_param) (c : coarsening_result) :
  coarsening_type prm <> COARSE_AC ->
  coarsening_type prm <> COARSE_CR ->
  level_operator A -> 0 < row A ->
  fasp_amg_coarsening_rs A v P S prm = Some c ->
  (Coarsening.status c <? 0) = false ->
  col (Coarsening.P_out c) < row A.
Proof.
  intros Hac Hcr (HA & Hsq & HD) Hrow. unfold fasp_amg_coarsening_rs. cbv zeta.
  destruct (Z.eqb_spec (coarsening_type prm) COARSE_RS) as [Hct | Hrs].
  2:{ destruct (Z.eqb_spec (coarsening_type prm) COARSE_AC) as [|_]; [contradiction|].
      destruct (Z.eqb_spec (coarsening_type prm) COARSE_CR) as [|_]; [contradiction|].
      cbn [orb]. intros E. injection E as <-. cbn [Coarsening.status].
      pose proof (err_coarse_neg K HK) as Hneg. intros Es.
      apply Z.ltb_ge in Es. lia. }
  rewrite Hct. cbn [orb negb andb].
  set (G := generate_S A (max_row_sum prm) (strong_threshold prm)).
  destruct (Z.eqb_spec (innz G) 0) as [E0 | E0].
  - intros E. injection E as <-. cbn. discriminate.
  - destruct (form_coarse_level A G v (row A) (interpolation_type prm))
      as [[v' c']|] eqn:Ef; [|discriminate].
    intros E _. injection E as <-. cbn [Coarsening.P_out].
    assert (Hpos : 0 < innz G).
    { destruct (StrengthFacts.generate_S_compacted A (max_row_sum prm)
                  (strong_threshold prm) HA HD) as (_ & _ & En & _).
      fold G in En. lia. }
    destruct (StrengthFacts.generate_S_compacted A (max_row_sum prm)
                (strong_threshold prm) HA HD) as (Er & Ec & _).
    assert (Hc : c' < row A).
    { apply (SplittingCount.form_coarse_level_count G (row A)) with (5 := Hrow) (6 := Ef).
      - now apply strong_graph_valid.
      - exact Er.
      - rewrite Hsq. exact Ec.
      - now apply strong_graph_loop_free. }
    destruct (interpolation_type prm =? INTERP_STD); exact Hc.
Qed.

(** The interpolation either has [fasp_chkerr] called with a negative
    status, or leaves the sizes of [P]. *)
Lemma interp_cols (A : dCSRmat) (v : arr Z) (P : dCSRmat) (S : iCSRmat)
  (prm : AMG_param) :
  match Interpolation.chkerr (Interpolation.fasp_amg_interp A v P S prm) with
  | Some code => (code <? 0) = true
  | None => col (Interpolation.P_out (Interpolation.fasp_amg_interp A v P S prm))
            = col P
  end.
Proof.
  pose proof (err_interp_neg K HK) as Hneg.
  unfold Interpolation.fasp_amg_interp. cbv zeta.
  repeat match goal with
         | |- context [if ?b then _ else _] => destruct b
         end; cbn; try reflexivity; apply Z.ltb_lt; exact Hneg.
Qed.

(** The test [P.col * 1.5 > A.row]. *)
Lemma kept_two_thirds (c r : Z) :
  Qgtb (inject_Z c * (15 # 10)) (inject_Z r) = true <-> 2 * r < 3 * c.
Proof.
  rewrite Qgtb_gt. unfold Qlt, Qmult, inject_Z. cbn [Qnum Qden]. lia.
Qed.

(** What a turn leaves of the levels: a turn that goes on adds the next
    level and, with the classical coarsening of a level operator, gives it
    fewer rows; the type of the coarsening stays or becomes the classical
    one, which it does when the next level keeps more than two thirds of
    the rows; the operators of the other levels, the numbers of levels,
    the coarsest size asked for and the number of aggressive levels stay
    as they are. *)
Lemma setup_turn_spec (st : setup_state) :
  match setup_turn st with
  | Next st' =>
      level st' = level st + 1 /\
      (forall i, i <> level st + 1 -> A (mgl st' i) = A (mgl st i)) /\
      (forall i, num_levels (mgl st' i) = num_levels (mgl st i)) /\
      coarse_dof (param st') = coarse_dof (param st) /\
      aggressive_level (param st') = aggressive_level (param st) /\
      (coarsening_type (param st') = coarsening_type (param st) \/
       coarsening_type (param st') = COARSE_RS) /\
      (2 * row (A (mgl st (level st))) < 3 * row (A (mgl st' (level st + 1))) ->
       coarsening_type (param st') = COARSE_RS) /\
      (coarsening_type (param st) <> COARSE_CR ->
       (coarsening_type (param st) = COARSE_AC ->
        aggressive_level (param st) <= level st) ->
       level_operator (A (mgl st (level st))) ->
       0 < row (A (mgl st (level st))) ->
       row (A (mgl st' (level st + 1))) < row (A (mgl st (level st))))
  | Break st' =>
      level st' = level st /\ (forall i, A (mgl st' i) = A (mgl st i))
  | Finished st' =>
      forall i, A (mgl st' i) = A (mgl st i) /\
                num_levels (mgl st' i) = num_levels (mgl st i)
  | _ => True
  end.
Proof.
  unfold setup_turn. cbv zeta.
  set (pr := if level st <? ILU_levels (param st) then _ else _).
  assert (Hpr : level (snd pr) = level st /\ param (snd pr) = param st /\
                forall i, A (mgl (snd pr) i) = A (mgl st i) /\
                          num_levels (mgl (snd pr) i) = num_levels (mgl st i)).
  { subst pr. destruct (level st <? ILU_levels (param st)); [|cbn; auto].
    destruct (fasp_ilu_dcsr_setup _ _) as [s lu]. cbn.
    split; [reflexivity | split; [reflexivity|]]. intros i. unfold upd.
    destruct (Z.eqb_spec i (level st)) as [-> | _]; cbn; auto. }
  destruct pr as [failed st1]. cbn [snd] in Hpr. destruct Hpr as (Hl & Hp & Hm).
  destruct failed; [exact Hm|].
  cbn [mgl param vertices AmgSetupRS.S level status].
  set (prm := if (coarsening_type (param st1) =? COARSE_AC) && _ then _ else _).
  assert (Hprm : coarse_dof prm = coarse_dof (param st) /\
                 aggressive_level prm = aggressive_level (param st) /\
                 (coarsening_type prm = coarsening_type (param st) \/
                  coarsening_type prm = COARSE_RS) /\
                 (coarsening_type (param st) <> COARSE_CR ->
                  (coarsening_type (param st) = COARSE_AC ->
                   aggressive_level (param st) <= level st) ->
                  coarsening_type prm <> COARSE_AC /\
                  coarsening_type prm <> COARSE_CR)).
  { subst prm. rewrite Hp.
    pose proof (coarse_rs_ac K HK) as N1. pose proof (coarse_rs_cr K HK) as N2.
    destruct (Z.eqb_spec (coarsening_type (param st)) COARSE_AC) as [Eac | Nac];
      cbn [andb].
    - destruct (Z.geb_spec (level st) (aggressive_level (param st))) as [Hge | Hlt];
        cbn; (split; [reflexivity | split; [reflexivity | split; [auto|]]]).
      + intros _ _. split; assumption.
      + intros _ Hag. specialize (Hag Eac). lia.
    - split; [reflexivity | split; [reflexivity | split; [auto|]]].
      intros Hcr _. split; assumption. }
  clearbody prm.
  destruct (fasp_amg_coarsening_rs _ _ _ _ prm) as [c|] eqn:Ec; [|exact I].
  destruct (Coarsening.status c <? 0) eqn:Es.
  { cbn [level mgl]. split; [reflexivity|]. intros i. unfold upd.
    destruct (Z.eqb_spec i (level st)) as [-> | _]; [cbn|]; apply Hm. }
  cbn [A P set_P set_cfmark].
  destruct (col (Coarsening.P_out c) <=? 50).
  { cbn [level mgl]. split; [reflexivity|]. intros i. unfold upd.
    destruct (Z.eqb_spec i (level st)) as [-> | _]; [cbn|]; apply Hm. }
  set (prm2 := if Qgtb _ _ then set_coarsening_type prm COARSE_RS else prm).
  assert (Hprm2 : coarse_dof prm2 = coarse_dof (param st) /\
                  aggressive_level prm2 = aggressive_level (param st) /\
                  (coarsening_type prm2 = coarsening_type (param st) \/
                   coarsening_type prm2 = COARSE_RS) /\
                  (2 * row (A (mgl st1 (level st))) < 3 * col (Coarsening.P_out c) ->
                   coarsening_type prm2 = COARSE_RS)).
  { subst prm2.
    destruct (Qgtb _ _) eqn:Eq; cbn.
    - repeat split; try apply Hprm. now right.
    - repeat split; try apply Hprm. intros Hk. apply kept_two_thirds in Hk.
      congruence. }
  clearbody prm2.
  pose proof (interp_cols (A (mgl st1 (level st))) (vertices_out c)
                (Coarsening.P_out c) (S_out c) prm2) as Hi.
  set (r := Interpolation.fasp_amg_interp _ _ _ _ prm2) in *.
  clearbody r. cbn [A P R set_P set_R set_cfmark].
  destruct (Interpolation.chkerr r) as [code|]; [rewrite Hi; exact I|].
  destruct (Interpolation.status r <? 0).
  { cbn [level mgl]. split; [reflexivity|]. intros i. unfold upd.
    destruct (Z.eqb_spec i (level st)) as [-> | _]; [cbn|]; apply Hm. }
  cbn [level mgl param].
  split; [reflexivity | split; [|split; [|split; [apply Hprm2|]]]].
  - intros i Hne. rewrite upd_other by exact Hne. unfold upd.
    destruct (Z.eqb_spec i (level st)) as [-> | _]; [cbn|]; apply Hm.
  - intros i. unfold upd.
    destruct (Z.eqb_spec i (level st + 1)) as [-> | _];
      destruct (Z.eqb_spec (level st + 1) (level st)) as [E | _]; try lia;
      [cbn; apply Hm|].
    destruct (Z.eqb_spec i (level st)) as [-> | _]; [cbn|]; apply Hm.
  - split; [apply Hprm2|]. split; [apply Hprm2|]. split.
    + intros Hk. apply Hprm2. rewrite upd_same in Hk. cbn [A set_A] in Hk.
      rewrite Hpref, Hrap, (proj1 (TransposeFacts.trans_shape _)), Hi in Hk.
      now rewrite (proj1 (Hm (level st))).
    + intros Hcr Hag Hop Hrow. rewrite upd_same. cbn [A set_A].
      rewrite Hpref, Hrap, (proj1 (TransposeFacts.trans_shape _)), Hi.
      rewrite (proj1 (Hm (level st))) in Ec.
      destruct (proj2 (proj2 (proj2 Hprm)) Hcr Hag) as [Nac Ncr].
      apply (coarsening_rs_cols _ _ _ _ _ _ Nac Ncr Hop Hrow Ec Es).
Qed.

(** The levels that the loop leaves, from a state on: the operators up to
    the level of the state stay, and every level that gets a next level had
    the loop condition hold and, if it is a level operator, has more rows
    than the next. *)
Lemma setup_loop_levels (max_lv : Z) (turns : nat) :
  forall (st : setup_state) (s : Z) (m : arr AMG_data) (prm : AMG_param),
    0 <= level st ->
    num_levels (mgl st 0) = 0 ->
    setup_loop turns max_lv st = Returned s m prm ->
    (forall i, 0 <= i <= level st -> A (m i) = A (mgl st i)) /\
    (forall i, level st <= i -> i + 1 < num_levels (m 0) ->
               row (A (m i)) > ZMAX (coarse_dof (param st)) 50 /\
               i < max_lv - 1 /\
               ((coarsening_type (param st) <> COARSE_CR /\
                 (coarsening_type (param st) = COARSE_AC ->
                  aggressive_level (param st) <= i)
                 \/ exists j, level st <= j < i /\
                              2 * row (A (m j)) < 3 * row (A (m (j + 1)))) ->
                level_operator (A (m i)) -> row (A (m (i + 1))) < row (A (m i)))).
Proof.
  pose proof (coarse_rs_ac K HK) as Nac. pose proof (coarse_rs_cr K HK) as Ncr.
  assert (Hfin : forall (st : setup_state) s m prm,
            0 <= level st -> setup_finish st = Returned s m prm ->
            (forall i, A (m i) = A (mgl st i)) /\ num_levels (m 0) = level st + 1).
  { intros st s m prm Hl E.
    destruct (SetupFacts.setup_finish_levels st) as (m' & E' & Hn & Hk).
    rewrite E' in E. injection E as _ <- _.
    split; [intros i; apply Hk | apply Hn; lia]. }
  induction turns as [|turns IH]; intros st s m prm Hl Hn; cbn [setup_loop].
  - destruct (_ && _); [discriminate|]. intros E.
    destruct (Hfin _ _ _ _ Hl E) as [F N]. split; [auto | intros i Hi Hlt; lia].
  - destruct (_ && _) eqn:G.
    2:{ intros E. destruct (Hfin _ _ _ _ Hl E) as [F N].
        split; [auto | intros i Hi Hlt; lia]. }
    apply andb_prop in G. destruct G as [G1 G2].
    apply Z.gtb_lt in G1. apply Z.ltb_lt in G2.
    pose proof (setup_turn_spec st) as T.
    destruct (setup_turn st) as [st'|st'|st'|code|]; try discriminate.
    + destruct T as (T1 & T2 & T3 & T4 & T5 & T6 & T7 & T8).
      intros E. apply IH in E; [|lia | now rewrite T3].
      destruct E as [F Tr]. split.
      * intros i Hi. rewrite F by lia. apply T2. lia.
      * intros i Hi Hlt. destruct (Z.eq_dec i (level st)) as [-> | Hne].
        { rewrite (F (level st)), (F (level st + 1)) by lia.
          rewrite (T2 (level st)) by lia.
          split; [lia | split; [lia|]]. intros Hcl Hop.
          destruct Hcl as [[Hcr Hag] | (j & Hj & _)]; [|lia].
          apply T8; [exact Hcr | exact Hag | exact Hop|].
          unfold ZMAX in G1. destruct (_ >? 50) eqn:Z50; [apply Z.gtb_lt in Z50|]; lia. }
        { destruct (Tr i ltac:(lia) Hlt) as (X1 & X2 & X3). rewrite T4 in X1.
          split; [exact X1 | split; [exact X2|]]. intros Hcl Hop.
          apply X3; [|exact Hop]. rewrite T5.
          assert (Hrs : coarsening_type (param st') = COARSE_RS ->
                        coarsening_type (param st') <> COARSE_CR /\
                        (coarsening_type (param st') = COARSE_AC ->
                         aggressive_level (param st) <= i)).
          { intros Ers. rewrite Ers. split; [exact Ncr | intros Eq; congruence]. }
          destruct Hcl as [[Hcr Hag] | (j & Hj & Hk)].
          - left. destruct T6 as [T6 | T6]; [|now apply Hrs].
            rewrite T6. split; assumption.
          - destruct (Z.eq_dec j (level st)) as [-> | Hnj].
            + left. apply Hrs, T7.
              rewrite (F (level st)), (F (level st + 1)) in Hk by lia.
              now rewrite (T2 (level st)) in Hk by lia.
            + right. exists j. split; [lia | exact Hk]. }
    + destruct T as [T1 T2]. intros E.
      assert (Hl' : 0 <= level st') by lia.
      destruct (Hfin _ _ _ _ Hl' E) as [F N]. split.
      * intros i Hi. rewrite F. apply T2.
      * intros i Hi Hlt. lia.
    + intros E. injection E as _ <- _. split.
      * intros i Hi. apply T.
      * intros i Hi Hlt. rewrite (proj2 (T 0)), Hn in Hlt. lia.
Qed.

(** C5 (amended).  The hierarchy is handed to [fasp_amg_setup_rs] with no
    level counted, the product [R A P] has the rows of [R] and the
    reordering keeps the rows, and the setup returns.  Then for every pair
    of consecutive levels [i] and [i + 1] of the hierarchy: level [i] was
    coarsened with more rows than the larger of [coarse_dof] and [50] and
    with its index below [max_levels - 1]; and if level [i] was coarsened
    classically and its operator is a level operator (square, with valid
    arrays, every row holding its diagonal at one position), level [i + 1]
    has fewer rows than level [i].  The coarsening of level [i] is the
    classical one when the setup is entered with a type other than the
    aggressive one and compatible relaxation, with the aggressive type
    from the level [max (1, aggressive_level)] on, and with any type after
    a level that kept more than two thirds of its rows.  The bucket lists
    are the ones modelled from the spec. *)
Theorem C5_rows_decrease (mgl0 : arr AMG_data) (param0 : AMG_param) (S0 : iCSRmat)
  (s : Z) (m : arr AMG_data) (prm : AMG_param) (i : Z) :
  num_levels (mgl0 0) = 0 ->
  fasp_amg_setup_rs mgl0 param0 S0 = Returned s m prm ->
  0 <= i -> i + 1 < num_levels (m 0) ->
  row (A (m i)) > ZMAX (coarse_dof param0) 50 /\
  i < max_levels param0 - 1 /\
  (coarsened_classically param0 m i -> level_operator (A (m i)) ->
   row (A (m (i + 1))) < row (A (m i))).
Proof.
  intros Hn E Hi Hlt. unfold fasp_amg_setup_rs in E. cbv zeta in E.
  apply setup_loop_levels in E.
  - cbn [level param] in E. destruct E as [_ Tr].
    destruct (Tr i Hi Hlt) as (X1 & X2 & X3).
    split; [|split; [exact X2|]].
    { destruct (_ && _) in X1; exact X1. }
    intros Hcl Hop. apply X3; [|exact Hop].
    destruct Hcl as [[Hcr Hag] | (j & Hj & Hk)].
    + left. destruct (_ && _) eqn:Eadj; cbn.
      * apply andb_prop in Eadj. destruct Eadj as [Eac Elt].
        apply Z.eqb_eq in Eac. cbn in Eac.
        split; [exact Hcr | intros _; apply Hag, Eac].
      * split; [exact Hcr | intros Eac; apply Hag, Eac].
    + right. exists j. split; [exact Hj | exact Hk].
  - cbn. lia.
  - cbn [mgl]. rewrite upd_same. cbn. exact Hn.
Qed.

End Setup.

(** The test on the arrays is sound. *)
Lemma level_operatorb_sound (A : dCSRmat) :
  level_operatorb A = true -> level_operator A.
Proof.
  unfold level_operatorb. intros H.
  apply andb_prop in H. destruct H as [H H7].
  apply andb_prop in H. destruct H as [H H6].
  apply andb_prop in H. destruct H as [H H5].
  apply andb_prop in H. destruct H as [H H4].
  apply andb_prop in H. destruct H as [H H3].
  apply andb_prop in H. destruct H as [H1 H2].
  apply Z.leb_le in H1. apply Z.eqb_eq in H2, H3, H4.
  rewrite forallb_forall in H5, H6, H7.
  split; [constructor | split]; try assumption.
  - lia.
  - intros i Hi. apply Z.leb_le, H5, zrange_In. exact Hi.
  - intros p Hp. apply zrange_In in Hp. apply H6 in Hp.
    apply andb_prop in Hp. destruct Hp as [L U].
    apply Z.leb_le in L. apply Z.ltb_lt in U. lia.
  - intros i Hi. apply zrange_In in Hi. apply H7 in Hi.
    destruct (filter _ _) as [|d [|? ?]] eqn:F; try discriminate.
    assert (Hd : In d (filter (fun p => JA A p =? i) (positions (IA A) i)))
      by (rewrite F; now left).
    apply filter_In in Hd. destruct Hd as [Hd Ed].
    apply zrange_In in Hd. apply Z.eqb_eq in Ed.
    exists d. split; [exact Hd | split; [exact Ed|]].
    intros p Hp Ep.
    assert (Hin : In p (filter (fun p => JA A p =? i) (positions (IA A) i))).
    { apply filter_In. split; [now apply zrange_In | now apply Z.eqb_eq]. }
    rewrite F in Hin. destruct Hin as [-> | []]. reflexivity.
Qed.

(** A chain of 220 vertices, with the coarsest size lowered to [50] and
    the routines of the sources put in: three levels, of 220, 110 and 55
    rows. *)
Lemma C5_rows_decrease_witness :
  match @fasp_amg_setup_rs Samples.sample_constants Samples.no_data bucket_lists
          (@code_coarsening Samples.sample_constants) code_interpolation Samples.chain_setup
          (Samples.flat_levels (Samples.chain_operator 220)) Samples.small_param
          Samples.empty_graph with
  | Returned s m prm =>
      num_levels (m 0) = 3 /\
      forall i, 0 <= i -> i + 1 < num_levels (m 0) ->
                row (A (m i)) > ZMAX (coarse_dof Samples.small_param) 50 /\
                i < max_levels Samples.small_param - 1 /\
                row (A (m (i + 1))) < row (A (m i))
  | _ => False
  end.
Proof.
  assert (F : match @fasp_amg_setup_rs Samples.sample_constants Samples.no_data
                      bucket_lists (@code_coarsening Samples.sample_constants) code_interpolation
                      Samples.chain_setup
                      (Samples.flat_levels (Samples.chain_operator 220))
                      Samples.small_param Samples.empty_graph with
              | Returned s m prm =>
                  num_levels (m 0) = 3 /\
                  level_operatorb (A (m 0)) = true /\
                  level_operatorb (A (m 1)) = true
              | _ => False
              end)
    by (vm_compute; repeat split; reflexivity).
  destruct (@fasp_amg_setup_rs Samples.sample_constants Samples.no_data bucket_lists
              (@code_coarsening Samples.sample_constants) code_interpolation Samples.chain_setup
              (Samples.flat_levels (Samples.chain_operator 220)) Samples.small_param
              Samples.empty_graph) as [s m prm| |] eqn:E; try contradiction.
  destruct F as (N & A0 & A1). split; [exact N|]. intros i Hi Hlt.
  destruct (@C5_rows_decrease Samples.sample_constants Samples.no_data
              (@code_coarsening Samples.sample_constants) code_interpolation Samples.chain_setup
              TypeCodeFacts.sample_constants_ok (fun _ _ _ => eq_refl) (fun _ => eq_refl)
              (Samples.flat_levels (Samples.chain_operator 220)) Samples.small_param
              Samples.empty_graph s m prm i eq_refl E Hi Hlt) as (X1 & X2 & X3).
  split; [exact X1 | split; [exact X2|]]. apply X3.
  - left. split; [discriminate | intros Eac; discriminate Eac].
  - rewrite N in Hlt. apply level_operatorb_sound.
    assert (Hc : i = 0 \/ i = 1) by lia.
    destruct Hc as [-> | ->]; assumption.
Defined.

(** The claim as it is written fails in two ways, both with the routines
    of the sources put in, 51 rows, the coarsest size lowered to [50] and
    two levels at most, so that of the Galerkin product only its number of
    rows is used.  With the classical coarsening, for a matrix that stores
    each diagonal twice: every vertex is its own strong neighbour, every
    vertex becomes coarse, and the next level has as many rows as this
    one.  With the aggressive coarsening, for a star, a level operator:
    its centre is the only vertex to depend on others, all the other
    vertices become coarse first and then fine, and in the end every
    vertex is made coarse for want of a coarse vertex within two strong
    couplings; the next level has as many rows as this one. *)
Lemma C5_all_coarse_keeps_rows :
  match @fasp_amg_setup_rs Samples.sample_constants Samples.no_data bucket_lists
          (@code_coarsening Samples.sample_constants) code_interpolation rows_of_R
          (Samples.flat_levels (Samples.doubled_operator 51))
          (two_level_param (@COARSE_RS Samples.sample_constants)) Samples.empty_graph with
  | Returned s m prm =>
      num_levels (m 0) = 2 /\ row (A (m 0)) = 51 /\ row (A (m 1)) = 51 /\
      ~ (forall i, 0 <= i -> i + 1 < num_levels (m 0) ->
                   row (A (m (i + 1))) < row (A (m i)))
  | _ => False
  end /\
  match @fasp_amg_setup_rs Samples.sample_constants Samples.no_data bucket_lists
          (@code_coarsening Samples.sample_constants) code_interpolation rows_of_R
          (Samples.flat_levels (star_operator 51))
          (two_level_param (@COARSE_AC Samples.sample_constants)) Samples.empty_graph with
  | Returned s m prm =>
      num_levels (m 0) = 2 /\ row (A (m 0)) = 51 /\ row (A (m 1)) = 51 /\
      level_operator (A (m 0)) /\
      ~ (forall i, 0 <= i -> i + 1 < num_levels (m 0) ->
                   level_operator (A (m i)) ->
                   row (A (m (i + 1))) < row (A (m i)))
  | _ => False
  end.
Proof.
  split.
  - assert (F : match @fasp_amg_setup_rs Samples.sample_constants Samples.no_data
                        bucket_lists (@code_coarsening Samples.sample_constants) code_interpolation rows_of_R
                        (Samples.flat_levels (Samples.doubled_operator 51))
                        (two_level_param (@COARSE_RS Samples.sample_constants)) Samples.empty_graph with
                | Returned s m prm =>
                    num_levels (m 0) = 2 /\ row (A (m 0)) = 51 /\ row (A (m 1)) = 51
                | _ => False
                end)
      by (vm_compute; repeat split; reflexivity).
    destruct (@fasp_amg_setup_rs Samples.sample_constants Samples.no_data bucket_lists
                (@code_coarsening Samples.sample_constants) code_interpolation rows_of_R
                (Samples.flat_levels (Samples.doubled_operator 51))
                (two_level_param (@COARSE_RS Samples.sample_constants)) Samples.empty_graph)
      as [s m prm| |]; try contradiction.
    destruct F as (N & R0 & R1).
    split; [exact N | split; [exact R0 | split; [exact R1|]]].
    intros H. specialize (H 0 ltac:(lia) ltac:(lia)). cbn in H. lia.
  - assert (F : match @fasp_amg_setup_rs Samples.sample_constants Samples.no_data
                        bucket_lists (@code_coarsening Samples.sample_constants) code_interpolation rows_of_R
                        (Samples.flat_levels (star_operator 51))
                        (two_level_param (@COARSE_AC Samples.sample_constants)) Samples.empty_graph with
                | Returned s m prm =>
                    num_levels (m 0) = 2 /\ row (A (m 0)) = 51 /\ row (A (m 1)) = 51 /\
                    level_operatorb (A (m 0)) = true
                | _ => False
                end)
      by (vm_compute; repeat split; reflexivity).
    destruct (@fasp_amg_setup_rs Samples.sample_constants Samples.no_data bucket_lists
                (@code_coarsening Samples.sample_constants) code_interpolation rows_of_R
                (Samples.flat_levels (star_operator 51))
                (two_level_param (@COARSE_AC Samples.sample_constants)) Samples.empty_graph)
      as [s m prm| |]; try contradiction.
    destruct F as (N & R0 & R1 & L0). apply level_operatorb_sound in L0.
    split; [exact N | split; [exact R0 | split; [exact R1 | split; [exact L0|]]]].
    intros H. specialize (H 0 ltac:(lia) ltac:(lia) L0). cbn in H. lia.
Qed.

End DecreaseFacts.

From Stdlib Require Import Permutation.

(* ------------------------------------------------------------------ *)
(** ** BlaSparseCSR.c: columns, diagonals, re-indexing *)

Module SparseOpsFacts.
Import Rows SparseOps.

(** *** Loops that write one cell, or each cell in turn *)


(** Cells in a range each get a value that depends on the old cell. *)
Lemma shift_loop (n o : Z) (a : arr Z) (k : Z) :
  for_loop 0 n (fun ai i => upd ai i (INT_wrap (ai i + o))) a k
  = if (0 <=? k) && (k <? n) then INT_wrap (a k + o) else a k.
Proof. apply (cellwise_loop (fun v _ => INT_wrap (v + o))). Qed.

(** Sums of [INT]s: only the last wrap counts, and a value of [INT] is
    what it is. *)
Lemma INT_wrap_add_l (x y : Z) : INT_wrap (INT_wrap x + y) = INT_wrap (x + y).
Proof.
  unfold INT_wrap. f_equal.
  replace ((x + 2147483648) mod 4294967296 - 2147483648 + y + 2147483648)
    with ((x + 2147483648) mod 4294967296 + y) by lia.
  rewrite Zplus_mod_idemp_l. f_equal. lia.
Qed.

Lemma INT_wrap_add_r (x y : Z) : INT_wrap (x + INT_wrap y) = INT_wrap (x + y).
Proof. rewrite Z.add_comm, INT_wrap_add_l. f_equal. lia. Qed.

Lemma INT_wrap_small (z : Z) : is_INT z -> INT_wrap z = z.
Proof.
  unfold is_INT, INT_wrap. intros H. rewrite Z.mod_small by lia. lia.
Qed.

(** The test of the structure is sound. *)
Lemma csr_validb_sound (A : dCSRmat) : csr_validb A = true -> csr_valid A.
Proof.
  unfold csr_validb. intros H.
  apply andb_prop in H. destruct H as [H H6].
  apply andb_prop in H. destruct H as [H H5].
  apply andb_prop in H. destruct H as [H H4].
  apply andb_prop in H. destruct H as [H H3].
  apply andb_prop in H. destruct H as [H1 H2].
  apply Z.leb_le in H1, H2. apply Z.eqb_eq in H3, H4.
  rewrite forallb_forall in H5, H6.
  constructor; try assumption.
  - intros i Hi. apply Z.leb_le, H5, zrange_In. exact Hi.
  - intros p Hp. apply zrange_In in Hp. apply H6 in Hp.
    apply andb_prop in Hp. destruct Hp as [L U].
    apply Z.leb_le in L. apply Z.ltb_lt in U. lia.
Qed.

(** *** fasp_dcsr_shift *)

(** X1.  Re-indexing by [a] and then by [b] is re-indexing by their sum as
    an [INT] (the sums wrap around as [INT]s do): the offsets of the rows
    and the columns of the positions move, nothing else does.  So
    re-indexing by [offset] and then by [- offset] gives back every cell
    that held a value of [INT]; and a cell that the loops reach (with
    fewer than [INT_MAX] rows, so that [A->row+1] is what it says) holds
    the old value plus the offset, wrapped, which is the sum itself when
    that is a value of [INT]. *)
Theorem shift_composes (A : dCSRmat) (a b : Z) :
  (forall i, IA (fasp_dcsr_shift (fasp_dcsr_shift A a) b) i
             = IA (fasp_dcsr_shift A (INT_wrap (a + b))) i) /\
  (forall p, JA (fasp_dcsr_shift (fasp_dcsr_shift A a) b) p
             = JA (fasp_dcsr_shift A (INT_wrap (a + b))) p) /\
  (forall i, is_INT (IA A i) ->
             IA (fasp_dcsr_shift (fasp_dcsr_shift A a) (INT_wrap (- a))) i = IA A i) /\
  (forall p, is_INT (JA A p) ->
             JA (fasp_dcsr_shift (fasp_dcsr_shift A a) (INT_wrap (- a))) p = JA A p) /\
  (forall i, 0 <= i <= row A -> row A < 2147483647 ->
             IA (fasp_dcsr_shift A a) i = INT_wrap (IA A i + a) /\
             (is_INT (IA A i + a) -> IA (fasp_dcsr_shift A a) i = IA A i + a)) /\
  (forall p, 0 <= p < nnz A ->
             JA (fasp_dcsr_shift A a) p = INT_wrap (JA A p + a) /\
             (is_INT (JA A p + a) -> JA (fasp_dcsr_shift A a) p = JA A p + a)) /\
  val (fasp_dcsr_shift A a) = val A.
Proof.
  unfold fasp_dcsr_shift. cbv zeta. cbn [IA JA row col nnz val].
  assert (C : forall x, INT_wrap (INT_wrap (x + a) + b)
                        = INT_wrap (x + INT_wrap (a + b))).
  { intros x. rewrite INT_wrap_add_l, INT_wrap_add_r. f_equal. lia. }
  assert (B : forall x, is_INT x -> INT_wrap (INT_wrap (x + a) + INT_wrap (- a)) = x).
  { intros x Hx. rewrite INT_wrap_add_l, INT_wrap_add_r.
    replace (x + a + - a) with x by lia. now apply INT_wrap_small. }
  split; [|split; [|split; [|split; [|split; [|split]]]]].
  - intros i. rewrite !shift_loop.
    destruct ((0 <=? i) && (i <? INT_wrap (row A + 1))); [apply C | reflexivity].
  - intros p. rewrite !shift_loop.
    destruct ((0 <=? p) && (p <? nnz A)); [apply C | reflexivity].
  - intros i Hi. rewrite !shift_loop.
    destruct ((0 <=? i) && (i <? INT_wrap (row A + 1))); [now apply B | reflexivity].
  - intros p Hp. rewrite !shift_loop.
    destruct ((0 <=? p) && (p <? nnz A)); [now apply B | reflexivity].
  - intros i Hi Hrow. rewrite shift_loop.
    rewrite (INT_wrap_small (row A + 1)) by (unfold is_INT; lia).
    replace ((0 <=? i) && (i <? row A + 1)) with true by (symmetry; zbool).
    split; [reflexivity | apply INT_wrap_small].
  - intros p Hp. rewrite shift_loop.
    replace ((0 <=? p) && (p <? nnz A)) with true by (symmetry; zbool).
    split; [reflexivity | apply INT_wrap_small].
  - reflexivity.
Qed.

(** At the largest [INT] the offsets wrap. *)
Example shift_wraps :
  map (IA (fasp_dcsr_shift Samples.boundary_operator 2147483647)) (zrange 0 4)
  = [2147483647; -2147483646; -2147483645; -2147483644].
Proof. reflexivity. Qed.

(** *** fasp_dcsr_getcol *)

Section WithCodes.
Context {C : Codes}.


End WithCodes.

(** *** fasp_dcsr_regdiag *)

Section Regularize.
Context {K : Constants} {C : Codes}.
Variables (A : dCSRmat) (value : Q).
Hypothesis Hmono : forall i, 0 <= i < row A -> IA A i <= IA A (i + 1).

Lemma regdiag_scanned :
  regdiag_scanned_to A value (IA A (row A)) (regdiag_scan A value).
Proof.
  unfold regdiag_scan.
  destruct (Z.le_gt_cases (row A) 0) as [Hrow | Hrow].
  { rewrite for_loop_empty by lia. split; [discriminate|]. intros _.
    split; [reflexivity|]. intros i p Hi. lia. }
  apply (for_loop_inv (fun t st => regdiag_scanned_to A value (IA A t) st)).
  - lia.
  - split; [discriminate|]. intros _. split; [reflexivity|].
    intros i p Hi Hp Hlt.
    pose proof (TransposeFacts.offsets_le (row A) (IA A) Hmono 0 i ltac:(lia)
                  ltac:(lia) ltac:(lia)). lia.
  - intros t st Ht IH.
    apply (for_loop_inv (fun k st => regdiag_scanned_to A value k st));
      [now apply Hmono | exact IH|].
    clear st IH. intros k [aj fin] Hk [I1 I2]. cbn [fst snd] in I1, I2.
    destruct fin; [split; [exact I1 | discriminate]|].
    destruct (I2 eq_refl) as [J1 J2]. clear I1 I2.
    assert (Hrest : forall (aj' : arr Q),
              (forall p, p <> k -> aj' p = aj p) ->
              ~ (JA A k = t /\ Qltb (aval A k) 0 = true) ->
              aj' k = regular A value t k ->
              regdiag_scanned_to A value (k + 1) (aj', false)).
    { intros aj' Hsame Hneg Hval. split; [discriminate|]. intros _. cbn [fst].
      split.
      - intros p Hp. rewrite Hsame by lia. apply J1. lia.
      - intros i p Hi Hp Hlt. destruct (Z.eq_dec p k) as [-> | Hne].
        + assert (i = t)
            by (apply (TransposeFacts.row_unique (row A) (IA A) Hmono i t k);
                assumption || lia).
          subst i. split; assumption.
        + rewrite Hsame by exact Hne. apply J2; [exact Hi | exact Hp | lia]. }
    destruct (Z.eqb_spec t (JA A k)) as [Et | Et].
    + rewrite (J1 k ltac:(lia)).
      destruct (Qltb (aval A k) 0) eqn:En.
      * split; [|discriminate]. intros _. exists t, k. auto.
      * destruct (Qltb (aval A k) SMALLREAL) eqn:Es.
        { apply Hrest.
          - intros p Hp. now rewrite upd_other.
          - intros [_ X]. discriminate X.
          - rewrite upd_same. unfold regular. rewrite <- Et, Z.eqb_refl, Es.
            reflexivity. }
        { apply Hrest.
          - reflexivity.
          - intros [_ X]. discriminate X.
          - rewrite (J1 k ltac:(lia)). unfold regular. rewrite Es.
            now rewrite andb_false_r. }
    + apply Hrest.
      * reflexivity.
      * intros [X _]. now apply Et.
      * rewrite (J1 k ltac:(lia)). unfold regular.
        destruct (Z.eqb_spec (JA A k) t) as [E | _]; [now symmetry in E|].
        reflexivity.
Qed.

(** For a matrix with its values and with row offsets that do not
    decrease: [fasp_dcsr_regdiag] returns [ERROR_UNKNOWN] when a row holds
    a negative value at a position of its diagonal, and [FASP_SUCCESS]
    otherwise; in the second case every position of a diagonal whose value
    is below [SMALLREAL] holds [value] afterwards, and every other position
    its value.  The offsets and the columns stay. *)
Theorem regdiag_status :
  val A <> None ->
  IA (fst (fasp_dcsr_regdiag A value)) = IA A /\
  JA (fst (fasp_dcsr_regdiag A value)) = JA A /\
  (negative_diagonal A -> snd (fasp_dcsr_regdiag A value) = ERROR_UNKNOWN) /\
  (~ negative_diagonal A ->
   snd (fasp_dcsr_regdiag A value) = FASP_SUCCESS /\
   forall i p, 0 <= i < row A -> IA A i <= p < IA A (i + 1) ->
               aval (fst (fasp_dcsr_regdiag A value)) p =
               if (JA A p =? i) && Qltb (aval A p) SMALLREAL then value
               else aval A p).
Proof.
  intros Hval. pose proof regdiag_scanned as [S1 S2].
  unfold fasp_dcsr_regdiag. destruct (regdiag_scan A value) as [aj fin].
  cbn [fst snd] in *. split; [reflexivity | split; [reflexivity | split]].
  - intros (i & p & Hi & Hp & Ej & En). destruct fin; [reflexivity|].
    destruct (S2 eq_refl) as [_ J2].
    assert (Hlt : p < IA A (row A)).
    { pose proof (TransposeFacts.offsets_le (row A) (IA A) Hmono (i + 1) (row A)
                    ltac:(lia) ltac:(lia) ltac:(lia)). lia. }
    destruct (J2 i p Hi Hp Hlt) as [X _]. exfalso. apply X. auto.
  - intros Hno. destruct fin; [exfalso; now apply Hno, S1|].
    split; [reflexivity|]. intros i p Hi Hp.
    destruct (S2 eq_refl) as [_ J2].
    assert (Hlt : p < IA A (row A)).
    { pose proof (TransposeFacts.offsets_le (row A) (IA A) Hmono (i + 1) (row A)
                    ltac:(lia) ltac:(lia) ltac:(lia)). lia. }
    destruct (J2 i p Hi Hp Hlt) as [_ X]. revert X. unfold regular, aval.
    cbn [val]. destruct (val A); [auto | contradiction].
Qed.

End Regularize.

(** The rows [2, -1] and [0, 2], with the value [1]. *)
Lemma regdiag_status_witness :
  let K := Samples.sample_constants in
  let C := sample_codes in
  let A := Samples.one_way_operator in
  snd (fasp_dcsr_regdiag A 1) = FASP_SUCCESS /\
  forall i p, 0 <= i < row A -> IA A i <= p < IA A (i + 1) ->
              aval (fst (fasp_dcsr_regdiag A 1)) p =
              if (JA A p =? i) && Qltb (aval A p) SMALLREAL then 1%Q else aval A p.
Proof.
  cbv zeta.
  apply (@regdiag_status Samples.sample_constants sample_codes
           Samples.one_way_operator 1
           (valid_mono _ (csr_validb_sound Samples.one_way_operator eq_refl))).
  - discriminate.
  - intros (i & p & Hi & Hp & Ej & En).
    change (row Samples.one_way_operator) with 2 in Hi.
    assert (Hc : i = 0 \/ i = 1) by lia.
    destruct Hc as [-> | ->].
    + assert (E0 : IA Samples.one_way_operator 0 = 0) by reflexivity.
      assert (E1 : IA Samples.one_way_operator (0 + 1) = 2) by reflexivity.
      rewrite E0, E1 in Hp. assert (Hq : p = 0 \/ p = 1) by lia.
      destruct Hq as [-> | ->]; vm_compute in Ej, En; congruence.
    + assert (E0 : IA Samples.one_way_operator 1 = 2) by reflexivity.
      assert (E1 : IA Samples.one_way_operator (1 + 1) = 3) by reflexivity.
      rewrite E0, E1 in Hp. assert (Hq : p = 2) by lia.
      subst p. vm_compute in En. congruence.
Defined.

(** *** fasp_dcsr_compress and fasp_dcsr_compress_inplace *)

Lemma kept_positions_snoc (A : dCSRmat) (dtol : Q) (b e : Z) :
  b <= e ->
  kept_positions A dtol b (e + 1)
  = kept_positions A dtol b e
    ++ (if Qgtb (ABS (aval A e)) dtol then [e] else []).
Proof.
  intros H. unfold kept_positions. rewrite zrange_last by exact H.
  rewrite filter_app. cbn [filter]. now destruct (Qgtb _ _).
Qed.



Lemma kept_positions_length (A : dCSRmat) (dtol : Q) (b e : Z) :
  b <= e -> Z.of_nat (length (kept_positions A dtol b e)) <= e - b.
Proof.
  intros H. unfold kept_positions.
  pose proof (filter_length_le (fun j => Qgtb (ABS (aval A j)) dtol) (zrange b e)) as L.
  rewrite zrange_length in L. lia.
Qed.

(** A list as the cells of an array, from cell [0] on. *)
Lemma cells_snoc {T : Type} (a : arr T) (l : list T) (x d : T) :
  (forall n, 0 <= n < Z.of_nat (length l) -> a n = nth (Z.to_nat n) l d) ->
  forall n, 0 <= n < Z.of_nat (length (l ++ [x])) ->
            upd a (Z.of_nat (length l)) x n = nth (Z.to_nat n) (l ++ [x]) d.
Proof.
  intros H n Hn. rewrite length_app in Hn. cbn [length] in Hn.
  destruct (Z.eq_dec n (Z.of_nat (length l))) as [-> | Hne].
  - rewrite upd_same, Nat2Z.id, nth_middle. reflexivity.
  - rewrite upd_other by exact Hne. rewrite app_nth1 by lia. apply H. lia.
Qed.

Section Compress.
Variables (A : dCSRmat) (dtol : Q).
Hypothesis HA : csr_valid A.

(** The first pass lists the kept positions in [index] and counts them,
    row after row, in [B->IA]. *)
Lemma compress_index_spec :
  exists index bia,
    compress_index A dtol
    = (index, bia, Z.of_nat (length (kept_positions A dtol 0 (nnz A)))) /\
    (forall n, 0 <= n < Z.of_nat (length (kept_positions A dtol 0 (nnz A))) ->
               index n = nth (Z.to_nat n) (kept_positions A dtol 0 (nnz A)) 0) /\
    (forall i, 0 <= i <= row A ->
               bia i = Z.of_nat (length (kept_positions A dtol 0 (IA A i)))).
Proof.
  pose proof HA as [V1 V2 V3 V4 V5 V6].
  assert (Hoff : forall i, 0 <= i <= row A -> 0 <= IA A i).
  { intros i Hi. rewrite <- V3.
    apply (TransposeFacts.offsets_le (row A) (IA A) V5); lia. }
  enough (G : let '(index, bia, k) := compress_index A dtol in
              k = Z.of_nat (length (kept_positions A dtol 0 (IA A (row A)))) /\
              (forall n, 0 <= n < k ->
                         index n = nth (Z.to_nat n)
                                     (kept_positions A dtol 0 (IA A (row A))) 0) /\
              (forall i, 0 <= i <= row A ->
                         bia i = Z.of_nat (length (kept_positions A dtol 0 (IA A i))))).
  { destruct (compress_index A dtol) as [[index bia] k]. rewrite V4 in G.
    destruct G as (-> & G2 & G3). exists index, bia. auto. }
  unfold compress_index.
  apply (for_loop_inv
           (fun t (st : arr Z * arr Z * Z) =>
              let '(index, bia, k) := st in
              k = Z.of_nat (length (kept_positions A dtol 0 (IA A t))) /\
              (forall n, 0 <= n < k ->
                         index n = nth (Z.to_nat n)
                                     (kept_positions A dtol 0 (IA A t)) 0) /\
              (forall i, 0 <= i <= t ->
                         bia i = Z.of_nat (length (kept_positions A dtol 0 (IA A i)))))).
  - exact V1.
  - rewrite V3. cbn. split; [reflexivity | split; [intros n Hn; lia|]].
    intros i Hi. assert (i = 0) by lia. subst i. rewrite upd_same, V3. reflexivity.
  - intros t [[index bia] k] Ht (E1 & E2 & E3).
    assert (G : let '(index', k') :=
                  for_loop (IA A t) (IA A (t + 1))
                    (fun '(index, k) j =>
                       if Qgtb (ABS (aval A j)) dtol then (upd index k j, k + 1)
                       else (index, k))
                    (index, k) in
                k' = Z.of_nat (length (kept_positions A dtol 0 (IA A (t + 1)))) /\
                (forall n, 0 <= n < k' ->
                           index' n = nth (Z.to_nat n)
                                        (kept_positions A dtol 0 (IA A (t + 1))) 0)).
    { apply (for_loop_inv
               (fun j (st : arr Z * Z) =>
                  let '(index', k') := st in
                  k' = Z.of_nat (length (kept_positions A dtol 0 j)) /\
                  (forall n, 0 <= n < k' ->
                             index' n = nth (Z.to_nat n) (kept_positions A dtol 0 j) 0))).
      - apply V5. lia.
      - auto.
      - intros j [index' k'] Hj (F1 & F2).
        pose proof (Hoff t ltac:(lia)).
        rewrite kept_positions_snoc by lia.
        destruct (Qgtb (ABS (aval A j)) dtol).
        + subst k'. split; [rewrite length_app; cbn [length]; lia|].
          intros n Hn. apply cells_snoc; [exact F2|].
          rewrite length_app. cbn [length]. lia.
        + rewrite app_nil_r. auto. }
    destruct (for_loop (IA A t) _ _ _) as [index' k']. destruct G as [G1 G2].
    split; [exact G1 | split; [exact G2|]].
    intros i Hi. destruct (Z.eq_dec i (t + 1)) as [-> | Hne].
    + rewrite upd_same. exact G1.
    + rewrite upd_other by exact Hne. apply E3. lia.
Qed.

(** A loop that fills two arrays side by side. *)
Lemma pair_fill {T U : Type} (f : Z -> T) (g : Z -> U) (k : Z) (x0 : arr T)
  (y0 : arr U) :
  0 <= k ->
  let st := for_loop 0 k (fun '(x, y) i => (upd x i (f i), upd y i (g i))) (x0, y0) in
  forall p, 0 <= p < k -> fst st p = f p /\ snd st p = g p.
Proof.
  intros Hk. cbv zeta.
  apply (for_loop_inv
           (fun t (st : arr T * arr U) =>
              forall p, 0 <= p < t -> fst st p = f p /\ snd st p = g p)).
  - exact Hk.
  - intros p Hp. lia.
  - intros t [x y] Ht IH p Hp. cbn [fst snd] in *.
    destruct (Z.eq_dec p t) as [-> | Hne].
    + now rewrite !upd_same.
    + rewrite !upd_other by exact Hne. apply IH. lia.
Qed.

Lemma compress_packed : packed A dtol (fasp_dcsr_compress A dtol).
Proof.
  destruct compress_index_spec as (index & bia & E & Hidx & Hbia).
  unfold fasp_dcsr_compress. rewrite E.
  pose proof (pair_fill (fun i => JA A (index i)) (fun i => aval A (index i))
                (Z.of_nat (length (kept_positions A dtol 0 (nnz A))))
                (zeros 0) (zeros 0%Q) ltac:(lia)) as F.
  cbv zeta in F. destruct (for_loop 0 _ _ _) as [bja bval]. cbn [fst snd] in F.
  unfold packed, aval. cbn [row col nnz IA JA val].
  split; [reflexivity | split; [reflexivity | split; [reflexivity | split]]].
  - exact Hbia.
  - intros n Hn. destruct (F n Hn) as [F1 F2]. rewrite F1, F2, Hidx by exact Hn.
    split; reflexivity.
Qed.

(** The loop of the compression in place packs the same positions into
    the front of the arrays of [A] itself. *)
Lemma compress_inplace_spec :
  let '(ia, ja, a, k, iend) := compress_inplace_scan A dtol in
  k = Z.of_nat (length (kept_positions A dtol 0 (nnz A))) /\
  (forall n, 0 <= n < k ->
             ja n = nth (Z.to_nat n) (map (JA A) (kept_positions A dtol 0 (nnz A))) 0 /\
             a n = nth (Z.to_nat n)
                     (map (aval A) (kept_positions A dtol 0 (nnz A))) 0%Q) /\
  (forall i, 0 <= i <= row A ->
             ia i = Z.of_nat (length (kept_positions A dtol 0 (IA A i)))).
Proof.
  pose proof HA as [V1 V2 V3 V4 V5 V6].
  assert (Hoff : forall i, 0 <= i <= row A -> 0 <= IA A i).
  { intros i Hi. rewrite <- V3.
    apply (TransposeFacts.offsets_le (row A) (IA A) V5); lia. }
  rewrite <- V4. unfold compress_inplace_scan.
  enough (G : let '(ia, ja, a, k, iend) :=
                for_loop 0 (row A)
                  (fun '(ia, ja, a, k, iend) i =>
                     let ibegin := iend in
                     let iend := ia (i + 1) in
                     let '(ja, a, k) :=
                       for_loop ibegin iend
                         (fun '(ja, a, k) j =>
                            if Qgtb (ABS (a j)) dtol
                            then (upd ja k (ja j), upd a k (a j), k + 1)
                            else (ja, a, k))
                         (ja, a, k) in
                     (upd ia (i + 1) k, ja, a, k, iend))
                  (IA A, JA A, aval A, 0, IA A 0) in
              iend = IA A (row A) /\
              k = Z.of_nat (length (kept_positions A dtol 0 (IA A (row A)))) /\
              (forall n, 0 <= n < k ->
                 ja n = nth (Z.to_nat n)
                          (map (JA A) (kept_positions A dtol 0 (IA A (row A)))) 0 /\
                 a n = nth (Z.to_nat n)
                         (map (aval A) (kept_positions A dtol 0 (IA A (row A)))) 0%Q) /\
              (forall q, IA A (row A) <= q -> ja q = JA A q /\ a q = aval A q) /\
              (forall i, 0 <= i <= row A ->
                 ia i = Z.of_nat (length (kept_positions A dtol 0 (IA A i)))) /\
              (forall i, row A < i -> ia i = IA A i)).
  { destruct (for_loop 0 (row A) _ _) as [[[[ia ja] a] k] iend].
    destruct G as (_ & G1 & G2 & _ & G3 & _). auto. }
  apply (for_loop_inv
           (fun t (st : arr Z * arr Z * arr Q * Z * Z) =>
              let '(ia, ja, a, k, iend) := st in
              iend = IA A t /\
              k = Z.of_nat (length (kept_positions A dtol 0 (IA A t))) /\
              (forall n, 0 <= n < k ->
                 ja n = nth (Z.to_nat n)
                          (map (JA A) (kept_positions A dtol 0 (IA A t))) 0 /\
                 a n = nth (Z.to_nat n)
                         (map (aval A) (kept_positions A dtol 0 (IA A t))) 0%Q) /\
              (forall q, IA A t <= q -> ja q = JA A q /\ a q = aval A q) /\
              (forall i, 0 <= i <= t ->
                 ia i = Z.of_nat (length (kept_positions A dtol 0 (IA A i)))) /\
              (forall i, t < i -> ia i = IA A i))).
  - exact V1.
  - rewrite V3. cbn. repeat split; try (intros; lia); try reflexivity.
    intros i Hi. assert (i = 0) by lia. subst i. now rewrite V3.
  - intros t [[[[ia ja] a] k] iend] Ht (E0 & E1 & E2 & E3 & E4 & E5).
    cbv zeta. rewrite (E5 (t + 1)) by lia. subst iend.
    assert (G : let '(ja', a', k') :=
                  for_loop (IA A t) (IA A (t + 1))
                    (fun '(ja, a, k) j =>
                       if Qgtb (ABS (a j)) dtol
                       then (upd ja k (ja j), upd a k (a j), k + 1)
                       else (ja, a, k))
                    (ja, a, k) in
                k' = Z.of_nat (length (kept_positions A dtol 0 (IA A (t + 1)))) /\
                (forall n, 0 <= n < k' ->
                   ja' n = nth (Z.to_nat n)
                             (map (JA A) (kept_positions A dtol 0 (IA A (t + 1)))) 0 /\
                   a' n = nth (Z.to_nat n)
                            (map (aval A) (kept_positions A dtol 0 (IA A (t + 1))))
                            0%Q) /\
                (forall q, IA A (t + 1) <= q -> ja' q = JA A q /\ a' q = aval A q)).
    { apply (for_loop_inv
               (fun j (st : arr Z * arr Q * Z) =>
                  let '(ja', a', k') := st in
                  k' = Z.of_nat (length (kept_positions A dtol 0 j)) /\
                  (forall n, 0 <= n < k' ->
                     ja' n = nth (Z.to_nat n) (map (JA A) (kept_positions A dtol 0 j)) 0 /\
                     a' n = nth (Z.to_nat n)
                              (map (aval A) (kept_positions A dtol 0 j)) 0%Q) /\
                  (forall q, j <= q -> ja' q = JA A q /\ a' q = aval A q))).
      - apply V5. lia.
      - auto.
      - intros j [[ja' a'] k'] Hj (F1 & F2 & F3).
        pose proof (Hoff t ltac:(lia)).
        pose proof (kept_positions_length A dtol 0 j ltac:(lia)) as Hlen.
        rewrite kept_positions_snoc by lia.
        destruct (F3 j ltac:(lia)) as [Fj Fa]. rewrite Fa.
        destruct (Qgtb (ABS (aval A j)) dtol).
        + subst k'. split; [rewrite length_app; cbn [length]; lia | split].
          * intros n Hn. rewrite !map_app. cbn [map]. rewrite Fj. split.
            { replace (Z.of_nat (length (kept_positions A dtol 0 j)))
                with (Z.of_nat (length (map (JA A) (kept_positions A dtol 0 j))))
                by (now rewrite length_map).
              apply cells_snoc;
                [intros m Hm; rewrite length_map in Hm; now apply F2
                | rewrite length_app, length_map; cbn [length]; lia]. }
            { replace (Z.of_nat (length (kept_positions A dtol 0 j)))
                with (Z.of_nat (length (map (aval A) (kept_positions A dtol 0 j))))
                by (now rewrite length_map).
              apply cells_snoc;
                [intros m Hm; rewrite length_map in Hm; now apply F2
                | rewrite length_app, length_map; cbn [length]; lia]. }
          * intros q Hq. rewrite !upd_other by lia. apply F3. lia.
        + rewrite app_nil_r. split; [exact F1 | split; [exact F2|]].
          intros q Hq. apply F3. lia. }
    destruct (for_loop (IA A t) _ _ _) as [[ja' a'] k'].
    destruct G as (G1 & G2 & G3).
    split; [reflexivity | split; [exact G1 | split; [exact G2 | split; [exact G3|]]]].
    split.
    + intros i Hi. destruct (Z.eq_dec i (t + 1)) as [-> | Hne].
      * rewrite upd_same. exact G1.
      * rewrite upd_other by exact Hne. apply E4. lia.
    + intros i Hi. rewrite upd_other by lia. apply E5. lia.
Qed.



End Compress.


(** For a matrix of valid structure that has its values, the compression
    in place succeeds (the count of the kept entries cannot pass [nnz]),
    and leaves in the front of the arrays of [A] what [fasp_dcsr_compress]
    builds in [B]: the same count, the same row offsets, and the same
    columns and values at the positions before the count. *)
Theorem compress_inplace_agrees {C : Codes} (A : dCSRmat) (dtol : Q) :
  csr_valid A -> val A <> None ->
  let B := fasp_dcsr_compress A dtol in
  let B' := fst (fasp_dcsr_compress_inplace A dtol) in
  snd (fasp_dcsr_compress_inplace A dtol) = FASP_SUCCESS /\
  nnz B' = nnz B /\ nnz B' <= nnz A /\
  (forall i, 0 <= i <= row A -> IA B' i = IA B i) /\
  (forall p, 0 <= p < nnz B -> JA B' p = JA B p /\ aval B' p = aval B p).
Proof.
  intros HA Hval. cbv zeta.
  destruct (compress_packed A dtol HA) as (_ & _ & En & Hia & Hja).
  pose proof (compress_inplace_spec A dtol HA) as S.
  unfold fasp_dcsr_compress_inplace.
  destruct (compress_inplace_scan A dtol) as [[[[ia ja] a] k] iend].
  destruct S as (S1 & S2 & S3).
  pose proof (kept_positions_length A dtol 0 (nnz A)
                ltac:(destruct HA as [V1 V2 V3 V4 V5 V6]; rewrite <- V4, <- V3;
                      apply (TransposeFacts.offsets_le (row A) (IA A) V5); lia))
    as Hlen.
  destruct (Z.leb_spec k (nnz A)) as [Hk | Hk]; [|lia].
  cbn [fst snd nnz IA JA]. unfold aval at 1. cbn [val].
  split; [reflexivity | split; [lia | split; [lia | split]]].
  - intros i Hi. rewrite S3, Hia by exact Hi. reflexivity.
  - intros p Hp. destruct (Hja p Hp) as [-> E2]. rewrite E2.
    destruct (S2 p ltac:(lia)) as [T1 T2]. rewrite T1.
    rewrite (nth_indep _ 0 (JA A 0)) by (rewrite length_map; lia).
    rewrite map_nth. split; [reflexivity|].
    rewrite (nth_indep _ 0%Q (aval A 0)) in T2 by (rewrite length_map; lia).
    rewrite map_nth in T2. rewrite <- T2.
    destruct (val A) as [v|]; [reflexivity | contradiction].
Qed.


Lemma compress_inplace_agrees_witness :
  let C := sample_codes in
  let A := Samples.boundary_operator in
  let B := fasp_dcsr_compress A 1 in
  let B' := fst (fasp_dcsr_compress_inplace A 1) in
  snd (fasp_dcsr_compress_inplace A 1) = FASP_SUCCESS /\
  nnz B' = nnz B /\ nnz B' <= nnz A /\
  (forall i, 0 <= i <= row A -> IA B' i = IA B i) /\
  (forall p, 0 <= p < nnz B -> JA B' p = JA B p /\ aval B' p = aval B p).
Proof.
  cbv zeta. apply (@compress_inplace_agrees sample_codes Samples.boundary_operator 1).
  - apply csr_validb_sound. reflexivity.
  - discriminate.
Defined.

(** *** fasp_dcsr_diagpref *)

Lemma swap_cells_perm {T : Type} (h h' : Z -> T) (b e q : Z) :
  b < q < e ->
  h' b = h q -> h' q = h b -> (forall p, p <> b -> p <> q -> h' p = h p) ->
  Permutation (map h' (zrange b e)) (map h (zrange b e)).
Proof.
  intros Hq Eb Eq Eo.
  rewrite (zrange_first b e) by lia. rewrite (zrange_split (b + 1) q e) by lia.
  rewrite (zrange_first q e) by lia. cbn [map]. rewrite !map_app. cbn [map].
  rewrite Eb, Eq.
  rewrite (map_ext_in h' h (zrange (b + 1) q))
    by (intros p Hp; apply zrange_In in Hp; apply Eo; lia).
  rewrite (map_ext_in h' h (zrange (q + 1) e))
    by (intros p Hp; apply zrange_In in Hp; apply Eo; lia).
  set (l1 := map h (zrange (b + 1) q)). set (l2 := map h (zrange (q + 1) e)).
  apply perm_trans with (h q :: h b :: l1 ++ l2).
  - apply perm_skip. symmetry. apply Permutation_middle.
  - apply perm_trans with (h b :: h q :: l1 ++ l2); [apply perm_swap|].
    apply perm_skip. apply Permutation_middle.
Qed.

Section DiagonalFirst.
Variable A : dCSRmat.
Hypothesis HA : csr_valid A.

Lemma diag_first_ext (ja ja' : arr Z) (a a' : arr Q) (i : Z) :
  (forall p, IA A i <= p < IA A (i + 1) -> ja' p = ja p /\ a' p = a p) ->
  diag_first A ja a i -> diag_first A ja' a' i.
Proof.
  intros H [D1 D2]. split.
  - rewrite (map_ext_in _ (fun p => (ja p, a p))); [exact D1|].
    intros p Hp. apply zrange_In in Hp. destruct (H p Hp) as [-> ->]. reflexivity.
  - intros Hlt. destruct (H (IA A i) ltac:(lia)) as [-> _]. now apply D2.
Qed.

Lemma diagpref_row_done (t : Z) (st : ending (arr Z * arr Q * Z)) :
  0 <= t < row A ->
  diagpref_done A t st ->
  diagpref_done A (t + 1)
    (match st with
     | Returns s => diagpref_row (IA A) s t
     | Exits c => Exits c
     end).
Proof.
  intros Ht H. pose proof HA as [V1 V2 V3 V4 V5 V6].
  assert (Hoff : forall i k, 0 <= i -> i <= k -> k <= row A -> IA A i <= IA A k)
    by (apply (TransposeFacts.offsets_le (row A) (IA A) V5)).
  destruct st as [[[ja a] base] | c].
  2:{ destruct H as [Ec (i & Hi & Hl)]. split; [exact Ec|]. exists i. split; [lia | exact Hl]. }
  destruct H as (Eb & Hrest & Hdone). subst base.
  pose proof (V5 t Ht) as Hrow.
  (* what is left to show when the arrays stay *)
  assert (Hstay : (IA A t < IA A (t + 1) -> JA A (IA A t) = t) ->
                  diagpref_done A (t + 1)
                    (Returns (ja, a, IA A t + (IA A (t + 1) - IA A t)))).
  { intros Hd. split; [lia | split].
    - intros q Hq. apply Hrest. lia.
    - intros i Hi. destruct (Z.eq_dec i t) as [-> | Hne].
      + split.
        * unfold row_entries. rewrite (map_ext_in _ (fun p => (JA A p, aval A p)));
            [apply Permutation_refl|].
          intros p Hp. apply zrange_In in Hp.
          destruct (Hrest p ltac:(lia)) as [-> ->]. reflexivity.
        * intros Hlt. destruct (Hrest (IA A t) ltac:(lia)) as [-> _]. now apply Hd.
      + apply Hdone. lia. }
  unfold diagpref_row.
  destruct (Z.eqb_spec (ja (IA A t)) t) as [E | E]; cbn [negb].
  { apply Hstay. intros _. destruct (Hrest (IA A t) ltac:(lia)) as [<- _]. exact E. }
  destruct (find _ _) as [j|] eqn:Ef.
  - apply find_some in Ef. destruct Ef as [Hj Ej]. apply zrange_In in Hj.
    apply Z.eqb_eq in Ej. cbv zeta. split; [lia | split].
    + intros q Hq. unfold upd.
      replace (q =? IA A t + j) with false by (symmetry; apply Z.eqb_neq; lia).
      replace (q =? IA A t) with false by (symmetry; apply Z.eqb_neq; lia).
      apply Hrest. lia.
    + intros i Hi. destruct (Z.eq_dec i t) as [-> | Hne].
      * split.
        { apply perm_trans
            with (map (fun p => (ja p, a p)) (positions (IA A) t)).
          - apply (swap_cells_perm (fun p => (ja p, a p))) with (q := IA A t + j).
            + lia.
            + unfold upd. rewrite Z.eqb_refl.
              replace (IA A t =? IA A t + j) with false
                by (symmetry; apply Z.eqb_neq; lia).
              reflexivity.
            + unfold upd. now rewrite Z.eqb_refl.
            + intros p Hp1 Hp2. unfold upd.
              apply Z.eqb_neq in Hp1, Hp2. now rewrite Hp1, Hp2.
          - unfold row_entries.
            rewrite (map_ext_in _ (fun p => (JA A p, aval A p)));
              [apply Permutation_refl|].
            intros p Hp. apply zrange_In in Hp.
            destruct (Hrest p ltac:(lia)) as [-> ->]. reflexivity. }
        { intros _. unfold upd. rewrite Z.eqb_refl.
          replace (IA A t =? IA A t + j) with false
            by (symmetry; apply Z.eqb_neq; lia).
          exact Ej. }
      * apply (diag_first_ext ja _ a _ i); [|apply Hdone; lia].
        intros p Hp.
        pose proof (Hoff (i + 1) t ltac:(lia) ltac:(lia) ltac:(lia)).
        unfold upd.
        replace (p =? IA A t + j) with false by (symmetry; apply Z.eqb_neq; lia).
        replace (p =? IA A t) with false by (symmetry; apply Z.eqb_neq; lia).
        auto.
  - destruct (Z.eqb_spec (Z.max 1 (IA A (t + 1) - IA A t)) (IA A (t + 1) - IA A t))
      as [Em | Em].
    + split; [reflexivity|]. exists t. split; [lia|]. split; [lia|].
      intros p Hp Ep. destruct (Z.eq_dec p (IA A t)) as [-> | Hne].
      * destruct (Hrest (IA A t) ltac:(lia)) as [X _]. congruence.
      * pose proof (find_none _ _ Ef (p - IA A t)
                      ltac:(apply zrange_In; lia)) as N.
        cbv beta in N. replace (IA A t + (p - IA A t)) with p in N by lia.
        destruct (Hrest p ltac:(lia)) as [X _]. rewrite X, Ep, Z.eqb_refl in N.
        discriminate N.
    + apply Hstay. intros Hlt. lia.
Qed.

Lemma diagpref_rows_done : diagpref_done A (row A) (diagpref_rows A).
Proof.
  pose proof HA as [V1 V2 V3 V4 V5 V6]. unfold diagpref_rows.
  apply (for_loop_inv (fun t st => diagpref_done A t st)).
  - exact V1.
  - split; [now rewrite V3 | split; [auto | intros i Hi; lia]].
  - intros t st Ht IH. now apply diagpref_row_done.
Qed.

End DiagonalFirst.

(** For a matrix of valid structure that has its values,
    [fasp_dcsr_diagpref] either returns, and then every row holds the
    entries it held, in some order, with the diagonal in its first position
    if the row is not empty, and no row that has an entry is without its
    diagonal; or the process ends with [ERROR_MISC], and then some row has
    an entry and none on the diagonal.  (A row without any entry passes.) *)
Theorem diagpref_result (A : dCSRmat) :
  csr_valid A -> val A <> None ->
  match fasp_dcsr_diagpref A with
  | Returns B =>
      row B = row A /\ col B = col A /\ nnz B = nnz A /\ IA B = IA A /\
      forall i, 0 <= i < row A ->
                Permutation (row_entries B i) (row_entries A i) /\
                (IA A i < IA A (i + 1) -> JA B (IA A i) = i) /\
                ~ lacks_diagonal A i
  | Exits c => c = ERROR_MISC /\ exists i, 0 <= i < row A /\ lacks_diagonal A i
  end.
Proof.
  intros HA Hval. pose proof (diagpref_rows_done A HA) as H.
  unfold fasp_dcsr_diagpref. destruct (diagpref_rows A) as [[[ja a] base] | c].
  2:{ exact H. }
  destruct H as (_ & _ & Hdone). cbn [row col nnz IA].
  split; [reflexivity | split; [reflexivity | split; [reflexivity | split]]];
    [reflexivity|].
  intros i Hi. destruct (Hdone i Hi) as [D1 D2].
  assert (E : row_entries
                {| row := row A; col := col A; nnz := nnz A; IA := IA A; JA := ja;
                   val := match val A with Some _ => Some a | None => None end |} i
              = map (fun p => (ja p, a p)) (positions (IA A) i)).
  { unfold row_entries, aval. cbn [IA JA val].
    destruct (val A); [reflexivity | contradiction]. }
  rewrite E. cbn [JA]. split; [exact D1 | split; [exact D2|]].
  intros [Hlt Hno].
  assert (Hin : In (ja (IA A i), a (IA A i)) (row_entries A i)).
  { apply (Permutation_in _ D1). apply in_map_iff. exists (IA A i).
    split; [reflexivity|]. apply zrange_In. lia. }
  unfold row_entries in Hin. apply in_map_iff in Hin.
  destruct Hin as (p & Ep & Hp). apply zrange_In in Hp.
  injection Ep as Ej _. apply (Hno p Hp). rewrite Ej. now apply D2.
Qed.

(** Two rows with the diagonal last. *)
Lemma diagpref_result_witness :
  match fasp_dcsr_diagpref late_diagonal with
  | Returns B =>
      row B = row late_diagonal /\ col B = col late_diagonal /\
      nnz B = nnz late_diagonal /\ IA B = IA late_diagonal /\
      forall i, 0 <= i < row late_diagonal ->
                Permutation (row_entries B i) (row_entries late_diagonal i) /\
                (IA late_diagonal i < IA late_diagonal (i + 1) ->
                 JA B (IA late_diagonal i) = i) /\
                ~ lacks_diagonal late_diagonal i
  | Exits c =>
      c = ERROR_MISC /\
      exists i, 0 <= i < row late_diagonal /\ lacks_diagonal late_diagonal i
  end.
Proof.
  apply (diagpref_result late_diagonal).
  - apply csr_validb_sound. reflexivity.
  - discriminate.
Defined.

(** What the reordering makes of the two rows. *)
Example late_diagonal_reordered :
  match fasp_dcsr_diagpref late_diagonal with
  | Returns B => row_entries B 0 = [(0, 2%Q); (1, 5%Q)] /\
                 row_entries B 1 = [(1, 4%Q); (0, 3%Q)]
  | Exits _ => False
  end.
Proof. vm_compute. split; reflexivity. Qed.

End SparseOpsFacts.

From Stdlib Require Import Permutation.

(* ------------------------------------------------------------------ *)
(** ** BlaSparseCSR.c: the permutation of a matrix *)

Module PermFacts.
Import Rows SparseOps SparseOpsFacts.

Lemma zsum_app (l l' : list Z) : zsum (l ++ l') = zsum l + zsum l'.
Proof. induction l as [|x l IH]; cbn; [reflexivity|]. unfold zsum in *. lia. Qed.

Lemma zsum_perm (l l' : list Z) : Permutation l l' -> zsum l = zsum l'.
Proof.
  induction 1 as [|x l l' _ IH|x y l|l l' l'' _ IH1 _ IH2]; cbn; unfold zsum in *;
    cbn; lia.
Qed.

(** The row lengths add up to the last offset. *)
Lemma zsum_lengths (ia : arr Z) (n : Z) :
  0 <= n -> zsum (map (fun k => ia (k + 1) - ia k) (zrange 0 n)) = ia n - ia 0.
Proof.
  intros Hn. replace n with (Z.of_nat (Z.to_nat n)) by lia.
  induction (Z.to_nat n) as [|m IH]; [cbn; lia|].
  rewrite Nat2Z.inj_succ. unfold Z.succ. rewrite zrange_last by lia.
  rewrite map_app, zsum_app, IH. cbn. lia.
Qed.

Lemma NoDup_map_on {X Y : Type} (f : X -> Y) (l : list X) :
  (forall x y, In x l -> In y l -> f x = f y -> x = y) ->
  NoDup l -> NoDup (map f l).
Proof.
  intros Hf N. induction N as [|x l Hx N IH]; cbn [map]; constructor.
  - intros Hin. apply in_map_iff in Hin. destruct Hin as (y & E & Hy).
    apply Hx. rewrite <- (Hf y x); [exact Hy | now right | now left | exact E].
  - apply IH. intros a b Ha Hb. apply Hf; now right.
Qed.

Section Permuting.
Variables (n : Z) (P : arr Z).
Hypothesis HP : permutes n P.

(** The images of the indices are the indices, in another order. *)
Lemma images_perm : Permutation (map P (zrange 0 n)) (zrange 0 n).
Proof.
  destruct HP as [Hr Hi]. apply NoDup_Permutation_bis.
  - apply NoDup_map_on; [|apply zrange_NoDup].
    intros x y Hx Hy. apply zrange_In in Hx, Hy. now apply Hi.
  - rewrite length_map. lia.
  - intros y Hy. apply in_map_iff in Hy. destruct Hy as (x & <- & Hx).
    apply zrange_In in Hx. apply zrange_In. now apply Hr.
Qed.

Lemma image_onto (c : Z) : 0 <= c < n -> exists j, 0 <= j < n /\ P j = c.
Proof.
  intros Hc. assert (Hin : In c (map P (zrange 0 n))).
  { apply (Permutation_in _ (Permutation_sym images_perm)). now apply zrange_In. }
  apply in_map_iff in Hin. destruct Hin as (j & E & Hj). apply zrange_In in Hj.
  now exists j.
Qed.


End Permuting.

(** A loop that fills two arrays side by side, over a range. *)
Lemma pair_fill_from {T U : Type} (f : Z -> T) (g : Z -> U) (lo hi : Z)
  (x0 : arr T) (y0 : arr U) (p : Z) :
  let st := for_loop lo hi (fun '(x, y) i => (upd x i (f i), upd y i (g i))) (x0, y0) in
  fst st p = (if (lo <=? p) && (p <? hi) then f p else x0 p) /\
  snd st p = (if (lo <=? p) && (p <? hi) then g p else y0 p).
Proof.
  cbv zeta. destruct (Z.le_gt_cases hi lo) as [H | H].
  { rewrite for_loop_empty by lia. cbn [fst snd]. split; zbool. }
  apply (for_loop_inv
           (fun t (st : arr T * arr U) =>
              fst st p = (if (lo <=? p) && (p <? t) then f p else x0 p) /\
              snd st p = (if (lo <=? p) && (p <? t) then g p else y0 p))).
  - lia.
  - cbn [fst snd]. split; zbool.
  - intros t [x y] Ht [E1 E2]. cbn [fst snd] in *. unfold upd.
    destruct (Z.eqb_spec p t) as [-> | Hne].
    + split; zbool.
    + rewrite E1, E2. split; zbool.
Qed.

Section Matrix.
Variables (A : dCSRmat) (P : arr Z).
Hypothesis HA : csr_valid A.
Hypothesis HP : permutes (row A) P.

Lemma perm_offsets_spec :
  perm_offsets A P 0 = 0 /\
  forall i, 0 <= i < row A ->
            perm_offsets A P (i + 1)
            = perm_offsets A P i + (IA A (P i + 1) - IA A (P i)).
Proof.
  unfold perm_offsets.
  apply (for_loop_inv
           (fun t (pia : arr Z) =>
              pia 0 = 0 /\
              forall i, 0 <= i < t ->
                        pia (i + 1) = pia i + (IA A (P i + 1) - IA A (P i)))).
  - apply (valid_row _ HA).
  - split; [apply upd_same | intros i Hi; lia].
  - intros t pia Ht [E0 E1]. cbv zeta. split.
    + rewrite upd_other by lia. exact E0.
    + intros i Hi. destruct (Z.eq_dec i t) as [-> | Hne].
      * rewrite upd_same, upd_other by lia. reflexivity.
      * rewrite !upd_other by lia. apply E1. lia.
Qed.

Lemma row_length_nonneg (i : Z) :
  0 <= i < row A -> 0 <= IA A (P i + 1) - IA A (P i).
Proof.
  intros Hi. destruct HP as [Hr _]. pose proof (Hr i Hi).
  pose proof (valid_mono _ HA (P i) ltac:(lia)). lia.
Qed.

Lemma perm_offsets_mono (i : Z) :
  0 <= i < row A -> perm_offsets A P i <= perm_offsets A P (i + 1).
Proof.
  intros Hi. destruct perm_offsets_spec as [_ E]. rewrite E by exact Hi.
  pose proof (row_length_nonneg i Hi). lia.
Qed.

Lemma perm_offsets_sum (t : Z) :
  0 <= t <= row A ->
  perm_offsets A P t
  = zsum (map (fun k => IA A (k + 1) - IA A k) (map P (zrange 0 t))).
Proof.
  intros Ht. destruct perm_offsets_spec as [E0 E1].
  replace t with (Z.of_nat (Z.to_nat t)) in * by lia.
  induction (Z.to_nat t) as [|m IH];
    [change (Z.of_nat 0) with 0; rewrite E0; reflexivity|].
  rewrite Nat2Z.inj_succ in *. unfold Z.succ in *.
  rewrite zrange_last, !map_app, zsum_app by lia. rewrite E1, IH by lia.
  cbn. lia.
Qed.

Lemma perm_offsets_last : perm_offsets A P (row A) = nnz A.
Proof.
  pose proof HA as [V1 V2 V3 V4 V5 V6].
  rewrite perm_offsets_sum by lia.
  rewrite (zsum_perm _ (map (fun k => IA A (k + 1) - IA A k) (zrange 0 (row A)))).
  - rewrite zsum_lengths by exact V1. lia.
  - apply Permutation_map. now apply images_perm.
Qed.

(** "perform actual P*A": row [i] of the result is row [P i] of [A]. *)
Lemma perm_rows_spec (i j : Z) :
  0 <= i < row A ->
  perm_offsets A P i <= j < perm_offsets A P (i + 1) ->
  fst (perm_rows A P (perm_offsets A P)) j
  = JA A (IA A (P i) + j - perm_offsets A P i) /\
  snd (perm_rows A P (perm_offsets A P)) j
  = aval A (IA A (P i) + j - perm_offsets A P i).
Proof.
  intros Hi Hj. unfold perm_rows.
  enough (G : forall i j, 0 <= i < row A ->
                perm_offsets A P i <= j < perm_offsets A P (i + 1) ->
                fst (for_loop 0 (row A)
                       (fun (st : arr Z * arr Q) i =>
                          let i1 := perm_offsets A P i in
                          let i2 := perm_offsets A P (i + 1) - 1 in
                          let k := P i in
                          let start := IA A k in
                          for_loop i1 (i2 + 1)
                            (fun '(pja, pval) j =>
                               let jaj := start + j - i1 in
                               (upd pja j (JA A jaj), upd pval j (aval A jaj)))
                            st)
                       (zeros 0, zeros 0%Q)) j
                = JA A (IA A (P i) + j - perm_offsets A P i) /\
                snd (for_loop 0 (row A)
                       (fun (st : arr Z * arr Q) i =>
                          let i1 := perm_offsets A P i in
                          let i2 := perm_offsets A P (i + 1) - 1 in
                          let k := P i in
                          let start := IA A k in
                          for_loop i1 (i2 + 1)
                            (fun '(pja, pval) j =>
                               let jaj := start + j - i1 in
                               (upd pja j (JA A jaj), upd pval j (aval A jaj)))
                            st)
                       (zeros 0, zeros 0%Q)) j
                = aval A (IA A (P i) + j - perm_offsets A P i))
    by (now apply G).
  clear i j Hi Hj.
  apply (for_loop_inv
           (fun t (st : arr Z * arr Q) =>
              forall i j, 0 <= i < t ->
                perm_offsets A P i <= j < perm_offsets A P (i + 1) ->
                fst st j = JA A (IA A (P i) + j - perm_offsets A P i) /\
                snd st j = aval A (IA A (P i) + j - perm_offsets A P i))).
  - apply (valid_row _ HA).
  - intros i j Hi. lia.
  - intros t [pja pval] Ht IH i j Hi Hj. cbv zeta.
    replace (perm_offsets A P (t + 1) - 1 + 1) with (perm_offsets A P (t + 1)) by lia.
    destruct (pair_fill_from
                (fun j => JA A (IA A (P t) + j - perm_offsets A P t))
                (fun j => aval A (IA A (P t) + j - perm_offsets A P t))
                (perm_offsets A P t) (perm_offsets A P (t + 1)) pja pval j)
      as [F1 F2].
    cbv zeta in F1, F2. rewrite F1, F2.
    destruct (Z.eq_dec i t) as [-> | Hne].
    + replace ((perm_offsets A P t <=? j) && (j <? perm_offsets A P (t + 1)))
        with true by (symmetry; apply andb_true_iff; split;
                      [apply Z.leb_le | apply Z.ltb_lt]; lia).
      split; reflexivity.
    + assert (Hle : perm_offsets A P (i + 1) <= perm_offsets A P t).
      { apply (TransposeFacts.offsets_le (row A) (perm_offsets A P));
          [intros k Hk; now apply perm_offsets_mono | lia | lia | lia]. }
      replace ((perm_offsets A P t <=? j) && (j <? perm_offsets A P (t + 1)))
        with false by (symmetry; apply andb_false_iff; left; apply Z.leb_gt; lia).
      apply (IH i j); [lia | exact Hj].
Qed.

End Matrix.





End PermFacts.

From Stdlib Require Import Permutation.

(* ------------------------------------------------------------------ *)
(** ** Searching and sorting *)

Module OrderingFacts.
Import Ordering.

Lemma half_between (low high : Z) :
  0 <= low -> low <= high ->
  low <= Z.quot (low + high) 2 <= high.
Proof.
  intros H0 Hle. rewrite Z.quot_div_nonneg by lia.
  split.
  - apply Z.div_le_lower_bound; lia.
  - apply Z.div_le_upper_bound; lia.
Qed.

Lemma binary_search_spec (list : arr Z) (value : Z) :
  forall (turns : nat) (low high : Z),
    0 <= low -> high - low + 1 <= Z.of_nat turns ->
    exists r, binary_search turns list value low high = Some r /\
              (r = -1 \/ (low <= r <= high /\ list r = value)) /\
              (ascending list low (high + 1) ->
               (exists i, low <= i <= high /\ list i = value) -> r <> -1).
Proof.
  induction turns as [|turns IH]; intros low high H0 Hf.
  - cbn [binary_search]. destruct (Z.leb_spec low high); [lia|].
    exists (-1). split; [reflexivity|]. split; [now left|].
    intros _ (i & Hi & _). lia.
  - cbn [binary_search]. destruct (Z.leb_spec low high) as [Hle | Hgt].
    + cbv zeta. pose proof (half_between low high H0 Hle) as Hm.
      set (m := Z.quot (low + high) 2) in *.
      destruct (Z.ltb_spec value (list m)) as [Hlt | Hge].
      * destruct (IH low (m - 1) H0 ltac:(lia)) as (r & E & Hs & Hc).
        exists r. split; [exact E|]. split.
        -- destruct Hs as [-> | [Hr Hv]]; [now left | right; split; [lia | exact Hv]].
        -- intros Ha (i & Hi & Ev). apply Hc.
           ++ intros x y Hx Hxy Hy. apply Ha; lia.
           ++ exists i. split; [|exact Ev].
              destruct (Z.le_gt_cases m i) as [Hmi|]; [|lia].
              pose proof (Ha m i ltac:(lia) Hmi ltac:(lia)). lia.
      * destruct (Z.gtb_spec value (list m)) as [Hgt | Hle'].
        -- destruct (IH (m + 1) high ltac:(lia) ltac:(lia)) as (r & E & Hs & Hc).
           exists r. split; [exact E|]. split.
           ++ destruct Hs as [-> | [Hr Hv]]; [now left | right; split; [lia | exact Hv]].
           ++ intros Ha (i & Hi & Ev). apply Hc.
              ** intros x y Hx Hxy Hy. apply Ha; lia.
              ** exists i. split; [|exact Ev].
                 destruct (Z.le_gt_cases i m) as [Him|]; [|lia].
                 pose proof (Ha i m ltac:(lia) Him ltac:(lia)). lia.
        -- exists m. split; [reflexivity|]. split; [right; split; lia | lia].
    + exists (-1). split; [reflexivity|]. split; [now left|].
      intros _ (i & Hi & _). lia.
Qed.

(** X8.  [fasp_BinarySearch] always returns: either [-1], or a position
    within the list that holds the value.  On a list in ascending order it
    returns [-1] only when no cell holds the value. *)
Theorem BinarySearch_result (list : arr Z) (value list_length : Z) :
  exists r, fasp_BinarySearch list value list_length = Some r /\
            (r = -1 \/ (0 <= r < list_length /\ list r = value)) /\
            (ascending list 0 list_length ->
             (exists i, 0 <= i < list_length /\ list i = value) -> r <> -1).
Proof.
  unfold fasp_BinarySearch.
  destruct (binary_search_spec list value (Z.to_nat list_length) 0 (list_length - 1))
    as (r & E & Hs & Hc); [lia | lia |].
  exists r. split; [exact E|]. split.
  - destruct Hs as [-> | [Hr Hv]]; [now left | right; split; [lia | exact Hv]].
  - intros Ha (i & Hi & Ev). apply Hc.
    + now replace (list_length - 1 + 1) with list_length by lia.
    + exists i. split; [lia | exact Ev].
Qed.

(** In [4 1 3 1 5 9 2 6], which is not in ascending order, the value [4]
    at position [0] is not found. *)
Example BinarySearch_unsorted_miss :
  fasp_BinarySearch digits 4 8 = Some (-1) /\ digits 0 = 4.
Proof. split; reflexivity. Qed.

(** *** fasp_aux_unique *)

Lemma unique_loop (numbers : arr Z) (size : Z) :
  1 <= size ->
  unique_upto numbers size size
    (for_loop 1 size
       (fun '((numbers, newsize) : arr Z * Z) i =>
          if numbers newsize <? numbers i
          then (upd numbers (newsize + 1) (numbers i), newsize + 1)
          else (numbers, newsize))
       (numbers, 0)).
Proof.
  intros Hs.
  apply (for_loop_inv (fun t st => unique_upto numbers size t st)); [lia | |].
  - cbn. split; [lia|]. split; [intros i j; lia|]. split.
    + intros j Hj. exists 0. split; [lia|]. f_equal. lia.
    + split; [reflexivity|]. intros _. split; [reflexivity|].
      intros i Hi. exists 0. split; [lia|]. f_equal. lia.
  - intros t [a ns] Ht (Hn & Hinc & Hfrom & Hrest & Hasc).
    assert (Et : a t = numbers t) by (apply Hrest; lia).
    destruct (Z.ltb_spec (a ns) (a t)) as [Hlt | Hge].
    + cbn. split; [lia|]. split; [|split; [|split]].
      * intros i j Hi Hij Hj.
        destruct (Z.eq_dec j (ns + 1)) as [-> | Hne].
        -- rewrite upd_same, upd_other by lia.
           destruct (Z.eq_dec i ns) as [-> | Hi']; [exact Hlt|].
           pose proof (Hinc i ns ltac:(lia) ltac:(lia) ltac:(lia)). lia.
        -- rewrite !upd_other by lia. apply Hinc; lia.
      * intros j Hj. destruct (Z.eq_dec j (ns + 1)) as [-> | Hne].
        -- rewrite upd_same. exists t. split; [lia | exact Et].
        -- rewrite upd_other by lia. destruct (Hfrom j ltac:(lia)) as (i & Hi & E).
           exists i. split; [lia | exact E].
      * intros k Hk. rewrite upd_other by lia. apply Hrest. lia.
      * intros Ha. destruct (Hasc Ha) as [El Hall].
        split; [rewrite upd_same; rewrite Et; f_equal; lia|].
        intros i Hi. destruct (Z.eq_dec i t) as [-> | Hne].
        -- exists (ns + 1). split; [lia|]. rewrite upd_same. exact Et.
        -- destruct (Hall i ltac:(lia)) as (j & Hj & E).
           exists j. split; [lia|]. rewrite upd_other by lia. exact E.
    + cbn. split; [lia|]. split; [exact Hinc|]. split; [|split].
      * intros j Hj. destruct (Hfrom j Hj) as (i & Hi & E).
        exists i. split; [lia | exact E].
      * exact Hrest.
      * intros Ha. destruct (Hasc Ha) as [El Hall].
        assert (Ele : numbers (t - 1) <= numbers t) by (apply Ha; lia).
        assert (Eq : a ns = numbers t) by lia.
        split; [rewrite Eq; f_equal; lia|].
        intros i Hi. destruct (Z.eq_dec i t) as [-> | Hne].
        -- exists ns. split; [lia | exact Eq].
        -- apply Hall. lia.
Qed.

(** X9.  For a positive size, [fasp_aux_unique] returns a new size between
    [1] and [size] and leaves cells [0 .. new size - 1] strictly increasing,
    each holding a value of the first [size] cells, with the cells from the
    new size on untouched.  If the first [size] cells were in ascending
    order, every one of their values is among the cells kept. *)
Theorem unique_result (numbers : arr Z) (size : Z) :
  0 < size ->
  let '(out, newsize) := fasp_aux_unique numbers size in
  1 <= newsize <= size /\
  increasing out 0 newsize /\
  (forall j, 0 <= j < newsize -> exists i, 0 <= i < size /\ out j = numbers i) /\
  (forall k, newsize <= k -> out k = numbers k) /\
  (ascending numbers 0 size ->
   forall i, 0 <= i < size -> exists j, 0 <= j < newsize /\ out j = numbers i).
Proof.
  intros Hs. unfold fasp_aux_unique.
  destruct (Z.eqb_spec size 0) as [|_]; [lia|].
  pose proof (unique_loop numbers size ltac:(lia)) as H.
  destruct (for_loop 1 size _ _) as [a ns].
  destruct H as (Hn & Hinc & Hfrom & Hrest & Hasc).
  split; [lia|]. split; [exact Hinc|]. split; [|split].
  - intros j Hj. apply Hfrom. lia.
  - intros k Hk. apply Hrest. lia.
  - intros Ha i Hi. destruct (proj2 (Hasc Ha) i Hi) as (j & Hj & E).
    exists j. split; [lia | exact E].
Qed.

Lemma unique_result_witness :
  let numbers := of_list 0 [1; 1; 2; 3; 3; 3; 8] in
  let '(out, newsize) := fasp_aux_unique numbers 7 in
  1 <= newsize <= 7 /\
  increasing out 0 newsize /\
  (forall j, 0 <= j < newsize -> exists i, 0 <= i < 7 /\ out j = numbers i) /\
  (forall k, newsize <= k -> out k = numbers k) /\
  (ascending numbers 0 7 ->
   forall i, 0 <= i < 7 -> exists j, 0 <= j < newsize /\ out j = numbers i).
Proof.
  exact (unique_result (of_list 0 [1; 1; 2; 3; 3; 3; 8]) 7 ltac:(lia)).
Defined.

(** The sizes [0] and below: no cell is looked at, and a negative size
    gives the new size [1]. *)
Example unique_small_sizes (numbers : arr Z) (size : Z) :
  size <= 0 ->
  fasp_aux_unique numbers size = (numbers, if size =? 0 then 0 else 1).
Proof.
  intros Hs. unfold fasp_aux_unique. destruct (Z.eqb_spec size 0); [reflexivity|].
  unfold for_loop. rewrite zrange_empty by lia. reflexivity.
Qed.

(** *** The quick sorts *)

Lemma iSwapping_cells (w : arr Z) (i j k : Z) :
  iSwapping w i j k = if k =? j then w i else if k =? i then w j else w k.
Proof.
  unfold iSwapping, upd. cbv zeta.
  destruct (Z.eqb_spec k j); [reflexivity|]. reflexivity.
Qed.

Lemma segment_perm_within {T : Type} (a b : arr T) (lo l r hi : Z) :
  lo <= l -> l <= r -> r <= hi ->
  Permutation (segment b l r) (segment a l r) ->
  (forall k, k < l \/ r <= k -> b k = a k) ->
  Permutation (segment b lo hi) (segment a lo hi).
Proof.
  intros H1 H2 H3 Hp Ho. unfold segment in *.
  rewrite (zrange_split lo l hi) by lia. rewrite (zrange_split l r hi) by lia.
  rewrite !map_app.
  rewrite (map_ext_in b a (zrange lo l))
    by (intros k Hk; apply zrange_In in Hk; apply Ho; lia).
  rewrite (map_ext_in b a (zrange r hi))
    by (intros k Hk; apply zrange_In in Hk; apply Ho; lia).
  apply Permutation_app_head. now apply Permutation_app_tail.
Qed.

Lemma iSwapping_perm (w : arr Z) (lo hi i j : Z) :
  lo <= i < hi -> lo <= j < hi ->
  Permutation (segment (iSwapping w i j) lo hi) (segment w lo hi).
Proof.
  intros Hi Hj.
  destruct (Z.lt_trichotomy i j) as [Hlt | [-> | Hgt]].
  - apply (segment_perm_within w (iSwapping w i j) lo i (j + 1) hi); try lia.
    + apply SparseOpsFacts.swap_cells_perm with (q := j); [lia | | |].
      * rewrite iSwapping_cells. destruct (Z.eqb_spec i j); [lia|].
        now rewrite Z.eqb_refl.
      * rewrite iSwapping_cells. now rewrite Z.eqb_refl.
      * intros p Hp Hq. rewrite iSwapping_cells.
        destruct (Z.eqb_spec p j); [lia|]. destruct (Z.eqb_spec p i); [lia|].
        reflexivity.
    + intros k Hk. rewrite iSwapping_cells.
      destruct (Z.eqb_spec k j); [lia|]. destruct (Z.eqb_spec k i); [lia|].
      reflexivity.
  - unfold segment. rewrite (map_ext (iSwapping w j j) w); [reflexivity|].
    intros k. rewrite iSwapping_cells.
    destruct (Z.eqb_spec k j) as [-> |]; reflexivity.
  - apply (segment_perm_within w (iSwapping w i j) lo j (i + 1) hi); try lia.
    + apply SparseOpsFacts.swap_cells_perm with (q := i); [lia | | |].
      * rewrite iSwapping_cells. now rewrite Z.eqb_refl.
      * rewrite iSwapping_cells. destruct (Z.eqb_spec i j); [lia|].
        now rewrite Z.eqb_refl.
      * intros p Hp Hq. rewrite iSwapping_cells.
        destruct (Z.eqb_spec p j); [lia|]. destruct (Z.eqb_spec p i); [lia|].
        reflexivity.
    + intros k Hk. rewrite iSwapping_cells.
      destruct (Z.eqb_spec k j); [lia|]. destruct (Z.eqb_spec k i); [lia|].
      reflexivity.
Qed.

Lemma segment_cells {T : Type} (Q : T -> Prop) (a b : arr T) (l r : Z) :
  Permutation (segment b l r) (segment a l r) ->
  (forall k, l <= k < r -> Q (a k)) ->
  forall k, l <= k < r -> Q (b k).
Proof.
  intros Hp Ha k Hk.
  assert (Hin : In (b k) (segment b l r)).
  { unfold segment. apply in_map. apply zrange_In. exact Hk. }
  apply (Permutation_in _ Hp) in Hin. unfold segment in Hin.
  apply in_map_iff in Hin. destruct Hin as (k' & E & Hk').
  apply zrange_In in Hk'. rewrite <- E. now apply Ha.
Qed.

Lemma half_within (left right : Z) :
  left <= right -> left <= Z.quot (left + right) 2 <= right.
Proof.
  intros H. pose proof (Z.quot_rem' (left + right) 2) as E.
  pose proof (Z.rem_bound_abs (left + right) 2 ltac:(lia)) as Hb.
  destruct (Z.le_gt_cases 0 (left + right)) as [Hs | Hs].
  - pose proof (Z.rem_nonneg (left + right) 2 ltac:(lia) Hs). lia.
  - pose proof (Z.rem_nonpos (left + right) 2 ltac:(lia) ltac:(lia)). lia.
Qed.

Lemma partition_loop (a index0 : arr Z) (left right : Z) :
  left < right ->
  partitioned a index0 left right (right + 1)
    (for_loop (left + 1) (right + 1)
       (fun '((index, last) : arr Z * Z) i =>
          if a (index i) <? a (index left)
          then (iSwapping index (last + 1) i, last + 1)
          else (index, last))
       (index0, left)).
Proof.
  intros Hlr.
  apply (for_loop_inv (fun t st => partitioned a index0 left right t st)); [lia | |].
  - cbn. split; [lia|]. split; [reflexivity|]. split; [intros k; lia|].
    split; [intros k; lia|]. split; [reflexivity|]. reflexivity.
  - intros t [index last] Ht (Hl & Ep & Hlow & Hhigh & Hperm & Hout).
    destruct (Z.ltb_spec (a (index t)) (a (index left))) as [Hlt | Hge].
    + cbn. split; [lia|].
      assert (El : iSwapping index (last + 1) t left = index left).
      { rewrite iSwapping_cells. destruct (Z.eqb_spec left t); [lia|].
        destruct (Z.eqb_spec left (last + 1)); [lia|]. reflexivity. }
      rewrite El. split; [exact Ep|]. split; [|split; [|split]].
      * intros k Hk. rewrite iSwapping_cells.
        destruct (Z.eqb_spec k t) as [-> | Hkt].
        -- destruct (Z.eq_dec (last + 1) t) as [E | Hne]; [rewrite E; exact Hlt | lia].
        -- destruct (Z.eqb_spec k (last + 1)) as [-> | Hkl]; [exact Hlt|].
           apply Hlow. lia.
      * intros k Hk. rewrite iSwapping_cells.
        destruct (Z.eqb_spec k t) as [-> | Hkt].
        -- apply Hhigh. lia.
        -- destruct (Z.eqb_spec k (last + 1)) as [-> | Hkl]; [lia|].
           apply Hhigh. lia.
      * eapply perm_trans; [|exact Hperm]. apply iSwapping_perm; lia.
      * intros k Hk. rewrite iSwapping_cells.
        destruct (Z.eqb_spec k t); [lia|].
        destruct (Z.eqb_spec k (last + 1)); [lia|]. now apply Hout.
    + cbn. split; [lia|]. split; [exact Ep|]. split; [exact Hlow|].
      split; [|split; [exact Hperm | exact Hout]].
      intros k Hk. destruct (Z.eq_dec k t) as [-> |]; [lia|]. apply Hhigh. lia.
Qed.

Lemma quicksort_index_spec (a : arr Z) :
  forall (depth : nat) (left right : Z) (index : arr Z),
    right - left <= Z.of_nat depth ->
    exists index',
      fasp_aux_iQuickSortIndex depth a left right index = Some index' /\
      Permutation (segment index' left (right + 1)) (segment index left (right + 1)) /\
      (forall k, k < left \/ right < k -> index' k = index k) /\
      (forall i j, left <= i -> i <= j -> j <= right ->
                   a (index' i) <= a (index' j)).
Proof.
  induction depth as [|depth IH]; intros left right index Hd.
  - cbn [fasp_aux_iQuickSortIndex]. destruct (Z.geb_spec left right); [|lia].
    exists index. split; [reflexivity|]. split; [reflexivity|].
    split; [reflexivity|]. intros i j Hi Hij Hj. replace j with i by lia. lia.
  - cbn [fasp_aux_iQuickSortIndex]. destruct (Z.geb_spec left right) as [Hge | Hlt].
    { exists index. split; [reflexivity|]. split; [reflexivity|].
      split; [reflexivity|]. intros i j Hi Hij Hj. replace j with i by lia. lia. }
    cbv zeta.
    pose proof (half_within left right ltac:(lia)) as Hm.
    set (index1 := iSwapping index left (Z.quot (left + right) 2)).
    pose proof (partition_loop a index1 left right Hlt) as Hpart.
    destruct (for_loop (left + 1) (right + 1) _ _) as [index2 last].
    destruct Hpart as (Hl & Ep & Hlow & Hhigh & Hperm & Hout).
    set (index3 := iSwapping index2 left last).
    assert (E3 : forall k, index3 k = if k =? last then index2 left
                                      else if k =? left then index2 last
                                           else index2 k)
      by (intros k; apply iSwapping_cells).
    assert (P3 : Permutation (segment index3 left (right + 1))
                             (segment index left (right + 1))).
    { eapply perm_trans; [apply iSwapping_perm; lia|].
      eapply perm_trans; [exact Hperm|]. apply iSwapping_perm; lia. }
    assert (O3 : forall k, k < left \/ right < k -> index3 k = index k).
    { intros k Hk. rewrite E3. destruct (Z.eqb_spec k last); [lia|].
      destruct (Z.eqb_spec k left); [lia|]. rewrite Hout by exact Hk.
      unfold index1. rewrite iSwapping_cells.
      destruct (Z.eqb_spec k (Z.quot (left + right) 2)); [lia|].
      destruct (Z.eqb_spec k left); [lia|]. reflexivity. }
    assert (M3 : index3 last = index2 left)
      by (rewrite E3; now rewrite Z.eqb_refl).
    assert (L3 : forall k, left <= k < last ->
                           a (index3 k) < a (index2 left)).
    { intros k Hk. rewrite E3. destruct (Z.eqb_spec k last); [lia|].
      destruct (Z.eqb_spec k left) as [-> |]; apply Hlow; lia. }
    assert (R3 : forall k, last + 1 <= k < right + 1 ->
                           a (index2 left) <= a (index3 k)).
    { intros k Hk. rewrite E3. destruct (Z.eqb_spec k last); [lia|].
      destruct (Z.eqb_spec k left); [lia|]. apply Hhigh. lia. }
    destruct (IH left (last - 1) index3 ltac:(lia)) as (index4 & E4 & P4 & O4 & S4).
    rewrite E4.
    destruct (IH (last + 1) right index4 ltac:(lia)) as (index5 & E5 & P5 & O5 & S5).
    exists index5. split; [exact E5|].
    replace (last - 1 + 1) with last in P4 by lia.
    assert (L4 : forall k, left <= k < last -> a (index4 k) < a (index2 left)).
    { apply (segment_cells (fun x => a x < a (index2 left)) index3 index4 left last P4).
      exact L3. }
    assert (R4 : forall k, last + 1 <= k < right + 1 ->
                           a (index2 left) <= a (index4 k)).
    { intros k Hk. rewrite O4 by lia. now apply R3. }
    assert (R5 : forall k, last + 1 <= k < right + 1 ->
                           a (index2 left) <= a (index5 k)).
    { apply (segment_cells (fun x => a (index2 left) <= a x) index4 index5
               (last + 1) (right + 1) P5). exact R4. }
    split; [|split].
    + eapply perm_trans; [|exact P3].
      eapply perm_trans.
      * apply (segment_perm_within index4 index5 left (last + 1) (right + 1)
                 (right + 1)); try lia; [exact P5|].
        intros k Hk. apply O5. lia.
      * apply (segment_perm_within index3 index4 left left last (right + 1));
          try lia; [exact P4|].
        intros k Hk. apply O4. lia.
    + intros k Hk. rewrite O5 by lia. rewrite O4 by lia. now apply O3.
    + intros i j Hi Hij Hj.
      assert (M5 : a (index5 last) = a (index2 left)).
      { rewrite O5 by lia. rewrite O4 by lia. now rewrite M3. }
      assert (L5 : forall k, left <= k < last -> a (index5 k) < a (index2 left)).
      { intros k Hk. rewrite O5 by lia. now apply L4. }
      destruct (Z.lt_trichotomy j last) as [Hjl | [-> | Hjl]].
      * rewrite (O5 i) by lia. rewrite (O5 j) by lia. apply S4; lia.
      * rewrite M5. destruct (Z.eq_dec i last) as [-> |]; [lia|].
        pose proof (L5 i ltac:(lia)). lia.
      * destruct (Z.lt_trichotomy i last) as [Hil | [-> | Hil]].
        -- pose proof (L5 i ltac:(lia)). pose proof (R5 j ltac:(lia)). lia.
        -- rewrite M5. apply R5. lia.
        -- apply S5; lia.
Qed.

Lemma quicksort_as_index :
  forall (depth : nat) (a : arr Z) (left right : Z),
    fasp_aux_iQuickSort depth a left right
    = fasp_aux_iQuickSortIndex depth (fun x => x) left right a.
Proof.
  induction depth as [|depth IH]; intros a left right.
  - reflexivity.
  - cbn [fasp_aux_iQuickSort fasp_aux_iQuickSortIndex].
    destruct (left >=? right); [reflexivity|]. cbv zeta.
    destruct (for_loop (left + 1) (right + 1) _ _) as [a' last].
    rewrite IH. destruct (fasp_aux_iQuickSortIndex depth _ left (last - 1) _);
      [apply IH | reflexivity].
Qed.

(** X10.  [fasp_aux_iQuickSort (a, left, right)], given a nesting depth of
    at least [right - left], returns; the cells [left .. right] are then in
    ascending order and hold what they held before in another order, and no
    other cell has changed. *)
Theorem iQuickSort_sorts (depth : nat) (a : arr Z) (left right : Z) :
  right - left <= Z.of_nat depth ->
  exists a', fasp_aux_iQuickSort depth a left right = Some a' /\
             ascending a' left (right + 1) /\
             Permutation (segment a' left (right + 1)) (segment a left (right + 1)) /\
             (forall k, k < left \/ right < k -> a' k = a k).
Proof.
  intros Hd. rewrite quicksort_as_index.
  destruct (quicksort_index_spec (fun x => x) depth left right a Hd)
    as (a' & E & Hp & Ho & Hs).
  exists a'. split; [exact E|]. split; [|split; [exact Hp | exact Ho]].
  intros i j Hi Hij Hj. apply Hs; lia.
Qed.

Lemma iQuickSort_sorts_witness :
  exists a', fasp_aux_iQuickSort 7 digits 0 7 = Some a' /\
             ascending a' 0 (7 + 1) /\
             Permutation (segment a' 0 (7 + 1)) (segment digits 0 (7 + 1)) /\
             (forall k, k < 0 \/ 7 < k -> a' k = digits k).
Proof.
  exact (iQuickSort_sorts 7 digits 0 7 ltac:(lia)).
Defined.

Example digits_sorted :
  option_map (fun a' => segment a' 0 8) (fasp_aux_iQuickSort 7 digits 0 7)
  = Some [1; 1; 2; 3; 4; 5; 6; 9].
Proof. reflexivity. Qed.

(** X11.  [fasp_aux_iQuickSortIndex (a, left, right, index)] with [index]
    in the natural order on [left .. right], given a nesting depth of at
    least [right - left], returns; the cells [left .. right] of [index] then
    hold the numbers [left .. right] in an order in which the keys
    [a[index[.]]] ascend, and no other cell of [index] has changed. *)
Theorem iQuickSortIndex_orders (depth : nat) (a : arr Z) (left right : Z)
  (index : arr Z) :
  right - left <= Z.of_nat depth ->
  (forall k, left <= k <= right -> index k = k) ->
  exists index',
    fasp_aux_iQuickSortIndex depth a left right index = Some index' /\
    Permutation (segment index' left (right + 1)) (zrange left (right + 1)) /\
    (forall i j, left <= i -> i <= j -> j <= right ->
                 a (index' i) <= a (index' j)) /\
    (forall k, left <= k <= right -> left <= index' k <= right) /\
    (forall k, k < left \/ right < k -> index' k = index k).
Proof.
  intros Hd Hn.
  destruct (quicksort_index_spec a depth left right index Hd)
    as (index' & E & Hp & Ho & Hs).
  assert (En : segment index left (right + 1) = zrange left (right + 1)).
  { unfold segment. rewrite (map_ext_in index (fun k => k)).
    - apply map_id.
    - intros k Hk. apply zrange_In in Hk. apply Hn. lia. }
  exists index'. split; [exact E|]. rewrite En in Hp.
  split; [exact Hp|]. split; [exact Hs|]. split; [|exact Ho].
  intros k Hk.
  assert (Hin : In (index' k) (segment index' left (right + 1))).
  { unfold segment. apply in_map. apply zrange_In. lia. }
  apply (Permutation_in _ Hp) in Hin. apply zrange_In in Hin. lia.
Qed.

Lemma iQuickSortIndex_orders_witness :
  exists index',
    fasp_aux_iQuickSortIndex 7 digits 0 7 (fun k => k) = Some index' /\
    Permutation (segment index' 0 (7 + 1)) (zrange 0 (7 + 1)) /\
    (forall i j, 0 <= i -> i <= j -> j <= 7 ->
                 digits (index' i) <= digits (index' j)) /\
    (forall k, 0 <= k <= 7 -> 0 <= index' k <= 7) /\
    (forall k, k < 0 \/ 7 < k -> index' k = k).
Proof.
  exact (iQuickSortIndex_orders 7 digits 0 7 (fun k => k) ltac:(lia)
           (fun k _ => eq_refl)).
Defined.

(** *** The merge sort *)

Lemma while_loop_inv {St : Type} (I : St -> Prop) (measure : St -> Z)
  (cond : St -> bool) (body : St -> St) :
  (forall s, I s -> cond s = true ->
             0 < measure s /\ I (body s) /\ measure (body s) < measure s) ->
  forall (turns : nat) (s : St),
    I s -> measure s <= Z.of_nat turns ->
    exists s', while_loop turns cond body s = Some s' /\ I s' /\ cond s' = false.
Proof.
  intros Hstep. induction turns as [|turns IH]; intros s Hs Hm.
  - cbn [while_loop]. destruct (cond s) eqn:Ec.
    + destruct (Hstep s Hs Ec) as (H0 & _). lia.
    + exists s. now split.
  - cbn [while_loop]. destruct (cond s) eqn:Ec.
    + destruct (Hstep s Hs Ec) as (H0 & Hb & Hlt). apply IH; [exact Hb | lia].
    + exists s. now split.
Qed.

Lemma segment_snoc {T : Type} (a : arr T) (lo hi : Z) :
  lo <= hi -> segment a lo (hi + 1) = segment a lo hi ++ [a hi].
Proof.
  intros H. unfold segment. rewrite zrange_last by exact H.
  now rewrite map_app.
Qed.

Lemma segment_ext {T : Type} (a b : arr T) (lo hi : Z) :
  (forall k, lo <= k < hi -> a k = b k) -> segment a lo hi = segment b lo hi.
Proof.
  intros H. unfold segment. apply map_ext_in. intros k Hk.
  apply zrange_In in Hk. now apply H.
Qed.

Lemma merging_take_left (numbers : arr Z) (left mid right : Z)
  (work : arr Z) (l m : Z) :
  ascending numbers left mid ->
  merging numbers left mid right (work, l, m, l + (m - mid)) ->
  l < mid -> (m <= right -> numbers l <= numbers m) ->
  merging numbers left mid right
    (upd work (l + (m - mid)) (numbers l), l + 1, m, l + (m - mid) + 1).
Proof.
  intros Ha (Hl & Hm & _ & Hasc & Hperm & Hb) Hlt Hle.
  set (tp := l + (m - mid)) in *.
  cbn. split; [lia|]. split; [lia|]. split; [lia|]. split; [|split].
  - intros i j Hi Hij Hj. destruct (Z.eq_dec j tp) as [-> | Hne].
    + rewrite upd_same. destruct (Z.eq_dec i tp) as [-> | Hi'].
      * rewrite upd_same. lia.
      * rewrite upd_other by exact Hi'. apply Hb; lia.
    + rewrite !upd_other by lia. apply Hasc; lia.
  - rewrite segment_snoc by lia. rewrite upd_same.
    rewrite (segment_ext (upd work tp (numbers l)) work)
      by (intros k Hk; apply upd_other; lia).
    rewrite (segment_snoc numbers left l) by lia.
    rewrite <- app_assoc. cbn [app].
    eapply perm_trans; [|apply Permutation_middle].
    eapply perm_trans; [symmetry; apply Permutation_cons_append|].
    now apply perm_skip.
  - intros k Hk. destruct (Z.eq_dec k tp) as [-> | Hne].
    + rewrite upd_same. split; [intros; apply Ha; lia | exact Hle].
    + rewrite upd_other by exact Hne. destruct (Hb k ltac:(lia)) as [B1 B2].
      split; [|exact B2]. intros Hl'.
      pose proof (Ha l (l + 1) ltac:(lia) ltac:(lia) ltac:(lia)).
      pose proof (B1 Hlt). lia.
Qed.

Lemma merging_take_right (numbers : arr Z) (left mid right : Z)
  (work : arr Z) (l m : Z) :
  ascending numbers mid (right + 1) ->
  merging numbers left mid right (work, l, m, l + (m - mid)) ->
  m <= right -> (l < mid -> numbers m <= numbers l) ->
  merging numbers left mid right
    (upd work (l + (m - mid)) (numbers m), l, m + 1, l + (m - mid) + 1).
Proof.
  intros Ha (Hl & Hm & _ & Hasc & Hperm & Hb) Hlt Hle.
  set (tp := l + (m - mid)) in *.
  cbn. split; [lia|]. split; [lia|]. split; [lia|]. split; [|split].
  - intros i j Hi Hij Hj. destruct (Z.eq_dec j tp) as [-> | Hne].
    + rewrite upd_same. destruct (Z.eq_dec i tp) as [-> | Hi'].
      * rewrite upd_same. lia.
      * rewrite upd_other by exact Hi'. apply Hb; lia.
    + rewrite !upd_other by lia. apply Hasc; lia.
  - rewrite segment_snoc by lia. rewrite upd_same.
    rewrite (segment_ext (upd work tp (numbers m)) work)
      by (intros k Hk; apply upd_other; lia).
    rewrite (segment_snoc numbers mid m) by lia.
    rewrite app_assoc. now apply Permutation_app_tail.
  - intros k Hk. destruct (Z.eq_dec k tp) as [-> | Hne].
    + rewrite upd_same. split; [exact Hle | intros; apply Ha; lia].
    + rewrite upd_other by exact Hne. destruct (Hb k ltac:(lia)) as [B1 B2].
      split; [exact B1|]. intros Hm'.
      pose proof (Ha m (m + 1) ltac:(lia) ltac:(lia) ltac:(lia)).
      pose proof (B2 Hlt). lia.
Qed.

Lemma copy_back (numbers work : arr Z) (right n : Z) :
  0 <= n ->
  let st := for_loop 0 n
              (fun '((a, r) : arr Z * Z) (_ : Z) => (upd a r (work r), r - 1))
              (numbers, right) in
  forall k, fst st k = if (right - n <? k) && (k <=? right) then work k
                       else numbers k.
Proof.
  intros Hn. cbv zeta.
  enough (G : snd (for_loop 0 n
                     (fun '((a, r) : arr Z * Z) (_ : Z) => (upd a r (work r), r - 1))
                     (numbers, right)) = right - n /\
              forall k, fst (for_loop 0 n
                               (fun '((a, r) : arr Z * Z) (_ : Z) => (upd a r (work r), r - 1))
                               (numbers, right)) k
                        = if (right - n <? k) && (k <=? right) then work k
                          else numbers k) by apply G.
  apply (for_loop_inv
           (fun t (st : arr Z * Z) =>
              snd st = right - t /\
              forall k, fst st k = if (right - t <? k) && (k <=? right) then work k
                                   else numbers k)); [exact Hn | |].
  - cbn [fst snd]. split; [lia|]. intros k. zbool.
  - intros t [a r] Ht [Er Ea]. cbn [fst snd] in *. subst r. split; [lia|].
    intros k. destruct (Z.eq_dec k (right - t)) as [-> | Hne].
    + rewrite upd_same. zbool.
    + rewrite upd_other by exact Hne. rewrite Ea. zbool.
Qed.

Lemma merge_spec (numbers work : arr Z) (left mid right : Z) :
  left <= mid -> mid <= right + 1 ->
  ascending numbers left mid -> ascending numbers mid (right + 1) ->
  exists numbers' work',
    fasp_aux_merge numbers work left mid right = Some (numbers', work') /\
    ascending numbers' left (right + 1) /\
    Permutation (segment numbers' left (right + 1)) (segment numbers left (right + 1)) /\
    (forall k, k < left \/ right < k -> numbers' k = numbers k).
Proof.
  intros H1 H2 Ha1 Ha2. unfold fasp_aux_merge. cbv zeta.
  set (turns := Z.to_nat (right - left + 1)).
  assert (J0 : merging numbers left mid right (work, left, mid, left)).
  { cbn. split; [lia|]. split; [lia|]. split; [lia|]. split; [intros i j; lia|].
    split.
    - unfold segment. rewrite !zrange_empty by lia. reflexivity.
    - intros k Hk. lia. }
  (* the first loop *)
  destruct (while_loop_inv
              (fun st => merging numbers left mid right st)
              (fun '((_, l, m, _) : arr Z * Z * Z * Z) => (mid - l) + (right + 1 - m))
              (fun '((_, l, m, _) : arr Z * Z * Z * Z) =>
                 (l <=? mid - 1) && (m <=? right))
              (fun '((w, l, m, tp) : arr Z * Z * Z * Z) =>
                 if numbers l <=? numbers m
                 then (upd w tp (numbers l), l + 1, m, tp + 1)
                 else (upd w tp (numbers m), l, m + 1, tp + 1)))
    with (turns := turns) (s := (work, left, mid, left))
    as ([[[work1 l1] m1] tp1] & E1 & J1 & C1).
  { intros [[[w l] m] tp] J Hc. apply andb_prop in Hc. destruct Hc as [Hc1 Hc2].
    apply Z.leb_le in Hc1, Hc2.
    pose proof J as (Hl & Hm & Etp & _). subst tp.
    split; [lia|].
    destruct (Z.leb_spec (numbers l) (numbers m)) as [Hle | Hgt].
    - split; [|lia]. apply merging_take_left; [exact Ha1 | exact J | lia | lia].
    - split; [|lia]. apply merging_take_right; [exact Ha2 | exact J | lia | lia]. }
  { exact J0. }
  { unfold turns. lia. }
  rewrite E1.
  (* the second loop *)
  destruct (while_loop_inv
              (fun st => merging numbers left mid right st /\
                         let '(_, l, m, _) := st in l < mid -> right < m)
              (fun '((_, l, _, _) : arr Z * Z * Z * Z) => mid - l)
              (fun '((_, l, _, _) : arr Z * Z * Z * Z) => l <=? mid - 1)
              (fun '((w, l, m, tp) : arr Z * Z * Z * Z) =>
                 (upd w tp (numbers l), l + 1, m, tp + 1)))
    with (turns := turns) (s := (work1, l1, m1, tp1))
    as ([[[work2 l2] m2] tp2] & E2 & [J2 K2] & C2).
  { intros [[[w l] m] tp] [J K] Hc. apply Z.leb_le in Hc.
    pose proof J as (Hl & Hm & Etp & _). subst tp.
    split; [lia|]. split; [|lia]. split.
    - apply merging_take_left; [exact Ha1 | exact J | lia | lia].
    - intros _. apply K. lia. }
  { split; [exact J1|]. intros Hl.
    apply andb_false_iff in C1. destruct C1 as [C | C]; apply Z.leb_gt in C; lia. }
  { destruct J1 as (Hl & _). unfold turns. lia. }
  rewrite E2. apply Z.leb_gt in C2.
  (* the third loop *)
  destruct (while_loop_inv
              (fun st => merging numbers left mid right st /\
                         let '(_, l, _, _) := st in l = mid)
              (fun '((_, _, m, _) : arr Z * Z * Z * Z) => right + 1 - m)
              (fun '((_, _, m, _) : arr Z * Z * Z * Z) => m <=? right)
              (fun '((w, l, m, tp) : arr Z * Z * Z * Z) =>
                 (upd w tp (numbers m), l, m + 1, tp + 1)))
    with (turns := turns) (s := (work2, l2, m2, tp2))
    as ([[[work3 l3] m3] tp3] & E3 & [J3 K3] & C3).
  { intros [[[w l] m] tp] [J K] Hc. apply Z.leb_le in Hc.
    pose proof J as (Hl & Hm & Etp & _). subst tp.
    split; [lia|]. split; [|lia]. split.
    - apply merging_take_right; [exact Ha2 | exact J | lia | lia].
    - exact K. }
  { split; [exact J2|]. destruct J2 as (Hl & _). lia. }
  { destruct J2 as (_ & Hm & _). unfold turns. lia. }
  rewrite E3. apply Z.leb_gt in C3. subst l3.
  destruct J3 as (_ & Hm3 & Etp & Hasc & Hperm & _).
  assert (Em : m3 = right + 1) by lia. subst m3.
  assert (Et : tp3 = right + 1) by lia. clear Etp. subst tp3.
  (* the copy *)
  pose proof (copy_back numbers work3 right (right - left + 1) ltac:(lia)) as Hcp.
  cbv zeta in Hcp.
  destruct (for_loop 0 (right - left + 1) _ (numbers, right)) as [numbers' r'].
  cbn [fst] in Hcp.
  assert (Ein : forall k, left <= k < right + 1 -> numbers' k = work3 k).
  { intros k Hk. rewrite Hcp.
    destruct (Z.ltb_spec (right - (right - left + 1)) k); [|lia].
    destruct (Z.leb_spec k right); [reflexivity | lia]. }
  exists numbers', work3. split; [reflexivity|]. split; [|split].
  - intros i j Hi Hij Hj. rewrite !Ein by lia. apply Hasc; lia.
  - rewrite (segment_ext numbers' work3) by exact Ein.
    eapply perm_trans; [exact Hperm|].
    unfold segment. rewrite <- map_app, <- zrange_split by lia. reflexivity.
  - intros k Hk. rewrite Hcp.
    destruct (Z.ltb_spec (right - (right - left + 1)) k);
      destruct (Z.leb_spec k right); cbn [andb]; try reflexivity; lia.
Qed.

Lemma msort_spec :
  forall (depth : nat) (numbers work : arr Z) (left right : Z),
    0 <= left -> right - left <= Z.of_nat depth ->
    exists numbers' work',
      fasp_aux_msort depth numbers work left right = Some (numbers', work') /\
      ascending numbers' left (right + 1) /\
      Permutation (segment numbers' left (right + 1))
                  (segment numbers left (right + 1)) /\
      (forall k, k < left \/ right < k -> numbers' k = numbers k).
Proof.
  induction depth as [|depth IH]; intros numbers work left right H0 Hd.
  - cbn [fasp_aux_msort]. destruct (Z.gtb_spec right left); [lia|].
    exists numbers, work. split; [reflexivity|].
    split; [intros i j Hi Hij Hj; replace j with i by lia; lia|].
    split; reflexivity.
  - cbn [fasp_aux_msort]. destruct (Z.gtb_spec right left) as [Hgt | Hle].
    2:{ exists numbers, work. split; [reflexivity|].
        split; [intros i j Hi Hij Hj; replace j with i by lia; lia|].
        split; reflexivity. }
    cbv zeta.
    assert (Hm : left <= Z.quot (right + left) 2 < right).
    { rewrite Z.quot_div_nonneg by lia. split.
      - apply Z.div_le_lower_bound; lia.
      - apply Z.div_lt_upper_bound; lia. }
    set (mid := Z.quot (right + left) 2) in *.
    assert (Hh : mid - left <= Z.of_nat depth /\ right - (mid + 1) <= Z.of_nat depth)
      by lia.
    destruct (IH numbers work left mid H0 (proj1 Hh)) as (n1 & w1 & E1 & A1 & P1 & O1).
    rewrite E1.
    destruct (IH n1 w1 (mid + 1) right ltac:(lia) (proj2 Hh))
      as (n2 & w2 & E2 & A2 & P2 & O2).
    rewrite E2.
    destruct (merge_spec n2 w2 left (mid + 1) right ltac:(lia) ltac:(lia))
      as (n3 & w3 & E3 & A3 & P3 & O3).
    { intros i j Hi Hij Hj. rewrite !O2 by lia. apply A1; lia. }
    { exact A2. }
    exists n3, w3. split; [exact E3|]. split; [exact A3|]. split.
    + eapply perm_trans; [exact P3|].
      eapply perm_trans.
      * apply (segment_perm_within n1 n2 left (mid + 1) (right + 1) (right + 1));
          try lia; [exact P2|].
        intros k Hk. apply O2. lia.
      * apply (segment_perm_within numbers n1 left left (mid + 1) (right + 1));
          try lia; [exact P1|].
        intros k Hk. apply O1. lia.
    + intros k Hk. rewrite O3 by exact Hk. rewrite O2 by lia. apply O1. lia.
Qed.

(** X13.  [fasp_aux_msort (numbers, work, left, right)] with [left >= 0],
    given a nesting depth of at least [right - left], returns; the cells
    [left .. right] of [numbers] are then in ascending order and hold what
    they held before in another order, and no other cell of [numbers] has
    changed. *)
Theorem msort_sorts (depth : nat) (numbers work : arr Z) (left right : Z) :
  0 <= left -> right - left <= Z.of_nat depth ->
  exists numbers' work',
    fasp_aux_msort depth numbers work left right = Some (numbers', work') /\
    ascending numbers' left (right + 1) /\
    Permutation (segment numbers' left (right + 1)) (segment numbers left (right + 1)) /\
    (forall k, ~ left <= k <= right -> numbers' k = numbers k).
Proof.
  intros H0 Hd.
  destruct (msort_spec depth numbers work left right H0 Hd)
    as (n' & w' & E & Ha & Hp & Ho).
  exists n', w'. split; [exact E|]. split; [exact Ha|]. split; [exact Hp|].
  intros k Hk. apply Ho. lia.
Qed.

Lemma msort_sorts_witness :
  exists numbers' work',
    fasp_aux_msort 7 digits (zeros 0) 0 7 = Some (numbers', work') /\
    ascending numbers' 0 (7 + 1) /\
    Permutation (segment numbers' 0 (7 + 1)) (segment digits 0 (7 + 1)) /\
    (forall k, ~ 0 <= k <= 7 -> numbers' k = digits k).
Proof.
  exact (msort_sorts 7 digits (zeros 0) 0 7 ltac:(lia) ltac:(lia)).
Defined.

(** With negative bounds the midpoint, rounded towards zero, can be [right]
    itself, and the first inner call is the call again: the pair [-3], [-2]
    uses up any depth. *)
Example msort_negative_bounds (depth : nat) (numbers work : arr Z) :
  fasp_aux_msort depth numbers work (-3) (-2) = None.
Proof.
  induction depth as [|depth IH]; [reflexivity|].
  cbn [fasp_aux_msort]. change (-2 >? -3) with true. cbv iota zeta.
  change (Z.quot (-2 + -3) 2) with (-2). now rewrite IH.
Qed.

End OrderingFacts.

From Stdlib Require Import Permutation.

(* ------------------------------------------------------------------ *)
(** ** Sorting the rows of a matrix *)

Module SparseSortFacts.
Import Rows SparseOps Ordering SparseSort OrderingFacts.

Lemma zrange_from_shift (c : Z) (n : nat) :
  forall lo, zrange_from (c + lo) n = map (Z.add c) (zrange_from lo n).
Proof.
  induction n as [|n IH]; intros lo; [reflexivity|].
  cbn [zrange_from map]. f_equal. rewrite <- IH. f_equal. lia.
Qed.

Lemma zrange_shift (c lo hi : Z) :
  zrange (c + lo) (c + hi) = map (Z.add c) (zrange lo hi).
Proof.
  unfold zrange. replace (c + hi - (c + lo)) with (hi - lo) by lia.
  apply zrange_from_shift.
Qed.

Lemma pair_fill_at {T U : Type} (f : Z -> T) (g : Z -> U) (c n : Z)
  (x0 : arr T) (y0 : arr U) (p : Z) :
  let st := for_loop 0 n
              (fun '(x, y) j => (upd x (c + j) (f j), upd y (c + j) (g j)))
              (x0, y0) in
  fst st p = (if (c <=? p) && (p <? c + n) then f (p - c) else x0 p) /\
  snd st p = (if (c <=? p) && (p <? c + n) then g (p - c) else y0 p).
Proof.
  cbv zeta. destruct (Z.le_gt_cases n 0) as [H | H].
  { rewrite for_loop_empty by lia. cbn [fst snd]. split; zbool. }
  apply (for_loop_inv
           (fun t (st : arr T * arr U) =>
              fst st p = (if (c <=? p) && (p <? c + t) then f (p - c) else x0 p) /\
              snd st p = (if (c <=? p) && (p <? c + t) then g (p - c) else y0 p))).
  - lia.
  - cbn [fst snd]. split; zbool.
  - intros t [x y] Ht [E1 E2]. cbn [fst snd] in *.
    destruct (Z.eq_dec p (c + t)) as [-> | Hne].
    + rewrite !upd_same. replace (c + t - c) with t by lia. split; zbool.
    + rewrite !upd_other by exact Hne. rewrite E1, E2. split; zbool.
Qed.

Lemma sort_row_spec (n : Z) (ia : arr Z) (s : sort_state) (i : Z) :
  ia i <= ia (i + 1) -> ia (i + 1) - ia i <= n ->
  exists s',
    sort_row n ia s i = Some s' /\
    Permutation (map (fun p => (sJA s' p, sval s' p)) (zrange (ia i) (ia (i + 1))))
                (map (fun p => (sJA s p, sval s p)) (zrange (ia i) (ia (i + 1)))) /\
    ascending (sJA s') (ia i) (ia (i + 1)) /\
    (forall p, p < ia i \/ ia (i + 1) <= p ->
               sJA s' p = sJA s p /\ sval s' p = sval s p).
Proof.
  intros Hle Hfit. unfold sort_row. cbv zeta.
  set (start := ia i). set (len := ia (i + 1) - start).
  assert (Hlen : 0 <= len) by (unfold len, start; lia).
  destruct (Z.gtb_spec len n) as [Hover | _]; [unfold len, start in Hover; lia|].
  set (index0 := for_loop 0 len (fun index j => upd index j j) (sindex s)).
  assert (Hn : forall k, 0 <= k < len -> index0 k = k).
  { intros k Hk. unfold index0. rewrite (cellwise_loop (fun _ j => j)).
    destruct (Z.leb_spec 0 k); destruct (Z.ltb_spec k len); cbn [andb]; lia. }
  destruct (quicksort_index_spec (fun k => sJA s (start + k)) (Z.to_nat len) 0
              (len - 1) index0 ltac:(lia)) as (index' & E & Hp & Ho & Hs).
  rewrite E. replace (len - 1 + 1) with len in Hp by lia.
  assert (En : segment index0 0 len = zrange 0 len).
  { unfold segment. rewrite (map_ext_in index0 (fun k => k)); [apply map_id|].
    intros k Hk. apply zrange_In in Hk. now apply Hn. }
  rewrite En in Hp.
  pose proof (PermFacts.pair_fill_from
                (fun j => sJA s (start + index' j))
                (fun j => sval s (start + index' j)) 0 len (sja s) (sa s)) as Hbuf.
  cbv zeta in Hbuf.
  destruct (for_loop 0 len _ (sja s, sa s)) as [ja a] eqn:Eb.
  cbn [fst snd] in Hbuf.
  pose proof (pair_fill_at ja a start len (sJA s) (sval s)) as Hback.
  cbv zeta in Hback.
  destruct (for_loop 0 len _ (sJA s, sval s)) as [A_JA A_val] eqn:Ew.
  cbn [fst snd] in Hback.
  eexists. split; [reflexivity|]. cbn [sJA sval].
  assert (Hrow : forall p, start <= p < start + len ->
                   A_JA p = sJA s (start + index' (p - start)) /\
                   A_val p = sval s (start + index' (p - start))).
  { intros p Hp'. destruct (Hback p) as [E1 E2]. rewrite E1, E2.
    destruct (Z.leb_spec start p); [|lia].
    destruct (Z.ltb_spec p (start + len)); [|lia]. cbn [andb].
    destruct (Hbuf (p - start)) as [F1 F2]. rewrite F1, F2.
    destruct (Z.leb_spec 0 (p - start)); [|lia].
    destruct (Z.ltb_spec (p - start) len); [|lia]. cbn [andb]. now split. }
  replace (ia (i + 1)) with (start + len) by (unfold len; lia).
  split; [|split].
  - set (H := fun k => (sJA s (start + k), sval s (start + k))).
    replace start with (start + 0) at 1 3 by lia.
    rewrite zrange_shift, !map_map.
    rewrite (map_ext_in _ (fun j => H (index' j))).
    + rewrite <- (map_map index' H).
      apply (Permutation_map H). exact Hp.
    + intros j Hj. apply zrange_In in Hj.
      destruct (Hrow (start + j) ltac:(lia)) as [E1 E2]. rewrite E1, E2.
      unfold H. now replace (start + j - start) with j by lia.
  - intros x y Hx Hxy Hy.
    destruct (Hrow x ltac:(lia)) as [-> _]. destruct (Hrow y ltac:(lia)) as [-> _].
    apply (Hs (x - start) (y - start)); lia.
  - intros p Hp'. destruct (Hback p) as [E1 E2]. rewrite E1, E2.
    destruct (Z.leb_spec start p); destruct (Z.ltb_spec p (start + len));
      cbn [andb]; try (now split); lia.
Qed.

Section Rows.
Variable A : dCSRmat.
Hypothesis HA : csr_valid A.
Hypothesis Hcol : col A <= row A.
Hypothesis Hfit : forall i, 0 <= i < col A -> IA A (i + 1) - IA A i <= col A.

Lemma offsets_ordered (i k : Z) : 0 <= i -> i <= k -> k <= row A -> IA A i <= IA A k.
Proof.
  destruct HA as [V1 V2 V3 V4 V5 V6].
  apply (TransposeFacts.offsets_le (row A) (IA A) V5).
Qed.

Lemma sort_rows_loop :
  rows_sorted_to A (col A)
    (for_loop 0 (col A)
       (fun st i => match st with
                    | Some s => sort_row (col A) (IA A) s i
                    | None => None
                    end)
       (Some {| sJA := JA A; sval := aval A; sindex := zeros 0; sja := zeros 0;
                sa := zeros 0%Q |})).
Proof.
  pose proof HA as [V1 V2 V3 V4 V5 V6].
  apply (for_loop_inv (fun t st => rows_sorted_to A t st)); [lia | |].
  - cbn. split; [intros i; lia|]. intros p _. now split.
  - intros t [s|] Ht; [|contradiction]. intros [Hdone Hrest].
    destruct (sort_row_spec (col A) (IA A) s t ltac:(apply V5; lia) (Hfit t Ht))
      as (s' & E & Hp & Hs & Ho).
    rewrite E. cbn. split.
    + intros i Hi. destruct (Z.eq_dec i t) as [-> | Hne].
      * split; [|exact Hs]. unfold positions. eapply perm_trans; [exact Hp|].
        unfold row_entries, positions.
        rewrite (map_ext_in _ (fun p => (JA A p, aval A p))); [reflexivity|].
        intros p Hp'. apply zrange_In in Hp'.
        destruct (Hrest p ltac:(lia)) as [-> ->]. reflexivity.
      * destruct (Hdone i ltac:(lia)) as [D1 D2].
        pose proof (offsets_ordered (i + 1) t ltac:(lia) ltac:(lia) ltac:(lia)).
        split.
        -- rewrite (map_ext_in _ (fun p => (sJA s p, sval s p))); [exact D1|].
           intros p Hp'. apply zrange_In in Hp'.
           destruct (Ho p ltac:(lia)) as [-> ->]. reflexivity.
        -- intros x y Hx Hxy Hy.
           destruct (Ho x ltac:(lia)) as [-> _].
           destruct (Ho y ltac:(lia)) as [-> _]. now apply D2.
    + intros p Hp'.
      pose proof (offsets_ordered 0 t ltac:(lia) ltac:(lia) ltac:(lia)).
      pose proof (V5 t ltac:(lia)).
      destruct (Ho p ltac:(lia)) as [-> ->]. apply Hrest. lia.
Qed.

End Rows.

(** X12.  For a matrix of valid structure with values, no more columns
    than rows, and no more entries than columns in any of its first [col]
    rows (so that the scratch arrays of [A->col] cells hold a row),
    [fasp_dcsr_sort] returns the matrix with the same sizes and row
    offsets; the row loop runs over [A->col] rows, so each of the first
    [col] rows then holds its entries ordered by ascending column, and the
    positions of the rows from [col] on are left as they were. *)
Theorem dcsr_sort_rows (A : dCSRmat) :
  csr_valid A -> val A <> None -> col A <= row A ->
  (forall i, 0 <= i < col A -> IA A (i + 1) - IA A i <= col A) ->
  exists B,
    fasp_dcsr_sort A = Some B /\
    row B = row A /\ col B = col A /\ nnz B = nnz A /\ IA B = IA A /\
    (forall i, 0 <= i < col A ->
               Permutation (row_entries B i) (row_entries A i) /\
               ascending (JA B) (IA A i) (IA A (i + 1))) /\
    (forall p, IA A (col A) <= p -> JA B p = JA A p /\ aval B p = aval A p).
Proof.
  intros HA Hv Hcol Hfit. unfold fasp_dcsr_sort. cbv zeta.
  pose proof (sort_rows_loop A HA Hcol Hfit) as H.
  destruct (for_loop 0 (col A) _ _) as [s|]; [|contradiction].
  destruct H as [Hdone Hrest].
  eexists. split; [reflexivity|]. cbn [row col nnz IA JA].
  repeat (split; [reflexivity|]).
  assert (Ev : forall p,
             aval {| row := row A; col := col A; nnz := nnz A; IA := IA A;
                     JA := sJA s;
                     val := match val A with Some _ => Some (sval s) | None => None end |} p
             = sval s p).
  { intros p. unfold aval. cbn [val]. destruct (val A); [reflexivity | contradiction]. }
  split.
  - intros i Hi. destruct (Hdone i Hi) as [D1 D2]. split; [|exact D2].
    unfold row_entries. cbn [IA JA].
    rewrite (map_ext _ (fun p => (sJA s p, sval s p))); [exact D1|].
    intros p. now rewrite Ev.
  - intros p Hp. rewrite Ev. apply Hrest. now right.
Qed.

Lemma dcsr_sort_rows_witness :
  exists B,
    fasp_dcsr_sort unsorted_rows = Some B /\
    row B = row unsorted_rows /\ col B = col unsorted_rows /\
    nnz B = nnz unsorted_rows /\ IA B = IA unsorted_rows /\
    (forall i, 0 <= i < col unsorted_rows ->
               Permutation (row_entries B i) (row_entries unsorted_rows i) /\
               ascending (JA B) (IA unsorted_rows i) (IA unsorted_rows (i + 1))) /\
    (forall p, IA unsorted_rows (col unsorted_rows) <= p ->
               JA B p = JA unsorted_rows p /\ aval B p = aval unsorted_rows p).
Proof.
  apply (dcsr_sort_rows unsorted_rows).
  - apply SparseOpsFacts.csr_validb_sound. reflexivity.
  - discriminate.
  - cbn. lia.
  - intros i Hi. change (col unsorted_rows) with 3 in *.
    assert (E : i = 0 \/ i = 1 \/ i = 2) by lia.
    destruct E as [-> | [-> | ->]]; vm_compute; discriminate.
Defined.

(** One row that holds its only column twice does not fit the scratch
    arrays of one cell. *)
Example repeated_column_overruns : fasp_dcsr_sort repeated_column = None.
Proof. reflexivity. Qed.

Example unsorted_rows_sorted :
  option_map (fun B => (map (JA B) (zrange 0 6), map (aval B) (zrange 0 6)))
             (fasp_dcsr_sort unsorted_rows)
  = Some ([0; 1; 2; 1; 0; 2], [1; 7; 5; 4; 3; 9]%Q).
Proof. reflexivity. Qed.

End SparseSortFacts.

(* ------------------------------------------------------------------ *)
(** ** Vectors *)

Module VecFacts.
Import Vec.

Lemma ABS_abs (a : Q) : (ABS a == Qabs a)%Q.
Proof.
  unfold ABS, Qgeb. destruct (Qltb_spec a 0) as [H | H]; cbn [negb].
  - rewrite Qabs_neg by lra. reflexivity.
  - rewrite Qabs_pos by lra. reflexivity.
Qed.

Lemma Qabs_zero (a : Q) : (Qabs a == 0)%Q <-> (a == 0)%Q.
Proof.
  split; intros E.
  - destruct (Qlt_le_dec a 0) as [Hneg | Hpos].
    + rewrite Qabs_neg in E by lra. lra.
    + rewrite Qabs_pos in E by lra. exact E.
  - rewrite E. reflexivity.
Qed.

Section WithConstants.
Context {K : Constants}.

Lemma maxdiff_loop (x y : dvector) (n : Z) :
  0 <= n ->
  let d := for_loop 0 n
             (fun Linf i =>
                let diffi := ABS (REAL_sub (vget x i) (vget y i)) in
                if Qgtb diffi Linf then diffi else Linf)
             0%Q in
  (forall i, 0 <= i < n -> (ABS (REAL_sub (vget x i) (vget y i)) <= d)%Q) /\
  (d = 0%Q \/ exists i, 0 <= i < n /\ d = ABS (REAL_sub (vget x i) (vget y i))).
Proof.
  intros Hn. cbv zeta.
  apply (for_loop_inv
           (fun t (d : Q) =>
              (forall i, 0 <= i < t ->
                         (ABS (REAL_sub (vget x i) (vget y i)) <= d)%Q) /\
              (d = 0%Q \/
               exists i, 0 <= i < t /\ d = ABS (REAL_sub (vget x i) (vget y i)))));
    [exact Hn | |].
  - split; [intros i; lia | now left].
  - intros t d Ht [Hb Ha]. cbv zeta.
    destruct (Qgtb (ABS (REAL_sub (vget x t) (vget y t))) d) eqn:E.
    + apply Qgtb_gt in E. split.
      * intros i Hi. destruct (Z.eq_dec i t) as [-> |]; [lra|].
        pose proof (Hb i ltac:(lia)). lra.
      * right. exists t. split; [lia | reflexivity].
    + apply Qgtb_le in E. split.
      * intros i Hi. destruct (Z.eq_dec i t) as [-> |]; [exact E|].
        apply Hb. lia.
      * destruct Ha as [-> | (i & Hi & Ei)]; [now left|].
        right. exists i. split; [lia | exact Ei].
Qed.

(** X14.  For [y] at least as long as [x], [fasp_dvec_maxdiff (x, y)] is
    the largest of the [|x[i] - y[i]|] over the [x->row] cells of [x], the
    differences being the ones the machine computes, whatever its
    rounding: it bounds each of them, it is one of them unless it is [0],
    and it is [0] exactly when every difference is [0] (so [0] is also
    what an empty [x] gives); on a machine whose difference is [0] only
    for equal operands, exactly when the two vectors agree on those
    cells. *)
Theorem maxdiff_largest (x y : dvector) :
  (length x <= length y)%nat ->
  let n := Z.of_nat (length x) in
  let d := fasp_dvec_maxdiff x y in
  let diff := fun i => REAL_sub (vget x i) (vget y i) in
  (forall i, 0 <= i < n -> (Qabs (diff i) <= d)%Q) /\
  (d = 0%Q \/ exists i, 0 <= i < n /\ (d == Qabs (diff i))%Q) /\
  ((d == 0)%Q <-> forall i, 0 <= i < n -> (diff i == 0)%Q) /\
  ((forall a b, (REAL_sub a b == 0)%Q <-> (a == b)%Q) ->
   ((d == 0)%Q <-> forall i, 0 <= i < n -> (vget x i == vget y i)%Q)).
Proof.
  intros _. cbv zeta. unfold fasp_dvec_maxdiff.
  pose proof (maxdiff_loop x y (Z.of_nat (length x)) ltac:(lia)) as H.
  cbv zeta in H. destruct H as [Hb Ha].
  set (d := for_loop 0 (Z.of_nat (length x)) _ 0%Q) in *.
  assert (H0 : (0 <= d)%Q).
  { destruct Ha as [-> | (i & Hi & Ei)]; [lra|].
    rewrite Ei, ABS_abs. apply Qabs_nonneg. }
  assert (Hz : (d == 0)%Q <->
               forall i, 0 <= i < Z.of_nat (length x) ->
                         (REAL_sub (vget x i) (vget y i) == 0)%Q).
  { split.
    - intros Ed i Hi. pose proof (Hb i Hi) as B. rewrite ABS_abs in B.
      apply Qabs_zero.
      pose proof (Qabs_nonneg (REAL_sub (vget x i) (vget y i))). lra.
    - intros Hall. destruct Ha as [-> | (i & Hi & Ei)]; [reflexivity|].
      rewrite Ei, ABS_abs. apply Qabs_zero. now apply Hall. }
  split; [|split; [|split]].
  - intros i Hi. rewrite <- ABS_abs. now apply Hb.
  - destruct Ha as [E | (i & Hi & Ei)]; [now left|].
    right. exists i. split; [exact Hi|]. rewrite Ei. apply ABS_abs.
  - exact Hz.
  - intros Hsub. rewrite Hz. split; intros H i Hi; apply Hsub; now apply H.
Qed.

End WithConstants.

Lemma maxdiff_largest_witness :
  let K := Samples.sample_constants in
  let x := [1; 4; 2]%Q in
  let y := [3; 1; 2; 7]%Q in
  let n := Z.of_nat (length x) in
  let d := fasp_dvec_maxdiff x y in
  let diff := fun i => REAL_sub (vget x i) (vget y i) in
  (forall i, 0 <= i < n -> (Qabs (diff i) <= d)%Q) /\
  (d = 0%Q \/ exists i, 0 <= i < n /\ (d == Qabs (diff i))%Q) /\
  ((d == 0)%Q <-> forall i, 0 <= i < n -> (diff i == 0)%Q) /\
  ((forall a b, (REAL_sub a b == 0)%Q <-> (a == b)%Q) ->
   ((d == 0)%Q <-> forall i, 0 <= i < n -> (vget x i == vget y i)%Q)).
Proof.
  apply (@maxdiff_largest Samples.sample_constants [1; 4; 2]%Q [3; 1; 2; 7]%Q).
  cbn. lia.
Defined.

(** On a machine that does not round the largest difference of the sample
    is [3]. *)
Example maxdiff_sample :
  @fasp_dvec_maxdiff Samples.sample_constants [1; 4; 2]%Q [3; 1; 2; 7]%Q = 3%Q.
Proof. reflexivity. Qed.

End VecFacts.

From Stdlib Require Import Permutation.

(* ------------------------------------------------------------------ *)
(** ** The pattern of the prolongation *)

Module SparsityFacts.
Import Rows SparseOps SparsityP.

Lemma filter_snoc {X : Type} (c : X -> bool) (l : list X) (x : X) :
  filter c (l ++ [x]) = filter c l ++ (if c x then [x] else []).
Proof. rewrite filter_app. cbn [filter]. reflexivity. Qed.

Lemma filter_of_map {X Y : Type} (c : Y -> bool) (f : X -> Y) (l : list X) :
  filter c (map f l) = map f (filter (fun x => c (f x)) l).
Proof.
  induction l as [|x l IH]; [reflexivity|]. cbn [map filter].
  destruct (c (f x)); cbn [map]; now rewrite IH.
Qed.

(** A loop that counts into one cell. *)
Lemma count_loop (c : Z -> bool) (q lo hi : Z) (a0 : arr Z) (k : Z) :
  for_loop lo hi (fun a j => if c j then upd a q (a q + 1) else a) a0 k
  = if k =? q then a0 q + Z.of_nat (length (filter c (zrange lo hi))) else a0 k.
Proof.
  destruct (Z.le_gt_cases hi lo) as [H | H].
  { rewrite for_loop_empty, zrange_empty by lia. cbn [filter length].
    destruct (Z.eqb_spec k q) as [-> |]; [lia | reflexivity]. }
  apply (for_loop_inv
           (fun t (a : arr Z) =>
              a k = if k =? q
                    then a0 q + Z.of_nat (length (filter c (zrange lo t)))
                    else a0 k)); [lia | |].
  - rewrite zrange_empty by lia. cbn [filter length].
    destruct (Z.eqb_spec k q) as [-> |]; [lia | reflexivity].
  - intros t a Ht E. rewrite zrange_last by lia. rewrite filter_snoc, length_app.
    destruct (c t).
    + destruct (Z.eqb_spec k q) as [-> | Hne].
      * rewrite upd_same. cbn [length]. lia.
      * rewrite upd_other by exact Hne. exact E.
    + rewrite E. destruct (k =? q); [cbn [length]; lia | reflexivity].
Qed.

(** A loop that appends the picked cells. *)
Lemma append_loop {T : Type} (c : Z -> bool) (f : Z -> T) (lo hi : Z)
  (a0 : arr T) (n0 : Z) :
  let st := for_loop lo hi
              (fun '((a, n) : arr T * Z) j =>
                 if c j then (upd a n (f j), n + 1) else (a, n))
              (a0, n0) in
  snd st = n0 + Z.of_nat (length (filter c (zrange lo hi))) /\
  (forall p, p < n0 -> fst st p = a0 p) /\
  map (fst st) (zrange n0 (snd st)) = map f (filter c (zrange lo hi)).
Proof.
  cbv zeta. destruct (Z.le_gt_cases hi lo) as [H | H].
  { rewrite for_loop_empty, zrange_empty by lia. cbn [fst snd filter length map].
    split; [lia|]. split; [reflexivity|]. now rewrite zrange_empty by lia. }
  apply (for_loop_inv
           (fun t (st : arr T * Z) =>
              snd st = n0 + Z.of_nat (length (filter c (zrange lo t))) /\
              (forall p, p < n0 -> fst st p = a0 p) /\
              map (fst st) (zrange n0 (snd st)) = map f (filter c (zrange lo t))));
    [lia | |].
  - rewrite zrange_empty by lia. cbn [fst snd filter length map].
    split; [lia|]. split; [reflexivity|]. now rewrite zrange_empty by lia.
  - intros t [a n] Ht (En & Hlow & Hm). cbn [fst snd] in *.
    rewrite zrange_last by lia. rewrite filter_snoc, length_app, map_app.
    destruct (c t); cbn [fst snd length map].
    + split; [lia|]. split.
      * intros p Hp. rewrite upd_other by lia. now apply Hlow.
      * rewrite zrange_last by lia. rewrite map_app. cbn [map]. rewrite upd_same.
        f_equal. rewrite <- Hm. apply map_ext_in. intros p Hp.
        apply zrange_In in Hp. apply upd_other. lia.
    + split; [lia|]. split; [exact Hlow|]. now rewrite app_nil_r.
Qed.

Section Pattern.
Variables (S : iCSRmat) (vec : arr Z) (row : Z).
Hypothesis Hrow : 0 <= row.

Lemma counts_spec (k : Z) :
  sparsity_counts S vec row k
  = if (1 <=? k) && (k <=? row) then pattern_length S vec (k - 1) else 0.
Proof.
  unfold sparsity_counts.
  apply (for_loop_inv
           (fun t (pia : arr Z) =>
              forall k, pia k = if (1 <=? k) && (k <=? t) then pattern_length S vec (k - 1) else 0));
    [exact Hrow | |].
  - intros k'. unfold zeros. zbool.
  - intros t pia Ht E k'. unfold pattern_length, pattern_row.
    destruct (Z.eq_dec k' (t + 1)) as [-> | Hne].
    + replace (t + 1 - 1) with t by lia.
      destruct (Z.leb_spec 1 (t + 1)); [|lia].
      destruct (Z.leb_spec (t + 1) (t + 1)); [|lia]. cbn [andb].
      destruct (vec t =? FGPT).
      * rewrite (count_loop (fun j => vec (iJA S j) =? CGPT)).
        rewrite Z.eqb_refl. rewrite E.
        destruct (Z.leb_spec 1 (t + 1)); [|lia].
        destruct (Z.leb_spec (t + 1) t); [lia|]. cbn [andb].
        unfold irow_cols, positions. rewrite filter_of_map, length_map. lia.
      * destruct (vec t =? ISPT); rewrite upd_same; reflexivity.
    + assert (Ek : (if (1 <=? k') && (k' <=? t + 1)
                    then pattern_length S vec (k' - 1) else 0) = pia k').
      { rewrite E. zbool. }
      fold (pattern_row S vec (k' - 1)). fold (pattern_length S vec (k' - 1)). rewrite Ek.
      destruct (vec t =? FGPT).
      * rewrite (count_loop (fun j => vec (iJA S j) =? CGPT)).
        destruct (Z.eqb_spec k' (t + 1)); [lia | reflexivity].
      * destruct (vec t =? ISPT); now rewrite upd_other by exact Hne.
Qed.

Lemma offsets_spec (k : Z) :
  0 <= k <= row ->
  sparsity_offsets row (sparsity_counts S vec row) k = pattern_offset S vec k.
Proof.
  intros Hk. unfold sparsity_offsets.
  enough (G : (forall k, 0 <= k <= row ->
                 for_loop 0 row (fun pia i => upd pia (i + 1) (pia (i + 1) + pia i))
                   (sparsity_counts S vec row) k = pattern_offset S vec k) /\
              (forall k, row < k ->
                 for_loop 0 row (fun pia i => upd pia (i + 1) (pia (i + 1) + pia i))
                   (sparsity_counts S vec row) k = sparsity_counts S vec row k))
    by (now apply G).
  apply (for_loop_inv
           (fun t (pia : arr Z) =>
              (forall k, 0 <= k <= t -> pia k = pattern_offset S vec k) /\
              (forall k, t < k -> pia k = sparsity_counts S vec row k)));
    [exact Hrow | |].
  - split; [|reflexivity]. intros k' Hk'. replace k' with 0 by lia.
    rewrite counts_spec. reflexivity.
  - intros t pia Ht [Hd Hr]. split.
    + intros k' Hk'. destruct (Z.eq_dec k' (t + 1)) as [-> | Hne].
      * rewrite upd_same, Hr, Hd by lia. rewrite counts_spec.
        destruct (Z.leb_spec 1 (t + 1)); [|lia].
        destruct (Z.leb_spec (t + 1) row); [|lia]. cbn [andb].
        unfold pattern_offset. rewrite (zrange_last 0 t) by lia.
        rewrite map_app, PermFacts.zsum_app. cbn [map zsum fold_right].
        unfold pattern_length. replace (t + 1 - 1) with t by lia. lia.
      * rewrite upd_other by exact Hne. apply Hd. lia.
    + intros k' Hk'. rewrite upd_other by lia. apply Hr. lia.
Qed.

Lemma pattern_offset_succ (k : Z) :
  0 <= k -> pattern_offset S vec (k + 1) = pattern_offset S vec k + pattern_length S vec k.
Proof.
  intros Hk. unfold pattern_offset. rewrite (zrange_last 0 k) by lia.
  rewrite map_app, PermFacts.zsum_app. cbn [map zsum fold_right]. unfold pattern_length. lia.
Qed.

Lemma pattern_offset_le (i k : Z) :
  0 <= i -> i <= k -> pattern_offset S vec i <= pattern_offset S vec k.
Proof.
  intros Hi Hik. replace k with (i + Z.of_nat (Z.to_nat (k - i))) by lia.
  induction (Z.to_nat (k - i)) as [|d IH].
  - rewrite Z.add_0_r. lia.
  - rewrite Nat2Z.inj_succ. unfold Z.succ. rewrite Z.add_assoc.
    rewrite pattern_offset_succ by lia. unfold pattern_length. lia.
Qed.

Lemma columns_spec :
  snd (sparsity_columns S vec row) = pattern_offset S vec row /\
  forall i, 0 <= i < row ->
            map (fst (sparsity_columns S vec row))
                (zrange (pattern_offset S vec i) (pattern_offset S vec (i + 1)))
            = pattern_row S vec i.
Proof.
  unfold sparsity_columns.
  apply (for_loop_inv
           (fun t (st : arr Z * Z) =>
              snd st = pattern_offset S vec t /\
              forall i, 0 <= i < t ->
                        map (fst st)
                            (zrange (pattern_offset S vec i)
                                    (pattern_offset S vec (i + 1)))
                        = pattern_row S vec i)); [exact Hrow | |].
  - split; [reflexivity | intros i; lia].
  - intros t [pja index] Ht [Ei Hd]. cbn [fst snd] in *.
    assert (Hkeep : forall (pja' : arr Z) (n' : Z),
               n' = pattern_offset S vec (t + 1) ->
               (forall p, p < index -> pja' p = pja p) ->
               map pja' (zrange index n') = pattern_row S vec t ->
               n' = pattern_offset S vec (t + 1) /\
               forall i, 0 <= i < t + 1 ->
                         map pja' (zrange (pattern_offset S vec i)
                                          (pattern_offset S vec (i + 1)))
                         = pattern_row S vec i).
    { intros pja' n' En Hlow Hm. split; [exact En|]. intros i Hi.
      destruct (Z.eq_dec i t) as [-> | Hne].
      - rewrite <- Ei, <- En. exact Hm.
      - rewrite <- (Hd i ltac:(lia)). apply map_ext_in. intros p Hp.
        apply zrange_In in Hp. apply Hlow.
        pose proof (pattern_offset_le (i + 1) t ltac:(lia) ltac:(lia)). lia. }
    rewrite pattern_offset_succ in Hkeep by lia. unfold pattern_length in Hkeep.
    rewrite pattern_offset_succ by lia. unfold pattern_length.
    unfold pattern_row in *.
    destruct (vec t =? FGPT).
    + pose proof (append_loop (fun j => vec (iJA S j) =? CGPT) (iJA S)
                    (iIA S t) (iIA S (t + 1)) pja index) as H.
      cbv zeta in H. destruct H as (En & Hlow & Hm).
      unfold irow_cols, positions in *. rewrite filter_of_map in *.
      rewrite length_map in *.
      destruct (for_loop (iIA S t) (iIA S (t + 1)) _ (pja, index)) as [pja' n'].
      cbn [fst snd] in *. apply Hkeep; [lia | exact Hlow | exact Hm].
    + destruct (vec t =? ISPT); cbn [fst snd length] in *.
      * apply Hkeep; [lia | reflexivity |]. now rewrite zrange_empty by lia.
      * apply Hkeep; [lia | intros p Hp; apply upd_other; lia |].
        rewrite zrange_first by lia. rewrite zrange_empty by lia.
        cbn [map]. now rewrite upd_same.
Qed.

End Pattern.

(** X15.  [generate_sparsity_P] (sequential branch) gives [P] the sizes it
    is told and a fresh pattern with zero values whose row offsets start at
    [0], end at [nnz] and grow by the length of each row, where row [i]
    holds: for a vertex labelled fine its strong neighbours labelled coarse,
    in the order of [S]; for an isolated vertex nothing; for any other label
    (coarse, but also undecided) the vertex [i] itself.  The columns are
    fine-level numbers. *)
Theorem sparsity_P_pattern (P : dCSRmat) (S : iCSRmat) (vec : arr Z)
  (rows cols : Z) :
  0 <= rows ->
  let Q := generate_sparsity_P P S vec rows cols in
  row Q = rows /\ col Q = cols /\ IA Q 0 = 0 /\ IA Q rows = nnz Q /\
  (forall i, 0 <= i < rows ->
             IA Q (i + 1) = IA Q i + Z.of_nat (length (pattern_row S vec i)) /\
             row_cols Q i = pattern_row S vec i) /\
  (forall p, aval Q p = 0%Q).
Proof.
  intros Hrow. cbv zeta. unfold generate_sparsity_P. cbv zeta.
  pose proof (columns_spec S vec rows Hrow) as [_ Hc].
  destruct (sparsity_columns S vec rows) as [pja index]. cbn [fst] in Hc.
  cbn [row col nnz IA JA].
  assert (E0 : sparsity_offsets rows (sparsity_counts S vec rows) 0 = 0).
  { rewrite offsets_spec by lia. reflexivity. }
  split; [reflexivity|]. split; [reflexivity|]. split; [exact E0|].
  split; [lia|]. split; [|reflexivity].
  intros i Hi. split.
  - rewrite !offsets_spec by lia. now apply pattern_offset_succ.
  - unfold row_cols, positions. cbn [IA JA]. rewrite !offsets_spec by lia.
    now apply Hc.
Qed.

Lemma sparsity_P_pattern_witness :
  let Q := generate_sparsity_P Samples.empty_matrix kite kite_labels 5 1 in
  row Q = 5 /\ col Q = 1 /\ IA Q 0 = 0 /\ IA Q 5 = nnz Q /\
  (forall i, 0 <= i < 5 ->
             IA Q (i + 1) = IA Q i + Z.of_nat (length (pattern_row kite kite_labels i)) /\
             row_cols Q i = pattern_row kite kite_labels i) /\
  (forall p, aval Q p = 0%Q).
Proof.
  exact (sparsity_P_pattern Samples.empty_matrix kite kite_labels 5 1 ltac:(lia)).
Defined.

Example kite_pattern :
  let Q := generate_sparsity_P Samples.empty_matrix kite kite_labels 5 1 in
  (map (IA Q) (zrange 0 6), map (JA Q) (zrange 0 (nnz Q)))
  = ([0; 1; 2; 3; 3; 4], [1; 1; 1; 4]).
Proof. reflexivity. Qed.

End SparsityFacts.

From Stdlib Require Import Permutation.

(* ------------------------------------------------------------------ *)
(** ** Transposing a list of entries *)

Module TripletFacts.
Import Rows Transposed SparseOps Ordering Transposing TransposeFacts.

(** A loop that counts the cells by their value. *)
Lemma tally_loop (ja : arr Z) (t : Z) :
  0 <= t ->
  forall c, for_loop 0 t (fun izc i => upd izc (ja i) (izc (ja i) + 1)) (zeros 0) c
            = count ja c t.
Proof.
  intros Ht.
  apply (for_loop_inv (fun t (izc : arr Z) => forall c, izc c = count ja c t));
    [exact Ht | |].
  - intros c. now rewrite count_start by lia.
  - intros k izc Hk E c. rewrite count_succ by lia.
    destruct (Z.eqb_spec (ja k) c) as [<- | Hne].
    + rewrite upd_same, E. reflexivity.
    + rewrite upd_other by congruence. rewrite E. lia.
Qed.

Section Entries.
Variables (ja : arr Z) (nca N : Z).
Hypothesis HN : 0 <= N.
Hypothesis Hcols : forall i, 0 <= i < N -> 0 <= ja i < nca.

Lemma place_total (q : Z) :
  0 <= q < N -> exists p, 0 <= p < N /\ dest ja N p = q.
Proof.
  intros Hq.
  destruct (dest_total 1 nca N (fun i => if i <=? 0 then 0 else N) ja
              ltac:(lia) eq_refl eq_refl) with (q := q)
    as (p & Hp & _ & _ & E).
  - intros i Hi. cbv beta.
    destruct (Z.leb_spec i 0); destruct (Z.leb_spec (i + 1) 0); lia.
  - exact Hcols.
  - exact Hq.
  - exists p. now split.
Qed.

Lemma below_bound (c : Z) : 0 <= below ja c N <= N.
Proof.
  unfold below. split; [lia|].
  pose proof (filter_length_le (fun p => ja p <? c) (zrange 0 N)) as H.
  rewrite zrange_length in H. lia.
Qed.

Lemma place_range (p : Z) : 0 <= p < N -> 0 <= dest ja N p < N.
Proof.
  intros Hp. pose proof (dest_range N ja p Hp).
  pose proof (below_bound (ja p)). pose proof (below_bound (ja p + 1)). lia.
Qed.

Lemma place_order (i i' : Z) :
  0 <= i < N -> 0 <= i' < N ->
  ja i < ja i' \/ (ja i = ja i' /\ i < i') ->
  dest ja N i < dest ja N i'.
Proof.
  intros Hi Hi' [Hlt | [E Hlt]].
  - pose proof (dest_range N ja i Hi). pose proof (dest_range N ja i' Hi').
    pose proof (below_mono ja (ja i + 1) (ja i') N ltac:(lia)). lia.
  - unfold dest. rewrite E.
    pose proof (count_lt ja (ja i') i i' ltac:(lia) E). lia.
Qed.

Lemma place_permutes : permutes N (dest ja N).
Proof.
  split; [exact place_range|]. intros i i' Hi Hi' E.
  destruct (Z.lt_trichotomy i i') as [L | [-> | G]]; [|reflexivity|].
  - exfalso. exact (dest_apart N ja i i' ltac:(lia) L ltac:(lia) E).
  - exfalso. exact (dest_apart N ja i' i ltac:(lia) G ltac:(lia) (eq_sym E)).
Qed.

Lemma offsets_loop (izc : arr Z) :
  (forall c, izc c = count ja c N) ->
  forall c, 0 <= c < nca ->
            for_loop 1 nca
              (fun izcaux i => upd izcaux i (izcaux (i - 1) + izc (i - 1)))
              (upd (zeros 0) 0 0) c
            = below ja c N.
Proof.
  intros Hc c Hcr.
  enough (G : forall c, 0 <= c < nca ->
                for_loop 1 nca
                  (fun izcaux i => upd izcaux i (izcaux (i - 1) + izc (i - 1)))
                  (upd (zeros 0) 0 0) c
                = below ja c N) by (now apply G).
  apply (for_loop_inv
           (fun t (izcaux : arr Z) =>
              forall c, 0 <= c < t -> izcaux c = below ja c N)); [lia | |].
  - intros c' Hc'. replace c' with 0 by lia. rewrite upd_same.
    symmetry. apply below_none. intros p Hp. apply Hcols. exact Hp.
  - intros t a Ht E c' Hc'. destruct (Z.eq_dec c' t) as [-> | Hne].
    + rewrite upd_same, E, Hc by lia.
      pose proof (below_split ja (t - 1) N) as B.
      replace (t - 1 + 1) with t in B by lia. lia.
    + rewrite upd_other by exact Hne. apply E. lia.
Qed.

End Entries.

Lemma transpose_pass (inp out : triplets) (nca N : Z) (izc0 izcaux : arr Z) :
  0 <= N ->
  (forall i, 0 <= i < N -> 0 <= ent_col inp i < nca) ->
  (forall c, 0 <= c < nca -> izc0 c = 0) ->
  (forall c, 0 <= c < nca -> izcaux c = below (ent_col inp) c N) ->
  transposing inp out nca N N
    (for_loop 0 N
       (fun '((izc, out) : arr Z * triplets) i =>
          let m := ent_col inp i in
          let itmp := izcaux m + izc m in
          (upd izc m (izc m + 1),
           {| ent_row := upd (ent_row out) itmp m;
              ent_col := upd (ent_col out) itmp (ent_row inp i);
              ent_val := upd (ent_val out) itmp (ent_val inp i) |}))
       (izc0, out)).
Proof.
  intros HN Hcols Hz Haux.
  apply (for_loop_inv (fun t st => transposing inp out nca N t st)); [exact HN | |].
  - unfold transposing. split; [|split].
    + intros c Hc. rewrite count_start by lia. now apply Hz.
    + intros i Hi. lia.
    + reflexivity.
  - intros t [izc o] Ht (Hc & Hd & Hr).
    pose proof (Hcols t Ht) as Hm.
    assert (Et : izcaux (ent_col inp t) + izc (ent_col inp t)
                 = dest (ent_col inp) N t).
    { unfold dest. rewrite Haux, Hc by exact Hm. reflexivity. }
    unfold transposing. cbv beta iota zeta. rewrite Et. split; [|split].
    + intros c Hcr. rewrite count_succ by lia.
      destruct (Z.eqb_spec (ent_col inp t) c) as [<- | Hne].
      * rewrite upd_same, Hc by exact Hm. reflexivity.
      * rewrite upd_other by congruence. rewrite Hc by exact Hcr. lia.
    + intros i Hi. unfold triplet, flipped. cbn [ent_row ent_col ent_val].
      destruct (Z.eq_dec i t) as [-> | Hne].
      * now rewrite !upd_same.
      * pose proof (dest_apart N (ent_col inp) i t ltac:(lia) ltac:(lia) ltac:(lia)).
        rewrite !upd_other by assumption. apply (Hd i). lia.
    + intros q Hq. unfold triplet. cbn [ent_row ent_col ent_val].
      pose proof (Hq t ltac:(lia)). rewrite !upd_other by assumption.
      apply Hr. intros i Hi. apply Hq. lia.
Qed.

(** X16.  [fasp_dcsr_transpose] on [tniz] entries whose columns lie in
    [[0, nca)] is a stable counting sort by column: entry [i], with row and
    column exchanged, is put at a place among the first [tniz] of the
    output; an entry of a smaller column, or of the same column and earlier
    in the input, gets an earlier place.  So the new rows ascend, the output
    holds the exchanged entries in another order, and the cells from [tniz]
    on are untouched. *)
Theorem transpose_in_order (inp out : triplets) (nca tniz : Z) :
  0 <= tniz ->
  (forall i, 0 <= i < tniz -> 0 <= ent_col inp i < nca) ->
  let res := fasp_dcsr_transpose inp out nca tniz in
  (exists place : Z -> Z,
      (forall i, 0 <= i < tniz ->
                 0 <= place i < tniz /\ triplet res (place i) = flipped inp i) /\
      (forall i i', 0 <= i < tniz -> 0 <= i' < tniz ->
                    ent_col inp i < ent_col inp i' \/
                    (ent_col inp i = ent_col inp i' /\ i < i') ->
                    place i < place i')) /\
  ascending (ent_row res) 0 tniz /\
  Permutation (map (triplet res) (zrange 0 tniz)) (map (flipped inp) (zrange 0 tniz)) /\
  (forall q, q < 0 \/ tniz <= q -> triplet res q = triplet out q).
Proof.
  intros HN Hcols. cbv zeta. unfold fasp_dcsr_transpose. cbv zeta.
  set (izc := for_loop 0 tniz _ (zeros 0)).
  assert (Hizc : forall c, izc c = count (ent_col inp) c tniz)
    by (apply tally_loop; exact HN).
  set (izcaux := for_loop 1 nca _ (upd (zeros 0) 0 0)).
  assert (Haux : forall c, 0 <= c < nca -> izcaux c = below (ent_col inp) c tniz)
    by (apply offsets_loop; assumption).
  set (izc0 := for_loop 0 nca (fun izc i => upd izc i 0) izc).
  assert (Hz : forall c, 0 <= c < nca -> izc0 c = 0).
  { intros c Hc. unfold izc0. rewrite (cellwise_loop (fun _ _ => 0)).
    destruct (Z.leb_spec 0 c); destruct (Z.ltb_spec c nca); cbn [andb]; lia. }
  pose proof (transpose_pass inp out nca tniz izc0 izcaux HN Hcols Hz Haux) as H.
  destruct (for_loop 0 tniz _ (izc0, out)) as [izc' res].
  destruct H as (_ & Hd & Hr).
  pose proof (place_permutes (ent_col inp) tniz HN) as HP.
  assert (Hpl : forall i, 0 <= i < tniz ->
                          0 <= dest (ent_col inp) tniz i < tniz).
  { intros i Hi. apply (place_range (ent_col inp)); assumption. }
  split; [|split; [|split]].
  - exists (dest (ent_col inp) tniz). split.
    + intros i Hi. split; [now apply Hpl | now apply Hd].
    + intros i i' Hi Hi' Ho. apply place_order; assumption.
  - intros q q' Hq Hqq Hq'.
    destruct (place_total (ent_col inp) nca tniz HN Hcols q ltac:(lia))
      as (i & Hi & <-).
    destruct (place_total (ent_col inp) nca tniz HN Hcols q' ltac:(lia))
      as (i' & Hi' & <-).
    pose proof (Hd i Hi) as E. pose proof (Hd i' Hi') as E'.
    unfold triplet, flipped in E, E'. injection E as -> _ _. injection E' as -> _ _.
    destruct (Z.le_gt_cases (ent_col inp i) (ent_col inp i')) as [L | G]; [exact L|].
    pose proof (place_order (ent_col inp) tniz i' i Hi' Hi ltac:(lia)). lia.
  - rewrite <- (map_ext_in (fun i => triplet res (dest (ent_col inp) tniz i))
                  (flipped inp) (zrange 0 tniz))
      by (intros i Hi; apply zrange_In in Hi; now apply Hd).
    rewrite <- (map_map (dest (ent_col inp) tniz) (triplet res)).
    apply Permutation_map. symmetry.
    apply (PermFacts.images_perm tniz (dest (ent_col inp) tniz)).
    split; [exact Hpl | apply HP].
  - intros q Hq. apply Hr. intros i Hi. pose proof (Hpl i Hi). lia.
Qed.

Lemma transpose_in_order_witness :
  let res := fasp_dcsr_transpose scattered_entries blank 3 5 in
  (exists place : Z -> Z,
      (forall i, 0 <= i < 5 ->
                 0 <= place i < 5 /\
                 triplet res (place i) = flipped scattered_entries i) /\
      (forall i i', 0 <= i < 5 -> 0 <= i' < 5 ->
                    ent_col scattered_entries i < ent_col scattered_entries i' \/
                    (ent_col scattered_entries i = ent_col scattered_entries i' /\
                     i < i') ->
                    place i < place i')) /\
  ascending (ent_row res) 0 5 /\
  Permutation (map (triplet res) (zrange 0 5))
              (map (flipped scattered_entries) (zrange 0 5)) /\
  (forall q, q < 0 \/ 5 <= q -> triplet res q = triplet blank q).
Proof.
  apply (transpose_in_order scattered_entries blank 3 5); [lia|].
  intros i Hi.
  assert (E : i = 0 \/ i = 1 \/ i = 2 \/ i = 3 \/ i = 4) by lia.
  destruct E as [-> | [-> | [-> | [-> | ->]]]];
    (split; [vm_compute; discriminate | reflexivity]).
Defined.

Example scattered_entries_transposed :
  map (triplet (fasp_dcsr_transpose scattered_entries blank 3 5)) (zrange 0 5)
  = [(0, 1, 7%Q); (1, 0, 3%Q); (1, 1, 9%Q); (2, 0, 5%Q); (2, 2, 4%Q)].
Proof. reflexivity. Qed.

End TripletFacts.

From Stdlib Require Import Permutation.

(* ------------------------------------------------------------------ *)
(** ** The transposition of Gustavson, and sorting by transposing twice *)

Module TranszFacts.
Import Rows Transposed SparseOps Transposing TransposeFacts.

(** *** What a matrix laid out by the counting sort is *)

Section Placed.
Variables M T : dCSRmat.
Hypothesis HM : csr_valid M.
Hypothesis HT : placed M T.

Lemma placed_valid : csr_valid T.
Proof.
  destruct HT as (Er & Ec & En & Hia & Hja).
  pose proof HM as [V1 V2 V3 V4 V5 V6].
  constructor; rewrite ?Er, ?Ec, ?En.
  - exact V2.
  - exact V1.
  - rewrite Hia by lia. now apply (below_first (col M)).
  - rewrite Hia by lia. now apply (below_last (row M) (col M) (nnz M) (IA M) (JA M)).
  - intros i Hi. rewrite !Hia by lia. apply below_mono. lia.
  - intros q Hq.
    destruct (dest_total (row M) (col M) (nnz M) (IA M) (JA M) V1 V3 V4 V5 V6 q Hq)
      as (p & Hp & _ & _ & <-).
    destruct (row_of (row M) (nnz M) (IA M) V1 V3 V4 p Hp) as (i & Hi & Hr).
    destruct (Hja p i Hi Hr) as [-> _]. exact Hi.
Qed.

Lemma placed_entries (i j : Z) (v : Q) : entry T j i v <-> entry M i j v.
Proof.
  destruct HT as (Er & Ec & En & Hia & Hja).
  pose proof HM as [V1 V2 V3 V4 V5 V6].
  unfold entry. rewrite Er. split.
  - intros [Hj (q & Hq & E1 & E2)]. rewrite !Hia in Hq by lia.
    destruct (dest_onto (row M) (nnz M) (IA M) (JA M) V1 V3 V4 V5 j q Hq)
      as (p & Hp & Ej & <-).
    destruct (row_of (row M) (nnz M) (IA M) V1 V3 V4 p Hp) as (i' & Hi' & Hr).
    destruct (Hja p i' Hi' Hr) as [J1 J2]. rewrite J1 in E1. subst i'.
    split; [exact Hi'|]. exists p. rewrite <- E2, J2. now split.
  - intros [Hi (p & Hp & E1 & E2)].
    assert (HpN : 0 <= p < nnz M)
      by (apply (row_in_range (row M) (nnz M) (IA M)) with (i := i); assumption).
    pose proof (V6 p HpN) as Hc. rewrite E1 in Hc. split; [exact Hc|].
    exists (dest (JA M) (nnz M) p). rewrite !Hia by lia.
    pose proof (dest_range (nnz M) (JA M) p HpN) as R. rewrite E1 in R.
    destruct (Hja p i Hi Hp) as [J1 J2]. rewrite J1, J2. now split.
Qed.

Lemma placed_sorted : sorted_rows T.
Proof.
  destruct HT as (Er & Ec & En & Hia & Hja).
  pose proof HM as [V1 V2 V3 V4 V5 V6].
  intros c q1 q2 Hc H1 H12 H2. rewrite Er in Hc. rewrite !Hia in * by lia.
  destruct (dest_onto (row M) (nnz M) (IA M) (JA M) V1 V3 V4 V5 c q1 ltac:(lia))
    as (p1 & Hp1 & Ec1 & <-).
  destruct (dest_onto (row M) (nnz M) (IA M) (JA M) V1 V3 V4 V5 c q2 ltac:(lia))
    as (p2 & Hp2 & Ec2 & <-).
  destruct (row_of (row M) (nnz M) (IA M) V1 V3 V4 p1 Hp1) as (i1 & Hi1 & Hr1).
  destruct (row_of (row M) (nnz M) (IA M) V1 V3 V4 p2 Hp2) as (i2 & Hi2 & Hr2).
  destruct (Hja p1 i1 Hi1 Hr1) as [-> _]. destruct (Hja p2 i2 Hi2 Hr2) as [-> _].
  apply (rows_ordered (row M) (IA M) V5 i1 i2 p1 p2); try assumption.
  destruct (Z_le_gt_dec p1 p2) as [L | G]; [exact L|].
  unfold dest in H12. rewrite Ec1, Ec2 in H12.
  pose proof (count_lt (JA M) c p2 p1 ltac:(lia) Ec2). lia.
Qed.

Lemma placed_transpose : exact_transpose M T.
Proof.
  destruct HT as (Er & Ec & En & _).
  split; [exact Er | split; [exact Ec | split; [exact En|]]].
  intros i j v. apply placed_entries.
Qed.

End Placed.

(** *** fasp_dcsr_transz without a permutation *)

Section Transz.
Variable M : dCSRmat.
Hypothesis HM : csr_valid M.

Lemma transz_offsets_spec (iat0 : arr Z) (k : Z) :
  0 <= k <= col M ->
  transz_offsets M iat0 k
  = if 1 <=? k then below (JA M) (k - 1) (nnz M) else 0.
Proof.
  pose proof HM as [V1 V2 V3 V4 V5 V6]. revert k.
  unfold transz_offsets. cbv zeta. rewrite V4.
  set (z := for_loop 0 (col M + 1) (fun iat i => upd iat i 0) iat0).
  assert (Hz : forall k, 0 <= k <= col M -> z k = 0).
  { intros k Hk. unfold z. rewrite (cellwise_loop (fun _ _ => 0)).
    destruct (Z.leb_spec 0 k); destruct (Z.ltb_spec k (col M + 1)); cbn [andb]; lia. }
  set (c := for_loop 0 (nnz M) _ z).
  assert (HN : 0 <= nnz M).
  { rewrite <- V4, <- V3. apply (offsets_le (row M) (IA M) V5); lia. }
  assert (Hc : forall k, 0 <= k <= col M ->
                         c k = if 2 <=? k then count (JA M) (k - 2) (nnz M) else 0).
  { unfold c.
    apply (for_loop_inv
             (fun t (iat : arr Z) =>
                forall k, 0 <= k <= col M ->
                          iat k = if 2 <=? k then count (JA M) (k - 2) t else 0));
      [exact HN | |].
    - intros k Hk. rewrite Hz by exact Hk. rewrite count_start by lia.
      now destruct (2 <=? k).
    - intros t iat Ht E k Hk. cbv zeta. pose proof (V6 t Ht) as Hcol.
      rewrite count_succ by lia.
      destruct (Z.ltb_spec (JA M t + 2) (col M + 1)) as [Hl | Hg].
      + destruct (Z.eq_dec k (JA M t + 2)) as [-> | Hne].
        * rewrite upd_same, E by lia. zbool.
        * rewrite upd_other by exact Hne. rewrite E by exact Hk. zbool.
      + rewrite E by exact Hk. zbool. }
  set (c1 := upd (upd c 0 0) 1 0).
  assert (Hc1 : forall k, 0 <= k <= col M ->
                          c1 k = if 2 <=? k then count (JA M) (k - 2) (nnz M) else 0).
  { intros k Hk. unfold c1, upd.
    destruct (Z.eqb_spec k 1) as [-> |]; [reflexivity|].
    destruct (Z.eqb_spec k 0) as [-> |]; [reflexivity|]. now apply Hc. }
  assert (B0 : below (JA M) 0 (nnz M) = 0) by (now apply (below_first (col M))).
  assert (G : forall k, 0 <= k <= col M ->
                for_loop 2 (col M + 1) (fun iat i => upd iat i (iat i + iat (i - 1))) c1 k
                = if 1 <=? k then below (JA M) (k - 1) (nnz M) else 0).
  { destruct (Z_lt_le_dec (col M) 1) as [Hs | Hb].
    { intros k Hk. rewrite for_loop_empty by lia. rewrite Hc1 by exact Hk.
      destruct (Z.leb_spec 2 k); [lia|].
      destruct (Z.leb_spec 1 k); [|reflexivity].
      replace (k - 1) with 0 by lia. now rewrite B0. }
    enough (G : forall k, 0 <= k <= col M ->
                  for_loop 2 (col M + 1)
                    (fun iat i => upd iat i (iat i + iat (i - 1))) c1 k
                  = if k <? col M + 1
                    then (if 1 <=? k then below (JA M) (k - 1) (nnz M) else 0)
                    else c1 k).
    { intros k Hk. rewrite G by exact Hk.
      destruct (Z.ltb_spec k (col M + 1)); [reflexivity | lia]. }
    apply (for_loop_inv
             (fun i (iat : arr Z) =>
                forall k, 0 <= k <= col M ->
                          iat k = if k <? i
                                  then (if 1 <=? k then below (JA M) (k - 1) (nnz M)
                                        else 0)
                                  else c1 k)); [lia | |].
    - intros k Hk. rewrite Hc1 by exact Hk. zbool.
      replace (k - 1) with 0 by lia. now rewrite B0.
    - intros i iat Hi E k Hk. destruct (Z.eq_dec k i) as [-> | Hne].
      + rewrite upd_same. rewrite (E i), (E (i - 1)) by lia. rewrite Hc1 by lia.
        pose proof (below_split (JA M) (i - 2) (nnz M)) as B.
        replace (i - 2 + 1) with (i - 1) in B by lia.
        replace (i - 1 - 1) with (i - 2) by lia. rewrite B. zbool.
      + rewrite upd_other by exact Hne. rewrite E by exact Hk. zbool. }
  intros k Hk. destruct (col M =? 1) eqn:E1; cbn [negb].
  - apply Z.eqb_eq in E1. rewrite <- (G k Hk). now rewrite for_loop_empty by lia.
  - now apply G.
Qed.

Lemma placing_step (a : option (arr Q)) (i p : Z) (iat jat : arr Z) (atv : arr Q) :
  0 <= i < row M -> IA M i <= p < IA M (i + 1) ->
  placing M a p (iat, jat, atv) ->
  placing M a (p + 1)
    (upd iat (JA M p + 1) (iat (JA M p + 1) + 1),
     upd jat (iat (JA M p + 1)) i,
     match a with Some a => upd atv (iat (JA M p + 1)) (a p) | None => atv end).
Proof.
  pose proof HM as [V1 V2 V3 V4 V5 V6].
  intros Hi Hp (H1 & H0 & H2).
  assert (HpN : 0 <= p < nnz M)
    by (apply (row_in_range (row M) (nnz M) (IA M)) with (i := i); assumption).
  pose proof (V6 p HpN) as Hc.
  assert (Ek : iat (JA M p + 1) = dest (JA M) (nnz M) p).
  { rewrite H1 by lia. unfold dest. now replace (JA M p + 1 - 1) with (JA M p) by lia. }
  split; [|split].
  - intros k Hk. rewrite (count_succ (JA M) (k - 1) p) by lia.
    destruct (Z.eq_dec k (JA M p + 1)) as [-> | Hne].
    + rewrite upd_same, H1 by lia. zbool.
    + rewrite upd_other by exact Hne. rewrite H1 by exact Hk. zbool.
  - rewrite upd_other by lia. exact H0.
  - intros q i' Hi' Hq Hlt. rewrite Ek.
    destruct (Z.eq_dec q p) as [-> | Hne].
    + rewrite upd_same.
      split; [apply (row_unique (row M) (IA M) V5 i i' p); assumption|].
      intros av ->. now rewrite upd_same.
    + assert (HqN : 0 <= q < nnz M)
        by (apply (row_in_range (row M) (nnz M) (IA M)) with (i := i'); assumption).
      assert (Hd : dest (JA M) (nnz M) q <> dest (JA M) (nnz M) p)
        by (apply dest_apart; lia).
      destruct (H2 q i' Hi' Hq ltac:(lia)) as [J1 J2].
      rewrite upd_other by exact Hd. split; [exact J1|].
      intros av ->. rewrite upd_other by exact Hd. now apply J2.
Qed.

Lemma transz_pass_placing (a : option (arr Q)) (iat0 jat0 : arr Z) (at0 : arr Q) :
  placing M a (nnz M)
    (transz_pass M (fun i => i) a (transz_offsets M iat0, jat0, at0)).
Proof.
  pose proof HM as [V1 V2 V3 V4 V5 V6].
  rewrite <- V4 at 1. unfold transz_pass.
  apply (for_loop_inv (fun i st => placing M a (IA M i) st)); [exact V1 | |].
  - split; [|split].
    + intros k Hk. rewrite transz_offsets_spec by lia.
      rewrite count_start by lia. destruct (Z.leb_spec 1 k); lia.
    + now rewrite transz_offsets_spec by lia.
    + intros p i Hi Hp Hlt.
      pose proof (offsets_le (row M) (IA M) V5 0 i ltac:(lia) ltac:(lia) ltac:(lia)).
      lia.
  - intros i st Hi IH. cbv zeta. pose proof (V5 i Hi) as Hm.
    destruct (Z.gtb_spec (IA M (i + 1)) (IA M i)) as [Hgt | Hle].
    + apply (for_loop_inv (fun p st => placing M a p st)); [lia | exact IH |].
      intros p [[iat jat] atv] Hp IHp. now apply placing_step.
    + replace (IA M (i + 1)) with (IA M i) by lia. exact IH.
Qed.

Lemma transz_placed (AT : dCSRmat) :
  (0 < nnz M -> val M <> None /\ val AT <> None) ->
  placed M (fasp_dcsr_transz M None AT).
Proof.
  intros Hv. pose proof HM as [V1 V2 V3 V4 V5 V6].
  unfold fasp_dcsr_transz. cbv zeta.
  assert (G : forall a, (0 < nnz M -> a = val M) ->
                let '(iat, jat, atv) :=
                  transz_pass M (fun i => i) a
                    (transz_offsets M (IA AT), JA AT, aval AT) in
                placed M {| row := col M; col := row M; nnz := nnz M;
                            IA := iat; JA := jat;
                            val := match val AT with
                                   | Some _ => Some atv
                                   | None => None
                                   end |}).
  { intros a Ha.
    pose proof (transz_pass_placing a (IA AT) (JA AT) (aval AT)) as H.
    destruct (transz_pass M _ a _) as [[iat jat] atv].
    destruct H as (H1 & H0 & H2).
    split; [reflexivity|]. split; [reflexivity|]. split; [reflexivity|].
    cbn [IA JA]. split.
    - intros k Hk. destruct (Z.eq_dec k 0) as [-> | Hne].
      + rewrite H0. symmetry. now apply (below_first (col M)).
      + rewrite H1 by lia. pose proof (below_split (JA M) (k - 1) (nnz M)) as B.
        replace (k - 1 + 1) with k in B by lia. lia.
    - intros p i Hi Hp.
      assert (HpN : 0 <= p < nnz M)
        by (apply (row_in_range (row M) (nnz M) (IA M)) with (i := i); assumption).
      destruct (H2 p i Hi Hp ltac:(lia)) as [J1 J2]. split; [exact J1|].
      destruct (Hv ltac:(lia)) as [Hm Ht]. unfold aval. cbn [val].
      destruct (val AT) as [tv|]; [|contradiction].
      rewrite (Ha ltac:(lia)) in J2.
      destruct (val M) as [mv|]; [|contradiction].
      now apply J2. }
  destruct (val M) as [mv|] eqn:Em.
  - pose proof (G (Some mv) (fun _ => eq_refl)) as H.
    destruct (transz_pass M _ (Some mv) _) as [[iat jat] atv]. exact H.
  - pose proof (G None (fun _ => eq_refl)) as H.
    destruct (transz_pass M _ None _) as [[iat jat] atv]. exact H.
Qed.

End Transz.



(** *** fasp_dcsr_sortz *)

Lemma array_cp_at (n : Z) (x y : arr Q) (k : Z) :
  fasp_array_cp n x y k = if (0 <=? k) && (k <? n) then x k else y k.
Proof. unfold fasp_array_cp. apply (cellwise_loop (fun _ i => x i)). Qed.

Lemma transz_val (A : dCSRmat) (p : option (arr Z)) (AT : dCSRmat) :
  val AT <> None -> val (fasp_dcsr_transz A p AT) <> None.
Proof.
  intros H. unfold fasp_dcsr_transz. cbv zeta.
  destruct p as [pv|]; destruct (val A) as [a|];
    match goal with
    | |- context [transz_pass ?M ?f ?a ?st] =>
        destruct (transz_pass M f a st) as [[iat jat] atv]
    end; cbn [val]; destruct (val AT); [discriminate | contradiction |
                                        discriminate | contradiction |
                                        discriminate | contradiction |
                                        discriminate | contradiction].
Qed.

Lemma cp_placed (M T B : dCSRmat) :
  csr_valid M -> placed M T -> (0 < nnz M -> val B <> None) ->
  placed M (fasp_dcsr_cp T B).
Proof.
  intros HM (Er & Ec & En & Hia & Hja) Hv. pose proof HM as [V1 V2 V3 V4 V5 V6].
  assert (HN : 0 <= nnz M).
  { rewrite <- V4, <- V3. apply (offsets_le (row M) (IA M) V5); lia. }
  unfold fasp_dcsr_cp. split; [exact Er|]. split; [exact Ec|]. split; [exact En|].
  cbn [IA JA]. split.
  - intros k Hk. rewrite iarray_cp_cells.
    destruct (Z.leb_spec 0 k); [|lia].
    destruct (Z.ltb_spec k (row T + 1)); [|lia]. cbn [andb]. now apply Hia.
  - intros p i Hi Hp.
    assert (HpN : 0 <= p < nnz M)
      by (apply (row_in_range (row M) (nnz M) (IA M)) with (i := i); assumption).
    pose proof (TripletFacts.place_range (JA M) (nnz M) HN p HpN) as Hd.
    destruct (Hja p i Hi Hp) as [J1 J2]. split.
    + rewrite iarray_cp_cells.
      destruct (Z.leb_spec 0 (dest (JA M) (nnz M) p)); [|lia].
      destruct (Z.ltb_spec (dest (JA M) (nnz M) p) (nnz T)); [|lia].
      cbn [andb]. exact J1.
    + unfold aval at 1. cbn [val].
      destruct (val B) as [bv|]; [|exfalso; apply (Hv ltac:(lia)); reflexivity].
      rewrite array_cp_at.
      destruct (Z.leb_spec 0 (dest (JA M) (nnz M) p)); [|lia].
      destruct (Z.ltb_spec (dest (JA M) (nnz M) p) (nnz T)); [|lia].
      cbn [andb]. exact J2.
Qed.

(** X18.  [fasp_dcsr_sortz (A, isym)], for [A] of valid structure with
    values, at least one row and one column, leaves a matrix of valid
    structure in which the columns of every row ascend.  With [isym = 0], or
    for a matrix that is not square, it has the sizes and the entries of
    [A]; for a square matrix with [isym] set it is the transpose of [A]
    (which is [A] again only if [A] is symmetric, as the flag promises). *)
Theorem sortz_sorts (A : dCSRmat) (isym : Z) :
  csr_valid A -> val A <> None -> 0 < row A -> 0 < col A ->
  let B := fasp_dcsr_sortz A isym in
  csr_valid B /\ sorted_rows B /\
  (if (col A =? row A) && negb (isym =? 0) then exact_transpose A B
   else same_entries A B).
Proof.
  intros HA Hv _ _. cbv zeta. unfold fasp_dcsr_sortz. cbv zeta.
  set (AT0 := fasp_dcsr_create (col A) (row A) (nnz A)).
  assert (Hv0 : 0 < nnz A -> val AT0 <> None).
  { intros Hn. unfold AT0, fasp_dcsr_create. cbn [val].
    destruct (Z.gtb_spec (nnz A) 0); [discriminate | lia]. }
  pose proof (transz_placed A HA AT0 (fun Hn => conj Hv (Hv0 Hn))) as P1.
  set (AT1 := fasp_dcsr_transz A None AT0) in *.
  pose proof (placed_valid A AT1 HA P1) as V1.
  destruct ((col A =? row A) && negb (isym =? 0)).
  - pose proof (cp_placed A AT1 A HA P1 (fun _ => Hv)) as P2.
    split; [|split].
    + exact (placed_valid A _ HA P2).
    + exact (placed_sorted A _ HA P2).
    + exact (placed_transpose A _ HA P2).
  - assert (En : nnz AT1 = nnz A) by (destruct P1 as (_ & _ & E & _); exact E).
    assert (Hv1 : 0 < nnz AT1 -> val AT1 <> None /\ val A <> None).
    { intros Hn. split; [|exact Hv]. apply transz_val. apply Hv0. lia. }
    pose proof (transz_placed AT1 V1 A Hv1) as P2.
    split; [|split].
    + exact (placed_valid AT1 _ V1 P2).
    + exact (placed_sorted AT1 _ V1 P2).
    + destruct P1 as (Er1 & Ec1 & En1 & _). pose proof P2 as (Er2 & Ec2 & En2 & _).
      split; [congruence|]. split; [congruence|]. split; [congruence|].
      intros i j v. rewrite (placed_entries AT1 _ V1 P2).
      apply (placed_entries A AT1 HA). split; [exact Er1|].
      split; [exact Ec1|]. split; [exact En1|]. apply (transz_placed A HA AT0).
      intros Hn. split; [exact Hv | now apply Hv0].
Qed.

Lemma sortz_sorts_witness :
  let B := fasp_dcsr_sortz SparseSort.unsorted_rows 0 in
  csr_valid B /\ sorted_rows B /\
  (if (col SparseSort.unsorted_rows =? row SparseSort.unsorted_rows)
      && negb (0 =? 0)
   then exact_transpose SparseSort.unsorted_rows B
   else same_entries SparseSort.unsorted_rows B).
Proof.
  apply (sortz_sorts SparseSort.unsorted_rows 0).
  - apply SparseOpsFacts.csr_validb_sound. reflexivity.
  - discriminate.
  - cbn. lia.
  - cbn. lia.
Defined.

Example unsorted_rows_sorted_by_transposing :
  let B := fasp_dcsr_sortz SparseSort.unsorted_rows 0 in
  (map (IA B) (zrange 0 4), map (JA B) (zrange 0 6), map (aval B) (zrange 0 6))
  = ([0; 3; 4; 6], [0; 1; 2; 1; 0; 2], [1; 7; 5; 4; 3; 9]%Q).
Proof. reflexivity. Qed.

End TranszFacts.

From Stdlib Require Import Permutation.

(* ------------------------------------------------------------------ *)
(** ** Direct interpolation: the weights of a fine row *)

Module DirectInterpFacts.
Import Interpolation Rows DirectInterp TruncatedRow.

(** *** Sums of lists *)

Lemma qsum_app (l l' : list Q) : (qsum (l ++ l') == qsum l + qsum l')%Q.
Proof.
  induction l as [|v l IH]; cbn [qsum app]; [ring|]. rewrite IH. ring.
Qed.

Lemma qsum_perm (l l' : list Q) : Permutation l l' -> (qsum l == qsum l')%Q.
Proof.
  induction 1 as [|x l l' _ IH|x y l|l l' l'' _ IH1 _ IH2]; cbn [qsum].
  - reflexivity.
  - rewrite IH. reflexivity.
  - ring.
  - rewrite IH1. exact IH2.
Qed.

Lemma filter_perm {X : Type} (f : X -> bool) (l l' : list X) :
  Permutation l l' -> Permutation (filter f l) (filter f l').
Proof.
  induction 1 as [|x l l' _ IH|x y l|l l' l'' _ IH1 _ IH2]; cbn [filter].
  - constructor.
  - destruct (f x); [now constructor | exact IH].
  - destruct (f x); destruct (f y); try reflexivity. apply perm_swap.
  - eapply perm_trans; eassumption.
Qed.

Lemma qsum_filter_snoc (f : Q -> bool) (l : list Q) (v : Q) :
  (qsum (filter f (l ++ [v])) == qsum (filter f l) + (if f v then v else 0))%Q.
Proof.
  rewrite filter_app, qsum_app. cbn [filter]. destruct (f v); cbn [qsum]; ring.
Qed.

Lemma qsum_by_sign (l : list Q) :
  (qsum l == qsum (nonpositives l) + qsum (positives l))%Q.
Proof.
  induction l as [|v l IH]; cbn [qsum nonpositives positives filter]; [ring|].
  fold (nonpositives l). fold (positives l).
  destruct (Qgtb v 0); cbn [negb qsum]; rewrite IH; ring.
Qed.

Lemma qsum_signed (l : list Q) :
  (qsum l == qsum (negatives l) + qsum (positives l))%Q.
Proof.
  induction l as [|v l IH]; cbn [qsum negatives positives filter]; [ring|].
  fold (negatives l). fold (positives l).
  destruct (Qltb_spec v 0) as [Hn | Hn]; destruct (Qgtb v 0) eqn:Ep;
    cbn [qsum]; rewrite IH; try ring.
  - apply Qgtb_gt in Ep. lra.
  - apply Qgtb_le in Ep. assert (E : (v == 0)%Q) by lra. rewrite E. ring.
Qed.

Lemma qsum_nonpositive (l : list Q) : (qsum (nonpositives l) <= 0)%Q.
Proof.
  induction l as [|v l IH]; cbn [qsum nonpositives filter]; [lra|].
  fold (nonpositives l). destruct (Qgtb v 0) eqn:E; cbn [negb qsum]; [exact IH|].
  apply Qgtb_le in E. lra.
Qed.

Lemma qsum_nonnegative (l : list Q) : (0 <= qsum (positives l))%Q.
Proof.
  induction l as [|v l IH]; cbn [qsum positives filter]; [lra|].
  fold (positives l). destruct (Qgtb v 0) eqn:E; cbn [qsum]; [|exact IH].
  apply Qgtb_gt in E. lra.
Qed.

Lemma positives_sum_positive (l : list Q) :
  positives l <> [] -> (0 < qsum (positives l))%Q.
Proof.
  intros H. apply TruncationFacts.qsum_positive; [exact H|].
  intros v Hv. apply filter_In in Hv. destruct Hv as [_ Hv]. now apply Qgtb_gt.
Qed.

(** The weights of a list of entries add up to the two sums scaled. *)
Lemma weights_sum (alpha beta aii : Q) (l : list Q) :
  (qsum (map (weight alpha beta aii) l)
   == (- beta * qsum (positives l) - alpha * qsum (nonpositives l)) / aii)%Q.
Proof.
  induction l as [|v l IH]; cbn [map qsum positives nonpositives filter].
  - unfold Qdiv. ring.
  - fold (positives l). fold (nonpositives l). rewrite IH. unfold weight.
    destruct (Qgtb v 0); cbn [negb qsum]; unfold Qdiv; ring.
Qed.

(** A sub-sum of terms that are not positive is at least the sum. *)
Lemma nonpositives_part (f : Z -> bool) (a : Z -> Q) (l : list Z) :
  (qsum (nonpositives (map a l)) <= qsum (nonpositives (map a (filter f l))))%Q.
Proof.
  induction l as [|x l IH]; cbn [map filter nonpositives qsum]; [lra|].
  fold (nonpositives (map a l)).
  destruct (f x); cbn [map nonpositives filter].
  - fold (nonpositives (map a (filter f l))).
    destruct (Qgtb (a x) 0); cbn [negb qsum]; lra.
  - fold (nonpositives (map a (filter f l))).
    destruct (Qgtb (a x) 0) eqn:E; cbn [negb qsum]; [lra|].
    apply Qgtb_le in E. lra.
Qed.

(** *** One fine row *)

Lemma stop_found (b e : Z) (hit : Z -> bool) :
  b <= e -> (stop_at b e hit <? e) = existsb hit (zrange b e).
Proof.
  intros Hbe. unfold stop_at. destruct (find hit (zrange b e)) as [k|] eqn:E.
  - apply find_some in E. destruct E as [E1 E2]. apply zrange_In in E1.
    destruct (Z.ltb_spec k e); [|lia]. symmetry. apply existsb_exists.
    exists k. split; [apply zrange_In; lia | exact E2].
  - destruct (Z.ltb_spec (Z.max b e) e); [lia|]. symmetry.
    apply not_true_is_false. intros Hx. apply existsb_exists in Hx.
    destruct Hx as (k & Hk & Hh). now rewrite (find_none _ _ E k Hk) in Hh.
Qed.

Lemma filter_twice {X : Type} (f g : X -> bool) (l : list X) :
  filter f (filter g l) = filter (fun x => g x && f x) l.
Proof.
  induction l as [|x l IH]; [reflexivity|]. cbn [filter].
  destruct (g x); cbn [filter andb]; [destruct (f x)|]; now rewrite IH.
Qed.

Lemma injective_on_NoDup {X Y : Type} (f : X -> Y) (l : list X) :
  NoDup (map f l) -> forall x y, In x l -> In y l -> f x = f y -> x = y.
Proof.
  induction l as [|a l IH]; intros Hn x y Hx Hy E; [contradiction|].
  cbn [map] in Hn. inversion Hn as [|? ? Hna Hnl]. subst.
  destruct Hx as [-> | Hx]; destruct Hy as [-> | Hy].
  - reflexivity.
  - exfalso. apply Hna. rewrite E. now apply in_map.
  - exfalso. apply Hna. rewrite <- E. now apply in_map.
  - now apply IH.
Qed.

Section Row.
Variables (A Ptr : dCSRmat) (i d : Z).
Hypothesis HA : csr_valid A.
Hypothesis Hi : 0 <= i < row A.
Hypothesis Hsz : nnz A <= 4294967296.
Hypothesis Hd : IA A i <= d < IA A (i + 1).
Hypothesis Ed : JA A d = i.
Hypothesis HnA : NoDup (row_cols A i).
Hypothesis Hmono : IA Ptr i <= IA Ptr (i + 1).
Hypothesis HnP : NoDup (row_cols Ptr i).
Hypothesis Hsub : forall k, In k (row_cols Ptr i) -> k <> i /\ In k (row_cols A i).

Lemma position_of_column (p q : Z) :
  IA A i <= p < IA A (i + 1) -> IA A i <= q < IA A (i + 1) ->
  JA A p = JA A q -> p = q.
Proof.
  intros Hp Hq E. apply (injective_on_NoDup (JA A) (positions (IA A) i) HnA);
    try (apply zrange_In; assumption). exact E.
Qed.

Lemma diagonal_found :
  find (fun d' => JA A d' =? i) (zrange (IA A i) (IA A (i + 1) - 1 + 1)) = Some d.
Proof.
  replace (IA A (i + 1) - 1 + 1) with (IA A (i + 1)) by lia.
  destruct (find _ _) as [k|] eqn:E.
  - apply find_some in E. destruct E as [E1 E2]. apply zrange_In in E1.
    apply Z.eqb_eq in E2. f_equal. apply position_of_column; [assumption.. | congruence].
  - pose proof (find_none _ _ E d ltac:(apply zrange_In; exact Hd)) as N.
    cbv beta in N. rewrite Ed, Z.eqb_refl in N. discriminate.
Qed.

Lemma end_row_unsigned : uint (IA A (i + 1) - 1) = IA A (i + 1) - 1.
Proof.
  pose proof HA as [V1 V2 V3 V4 V5 V6].
  pose proof (TransposeFacts.offsets_le (row A) (IA A) V5 (i + 1) (row A)
                ltac:(lia) ltac:(lia) ltac:(lia)).
  pose proof (TransposeFacts.offsets_le (row A) (IA A) V5 0 i
                ltac:(lia) ltac:(lia) ltac:(lia)).
  unfold uint. apply Z.mod_small. lia.
Qed.

Lemma off_diagonal (j : Z) :
  IA A i <= j < IA A (i + 1) -> (j =? d) = (JA A j =? i).
Proof.
  intros Hj. destruct (Z.eqb_spec j d) as [-> | Hne].
  - now rewrite Ed, Z.eqb_refl.
  - destruct (Z.eqb_spec (JA A j) i) as [E |]; [|reflexivity].
    exfalso. apply Hne. apply position_of_column; [assumption.. | congruence].
Qed.

Lemma others_offdiag : map (aval A) (others A i d (IA A (i + 1))) = offdiag A i.
Proof.
  unfold others, offdiag, positions. f_equal. apply filter_ext_in.
  intros j Hj. apply zrange_In in Hj. now rewrite off_diagonal.
Qed.

Lemma others_interpolatory :
  map (aval A) (filter (in_pattern A Ptr i) (others A i d (IA A (i + 1))))
  = interpolatory A Ptr i.
Proof.
  unfold others, interpolatory, positions. f_equal. rewrite filter_twice.
  apply filter_ext_in. intros j Hj. apply zrange_In in Hj.
  now rewrite off_diagonal.
Qed.

Lemma row_sums_spec :
  summing A Ptr i d (IA A (i + 1))
    (row_sums A Ptr i (IA A i) (IA A (i + 1) - 1) d).
Proof.
  unfold row_sums. rewrite end_row_unsigned.
  replace (IA A (i + 1) - 1 + 1) with (IA A (i + 1)) by lia.
  apply (for_loop_inv (fun t st => summing A Ptr i d t st)); [lia | |].
  - unfold summing, others. rewrite zrange_empty by lia. cbn.
    repeat split; reflexivity.
  - intros t [[[[amN amP] apN] apP] c] Ht (E1 & E2 & E3 & E4 & E5).
    unfold summing, others in *. cbv zeta in *.
    rewrite zrange_last by lia. rewrite SparsityFacts.filter_snoc.
    destruct (Z.eqb_spec t d) as [-> | Hne]; cbn [negb].
    + rewrite app_nil_r. repeat split; assumption.
    + rewrite filter_app, !map_app. cbn [filter map].
      rewrite (stop_found _ _ _ Hmono). fold (positions (IA Ptr) i).
      fold (in_pattern A Ptr i t).
      unfold nonpositives, positives in *.
      destruct (Qgtb (aval A t) 0) eqn:Es; destruct (in_pattern A Ptr i t) eqn:Ep;
        cbn [map]; rewrite ?app_nil_r;
        repeat split;
        rewrite ?qsum_filter_snoc; cbv beta; rewrite ?Es; cbn [negb];
        rewrite ?E1, ?E2, ?E3, ?E4; try ring.
      * rewrite filter_app, length_app. cbn [filter]. rewrite Es. cbn [length]. lia.
      * exact E5.
      * rewrite filter_app, length_app. cbn [filter]. rewrite Es. cbn [length]. lia.
      * exact E5.
Qed.

(** Where the weights loop finds the entry for a position of the pattern. *)
Lemma located (j : Z) :
  IA Ptr i <= j < IA Ptr (i + 1) ->
  let l := stop_at (IA A i) (IA A (i + 1)) (fun l => JA A l =? JA Ptr j) in
  IA A i <= l < IA A (i + 1) /\ JA A l = JA Ptr j /\ JA A l <> i.
Proof.
  intros Hj. cbv zeta.
  assert (Hin : In (JA Ptr j) (row_cols Ptr i))
    by (apply in_map; apply zrange_In; exact Hj).
  destruct (Hsub _ Hin) as [Hk HinA]. unfold row_cols in HinA.
  apply in_map_iff in HinA. destruct HinA as (p & Ep & Hp).
  unfold stop_at. destruct (find _ _) as [l|] eqn:E.
  - apply find_some in E. destruct E as [E1 E2]. apply zrange_In in E1.
    apply Z.eqb_eq in E2. split; [exact E1|]. split; [exact E2 | congruence].
  - pose proof (find_none _ _ E p Hp) as N. cbv beta in N.
    rewrite Ep, Z.eqb_refl in N. discriminate.
Qed.

Lemma located_perm :
  Permutation
    (map (fun j => stop_at (IA A i) (IA A (i + 1)) (fun l => JA A l =? JA Ptr j))
         (positions (IA Ptr) i))
    (filter (fun j => negb (JA A j =? i) && in_pattern A Ptr i j)
            (positions (IA A) i)).
Proof.
  apply NoDup_Permutation.
  - apply PermFacts.NoDup_map_on; [|apply zrange_NoDup].
    intros x y Hx Hy E. apply zrange_In in Hx, Hy.
    destruct (located x Hx) as (_ & Ex & _). destruct (located y Hy) as (_ & Ey & _).
    cbv zeta in Ex, Ey. rewrite E in Ex.
    apply (injective_on_NoDup (JA Ptr) (positions (IA Ptr) i) HnP);
      try (apply zrange_In; assumption). congruence.
  - apply NoDup_filter. apply zrange_NoDup.
  - intros l. rewrite in_map_iff, filter_In. split.
    + intros (j & <- & Hj). apply zrange_In in Hj.
      destruct (located j Hj) as (Hl & El & Hn). cbv zeta in Hl, El, Hn.
      split; [apply zrange_In; exact Hl|].
      apply andb_true_intro. split.
      * destruct (Z.eqb_spec (JA A (stop_at (IA A i) (IA A (i + 1))
                                      (fun l => JA A l =? JA Ptr j))) i);
          [contradiction | reflexivity].
      * unfold in_pattern. apply existsb_exists. exists j.
        split; [apply zrange_In; exact Hj|]. apply Z.eqb_eq. now rewrite El.
    + intros [Hl Hc]. apply zrange_In in Hl. apply andb_prop in Hc.
      destruct Hc as [_ Hc]. unfold in_pattern in Hc. apply existsb_exists in Hc.
      destruct Hc as (j & Hj & Ej). apply zrange_In in Hj. apply Z.eqb_eq in Ej.
      exists j. split; [|apply zrange_In; exact Hj].
      destruct (located j Hj) as (Hl' & El' & _). cbv zeta in Hl', El'.
      apply position_of_column; [assumption.. | congruence].
Qed.

Lemma fill_row_fine (vec : arr Z) (PIA PJA : arr Z) (pval : arr Q) (aii : Q) :
  vec i = 0 ->
  PIA i = IA Ptr i -> PIA (i + 1) = IA Ptr (i + 1) ->
  (forall j, IA Ptr i <= j < IA Ptr (i + 1) -> PJA j = JA Ptr j) ->
  ~ (qsum (nonpositives (interpolatory A Ptr i)) == 0)%Q ->
  (0 < aval A d)%Q ->
  (qsum (map (fst (fill_row A vec Ptr PIA PJA (pval, aii) i)) (positions (IA Ptr) i))
   == match positives (interpolatory A Ptr i) with
      | [] => - qsum (nonpositives (offdiag A i))
              / (aval A d + qsum (positives (offdiag A i)))
      | _ => - (qsum (nonpositives (offdiag A i)) + qsum (positives (offdiag A i)))
             / aval A d
      end)%Q.
Proof.
  intros Hv E1 E2 EJ Hneg Hpos. unfold fill_row. rewrite diagonal_found.
  rewrite Hv. cbn [Z.eqb]. cbv zeta.
  pose proof row_sums_spec as HS.
  destruct (row_sums A Ptr i (IA A i) (IA A (i + 1) - 1) d)
    as [[[[amN amP] apN] apP] c].
  unfold summing in HS. cbv zeta in HS.
  rewrite others_offdiag, others_interpolatory in HS.
  destruct HS as (S1 & S2 & S3 & S4 & S5).
  set (alpha := (amN / amP)%Q).
  assert (G : forall beta aii',
             let pv := for_loop (PIA i) (PIA (i + 1))
                         (fun pval j =>
                            let k := PJA j in
                            let l := stop_at (IA A i) (IA A (i + 1))
                                       (fun l => JA A l =? k) in
                            if Qgtb (aval A l) 0
                            then upd pval j (- beta * aval A l / aii')%Q
                            else upd pval j (- alpha * aval A l / aii')%Q)
                         pval in
             (qsum (map pv (positions (IA Ptr) i))
              == (- beta * qsum (positives (interpolatory A Ptr i))
                  - alpha * qsum (nonpositives (interpolatory A Ptr i))) / aii')%Q).
  { intros beta aii'. cbv zeta.
    rewrite (for_loop_ext _ _ _
               (fun pval j =>
                  upd pval j
                    ((fun (_ : Q) j =>
                        weight alpha beta aii'
                          (aval A (stop_at (IA A i) (IA A (i + 1))
                                     (fun l => JA A l =? PJA j)))) (pval j) j)))
      by (intros t k _; cbv beta zeta; unfold weight;
          destruct (Qgtb _ 0); reflexivity).
    rewrite (map_ext_in _
               (fun j => weight alpha beta aii'
                           (aval A (stop_at (IA A i) (IA A (i + 1))
                                      (fun l => JA A l =? JA Ptr j))))).
    2:{ intros j Hj. apply zrange_In in Hj.
        rewrite (SetupFacts.cellwise_from
                   (fun (_ : Q) j =>
                      weight alpha beta aii'
                        (aval A (stop_at (IA A i) (IA A (i + 1))
                                   (fun l => JA A l =? PJA j))))).
        rewrite E1, E2. destruct (Z.leb_spec (IA Ptr i) j); [|lia].
        destruct (Z.ltb_spec j (IA Ptr (i + 1))); [|lia]. cbn [andb].
        now rewrite EJ by exact Hj. }
    rewrite <- (map_map
                  (fun j => stop_at (IA A i) (IA A (i + 1))
                              (fun l => JA A l =? JA Ptr j))
                  (fun l => weight alpha beta aii' (aval A l))).
    rewrite <- (map_map (aval A) (weight alpha beta aii')).
    rewrite weights_sum.
    assert (HP : Permutation
                   (map (aval A)
                        (map (fun j => stop_at (IA A i) (IA A (i + 1))
                                         (fun l => JA A l =? JA Ptr j))
                             (positions (IA Ptr) i)))
                   (interpolatory A Ptr i)).
    { unfold interpolatory. apply Permutation_map. apply located_perm. }
    rewrite (qsum_perm _ _ (filter_perm (fun v => Qgtb v 0) _ _ HP)).
    rewrite (qsum_perm _ _ (filter_perm (fun v => negb (Qgtb v 0)) _ _ HP)).
    reflexivity. }
  assert (Hmp : ~ (amP == 0)%Q) by (now rewrite S2).
  pose proof (qsum_nonnegative (offdiag A i)) as Hnn.
  destruct (positives (interpolatory A Ptr i)) as [|v vs] eqn:Epos.
  - cbn [length] in S5. subst c. change (Z.of_nat 0 >? 0) with false.
    cbv beta iota. cbn [fst]. rewrite (G 0%Q (aval A d + apN)%Q). cbn [qsum].
    unfold alpha. rewrite S1, S3.
    fold (nonpositives (interpolatory A Ptr i)). rewrite <- S2.
    field. split; [lra | exact Hmp].
  - assert (Hc : (c >? 0) = true).
    { subst c. cbn [length]. apply Z.gtb_lt. lia. }
    rewrite Hc. cbv beta iota. cbn [fst]. rewrite (G (apN / apP)%Q (aval A d)).
    assert (Hpp : (0 < qsum (positives (interpolatory A Ptr i)))%Q).
    { apply positives_sum_positive. rewrite Epos. discriminate. }
    rewrite Epos in Hpp.
    assert (Hap : ~ (apP == 0)%Q) by (rewrite S4; lra).
    unfold alpha. fold (nonpositives (interpolatory A Ptr i)).
    rewrite <- S2, <- S4, <- S1, <- S3. field. repeat split; [lra | | ]; assumption.
Qed.

End Row.

(** *** The loop over the rows *)

(** A row of the loop writes no cell before the positions of the row. *)
Lemma fill_row_before (A : dCSRmat) (vec : arr Z) (Ptr : dCSRmat)
  (PIA PJA : arr Z) (st : arr Q * Q) (i' q : Z) :
  q < PIA i' ->
  fst (fill_row A vec Ptr PIA PJA st i') q = fst st q.
Proof.
  intros Hq. unfold fill_row. destruct st as [pval aii]. cbv zeta.
  destruct (find _ _) as [d|]; destruct (vec i' =? 0);
    try (destruct (row_sums _ _ _ _ _ _) as [[[[amN amP] apN] apP] c];
         destruct (c >? 0); cbv beta iota; cbn [fst];
         (destruct (Z.le_gt_cases (PIA (i' + 1)) (PIA i')) as [He | He];
          [now rewrite for_loop_empty by lia|];
          apply (for_loop_inv (fun (_ : Z) (pv : arr Q) => pv q = pval q));
          [lia | reflexivity |];
          intros t pv Ht E; cbv zeta; destruct (Qgtb _ 0);
          rewrite upd_other by lia; exact E));
    destruct (vec i' =? 2); cbn [fst]; try reflexivity;
    apply upd_other; lia.
Qed.

Section Rows.
Variables (A Ptr : dCSRmat) (vec : arr Z).
Hypothesis HP : pattern_valid A Ptr.

Lemma pattern_offsets (i k : Z) :
  0 <= i -> i <= k -> k <= row Ptr -> IA Ptr i <= IA Ptr k.
Proof.
  destruct HP as [_ _ _ Hm]. apply (TransposeFacts.offsets_le (row Ptr) (IA Ptr) Hm).
Qed.

Lemma copied_offsets (k : Z) :
  0 <= k <= row Ptr -> fasp_iarray_cp (row Ptr + 1) (IA Ptr) (zeros 0) k = IA Ptr k.
Proof.
  intros Hk. rewrite iarray_cp_cells.
  destruct (Z.leb_spec 0 k); [|lia].
  destruct (Z.ltb_spec k (row Ptr + 1)); [reflexivity | lia].
Qed.

Lemma fill_rows_keep (st0 : arr Q * Q) (i q : Z) (n : nat) :
  0 <= i -> i + 1 + Z.of_nat n <= row Ptr -> q < IA Ptr (i + 1) ->
  fst (for_loop 0 (i + 1 + Z.of_nat n)
         (fill_row A vec Ptr (fasp_iarray_cp (row Ptr + 1) (IA Ptr) (zeros 0))
                   (fasp_iarray_cp (nnz Ptr) (JA Ptr) (zeros 0)))
         st0) q
  = fst (for_loop 0 (i + 1)
           (fill_row A vec Ptr (fasp_iarray_cp (row Ptr + 1) (IA Ptr) (zeros 0))
                     (fasp_iarray_cp (nnz Ptr) (JA Ptr) (zeros 0)))
           st0) q.
Proof.
  intros Hi. induction n as [|n IH]; intros Hn Hq.
  - now rewrite Z.add_0_r.
  - rewrite Nat2Z.inj_succ. unfold Z.succ. rewrite Z.add_assoc.
    rewrite for_loop_last by lia. rewrite fill_row_before.
    + apply IH; lia.
    + rewrite copied_offsets by lia.
      pose proof (pattern_offsets (i + 1) (i + 1 + Z.of_nat n)
                    ltac:(lia) ltac:(lia) ltac:(lia)). lia.
Qed.

End Rows.

(** X19.  Direct interpolation interpolates constants.  For a fine row [i]
    of [A] with distinct columns, a positive diagonal entry and a pattern
    row of distinct off-diagonal columns of that row, among which some
    entry is negative (so that [amP] is not zero), the weights that
    [interp_RS] leaves in row [i], truncated with a threshold of at most
    one, add up to [-(sum of the off-diagonal entries) / a_ii] when the
    pattern takes a positive entry, and to [-(sum of the off-diagonal
    entries that are not positive) / (a_ii + sum of the positive ones)]
    when it takes none.  Either way they add up to [1] when the row of [A]
    adds up to [0]. *)
Theorem interp_RS_row_sum (A Ptr : dCSRmat) (vec : arr Z) (param : AMG_param)
  (i d : Z) :
  csr_valid A -> nnz A <= 2147483647 -> pattern_valid A Ptr ->
  0 <= i < row A -> vec i = 0 ->
  IA A i <= d < IA A (i + 1) -> JA A d = i -> (0 < aval A d)%Q ->
  NoDup (row_cols A i) -> NoDup (row_cols Ptr i) ->
  (forall k, In k (row_cols Ptr i) -> k <> i /\ In k (row_cols A i)) ->
  ~ (qsum (nonpositives (interpolatory A Ptr i)) == 0)%Q ->
  (truncation_threshold param <= 1)%Q ->
  let w := row_vals (interp_RS A vec Ptr param) i in
  let neg := qsum (nonpositives (offdiag A i)) in
  let pos := qsum (positives (offdiag A i)) in
  (qsum w == match positives (interpolatory A Ptr i) with
             | [] => - neg / (aval A d + pos)
             | _ => - (neg + pos) / aval A d
             end)%Q /\
  ((aval A d + qsum (offdiag A i) == 0)%Q -> (qsum w == 1)%Q).
Proof.
  intros HA Hsz HP Hi Hv Hd Ed Hpos HnA HnP Hsub Hneg He. cbv zeta.
  pose proof HP as [Pr Pf Pl Pm].
  assert (Hm : IA Ptr i <= IA Ptr (i + 1)) by (apply Pm; lia).
  set (PIA := fasp_iarray_cp (row Ptr + 1) (IA Ptr) (zeros 0)).
  set (PJA := fasp_iarray_cp (nnz Ptr) (JA Ptr) (zeros 0)).
  assert (Hrow : (qsum (row_vals (direct_weights A vec Ptr) i)
                  == match positives (interpolatory A Ptr i) with
                     | [] => - qsum (nonpositives (offdiag A i))
                             / (aval A d + qsum (positives (offdiag A i)))
                     | _ => - (qsum (nonpositives (offdiag A i))
                               + qsum (positives (offdiag A i))) / aval A d
                     end)%Q).
  { unfold direct_weights. cbv zeta. fold PIA. fold PJA.
    pose proof (fill_rows_keep A Ptr vec HP (zeros 0%Q, 0%Q) i) as Hk.
    fold PIA in Hk. fold PJA in Hk.
    destruct (for_loop 0 (row A) (fill_row A vec Ptr PIA PJA) (zeros 0%Q, 0%Q))
      as [pval aii] eqn:Ef.
    unfold row_vals, positions, aval. cbn [IA val].
    unfold PIA at 1 2. rewrite !copied_offsets by lia.
    rewrite (map_ext_in pval
               (fst (for_loop 0 (i + 1) (fill_row A vec Ptr PIA PJA)
                       (zeros 0%Q, 0%Q)))).
    2:{ intros q Hq. apply zrange_In in Hq.
        specialize (Hk q (Z.to_nat (row A - (i + 1))) ltac:(lia) ltac:(lia)
                      ltac:(lia)).
        replace (i + 1 + Z.of_nat (Z.to_nat (row A - (i + 1)))) with (row A)
          in Hk by lia.
        rewrite Ef in Hk. cbn [fst] in Hk. exact Hk. }
    rewrite for_loop_last by lia.
    destruct (for_loop 0 i (fill_row A vec Ptr PIA PJA) (zeros 0%Q, 0%Q))
      as [pv0 aii0].
    apply (fill_row_fine A Ptr i d HA Hi ltac:(lia) Hd Ed HnA Hm HnP Hsub);
      try assumption.
    - unfold PIA. apply copied_offsets. lia.
    - unfold PIA. apply copied_offsets. lia.
    - intros j Hj. unfold PJA. rewrite iarray_cp_cells.
      pose proof (pattern_offsets A Ptr HP 0 i ltac:(lia) ltac:(lia) ltac:(lia)).
      pose proof (pattern_offsets A Ptr HP (i + 1) (row Ptr)
                    ltac:(lia) ltac:(lia) ltac:(lia)).
      destruct (Z.leb_spec 0 j); [|lia].
      destruct (Z.ltb_spec j (nnz Ptr)); [reflexivity | lia]. }
  assert (Hw : (qsum (row_vals (interp_RS A vec Ptr param) i)
                == qsum (row_vals (direct_weights A vec Ptr) i))%Q).
  { unfold interp_RS.
    rewrite TruncationFacts.truncation_rows
      by (unfold direct_weights; cbv zeta;
          destruct (for_loop 0 (row A) _ _); cbn [row]; lia).
    destruct (TruncationFacts.out_vals_sums (truncation_threshold param)
                (row_vals (direct_weights A vec Ptr) i) He) as [N P].
    rewrite (qsum_signed (out_vals _ _)), N, P. symmetry. apply qsum_signed. }
  split.
  - rewrite Hw. exact Hrow.
  - intros Hz. rewrite Hw, Hrow.
    pose proof (qsum_by_sign (offdiag A i)) as Es.
    pose proof (qsum_nonnegative (offdiag A i)) as Hnn.
    destruct (positives (interpolatory A Ptr i)); field_simplify_eq; lra.
Qed.

Lemma star_valid : csr_valid star.
Proof. apply SparseOpsFacts.csr_validb_sound. reflexivity. Qed.

Lemma interp_RS_row_sum_witness :
  let w := row_vals (interp_RS star star_labels star_pattern Samples.default_param) 0 in
  let neg := qsum (nonpositives (offdiag star 0)) in
  let pos := qsum (positives (offdiag star 0)) in
  (qsum w == match positives (interpolatory star star_pattern 0) with
             | [] => - neg / (aval star 0 + pos)
             | _ => - (neg + pos) / aval star 0
             end)%Q /\
  ((aval star 0 + qsum (offdiag star 0) == 0)%Q -> (qsum w == 1)%Q).
Proof.
  apply (interp_RS_row_sum star star_pattern star_labels Samples.default_param 0 0).
  - exact star_valid.
  - vm_compute. discriminate.
  - constructor; [reflexivity | reflexivity | reflexivity |].
    intros i Hi. change (row star_pattern) with 4 in Hi.
    assert (E : i = 0 \/ i = 1 \/ i = 2 \/ i = 3) by lia.
    destruct E as [-> | [-> | [-> | ->]]]; vm_compute; discriminate.
  - vm_compute. split; [discriminate | reflexivity].
  - reflexivity.
  - vm_compute. split; [discriminate | reflexivity].
  - reflexivity.
  - reflexivity.
  - vm_compute. repeat constructor; cbn; intuition discriminate.
  - vm_compute. repeat constructor; cbn; intuition discriminate.
  - intros k Hk. vm_compute in Hk. destruct Hk as [<- | [<- | []]];
      (split; [discriminate | vm_compute; tauto]).
  - vm_compute. discriminate.
  - vm_compute. discriminate.
Defined.

(** *** The renumbering of the columns *)

Lemma coarse_count_succ (vec : arr Z) (t : Z) :
  0 <= t ->
  Covering.coarse_count vec (t + 1)
  = Covering.coarse_count vec t + (if vec t =? 1 then 1 else 0).
Proof.
  intros Ht. unfold Covering.coarse_count. rewrite zrange_last by lia.
  rewrite filter_app, length_app. cbn [filter]. change CGPT with 1.
  destruct (vec t =? 1); cbn [length]; lia.
Qed.

Lemma coarse_count_le (vec : arr Z) (i k : Z) :
  0 <= i -> i <= k -> Covering.coarse_count vec i <= Covering.coarse_count vec k.
Proof.
  intros Hi Hik. unfold Covering.coarse_count.
  rewrite (zrange_split 0 i k) by lia. rewrite filter_app, length_app. lia.
Qed.

Lemma coarse_index_spec (vec : arr Z) (n : Z) :
  0 <= n ->
  forall i, coarse_index vec n i
            = if (0 <=? i) && (i <? n) && (vec i =? 1)
              then Covering.coarse_count vec i else 0.
Proof.
  intros Hn. unfold coarse_index.
  enough (G : snd (for_loop 0 n
                     (fun '((ci, index) : arr Z * Z) i =>
                        if vec i =? 1 then (upd ci i index, index + 1)
                        else (ci, index))
                     (zeros 0, 0)) = Covering.coarse_count vec n /\
              forall i, fst (for_loop 0 n
                               (fun '((ci, index) : arr Z * Z) i =>
                                  if vec i =? 1 then (upd ci i index, index + 1)
                                  else (ci, index))
                               (zeros 0, 0)) i
                        = if (0 <=? i) && (i <? n) && (vec i =? 1)
                          then Covering.coarse_count vec i else 0) by apply G.
  apply (for_loop_inv
           (fun t (st : arr Z * Z) =>
              snd st = Covering.coarse_count vec t /\
              forall i, fst st i = if (0 <=? i) && (i <? t) && (vec i =? 1)
                                   then Covering.coarse_count vec i else 0));
    [exact Hn | |].
  - split; [reflexivity|]. intros i. unfold zeros. cbn [fst]. zbool.
  - intros t [ci index] Ht [E1 E2]. cbn [fst snd] in *.
    rewrite coarse_count_succ by lia.
    destruct (Z.eqb_spec (vec t) 1) as [E | E]; cbn [fst snd].
    + split; [lia|]. intros i. destruct (Z.eq_dec i t) as [-> | Hne].
      * rewrite upd_same, E. zbool.
      * rewrite upd_other by exact Hne. rewrite E2. zbool.
    + split; [lia|]. intros i. rewrite E2.
      destruct (Z.eq_dec i t) as [-> | Hne].
      * destruct (Z.eqb_spec (vec t) 1); [contradiction|]. zbool.
      * zbool.
Qed.

(** X20.  The renumbering in [interp_RS] replaces a column [k] that is a
    coarse vertex by the number of coarse vertices before [k]: when the
    pattern holds coarse vertices only, every column of [P] before the
    truncation lies below the number of coarse vertices, and two positions
    have the same new column only if they had the same column before. *)
Theorem interp_RS_columns (A Ptr : dCSRmat) (vec : arr Z) :
  0 <= row A -> pattern_valid A Ptr ->
  (forall p, 0 <= p < nnz Ptr -> 0 <= JA Ptr p < row A /\ vec (JA Ptr p) = 1) ->
  let P := direct_weights A vec Ptr in
  (forall p, 0 <= p < nnz Ptr ->
             JA P p = Covering.coarse_count vec (JA Ptr p) /\
             0 <= JA P p < Covering.coarse_count vec (row A)) /\
  (forall p q, 0 <= p < nnz Ptr -> 0 <= q < nnz Ptr ->
               JA P p = JA P q -> JA Ptr p = JA Ptr q).
Proof.
  intros Hrow HP Hc. cbv zeta.
  assert (EJ : forall p, 0 <= p < nnz Ptr ->
                 JA (direct_weights A vec Ptr) p
                 = Covering.coarse_count vec (JA Ptr p)).
  { intros p Hp. unfold direct_weights. cbv zeta.
    destruct (for_loop 0 (row A) _ _) as [pval aii]. cbn [JA].
    rewrite (cellwise_loop (fun old (_ : Z) => coarse_index vec (row A) old)).
    rewrite (copied_offsets Ptr (row Ptr))
      by (destruct HP as [Pr _ _ _]; lia).
    destruct HP as [Pr Pf Pl Pm]. rewrite Pl.
    destruct (Z.leb_spec 0 p); [|lia]. destruct (Z.ltb_spec p (nnz Ptr)); [|lia].
    cbn [andb]. rewrite iarray_cp_cells.
    destruct (Z.leb_spec 0 p); [|lia]. destruct (Z.ltb_spec p (nnz Ptr)); [|lia].
    cbn [andb]. rewrite coarse_index_spec by exact Hrow.
    destruct (Hc p ltac:(lia)) as [Hr Hv]. rewrite Hv.
    destruct (Z.leb_spec 0 (JA Ptr p)); [|lia].
    destruct (Z.ltb_spec (JA Ptr p) (row A)); [reflexivity | lia]. }
  assert (Hstrict : forall k k', 0 <= k -> k < k' -> vec k = 1 ->
                      Covering.coarse_count vec k < Covering.coarse_count vec k').
  { intros k k' Hk Hkk Hv.
    pose proof (coarse_count_le vec (k + 1) k' ltac:(lia) ltac:(lia)) as Hle.
    rewrite coarse_count_succ in Hle by lia. rewrite Hv in Hle. cbn in Hle. lia. }
  split.
  - intros p Hp. rewrite EJ by exact Hp. split; [reflexivity|].
    destruct (Hc p Hp) as [Hr Hv].
    pose proof (Hstrict (JA Ptr p) (row A) ltac:(lia) ltac:(lia) Hv).
    unfold Covering.coarse_count in *. lia.
  - intros p q Hp Hq E. rewrite !EJ in E by assumption.
    destruct (Hc p Hp) as [Hrp Hvp]. destruct (Hc q Hq) as [Hrq Hvq].
    destruct (Z.lt_trichotomy (JA Ptr p) (JA Ptr q)) as [L | [Eq | G]];
      [|exact Eq|].
    + pose proof (Hstrict (JA Ptr p) (JA Ptr q) ltac:(lia) L Hvp). lia.
    + pose proof (Hstrict (JA Ptr q) (JA Ptr p) ltac:(lia) G Hvq). lia.
Qed.

Lemma interp_RS_columns_witness :
  let P := direct_weights star star_labels star_pattern in
  (forall p, 0 <= p < nnz star_pattern ->
             JA P p = Covering.coarse_count star_labels (JA star_pattern p) /\
             0 <= JA P p < Covering.coarse_count star_labels (row star)) /\
  (forall p q, 0 <= p < nnz star_pattern -> 0 <= q < nnz star_pattern ->
               JA P p = JA P q -> JA star_pattern p = JA star_pattern q).
Proof.
  apply (interp_RS_columns star star_pattern star_labels).
  - vm_compute. discriminate.
  - constructor; [reflexivity | reflexivity | reflexivity |].
    intros i Hi. change (row star_pattern) with 4 in Hi.
    assert (E : i = 0 \/ i = 1 \/ i = 2 \/ i = 3) by lia.
    destruct E as [-> | [-> | [-> | ->]]]; vm_compute; discriminate.
  - intros p Hp. change (nnz star_pattern) with 4 in Hp.
    assert (E : p = 0 \/ p = 1 \/ p = 2 \/ p = 3) by lia.
    destruct E as [-> | [-> | [-> | ->]]];
      (split; [vm_compute; split; [discriminate | reflexivity] | reflexivity]).
Defined.

End DirectInterpFacts.

(* ------------------------------------------------------------------ *)
(** ** coarsening_rs.c: phase one decides every vertex *)

Module DecidingFacts.
Import BlaSparseCSR StrengthGraph Coarsening Covering Transposed CountFacts
  PhaseOneFacts Deciding.

(** *** Counting the undecided vertices *)

Lemma undecided_count_upd (v : arr Z) (k x n : Z) :
  0 <= k < n ->
  undecided_count (upd v k x) n =
  undecided_count v n + (if x =? UNPT then 1 else 0) - (if v k =? UNPT then 1 else 0).
Proof.
  intros Hk. unfold undecided_count.
  rewrite (zrange_split 0 k n) by lia. rewrite (zrange_first k n) by lia.
  rewrite !filter_app. cbn [filter]. rewrite upd_same.
  rewrite (filter_ext_in (fun i => upd v k x i =? UNPT) (fun i => v i =? UNPT)
             (zrange 0 k)).
  2:{ intros i Hi. apply zrange_In in Hi. now rewrite upd_other by lia. }
  rewrite (filter_ext_in (fun i => upd v k x i =? UNPT) (fun i => v i =? UNPT)
             (zrange (k + 1) n)).
  2:{ intros i Hi. apply zrange_In in Hi. now rewrite upd_other by lia. }
  rewrite !length_app.
  destruct (x =? UNPT); destruct (v k =? UNPT); cbn [length]; lia.
Qed.

Lemma undecided_count_succ (v : arr Z) (n : Z) :
  0 <= n ->
  undecided_count v (n + 1) = undecided_count v n + (if v n =? UNPT then 1 else 0).
Proof.
  intros Hn. unfold undecided_count. rewrite zrange_last by lia.
  rewrite filter_app, length_app. cbn [filter].
  destruct (v n =? UNPT); cbn [length]; lia.
Qed.

Lemma undecided_count_ext (v v' : arr Z) (n : Z) :
  (forall i, 0 <= i < n -> v' i = v i) -> undecided_count v' n = undecided_count v n.
Proof.
  intros H. unfold undecided_count. f_equal. f_equal. apply filter_ext_in.
  intros i Hi. apply zrange_In in Hi. now rewrite H.
Qed.

Lemma undecided_count_bounds (v : arr Z) (n : Z) :
  0 <= n -> 0 <= undecided_count v n <= n.
Proof.
  intros Hn. unfold undecided_count.
  pose proof (filter_length_le (fun i => v i =? UNPT) (zrange 0 n)) as L.
  rewrite zrange_length in L. lia.
Qed.

Lemma undecided_count_member (v : arr Z) (i n : Z) :
  0 <= i < n -> v i = UNPT -> 1 <= undecided_count v n.
Proof.
  intros Hi Hv. unfold undecided_count.
  rewrite (zrange_split 0 i n) by lia. rewrite (zrange_first i n) by lia.
  rewrite !filter_app, !length_app. cbn [filter]. rewrite Hv. cbn [Z.eqb UNPT Pos.eqb length].
  lia.
Qed.

Lemma undecided_count_some (v : arr Z) (n : Z) :
  0 < undecided_count v n -> exists i, 0 <= i < n /\ v i = UNPT.
Proof.
  unfold undecided_count. intros H.
  destruct (filter (fun i => v i =? UNPT) (zrange 0 n)) as [|i l] eqn:E;
    [cbn in H; lia|].
  assert (Hin : In i (filter (fun i => v i =? UNPT) (zrange 0 n)))
    by (rewrite E; now left).
  apply filter_In in Hin. destruct Hin as [Hr Hu].
  exists i. split; [now apply zrange_In | now apply Z.eqb_eq].
Qed.

(** *** The buckets *)

Lemma remove_keeps (q : list (Z * list Z)) (m i : Z) (x : Z * Z) :
  snd x <> i -> In x (entries q) -> In x (entries (bucket_remove q m i)).
Proof.
  intros Hne. induction q as [|[m0 l] q IH]; cbn [bucket_remove]; [auto|].
  destruct (Z.eqb_spec m m0) as [E | E].
  - rewrite entries_pruned, entries_cons, !in_app_iff.
    intros [H | H]; [left | now right].
    apply in_map_iff in H. destruct H as (j & <- & Hj). apply in_map.
    apply filter_In. split; [exact Hj|]. cbn [snd] in Hne.
    apply negb_true_iff. now apply Z.eqb_neq.
  - rewrite !entries_cons, !in_app_iff. intros [H | H]; [now left | right; auto].
Qed.

Lemma enter_full (q : list (Z * list Z)) (m i : Z) :
  full q -> full (bucket_enter q m i).
Proof.
  unfold full. induction q as [|[m0 l] q IH]; intros F; cbn [bucket_enter].
  - constructor; [discriminate | constructor].
  - inversion F as [|? ? F1 F2]; subst.
    destruct (m >? m0); [|destruct (m =? m0)].
    + constructor; [discriminate | exact F].
    + constructor; [|exact F2]. cbn [snd]. intros X.
      apply app_eq_nil in X. destruct X as [_ X]. discriminate X.
    + constructor; [exact F1 | now apply IH].
Qed.

Lemma remove_full (q : list (Z * list Z)) (m i : Z) :
  full q -> full (bucket_remove q m i).
Proof.
  unfold full. induction q as [|[m0 l] q IH]; intros F; cbn [bucket_remove];
    [constructor|].
  inversion F as [|? ? F1 F2]; subst.
  destruct (m =? m0).
  - destruct (filter _ l); [exact F2 | constructor; [discriminate | exact F2]].
  - constructor; [exact F1 | now apply IH].
Qed.

(** Lists that hold a vertex, and no empty bucket, have a head. *)
Lemma full_head (q : list (Z * list Z)) (x : Z * Z) :
  full q -> In x (entries q) -> exists i, bucket_head q = Some i.
Proof.
  intros F Hx. destruct q as [|[m [|j l]] q].
  - contradiction.
  - inversion F as [|? ? F1 F2]; subst. now contradiction F1.
  - exists j. reflexivity.
Qed.

(** *** The steps of phase one *)

Lemma within_le (row t N N' : Z) (st : @phase1 bucket_lists) :
  within row t N st -> N <= N' -> within row t N' st.
Proof. intros [C Hn] Hle. split; [exact C | lia]. Qed.

(** The next vertex is listed, or is not undecided. *)
Lemma within_next (row t N : Z) (st : @phase1 bucket_lists) :
  within row t N st ->
  (vec st t = UNPT -> In (lambda st t, t) (entries (lol st))) ->
  within row (t + 1) N st.
Proof.
  intros [[C1 C2 C3 C4] Hn] Ht. split; [constructor; try assumption | exact Hn].
  intros j Hj Hu. destruct (Z.eq_dec j t) as [-> | Hne]; [now apply Ht|].
  apply C1; [lia | exact Hu].
Qed.

Section Steps.
Variables (row t N : Z) (st st' : @phase1 bucket_lists).
Hypothesis Hrow : row <= 2147483647.
Hypothesis H : within row t N st.

(** An undecided vertex takes the label [x], coarse or fine, and the
    number left is lowered: no wrap, since the vertex was counted. *)
Lemma within_leave (j x : Z) :
  vec st j = UNPT -> 0 <= j < row -> x = CGPT \/ x = FGPT ->
  vec st' = upd (vec st) j x ->
  (forall i, i <> j -> lambda st' i = lambda st i) ->
  (forall m i, i <> j -> In (m, i) (entries (lol st)) ->
               In (m, i) (entries (lol st'))) ->
  full (lol st') ->
  num_left st' = udec (num_left st) ->
  within row t (N - 1) st'.
Proof.
  intros Hj Hr Hx Ev El Eq Ef En. destruct H as [[C1 C2 C3 C4] Hn].
  assert (Hc : undecided_count (vec st') row = undecided_count (vec st) row - 1).
  { rewrite Ev, undecided_count_upd by exact Hr. rewrite Hj.
    destruct Hx as [-> | ->]; cbn; lia. }
  pose proof (undecided_count_member (vec st) j row Hr Hj) as H1.
  pose proof (undecided_count_bounds (vec st) row ltac:(lia)) as H2.
  assert (Eu : udec (num_left st) = num_left st - 1).
  { unfold udec. rewrite C2. apply Z.mod_small. lia. }
  split; [constructor|].
  - intros i Hi Hu. rewrite Ev in Hu. unfold upd in Hu.
    destruct (Z.eqb_spec i j) as [-> | Hne].
    + destruct Hx as [-> | ->]; discriminate Hu.
    + rewrite El by exact Hne. apply Eq; [exact Hne|]. now apply C1.
  - rewrite En, Eu, Hc, C2. reflexivity.
  - exact Ef.
  - intros i Hi. rewrite Ev. unfold upd.
    destruct (Z.eqb_spec i j) as [-> | Hne]; [|now apply C4].
    right. destruct Hx as [-> | ->]; auto.
  - rewrite En, Eu. lia.
Qed.

(** A vertex enters the bucket of its new measure, out of lists [q] that
    have kept the other vertices. *)
Lemma within_move (k new : Z) (q : list (Z * list Z)) :
  vec st' = vec st ->
  (forall i, lambda st' i = upd (lambda st) k new i) ->
  (forall m i, i <> k -> In (m, i) (entries (lol st)) -> In (m, i) (entries q)) ->
  full q ->
  lol st' = bucket_enter q new k ->
  num_left st' = num_left st ->
  within row t N st' /\ In (lambda st' k, k) (entries (lol st')).
Proof.
  intros Ev El Hq Ef Eq En. destruct H as [[C1 C2 C3 C4] Hn].
  assert (Hk : In (lambda st' k, k) (entries (lol st'))).
  { rewrite Eq, El, upd_same. apply enter_entries. now left. }
  split; [split; [constructor|] | exact Hk].
  - intros i Hi Hu. destruct (Z.eq_dec i k) as [-> | Hne]; [exact Hk|].
    rewrite Eq, El, upd_other by exact Hne. apply enter_entries. right.
    apply Hq; [exact Hne|]. apply C1; [exact Hi|]. now rewrite <- Ev.
  - now rewrite En, Ev.
  - rewrite Eq. now apply enter_full.
  - intros i Hi. rewrite Ev. now apply C4.
  - now rewrite En.
Qed.

(** The measure of a vertex that has not been looked at changes. *)
Lemma within_measure (j : Z) :
  t <= j ->
  vec st' = vec st ->
  (forall i, i <> j -> lambda st' i = lambda st i) ->
  lol st' = lol st ->
  num_left st' = num_left st ->
  within row t N st'.
Proof.
  intros Hj Ev El Eq En. destruct H as [[C1 C2 C3 C4] Hn].
  split; [constructor|].
  - intros i Hi Hu. rewrite Eq, El by lia. apply C1; [exact Hi|]. now rewrite <- Ev.
  - now rewrite En, Ev.
  - now rewrite Eq.
  - intros i Hi. rewrite Ev. now apply C4.
  - now rewrite En.
Qed.

End Steps.

Section Graph.
Variables (S : iCSRmat) (row : Z).
Hypothesis HS : icsr_valid S.
Hypothesis Hrows : irow S = row.
Hypothesis Hcolumns : icol S = row.
Hypothesis Hfree : loop_free S.
Hypothesis Hrow : row <= 2147483647.

Lemma within_bump (N : Z) (st : @phase1 bucket_lists) (k : Z) :
  within row row N st -> within row row N (bump st k).
Proof.
  intros H.
  apply (within_move row row N st _ H k (lambda st k + 1)
           (bucket_remove (lol st) (lambda st k) k)); try reflexivity.
  - intros m i Hne. now apply remove_keeps.
  - apply remove_full. apply H.
Qed.

Lemma within_bump_undecided (N : Z) (st : @phase1 bucket_lists) (j : Z) :
  0 <= j < row -> within row row N st -> within row row N (bump_undecided S j st).
Proof.
  intros Hj H. unfold bump_undecided.
  apply (for_loop_inv (fun _ t => within row row N t)).
  - now apply (graph_offsets S row HS Hrows).
  - exact H.
  - intros l t Hl IH. cbv zeta.
    destruct (vec t (iJA S l) =? UNPT); [|exact IH].
    now apply within_bump.
Qed.

(** The vertices that depend on the new coarse vertex become fine. *)
Lemma within_dependents (N : Z) (st : @phase1 bucket_lists) (m lo : Z) :
  0 <= m < row ->
  iIA (fasp_icsr_trans S) m <= lo <= iIA (fasp_icsr_trans S) (m + 1) ->
  within row row N st ->
  within row row N
    (for_loop lo (iIA (fasp_icsr_trans S) (m + 1))
       (fun st i =>
          let j := iJA (fasp_icsr_trans S) i in
          if vec st j =? UNPT then
            let st := set_vec st (upd (vec st) j FGPT) in
            let st := set_lol st (remove_node (lol st) (lambda st j) j) in
            let st := set_num_left st (udec (num_left st)) in
            bump_undecided S j st
          else st)
       st).
Proof.
  intros Hm Hlo H.
  apply (for_loop_inv (fun _ t => within row row N t)).
  - lia.
  - exact H.
  - intros i t Hi IH. cbv zeta.
    destruct (Z.eqb_spec (vec t (iJA (fasp_icsr_trans S) i)) UNPT) as [E | E];
      [|exact IH].
    assert (Hj : 0 <= iJA (fasp_icsr_trans S) i < row)
      by (apply (transpose_columns S row HS Hrows Hcolumns Hfree m i Hm); lia).
    apply within_bump_undecided; [exact Hj|].
    apply (within_le row row (N - 1)); [|lia].
    apply (within_leave row row N t _ Hrow IH (iJA (fasp_icsr_trans S) i) FGPT);
      try reflexivity; [exact E | exact Hj | now right | |].
    + intros x k Hne. now apply remove_keeps.
    + apply remove_full. apply IH.
Qed.

(** The strong neighbours of the new coarse vertex lose one. *)
Lemma within_neighbours (N : Z) (st : @phase1 bucket_lists) (m : Z) :
  0 <= m < row ->
  within row row N st ->
  within row row N
    (for_loop (iIA S m) (iIA S (m + 1))
       (fun st i =>
          let j := iJA S i in
          if vec st j =? UNPT then
            let measure := lambda st j in
            let st := set_lol st (remove_node (lol st) measure j) in
            let measure := measure - 1 in
            let st := set_lambda st (upd (lambda st) j measure) in
            if measure >? 0 then set_lol st (enter_list (lol st) measure j)
            else
              let st := set_vec st (upd (vec st) j FGPT) in
              let st := set_num_left st (udec (num_left st)) in
              bump_undecided S j st
          else st)
       st).
Proof.
  intros Hm H.
  apply (for_loop_inv (fun _ t => within row row N t)).
  - now apply (graph_offsets S row HS Hrows).
  - exact H.
  - intros i t Hi IH. cbv zeta.
    pose proof (graph_columns S row HS Hrows Hcolumns m i Hm Hi) as Hj.
    destruct (Z.eqb_spec (vec t (iJA S i)) UNPT) as [E | E]; [|exact IH].
    destruct (lambda t (iJA S i) - 1 >? 0).
    + apply (within_move row row N t _ IH (iJA S i) (lambda t (iJA S i) - 1)
               (bucket_remove (lol t) (lambda t (iJA S i)) (iJA S i)));
        try reflexivity.
      * intros x k Hne. now apply remove_keeps.
      * apply remove_full. apply IH.
    + apply within_bump_undecided; [exact Hj|].
      apply (within_le row row (N - 1)); [|lia].
      apply (within_leave row row N t _ Hrow IH (iJA S i) FGPT);
        try reflexivity; [exact E | exact Hj | now right | | |].
      * intros k Hk. cbn. now rewrite upd_other.
      * intros x k Hne. now apply remove_keeps.
      * apply remove_full. apply IH.
Qed.

(** One turn of the main loop leaves one vertex less. *)
Lemma within_main_body (N : Z) (st : @phase1 bucket_lists) (m : Z) :
  within row row N st -> vec st m = UNPT -> 0 <= m < row ->
  within row row (N - 1) (main_body S (fasp_icsr_trans S) m st).
Proof.
  intros H Hu Hr. unfold main_body. cbv zeta.
  apply within_neighbours; [exact Hr|].
  apply within_dependents;
    [exact Hr | pose proof (transpose_offsets S row HS Hcolumns m Hr); lia |].
  apply (within_leave row row N st _ Hrow H m CGPT); try reflexivity;
    [exact Hu | exact Hr | now left | | |].
  - intros i Hi. cbn. now rewrite upd_other.
  - intros x k Hne. now apply remove_keeps.
  - apply remove_full. apply H.
Qed.

(** *** Steps 2 and 3 *)

(** Step 2 counts the vertices that it leaves undecided. *)
Lemma within_start (A : dCSRmat) (vec0 lam : arr Z) :
  0 <= row ->
  within row 0 row
    (init_vertices A row
       ({| vec := vec0; lambda := lam; lol := LoL_null; num_left := 0;
           col1 := 0 |} : @phase1 bucket_lists)).
Proof.
  intros H0.
  enough (G : let t := init_vertices A row
                         ({| vec := vec0; lambda := lam; lol := LoL_null;
                             num_left := 0; col1 := 0 |} : @phase1 bucket_lists) in
              lol t = LoL_null /\ num_left t = undecided_count (vec t) row /\
              forall j, 0 <= j < row -> vec t j = UNPT \/ vec t j = ISPT).
  { cbv zeta in G. destruct G as (E1 & E2 & E3). split; [constructor|].
    - intros j Hj. lia.
    - exact E2.
    - rewrite E1. constructor.
    - intros j Hj. destruct (E3 j Hj) as [E | E]; auto.
    - rewrite E2. apply undecided_count_bounds. exact H0. }
  cbv zeta. unfold init_vertices.
  apply (for_loop_inv
           (fun i t => lol t = LoL_null /\ num_left t = undecided_count (vec t) i /\
                       forall j, 0 <= j < i -> vec t j = UNPT \/ vec t j = ISPT)).
  - exact H0.
  - split; [reflexivity | split; [reflexivity|]]. intros j Hj. lia.
  - intros i t Hi (E1 & E2 & E3).
    assert (Eb : forall x, undecided_count (upd (vec t) i x) i
                           = undecided_count (vec t) i).
    { intros x. apply undecided_count_ext. intros k Hk. apply upd_other. lia. }
    destruct (IA A (i + 1) - IA A i <=? 1);
      cbn [vec lambda lol num_left set_vec set_lambda set_num_left];
      (split; [exact E1 | split]).
    + rewrite undecided_count_succ by lia. rewrite upd_same, Eb. cbn. lia.
    + intros j Hj. destruct (Z.eq_dec j i) as [-> | Hne].
      * right. apply upd_same.
      * rewrite upd_other by exact Hne. apply E3. lia.
    + rewrite undecided_count_succ by lia. rewrite upd_same, Eb. cbn. lia.
    + intros j Hj. destruct (Z.eq_dec j i) as [-> | Hne].
      * left. apply upd_same.
      * rewrite upd_other by exact Hne. apply E3. lia.
Qed.

(** The strong neighbours of a vertex that step 3 makes fine, with the
    number left as it is lowered after them. *)
Lemma within_step3_neighbours (N i : Z) (st : @phase1 bucket_lists) :
  0 <= i < row ->
  within row (i + 1) N (set_num_left st (udec (num_left st))) ->
  let st' :=
    for_loop (iIA S i) (iIA S (i + 1))
      (fun st k =>
         let j := iJA S k in
         if negb (vec st j =? ISPT) then
           if j <? i then
             let new_meas := lambda st j in
             let q := if new_meas >? 0
                      then remove_node (lol st) new_meas j else lol st in
             let new_meas := lambda st j + 1 in
             set_lol (set_lambda st (upd (lambda st) j new_meas))
                     (enter_list q new_meas j)
           else set_lambda st (upd (lambda st) j (lambda st j + 1))
         else st)
      st in
  within row (i + 1) N (set_num_left st' (udec (num_left st'))).
Proof.
  intros Hi H. cbv zeta.
  apply (for_loop_inv
           (fun _ t => within row (i + 1) N (set_num_left t (udec (num_left t))))).
  - now apply (graph_offsets S row HS Hrows).
  - exact H.
  - intros k t Hk IH. cbv zeta.
    assert (Hne : iJA S k <> i) by (apply (Hfree i k); lia).
    destruct (vec t (iJA S k) =? ISPT); cbn [negb]; [exact IH|].
    destruct (Z.ltb_spec (iJA S k) i) as [Hlt | Hge].
    + apply (within_move row (i + 1) N _ _ IH (iJA S k) (lambda t (iJA S k) + 1)
               (if lambda t (iJA S k) >? 0
                then bucket_remove (lol t) (lambda t (iJA S k)) (iJA S k)
                else lol t));
        try reflexivity.
      * intros x j Hj Hin. cbn [lol set_num_left] in Hin.
        destruct (lambda t (iJA S k) >? 0); [now apply remove_keeps | exact Hin].
      * destruct IH as [[_ _ F _] _]. cbn [lol set_num_left] in F.
        destruct (lambda t (iJA S k) >? 0); [now apply remove_full | exact F].
    + apply (within_measure row (i + 1) N _ _ IH (iJA S k)); try reflexivity; [lia|].
      intros j Hj. cbn. now rewrite upd_other.
Qed.

(** One turn of step 3. *)
Lemma within_step3_turn (N i : Z) (st : @phase1 bucket_lists) :
  0 <= i < row ->
  sifted S row i st -> within row i N st ->
  within row (i + 1) N
    (let measure := lambda st i in
     if negb (vec st i =? ISPT) then
       if measure >? 0 then set_lol st (enter_list (lol st) (lambda st i) i)
       else
         let st := set_vec st (upd (vec st) i FGPT) in
         let st :=
           for_loop (iIA S i) (iIA S (i + 1))
             (fun st k =>
                let j := iJA S k in
                if negb (vec st j =? ISPT) then
                  if j <? i then
                    let new_meas := lambda st j in
                    let q := if new_meas >? 0
                             then remove_node (lol st) new_meas j else lol st in
                    let new_meas := lambda st j + 1 in
                    set_lol (set_lambda st (upd (lambda st) j new_meas))
                            (enter_list q new_meas j)
                  else set_lambda st (upd (lambda st) j (lambda st j + 1))
                else st)
             st in
         set_num_left st (udec (num_left st))
     else st).
Proof.
  intros Hi Hs H. cbv zeta.
  destruct (Z.eqb_spec (vec st i) ISPT) as [E | E]; cbn [negb].
  - apply within_next; [exact H|]. intros Hu. rewrite E in Hu. discriminate Hu.
  - assert (Hu : vec st i = UNPT).
    { destruct (sift_pending _ _ _ _ Hs i ltac:(lia)) as [U | I];
        [exact U | contradiction]. }
    destruct (lambda st i >? 0).
    + destruct (within_move row i N st
                  (set_lol st (enter_list (lol st) (lambda st i) i)) H i
                  (lambda st i) (lol st)) as [G1 G2]; try reflexivity.
      * intros j. cbn [lambda set_lol]. unfold upd.
        destruct (Z.eqb_spec j i) as [-> | _]; reflexivity.
      * auto.
      * apply H.
      * apply within_next; [exact G1 | intros _; exact G2].
    + apply (within_step3_neighbours N i (set_vec st (upd (vec st) i FGPT)) Hi).
      apply within_next.
      * apply (within_le row i (N - 1)); [|lia].
        apply (within_leave row i N st _ Hrow H i FGPT); try reflexivity;
          [exact Hu | exact Hi | now right | auto | apply H].
      * cbn [vec set_vec set_num_left]. rewrite upd_same. discriminate.
Qed.

Lemma step3_within (N : Z) (st : @phase1 bucket_lists) :
  0 <= row -> sifted S row 0 st -> within row 0 N st ->
  sifted S row row (step3 S row st) /\ within row row N (step3 S row st).
Proof.
  intros H0 Hs H. unfold step3.
  apply (for_loop_inv (fun i t => sifted S row i t /\ within row i N t));
    [exact H0 | now split |].
  intros i t Hi [IH1 IH2]. split.
  - now apply (step3_turn S row HS Hrows Hcolumns Hfree).
  - now apply within_step3_turn.
Qed.

(** *** The main loop *)

Lemma complete_decided (st : @phase1 bucket_lists) :
  complete row row st -> num_left st <= 0 ->
  forall j, 0 <= j < row -> vec st j = CGPT \/ vec st j = FGPT \/ vec st j = ISPT.
Proof.
  intros [C1 C2 C3 C4] Hn j Hj.
  destruct (C4 j Hj) as [U | D]; [|exact D].
  pose proof (undecided_count_member (vec st) j row Hj U). lia.
Qed.

(** The main loop returns within as many turns as vertices are left:
    while one is left the lists have a head. *)
Lemma main_loop_returns (fuel : nat) :
  forall st : @phase1 bucket_lists,
    picking S row st -> within row row (Z.of_nat fuel) st ->
    exists st', main_loop fuel S (fasp_icsr_trans S) st = Some st' /\
                forall j, 0 <= j < row ->
                          vec st' j = CGPT \/ vec st' j = FGPT \/ vec st' j = ISPT.
Proof.
  induction fuel as [|fuel IH]; intros st Hp [Hc Hn]; cbn [main_loop].
  - destruct (Z.gtb_spec (num_left st) 0) as [G | G]; [lia|].
    exists st. split; [reflexivity | now apply complete_decided].
  - destruct (Z.gtb_spec (num_left st) 0) as [G | G].
    + assert (Hh : exists m, bucket_head (lol st) = Some m).
      { rewrite (complete_left _ _ _ Hc) in G.
        destruct (undecided_count_some _ _ G) as (j & Hj & Hu).
        apply (full_head _ (lambda st j, j)); [apply Hc|].
        now apply (complete_listed _ _ _ Hc). }
      destruct Hh as (m & Hh).
      change (LoL_head_head (lol st)) with (bucket_head (lol st)). rewrite Hh.
      destruct (head_undecided row st m (pick_queued _ _ _ Hp) Hh) as [Hu Hm].
      apply IH.
      * pose proof (picking_turn S row HS Hrows Hcolumns Hfree st m Hp Hh) as [Q Hs].
        constructor; [exact Q | intros j Hj; left; now apply Hs].
      * replace (Z.of_nat fuel) with (Z.of_nat (Datatypes.S fuel) - 1) by lia.
        apply within_main_body; [now split | exact Hu | exact Hm].
    + exists st. split; [reflexivity | now apply complete_decided].
Qed.

(** Phase one returns, and leaves no vertex undecided. *)
Lemma phase_one_returns (A : dCSRmat) (vec0 : arr Z) :
  exists v c, @phase_one bucket_lists A S vec0 row = Some (v, c) /\
              forall j, 0 <= j < row -> v j = CGPT \/ v j = FGPT \/ v j = ISPT.
Proof.
  assert (H0 : 0 <= row) by (rewrite <- Hrows; apply HS).
  unfold phase_one. cbv zeta.
  destruct (step3_within row _ H0
              (sifted_start S row HS Hcolumns A vec0 H0)
              (within_start A vec0 _ H0)) as [H3 W3].
  destruct (main_loop_returns (Z.to_nat row + 1) _ (sifted_picking S row _ H3))
    as (st' & E & Hd).
  - apply (within_le row row row); [exact W3 | lia].
  - rewrite E. exists (vec st'), (col1 st'). split; [reflexivity | exact Hd].
Qed.

End Graph.

Section Splitting.
Context {K : Constants}.

(** On a strength graph without loops, phase one of the splitting comes to
    its end, the lists never being empty while a vertex is left, and every
    vertex is then coarse, fine or isolated; so [form_coarse_level]
    returns, with either kind of interpolation. *)
Theorem phase_one_decides (A : dCSRmat) (S : iCSRmat) (vertices : arr Z)
  (row interp_type : Z) :
  icsr_valid S -> irow S = row -> icol S = row -> loop_free S ->
  row <= 2147483647 ->
  (exists v c, @phase_one bucket_lists A S vertices row = Some (v, c) /\
               forall j, 0 <= j < row ->
                         v j = CGPT \/ v j = FGPT \/ v j = ISPT) /\
  @form_coarse_level bucket_lists K A S vertices row interp_type <> None.
Proof.
  intros HS Hrows Hcolumns Hfree Hrow.
  destruct (phase_one_returns S row HS Hrows Hcolumns Hfree Hrow A vertices)
    as (v & c & E & Hd).
  split; [exists v, c; now split|].
  unfold form_coarse_level. rewrite E.
  destruct (negb (interp_type =? INTERP_STD)); [|discriminate].
  destruct (SplittingFacts.phase_two_covers S row
              (graph_columns S row HS Hrows Hcolumns) v c) as (v' & c' & E' & _).
  rewrite E'. discriminate.
Qed.

End Splitting.

Lemma path_operator_level : Strength.level_operator path_operator.
Proof. apply DecreaseFacts.level_operatorb_sound. vm_compute. reflexivity. Qed.

(** The chain of four vertices with a fifth on its own, and its strength
    graph with the default cap and threshold. *)
Lemma phase_one_decides_witness :
  let K := Samples.sample_constants in
  let A := path_operator in
  let S := generate_S A (9 # 10) (3 # 10) in
  (exists v c, @phase_one bucket_lists A S (zeros 0) 5 = Some (v, c) /\
               forall j, 0 <= j < 5 ->
                         v j = CGPT \/ v j = FGPT \/ v j = ISPT) /\
  @form_coarse_level bucket_lists K A S (zeros 0) 5 INTERP_REG <> None.
Proof.
  cbv zeta. destruct path_operator_level as (HA & _ & HD).
  apply (@phase_one_decides Samples.sample_constants path_operator
           (@generate_S Samples.sample_constants path_operator (9 # 10) (3 # 10))
           (zeros 0) 5 1).
  - apply DecreaseFacts.strong_graph_valid; [exact HA | exact HD | vm_compute; reflexivity].
  - vm_compute. reflexivity.
  - vm_compute. reflexivity.
  - apply DecreaseFacts.strong_graph_loop_free;
      [exact HA | exact HD | vm_compute; reflexivity].
  - lia.
Defined.

(** On that chain the second and the fourth vertex become coarse, the
    first and the third fine, and the fifth is isolated. *)
Example path_splitting :
  let K := Samples.sample_constants in
  let S := generate_S path_operator (9 # 10) (3 # 10) in
  option_map (fun r => (to_list (fst r) 5, snd r))
    (@phase_one bucket_lists path_operator S (zeros 0) 5)
  = Some ([FGPT; CGPT; FGPT; CGPT; ISPT], 2).
Proof. vm_compute. reflexivity. Qed.

End DecidingFacts.

From Stdlib Require Import Permutation.

(* ------------------------------------------------------------------ *)
(** ** coarsening_rs.c: the strong couplings between coarse vertices *)

Module AggressiveFacts.
Import BlaSparseCSR Coarsening Covering Rows Aggressive.

(** *** Folds over nested lists *)

Lemma fold_left_flat_map {A B St : Type} (f : St -> B -> St) (g : A -> list B)
  (l : list A) :
  forall s, fold_left f (flat_map g l) s
            = fold_left (fun s x => fold_left f (g x) s) l s.
Proof.
  induction l as [|x l IH]; intros s; cbn [flat_map fold_left]; [reflexivity|].
  rewrite fold_left_app. apply IH.
Qed.

Lemma fold_left_filter_map {A B St : Type} (f : St -> B -> St) (m : A -> B)
  (c : A -> bool) (l : list A) :
  forall s, fold_left (fun s x => if c x then f s (m x) else s) l s
            = fold_left f (map m (filter c l)) s.
Proof.
  induction l as [|x l IH]; intros s; cbn [filter fold_left]; [reflexivity|].
  destruct (c x); cbn [map fold_left]; apply IH.
Qed.

Lemma fold_left_ext_in {A St : Type} (f g : St -> A -> St) (l : list A) :
  (forall s x, In x l -> f s x = g s x) ->
  forall s, fold_left f l s = fold_left g l s.
Proof.
  induction l as [|x l IH]; intros H s; cbn [fold_left]; [reflexivity|].
  rewrite H by now left. apply IH. intros t y Hy. apply H. now right.
Qed.

Lemma filter_flat_map_length {A B : Type} (P : B -> bool) (g : A -> list B)
  {C : Type} (g' : A -> list C) (l : list A) :
  (forall x, In x l -> length (filter P (g x)) = length (g' x)) ->
  length (filter P (flat_map g l)) = length (flat_map g' l).
Proof.
  induction l as [|x l IH]; intros H; cbn [flat_map filter]; [reflexivity|].
  rewrite filter_app, !length_app. rewrite H by now left.
  f_equal. apply IH. intros y Hy. apply H. now right.
Qed.

Lemma filter_map_filter_length {A B : Type} (P : B -> bool) (m : A -> B)
  (c q : A -> bool) (l : list A) :
  (forall x, In x l -> c x && P (m x) = q x) ->
  length (filter P (map m (filter c l))) = length (filter q l).
Proof.
  induction l as [|x l IH]; intros H; cbn [filter]; [reflexivity|].
  pose proof (H x ltac:(now left)) as Hx.
  assert (IH' : length (filter P (map m (filter c l))) = length (filter q l))
    by (apply IH; intros y Hy; apply H; now right).
  destruct (c x); cbn [map filter andb] in *.
  - rewrite <- Hx. destruct (P (m x)); cbn [length]; now rewrite IH'.
  - rewrite <- Hx. exact IH'.
Qed.

(** The cells [lo], [lo + 1], ... of an array hold the list [out]. *)
Lemma cells_as_list (a : arr Z) (lo : Z) (out : list Z) :
  (forall k, (k < length out)%nat -> a (lo + Z.of_nat k) = nth k out 0) ->
  map a (zrange lo (lo + Z.of_nat (length out))) = out.
Proof.
  intros H. apply (nth_ext _ _ 0 0).
  - rewrite length_map, zrange_length. lia.
  - intros k Hk. rewrite length_map, zrange_length in Hk.
    rewrite <- (H k) by lia.
    rewrite (nth_indep _ 0 (a 0)) by (rewrite length_map, zrange_length; lia).
    rewrite map_nth. f_equal.
    unfold zrange. replace (lo + Z.of_nat (length out) - lo) with (Z.of_nat (length out)) by lia.
    rewrite Nat2Z.id. clear H. revert lo k Hk.
    induction (length out) as [|n IH]; intros lo k Hk; [lia|].
    destruct k as [|k]; cbn [zrange_from nth]; [lia|].
    rewrite IH by lia. lia.
Qed.

(** *** The scan of a row as a fold over its events *)

Lemma scan_row_events (second fill : bool) (S : iCSRmat) (vec cp_rindex : arr Z)
  (ci i : Z) (st : scan) :
  scan_row second fill S vec cp_rindex ci i st
  = fold_left (scan_step second fill ci) (events S vec cp_rindex i) st.
Proof.
  unfold scan_row, events, for_loop. rewrite fold_left_flat_map.
  apply fold_left_ext_in. intros s j _. cbv zeta.
  destruct ((vec (iJA S j) =? CGPT) && negb (iJA S j =? i)); [reflexivity|].
  destruct (vec (iJA S j) =? FGPT); [|reflexivity].
  rewrite <- (fold_left_filter_map (scan_step second fill ci)
                (fun k => (false, cp_rindex (iJA S k)))).
  apply fold_left_ext_in. intros t k _.
  destruct ((vec (iJA S k) =? CGPT) && negb (iJA S k =? i)); [|reflexivity].
  unfold scan_step. cbn [fst snd]. reflexivity.
Qed.

(** *** The marks *)

Lemma halves_snoc (l : list (bool * Z)) (d : bool) (x c : Z) :
  halves (l ++ [(d, x)]) c
  = (halves l c + (if negb d && (x =? c)%Z then 1 else 0))%nat.
Proof.
  unfold halves. rewrite filter_app, length_app. cbn [filter fst snd].
  destruct (negb d && (x =? c)); reflexivity.
Qed.

Lemma direct_snoc (l : list (bool * Z)) (d : bool) (x c : Z) :
  existsb (fun e => fst e && (snd e =? c)) (l ++ [(d, x)])
  = existsb (fun e => fst e && (snd e =? c)) l || (d && (x =? c)).
Proof. rewrite existsb_app. cbn [existsb fst snd]. now rewrite orb_false_r. Qed.

Lemma reached_snoc_other (second : bool) (l : list (bool * Z)) (d : bool) (x c : Z) :
  x <> c -> reached second (l ++ [(d, x)]) c = reached second l c.
Proof.
  intros Hne. unfold reached. rewrite direct_snoc, halves_snoc.
  apply Z.eqb_neq in Hne. rewrite Hne, !andb_false_r, orb_false_r, Nat.add_0_r.
  reflexivity.
Qed.

Lemma halves_snoc_other (l : list (bool * Z)) (d : bool) (x c : Z) :
  x <> c -> halves (l ++ [(d, x)]) c = halves l c.
Proof.
  intros Hne. rewrite halves_snoc. apply Z.eqb_neq in Hne.
  rewrite Hne, andb_false_r. lia.
Qed.

Lemma reached_event (second : bool) (l : list (bool * Z)) (c : Z) :
  reached second l c = true -> exists d, In (d, c) l.
Proof.
  unfold reached, halves. intros H. apply orb_prop in H. destruct H as [H | H].
  - apply existsb_exists in H. destruct H as ([d x] & Hin & Hx).
    cbn [fst snd] in Hx. apply andb_prop in Hx. destruct Hx as [_ Hx].
    apply Z.eqb_eq in Hx. subst x. now exists d.
  - destruct (filter _ l) as [|[d x] t] eqn:E.
    + cbn [length] in H. destruct second; discriminate H.
    + assert (Hin : In (d, x) (filter (fun e => negb (fst e) && (snd e =? c)) l))
        by (rewrite E; now left).
      apply filter_In in Hin. destruct Hin as [Hin Hx]. cbn [fst snd] in Hx.
      apply andb_prop in Hx. destruct Hx as [_ Hx]. apply Z.eqb_eq in Hx.
      subst x. now exists d.
Qed.

Lemma halves_none (l : list (bool * Z)) (c : Z) :
  (forall d, ~ In (d, c) l) -> halves l c = 0%nat.
Proof.
  intros H. unfold halves.
  destruct (filter _ l) as [|[d x] t] eqn:E; [reflexivity|]. exfalso.
  assert (Hin : In (d, x) (filter (fun e => negb (fst e) && (snd e =? c)) l))
    by (rewrite E; now left).
  apply filter_In in Hin. destruct Hin as [Hin Hx]. cbn [fst snd] in Hx.
  apply andb_prop in Hx. destruct Hx as [_ Hx]. apply Z.eqb_eq in Hx.
  subst x. now apply (H d).
Qed.

Lemma row_of_events_length (second : bool) (l : list (bool * Z)) (out out' : list Z) :
  row_of_events second l out -> row_of_events second l out' ->
  length out = length out'.
Proof.
  intros [N1 M1] [N2 M2]. apply Permutation_length.
  apply NoDup_Permutation; [exact N1 | exact N2|].
  intros c. now rewrite M1, M2.
Qed.

Lemma reached_snoc_mono (second : bool) (l : list (bool * Z)) (e : bool * Z) (c : Z) :
  reached second l c = true -> reached second (l ++ [e]) c = true.
Proof.
  destruct e as [d x]. unfold reached. rewrite direct_snoc, halves_snoc.
  intros H. apply orb_prop in H. destruct H as [-> | H]; [reflexivity|].
  apply orb_true_iff. right.
  destruct second; apply Nat.leb_le in H; apply Nat.leb_le; lia.
Qed.

Section Step.
Variables (second fill : bool) (ci : Z) (l : list (bool * Z)) (st0 st : scan)
  (out : list Z) (d : bool) (x : Z).
Hypothesis H : scanned second fill ci l st0 st out.

(** The vertex [x] is taken into the row. *)
Lemma scanned_emit :
  reached second l x = false ->
  reached second (l ++ [(d, x)]) x = true ->
  scanned second fill ci (l ++ [(d, x)]) st0 (emit fill ci x st) (out ++ [x]).
Proof.
  intros Hold Hnew. destruct H as ([N M] & Ec & Em & Ek & Ef).
  assert (Hx : ~ In x out) by (rewrite M, Hold; discriminate).
  split; [split|split; [|split; [|split]]].
  - apply (Permutation_NoDup (Permutation_cons_append out x)).
    constructor; assumption.
  - intros c. rewrite in_app_iff. cbn [In].
    destruct (Z.eq_dec x c) as [<- | Hne].
    + rewrite Hnew. tauto.
    + rewrite reached_snoc_other by exact Hne. rewrite M. tauto.
  - cbn [count emit]. rewrite Ec, length_app. cbn [length]. lia.
  - intros c. cbn [times_visited emit]. unfold upd, mark_after.
    destruct (Z.eqb_spec c x) as [-> | Hne].
    + now rewrite Hnew.
    + rewrite reached_snoc_other, halves_snoc_other by congruence.
      apply Em.
  - intros p Hp. cbn [ShJA emit]. destruct fill; [|now apply Ek].
    rewrite upd_other by lia. now apply Ek.
  - intros Hf k Hk. rewrite length_app in Hk. cbn [length] in Hk.
    cbn [ShJA emit]. rewrite Hf.
    destruct (Nat.eq_dec k (length out)) as [-> | Hne].
    + rewrite Ec, upd_same. rewrite app_nth2 by lia.
      now rewrite Nat.sub_diag.
    + rewrite upd_other by lia. rewrite app_nth1 by lia. apply Ef; [exact Hf | lia].
Qed.

(** Nothing changes. *)
Lemma scanned_same :
  reached second (l ++ [(d, x)]) x = reached second l x ->
  mark_after second ci (l ++ [(d, x)]) (times_visited st0) x
  = mark_after second ci l (times_visited st0) x ->
  scanned second fill ci (l ++ [(d, x)]) st0 st out.
Proof.
  intros Hr Hm. destruct H as ([N M] & Ec & Em & Ek & Ef).
  split; [split|split; [|split; [|split]]]; try assumption.
  - intros c. destruct (Z.eq_dec x c) as [<- | Hne].
    + rewrite Hr. apply M.
    + rewrite reached_snoc_other by exact Hne. apply M.
  - intros c. rewrite Em. destruct (Z.eq_dec x c) as [<- | Hne].
    + now rewrite Hm.
    + unfold mark_after.
      now rewrite reached_snoc_other, halves_snoc_other by exact Hne.
Qed.

(** The vertex [x] has been come across once. *)
Lemma scanned_half :
  second = true ->
  reached second (l ++ [(d, x)]) x = false ->
  (1 <= halves (l ++ [(d, x)]) x)%nat ->
  scanned second fill ci (l ++ [(d, x)]) st0
    {| times_visited := upd (times_visited st) x (- ci - 1);
       count := count st;
       ShJA := ShJA st |} out.
Proof.
  intros Hs Hnew Hh. destruct H as ([N M] & Ec & Em & Ek & Ef).
  assert (Hold : reached second l x = false).
  { destruct (reached second l x) eqn:E; [|reflexivity].
    now rewrite (reached_snoc_mono _ _ (d, x) _ E) in Hnew. }
  split; [split|split; [|split; [|split]]]; try assumption.
  - intros c. destruct (Z.eq_dec x c) as [<- | Hne].
    + rewrite Hnew, M, Hold. tauto.
    + rewrite reached_snoc_other by exact Hne. apply M.
  - intros c. cbn [times_visited]. unfold upd, mark_after.
    destruct (Z.eqb_spec c x) as [-> | Hne].
    + rewrite Hnew, Hs. apply Nat.leb_le in Hh. now rewrite Hh.
    + rewrite reached_snoc_other, halves_snoc_other by congruence. apply Em.
Qed.

End Step.

(** The scan of the events of a row, from marks that are not those of the
    row. *)
Lemma scan_events (second fill : bool) (ci : Z) (l : list (bool * Z)) (st0 : scan) :
  0 <= ci ->
  (forall d c, In (d, c) l ->
               times_visited st0 c <> ci + 1 /\ times_visited st0 c <> - ci - 1) ->
  exists out,
    scanned second fill ci l st0 (fold_left (scan_step second fill ci) l st0) out.
Proof.
  intros Hci. induction l as [|[d x] l IH] using rev_ind; intros Hfresh.
  - exists []. cbn [fold_left]. split; [split|split; [|split; [|split]]].
    + constructor.
    + intros c. unfold reached, halves. cbn. destruct second; cbn; intuition discriminate.
    + cbn [length]. lia.
    + intros c. unfold mark_after, reached, halves. cbn. destruct second; reflexivity.
    + reflexivity.
    + intros _ k Hk. cbn [length] in Hk. lia.
  - destruct IH as (out & IH).
    { intros d' c Hin. apply (Hfresh d'). apply in_app_iff. now left. }
    destruct (Hfresh d x ltac:(apply in_app_iff; right; now left)) as [F1 F2].
    rewrite fold_left_app. cbn [fold_left].
    set (st := fold_left (scan_step second fill ci) l st0) in *.
    pose proof IH as (_ & _ & Em & _). specialize (Em x).
    unfold mark_after in Em.
    assert (Hd : existsb (fun e => fst e && (snd e =? x)) (l ++ [(d, x)])
                 = existsb (fun e => fst e && (snd e =? x)) l || d).
    { rewrite direct_snoc, Z.eqb_refl. now rewrite andb_true_r. }
    assert (Hh : halves (l ++ [(d, x)]) x
                 = (halves l x + (if d then 0 else 1))%nat).
    { rewrite halves_snoc, Z.eqb_refl, andb_true_r. now destruct d. }
    destruct (reached second l x) eqn:Hr.
    + (* already in the row *)
      exists out.
      assert (G : scan_step second fill ci st (d, x) = st).
      { unfold scan_step, visit, visit_twice. cbn [fst snd]. rewrite Em.
        rewrite Z.eqb_refl. cbn [negb]. now destruct d, second. }
      rewrite G. apply scanned_same; [exact IH | |].
      * rewrite Hr. now apply reached_snoc_mono.
      * unfold mark_after. rewrite Hr.
        now rewrite (reached_snoc_mono _ _ (d, x) _ Hr).
    + assert (Hdir : existsb (fun e => fst e && (snd e =? x)) l = false).
      { unfold reached in Hr. apply orb_false_iff in Hr. apply Hr. }
      assert (Hlow : (if second then 2 <=? halves l x else 1 <=? halves l x)%nat = false).
      { unfold reached in Hr. apply orb_false_iff in Hr. apply Hr. }
      destruct (second && (1 <=? halves l x)%nat) eqn:Hhalf.
      * (* come across once before *)
        apply andb_prop in Hhalf. destruct Hhalf as [Hs Hone]. subst second.
        apply Nat.leb_le in Hone.
        exists (out ++ [x]).
        assert (G : scan_step true fill ci st (d, x) = emit fill ci x st).
        { unfold scan_step, visit, visit_twice. cbn [fst snd]. rewrite Em.
          destruct (Z.eqb_spec (- ci - 1) (ci + 1)) as [E | _]; [lia|].
          rewrite Z.eqb_refl. cbn [negb]. now destruct d. }
        rewrite G. apply scanned_emit; [exact IH | exact Hr |].
        unfold reached. rewrite Hd, Hh, Hdir. cbn [orb].
        destruct d; [reflexivity|]. cbn [orb]. apply Nat.leb_le. lia.
      * (* not come across, or the first routine *)
        destruct (Z.eqb_spec (times_visited st0 x) (ci + 1)) as [E | _];
          [contradiction|].
        destruct (Z.eqb_spec (times_visited st0 x) (- ci - 1)) as [E | _];
          [contradiction|].
        destruct d.
        -- exists (out ++ [x]).
           assert (G : scan_step second fill ci st (true, x) = emit fill ci x st).
           { unfold scan_step, visit. cbn [fst snd]. rewrite Em.
             destruct (Z.eqb_spec (times_visited st0 x) (ci + 1)); [contradiction|].
             reflexivity. }
           rewrite G. apply scanned_emit; [exact IH | exact Hr |].
           unfold reached. rewrite Hd. now rewrite orb_true_r.
        -- destruct second.
           ++ cbn [andb] in Hhalf. apply Nat.leb_gt in Hhalf.
              exists out.
              assert (G : scan_step true fill ci st (false, x)
                          = {| times_visited := upd (times_visited st) x (- ci - 1);
                               count := count st;
                               ShJA := ShJA st |}).
              { unfold scan_step, visit_twice. cbn [fst snd]. rewrite Em.
                destruct (Z.eqb_spec (times_visited st0 x) (ci + 1)); [contradiction|].
                destruct (Z.eqb_spec (times_visited st0 x) (- ci - 1));
                  [contradiction|].
                reflexivity. }
              rewrite G. apply scanned_half; [exact IH | reflexivity | | lia].
              unfold reached. rewrite Hd, Hh, Hdir. cbn [orb].
              apply Nat.leb_gt. lia.
           ++ exists (out ++ [x]).
              assert (G : scan_step false fill ci st (false, x) = emit fill ci x st).
              { unfold scan_step, visit. cbn [fst snd]. rewrite Em.
                destruct (Z.eqb_spec (times_visited st0 x) (ci + 1)); [contradiction|].
                reflexivity. }
              rewrite G. apply scanned_emit; [exact IH | exact Hr |].
              unfold reached. rewrite Hd, Hh, Hdir. cbn [orb].
              apply Nat.leb_le. lia.
Qed.

(** *** The numbering of the coarse vertices *)

Lemma coarse_tally_succ (vec : arr Z) (n : Z) :
  0 <= n ->
  coarse_count vec (n + 1) = coarse_count vec n + (if vec n =? CGPT then 1 else 0).
Proof.
  intros Hn. unfold coarse_count. rewrite zrange_last by lia.
  rewrite filter_app, length_app. cbn [filter].
  destruct (vec n =? CGPT); cbn [length]; lia.
Qed.

Lemma coarse_tally_nonneg (vec : arr Z) (n : Z) : 0 <= coarse_count vec n.
Proof. unfold coarse_count. lia. Qed.

Lemma count_coarse_spec (vec : arr Z) (row : Z) :
  0 <= row -> count_coarse vec row = coarse_count vec row.
Proof.
  intros H0. unfold count_coarse.
  apply (for_loop_inv (fun n t => t = coarse_count vec n)); [exact H0 | reflexivity|].
  intros n t Hn ->. rewrite coarse_tally_succ by lia.
  destruct (vec n =? CGPT); lia.
Qed.

Lemma index_coarse_spec (vec : arr Z) (row : Z) :
  0 <= row ->
  let t := index_coarse vec row in
  snd t = coarse_count vec row /\
  (forall c, 0 <= c < coarse_count vec row ->
             0 <= fst (fst t) c < row /\ vec (fst (fst t) c) = CGPT /\
             snd (fst t) (fst (fst t) c) = c) /\
  (forall c c', 0 <= c -> c < c' -> c' < coarse_count vec row ->
                fst (fst t) c < fst (fst t) c') /\
  (forall i, 0 <= i < row -> vec i = CGPT ->
             0 <= snd (fst t) i < coarse_count vec row /\
             fst (fst t) (snd (fst t) i) = i).
Proof.
  intros H0. cbv zeta. unfold index_coarse.
  apply (for_loop_inv
           (fun n (t : arr Z * arr Z * Z) =>
              snd t = coarse_count vec n /\
              (forall c, 0 <= c < coarse_count vec n ->
                         0 <= fst (fst t) c < n /\ vec (fst (fst t) c) = CGPT /\
                         snd (fst t) (fst (fst t) c) = c) /\
              (forall c c', 0 <= c -> c < c' -> c' < coarse_count vec n ->
                            fst (fst t) c < fst (fst t) c') /\
              (forall i, 0 <= i < n -> vec i = CGPT ->
                         0 <= snd (fst t) i < coarse_count vec n /\
                         fst (fst t) (snd (fst t) i) = i))).
  - exact H0.
  - cbn [fst snd]. split; [reflexivity | split; [|split]].
    + intros c Hc. change (coarse_count vec 0) with 0 in Hc. lia.
    + intros c c' Hc Hlt Hc'. change (coarse_count vec 0) with 0 in Hc'. lia.
    + intros i Hi. lia.
  - intros n [[idx ridx] j] Hn (E & I1 & I2 & I3). cbn [fst snd] in *.
    rewrite coarse_tally_succ by lia. pose proof (coarse_tally_nonneg vec n) as Hj.
    destruct (Z.eqb_spec (vec n) CGPT) as [Ec | Ec]; cbn [fst snd].
    + subst j. split; [reflexivity | split; [|split]].
      * intros c Hc. destruct (Z.eq_dec c (coarse_count vec n)) as [-> | Hne].
        -- rewrite !upd_same. split; [lia | split; [exact Ec | reflexivity]].
        -- destruct (I1 c ltac:(lia)) as (R & V & B).
           rewrite !(upd_other idx) by exact Hne.
           split; [lia | split; [exact V|]]. rewrite upd_other by lia. exact B.
      * intros c c' Hc Hlt Hc'. unfold upd.
        destruct (Z.eqb_spec c (coarse_count vec n)) as [-> | _]; [lia|].
        destruct (Z.eqb_spec c' (coarse_count vec n)) as [-> | Hne].
        -- destruct (I1 c ltac:(lia)) as (R & _). lia.
        -- apply I2; lia.
      * intros i Hi Hv. destruct (Z.eq_dec i n) as [-> | Hne].
        -- rewrite !upd_same. split; [lia | reflexivity].
        -- rewrite (upd_other ridx) by exact Hne.
           destruct (I3 i ltac:(lia) Hv) as (R & B).
           split; [lia|]. rewrite upd_other by lia. exact B.
    + rewrite Z.add_0_r. split; [exact E | split; [|split]].
      * intros c Hc. destruct (I1 c Hc) as (R & V & B). split; [lia | now split].
      * exact I2.
      * intros i Hi Hv. destruct (Z.eq_dec i n) as [-> | Hne]; [contradiction|].
        apply I3; [lia | exact Hv].
Qed.

(** *** The events of a row, and the paths *)

Lemma NoDup_map_pair {A B : Type} (x : A) (l : list B) :
  NoDup l -> NoDup (map (pair x) l).
Proof.
  induction 1 as [|b l Hb _ IH]; cbn [map]; constructor; [|exact IH].
  intros Hin. apply in_map_iff in Hin. destruct Hin as (b' & E & Hb').
  injection E as ->. contradiction.
Qed.

Lemma NoDup_flat_map_pairs {A B : Type} (h : A -> list B) (l : list A) :
  NoDup l -> (forall x, NoDup (h x)) ->
  NoDup (flat_map (fun x => map (pair x) (h x)) l).
Proof.
  intros Hl Hh. induction Hl as [|x l Hx Hl IH]; cbn [flat_map]; [constructor|].
  apply NoDup_app.
  - apply NoDup_map_pair. apply Hh.
  - exact IH.
  - intros [a b] H1 H2. apply in_map_iff in H1. destruct H1 as (b' & E & _).
    injection E as <- _. apply in_flat_map in H2. destruct H2 as (y & Hy & H2).
    apply in_map_iff in H2. destruct H2 as (b'' & E & _). injection E as -> _.
    contradiction.
Qed.

Lemma via_paths_spec (S : iCSRmat) (vec : arr Z) (i k p q : Z) :
  In (p, q) (via_paths S vec i k) <-> via S vec i k p q.
Proof.
  unfold via_paths, via. rewrite in_flat_map. split.
  - intros (p' & Hp & Hin). apply zrange_In in Hp.
    destruct (Z.eqb_spec (vec (iJA S p')) FGPT) as [E | E]; [|contradiction].
    apply in_map_iff in Hin. destruct Hin as (q' & Eq & Hq). injection Eq as -> ->.
    apply filter_In in Hq. destruct Hq as [Hq Ek]. apply zrange_In in Hq.
    apply Z.eqb_eq in Ek. auto.
  - intros (Hp & E & Hq & Ek). exists p. split; [now apply zrange_In|].
    rewrite E. cbn [Z.eqb FGPT]. apply in_map. apply filter_In.
    split; [now apply zrange_In | now apply Z.eqb_eq].
Qed.

Lemma via_paths_NoDup (S : iCSRmat) (vec : arr Z) (i k : Z) :
  NoDup (via_paths S vec i k).
Proof.
  unfold via_paths.
  rewrite (flat_map_ext _
             (fun p => map (pair p)
                         (if vec (iJA S p) =? FGPT
                          then filter (fun q => iJA S q =? k)
                                 (zrange (iIA S (iJA S p)) (iIA S (iJA S p + 1)))
                          else []))).
  - apply NoDup_flat_map_pairs; [apply zrange_NoDup|].
    intros p. destruct (vec (iJA S p) =? FGPT); [|constructor].
    apply NoDup_filter. apply zrange_NoDup.
  - intros p. now destruct (vec (iJA S p) =? FGPT).
Qed.

Lemma one_path (S : iCSRmat) (vec : arr Z) (i k : Z) :
  (1 <= length (via_paths S vec i k))%nat <-> exists p q, via S vec i k p q.
Proof.
  split.
  - intros H. destruct (via_paths S vec i k) as [|[p q] t] eqn:E;
      [cbn [length] in H; lia|].
    exists p, q. apply via_paths_spec. rewrite E. now left.
  - intros (p & q & H). apply via_paths_spec in H.
    destruct (via_paths S vec i k); [contradiction | cbn [length]; lia].
Qed.

Lemma two_paths (S : iCSRmat) (vec : arr Z) (i k : Z) :
  (2 <= length (via_paths S vec i k))%nat <->
  exists p q p' q', (p, q) <> (p', q') /\ via S vec i k p q /\ via S vec i k p' q'.
Proof.
  pose proof (via_paths_NoDup S vec i k) as N. split.
  - intros H. destruct (via_paths S vec i k) as [|[p q] [|[p' q'] t]] eqn:E;
      cbn [length] in H; try lia.
    exists p, q, p', q'. split; [|split].
    + inversion N as [|? ? Hx _]; subst. intros X. apply Hx. left. now symmetry.
    + apply via_paths_spec. rewrite E. now left.
    + apply via_paths_spec. rewrite E. right. now left.
  - intros (p & q & p' & q' & Hne & H1 & H2).
    apply via_paths_spec in H1, H2.
    destruct (via_paths S vec i k) as [|a [|b t]]; cbn [length]; try lia.
    + contradiction.
    + destruct H1 as [E1 | []]. destruct H2 as [E2 | []].
      exfalso. apply Hne. congruence.
Qed.

Section Numbered.
Variables (S : iCSRmat) (vec : arr Z) (row nc : Z) (idx ridx : arr Z).
Hypothesis Hcols : graph_cols S row.
Hypothesis Hidx : forall c, 0 <= c < nc ->
                            0 <= idx c < row /\ vec (idx c) = CGPT /\ ridx (idx c) = c.
Hypothesis Hback : forall i, 0 <= i < row -> vec i = CGPT ->
                             0 <= ridx i < nc /\ idx (ridx i) = i.

(** A coarse vertex other than [idx ci] has a number other than [ci]. *)
Lemma other_number (ci k : Z) :
  0 <= ci < nc -> 0 <= k < row -> vec k = CGPT -> k <> idx ci ->
  0 <= ridx k < nc /\ ridx k <> ci.
Proof.
  intros Hci Hk Hv Hne. destruct (Hback k Hk Hv) as [R B]. split; [exact R|].
  intros E. apply Hne. now rewrite <- B, E.
Qed.

Lemma other_vertex (ci c : Z) :
  0 <= ci < nc -> 0 <= c < nc -> c <> ci -> idx c <> idx ci.
Proof.
  intros Hci Hc Hne E. apply Hne.
  destruct (Hidx c Hc) as (_ & _ & <-). destruct (Hidx ci Hci) as (_ & _ & <-).
  now rewrite E.
Qed.

(** The events of the row of the [ci]-th coarse vertex are numbers of
    other coarse vertices. *)
Lemma events_range (ci : Z) (d : bool) (c : Z) :
  0 <= ci < nc -> In (d, c) (events S vec ridx (idx ci)) ->
  0 <= c < nc /\ c <> ci.
Proof.
  intros Hci Hin. destruct (Hidx ci Hci) as (Hi & _).
  unfold events in Hin. apply in_flat_map in Hin. destruct Hin as (p & Hp & Hin).
  apply zrange_In in Hp. pose proof (Hcols _ _ Hi Hp) as Hf. cbv zeta in Hin.
  destruct (Z.eqb_spec (vec (iJA S p)) CGPT) as [Ec | Ec]; cbn [andb] in Hin.
  - destruct (Z.eqb_spec (iJA S p) (idx ci)) as [Ei | Ei]; cbn [negb] in Hin.
    + rewrite Ec in Hin. cbn in Hin. contradiction.
    + destruct Hin as [E | []]. injection E as <- <-.
      now apply other_number.
  - destruct (vec (iJA S p) =? FGPT); [|contradiction].
    apply in_map_iff in Hin. destruct Hin as (q & E & Hq). injection E as <- <-.
    apply filter_In in Hq. destruct Hq as [Hq Hc]. apply zrange_In in Hq.
    apply andb_prop in Hc. destruct Hc as [Hc Hn].
    apply Z.eqb_eq in Hc. apply negb_true_iff, Z.eqb_neq in Hn.
    apply other_number; try assumption. now apply (Hcols (iJA S p)).
Qed.

Lemma direct_spec (ci c : Z) :
  0 <= ci < nc -> 0 <= c < nc -> c <> ci ->
  existsb (fun e => fst e && (snd e =? c)) (events S vec ridx (idx ci)) = true <->
  neighbour S (idx ci) (idx c).
Proof.
  intros Hci Hc Hne. destruct (Hidx ci Hci) as (Hi & _).
  destruct (Hidx c Hc) as (Hk & Hv & Hr).
  pose proof (other_vertex ci c Hci Hc Hne) as Hd.
  rewrite existsb_exists. unfold events, neighbour. split.
  - intros ([d x] & Hin & Hx). cbn [fst snd] in Hx.
    apply andb_prop in Hx. destruct Hx as [-> Hx]. apply Z.eqb_eq in Hx. subst x.
    apply in_flat_map in Hin. destruct Hin as (p & Hp & Hin).
    apply zrange_In in Hp. pose proof (Hcols _ _ Hi Hp) as Hf. cbv zeta in Hin.
    exists p. split; [exact Hp|].
    destruct (Z.eqb_spec (vec (iJA S p)) CGPT) as [Ec | Ec]; cbn [andb] in Hin.
    + destruct (Z.eqb_spec (iJA S p) (idx ci)) as [Ei | Ei]; cbn [negb] in Hin.
      * rewrite Ec in Hin. cbn in Hin. contradiction.
      * destruct Hin as [E | []]. injection E as E.
        destruct (Hback _ Hf Ec) as [_ B]. now rewrite <- B, E.
    + destruct (vec (iJA S p) =? FGPT); [|contradiction].
      apply in_map_iff in Hin. destruct Hin as (q & E & _). discriminate E.
  - intros (p & Hp & Ep). exists (true, c). split; [|cbn [fst snd]; now rewrite Z.eqb_refl].
    apply in_flat_map. exists p. split; [now apply zrange_In|]. cbv zeta.
    rewrite Ep, Hv, Z.eqb_refl. cbn [andb].
    destruct (Z.eqb_spec (idx c) (idx ci)) as [E | _]; [contradiction|].
    cbn [negb]. rewrite Hr. now left.
Qed.

Lemma halves_spec (ci c : Z) :
  0 <= ci < nc -> 0 <= c < nc -> c <> ci ->
  halves (events S vec ridx (idx ci)) c = length (via_paths S vec (idx ci) (idx c)).
Proof.
  intros Hci Hc Hne. destruct (Hidx ci Hci) as (Hi & _).
  destruct (Hidx c Hc) as (Hk & Hv & Hr).
  pose proof (other_vertex ci c Hci Hc Hne) as Hd.
  unfold halves, events, via_paths. apply filter_flat_map_length.
  intros p Hp. apply zrange_In in Hp. pose proof (Hcols _ _ Hi Hp) as Hf. cbv zeta.
  destruct (Z.eqb_spec (vec (iJA S p)) CGPT) as [Ec | Ec]; cbn [andb].
  - rewrite Ec. cbn [Z.eqb CGPT FGPT].
    destruct (negb (iJA S p =? idx ci)); reflexivity.
  - destruct (vec (iJA S p) =? FGPT) eqn:Ef; [|reflexivity].
    rewrite length_map. apply filter_map_filter_length.
    intros q Hq. apply zrange_In in Hq. cbn [fst snd negb andb].
    pose proof (Hcols _ _ Hf Hq) as Hck.
    destruct (Z.eqb_spec (iJA S q) (idx c)) as [E | E].
    + rewrite E, Hv, Hr, !Z.eqb_refl.
      destruct (Z.eqb_spec (idx c) (idx ci)); [contradiction | reflexivity].
    + destruct (Z.eqb_spec (vec (iJA S q)) CGPT) as [Eq | _]; [|reflexivity].
      destruct (Z.eqb_spec (ridx (iJA S q)) c) as [Er | _];
        [|now rewrite andb_false_r].
      exfalso. apply E. destruct (Hback _ Hck Eq) as [_ B]. now rewrite <- B, Er.
Qed.

(** The vertices that the scan of a row takes in. *)
Lemma reached_spec (second : bool) (ci c : Z) :
  0 <= ci < nc ->
  reached second (events S vec ridx (idx ci)) c = true <->
  0 <= c < nc /\ c <> ci /\
  (neighbour S (idx ci) (idx c) \/
   ((if second then 2 else 1) <= length (via_paths S vec (idx ci) (idx c)))%nat).
Proof.
  intros Hci. split.
  - intros H. destruct (reached_event _ _ _ H) as (d & Hin).
    destruct (events_range ci d c Hci Hin) as [Hc Hne].
    split; [exact Hc | split; [exact Hne|]].
    unfold reached in H. apply orb_prop in H. destruct H as [H | H].
    + left. now apply (direct_spec ci c).
    + right. rewrite <- (halves_spec ci c) by assumption.
      destruct second; now apply Nat.leb_le.
  - intros (Hc & Hne & [H | H]); unfold reached; apply orb_true_iff.
    + left. now apply (direct_spec ci c).
    + right. rewrite <- (halves_spec ci c) in H by assumption.
      destruct second; now apply Nat.leb_le.
Qed.

(** The marks of the rows before [ci] are not those of the row [ci]. *)
Lemma fresh_marks (ci : Z) (tv : arr Z) :
  0 <= ci < nc -> (forall c, 0 <= c < nc -> - ci <= tv c <= ci) ->
  forall d c, In (d, c) (events S vec ridx (idx ci)) ->
              tv c <> ci + 1 /\ tv c <> - ci - 1.
Proof.
  intros Hci Hb d c Hin. destruct (events_range ci d c Hci Hin) as [Hc _].
  specialize (Hb c Hc). lia.
Qed.

Lemma mark_after_bound (second : bool) (ci : Z) (l : list (bool * Z)) (tv : arr Z)
  (c : Z) :
  0 <= ci -> - ci <= tv c <= ci ->
  - (ci + 1) <= mark_after second ci l tv c <= ci + 1.
Proof.
  intros Hci Hb. unfold mark_after.
  destruct (reached second l c); [lia|].
  destruct (second && (1 <=? halves l c)%nat); lia.
Qed.

Section Steps.
Variable second : bool.
Hypothesis Hnc : 0 <= nc.

(** Step 1: each row offset is the one before it and the length of the
    row. *)
Lemma ag_offsets_spec :
  let t := ag_offsets second S vec idx ridx nc in
  snd t 0 = 0 /\
  forall c, 0 <= c < nc ->
            exists out, row_of_events second (events S vec ridx (idx c)) out /\
                        snd t (c + 1) = snd t c + Z.of_nat (length out).
Proof.
  cbv zeta. unfold ag_offsets.
  pose (I := fun n (t : arr Z * arr Z) =>
               snd t 0 = 0 /\
               (forall c, 0 <= c < n ->
                          exists out,
                            row_of_events second (events S vec ridx (idx c)) out /\
                            snd t (c + 1) = snd t c + Z.of_nat (length out)) /\
               (forall c, 0 <= c < nc -> - n <= fst t c <= n)).
  match goal with
  | |- context [for_loop 0 nc ?f ?s] => assert (G : I nc (for_loop 0 nc f s))
  end.
  { apply (for_loop_inv I); unfold I.
    - exact Hnc.
    - cbn [fst snd]. split; [reflexivity | split].
      + intros c Hc. lia.
      + intros c Hc. unfold zeros. lia.
    - intros n [tv ia] Hn (I1 & I2 & I3). cbn [fst snd] in I1, I2, I3. cbv zeta.
      rewrite scan_row_events.
      destruct (scan_events second false n (events S vec ridx (idx n))
                  {| times_visited := tv; count := 0; ShJA := zeros 0 |}
                  ltac:(lia) (fresh_marks n tv Hn I3))
        as (out & R & Ec & Em & _).
      cbn [count times_visited] in Ec, Em. cbn [fst snd].
      split; [|split].
      + rewrite upd_other by lia. exact I1.
      + intros c Hc. destruct (Z.eq_dec c n) as [-> | Hne].
        * exists out. split; [exact R|].
          rewrite upd_same, upd_other by lia. rewrite Ec. lia.
        * destruct (I2 c ltac:(lia)) as (o & Ro & Eo). exists o.
          split; [exact Ro|]. now rewrite !upd_other by lia.
      + intros c Hc. rewrite Em.
        pose proof (mark_after_bound second n (events S vec ridx (idx n)) tv c
                      ltac:(lia) (I3 c Hc)). lia. }
  unfold I in G. destruct G as (G1 & G2 & _). split; assumption.
Qed.

(** Step 2: each row of [Sh] holds the vertices that its scan takes in. *)
Lemma ag_columns_spec (tv ia : arr Z) :
  (forall c, 0 <= c < nc -> tv c = 0) ->
  (forall c, 0 <= c < nc ->
             exists out, row_of_events second (events S vec ridx (idx c)) out /\
                         ia (c + 1) = ia c + Z.of_nat (length out)) ->
  forall c, 0 <= c < nc ->
            row_of_events second (events S vec ridx (idx c))
              (map (ShJA (ag_columns second S vec idx ridx nc tv ia))
                 (zrange (ia c) (ia (c + 1)))).
Proof.
  intros Hz J.
  assert (Hmono : forall i, 0 <= i < nc -> ia i <= ia (i + 1)).
  { intros i Hi. destruct (J i Hi) as (o & _ & E). lia. }
  unfold ag_columns.
  pose (I := fun n (st : scan) =>
               (forall c, 0 <= c < nc -> - n <= times_visited st c <= n) /\
               (forall c, 0 <= c < n ->
                          row_of_events second (events S vec ridx (idx c))
                            (map (ShJA st) (zrange (ia c) (ia (c + 1)))))).
  match goal with
  | |- context [for_loop 0 nc ?f ?s] => assert (G : I nc (for_loop 0 nc f s))
  end.
  { apply (for_loop_inv I); unfold I.
    - exact Hnc.
    - cbn [times_visited]. split.
      + intros c Hc. rewrite Hz by exact Hc. lia.
      + intros c Hc. lia.
    - intros n st Hn (I1 & I2). rewrite scan_row_events.
      destruct (scan_events second true n (events S vec ridx (idx n))
                  {| times_visited := times_visited st; count := ia n;
                     ShJA := ShJA st |}
                  ltac:(lia) (fresh_marks n (times_visited st) Hn I1))
        as (out & R & Ec & Em & Ek & Ef).
      cbn [count times_visited ShJA] in Ec, Em, Ek, Ef.
      split.
      + intros c Hc. rewrite Em.
        pose proof (mark_after_bound second n (events S vec ridx (idx n))
                      (times_visited st) c ltac:(lia) (I1 c Hc)). lia.
      + intros c Hc. destruct (Z.eq_dec c n) as [-> | Hne].
        * destruct (J n Hn) as (o & Ro & Eo).
          rewrite Eo, (row_of_events_length _ _ _ _ Ro R).
          rewrite cells_as_list; [exact R|]. intros k Hk. now apply Ef.
        * rewrite (map_ext_in _ (ShJA st)); [apply I2; lia|].
          intros p Hp. apply zrange_In in Hp. apply Ek.
          pose proof (TransposeFacts.offsets_le nc ia Hmono (c + 1) n
                        ltac:(lia) ltac:(lia) ltac:(lia)). lia. }
  unfold I in G. apply G.
Qed.

End Steps.

End Numbered.

(** The graph that either routine leaves: the coarse vertices are
    numbered in their order, [Sh] has valid structure, and each of its
    rows holds the vertices that the scan of the row takes in. *)
Lemma generate_S_rs_ag_rows (second : bool) (S : iCSRmat) (vec : arr Z) (row : Z) :
  0 <= row -> graph_cols S row ->
  let G := generate_S_rs_ag second S vec row in
  numbered vec row G /\ icsr_valid (Sh G) /\
  forall ci, 0 <= ci < irow (Sh G) ->
             row_of_events second
               (events S vec (CGPT_rindex G) (CGPT_index G ci))
               (irow_cols (Sh G) ci).
Proof.
  intros H0 Hcols. cbv zeta. unfold generate_S_rs_ag.
  rewrite (count_coarse_spec vec row H0).
  pose proof (index_coarse_spec vec row H0) as X. cbv zeta in X.
  destruct (index_coarse vec row) as [[idx ridx] j]. cbn [fst snd] in X.
  destruct X as (_ & Xi & Xo & Xb).
  pose proof (coarse_tally_nonneg vec row) as Hnc.
  pose proof (ag_offsets_spec S vec row (coarse_count vec row) idx ridx Hcols Xi Xb
                second Hnc) as Y.
  cbv zeta in Y.
  destruct (ag_offsets second S vec idx ridx (coarse_count vec row)) as [tv ia].
  cbn [fst snd] in Y. destruct Y as (Y0 & Y1).
  assert (Hz : forall c, 0 <= c < coarse_count vec row ->
                         for_loop 0 (coarse_count vec row)
                           (fun tv i => upd tv i 0) tv c = 0).
  { intros c Hc. rewrite (cellwise_loop (fun _ _ => 0)).
    destruct (Z.leb_spec 0 c); destruct (Z.ltb_spec c (coarse_count vec row));
      cbn [andb]; lia. }
  pose proof (ag_columns_spec S vec row (coarse_count vec row) idx ridx Hcols Xi Xb
                second Hnc _ ia Hz Y1) as Rows.
  cbn [Sh CGPT_index CGPT_rindex irow icol innz iIA iJA].
  split; [|split].
  - constructor; cbn [Sh CGPT_index CGPT_rindex irow icol]; auto.
  - constructor; cbn [irow icol innz iIA iJA].
    + exact Hnc.
    + exact Y0.
    + reflexivity.
    + intros i Hi. destruct (Y1 i Hi) as (o & _ & E). lia.
    + intros p Hp.
      destruct (TransposeFacts.row_of (coarse_count vec row) _ ia Hnc Y0 eq_refl p Hp)
        as (ci & Hci & Hr).
      destruct (Rows ci Hci) as [_ M].
      assert (Hin : In (ShJA (ag_columns second S vec idx ridx (coarse_count vec row)
                               (for_loop 0 (coarse_count vec row)
                                  (fun tv i => upd tv i 0) tv) ia) p)
                      (map (ShJA (ag_columns second S vec idx ridx
                                    (coarse_count vec row)
                                    (for_loop 0 (coarse_count vec row)
                                       (fun tv i => upd tv i 0) tv) ia))
                         (zrange (ia ci) (ia (ci + 1)))))
        by (apply in_map; now apply zrange_In).
      apply M in Hin.
      apply (reached_spec S vec row (coarse_count vec row) idx ridx Hcols Xi Xb
               second ci _ Hci) in Hin.
      apply Hin.
  - intros ci Hci. unfold irow_cols, positions. cbn [iIA iJA]. now apply Rows.
Qed.

Lemma cross_graph_cols : graph_cols cross_graph 5.
Proof.
  intros i p Hi Hp.
  assert (Hc : i = 0 \/ i = 1 \/ i = 2 \/ i = 3 \/ i = 4) by lia.
  destruct Hc as [-> | [-> | [-> | [-> | ->]]]].
  - change (0 <= p < 3) in Hp.
    assert (Hq : p = 0 \/ p = 1 \/ p = 2) by lia.
    destruct Hq as [-> | [-> | ->]]; vm_compute; split; congruence.
  - change (3 <= p < 5) in Hp.
    assert (Hq : p = 3 \/ p = 4) by lia.
    destruct Hq as [-> | ->]; vm_compute; split; congruence.
  - change (5 <= p < 6) in Hp. assert (p = 5) by lia. subst p.
    vm_compute. split; congruence.
  - change (6 <= p < 6) in Hp. lia.
  - change (6 <= p < 6) in Hp. lia.
Qed.

(** With [generate_S_rs_ag_1], the row of a coarse vertex in [Sh] holds
    once each other coarse vertex that it reaches by one strong coupling,
    or by two over a fine vertex. *)
Theorem S_rs_ag_1_paths (S : iCSRmat) (vec : arr Z) (row : Z) :
  0 <= row -> graph_cols S row ->
  let G := generate_S_rs_ag_1 S vec row in
  numbered vec row G /\ icsr_valid (Sh G) /\
  forall ci, 0 <= ci < irow (Sh G) ->
    NoDup (irow_cols (Sh G) ci) /\
    forall cj, In cj (irow_cols (Sh G) ci) <->
               0 <= cj < irow (Sh G) /\ cj <> ci /\
               (neighbour S (CGPT_index G ci) (CGPT_index G cj) \/
                exists p q, via S vec (CGPT_index G ci) (CGPT_index G cj) p q).
Proof.
  intros H0 Hcols. cbv zeta. unfold generate_S_rs_ag_1.
  destruct (generate_S_rs_ag_rows false S vec row H0 Hcols) as (Hn & Hv & Hr).
  split; [exact Hn | split; [exact Hv|]].
  intros ci Hci. destruct (Hr ci Hci) as [N M]. split; [exact N|].
  intros cj. rewrite M.
  rewrite (reached_spec S vec row _ _ _ Hcols (number_index _ _ _ Hn)
             (number_back _ _ _ Hn) false ci cj Hci).
  now rewrite one_path.
Qed.

(** With [generate_S_rs_ag_2], the row holds once each other coarse vertex
    that is a strong neighbour, or is reached by two different paths over
    fine vertices. *)
Theorem S_rs_ag_2_paths (S : iCSRmat) (vec : arr Z) (row : Z) :
  0 <= row -> graph_cols S row ->
  let G := generate_S_rs_ag_2 S vec row in
  numbered vec row G /\ icsr_valid (Sh G) /\
  forall ci, 0 <= ci < irow (Sh G) ->
    NoDup (irow_cols (Sh G) ci) /\
    forall cj, In cj (irow_cols (Sh G) ci) <->
               0 <= cj < irow (Sh G) /\ cj <> ci /\
               (neighbour S (CGPT_index G ci) (CGPT_index G cj) \/
                exists p q p' q',
                  (p, q) <> (p', q') /\
                  via S vec (CGPT_index G ci) (CGPT_index G cj) p q /\
                  via S vec (CGPT_index G ci) (CGPT_index G cj) p' q').
Proof.
  intros H0 Hcols. cbv zeta. unfold generate_S_rs_ag_2.
  destruct (generate_S_rs_ag_rows true S vec row H0 Hcols) as (Hn & Hv & Hr).
  split; [exact Hn | split; [exact Hv|]].
  intros ci Hci. destruct (Hr ci Hci) as [N M]. split; [exact N|].
  intros cj. rewrite M.
  rewrite (reached_spec S vec row _ _ _ Hcols (number_index _ _ _ Hn)
             (number_back _ _ _ Hn) true ci cj Hci).
  now rewrite two_paths.
Qed.

Lemma S_rs_ag_1_paths_witness :
  let G := generate_S_rs_ag_1 cross_graph cross_labels 5 in
  numbered cross_labels 5 G /\ icsr_valid (Sh G) /\
  forall ci, 0 <= ci < irow (Sh G) ->
    NoDup (irow_cols (Sh G) ci) /\
    forall cj, In cj (irow_cols (Sh G) ci) <->
               0 <= cj < irow (Sh G) /\ cj <> ci /\
               (neighbour cross_graph (CGPT_index G ci) (CGPT_index G cj) \/
                exists p q,
                  via cross_graph cross_labels (CGPT_index G ci) (CGPT_index G cj) p q).
Proof.
  apply (S_rs_ag_1_paths cross_graph cross_labels 5); [lia | exact cross_graph_cols].
Defined.

Lemma S_rs_ag_2_paths_witness :
  let G := generate_S_rs_ag_2 cross_graph cross_labels 5 in
  numbered cross_labels 5 G /\ icsr_valid (Sh G) /\
  forall ci, 0 <= ci < irow (Sh G) ->
    NoDup (irow_cols (Sh G) ci) /\
    forall cj, In cj (irow_cols (Sh G) ci) <->
               0 <= cj < irow (Sh G) /\ cj <> ci /\
               (neighbour cross_graph (CGPT_index G ci) (CGPT_index G cj) \/
                exists p q p' q',
                  (p, q) <> (p', q') /\
                  via cross_graph cross_labels (CGPT_index G ci) (CGPT_index G cj) p q /\
                  via cross_graph cross_labels (CGPT_index G ci) (CGPT_index G cj) p' q').
Proof.
  apply (S_rs_ag_2_paths cross_graph cross_labels 5); [lia | exact cross_graph_cols].
Defined.

(** In the sample the first coarse vertex reaches the second over both
    fine vertices and directly, and the third over one fine vertex only:
    the first routine puts both into its row, the second routine only the
    second. *)
Example cross_rows :
  irow_cols (Sh (generate_S_rs_ag_1 cross_graph cross_labels 5)) 0 = [1; 2] /\
  irow_cols (Sh (generate_S_rs_ag_2 cross_graph cross_labels 5)) 0 = [1].
Proof. vm_compute. split; reflexivity. Qed.

End AggressiveFacts.

From Stdlib Require Import Permutation.

(* ------------------------------------------------------------------ *)
(** ** fasp_dcsr_transz with an ordering, and fasp_dcsr_permz *)

Module PermzFacts.
Import Rows Transposed SparseOps Transposing TransposeFacts PermFacts TranszFacts
  RowOrder.

(** *** The positions of a matrix, row after row *)

Lemma map_over_rows {X Y Z' : Type} (f : Y -> Z') (g : X -> list Y) (l : list X) :
  map f (flat_map g l) = flat_map (fun x => map f (g x)) l.
Proof.
  induction l as [|x l IH]; cbn [flat_map map]; [reflexivity|].
  now rewrite map_app, IH.
Qed.

Lemma flat_map_images {X Y Z' : Type} (g : Y -> list Z') (f : X -> Y) (l : list X) :
  flat_map g (map f l) = flat_map (fun x => g (f x)) l.
Proof.
  induction l as [|x l IH]; cbn [flat_map map]; [reflexivity|]. now rewrite IH.
Qed.

Lemma flat_map_same {X Y : Type} (g h : X -> list Y) (l : list X) :
  (forall x, In x l -> g x = h x) -> flat_map g l = flat_map h l.
Proof.
  induction l as [|x l IH]; intros H; cbn [flat_map]; [reflexivity|].
  rewrite H by now left. f_equal. apply IH. intros y Hy. apply H. now right.
Qed.

(** The positions before the end of row [t] are those of the rows up to
    [t], one row after the other. *)
Lemma positions_by_rows (ia : arr Z) (n : Z) :
  ia 0 = 0 -> (forall i, 0 <= i < n -> ia i <= ia (i + 1)) ->
  forall t, 0 <= t <= n ->
            zrange 0 (ia t) = flat_map (positions ia) (zrange 0 t).
Proof.
  intros H0 Hm t Ht. replace t with (Z.of_nat (Z.to_nat t)) in * by lia.
  induction (Z.to_nat t) as [|k IH].
  - change (Z.of_nat 0) with 0. rewrite H0. reflexivity.
  - rewrite Nat2Z.inj_succ in *. unfold Z.succ in *.
    rewrite zrange_last by lia. rewrite flat_map_app. cbn [flat_map].
    rewrite app_nil_r, <- IH by lia. unfold positions.
    apply zrange_split. split; [|apply Hm; lia].
    rewrite <- H0. apply (offsets_le n ia Hm); lia.
Qed.

Lemma below_of_columns (ja : arr Z) (c t : Z) :
  below ja c t
  = Z.of_nat (length (filter (fun x => x <? c) (map ja (zrange 0 t)))).
Proof.
  unfold below. f_equal. induction (zrange 0 t) as [|p l IH]; [reflexivity|].
  cbn [map filter]. destruct (ja p <? c); cbn [length]; now rewrite IH.
Qed.

Lemma filter_permuted {X : Type} (f : X -> bool) (l l' : list X) :
  Permutation l l' -> Permutation (filter f l) (filter f l').
Proof.
  induction 1 as [|x l l' _ IH|x y l|l l' l'' _ IH1 _ IH2]; cbn [filter].
  - constructor.
  - destruct (f x); [now constructor | exact IH].
  - destruct (f x); destruct (f y); try reflexivity. apply perm_swap.
  - eapply perm_trans; eassumption.
Qed.

(** *** The rows in the order of [P] *)

Section Ordered.
Variables (A : dCSRmat) (P : arr Z).
Hypothesis HA : csr_valid A.
Hypothesis HP : permutes (row A) P.

Lemma rows_by_row (i q : Z) :
  0 <= i < row A -> IA (rows_by A P) i <= q < IA (rows_by A P) (i + 1) ->
  IA A (P i) <= IA A (P i) + q - IA (rows_by A P) i < IA A (P i + 1) /\
  JA (rows_by A P) q = JA A (IA A (P i) + q - IA (rows_by A P) i) /\
  aval (rows_by A P) q = aval A (IA A (P i) + q - IA (rows_by A P) i).
Proof.
  intros Hi Hq. cbn [rows_by IA JA] in *.
  destruct (perm_offsets_spec A P HA) as [_ E]. pose proof (E i Hi) as Ei.
  split; [lia|]. destruct (perm_rows_spec A P HA HP i q Hi Hq) as [F1 F2].
  split; [exact F1|]. unfold aval at 1. cbn [val rows_by]. exact F2.
Qed.

(** A position of row [P i] of [A] is a position of row [i]. *)
Lemma rows_by_back (i p : Z) :
  0 <= i < row A -> IA A (P i) <= p < IA A (P i + 1) ->
  IA (rows_by A P) i <= IA (rows_by A P) i + (p - IA A (P i))
  < IA (rows_by A P) (i + 1) /\
  JA (rows_by A P) (IA (rows_by A P) i + (p - IA A (P i))) = JA A p /\
  aval (rows_by A P) (IA (rows_by A P) i + (p - IA A (P i))) = aval A p.
Proof.
  intros Hi Hp.
  destruct (perm_offsets_spec A P HA) as [_ E]. pose proof (E i Hi) as Ei.
  assert (Hq : IA (rows_by A P) i <= IA (rows_by A P) i + (p - IA A (P i))
               < IA (rows_by A P) (i + 1))
    by (cbn [rows_by IA]; lia).
  split; [exact Hq|].
  destruct (rows_by_row i _ Hi Hq) as (_ & F1 & F2).
  replace (IA A (P i) + (IA (rows_by A P) i + (p - IA A (P i)))
           - IA (rows_by A P) i) with p in F1, F2 by lia.
  now split.
Qed.

Lemma rows_by_valid : csr_valid (rows_by A P).
Proof.
  pose proof HA as [V1 V2 V3 V4 V5 V6]. destruct HP as [Hr Hinj].
  destruct (perm_offsets_spec A P HA) as [E0 E1].
  assert (Hlast : perm_offsets A P (row A) = nnz A)
    by (apply perm_offsets_last; [exact HA | now split]).
  constructor; cbn [rows_by row col nnz IA JA].
  - exact V1.
  - exact V2.
  - exact E0.
  - exact Hlast.
  - intros i Hi. apply perm_offsets_mono; [exact HA | now split | exact Hi].
  - intros q Hq.
    destruct (row_of (row A) (nnz A) (perm_offsets A P) V1 E0 Hlast q Hq)
      as (i & Hi & Hrow).
    destruct (rows_by_row i q Hi Hrow) as (Hp & F1 & _).
    cbn [rows_by JA IA] in F1, Hp. rewrite F1. apply V6.
    apply (row_in_range (row A) (nnz A) (IA A)) with (i := P i);
      try assumption. now apply Hr.
Qed.

Lemma rows_by_entries (i j : Z) (v : Q) :
  0 <= i < row A -> (entry (rows_by A P) i j v <-> entry A (P i) j v).
Proof.
  intros Hi. destruct HP as [Hr _]. unfold entry. cbn [row rows_by]. split.
  - intros [_ (q & Hq & Ej & Ev)].
    destruct (rows_by_row i q Hi Hq) as (Hp & F1 & F2).
    split; [now apply Hr|]. eexists. split; [exact Hp|].
    split; congruence.
  - intros [_ (p & Hp & Ej & Ev)].
    destruct (rows_by_back i p Hi Hp) as (Hq & F1 & F2).
    split; [exact Hi|]. eexists. split; [exact Hq|]. split; congruence.
Qed.

(** The columns of the positions are those of [A] in another order. *)
Lemma rows_by_columns :
  Permutation (map (JA (rows_by A P)) (zrange 0 (nnz A)))
              (map (JA A) (zrange 0 (nnz A))).
Proof.
  pose proof HA as [V1 V2 V3 V4 V5 V6].
  pose proof rows_by_valid as [W1 W2 W3 W4 W5 W6].
  cbn [rows_by row nnz] in W4, W5.
  assert (E1 : zrange 0 (nnz A)
               = flat_map (positions (IA (rows_by A P))) (zrange 0 (row A))).
  { rewrite <- W4. apply (positions_by_rows _ (row A) W3 W5). lia. }
  assert (E2 : zrange 0 (nnz A) = flat_map (positions (IA A)) (zrange 0 (row A))).
  { rewrite <- V4. apply (positions_by_rows _ (row A) V3 V5). lia. }
  rewrite E1 at 1. rewrite E2.
  rewrite !map_over_rows.
  rewrite (flat_map_same _ (fun i => map (JA A) (positions (IA A) (P i)))).
  - rewrite <- (flat_map_images (fun k => map (JA A) (positions (IA A) k)) P).
    apply Permutation_flat_map. now apply images_perm.
  - intros i Hi. apply zrange_In in Hi. unfold positions.
    destruct (perm_offsets_spec A P HA) as [_ E]. pose proof (E i Hi) as Ei.
    replace (IA (rows_by A P) i)
      with ((IA (rows_by A P) i - IA A (P i)) + IA A (P i)) at 1 by lia.
    replace (IA (rows_by A P) (i + 1))
      with ((IA (rows_by A P) i - IA A (P i)) + IA A (P i + 1))
      by (cbn [rows_by IA]; lia).
    rewrite SparseSortFacts.zrange_shift, map_map. apply map_ext_in.
    intros p Hp. apply zrange_In in Hp.
    destruct (rows_by_back i p Hi Hp) as (_ & F1 & _).
    rewrite <- F1. f_equal. lia.
Qed.

Lemma rows_by_below (c : Z) :
  below (JA (rows_by A P)) c (nnz A) = below (JA A) c (nnz A).
Proof.
  rewrite !below_of_columns. f_equal. apply Permutation_length.
  apply filter_permuted. exact rows_by_columns.
Qed.

(** The loop over the rows of [fasp_dcsr_transz] with the ordering [P]
    lays out the transpose of the reordered matrix. *)
Lemma transz_pass_ordered (a : option (arr Q)) (iat0 jat0 : arr Z) (at0 : arr Q) :
  (forall av, a = Some av -> val A = Some av) ->
  placing (rows_by A P) (match a with
                         | Some _ => val (rows_by A P)
                         | None => None
                         end) (nnz A)
    (transz_pass A (fun i => P i) a (transz_offsets A iat0, jat0, at0)).
Proof.
  intros Ha. pose proof HA as [V1 V2 V3 V4 V5 V6]. destruct HP as [Hr Hinj].
  pose proof rows_by_valid as HM. pose proof HM as [W1 W2 W3 W4 W5 W6].
  cbn [rows_by row nnz] in W4, W5.
  rewrite <- W4 at 1. unfold transz_pass.
  apply (for_loop_inv
           (fun i st => placing (rows_by A P)
                          (match a with
                           | Some _ => val (rows_by A P)
                           | None => None
                           end) (IA (rows_by A P) i) st)); [exact V1 | |].
  - rewrite W3. split; [|split].
    + intros k Hk. cbn [col rows_by] in Hk.
      rewrite (transz_offsets_spec A HA) by lia.
      rewrite count_start by lia. cbn [nnz rows_by]. rewrite rows_by_below.
      destruct (Z.leb_spec 1 k); lia.
    + now rewrite (transz_offsets_spec A HA) by lia.
    + intros p i Hi Hp Hlt.
      pose proof (offsets_le (row A) (IA (rows_by A P)) W5 0 i
                    ltac:(lia) ltac:(lia) ltac:(cbn [row rows_by] in Hi; lia)).
      lia.
  - intros i st Hi IH. cbv zeta.
    destruct (perm_offsets_spec A P HA) as [_ E]. pose proof (E i Hi) as Ei.
    pose proof (V5 (P i) (Hr i Hi)) as Hm.
    destruct (Z.gtb_spec (IA A (P i + 1)) (IA A (P i))) as [Hgt | Hle].
    + replace (IA (rows_by A P) (i + 1))
        with (IA (rows_by A P) i + (IA A (P i + 1) - IA A (P i)))
        by (cbn [rows_by IA]; lia).
      apply (for_loop_inv
               (fun p st => placing (rows_by A P)
                              (match a with
                               | Some _ => val (rows_by A P)
                               | None => None
                               end)
                              (IA (rows_by A P) i + (p - IA A (P i))) st));
        [lia | now rewrite Z.sub_diag, Z.add_0_r |].
      intros p [[iat jat] atv] Hp IHp.
      destruct (rows_by_back i p Hi Hp) as (Hq & F1 & F2).
      replace (IA (rows_by A P) i + (p + 1 - IA A (P i)))
        with (IA (rows_by A P) i + (p - IA A (P i)) + 1) by lia.
      pose proof (placing_step (rows_by A P) HM
                    (match a with
                     | Some _ => val (rows_by A P)
                     | None => None
                     end) i (IA (rows_by A P) i + (p - IA A (P i)))
                    iat jat atv Hi Hq IHp) as G.
      rewrite F1 in G.
      destruct a as [av|].
      * cbn [val rows_by] in G. unfold aval in F2 at 1. cbn [val rows_by] in F2.
        rewrite F2 in G. unfold aval in G. rewrite (Ha av eq_refl) in G. exact G.
      * exact G.
    + replace (IA (rows_by A P) (i + 1)) with (IA (rows_by A P) i)
        by (cbn [rows_by IA]; lia).
      exact IH.
Qed.

(** [fasp_dcsr_transz (A, P, AT)] leaves the transpose of the reordered
    matrix, laid out by the counting sort. *)
Lemma transz_ordered_placed (AT : dCSRmat) :
  (0 < nnz A -> val A <> None /\ val AT <> None) ->
  placed (rows_by A P) (fasp_dcsr_transz A (Some P) AT).
Proof.
  intros Hv. pose proof HA as [V1 V2 V3 V4 V5 V6].
  pose proof rows_by_valid as HM. pose proof HM as [W1 W2 W3 W4 W5 W6].
  unfold fasp_dcsr_transz. cbv zeta.
  assert (G : forall a, (forall av, a = Some av -> val A = Some av) ->
                (0 < nnz A -> a <> None) ->
                let '(iat, jat, atv) :=
                  transz_pass A (fun i => P i) a
                    (transz_offsets A (IA AT), JA AT, aval AT) in
                placed (rows_by A P)
                  {| row := col A; col := row A; nnz := nnz A;
                     IA := iat; JA := jat;
                     val := match val AT with
                            | Some _ => Some atv
                            | None => None
                            end |}).
  { intros a Ha Hn.
    pose proof (transz_pass_ordered a (IA AT) (JA AT) (aval AT) Ha) as H.
    destruct (transz_pass A _ a _) as [[iat jat] atv].
    destruct H as (H1 & H0 & H2). cbn [rows_by row col nnz] in H1, H2.
    split; [reflexivity|]. split; [reflexivity|]. split; [reflexivity|].
    cbn [IA JA]. change (col (rows_by A P)) with (col A).
    change (nnz (rows_by A P)) with (nnz A).
    change (row (rows_by A P)) with (row A). split.
    - intros k Hk. destruct (Z.eq_dec k 0) as [-> | Hne].
      + rewrite H0. symmetry. apply (below_first (col A)). exact W6.
      + rewrite H1 by lia.
        pose proof (below_split (JA (rows_by A P)) (k - 1) (nnz A)) as B.
        replace (k - 1 + 1) with k in B by lia. lia.
    - intros p i Hi Hp.
      assert (HpN : 0 <= p < nnz A).
      { apply (row_in_range (row A) (nnz A) (IA (rows_by A P))) with (i := i);
          assumption. }
      destruct (H2 p i Hi Hp ltac:(lia)) as [J1 J2]. split; [exact J1|].
      destruct (Hv ltac:(lia)) as [_ Ht]. unfold aval at 1. cbn [val].
      destruct (val AT) as [tv|]; [|contradiction].
      destruct a as [av|]; [|now contradiction (Hn ltac:(lia))].
      unfold aval. cbn [val rows_by]. now apply J2. }
  destruct (val A) as [mv|] eqn:Em.
  - pose proof (G (Some mv) (fun av E => E) ltac:(discriminate)) as H.
    destruct (transz_pass A _ (Some mv) _) as [[iat jat] atv]. exact H.
  - assert (Hz : ~ 0 < nnz A) by (intros X; now destruct (Hv X)).
    pose proof (G None ltac:(discriminate) ltac:(intros X; contradiction)) as H.
    destruct (transz_pass A _ None _) as [[iat jat] atv]. exact H.
Qed.

End Ordered.


(** The arrays that the two calls of [fasp_dcsr_permz] fill, for a
    square [A] of valid structure (with values when there are entries) and
    an ordering [p] of its indices. *)
Lemma permz_arrays_entries (A : dCSRmat) (P : arr Z) :
  csr_valid A -> row A = col A -> permutes (row A) P ->
  (0 < nnz A -> val A <> None) ->
  let B := permz_arrays A (Some P) in
  csr_valid B /\ row B = row A /\ col B = row A /\ nnz B = nnz A /\
  (forall i j v, entry B i j v <->
                 0 <= i < row A /\ 0 <= j < row A /\ entry A (P i) (P j) v) /\
  sorted_rows B.
Proof.
  intros HA Hsq HP Hv. cbv zeta. unfold permz_arrays. cbv zeta.
  set (C := fasp_dcsr_create (row A) (row A) (nnz A)).
  assert (HC : 0 < nnz A -> val C <> None).
  { intros Hn. unfold C, fasp_dcsr_create. cbn [val].
    destruct (Z.gtb_spec (nnz A) 0); [discriminate | lia]. }
  set (T1 := fasp_dcsr_transz A (Some P) C).
  pose proof (rows_by_valid A P HA HP) as HM1.
  assert (HT1 : placed (rows_by A P) T1).
  { apply (transz_ordered_placed A P HA HP C). intros Hn. split; auto. }
  pose proof (placed_valid _ _ HM1 HT1) as V1.
  pose proof HT1 as (Er1 & Ec1 & En1 & _).
  change (col (rows_by A P)) with (col A) in Er1.
  change (row (rows_by A P)) with (row A) in Ec1.
  change (nnz (rows_by A P)) with (nnz A) in En1.
  assert (HP1 : permutes (row T1) P) by (rewrite Er1, <- Hsq; exact HP).
  pose proof (rows_by_valid T1 P V1 HP1) as HM2.
  assert (HT2 : placed (rows_by T1 P) (fasp_dcsr_transz T1 (Some P) C)).
  { apply (transz_ordered_placed T1 P V1 HP1 C). rewrite En1. intros Hn.
    split; [|now apply HC]. apply transz_val. now apply HC. }
  pose proof HT2 as (Er2 & Ec2 & En2 & _).
  change (col (rows_by T1 P)) with (col T1) in Er2.
  change (row (rows_by T1 P)) with (row T1) in Ec2.
  change (nnz (rows_by T1 P)) with (nnz T1) in En2.
  split; [exact (placed_valid _ _ HM2 HT2)|].
  split; [congruence|]. split; [congruence|]. split; [congruence|].
  split; [|exact (placed_sorted _ _ HM2 HT2)].
  intros i j v. rewrite (placed_entries _ _ HM2 HT2). split.
  - intros H. assert (Hj : 0 <= j < row T1) by apply H.
    apply (rows_by_entries T1 P V1 HP1 j i v Hj) in H.
    apply (placed_entries _ _ HM1 HT1) in H.
    assert (Hi : 0 <= i < row A) by apply H.
    apply (rows_by_entries A P HA HP i (P j) v Hi) in H.
    split; [exact Hi | split; [lia | exact H]].
  - intros (Hi & Hj & H).
    apply (rows_by_entries T1 P V1 HP1 j i v); [lia|].
    apply (placed_entries _ _ HM1 HT1).
    now apply (rows_by_entries A P HA HP i (P j) v Hi).
Qed.

(** X25.  [fasp_dcsr_permz (A, p)], for a square [A] of valid structure
    with at least one row (and with values when there are entries) and an
    ordering [p] of its indices: the result has valid structure and the
    sizes of [A], holds [(i, j, v)] exactly when [A] holds
    [(p[i], p[j], v)], and has the columns of every row in ascending
    order.  Without rows there is no result. *)
Theorem permz_entries (A : dCSRmat) (P : arr Z) :
  csr_valid A -> row A = col A -> permutes (row A) P ->
  (0 < nnz A -> val A <> None) ->
  (0 < row A ->
   exists B, fasp_dcsr_permz A (Some P) = Some B /\
             csr_valid B /\ row B = row A /\ col B = row A /\ nnz B = nnz A /\
             (forall i j v, entry B i j v <->
                            0 <= i < row A /\ 0 <= j < row A /\
                            entry A (P i) (P j) v) /\
             sorted_rows B) /\
  (row A = 0 -> fasp_dcsr_permz A (Some P) = None).
Proof.
  intros HA Hsq HP Hv. unfold fasp_dcsr_permz. split.
  - intros Hrow. exists (permz_arrays A (Some P)).
    replace (row A >? 0) with true by (symmetry; apply Z.gtb_lt; lia).
    split; [reflexivity | now apply permz_arrays_entries].
  - intros ->. reflexivity.
Qed.

Lemma rotation_permutes : permutes 3 rotation.
Proof.
  split.
  - intros i Hi. assert (Hc : i = 0 \/ i = 1 \/ i = 2) by lia.
    destruct Hc as [-> | [-> | ->]]; vm_compute; split; congruence.
  - intros i i' Hi Hi'.
    assert (Hc : i = 0 \/ i = 1 \/ i = 2) by lia.
    assert (Hc' : i' = 0 \/ i' = 1 \/ i' = 2) by lia.
    destruct Hc as [-> | [-> | ->]]; destruct Hc' as [-> | [-> | ->]];
      vm_compute; congruence.
Qed.


Lemma permz_entries_witness :
  let A := SparseSort.unsorted_rows in
  exists B, fasp_dcsr_permz A (Some rotation) = Some B /\
            csr_valid B /\ row B = row A /\ col B = row A /\ nnz B = nnz A /\
            (forall i j v, entry B i j v <->
                           0 <= i < row A /\ 0 <= j < row A /\
                           entry A (rotation i) (rotation j) v) /\
            sorted_rows B.
Proof.
  cbv zeta.
  apply (proj1 (permz_entries SparseSort.unsorted_rows rotation
                  (SparseOpsFacts.csr_validb_sound SparseSort.unsorted_rows eq_refl)
                  eq_refl
                  rotation_permutes ltac:(discriminate))).
  reflexivity.
Defined.

(** The sample with the rows [0:1 1:7 2:5 | 1:4 | 0:3 2:9] (by ascending
    column), its indices moved one place on: row [0] of the result is
    row [1] of the sample with the column [1] renamed [0], and so on. *)
Example rotated_rows :
  option_map
    (fun B => (map (IA B) (zrange 0 4), map (JA B) (zrange 0 6),
               map (aval B) (zrange 0 6)))
    (fasp_dcsr_permz SparseSort.unsorted_rows (Some rotation))
  = Some ([0; 1; 3; 6], [0; 1; 2; 0; 1; 2], [4; 9; 3; 7; 5; 1]%Q).
Proof. reflexivity. Qed.

End PermzFacts.

From Stdlib Require Import Permutation.

(* ------------------------------------------------------------------ *)
(** ** coarsening_rs.c: the pattern of the standard interpolation *)

Module SparsityStdFacts.
Import Rows SparseOps SparsityP Covering SparsityStd AggressiveFacts.

(** *** Lists without repetitions *)

Lemma add_new_spec (acc : list Z) (c : Z) :
  NoDup acc ->
  NoDup (add_new acc c) /\
  (forall x, In x (add_new acc c) <-> In x acc \/ x = c) /\
  exists t, add_new acc c = acc ++ t.
Proof.
  intros N. unfold add_new.
  destruct (existsb (Z.eqb c) acc) eqn:E.
  - apply existsb_exists in E. destruct E as (y & Hy & Ey).
    apply Z.eqb_eq in Ey. subst y.
    split; [exact N | split].
    + intros x. split; [now left | intros [H | ->]; assumption].
    + exists []. now rewrite app_nil_r.
  - assert (Hc : ~ In c acc).
    { intros Hin. assert (X : existsb (Z.eqb c) acc = true).
      { apply existsb_exists. exists c. split; [exact Hin | apply Z.eqb_refl]. }
      congruence. }
    split; [|split].
    + apply (Permutation_NoDup (Permutation_cons_append acc c)).
      now constructor.
    + intros x. rewrite in_app_iff. cbn [In]. intuition.
    + now exists [c].
Qed.

Lemma add_all_spec (l : list Z) :
  forall acc, NoDup acc ->
    NoDup (fold_left add_new l acc) /\
    (forall x, In x (fold_left add_new l acc) <-> In x acc \/ In x l) /\
    exists t, fold_left add_new l acc = acc ++ t.
Proof.
  induction l as [|c l IH]; intros acc N; cbn [fold_left].
  - split; [exact N | split].
    + intros x. cbn [In]. tauto.
    + exists []. now rewrite app_nil_r.
  - destruct (add_new_spec acc c N) as (N1 & M1 & (t1 & E1)).
    destruct (IH _ N1) as (N2 & M2 & (t2 & E2)).
    split; [exact N2 | split].
    + intros x. rewrite M2, M1. cbn [In]. intuition.
    + exists (t1 ++ t2). now rewrite E2, E1, app_assoc.
Qed.

Lemma firsts_spec (l : list Z) :
  NoDup (firsts l) /\ forall x, In x (firsts l) <-> In x l.
Proof.
  destruct (add_all_spec l [] (NoDup_nil Z)) as (N & M & _).
  split; [exact N|]. intros x. unfold firsts. rewrite M. cbn [In]. tauto.
Qed.

(** *** The scan of a row *)

(** Step 1 over the coarse vertices [l] that a row comes across: the cell
    [i + 1] grows by the number of those that are new. *)
Lemma std_count_scan (i : Z) (l : list Z) :
  forall (tv pia : arr Z) (acc : list Z),
    NoDup acc ->
    (forall c, In c l -> (tv c = i <-> In c acc)) ->
    let st := fold_left (fun st c => std_visit_count i c st) l (tv, pia) in
    snd st (i + 1)
    = pia (i + 1) + Z.of_nat (length (fold_left add_new l acc))
      - Z.of_nat (length acc) /\
    (forall k, k <> i + 1 -> snd st k = pia k) /\
    (forall c, fst st c = i \/ fst st c = tv c).
Proof.
  induction l as [|c l IH]; intros tv pia acc N H; cbv zeta; cbn [fold_left].
  - cbn [fst snd]. split; [lia | split; [reflexivity | now right]].
  - pose proof (H c ltac:(now left)) as Hc.
    assert (Ev : std_visit_count i c (tv, pia)
                 = if tv c =? i then (tv, pia)
                   else (upd tv c i, upd pia (i + 1) (pia (i + 1) + 1)))
      by reflexivity.
    assert (Ea : add_new acc c = if existsb (Z.eqb c) acc then acc else acc ++ [c])
      by reflexivity.
    rewrite Ev, Ea. clear Ev Ea.
    destruct (Z.eqb_spec (tv c) i) as [E | E].
    + assert (X : existsb (Z.eqb c) acc = true).
      { apply existsb_exists. exists c. split; [now apply Hc | apply Z.eqb_refl]. }
      rewrite X. apply IH; [exact N|]. intros x Hx. apply H. now right.
    + assert (X : existsb (Z.eqb c) acc = false).
      { destruct (existsb (Z.eqb c) acc) eqn:Y; [|reflexivity].
        apply existsb_exists in Y. destruct Y as (y & Hy & Ey).
        apply Z.eqb_eq in Ey. subst y. exfalso. apply E. now apply Hc. }
      rewrite X.
      assert (Hn : ~ In c acc) by (intros Y; apply E; now apply Hc).
      assert (N' : NoDup (acc ++ [c])).
      { apply (Permutation_NoDup (Permutation_cons_append acc c)).
        now constructor. }
      assert (H' : forall x, In x l -> (upd tv c i x = i <-> In x (acc ++ [c]))).
      { intros x Hx. rewrite in_app_iff. cbn [In]. unfold upd.
        destruct (Z.eqb_spec x c) as [-> | Hne]; [intuition|].
        rewrite (H x ltac:(now right)). intuition congruence. }
      destruct (IH (upd tv c i) (upd pia (i + 1) (pia (i + 1) + 1)) (acc ++ [c])
                  N' H') as (G1 & G2 & G3).
      split; [|split].
      * rewrite G1, upd_same, length_app. cbn [length]. lia.
      * intros k Hk. rewrite G2 by exact Hk. now rewrite upd_other.
      * intros x. destruct (G3 x) as [G | G]; [now left|].
        rewrite G. unfold upd. destruct (Z.eqb_spec x c); [now left | now right].
Qed.

(** Step 2 over the coarse vertices [l]: those that are new are written
    after the ones written before, from [base] on. *)
Lemma std_fill_scan (pia : arr Z) (i : Z) (l : list Z) :
  forall (tv pja : arr Z) (acc : list Z),
    NoDup acc ->
    (forall c, In c l -> (tv c = i <-> In c acc)) ->
    (forall k, (k < length acc)%nat -> pja (pia i + Z.of_nat k) = nth k acc 0) ->
    let st := fold_left (fun st c => std_visit_fill pia i c st) l
                (tv, Z.of_nat (length acc), pja) in
    (forall k, (k < length (fold_left add_new l acc))%nat ->
               snd st (pia i + Z.of_nat k) = nth k (fold_left add_new l acc) 0) /\
    (forall p, p < pia i -> snd st p = pja p) /\
    (forall c, fst (fst st) c = i \/ fst (fst st) c = tv c).
Proof.
  induction l as [|c l IH]; intros tv pja acc N H Hp; cbv zeta; cbn [fold_left].
  - cbn [fst snd]. split; [exact Hp | split; [reflexivity | now right]].
  - pose proof (H c ltac:(now left)) as Hc.
    assert (Ev : std_visit_fill pia i c (tv, Z.of_nat (length acc), pja)
                 = if tv c =? i then (tv, Z.of_nat (length acc), pja)
                   else (upd tv c i, Z.of_nat (length acc) + 1,
                         upd pja (pia i + Z.of_nat (length acc)) c))
      by reflexivity.
    assert (Ea : add_new acc c = if existsb (Z.eqb c) acc then acc else acc ++ [c])
      by reflexivity.
    rewrite Ev, Ea. clear Ev Ea.
    destruct (Z.eqb_spec (tv c) i) as [E | E].
    + assert (X : existsb (Z.eqb c) acc = true).
      { apply existsb_exists. exists c. split; [now apply Hc | apply Z.eqb_refl]. }
      rewrite X. apply IH; [exact N | | exact Hp]. intros x Hx. apply H. now right.
    + assert (X : existsb (Z.eqb c) acc = false).
      { destruct (existsb (Z.eqb c) acc) eqn:Y; [|reflexivity].
        apply existsb_exists in Y. destruct Y as (y & Hy & Ey).
        apply Z.eqb_eq in Ey. subst y. exfalso. apply E. now apply Hc. }
      rewrite X.
      assert (Hn : ~ In c acc) by (intros Y; apply E; now apply Hc).
      assert (N' : NoDup (acc ++ [c])).
      { apply (Permutation_NoDup (Permutation_cons_append acc c)).
        now constructor. }
      replace (Z.of_nat (length acc) + 1) with (Z.of_nat (length (acc ++ [c])))
        by (rewrite length_app; cbn [length]; lia).
      assert (H' : forall x, In x l -> (upd tv c i x = i <-> In x (acc ++ [c]))).
      { intros x Hx. rewrite in_app_iff. cbn [In]. unfold upd.
        destruct (Z.eqb_spec x c) as [-> | Hne]; [intuition|].
        rewrite (H x ltac:(now right)). intuition congruence. }
      assert (Hp' : forall k, (k < length (acc ++ [c]))%nat ->
                      upd pja (pia i + Z.of_nat (length acc)) c (pia i + Z.of_nat k)
                      = nth k (acc ++ [c]) 0).
      { intros k Hk. rewrite length_app in Hk. cbn [length] in Hk.
        destruct (Nat.eq_dec k (length acc)) as [-> | Hne].
        - rewrite upd_same, app_nth2 by lia. now rewrite Nat.sub_diag.
        - rewrite upd_other by lia. rewrite app_nth1 by lia. apply Hp. lia. }
      destruct (IH (upd tv c i) (upd pja (pia i + Z.of_nat (length acc)) c)
                  (acc ++ [c]) N' H' Hp') as (G1 & G2 & G3).
      split; [exact G1 | split].
      * intros p Hlt. rewrite G2 by exact Hlt. now rewrite upd_other by lia.
      * intros x. destruct (G3 x) as [G | G]; [now left|].
        rewrite G. unfold upd. destruct (Z.eqb_spec x c); [now left | now right].
Qed.

(** The offsets that the sums of the counts give. *)
Lemma offsets_of_counts (len : Z -> Z) (cnt : arr Z) (row : Z) :
  0 <= row ->
  (forall k, cnt k = if (1 <=? k) && (k <=? row) then len (k - 1) else 0) ->
  forall k, 0 <= k <= row ->
            sparsity_offsets row cnt k = zsum (map len (zrange 0 k)).
Proof.
  intros Hrow Hc k Hk. unfold sparsity_offsets.
  pose (I := fun t (pia : arr Z) =>
               (forall k, 0 <= k <= t -> pia k = zsum (map len (zrange 0 k))) /\
               (forall k, t < k -> pia k = cnt k)).
  assert (G : I row (for_loop 0 row
                       (fun pia i => upd pia (i + 1) (pia (i + 1) + pia i)) cnt)).
  { apply (for_loop_inv I); unfold I; [exact Hrow | |].
    - split; [|reflexivity]. intros k' Hk'. replace k' with 0 by lia.
      rewrite Hc. reflexivity.
    - intros t pia Ht [Hd Hr]. split.
      + intros k' Hk'. destruct (Z.eq_dec k' (t + 1)) as [-> | Hne].
        * rewrite upd_same, Hr, Hd by lia. rewrite Hc.
          destruct (Z.leb_spec 1 (t + 1)); [|lia].
          destruct (Z.leb_spec (t + 1) row); [|lia]. cbn [andb].
          rewrite (zrange_last 0 t) by lia.
          rewrite map_app, PermFacts.zsum_app. cbn [map zsum fold_right].
          replace (t + 1 - 1) with t by lia. lia.
        * rewrite upd_other by exact Hne. apply Hd. lia.
      + intros k' Hk'. rewrite upd_other by lia. apply Hr. lia. }
  unfold I in G. now apply G.
Qed.

(** *** The rows of the pattern *)

Section Pattern.
Variables (S : iCSRmat) (vec : arr Z) (row : Z).
Hypothesis Hrow : 0 <= row.
Hypothesis Hcols : graph_cols S row.

Lemma candidates_spec (i c : Z) :
  In c (std_candidates S vec i) <->
  vec c = CGPT /\
  (neighbour S i c \/
   exists k, vec k = FGPT /\ k <> i /\ neighbour S i k /\ neighbour S k c).
Proof.
  unfold std_candidates, neighbour. rewrite in_flat_map. split.
  - intros (p & Hp & Hin). apply zrange_In in Hp. cbv zeta in Hin.
    destruct (Z.eqb_spec (vec (iJA S p)) CGPT) as [Ec | Ec].
    + destruct Hin as [<- | []]. split; [exact Ec|]. left. now exists p.
    + destruct (Z.eqb_spec (vec (iJA S p)) FGPT) as [Ef | Ef];
        [|contradiction].
      destruct (Z.eqb_spec (iJA S p) i) as [Ei | Ei]; [contradiction|].
      cbn [negb andb] in Hin. apply in_map_iff in Hin.
      destruct Hin as (l & <- & Hl). apply filter_In in Hl.
      destruct Hl as [Hl Ev]. apply zrange_In in Hl. apply Z.eqb_eq in Ev.
      split; [exact Ev|]. right. exists (iJA S p).
      split; [exact Ef | split; [exact Ei | split]].
      * now exists p.
      * now exists l.
  - intros (Hv & [(p & Hp & Ep) | (k & Hk & Hne & (p & Hp & Ep) & (l & Hl & El))]).
    + exists p. split; [now apply zrange_In|]. cbv zeta.
      rewrite Ep, Hv. cbn. now left.
    + exists p. split; [now apply zrange_In|]. cbv zeta. rewrite Ep, Hk.
      cbn [Z.eqb FGPT CGPT andb].
      destruct (Z.eqb_spec k i) as [E | _]; [contradiction|]. cbn [negb].
      apply in_map_iff. exists l. split; [exact El|]. apply filter_In.
      split; [now apply zrange_In|]. rewrite El. now apply Z.eqb_eq.
Qed.

Lemma candidates_range (i c : Z) :
  0 <= i < row -> In c (std_candidates S vec i) -> 0 <= c < row.
Proof.
  intros Hi Hin. apply candidates_spec in Hin.
  destruct Hin as (_ & [(p & Hp & <-) | (k & _ & _ & (p & Hp & <-) & (l & Hl & <-))]).
  - now apply (Hcols i).
  - apply (Hcols (iJA S p)); [now apply (Hcols i) | exact Hl].
Qed.

(** The loops of step 1 over a row, as a fold over what the row comes
    across. *)
Lemma count_row_fold (i : Z) (st : arr Z * arr Z) :
  for_loop (iIA S i) (iIA S (i + 1))
    (fun st j =>
       let k := iJA S j in
       if vec k =? CGPT then std_visit_count i k st
       else if (vec k =? FGPT) && negb (k =? i) then
         for_loop (iIA S k) (iIA S (k + 1))
           (fun st l =>
              let h := iJA S l in
              if vec h =? CGPT then std_visit_count i h st else st)
           st
       else st)
    st
  = fold_left (fun st c => std_visit_count i c st) (std_candidates S vec i) st.
Proof.
  unfold std_candidates, for_loop. rewrite fold_left_flat_map.
  apply fold_left_ext_in. intros s j _. cbv zeta.
  destruct (vec (iJA S j) =? CGPT); [reflexivity|].
  destruct ((vec (iJA S j) =? FGPT) && negb (iJA S j =? i)); [|reflexivity].
  now rewrite <- (fold_left_filter_map (fun st c => std_visit_count i c st) (iJA S)).
Qed.

Lemma fill_row_fold (pia : arr Z) (i : Z) (st : arr Z * Z * arr Z) :
  for_loop (iIA S i) (iIA S (i + 1))
    (fun st j =>
       let k := iJA S j in
       if vec k =? CGPT then std_visit_fill pia i k st
       else if (vec k =? FGPT) && negb (k =? i) then
         for_loop (iIA S k) (iIA S (k + 1))
           (fun st l =>
              let h := iJA S l in
              if vec h =? CGPT then std_visit_fill pia i h st else st)
           st
       else st)
    st
  = fold_left (fun st c => std_visit_fill pia i c st) (std_candidates S vec i) st.
Proof.
  unfold std_candidates, for_loop. rewrite fold_left_flat_map.
  apply fold_left_ext_in. intros s j _. cbv zeta.
  destruct (vec (iJA S j) =? CGPT); [reflexivity|].
  destruct ((vec (iJA S j) =? FGPT) && negb (iJA S j =? i)); [|reflexivity].
  now rewrite <- (fold_left_filter_map (fun st c => std_visit_fill pia i c st)
                    (iJA S)).
Qed.

Lemma unvisited_cells (tv : arr Z) (c : Z) :
  0 <= c < row -> unvisited row tv c = -1.
Proof.
  intros Hc. unfold unvisited. rewrite (cellwise_loop (fun _ _ => -1)).
  destruct (Z.leb_spec 0 c); destruct (Z.ltb_spec c row); cbn [andb]; lia.
Qed.

Lemma std_offset_succ (k : Z) :
  0 <= k -> std_offset S vec (k + 1) = std_offset S vec k + std_length S vec k.
Proof.
  intros Hk. unfold std_offset. rewrite zrange_last by lia.
  rewrite map_app, PermFacts.zsum_app. cbn. lia.
Qed.

Lemma std_offset_le (i k : Z) :
  0 <= i -> i <= k -> std_offset S vec i <= std_offset S vec k.
Proof.
  intros Hi Hik. replace k with (i + Z.of_nat (Z.to_nat (k - i))) by lia.
  induction (Z.to_nat (k - i)) as [|m IH]; [rewrite Z.add_0_r; lia|].
  rewrite Nat2Z.inj_succ. unfold Z.succ. rewrite Z.add_assoc.
  rewrite std_offset_succ by lia. unfold std_length. lia.
Qed.

(** Step 1 leaves the length of each row. *)
Lemma std_counts_spec (k : Z) :
  snd (std_counts S vec row) k
  = if (1 <=? k) && (k <=? row) then std_length S vec (k - 1) else 0.
Proof.
  unfold std_counts.
  pose (I := fun t (st : arr Z * arr Z) =>
               (forall c, 0 <= c < row -> fst st c < t) /\
               forall k, snd st k = if (1 <=? k) && (k <=? t)
                                    then std_length S vec (k - 1) else 0).
  match goal with
  | |- context [for_loop 0 row ?f ?s] => assert (G : I row (for_loop 0 row f s))
  end.
  { apply (for_loop_inv I); unfold I; [exact Hrow | |].
    - cbn [fst snd]. split.
      + intros c Hc. rewrite unvisited_cells by exact Hc. lia.
      + intros k'. unfold zeros.
        destruct (Z.leb_spec 1 k'); destruct (Z.leb_spec k' 0); cbn [andb];
          try reflexivity; lia.
    - intros t [tv cnt] Ht [I1 I2]. cbn [fst snd] in I1, I2.
      assert (Hn : forall k', k' <> t + 1 ->
                (if (1 <=? k') && (k' <=? t + 1)
                 then std_length S vec (k' - 1) else 0)
                = if (1 <=? k') && (k' <=? t) then std_length S vec (k' - 1) else 0).
      { intros k' Hk'. destruct (Z.leb_spec 1 k'); destruct (Z.leb_spec k' (t + 1));
          destruct (Z.leb_spec k' t); cbn [andb]; try reflexivity; lia. }
      assert (Hs : (1 <=? t + 1) && (t + 1 <=? t + 1) = true).
      { destruct (Z.leb_spec 1 (t + 1)); destruct (Z.leb_spec (t + 1) (t + 1));
          cbn [andb]; try reflexivity; lia. }
      destruct (Z.eqb_spec (vec t) FGPT) as [Ef | Ef].
      + rewrite count_row_fold.
        destruct (std_count_scan t (std_candidates S vec t) tv cnt [] (NoDup_nil Z))
          as (G1 & G2 & G3).
        { intros c Hc. pose proof (I1 c (candidates_range t c Ht Hc)).
          cbn [In]. split; [lia | tauto]. }
        cbv zeta in G1, G2, G3. split.
        * intros c Hc. destruct (G3 c) as [-> | ->]; [lia|].
          pose proof (I1 c Hc). lia.
        * intros k'. destruct (Z.eq_dec k' (t + 1)) as [-> | Hne].
          -- rewrite G1, Hs, I2. replace (t + 1 - 1) with t by lia.
             unfold std_length, std_row, firsts. rewrite Ef. cbn [Z.eqb FGPT].
             destruct (Z.leb_spec 1 (t + 1)); destruct (Z.leb_spec (t + 1) t);
               cbn [andb length]; lia.
          -- rewrite G2 by exact Hne. rewrite Hn by exact Hne. apply I2.
      + assert (Hl : std_length S vec t = if vec t =? ISPT then 0 else 1).
        { unfold std_length, std_row.
          destruct (Z.eqb_spec (vec t) FGPT); [contradiction|].
          now destruct (vec t =? ISPT). }
        destruct (vec t =? ISPT); cbn [fst snd]; (split; [intros c Hc;
          pose proof (I1 c Hc); lia|]); intros k';
          (destruct (Z.eq_dec k' (t + 1)) as [-> | Hne];
           [rewrite upd_same, Hs; replace (t + 1 - 1) with t by lia; now rewrite Hl
           |rewrite upd_other by exact Hne; rewrite Hn by exact Hne; apply I2]). }
  unfold I in G. apply G.
Qed.

(** Step 2 leaves in each row its columns. *)
Lemma std_columns_spec (tv0 pia : arr Z) :
  (forall k, 0 <= k <= row -> pia k = std_offset S vec k) ->
  forall i, 0 <= i < row ->
            map (snd (std_columns S vec row tv0 pia)) (zrange (pia i) (pia (i + 1)))
            = std_row S vec i.
Proof.
  intros Hp. unfold std_columns.
  pose (I := fun t (st : arr Z * arr Z) =>
               (forall c, 0 <= c < row -> fst st c < t) /\
               forall i, 0 <= i < t ->
                         map (snd st) (zrange (pia i) (pia (i + 1))) = std_row S vec i).
  match goal with
  | |- context [for_loop 0 row ?f ?s] => assert (G : I row (for_loop 0 row f s))
  end.
  { apply (for_loop_inv I); unfold I; [exact Hrow | |].
    - cbn [fst snd]. split.
      + intros c Hc. rewrite unvisited_cells by exact Hc. lia.
      + intros i Hi. lia.
    - intros t [tv pja] Ht [I1 I2]. cbn [fst snd] in I1, I2.
      assert (Et : pia (t + 1) = pia t + Z.of_nat (length (std_row S vec t))).
      { rewrite !Hp by lia. rewrite std_offset_succ by lia. reflexivity. }
      assert (Hb : forall i, 0 <= i < t -> pia (i + 1) <= pia t).
      { intros i Hi. rewrite !Hp by lia. apply std_offset_le; lia. }
      destruct (Z.eqb_spec (vec t) FGPT) as [Ef | Ef].
      + rewrite fill_row_fold.
        destruct (std_fill_scan pia t (std_candidates S vec t) tv pja []
                    (NoDup_nil Z)) as (G1 & G2 & G3).
        { intros c Hc. pose proof (I1 c (candidates_range t c Ht Hc)).
          cbn [In]. split; [lia | tauto]. }
        { intros k Hk. cbn [length] in Hk. lia. }
        cbv zeta in G1, G2, G3. cbn [length] in G1, G2, G3.
        change (Z.of_nat 0) with 0 in G1, G2, G3.
        destruct (fold_left _ (std_candidates S vec t) (tv, 0, pja))
          as [[tv' idx] pja'].
        cbn [fst snd] in *. split.
        * intros c Hc. destruct (G3 c) as [-> | ->]; [lia|].
          pose proof (I1 c Hc). lia.
        * intros i Hi. destruct (Z.eq_dec i t) as [-> | Hne].
          -- rewrite Et. unfold std_row at 1 2. rewrite Ef. cbn [Z.eqb FGPT].
             unfold firsts. now apply cells_as_list.
          -- rewrite <- (I2 i ltac:(lia)). apply map_ext_in.
             intros p Hq. apply zrange_In in Hq. apply G2.
             pose proof (Hb i ltac:(lia)). lia.
      + assert (Hl : std_row S vec t = if vec t =? ISPT then [] else [t]).
        { unfold std_row. destruct (Z.eqb_spec (vec t) FGPT); [contradiction|].
          reflexivity. }
        rewrite Hl in Et.
        destruct (vec t =? ISPT); cbn [fst snd length] in *;
          (split; [intros c Hc; pose proof (I1 c Hc); lia|]); intros i Hi;
          (destruct (Z.eq_dec i t) as [-> | Hne];
           [rewrite Et, Hl
           |rewrite <- (I2 i ltac:(lia))]).
        * rewrite zrange_empty by lia. reflexivity.
        * reflexivity.
        * rewrite zrange_first, zrange_empty by lia. cbn [map]. now rewrite upd_same.
        * apply map_ext_in. intros p Hq. apply zrange_In in Hq.
          pose proof (Hb i ltac:(lia)). now rewrite upd_other by lia. }
  unfold I in G. apply G.
Qed.

End Pattern.

(** The rows of the pattern are the rows it is to hold. *)
Lemma std_pattern_rows (P : dCSRmat) (S : iCSRmat) (vec : arr Z)
  (rows cols i : Z) :
  0 <= rows -> graph_cols S rows -> 0 <= i < rows ->
  row_cols (generate_sparsity_P_std P S vec rows cols) i = std_row S vec i.
Proof.
  intros Hrow Hcols Hi. unfold generate_sparsity_P_std.
  pose proof (std_counts_spec S vec rows Hrow Hcols) as Hc.
  destruct (std_counts S vec rows) as [tv counts]. cbn [snd] in Hc. cbv zeta.
  assert (Ho : forall k, 0 <= k <= rows ->
                         sparsity_offsets rows counts k = std_offset S vec k).
  { intros k Hk. unfold std_offset.
    now apply (offsets_of_counts (std_length S vec)). }
  unfold row_cols, positions. cbn [IA JA].
  now apply (std_columns_spec S vec rows Hrow Hcols tv
               (sparsity_offsets rows counts) Ho).
Qed.

Lemma fan_graph_cols : graph_cols fan 5.
Proof.
  intros i p Hi Hp.
  assert (Hc : i = 0 \/ i = 1 \/ i = 2 \/ i = 3 \/ i = 4) by lia.
  destruct Hc as [-> | [-> | [-> | [-> | ->]]]].
  - change (0 <= p < 3) in Hp.
    assert (Hq : p = 0 \/ p = 1 \/ p = 2) by lia.
    destruct Hq as [-> | [-> | ->]]; vm_compute; split; congruence.
  - change (3 <= p < 5) in Hp.
    assert (Hq : p = 3 \/ p = 4) by lia.
    destruct Hq as [-> | ->]; vm_compute; split; congruence.
  - change (5 <= p < 5) in Hp. lia.
  - change (5 <= p < 5) in Hp. lia.
  - change (5 <= p < 5) in Hp. lia.
Qed.

(** X26 (generate_sparsity_P_std, coarsening_rs.c): for a graph [S] whose
    columns are vertices, the pattern has [rows] rows and [cols] columns,
    offsets from [0] to [nnz] that grow by the length of each row, and
    zero values.  The row of a fine vertex [i] holds, each one once, the
    coarse vertices that [i] depends on strongly or that a fine strong
    neighbour of [i] other than [i] depends on strongly; the row of an
    isolated vertex is empty; the row of any other vertex (coarse, but
    also undecided) holds the vertex itself.  The columns are fine-level
    numbers. *)
Theorem sparsity_P_std_pattern (P : dCSRmat) (S : iCSRmat) (vec : arr Z)
  (rows cols : Z) :
  0 <= rows -> graph_cols S rows ->
  let Q := generate_sparsity_P_std P S vec rows cols in
  row Q = rows /\ col Q = cols /\ IA Q 0 = 0 /\ IA Q rows = nnz Q /\
  (forall i, 0 <= i < rows ->
             IA Q (i + 1) = IA Q i + Z.of_nat (length (row_cols Q i)) /\
             (vec i = FGPT ->
              NoDup (row_cols Q i) /\
              forall c, In c (row_cols Q i) <->
                        vec c = CGPT /\
                        (neighbour S i c \/
                         exists k, vec k = FGPT /\ k <> i /\
                                   neighbour S i k /\ neighbour S k c)) /\
             (vec i = ISPT -> row_cols Q i = []) /\
             (vec i <> FGPT -> vec i <> ISPT -> row_cols Q i = [i])) /\
  (forall p, aval Q p = 0%Q).
Proof.
  intros Hrow Hcols. cbv zeta. unfold generate_sparsity_P_std.
  pose proof (std_counts_spec S vec rows Hrow Hcols) as Hc.
  destruct (std_counts S vec rows) as [tv counts]. cbn [snd] in Hc. cbv zeta.
  cbn [row col nnz IA JA].
  assert (Ho : forall k, 0 <= k <= rows ->
                         sparsity_offsets rows counts k = std_offset S vec k).
  { intros k Hk. unfold std_offset.
    now apply (offsets_of_counts (std_length S vec)). }
  pose proof (std_columns_spec S vec rows Hrow Hcols tv
                (sparsity_offsets rows counts) Ho) as Hj.
  assert (E0 : sparsity_offsets rows counts 0 = 0).
  { rewrite Ho by lia. reflexivity. }
  split; [reflexivity|]. split; [reflexivity|]. split; [exact E0|].
  split; [lia|]. split; [|reflexivity].
  intros i Hi.
  assert (Er : row_cols
                 {| row := rows; col := cols;
                    nnz := sparsity_offsets rows counts rows
                           - sparsity_offsets rows counts 0;
                    IA := sparsity_offsets rows counts;
                    JA := snd (std_columns S vec rows tv
                                 (sparsity_offsets rows counts));
                    val := Some (zeros 0%Q) |} i
               = std_row S vec i).
  { unfold row_cols, positions. cbn [IA JA]. now apply Hj. }
  rewrite Er. split; [|split; [|split]].
  - rewrite !Ho by lia. apply std_offset_succ. lia.
  - intros Ef. unfold std_row. rewrite Ef. cbn [Z.eqb FGPT].
    destruct (firsts_spec (std_candidates S vec i)) as [Hn Hm].
    split; [exact Hn|]. intros c. rewrite Hm. apply candidates_spec.
  - intros Es. unfold std_row. rewrite Es. reflexivity.
  - intros Hf Hs. unfold std_row.
    destruct (Z.eqb_spec (vec i) FGPT); [contradiction|].
    destruct (Z.eqb_spec (vec i) ISPT); [contradiction|]. reflexivity.
Qed.

Lemma sparsity_P_std_pattern_witness :
  let Q := generate_sparsity_P_std Samples.empty_matrix fan fan_labels 5 2 in
  row Q = 5 /\ col Q = 2 /\ IA Q 0 = 0 /\ IA Q 5 = nnz Q /\
  (forall i, 0 <= i < 5 ->
             IA Q (i + 1) = IA Q i + Z.of_nat (length (row_cols Q i)) /\
             (fan_labels i = FGPT ->
              NoDup (row_cols Q i) /\
              forall c, In c (row_cols Q i) <->
                        fan_labels c = CGPT /\
                        (neighbour fan i c \/
                         exists k, fan_labels k = FGPT /\ k <> i /\
                                   neighbour fan i k /\ neighbour fan k c)) /\
             (fan_labels i = ISPT -> row_cols Q i = []) /\
             (fan_labels i <> FGPT -> fan_labels i <> ISPT -> row_cols Q i = [i])) /\
  (forall p, aval Q p = 0%Q).
Proof.
  exact (sparsity_P_std_pattern Samples.empty_matrix fan fan_labels 5 2
           ltac:(lia) fan_graph_cols).
Defined.

(** On the sample the first row takes the third vertex once, though it
    comes across it three times, and the fourth over the second vertex. *)
Example fan_pattern :
  let Q := generate_sparsity_P_std Samples.empty_matrix fan fan_labels 5 2 in
  (map (IA Q) (zrange 0 6), map (JA Q) (zrange 0 (nnz Q)))
  = ([0; 2; 4; 5; 6; 6], [2; 3; 2; 3; 2; 3]).
Proof. reflexivity. Qed.

End SparsityStdFacts.

From Stdlib Require Import Permutation.

(* ------------------------------------------------------------------ *)
(** ** orderone: entries in order, equal places added up *)

Module AssemblingFacts.
Import Rows Transposed SparseOps Ordering Transposing TransposeFacts PermFacts
  TripletFacts Assembling.

(** *** The copies and the passes *)

Lemma copy_entries_spec (n : Z) (src dst : triplets) (i : Z) :
  triplet (copy_entries n src dst) i
  = if (0 <=? i) && (i <? n) then triplet src i else triplet dst i.
Proof.
  unfold copy_entries. destruct (Z.le_gt_cases 0 n) as [Hn | Hn].
  - revert i.
    apply (for_loop_inv
             (fun t d => forall i, triplet d i
                                   = if (0 <=? i) && (i <? t) then triplet src i
                                     else triplet dst i)); [exact Hn | |].
    + intros i. destruct (Z.leb_spec 0 i); destruct (Z.ltb_spec i 0); cbn [andb];
        try reflexivity; lia.
    + intros t d Ht IH i. specialize (IH i). unfold triplet in *.
      cbn [ent_row ent_col ent_val].
      destruct (Z.eq_dec i t) as [-> | Hne].
      * rewrite !upd_same.
        destruct (Z.leb_spec 0 t); destruct (Z.ltb_spec t (t + 1)); cbn [andb];
          try reflexivity; lia.
      * rewrite !upd_other by exact Hne. rewrite IH.
        destruct (Z.leb_spec 0 i); destruct (Z.ltb_spec i (t + 1));
          destruct (Z.ltb_spec i t); cbn [andb]; try reflexivity; lia.
  - rewrite for_loop_empty by lia.
    destruct (Z.leb_spec 0 i); destruct (Z.ltb_spec i n); cbn [andb];
      try reflexivity; lia.
Qed.

Lemma copy_entries_in (n : Z) (src dst : triplets) (i : Z) :
  0 <= i < n -> triplet (copy_entries n src dst) i = triplet src i.
Proof.
  intros Hi. rewrite copy_entries_spec.
  destruct (Z.leb_spec 0 i); destruct (Z.ltb_spec i n); cbn [andb];
    try reflexivity; lia.
Qed.

Lemma transpose_places (inp out : triplets) (nca N : Z) :
  0 <= N ->
  (forall i, 0 <= i < N -> 0 <= ent_col inp i < nca) ->
  forall i, 0 <= i < N ->
            triplet (fasp_dcsr_transpose inp out nca N) (dest (ent_col inp) N i)
            = flipped inp i.
Proof.
  intros HN Hcols. unfold fasp_dcsr_transpose. cbv zeta.
  set (izc := for_loop 0 N _ (zeros 0)).
  assert (Hizc : forall c, izc c = count (ent_col inp) c N)
    by (apply tally_loop; exact HN).
  set (izcaux := for_loop 1 nca _ (upd (zeros 0) 0 0)).
  assert (Haux : forall c, 0 <= c < nca -> izcaux c = below (ent_col inp) c N)
    by (apply offsets_loop; assumption).
  set (izc0 := for_loop 0 nca (fun izc i => upd izc i 0) izc).
  assert (Hz : forall c, 0 <= c < nca -> izc0 c = 0).
  { intros c Hc. unfold izc0. rewrite (cellwise_loop (fun _ _ => 0)).
    destruct (Z.leb_spec 0 c); destruct (Z.ltb_spec c nca); cbn [andb]; lia. }
  pose proof (transpose_pass inp out nca N izc0 izcaux HN Hcols Hz Haux) as H.
  destruct (for_loop 0 N _ (izc0, out)) as [izc' res].
  destruct H as (_ & Hd & _). exact Hd.
Qed.

(** One block of [orderone]: the entries by their columns, rows and
    columns exchanged. *)
Lemma transposed_back_spec (N : Z) (s : locals) :
  0 <= N ->
  (forall i, 0 <= i < N -> 0 <= ent_col (front s) i < nns1 s) ->
  nns0 (transposed_back N N s) = nns1 s /\
  nns1 (transposed_back N N s) = nns0 s /\
  exists place : arr Z,
    permutes N place /\
    (forall i, 0 <= i < N ->
               triplet (front (transposed_back N N s)) (place i) = flipped (front s) i) /\
    (forall i i', 0 <= i < N -> 0 <= i' < N ->
                  ent_col (front s) i < ent_col (front s) i' \/
                  (ent_col (front s) i = ent_col (front s) i' /\ i < i') ->
                  place i < place i').
Proof.
  intros HN Hcols. unfold transposed_back. cbv zeta. cbn [front back nns0 nns1].
  split; [reflexivity|]. split; [reflexivity|].
  exists (dest (ent_col (front s)) N).
  assert (Hr : forall i, 0 <= i < N -> 0 <= dest (ent_col (front s)) N i < N).
  { intros i Hi. apply (place_range (ent_col (front s))); assumption. }
  split; [|split].
  - split; [exact Hr|]. intros i i' Hi Hi' E.
    destruct (Z.lt_trichotomy i i') as [L | [-> | G]]; [|reflexivity|].
    + exfalso.
      exact (dest_apart N (ent_col (front s)) i i' ltac:(lia) L ltac:(lia) E).
    + exfalso.
      exact (dest_apart N (ent_col (front s)) i' i ltac:(lia) G ltac:(lia) (eq_sym E)).
  - intros i Hi. rewrite copy_entries_in by now apply Hr.
    now apply transpose_places.
  - intros i i' Hi Hi' Ho. apply place_order; assumption.
Qed.

(** Two blocks: the entries by their rows and then by their columns. *)
Lemma sorted_by_two_passes (N : Z) (s : locals) :
  0 <= N ->
  (forall i, 0 <= i < N -> 0 <= ent_row (front s) i < nns0 s /\
                           0 <= ent_col (front s) i < nns1 s) ->
  nns0 (transposed_back N N (transposed_back N N s)) = nns0 s /\
  nns1 (transposed_back N N (transposed_back N N s)) = nns1 s /\
  sorted_copy N (front s) (front (transposed_back N N (transposed_back N N s))).
Proof.
  intros HN Hin.
  destruct (transposed_back_spec N s HN) as (E0 & E1 & p1 & Hp1 & Hc1 & Ho1).
  { intros i Hi. now apply Hin. }
  remember (transposed_back N N s) as s1 eqn:Es1. clear Es1.
  destruct (transposed_back_spec N s1 HN) as (F0 & F1 & p2 & Hp2 & Hc2 & Ho2).
  { intros q Hq. destruct (image_onto N p1 Hp1 q Hq) as (i & Hi & <-).
    pose proof (Hc1 i Hi) as E. unfold triplet, flipped in E.
    injection E as _ E _. rewrite E, E1. now apply Hin. }
  remember (transposed_back N N s1) as s2 eqn:Es2. clear Es2.
  split; [congruence|]. split; [congruence|].
  destruct Hp1 as [R1 I1]. destruct Hp2 as [R2 I2].
  exists (fun i => p2 (p1 i)). split; [|split].
  - split.
    + intros i Hi. apply R2. now apply R1.
    + intros i i' Hi Hi' E. apply I1; try assumption.
      apply I2; try assumption; now apply R1.
  - intros i Hi. rewrite (Hc2 (p1 i)) by now apply R1.
    pose proof (Hc1 i Hi) as E. unfold triplet, flipped in *.
    injection E as Ea Eb Ec. now rewrite Ea, Eb, Ec.
  - intros i i' Hi Hi' Ho.
    pose proof (Hc1 i Hi) as E. pose proof (Hc1 i' Hi') as E'.
    unfold triplet, flipped in E, E'.
    injection E as Ea Eb _. injection E' as Ea' Eb' _.
    apply Ho2; [now apply R1 | now apply R1 |]. rewrite Eb, Eb'.
    unfold precedes, same_place in Ho.
    destruct Ho as [[L | [Er L]] | [[Er Ec] L]].
    + left. exact L.
    + right. split; [exact Er|]. apply Ho1; try assumption. left. exact L.
    + right. split; [exact Er|]. apply Ho1; try assumption. right. now split.
Qed.

(** *** What a sorted copy keeps *)

Section Sorted.
Variables (N : Z) (a b : triplets).
Hypothesis Hab : sorted_copy N a b.

Lemma sorted_copy_perm :
  Permutation (map (triplet b) (zrange 0 N)) (map (triplet a) (zrange 0 N)).
Proof.
  destruct Hab as (place & HP & Hc & _).
  rewrite <- (map_ext_in (fun i => triplet b (place i)) (triplet a) (zrange 0 N))
    by (intros i Hi; apply zrange_In in Hi; now apply Hc).
  rewrite <- (map_map place (triplet b)).
  apply Permutation_map. symmetry. apply (images_perm N place HP).
Qed.

Lemma sorted_copy_from (i : Z) :
  0 <= i < N -> exists q, 0 <= q < N /\ triplet b q = triplet a i.
Proof.
  intros Hi. destruct Hab as (place & [HR _] & Hc & _).
  exists (place i). split; [now apply HR | now apply Hc].
Qed.

Lemma sorted_copy_origin (q q' : Z) :
  0 <= q -> q < q' -> q' < N ->
  exists i i', 0 <= i < N /\ 0 <= i' < N /\
               triplet b q = triplet a i /\ triplet b q' = triplet a i' /\
               (precedes a i i' \/ (same_place a i i' /\ i < i')).
Proof.
  intros H0 H1 H2. destruct Hab as (place & HP & Hc & Ho).
  destruct (image_onto N place HP q ltac:(lia)) as (i & Hi & Ei).
  destruct (image_onto N place HP q' ltac:(lia)) as (i' & Hi' & Ei').
  exists i, i'. rewrite <- Ei, <- Ei', !Hc by assumption.
  split; [exact Hi|]. split; [exact Hi'|]. split; [reflexivity|].
  split; [reflexivity|].
  assert (Hn : ~ (precedes a i' i \/ (same_place a i' i /\ i' < i))).
  { intros Hb. pose proof (Ho i' i Hi' Hi Hb). lia. }
  assert (Hd : i <> i') by (intros ->; lia).
  unfold precedes, same_place in *. lia.
Qed.

Lemma sorted_copy_to (q : Z) :
  0 <= q < N -> exists i, 0 <= i < N /\ triplet b q = triplet a i.
Proof.
  intros Hq. destruct Hab as (place & HP & Hc & _).
  destruct (image_onto N place HP q Hq) as (i & Hi & <-).
  exists i. split; [exact Hi | now apply Hc].
Qed.

Lemma sorted_copy_ordered (q q' : Z) :
  0 <= q -> q < q' -> q' < N -> precedes b q q' \/ same_place b q q'.
Proof.
  intros H0 H1 H2.
  destruct (sorted_copy_origin q q' H0 H1 H2) as (i & i' & _ & _ & E & E' & Ho).
  unfold triplet in E, E'. injection E as Ea Eb _. injection E' as Ea' Eb' _.
  unfold precedes, same_place in *. lia.
Qed.

End Sorted.

(** *** The sums of the values at a place *)

Lemma summed_as_list (t : triplets) (n r c : Z) :
  summed t n r c
  = qsum (map snd
            (filter (fun e : Z * Z * Q => (fst (fst e) =? r) && (snd (fst e) =? c))
               (map (triplet t) (zrange 0 n)))).
Proof.
  unfold summed. induction (zrange 0 n) as [|j l IH]; [reflexivity|].
  cbn [map filter].
  change (fst (fst (triplet t j))) with (ent_row t j).
  change (snd (fst (triplet t j))) with (ent_col t j).
  destruct ((ent_row t j =? r) && (ent_col t j =? c)); [|exact IH].
  cbn [map qsum]. rewrite IH. reflexivity.
Qed.

Lemma summed_perm (a b : triplets) (N r c : Z) :
  Permutation (map (triplet b) (zrange 0 N)) (map (triplet a) (zrange 0 N)) ->
  (summed b N r c == summed a N r c)%Q.
Proof.
  intros HP. rewrite !summed_as_list.
  apply DirectInterpFacts.qsum_perm, Permutation_map, DirectInterpFacts.filter_perm.
  exact HP.
Qed.

Lemma summed_ext (a b : triplets) (N r c : Z) :
  (forall i, 0 <= i < N -> triplet b i = triplet a i) ->
  summed b N r c = summed a N r c.
Proof.
  intros H. rewrite !summed_as_list. do 3 f_equal.
  apply map_ext_in. intros i Hi. apply zrange_In in Hi. now apply H.
Qed.

Lemma summed_succ (t : triplets) (n r c : Z) :
  0 <= n ->
  (summed t (n + 1) r c
   == summed t n r c
      + (if (ent_row t n =? r) && (ent_col t n =? c) then ent_val t n else 0))%Q.
Proof.
  intros Hn. unfold summed. rewrite zrange_last by exact Hn.
  rewrite filter_app, map_app, DirectInterpFacts.qsum_app. cbn [filter].
  destruct ((ent_row t n =? r) && (ent_col t n =? c)); cbn [map qsum]; ring.
Qed.

Lemma summed_none (t : triplets) (n r c : Z) :
  (forall j, 0 <= j < n -> ~ (ent_row t j = r /\ ent_col t j = c)) ->
  summed t n r c = 0%Q.
Proof.
  intros H. unfold summed. rewrite filter_none; [reflexivity|].
  intros j Hj. apply zrange_In in Hj. specialize (H j Hj).
  destruct (Z.eqb_spec (ent_row t j) r); destruct (Z.eqb_spec (ent_col t j) c);
    cbn [andb]; try reflexivity. exfalso. apply H. now split.
Qed.

Lemma summed_rest (t : triplets) (n N r c : Z) :
  0 <= n <= N ->
  (forall j, n <= j < N -> ~ (ent_row t j = r /\ ent_col t j = c)) ->
  summed t N r c = summed t n r c.
Proof.
  intros Hn H. unfold summed. rewrite (zrange_split 0 n N) by exact Hn.
  rewrite filter_app. rewrite (filter_none _ (zrange n N)).
  - now rewrite app_nil_r.
  - intros j Hj. apply zrange_In in Hj. specialize (H j Hj).
    destruct (Z.eqb_spec (ent_row t j) r); destruct (Z.eqb_spec (ent_col t j) c);
      cbn [andb]; try reflexivity. exfalso. apply H. now split.
Qed.

Lemma repeated_spec (t : triplets) (N i : Z) :
  repeated t N i = true <-> i + 1 < N /\ same_place t i (i + 1).
Proof.
  unfold repeated, same_place.
  destruct (Z.ltb_spec (i + 1) N);
    destruct (Z.eqb_spec (ent_row t i) (ent_row t (i + 1)));
    destruct (Z.eqb_spec (ent_col t i) (ent_col t (i + 1))); cbn [andb];
    split; try discriminate; try tauto; intros; lia.
Qed.

(** *** Equal places added up *)

Section Merging.
Variables (t : triplets) (N n0 n1 : Z).
Hypothesis Hsorted : forall q q', 0 <= q -> q < q' -> q' < N ->
                                  precedes t q q' \/ same_place t q q'.

Lemma sorted_from (q q' : Z) :
  0 <= q -> q <= q' -> q' < N ->
  precedes t q q' \/ same_place t q q'.
Proof.
  intros H0 H1 H2. destruct (Z.eq_dec q q') as [-> | Hne].
  - right. split; reflexivity.
  - apply Hsorted; lia.
Qed.

(** The sum of a run of equal places grows entry by entry. *)
Lemma run_sum_next (k : Z) :
  0 <= k -> k + 1 < N ->
  Qeq (summed t (k + 1 + 1) (ent_row t (k + 1)) (ent_col t (k + 1)))
      (Qplus (ent_val t (k + 1))
         (if repeated t N k then summed t (k + 1) (ent_row t k) (ent_col t k)
          else 0%Q)).
Proof.
  intros Hk Hk1. rewrite summed_succ by lia. rewrite !Z.eqb_refl. cbn [andb].
  destruct (repeated t N k) eqn:Er.
  - apply repeated_spec in Er. destruct Er as (_ & Ea & Eb).
    rewrite <- Ea, <- Eb. ring.
  - rewrite summed_none; [ring|]. intros j Hj [Ea Eb].
    assert (Hn : ~ (k + 1 < N /\ same_place t k (k + 1))).
    { intros Hr. apply repeated_spec in Hr. congruence. }
    pose proof (sorted_from j k ltac:(lia) ltac:(lia) ltac:(lia)) as H1.
    pose proof (Hsorted k (k + 1) ltac:(lia) ltac:(lia) ltac:(lia)) as H2.
    unfold precedes, same_place in *. lia.
Qed.

(** The sum of a run is the sum of the place once the run is over. *)
Lemma run_sum_done (i : Z) :
  0 <= i < N -> repeated t N i = false ->
  summed t N (ent_row t i) (ent_col t i)
  = summed t (i + 1) (ent_row t i) (ent_col t i).
Proof.
  intros Hi Er. apply summed_rest; [lia|]. intros j Hj [Ea Eb].
  assert (Hn : ~ (i + 1 < N /\ same_place t i (i + 1))).
  { intros Hr. apply repeated_spec in Hr. congruence. }
  pose proof (Hsorted i (i + 1) ltac:(lia) ltac:(lia) ltac:(lia)) as H1.
  pose proof (sorted_from (i + 1) j ltac:(lia) ltac:(lia) ltac:(lia)) as H2.
  unfold precedes, same_place in *. lia.
Qed.

Lemma merge_equal_spec (i : Z) :
  0 <= i < N ->
  if repeated t N i
  then ent_row (merge_equal n0 n1 N t) i = n0 /\
       ent_col (merge_equal n0 n1 N t) i = n1
  else ent_row (merge_equal n0 n1 N t) i = ent_row t i /\
       ent_col (merge_equal n0 n1 N t) i = ent_col t i /\
       (ent_val (merge_equal n0 n1 N t) i
        == summed t N (ent_row t i) (ent_col t i))%Q.
Proof.
  intros Hi. unfold merge_equal.
  pose (I := fun k (cur : triplets) =>
               (forall i, k <= i -> ent_row cur i = ent_row t i /\
                                    ent_col cur i = ent_col t i) /\
               (forall i, 0 <= i < k ->
                          if repeated t N i
                          then ent_row cur i = n0 /\ ent_col cur i = n1
                          else ent_row cur i = ent_row t i /\
                               ent_col cur i = ent_col t i) /\
               (forall i, k < i -> ent_val cur i = ent_val t i) /\
               (forall i, 0 <= i <= k ->
                          (ent_val cur i
                           == summed t (i + 1) (ent_row t i) (ent_col t i))%Q)).
  match goal with
  | |- context [for_loop 0 (N - 1) ?f t] =>
      assert (G : I (N - 1) (for_loop 0 (N - 1) f t))
  end.
  { apply (for_loop_inv I); unfold I; [lia | |].
    - split; [intros; split; reflexivity|]. split; [intros; lia|].
      split; [reflexivity|]. intros j Hj. replace j with 0 by lia.
      rewrite summed_succ by lia. rewrite !Z.eqb_refl. cbn [andb].
      rewrite summed_none by (intros; lia). ring.
    - intros k cur Hk (Ia & Ib & Ic & Id).
      destruct (Ia k ltac:(lia)) as [Rk Ck].
      destruct (Ia (k + 1) ltac:(lia)) as [Rk1 Ck1].
      rewrite Rk, Ck, Rk1, Ck1.
      assert (Et : (ent_row t k =? ent_row t (k + 1))
                   && (ent_col t k =? ent_col t (k + 1)) = repeated t N k).
      { unfold repeated. destruct (Z.ltb_spec (k + 1) N); [|lia].
        rewrite andb_true_l. reflexivity. }
      rewrite Et. pose proof (run_sum_next k ltac:(lia) ltac:(lia)) as Hs.
      destruct (repeated t N k) eqn:Er.
      + cbn [ent_row ent_col ent_val]. split; [|split; [|split]].
        * intros j Hj. rewrite !upd_other by lia. apply Ia. lia.
        * intros j Hj. destruct (Z.eq_dec j k) as [-> | Hne].
          -- rewrite Er, !upd_same. split; reflexivity.
          -- rewrite !upd_other by exact Hne. apply Ib. lia.
        * intros j Hj. rewrite upd_other by lia. apply Ic. lia.
        * intros j Hj. destruct (Z.eq_dec j (k + 1)) as [-> | Hne].
          -- rewrite upd_same, Hs, (Ic (k + 1)) by lia.
             rewrite (Id k) by lia. reflexivity.
          -- rewrite upd_other by exact Hne. apply Id. lia.
      + split; [|split; [|split]].
        * intros j Hj. apply Ia. lia.
        * intros j Hj. destruct (Z.eq_dec j k) as [-> | Hne].
          -- rewrite Er. split; assumption.
          -- apply Ib. lia.
        * intros j Hj. apply Ic. lia.
        * intros j Hj. destruct (Z.eq_dec j (k + 1)) as [-> | Hne].
          -- rewrite Hs, (Ic (k + 1)) by lia. ring.
          -- apply Id. lia. }
  destruct G as (Ga & Gb & Gc & Gd).
  destruct (Z.eq_dec i (N - 1)) as [-> | Hne].
  - assert (Er : repeated t N (N - 1) = false).
    { unfold repeated. destruct (Z.ltb_spec (N - 1 + 1) N); [lia|]. reflexivity. }
    rewrite Er. destruct (Ga (N - 1) ltac:(lia)) as [Ra Ca].
    split; [exact Ra|]. split; [exact Ca|].
    rewrite (Gd (N - 1)) by lia. now rewrite run_sum_done.
  - pose proof (Gb i ltac:(lia)) as Hb. destruct (repeated t N i) eqn:Er.
    + exact Hb.
    + destruct Hb as [Ra Ca]. split; [exact Ra|]. split; [exact Ca|].
      rewrite (Gd i) by lia. now rewrite run_sum_done.
Qed.

(** Every entry is in a run with a last entry. *)
Lemma run_end (i : Z) :
  0 <= i < N ->
  exists b, i <= b < N /\ same_place t i b /\ repeated t N b = false.
Proof.
  intros Hi. remember (Z.to_nat (N - i)) as d eqn:Ed. revert i Hi Ed.
  induction d as [|d IH]; intros i Hi Ed; [lia|].
  destruct (repeated t N i) eqn:Er.
  - apply repeated_spec in Er. destruct Er as (Hlt & Ea & Eb).
    destruct (IH (i + 1) ltac:(lia) ltac:(lia)) as (b & Hb & [Sa Sb] & Hr).
    exists b. split; [lia|]. split; [|exact Hr].
    split; congruence.
  - exists i. split; [lia|]. split; [|exact Er]. split; reflexivity.
Qed.

(** Two entries of one place are in a run. *)
Lemma run_between (i i' : Z) :
  0 <= i -> i < i' -> i' < N -> same_place t i i' -> repeated t N i = true.
Proof.
  intros H0 H1 H2 Hs. apply repeated_spec. split; [lia|].
  pose proof (Hsorted i (i + 1) ltac:(lia) ltac:(lia) ltac:(lia)) as Ha.
  pose proof (sorted_from (i + 1) i' ltac:(lia) ltac:(lia) ltac:(lia)) as Hb.
  unfold precedes, same_place in *. lia.
Qed.

End Merging.

(** The entries to keep come first when the rows ascend. *)
Lemma count_kept_spec (t : triplets) (n N : Z) :
  0 <= N ->
  (forall q q', 0 <= q -> q < q' -> q' < N -> ent_row t q <= ent_row t q') ->
  0 <= count_kept t n N <= N /\
  (forall k, 0 <= k < count_kept t n N -> ent_row t k < n - 1) /\
  (forall k, count_kept t n N <= k < N -> n - 1 <= ent_row t k).
Proof.
  intros HN Hs. unfold count_kept.
  apply (for_loop_inv
           (fun u (m : Z) =>
              0 <= m <= u /\
              (forall k, 0 <= k < m -> ent_row t k < n - 1) /\
              (forall k, m <= k < u -> n - 1 <= ent_row t k))); [exact HN | |].
  - split; [lia|]. split; intros; lia.
  - intros u m Hu (Hm & Ha & Hb). destruct (Z.ltb_spec (ent_row t u) (n - 1)) as [L | G].
    + assert (E : m = u).
      { destruct (Z.eq_dec m u) as [E | Hne]; [exact E|]. exfalso.
        pose proof (Hb m ltac:(lia)). pose proof (Hs m u ltac:(lia) ltac:(lia) ltac:(lia)).
        lia. }
      subst m. split; [lia|]. split.
      * intros k Hk. destruct (Z.eq_dec k u) as [-> | Hne]; [exact L|].
        apply Ha. lia.
      * intros k Hk. lia.
    + split; [lia|]. split; [exact Ha|].
      intros k Hk. destruct (Z.eq_dec k u) as [-> | Hne]; [exact G|].
      apply Hb. lia.
Qed.

(** *** The entries that are kept *)

Section Kept.
Variables (srt m fin : triplets) (N n0 n1 : Z).
Hypothesis Hsorted : forall q q', 0 <= q -> q < q' -> q' < N ->
                                  precedes srt q q' \/ same_place srt q q'.
Hypothesis Hm : forall i, 0 <= i < N ->
  if repeated srt N i then ent_row m i = n0 /\ ent_col m i = n1
  else ent_row m i = ent_row srt i /\ ent_col m i = ent_col srt i /\
       Qeq (ent_val m i) (summed srt N (ent_row srt i) (ent_col srt i)).
Hypothesis Hfin : sorted_copy N m fin.

Lemma kept_entry (q : Z) :
  0 <= q < N -> ent_row fin q < n0 ->
  (exists i, 0 <= i < N /\ ent_row srt i = ent_row fin q /\
             ent_col srt i = ent_col fin q) /\
  Qeq (ent_val fin q) (summed srt N (ent_row fin q) (ent_col fin q)).
Proof.
  intros Hq Hlt. destruct (sorted_copy_to N m fin Hfin q Hq) as (i & Hi & E).
  unfold triplet in E. injection E as Ea Eb Ec.
  pose proof (Hm i Hi) as H. destruct (repeated srt N i).
  - destruct H as [Hr _]. lia.
  - destruct H as (Hr & Hc & Hv). rewrite Ea, Eb, Ec, Hr, Hc.
    split; [|exact Hv]. exists i. split; [exact Hi|]. split; reflexivity.
Qed.

Lemma kept_strict (q q' : Z) :
  0 <= q -> q < q' -> q' < N -> ent_row fin q < n0 -> ent_row fin q' < n0 ->
  precedes fin q q'.
Proof.
  intros H0 H1 H2 L L'.
  destruct (sorted_copy_origin N m fin Hfin q q' H0 H1 H2)
    as (i & i' & Hi & Hi' & E & E' & Ho).
  unfold triplet in E, E'. injection E as Ea Eb _. injection E' as Ea' Eb' _.
  destruct Ho as [Hp | [Hs Hlt]].
  - unfold precedes in *. lia.
  - exfalso. pose proof (Hm i Hi) as H. pose proof (Hm i' Hi') as H'.
    destruct (repeated srt N i) eqn:Er; [destruct H; lia|].
    destruct (repeated srt N i') eqn:Er'; [destruct H'; lia|].
    destruct H as (Hr & Hc & _). destruct H' as (Hr' & Hc' & _).
    assert (Hrun : repeated srt N i = true).
    { apply run_between with (i' := i'); try assumption; try lia.
      unfold same_place in *. lia. }
    congruence.
Qed.

Lemma kept_covers (i : Z) :
  0 <= i < N ->
  exists q, 0 <= q < N /\ ent_row fin q = ent_row srt i /\
            ent_col fin q = ent_col srt i.
Proof.
  intros Hi. destruct (run_end srt N i Hi) as (b & Hb & [Sa Sb] & Er).
  destruct (sorted_copy_from N m fin Hfin b ltac:(lia)) as (q & Hq & E).
  unfold triplet in E. injection E as Ea Eb _.
  pose proof (Hm b ltac:(lia)) as H. rewrite Er in H. destruct H as (Hr & Hc & _).
  exists q. split; [exact Hq|]. split; congruence.
Qed.

End Kept.

Lemma repeated_entries_range (i : Z) :
  0 <= i < repeated_sizes 2 ->
  0 <= ent_row repeated_entries i < repeated_sizes 0 /\
  0 <= ent_col repeated_entries i < repeated_sizes 1.
Proof.
  intros Hi. change (0 <= i < 6) in Hi.
  assert (E : i = 0 \/ i = 1 \/ i = 2 \/ i = 3 \/ i = 4 \/ i = 5) by lia.
  destruct E as [-> | [-> | [-> | [-> | [-> | ->]]]]]; vm_compute;
    repeat split; congruence.
Qed.

(** X27 (orderone, interpolation.c): for [lengths[2]] entries whose rows
    and columns lie in the sizes [lengths[0]] and [lengths[1]], the sizes
    stay, and the new [lengths[2]] first entries are the places of the
    entries given, each place once, in the order of the rows and then of
    the columns; the value at a place is the sum of the values given at
    it (a place stays even when the sum is zero).  The cells from the new
    [lengths[2]] on are as they were. *)
Theorem orderone_assembles (mat : triplets) (lengths : arr Z) :
  0 <= lengths 2 ->
  (forall i, 0 <= i < lengths 2 ->
             0 <= ent_row mat i < lengths 0 /\ 0 <= ent_col mat i < lengths 1) ->
  let out := fst (orderone mat lengths) in
  let sizes := snd (orderone mat lengths) in
  sizes 0 = lengths 0 /\ sizes 1 = lengths 1 /\ 0 <= sizes 2 <= lengths 2 /\
  (forall k k', 0 <= k -> k < k' -> k' < sizes 2 -> precedes out k k') /\
  (forall k, 0 <= k < sizes 2 ->
             (exists i, 0 <= i < lengths 2 /\
                        ent_row mat i = ent_row out k /\
                        ent_col mat i = ent_col out k) /\
             Qeq (ent_val out k)
                 (summed mat (lengths 2) (ent_row out k) (ent_col out k))) /\
  (forall i, 0 <= i < lengths 2 ->
             exists k, 0 <= k < sizes 2 /\
                       ent_row out k = ent_row mat i /\
                       ent_col out k = ent_col mat i) /\
  (forall q, q < 0 \/ sizes 2 <= q -> triplet out q = triplet mat q).
Proof.
  intros HN Hin. cbv zeta. unfold orderone. cbv zeta.
  remember (lengths 2) as N eqn:EN.
  remember (copy_entries N mat blank) as inp eqn:Einp.
  assert (Hinp : forall i, 0 <= i < N -> triplet inp i = triplet mat i).
  { intros i Hi. rewrite Einp. now apply copy_entries_in. }
  clear Einp.
  assert (Hmat : forall i, 0 <= i < N ->
                           ent_row inp i = ent_row mat i /\
                           ent_col inp i = ent_col mat i).
  { intros i Hi. pose proof (Hinp i Hi) as E. unfold triplet in E.
    injection E as Ea Eb _. now split. }
  (* the first two passes *)
  destruct (sorted_by_two_passes N
              {| front := inp; back := blank; nns0 := lengths 0; nns1 := lengths 1 |}
              HN) as (A0 & A1 & Asrt).
  { intros i Hi. cbn [front nns0 nns1]. destruct (Hmat i Hi) as [-> ->].
    now apply Hin. }
  cbn [front nns0 nns1] in A0, A1, Asrt.
  remember (transposed_back N N
              (transposed_back N N
                 {| front := inp; back := blank; nns0 := lengths 0;
                    nns1 := lengths 1 |})) as s2 eqn:Es2.
  clear Es2. rewrite A0, A1.
  remember (front s2) as srt eqn:Esrt. clear Esrt.
  assert (Hsorted : forall q q', 0 <= q -> q < q' -> q' < N ->
                                 precedes srt q q' \/ same_place srt q q').
  { intros q q'. now apply (sorted_copy_ordered N inp srt). }
  assert (Hsrt : forall q, 0 <= q < N ->
                           0 <= ent_row srt q < lengths 0 /\
                           0 <= ent_col srt q < lengths 1).
  { intros q Hq. destruct (sorted_copy_to N inp srt Asrt q Hq) as (i & Hi & E).
    unfold triplet in E. injection E as -> -> _.
    destruct (Hmat i Hi) as [-> ->]. now apply Hin. }
  (* the places added up *)
  pose proof (merge_equal_spec srt N (lengths 0) (lengths 1) Hsorted) as Hm.
  remember (merge_equal (lengths 0) (lengths 1) N srt) as m eqn:Em. clear Em.
  (* the last two passes *)
  destruct (sorted_by_two_passes N
              {| front := m; back := back s2; nns0 := lengths 0 + 1;
                 nns1 := lengths 1 + 1 |} HN) as (B0 & B1 & Bfin).
  { intros i Hi. cbn [front nns0 nns1]. pose proof (Hm i Hi) as H.
    pose proof (Hsrt i Hi) as Hr. destruct (repeated srt N i).
    - destruct H as [-> ->]. lia.
    - destruct H as (-> & -> & _). lia. }
  cbn [front nns0 nns1] in B0, B1, Bfin.
  remember (transposed_back N N
              (transposed_back N N
                 {| front := m; back := back s2; nns0 := lengths 0 + 1;
                    nns1 := lengths 1 + 1 |})) as s5 eqn:Es5.
  clear Es5. rewrite B0, B1.
  remember (front s5) as fin eqn:Efin. clear Efin.
  (* the count *)
  destruct (count_kept_spec fin (lengths 0 + 1) N HN) as (HM & Hlow & Hhigh).
  { intros q q' H0 H1 H2.
    pose proof (sorted_copy_ordered N m fin Bfin q q' H0 H1 H2) as H.
    unfold precedes, same_place in H. lia. }
  remember (count_kept fin (lengths 0 + 1) N) as M eqn:EM. clear EM.
  cbn [fst snd]. rewrite upd_same.
  assert (Hout : forall k, 0 <= k < M ->
                           triplet (copy_entries M fin mat) k = triplet fin k).
  { intros k Hk. now apply copy_entries_in. }
  remember (copy_entries M fin mat) as out eqn:Eout.
  assert (Hrest : forall q, q < 0 \/ M <= q -> triplet out q = triplet mat q).
  { intros q Hq. rewrite Eout, copy_entries_spec.
    destruct (Z.leb_spec 0 q); destruct (Z.ltb_spec q M); cbn [andb];
      try reflexivity; lia. }
  clear Eout.
  assert (Hcell : forall k, 0 <= k < M ->
                            ent_row out k = ent_row fin k /\
                            ent_col out k = ent_col fin k /\
                            ent_val out k = ent_val fin k).
  { intros k Hk. pose proof (Hout k Hk) as E. unfold triplet in E.
    injection E as Ea Eb Ec. now repeat split. }
  assert (Hrows : forall i, 0 <= i < N -> 0 <= ent_row srt i < lengths 0).
  { intros i Hi. now apply Hsrt. }
  split; [rewrite !upd_other by lia; rewrite upd_same; lia|].
  split; [rewrite upd_other by lia; rewrite upd_same; lia|].
  split; [exact HM|]. split; [|split; [|split; [|exact Hrest]]].
  - intros k k' H0 H1 H2.
    destruct (Hcell k ltac:(lia)) as (Ra & Ca & _).
    destruct (Hcell k' ltac:(lia)) as (Ra' & Ca' & _).
    pose proof (kept_strict srt m fin N (lengths 0) (lengths 1) Hsorted Hm Bfin
                  k k' H0 H1 ltac:(lia)) as H.
    pose proof (Hlow k ltac:(lia)). pose proof (Hlow k' ltac:(lia)).
    unfold precedes in *. rewrite Ra, Ca, Ra', Ca'. apply H; lia.
  - intros k Hk. destruct (Hcell k Hk) as (Ra & Ca & Va).
    pose proof (Hlow k Hk) as Hl.
    destruct (kept_entry srt m fin N (lengths 0) (lengths 1) Hm Bfin
                k ltac:(lia) ltac:(lia)) as ((q & Hq & Eq1 & Eq2) & Hv).
    rewrite Ra, Ca, Va. split.
    + destruct (sorted_copy_to N inp srt Asrt q Hq) as (i & Hi & E).
      unfold triplet in E. injection E as Ea Eb _.
      destruct (Hmat i Hi) as [Ma Mb].
      exists i. split; [exact Hi|]. split; congruence.
    + rewrite Hv. rewrite (summed_perm inp srt N)
        by now apply sorted_copy_perm.
      now rewrite (summed_ext mat inp N).
  - intros i Hi. destruct (Hmat i Hi) as [Ma Mb].
    destruct (sorted_copy_from N inp srt Asrt i Hi) as (q & Hq & E).
    unfold triplet in E. injection E as Ea Eb _.
    destruct (kept_covers srt m fin N (lengths 0) (lengths 1) Hm Bfin q Hq)
      as (k & Hk & Ka & Kb).
    assert (HkM : k < M).
    { destruct (Z.lt_ge_cases k M) as [L | G]; [exact L|]. exfalso.
      pose proof (Hhigh k ltac:(lia)). pose proof (Hrows q Hq). lia. }
    destruct (Hcell k ltac:(lia)) as (Ra & Ca & _).
    exists k. split; [lia|]. split; congruence.
Qed.

Lemma orderone_assembles_witness :
  let out := fst (orderone repeated_entries repeated_sizes) in
  let sizes := snd (orderone repeated_entries repeated_sizes) in
  sizes 0 = repeated_sizes 0 /\ sizes 1 = repeated_sizes 1 /\
  0 <= sizes 2 <= repeated_sizes 2 /\
  (forall k k', 0 <= k -> k < k' -> k' < sizes 2 -> precedes out k k') /\
  (forall k, 0 <= k < sizes 2 ->
             (exists i, 0 <= i < repeated_sizes 2 /\
                        ent_row repeated_entries i = ent_row out k /\
                        ent_col repeated_entries i = ent_col out k) /\
             Qeq (ent_val out k)
                 (summed repeated_entries (repeated_sizes 2)
                    (ent_row out k) (ent_col out k))) /\
  (forall i, 0 <= i < repeated_sizes 2 ->
             exists k, 0 <= k < sizes 2 /\
                       ent_row out k = ent_row repeated_entries i /\
                       ent_col out k = ent_col repeated_entries i) /\
  (forall q, q < 0 \/ sizes 2 <= q ->
             triplet out q = triplet repeated_entries q).
Proof.
  apply (orderone_assembles repeated_entries repeated_sizes).
  - vm_compute. discriminate.
  - exact repeated_entries_range.
Defined.

(** On the sample three places are left; the third one holds the sum
    [2 + 5 - 7], and the cells after it are not touched. *)
Example repeated_entries_ordered :
  let res := orderone repeated_entries repeated_sizes in
  (map (triplet (fst res)) (zrange 0 6), map (snd res) (zrange 0 3))
  = ([(0, 0, 1%Q); (0, 1, 7%Q); (1, 0, 0%Q); (0, 0, 1%Q); (0, 1, 4%Q);
      (1, 0, (-7)%Q)],
     [2; 2; 3]).
Proof. reflexivity. Qed.

End AssemblingFacts.

(* ------------------------------------------------------------------ *)
(** ** coarsening_rs.c: the aggressive splitting comes to its end *)

Module AggressiveLevelFacts.
Import BlaSparseCSR StrengthGraph Coarsening Covering Transposed CountFacts
  PhaseOneFacts Deciding DecidingFacts Aggressive AggressiveFacts AggressiveLevel.

(** *** Counting by a test *)

Lemma tally_flip (f g : Z -> bool) (c n : Z) :
  0 <= c < n -> (forall x, x <> c -> g x = f x) ->
  Z.of_nat (length (filter g (zrange 0 n)))
  = Z.of_nat (length (filter f (zrange 0 n)))
    + (if g c then 1 else 0) - (if f c then 1 else 0).
Proof.
  intros Hc H. rewrite (zrange_split 0 c n) by lia.
  rewrite (zrange_first c n) by lia.
  rewrite !filter_app, !length_app. cbn [filter].
  rewrite (filter_ext_in g f (zrange 0 c)), (filter_ext_in g f (zrange (c + 1) n)).
  - destruct (g c); destruct (f c); cbn [length]; lia.
  - intros x Hx. apply zrange_In in Hx. apply H. lia.
  - intros x Hx. apply zrange_In in Hx. apply H. lia.
Qed.

Lemma tally_same (f g : Z -> bool) (n : Z) :
  (forall x, 0 <= x < n -> g x = f x) ->
  Z.of_nat (length (filter g (zrange 0 n)))
  = Z.of_nat (length (filter f (zrange 0 n))).
Proof.
  intros H. rewrite (filter_ext_in g f); [reflexivity|].
  intros x Hx. apply zrange_In in Hx. now apply H.
Qed.

Lemma tally_bounds (f : Z -> bool) (n : Z) :
  0 <= n -> 0 <= Z.of_nat (length (filter f (zrange 0 n))) <= n.
Proof.
  intros Hn. pose proof (filter_length_le f (zrange 0 n)) as H.
  rewrite zrange_length in H. lia.
Qed.

Lemma tally_member (f : Z -> bool) (c n : Z) :
  0 <= c < n -> f c = true -> 1 <= Z.of_nat (length (filter f (zrange 0 n))).
Proof.
  intros Hc Hf. assert (Hin : In c (filter f (zrange 0 n))).
  { apply filter_In. split; [now apply zrange_In | exact Hf]. }
  destruct (filter f (zrange 0 n)); [contradiction | cbn [length]; lia].
Qed.

Lemma tally_some (f : Z -> bool) (n : Z) :
  0 < Z.of_nat (length (filter f (zrange 0 n))) ->
  exists c, 0 <= c < n /\ f c = true.
Proof.
  intros H. destruct (filter f (zrange 0 n)) as [|c l] eqn:E; [cbn in H; lia|].
  assert (Hin : In c (filter f (zrange 0 n))) by (rewrite E; now left).
  apply filter_In in Hin. destruct Hin as [Hr Hf]. apply zrange_In in Hr.
  now exists c.
Qed.

Lemma tally_none (f : Z -> bool) (n : Z) :
  (forall x, 0 <= x < n -> f x = false) ->
  Z.of_nat (length (filter f (zrange 0 n))) = 0.
Proof.
  intros H. rewrite TransposeFacts.filter_none; [reflexivity|].
  intros x Hx. apply zrange_In in Hx. now apply H.
Qed.

(** *** The vertices in the lists *)

Lemma is_listed_spec (q : list (Z * list Z)) (c : Z) :
  is_listed q c = true <-> exists m, In (m, c) (entries q).
Proof.
  unfold is_listed. rewrite existsb_exists. split.
  - intros ([m x] & Hin & E). apply Z.eqb_eq in E. cbn [snd] in E. subst x.
    now exists m.
  - intros (m & Hin). exists (m, c). split; [exact Hin | apply Z.eqb_refl].
Qed.

Lemma is_listed_same (q q' : list (Z * list Z)) (c : Z) :
  ((exists m, In (m, c) (entries q')) <-> (exists m, In (m, c) (entries q))) ->
  is_listed q' c = is_listed q c.
Proof.
  intros H. apply eq_true_iff_eq. now rewrite !is_listed_spec.
Qed.

Lemma is_listed_not (q : list (Z * list Z)) (c : Z) :
  (forall m, ~ In (m, c) (entries q)) -> is_listed q c = false.
Proof.
  intros H. destruct (is_listed q c) eqn:E; [|reflexivity].
  apply is_listed_spec in E. destruct E as (m & Hm). now apply H in Hm.
Qed.

Lemma listed_count_bounds (q : list (Z * list Z)) (n : Z) :
  0 <= n -> 0 <= listed_count q n <= n.
Proof. apply tally_bounds. Qed.

(** *** The steps of the main loop *)

Section Frame.
Variables (Sh : iCSRmat) (idx : arr Z) (num_c row : Z).
Hypothesis HF : coarse_frame Sh idx num_c row.
Hypothesis Hrow : row <= 2147483647.
Hypothesis Hnc : 0 <= num_c <= row.

(** A vertex has in the lists the bucket of its measure only. *)
Lemma member_out (t : Z) (s : @phase1 bucket_lists) (c m : Z) :
  choosing idx num_c row t s ->
  ~ In (m, c) (entries (bucket_remove (lol s) (lambda s c) c)).
Proof.
  intros H Hin. pose proof (remove_sub _ _ _ _ Hin) as Hq.
  destruct (choose_members _ _ _ _ _ H m c Hq) as (E & _). subst m.
  exact (remove_gone _ _ _ (choose_sorted _ _ _ _ _ H) Hin).
Qed.

Section Steps.
Variables (st st' : @phase1 bucket_lists).
Hypothesis H : choosing idx num_c row num_c st.

Lemma member_gone (c m : Z) :
  ~ In (m, c) (entries (bucket_remove (lol st) (lambda st c) c)).
Proof. exact (member_out num_c st c m H). Qed.

(** A vertex of the lists leaves them with the label [x], real or fake,
    and the number left is lowered: no wrap, since the vertex was counted. *)
Lemma choosing_leave (c x : Z) :
  0 <= c < num_c -> In (lambda st c, c) (entries (lol st)) ->
  x = 3 \/ x = 4 ->
  vec st' = upd (vec st) (idx c) x ->
  (forall y, y <> c -> lambda st' y = lambda st y) ->
  lol st' = bucket_remove (lol st) (lambda st c) c ->
  num_left st' = udec (num_left st) ->
  col1 st' = col1 st + (if x =? 3 then 1 else 0) ->
  choosing idx num_c row num_c st' /\ num_left st' = num_left st - 1.
Proof.
  intros Hc Hin Hx Ev El Eq En Ec.
  destruct H as [C1 C2 C3 C4 C5 C6 C7].
  assert (Hl : is_listed (lol st) c = true) by (apply is_listed_spec; eauto).
  pose proof (tally_member (is_listed (lol st)) c num_c Hc Hl) as H1.
  pose proof (listed_count_bounds (lol st) num_c ltac:(lia)) as H2.
  assert (Eu : udec (num_left st) = num_left st - 1).
  { unfold udec. rewrite C5. unfold listed_count in *. apply Z.mod_small. lia. }
  assert (Hother : forall y, 0 <= y < num_c -> y <> c ->
                             vec st' (idx y) = vec st (idx y)).
  { intros y Hy Hne. rewrite Ev, upd_other; [reflexivity|].
    intros E. apply Hne. now apply (frame_apart _ _ _ _ HF). }
  assert (Hlabel : vec st (idx c) = CGPT \/ vec st (idx c) = FGPT)
    by (apply (C3 _ _ Hin)).
  split; [constructor|].
  - rewrite Eq. now apply remove_sorted.
  - rewrite Eq. now apply remove_full.
  - intros m y Hy. rewrite Eq in Hy.
    assert (Hne : y <> c) by (intros ->; exact (member_gone c m Hy)).
    apply remove_sub in Hy. destruct (C3 m y Hy) as (E & Hr & Hv).
    rewrite El, Hother by (try exact Hne; lia). now split.
  - intros y Hy Hv.
    assert (Hne : y <> c).
    { intros ->. rewrite Ev, upd_same in Hv.
      destruct Hx as [-> | ->]; discriminate Hv. }
    rewrite Eq, El by exact Hne. apply remove_keeps; [exact Hne|].
    apply C4; [exact Hy|]. now rewrite <- Hother.
  - rewrite En, Eu, C5. unfold listed_count.
    rewrite (tally_flip (is_listed (lol st)) (is_listed (lol st')) c num_c Hc).
    + rewrite Hl. rewrite (is_listed_not (lol st') c); [lia|].
      intros m. rewrite Eq. apply member_gone.
    + intros y Hne. apply is_listed_same. rewrite Eq. split.
      * intros (m & Hm). exists m. now apply remove_sub in Hm.
      * intros (m & Hm). exists m. now apply remove_keeps.
  - intros j Hj. rewrite Ev. unfold upd.
    destruct (j =? idx c); [|now apply C6].
    destruct Hx as [-> | ->]; auto.
  - rewrite Ec, C7, Ev. unfold real_count.
    pose proof (frame_range _ _ _ _ HF c Hc) as Hi.
    rewrite (tally_flip (fun i => vec st i =? 3)
               (fun i => upd (vec st) (idx c) x i =? 3) (idx c) row Hi).
    + rewrite upd_same.
      assert (E3 : (vec st (idx c) =? 3) = false)
        by (destruct Hlabel as [-> | ->]; reflexivity).
      rewrite E3. lia.
    + intros y Hne. now rewrite upd_other.
  - rewrite En, Eu. reflexivity.
Qed.

(** A temporary coarse vertex moves to the bucket of its new measure. *)
Lemma choosing_move (c new : Z) :
  0 <= c < num_c -> vec st (idx c) = CGPT ->
  vec st' = vec st ->
  (forall y, lambda st' y = upd (lambda st) c new y) ->
  lol st' = bucket_enter (bucket_remove (lol st) (lambda st c) c) new c ->
  num_left st' = num_left st ->
  col1 st' = col1 st ->
  choosing idx num_c row num_c st' /\ num_left st' = num_left st.
Proof.
  intros Hc Hv Ev El Eq En Ec.
  destruct H as [C1 C2 C3 C4 C5 C6 C7].
  pose proof (C4 c Hc Hv) as Hin.
  split; [constructor | exact En].
  - rewrite Eq. now apply enter_sorted, remove_sorted.
  - rewrite Eq. now apply enter_full, remove_full.
  - intros m y Hy. rewrite Eq in Hy. apply enter_entries in Hy.
    rewrite El, Ev. destruct Hy as [E | Hy].
    + injection E as -> ->. rewrite upd_same. split; [reflexivity|].
      split; [exact Hc | now left].
    + assert (Hne : y <> c) by (intros ->; exact (member_gone c m Hy)).
      apply remove_sub in Hy. rewrite upd_other by exact Hne. now apply C3.
  - intros y Hy Hl. rewrite Eq, El. apply enter_entries.
    destruct (Z.eq_dec y c) as [-> | Hne].
    + left. now rewrite upd_same.
    + right. rewrite upd_other by exact Hne. apply remove_keeps; [exact Hne|].
      apply C4; [exact Hy|]. now rewrite <- Ev.
  - rewrite En, C5. unfold listed_count. symmetry. apply tally_same.
    intros y Hy. apply is_listed_same. rewrite Eq. split.
    + intros (m & Hm). apply enter_entries in Hm. destruct Hm as [E | Hm].
      * injection E as -> ->. eauto.
      * exists m. now apply remove_sub in Hm.
    + intros (m & Hm). destruct (Z.eq_dec y c) as [-> | Hne].
      * exists new. apply enter_entries. now left.
      * exists m. apply enter_entries. right. now apply remove_keeps.
  - intros j Hj. rewrite Ev. now apply C6.
  - now rewrite Ec, Ev.
Qed.

End Steps.

Lemma frame_offsets (c : Z) : 0 <= c < num_c -> iIA Sh c <= iIA Sh (c + 1).
Proof.
  intros Hc. apply (graph_offsets Sh num_c (frame_graph _ _ _ _ HF)
                      (frame_rows _ _ _ _ HF)). exact Hc.
Qed.

Lemma frame_columns (c p : Z) :
  0 <= c < num_c -> iIA Sh c <= p < iIA Sh (c + 1) -> 0 <= iJA Sh p < num_c.
Proof.
  intros Hc Hp.
  exact (graph_columns Sh num_c (frame_graph _ _ _ _ HF) (frame_rows _ _ _ _ HF)
           (frame_cols _ _ _ _ HF) c p Hc Hp).
Qed.

Lemma choosing_bump (N : Z) (st : @phase1 bucket_lists) (c : Z) :
  0 <= c < num_c -> vec st (idx c) = CGPT ->
  choosing idx num_c row num_c st /\ num_left st <= N ->
  choosing idx num_c row num_c (bump st c) /\ num_left (bump st c) <= N.
Proof.
  intros Hc Hv [H Hn].
  destruct (choosing_move st (bump st c) H c (lambda st c + 1) Hc Hv)
    as [H' E]; try reflexivity.
  split; [exact H' | lia].
Qed.

Lemma choosing_bump_coarse (N : Z) (st : @phase1 bucket_lists) (cj : Z) :
  0 <= cj < num_c ->
  choosing idx num_c row num_c st /\ num_left st <= N ->
  choosing idx num_c row num_c (bump_coarse Sh idx cj st) /\
  num_left (bump_coarse Sh idx cj st) <= N.
Proof.
  intros Hc H. unfold bump_coarse.
  apply (for_loop_inv
           (fun _ t => choosing idx num_c row num_c t /\ num_left t <= N)).
  - now apply frame_offsets.
  - exact H.
  - intros l t Hl IH. cbv zeta.
    destruct (Z.eqb_spec (vec t (idx (iJA Sh l))) CGPT) as [E | E]; [|exact IH].
    apply choosing_bump; [|exact E | exact IH].
    now apply (frame_columns cj).
Qed.

(** The temporary coarse vertices that depend on the new real one become
    fake ones. *)
Lemma choosing_dependents (N : Z) (st : @phase1 bucket_lists) (m : Z) :
  0 <= m < num_c ->
  choosing idx num_c row num_c st /\ num_left st <= N ->
  let st' :=
    for_loop (iIA (fasp_icsr_trans Sh) m) (iIA (fasp_icsr_trans Sh) (m + 1))
      (fun st ci =>
         let cj := iJA (fasp_icsr_trans Sh) ci in
         let j := idx cj in
         if vec st j =? CGPT then
           let st := set_vec st (upd (vec st) j 4) in
           let st := set_lol st (remove_node (lol st) (lambda st cj) cj) in
           let st := set_num_left st (udec (num_left st)) in
           bump_coarse Sh idx cj st
         else st)
      st in
  choosing idx num_c row num_c st' /\ num_left st' <= N.
Proof.
  intros Hm H. cbv zeta.
  apply (for_loop_inv
           (fun _ t => choosing idx num_c row num_c t /\ num_left t <= N)).
  - pose proof (transpose_offsets Sh num_c (frame_graph _ _ _ _ HF)
                  (frame_cols _ _ _ _ HF) m Hm). lia.
  - exact H.
  - intros i t Hi [IH Hn]. cbv zeta.
    destruct (Z.eqb_spec (vec t (idx (iJA (fasp_icsr_trans Sh) i))) CGPT)
      as [E | E]; [|now split].
    assert (Hj : 0 <= iJA (fasp_icsr_trans Sh) i < num_c).
    { apply (transpose_columns Sh num_c (frame_graph _ _ _ _ HF)
               (frame_rows _ _ _ _ HF) (frame_cols _ _ _ _ HF)
               (frame_free _ _ _ _ HF) m i Hm); lia. }
    apply choosing_bump_coarse; [exact Hj|].
    match goal with
    | |- choosing _ _ _ _ ?s /\ _ =>
        destruct (choosing_leave t s IH (iJA (fasp_icsr_trans Sh) i) 4 Hj)
          as [H' E']; try reflexivity; try (cbn; lia)
    end.
    + now apply (choose_listed _ _ _ _ _ IH).
    + split; [exact H' | lia].
Qed.

(** The neighbours of the new real coarse vertex lose one. *)
Lemma choosing_neighbours (N : Z) (st : @phase1 bucket_lists) (m : Z) :
  0 <= m < num_c ->
  choosing idx num_c row num_c st /\ num_left st <= N ->
  let st' :=
    for_loop (iIA Sh m) (iIA Sh (m + 1))
      (fun st ci =>
         let cj := iJA Sh ci in
         let j := idx cj in
         if vec st j =? CGPT then
           let measure := lambda st cj in
           let st := set_lol st (remove_node (lol st) measure cj) in
           let measure := measure - 1 in
           let st := set_lambda st (upd (lambda st) cj measure) in
           if measure >? 0 then set_lol st (enter_list (lol st) measure cj)
           else
             let st := set_vec st (upd (vec st) j 4) in
             let st := set_num_left st (udec (num_left st)) in
             bump_coarse Sh idx cj st
         else st)
      st in
  choosing idx num_c row num_c st' /\ num_left st' <= N.
Proof.
  intros Hm H. cbv zeta.
  apply (for_loop_inv
           (fun _ t => choosing idx num_c row num_c t /\ num_left t <= N)).
  - now apply frame_offsets.
  - exact H.
  - intros i t Hi [IH Hn]. cbv zeta.
    pose proof (frame_columns m i Hm Hi) as Hj.
    destruct (Z.eqb_spec (vec t (idx (iJA Sh i))) CGPT) as [E | E]; [|now split].
    destruct (lambda t (iJA Sh i) - 1 >? 0).
    + match goal with
      | |- choosing _ _ _ _ ?s /\ _ =>
          destruct (choosing_move t s IH (iJA Sh i) (lambda t (iJA Sh i) - 1) Hj E)
            as [H' E']; try reflexivity
      end.
      split; [exact H' | lia].
    + apply choosing_bump_coarse; [exact Hj|].
      match goal with
      | |- choosing _ _ _ _ ?s /\ _ =>
          destruct (choosing_leave t s IH (iJA Sh i) 4 Hj) as [H' E'];
            try reflexivity; try (cbn; lia)
      end.
      * now apply (choose_listed _ _ _ _ _ IH).
      * intros y Hy. cbn. now rewrite upd_other.
      * split; [exact H' | lia].
Qed.

(** One turn of the main loop takes the head off the lists. *)
Lemma choosing_main_body (N : Z) (st : @phase1 bucket_lists) (m : Z) :
  choosing idx num_c row num_c st -> num_left st <= N ->
  bucket_head (lol st) = Some m ->
  choosing idx num_c row num_c (ag_main_body Sh (fasp_icsr_trans Sh) idx m st) /\
  num_left (ag_main_body Sh (fasp_icsr_trans Sh) idx m st) <= N - 1.
Proof.
  intros H Hn Hh. destruct (head_entry _ _ Hh) as (x & Hx).
  destruct (choose_members _ _ _ _ _ H x m Hx) as (E & Hm & _). subst x.
  unfold ag_main_body. cbv zeta.
  apply choosing_neighbours; [exact Hm|].
  apply choosing_dependents; [exact Hm|].
  match goal with
  | |- choosing _ _ _ _ ?s /\ _ =>
      destruct (choosing_leave st s H m 3 Hm Hx) as [H' E']; try reflexivity;
        try (cbn; lia)
  end.
  - intros y Hy. cbn. now rewrite upd_other.
  - split; [exact H' | lia].
Qed.

(** The main loop returns within as many turns as vertices are in the
    lists: while one is left the lists have a head. *)
Lemma ag_main_loop_returns (fuel : nat) :
  forall st : @phase1 bucket_lists,
    choosing idx num_c row num_c st -> num_left st <= Z.of_nat fuel ->
    exists st', ag_main_loop fuel Sh (fasp_icsr_trans Sh) idx st = Some st' /\
                choosing idx num_c row num_c st' /\ num_left st' <= 0.
Proof.
  induction fuel as [|fuel IH]; intros st H Hn; cbn [ag_main_loop].
  - destruct (Z.gtb_spec (num_left st) 0) as [G | G]; [lia|].
    exists st. split; [reflexivity | split; [exact H | lia]].
  - destruct (Z.gtb_spec (num_left st) 0) as [G | G].
    + assert (Hh : exists m, bucket_head (lol st) = Some m).
      { rewrite (choose_left _ _ _ _ _ H) in G.
        destruct (tally_some _ _ G) as (c & Hc & Hl).
        apply is_listed_spec in Hl. destruct Hl as (x & Hx).
        apply (full_head _ (x, c)); [apply H | exact Hx]. }
      destruct Hh as (m & Hh).
      change (LoL_head_head (lol st)) with (bucket_head (lol st)). rewrite Hh.
      destruct (choosing_main_body (Z.of_nat (Datatypes.S fuel)) st m H Hn Hh)
        as [H' Hn'].
      apply IH; [exact H' | lia].
    + exists st. split; [reflexivity | split; [exact H | lia]].
Qed.

(** *** Step 2 *)

Lemma uinc_small (n : Z) : 0 <= n <= 2147483647 -> uinc n = n + 1.
Proof. intros Hn. unfold uinc. apply Z.mod_small. lia. Qed.

Lemma udec_small (n : Z) : 1 <= n <= 2147483647 -> udec n = n - 1.
Proof. intros Hn. unfold udec. apply Z.mod_small. lia. Qed.

Lemma entering_left (t : Z) (st : @phase1 bucket_lists) :
  entering idx num_c row t st -> 0 <= num_left st <= num_c.
Proof.
  intros He. rewrite (choose_left _ _ _ _ _ (enter_choosing _ _ _ _ _ He)).
  apply listed_count_bounds. lia.
Qed.

Section Entering.
Variables (st st' : @phase1 bucket_lists).

(** A vertex enters the bucket of its new, positive measure, out of lists
    [q0] that do not hold it and have kept the other vertices. *)
Lemma entering_put (T T' c new : Z) (q0 : list (Z * list Z)) :
  entering idx num_c row T st ->
  T <= T' -> T' <= num_c -> (forall y, T <= y < T' -> y = c) ->
  0 <= c < T' -> new > 0 ->
  vec st' = vec st ->
  (forall y, lambda st' y = upd (lambda st) c new y) ->
  decreasing q0 -> full q0 ->
  (forall m, ~ In (m, c) (entries q0)) ->
  (forall x, In x (entries q0) -> In x (entries (lol st))) ->
  (forall x, snd x <> c -> In x (entries (lol st)) -> In x (entries q0)) ->
  lol st' = bucket_enter q0 new c ->
  num_left st' = num_left st + (if is_listed (lol st) c then 0 else 1) ->
  col1 st' = col1 st ->
  entering idx num_c row T' st'.
Proof.
  intros [[C1 C2 C3 C4 C5 C6 C7] E1 E2 E3 E4 E5 E6]
         HT HT' Hnew Hc Hpos Ev El Hs Hf Hout Hsub Hkeep Eq En Ec.
  constructor; [constructor| | | | | |].
  - rewrite Eq. now apply enter_sorted.
  - rewrite Eq. now apply enter_full.
  - intros m y Hy. rewrite Eq in Hy. apply enter_entries in Hy.
    rewrite El, Ev. destruct Hy as [E | Hy].
    + injection E as -> ->. rewrite upd_same. split; [reflexivity|].
      split; [exact Hc | apply E2; lia].
    + assert (Hne : y <> c) by (intros ->; exact (Hout m Hy)).
      rewrite upd_other by exact Hne.
      destruct (C3 m y (Hsub _ Hy)) as (A1 & A2 & A3).
      split; [exact A1 | split; [lia | exact A3]].
  - intros y Hy Hl. rewrite Eq, El. apply enter_entries.
    destruct (Z.eq_dec y c) as [-> | Hne].
    + left. now rewrite upd_same.
    + right. rewrite upd_other by exact Hne. apply Hkeep; [exact Hne|].
      apply C4; [|now rewrite <- Ev].
      destruct (Z.lt_ge_cases y T) as [L | G]; [lia|].
      exfalso. apply Hne. apply Hnew. lia.
  - rewrite En, C5. unfold listed_count.
    assert (Hsame : forall y, y <> c ->
                              is_listed (lol st') y = is_listed (lol st) y).
    { intros y Hne. apply is_listed_same. rewrite Eq. split.
      - intros (m & Hm). apply enter_entries in Hm. destruct Hm as [E | Hm].
        + injection E as _ E. now contradiction Hne.
        + exists m. now apply Hsub.
      - intros (m & Hm). exists m. apply enter_entries. right. now apply Hkeep. }
    rewrite (tally_flip (is_listed (lol st)) (is_listed (lol st')) c num_c
               ltac:(lia) Hsame).
    assert (Hl : is_listed (lol st') c = true).
    { apply is_listed_spec. exists new. rewrite Eq. apply enter_entries. now left. }
    rewrite Hl. destruct (is_listed (lol st) c); lia.
  - intros j Hj. rewrite Ev. now apply C6.
  - now rewrite Ec, Ev.
  - intros y Hy. rewrite Ev. apply E1. lia.
  - intros y Hy. rewrite Ev. now apply E2.
  - intros y Hy. rewrite El. unfold upd. destruct (y =? c); [lia | now apply E3].
  - intros y Hy Hl. rewrite Eq, El in *. apply enter_entries.
    destruct (Z.eq_dec y c) as [-> | Hne].
    + left. now rewrite upd_same.
    + right. rewrite upd_other in * by exact Hne. apply Hkeep; [exact Hne|].
      apply E4; [|exact Hl].
      destruct (Z.lt_ge_cases y T) as [L | G]; [lia|].
      exfalso. apply Hne. apply Hnew. lia.
  - intros m y Hy. rewrite Eq in Hy. apply enter_entries in Hy.
    destruct Hy as [E | Hy].
    + injection E as -> _. exact Hpos.
    + apply (E5 m y). now apply Hsub.
  - now rewrite Ev.
Qed.

(** The measure of a vertex that has not been looked at grows. *)
Lemma entering_raise (T c : Z) :
  entering idx num_c row T st -> 0 <= T -> T <= c < num_c ->
  vec st' = vec st ->
  (forall y, lambda st' y = upd (lambda st) c (lambda st c + 1) y) ->
  lol st' = lol st -> num_left st' = num_left st -> col1 st' = col1 st ->
  entering idx num_c row T st'.
Proof.
  intros [[C1 C2 C3 C4 C5 C6 C7] E1 E2 E3 E4 E5 E6] HT Hc Ev El Eq En Ec.
  constructor; [constructor| | | | | |].
  - now rewrite Eq.
  - now rewrite Eq.
  - intros m y Hy. rewrite Eq in Hy. destruct (C3 m y Hy) as (A1 & A2 & A3).
    rewrite El, Ev, upd_other by lia. now split.
  - intros y Hy Hl. rewrite Eq, El, upd_other by lia.
    apply C4; [exact Hy | now rewrite <- Ev].
  - now rewrite En, Eq.
  - intros j Hj. rewrite Ev. now apply C6.
  - now rewrite Ec, Ev.
  - intros y Hy. rewrite Ev. now apply E1.
  - intros y Hy. rewrite Ev. now apply E2.
  - intros y Hy. rewrite El. unfold upd.
    pose proof (E3 c ltac:(lia)). pose proof (E3 y Hy).
    destruct (y =? c); lia.
  - intros y Hy Hl. rewrite Eq, El in *. rewrite upd_other in * by lia.
    now apply E4.
  - intros m y Hy. rewrite Eq in Hy. now apply (E5 m y).
  - now rewrite Ev.
Qed.

(** The vertex [t], whose measure is not positive, becomes fine. *)
Lemma entering_fine (t : Z) :
  entering idx num_c row t st -> 0 <= t < num_c -> lambda st t <= 0 ->
  vec st' = upd (vec st) (idx t) FGPT ->
  lambda st' = lambda st -> lol st' = lol st -> num_left st' = num_left st ->
  col1 st' = col1 st ->
  entering idx num_c row (t + 1) st'.
Proof.
  intros [[C1 C2 C3 C4 C5 C6 C7] E1 E2 E3 E4 E5 E6] Ht Hl Ev El Eq En Ec.
  assert (Hother : forall y, 0 <= y < num_c -> y <> t ->
                             vec st' (idx y) = vec st (idx y)).
  { intros y Hy Hne. rewrite Ev, upd_other; [reflexivity|].
    intros E. apply Hne. now apply (frame_apart _ _ _ _ HF). }
  assert (Hreal : real_count (vec st') row = real_count (vec st) row).
  { rewrite Ev. unfold real_count.
    pose proof (frame_range _ _ _ _ HF t Ht) as Hi.
    rewrite (tally_flip (fun i => vec st i =? 3)
               (fun i => upd (vec st) (idx t) FGPT i =? 3) (idx t) row Hi)
      by (intros y Hne; now rewrite upd_other).
    rewrite upd_same, (E1 t) by lia. cbn. lia. }
  constructor; [constructor| | | | | |].
  - now rewrite Eq.
  - now rewrite Eq.
  - intros m y Hy. rewrite Eq in Hy. destruct (C3 m y Hy) as (A1 & A2 & A3).
    rewrite El, Hother by lia. split; [exact A1 | split; [lia | exact A3]].
  - intros y Hy Hv. rewrite Eq, El.
    assert (Hne : y <> t).
    { intros ->. rewrite Ev, upd_same in Hv. discriminate Hv. }
    apply C4; [lia|]. rewrite <- Hother by lia. exact Hv.
  - now rewrite En, Eq.
  - intros j Hj. rewrite Ev. unfold upd. destruct (j =? idx t); [auto|now apply C6].
  - now rewrite Ec, Hreal.
  - intros y Hy. rewrite Hother by lia. apply E1. lia.
  - intros y Hy. destruct (Z.eq_dec y t) as [-> | Hne].
    + right. rewrite Ev. apply upd_same.
    + rewrite Hother by assumption. now apply E2.
  - intros y Hy. rewrite El. now apply E3.
  - intros y Hy Hp. rewrite Eq, El in *.
    destruct (Z.eq_dec y t) as [-> | Hne]; [lia|]. apply E4; [lia | exact Hp].
  - intros m y Hy. rewrite Eq in Hy. now apply (E5 m y).
  - rewrite Hreal. exact E6.
Qed.

End Entering.

Lemma entering_start (v lam : arr Z) :
  (forall j, 0 <= j < row -> v j = CGPT \/ v j = FGPT \/ v j = ISPT) ->
  (forall c, 0 <= c < num_c -> v (idx c) = CGPT) ->
  (forall c, 0 <= c < num_c -> 0 <= lam c) ->
  entering idx num_c row 0
    {| vec := v; lambda := lam; lol := @LoL_null bucket_lists; num_left := 0;
       col1 := 0 |}.
Proof.
  intros Hv Hc Hl.
  assert (Hr : real_count v row = 0).
  { unfold real_count. apply tally_none. intros j Hj.
    destruct (Hv j Hj) as [-> | [-> | ->]]; reflexivity. }
  constructor; [constructor| | | | | |]; cbn [vec lambda lol num_left col1].
  - constructor.
  - constructor.
  - intros m c [].
  - intros c Hc'. lia.
  - unfold listed_count. symmetry. apply tally_none. intros; reflexivity.
  - intros j Hj. destruct (Hv j Hj) as [E | [E | E]]; auto.
  - now rewrite Hr.
  - intros c Hc'. apply Hc. lia.
  - intros c Hc'. left. now apply Hc.
  - exact Hl.
  - intros c Hc'. lia.
  - intros m c [].
  - exact Hr.
Qed.

Lemma entering_turn (t : Z) (st : @phase1 bucket_lists) :
  0 <= t < num_c -> entering idx num_c row t st ->
  entering idx num_c row (t + 1)
    (let i := idx t in
     let measure := lambda st t in
     if negb (vec st i =? ISPT) then
       if measure >? 0 then
         let st := set_lol st (enter_list (lol st) (lambda st t) t) in
         set_num_left st (uinc (num_left st))
       else
         let st := set_vec st (upd (vec st) i FGPT) in
         for_loop (iIA Sh t) (iIA Sh (t + 1))
           (fun st ck =>
              let cj := iJA Sh ck in
              let j := idx cj in
              if negb (vec st j =? ISPT) then
                if cj <? t then
                  let new_meas := lambda st cj in
                  let st :=
                    if new_meas >? 0 then
                      let st := set_lol st (remove_node (lol st) new_meas cj) in
                      set_num_left st (udec (num_left st))
                    else st in
                  let new_meas := lambda st cj + 1 in
                  let st := set_lambda st (upd (lambda st) cj new_meas) in
                  let st := set_lol st (enter_list (lol st) new_meas cj) in
                  set_num_left st (uinc (num_left st))
                else set_lambda st (upd (lambda st) cj (lambda st cj + 1))
              else st)
           st
     else st).
Proof.
  intros Ht He. cbv zeta.
  rewrite (enter_pending _ _ _ _ _ He t) by lia.
  change (negb (CGPT =? ISPT)) with true. cbv iota.
  pose proof (entering_left t st He) as Hleft.
  assert (Hnot : forall T s, entering idx num_c row T s -> forall c, T <= c ->
                             forall m, ~ In (m, c) (entries (lol s))).
  { intros T s Hs c Hc m Hin.
    destruct (choose_members _ _ _ _ _ (enter_choosing _ _ _ _ _ Hs) m c Hin)
      as (_ & Hr & _). lia. }
  destruct (Z.gtb_spec (lambda st t) 0) as [G | G].
  - apply (entering_put st _ t (t + 1) t (lambda st t) (lol st) He);
      try reflexivity; try lia; try tauto.
    + intros y. cbn. unfold upd. destruct (Z.eqb_spec y t) as [-> | _]; reflexivity.
    + apply He.
    + apply He.
    + now apply (Hnot t st He).
    + cbn. rewrite (is_listed_not (lol st) t) by now apply (Hnot t st He).
      apply uinc_small. lia.
  - apply (for_loop_inv (fun _ s => entering idx num_c row (t + 1) s)).
    + now apply frame_offsets.
    + apply (entering_fine st _ t He Ht); try reflexivity. lia.
    + intros ck s Hck Hs. cbv zeta.
      pose proof (frame_columns t ck Ht Hck) as Hcj.
      assert (Hne : iJA Sh ck <> t).
      { apply (frame_free _ _ _ _ HF); [|exact Hck].
        rewrite (frame_rows _ _ _ _ HF). exact Ht. }
      pose proof (entering_left (t + 1) s Hs) as Hl.
      assert (Hlab : negb (vec s (idx (iJA Sh ck)) =? ISPT) = true).
      { destruct (enter_temp _ _ _ _ _ Hs (iJA Sh ck) Hcj) as [-> | ->];
          reflexivity. }
      rewrite Hlab.
      destruct (Z.ltb_spec (iJA Sh ck) t) as [L | L].
      * pose proof (enter_nonneg _ _ _ _ _ Hs (iJA Sh ck) Hcj) as Hn0.
        destruct (Z.gtb_spec (lambda s (iJA Sh ck)) 0) as [P | P].
        -- pose proof (enter_positive _ _ _ _ _ Hs (iJA Sh ck) ltac:(lia)
                         ltac:(lia)) as Hin.
           assert (Hli : is_listed (lol s) (iJA Sh ck) = true)
             by (apply is_listed_spec; eauto).
           pose proof (tally_member _ _ num_c Hcj Hli) as H1.
           assert (H1' : 1 <= num_left s).
           { rewrite (choose_left _ _ _ _ _ (enter_choosing _ _ _ _ _ Hs)).
             exact H1. }
           apply (entering_put s _ (t + 1) (t + 1) (iJA Sh ck)
                    (lambda s (iJA Sh ck) + 1)
                    (bucket_remove (lol s) (lambda s (iJA Sh ck)) (iJA Sh ck)) Hs);
             try reflexivity; try lia.
           ++ apply remove_sorted. apply Hs.
           ++ apply remove_full. apply Hs.
           ++ intros m. apply (member_out (t + 1) s). apply Hs.
           ++ intros x. apply remove_sub.
           ++ intros x Hx. now apply remove_keeps.
           ++ cbn. rewrite Hli, udec_small by lia. rewrite uinc_small by lia. lia.
        -- assert (Hout : forall m, ~ In (m, iJA Sh ck) (entries (lol s))).
           { intros m Hin.
             pose proof (enter_unlisted _ _ _ _ _ Hs m _ Hin) as Hp.
             destruct (choose_members _ _ _ _ _ (enter_choosing _ _ _ _ _ Hs)
                         m _ Hin) as (E & _). lia. }
           apply (entering_put s _ (t + 1) (t + 1) (iJA Sh ck)
                    (lambda s (iJA Sh ck) + 1) (lol s) Hs);
             try reflexivity; try lia; try tauto.
           ++ apply Hs.
           ++ apply Hs.
           ++ cbn. rewrite (is_listed_not _ _ Hout). apply uinc_small. lia.
      * apply (entering_raise s _ (t + 1) (iJA Sh ck) Hs); try reflexivity; lia.
Qed.

Lemma ag_step2_entering (st : @phase1 bucket_lists) :
  entering idx num_c row 0 st ->
  entering idx num_c row num_c (ag_step2 Sh idx num_c st).
Proof.
  intros He. unfold ag_step2.
  apply (for_loop_inv (fun t s => entering idx num_c row t s)); [lia | exact He |].
  intros t s Ht Hs. now apply entering_turn.
Qed.

End Frame.

(** *** The graph between the temporary coarse vertices *)

Lemma frame_of_graph (second : bool) (S : iCSRmat) (v : arr Z) (rows : Z) :
  0 <= rows -> graph_cols S rows ->
  let G := generate_S_rs_ag second S v rows in
  coarse_frame (Sh G) (CGPT_index G) (coarse_count v rows) rows /\
  forall c, 0 <= c < coarse_count v rows -> v (CGPT_index G c) = CGPT.
Proof.
  intros H0 Hcols. cbv zeta.
  destruct (generate_S_rs_ag_rows second S v rows H0 Hcols) as (Hn & Hv & Hr).
  remember (generate_S_rs_ag second S v rows) as G eqn:EG. clear EG.
  destruct Hn as [N1 N2 N3 N4 N5].
  split; [constructor|].
  - exact Hv.
  - exact N1.
  - exact N2.
  - intros i p Hi Hp. destruct (Hr i Hi) as [_ M].
    assert (Hin : In (iJA (Sh G) p) (Rows.irow_cols (Sh G) i)).
    { unfold Rows.irow_cols, Rows.positions. apply in_map. now apply zrange_In. }
    apply M in Hin.
    apply (reached_spec S v rows (irow (Sh G)) (CGPT_index G) (CGPT_rindex G)
             Hcols N3 N5 second i _ Hi) in Hin.
    tauto.
  - intros c Hc. rewrite <- N1 in Hc. now apply N3.
  - intros c c' Hc Hc' E. rewrite <- N1 in Hc, Hc'.
    destruct (Z.lt_trichotomy c c') as [L | [Q | G']]; [|exact Q|].
    + pose proof (N4 c c' ltac:(lia) L ltac:(lia)). lia.
    + pose proof (N4 c' c ltac:(lia) G' ltac:(lia)). lia.
  - intros c Hc. rewrite <- N1 in Hc. now apply N3.
Qed.

(** *** The labels at the end of phase two *)

Lemma relabel_loop (c : Z -> bool) (x n : Z) (v : arr Z) (j : Z) :
  0 <= n ->
  for_loop 0 n (fun w i => if c (w i) then upd w i x else w) v j
  = if (0 <=? j) && (j <? n) && c (v j) then x else v j.
Proof.
  intros Hn. revert j.
  apply (for_loop_inv
           (fun t w => forall j, w j = if (0 <=? j) && (j <? t) && c (v j)
                                       then x else v j)); [exact Hn | |].
  - intros j. destruct (Z.leb_spec 0 j); destruct (Z.ltb_spec j 0); cbn [andb];
      try reflexivity; lia.
  - intros t w Ht IH j.
    assert (Et : w t = v t).
    { rewrite IH. destruct (Z.leb_spec 0 t); destruct (Z.ltb_spec t t);
        cbn [andb]; try reflexivity; lia. }
    rewrite Et. destruct (Z.eq_dec j t) as [-> | Hne].
    + destruct (Z.leb_spec 0 t); destruct (Z.ltb_spec t (t + 1)); try lia.
      cbn [andb]. destruct (c (v t)); [apply upd_same | exact Et].
    + assert (Ej : (if c (v t) then upd w t x else w) j = w j).
      { destruct (c (v t)); [now apply upd_other | reflexivity]. }
      transitivity (w j); [exact Ej|]. rewrite IH.
      destruct (Z.leb_spec 0 j); destruct (Z.ltb_spec j (t + 1));
        destruct (Z.ltb_spec j t); cbn [andb]; try reflexivity; lia.
Qed.

Lemma relabel_spec (rows : Z) (v : arr Z) (j : Z) :
  0 <= j < rows ->
  relabel rows v j
  = if (v j =? CGPT) || (v j =? 4) then FGPT
    else if v j =? 3 then CGPT else v j.
Proof.
  intros Hj. unfold relabel. cbv zeta.
  rewrite (relabel_loop (fun x => x =? 3) CGPT) by lia.
  rewrite (relabel_loop (fun x => (x =? CGPT) || (x =? 4)) FGPT) by lia.
  destruct (Z.leb_spec 0 j); destruct (Z.ltb_spec j rows); try lia. cbn [andb].
  destruct ((v j =? CGPT) || (v j =? 4)); reflexivity.
Qed.

Lemma relabel_labels (rows : Z) (v : arr Z) :
  (forall j, 0 <= j < rows ->
             v j = CGPT \/ v j = FGPT \/ v j = ISPT \/ v j = 3 \/ v j = 4) ->
  (forall j, 0 <= j < rows ->
             relabel rows v j = CGPT \/ relabel rows v j = FGPT \/
             relabel rows v j = ISPT) /\
  coarse_count (relabel rows v) rows = real_count v rows.
Proof.
  intros Hv. split.
  - intros j Hj. rewrite relabel_spec by exact Hj.
    destruct (Hv j Hj) as [-> | [-> | [-> | [-> | ->]]]]; cbn; auto.
  - unfold coarse_count, real_count. apply tally_same. intros j Hj.
    rewrite relabel_spec by exact Hj.
    destruct (Hv j Hj) as [-> | [-> | [-> | [-> | ->]]]]; reflexivity.
Qed.

(** *** Phase three *)

Section Near.
Variables (S : iCSRmat) (rows : Z).
Hypothesis HS : icsr_valid S.
Hypothesis Hrows : irow S = rows.
Hypothesis Hcolumns : icol S = rows.

Lemma near_flag_sound (v : arr Z) (i : Z) :
  0 <= i < rows -> near_flag S v i <> 0 -> near_coarse S v i.
Proof.
  intros Hi. unfold near_flag.
  assert (G : (fun flag => flag = 0 \/ near_coarse S v i)
                (for_loop (iIA S i) (iIA S (i + 1))
                   (fun flag j =>
                      let k := iJA S j in
                      if flag =? 1 then flag
                      else if v k =? CGPT then 1
                      else if v k =? FGPT then
                        for_loop (iIA S k) (iIA S (k + 1))
                          (fun flag l =>
                             let m := iJA S l in
                             if flag =? 1 then flag
                             else if v m =? CGPT then 1 else flag)
                          flag
                      else flag)
                   0)).
  { apply (for_loop_inv (fun _ flag => flag = 0 \/ near_coarse S v i)).
    - now apply (graph_offsets S rows HS Hrows).
    - now left.
    - intros j flag Hj IH. cbv zeta.
      destruct (flag =? 1); [exact IH|].
      pose proof (graph_columns S rows HS Hrows Hcolumns i j Hi Hj) as Hk.
      assert (Hn : neighbour S i (iJA S j)) by (exists j; now split).
      destruct (Z.eqb_spec (v (iJA S j)) CGPT) as [Ec | Ec].
      + right. exists (iJA S j). split; [exact Hn | now left].
      + destruct (Z.eqb_spec (v (iJA S j)) FGPT) as [Ef | Ef]; [|exact IH].
        apply (for_loop_inv (fun _ flag => flag = 0 \/ near_coarse S v i)).
        * now apply (graph_offsets S rows HS Hrows).
        * exact IH.
        * intros l flag' Hl IH'. cbv zeta.
          destruct (flag' =? 1); [exact IH'|].
          destruct (Z.eqb_spec (v (iJA S l)) CGPT) as [Em | Em]; [|exact IH'].
          right. exists (iJA S j). split; [exact Hn|]. right.
          split; [exact Ef|]. exists (iJA S l). split; [|exact Em].
          exists l. now split. }
  cbv beta in G. intros Hne. destruct G as [G | G]; [contradiction | exact G].
Qed.

Lemma near_coarse_kept (v : arr Z) (i t : Z) :
  v t = FGPT -> near_coarse S v i -> near_coarse S (upd v t CGPT) i.
Proof.
  intros Ht (k & Hn & Hk). exists k. split; [exact Hn|].
  destruct (Z.eq_dec k t) as [-> | Hne].
  - left. apply upd_same.
  - rewrite upd_other by exact Hne. destruct Hk as [Hc | (Hf & m & Hm & Hc)].
    + now left.
    + right. split; [exact Hf|]. exists m. split; [exact Hm|].
      rewrite upd_other; [exact Hc|]. intros ->. rewrite Ht in Hc. discriminate Hc.
Qed.

Lemma phase_three_spec (v : arr Z) (col : Z) :
  0 <= rows ->
  (forall j, 0 <= j < rows -> v j = CGPT \/ v j = FGPT \/ v j = ISPT) ->
  col = coarse_count v rows ->
  (forall j, 0 <= j < rows ->
             fst (phase_three S rows (v, col)) j = CGPT \/
             fst (phase_three S rows (v, col)) j = FGPT \/
             fst (phase_three S rows (v, col)) j = ISPT) /\
  snd (phase_three S rows (v, col))
  = coarse_count (fst (phase_three S rows (v, col))) rows /\
  (forall i, 0 <= i < rows -> fst (phase_three S rows (v, col)) i = FGPT ->
             near_coarse S (fst (phase_three S rows (v, col))) i).
Proof.
  intros H0 Hv Hc. unfold phase_three.
  pose (I := fun t (s : arr Z * Z) =>
               (forall j, 0 <= j < rows ->
                          fst s j = CGPT \/ fst s j = FGPT \/ fst s j = ISPT) /\
               snd s = coarse_count (fst s) rows /\
               (forall i, 0 <= i < t -> fst s i = FGPT -> near_coarse S (fst s) i)).
  match goal with
  | |- context [for_loop 0 rows ?f (v, col)] =>
      assert (G : I rows (for_loop 0 rows f (v, col)))
  end.
  { apply (for_loop_inv I); unfold I; [exact H0 | |].
    - cbn [fst snd]. split; [exact Hv|]. split; [exact Hc|]. intros i Hi. lia.
    - intros t [w c] Ht (I1 & I2 & I3). cbn [fst snd] in I1, I2, I3.
      destruct (Z.eqb_spec (w t) FGPT) as [Ef | Ef].
      + destruct (Z.eqb_spec (near_flag S w t) 0) as [E0 | E0]; cbn [fst snd].
        * split; [|split].
          -- intros j Hj. unfold upd. destruct (j =? t); [now left | now apply I1].
          -- rewrite coarse_count_upd by exact Ht. rewrite Ef, I2. cbn. lia.
          -- intros i Hi Hf. destruct (Z.eq_dec i t) as [-> | Hne].
             ++ rewrite upd_same in Hf. discriminate Hf.
             ++ rewrite upd_other in Hf by exact Hne.
                apply near_coarse_kept; [exact Ef|]. apply I3; [lia | exact Hf].
        * split; [exact I1|]. split; [exact I2|].
          intros i Hi Hf. destruct (Z.eq_dec i t) as [-> | Hne].
          -- now apply near_flag_sound.
          -- apply I3; [lia | exact Hf].
      + cbn [fst snd]. split; [exact I1|]. split; [exact I2|].
        intros i Hi Hf. destruct (Z.eq_dec i t) as [-> | Hne]; [contradiction|].
        apply I3; [lia | exact Hf]. }
  exact G.
Qed.

End Near.

(** *** The whole routine *)

Lemma phase_one_empty (A : dCSRmat) (S : iCSRmat) (vec0 v : arr Z) (c : Z) :
  @phase_one bucket_lists A S vec0 0 = Some (v, c) -> c = 0.
Proof.
  intros E. unfold phase_one, init_vertices, step3 in E. cbv zeta in E.
  rewrite !for_loop_empty in E by lia. cbn in E. now injection E as _ <-.
Qed.

Section Level.
Variables (S : iCSRmat) (rows : Z).
Hypothesis HS : icsr_valid S.
Hypothesis Hrows : irow S = rows.
Hypothesis Hcolumns : icol S = rows.
Hypothesis Hrow : rows <= 2147483647.

(** Phase two comes to its end, with the temporary coarse vertices of
    labels [v] made real or fake ones or fine. *)
Lemma phase_two_returns (second : bool) (v : arr Z) :
  (forall j, 0 <= j < rows -> v j = CGPT \/ v j = FGPT \/ v j = ISPT) ->
  exists st : @phase1 bucket_lists,
    ag_main_loop (Z.to_nat (coarse_count v rows) + 1)
      (Sh (generate_S_rs_ag second S v rows))
      (fasp_icsr_trans (Sh (generate_S_rs_ag second S v rows)))
      (CGPT_index (generate_S_rs_ag second S v rows))
      (ag_step2 (Sh (generate_S_rs_ag second S v rows))
         (CGPT_index (generate_S_rs_ag second S v rows)) (coarse_count v rows)
         {| vec := v;
            lambda := init_lambda
                        (fasp_icsr_trans (Sh (generate_S_rs_ag second S v rows)))
                        (coarse_count v rows);
            lol := @LoL_null bucket_lists; num_left := 0; col1 := 0 |})
    = Some st /\
    (forall j, 0 <= j < rows ->
               vec st j = CGPT \/ vec st j = FGPT \/ vec st j = ISPT \/
               vec st j = 3 \/ vec st j = 4) /\
    col1 st = real_count (vec st) rows.
Proof.
  intros Hv.
  assert (H0 : 0 <= rows) by (rewrite <- Hrows; apply HS).
  destruct (frame_of_graph second S v rows H0
              (graph_columns S rows HS Hrows Hcolumns)) as [HF Hc].
  remember (generate_S_rs_ag second S v rows) as G eqn:EG. clear EG.
  pose proof (tally_bounds (fun i => v i =? CGPT) rows H0) as Hnc.
  fold (coarse_count v rows) in Hnc.
  remember (coarse_count v rows) as num_c eqn:Enc. clear Enc.
  assert (He : entering (CGPT_index G) num_c rows 0
                 {| vec := v;
                    lambda := init_lambda (fasp_icsr_trans (Sh G)) num_c;
                    lol := @LoL_null bucket_lists; num_left := 0; col1 := 0 |}).
  { apply (entering_start (CGPT_index G) num_c rows); [exact Hv | exact Hc |].
    intros c Hcr.
    rewrite (init_lambda_cells (Sh G) num_c (frame_graph _ _ _ _ HF)
               (frame_cols _ _ _ _ HF) c Hcr).
    apply TransposeFacts.count_nonneg. }
  apply (ag_step2_entering (Sh G) (CGPT_index G) num_c rows HF Hrow Hnc) in He.
  destruct (ag_main_loop_returns (Sh G) (CGPT_index G) num_c rows HF Hrow Hnc
              (Z.to_nat num_c + 1) _ (enter_choosing _ _ _ _ _ He))
    as (st & E & Hst & _).
  - pose proof (entering_left (CGPT_index G) num_c rows Hnc _ _ He). lia.
  - exists st. split; [exact E|]. split; [apply Hst | apply Hst].
Qed.

(** After phases two and three. *)
Lemma phase_three_returns (second : bool) (v : arr Z) (st : @phase1 bucket_lists) :
  (forall j, 0 <= j < rows ->
             vec st j = CGPT \/ vec st j = FGPT \/ vec st j = ISPT \/
             vec st j = 3 \/ vec st j = 4) ->
  col1 st = real_count (vec st) rows ->
  exists w col,
    phase_three S rows (relabel rows (vec st), col1 st) = (w, col) /\
    (forall j, 0 <= j < rows -> w j = CGPT \/ w j = FGPT \/ w j = ISPT) /\
    col = coarse_count w rows /\
    (forall i, 0 <= i < rows -> w i = FGPT -> near_coarse S w i).
Proof.
  intros Hl Hc.
  assert (H0 : 0 <= rows) by (rewrite <- Hrows; apply HS).
  destruct (relabel_labels rows (vec st) Hl) as [R1 R2].
  destruct (phase_three_spec S rows HS Hrows Hcolumns (relabel rows (vec st))
              (col1 st) H0 R1 ltac:(congruence)) as (P1 & P2 & P3).
  destruct (phase_three S rows (relabel rows (vec st), col1 st)) as [w col].
  exists w, col. cbn [fst snd] in *. now repeat split.
Qed.

End Level.

Section Constants.
Context {K : Constants}.

(** The three phases one after the other. *)
Lemma aggressive_level_returns (A : dCSRmat) (S : iCSRmat) (vertices : arr Z)
  (rows aggressive_path : Z) :
  icsr_valid S -> irow S = rows -> icol S = rows -> loop_free S ->
  rows <= 2147483647 -> row A = rows ->
  exists v col,
    @form_coarse_level_ag bucket_lists K A S vertices rows INTERP_STD
      aggressive_path = Some (v, col) /\
    (forall j, 0 <= j < rows -> v j = CGPT \/ v j = FGPT \/ v j = ISPT) /\
    col = coarse_count v rows /\
    (forall i, 0 <= i < rows -> v i = FGPT -> near_coarse S v i).
Proof.
  intros HS Hrows Hcolumns Hfree Hrow HA.
  assert (H0 : 0 <= rows) by (rewrite <- Hrows; apply HS).
  destruct (phase_one_returns S rows HS Hrows Hcolumns Hfree Hrow A vertices)
    as (v & c & E & Hd).
  assert (Ec : c = coarse_count v rows).
  { destruct (Z.eq_dec rows 0) as [E0 | Hne].
    - rewrite E0 in E. rewrite (phase_one_empty A S vertices v c E), E0.
      reflexivity.
    - now apply (phase_one_count S rows HS Hrows Hcolumns Hfree A vertices v c
                   ltac:(lia) E). }
  subst c. unfold form_coarse_level_ag, form_coarse_level. rewrite E.
  rewrite Z.eqb_refl. cbn [negb]. cbv beta iota zeta.
  unfold vertices_row, generate_S_rs_ag_1, generate_S_rs_ag_2. rewrite HA.
  destruct (aggressive_path <? 2).
  - destruct (phase_two_returns S rows HS Hrows Hcolumns Hrow false v Hd)
      as (st & E2 & Hl & Hc).
    rewrite E2.
    destruct (phase_three_returns S rows HS Hrows Hcolumns false v st Hl Hc)
      as (w & col & E3 & R).
    exists w, col. rewrite E3. split; [reflexivity | exact R].
  - destruct (phase_two_returns S rows HS Hrows Hcolumns Hrow true v Hd)
      as (st & E2 & Hl & Hc).
    rewrite E2.
    destruct (phase_three_returns S rows HS Hrows Hcolumns true v st Hl Hc)
      as (w & col & E3 & R).
    exists w, col. rewrite E3. split; [reflexivity | exact R].
Qed.

(** X28 (form_coarse_level_ag, coarsening_rs.c): on a strength graph of
    valid structure over the vertices that has no loops, called with the
    standard interpolation as [fasp_amg_coarsening_rs] does, the
    aggressive splitting comes to its end with either kind of paths: the
    lists have a head at every turn of the main loop of phase two, which
    is over within [num_c + 1] turns.  Every vertex is then coarse, fine or
    isolated, the value returned is the number of coarse vertices, and
    every fine vertex has a coarse vertex within two strong couplings: a
    strong neighbour that is coarse, or a fine one with a coarse strong
    neighbour. *)
Theorem aggressive_level_decides (A : dCSRmat) (S : iCSRmat) (vertices : arr Z)
  (rows aggressive_path : Z) :
  icsr_valid S -> irow S = rows -> icol S = rows -> loop_free S ->
  rows <= 2147483647 -> row A = rows ->
  exists v col,
    @form_coarse_level_ag bucket_lists K A S vertices rows INTERP_STD
      aggressive_path = Some (v, col) /\
    (forall j, 0 <= j < rows -> v j = CGPT \/ v j = FGPT \/ v j = ISPT) /\
    col = coarse_count v rows /\
    (forall i, 0 <= i < rows -> v i = FGPT -> near_coarse S v i).
Proof. exact (aggressive_level_returns A S vertices rows aggressive_path). Qed.

End Constants.

Lemma aggressive_level_decides_witness :
  let K := Samples.sample_constants in
  let A := path_operator in
  let S := generate_S A (9 # 10) (3 # 10) in
  exists v col,
    @form_coarse_level_ag bucket_lists K A S (zeros 0) 5 INTERP_STD 1
    = Some (v, col) /\
    (forall j, 0 <= j < 5 -> v j = CGPT \/ v j = FGPT \/ v j = ISPT) /\
    col = coarse_count v 5 /\
    (forall i, 0 <= i < 5 -> v i = FGPT -> near_coarse S v i).
Proof.
  cbv zeta. destruct path_operator_level as (HA & _ & HD).
  apply (@aggressive_level_decides Samples.sample_constants path_operator
           (@generate_S Samples.sample_constants path_operator (9 # 10) (3 # 10))
           (zeros 0) 5 1).
  - apply DecreaseFacts.strong_graph_valid; [exact HA | exact HD | vm_compute; reflexivity].
  - vm_compute. reflexivity.
  - vm_compute. reflexivity.
  - apply DecreaseFacts.strong_graph_loop_free;
      [exact HA | exact HD | vm_compute; reflexivity].
  - lia.
  - reflexivity.
Defined.

(** On the chain the second vertex stays coarse and the fourth, which
    depends on it over the third, becomes fine. *)
Example path_aggressive_splitting :
  let K := Samples.sample_constants in
  let S := generate_S path_operator (9 # 10) (3 # 10) in
  option_map (fun r => (to_list (fst r) 5, snd r))
    (@form_coarse_level_ag bucket_lists K path_operator S (zeros 0) 5
       INTERP_STD 1)
  = Some ([FGPT; CGPT; FGPT; FGPT; ISPT], 1).
Proof. vm_compute. reflexivity. Qed.

End AggressiveLevelFacts.

(* ------------------------------------------------------------------ *)
(** ** coarsening_rs.c: the aggressive splitting and the pattern of P *)

Module AggressivePatternFacts.
Import BlaSparseCSR StrengthGraph Coarsening Covering Rows SparseOps Deciding
  DecidingFacts Aggressive AggressiveLevel AggressiveLevelFacts SparsityStd
  SparsityStdFacts PhaseOneFacts.

Section Constants.
Context {K : Constants}.

(** X29 (fasp_amg_coarsening_rs with aggressive coarsening, steps 2 and 3,
    coarsening_rs.c): the labels and the count that
    [form_coarse_level_ag] leaves, handed to [generate_sparsity_P_std] as
    the routine does, give a pattern with as many columns as coarse
    vertices in which no row of a fine vertex is empty; such a row holds
    coarse vertices only. *)
Theorem aggressive_pattern_covers (A P : dCSRmat) (S : iCSRmat) (vertices : arr Z)
  (rows aggressive_path : Z) :
  icsr_valid S -> irow S = rows -> icol S = rows -> loop_free S ->
  rows <= 2147483647 -> row A = rows ->
  exists v cols,
    @form_coarse_level_ag bucket_lists K A S vertices rows INTERP_STD
      aggressive_path = Some (v, cols) /\
    col (generate_sparsity_P_std P S v rows cols) = coarse_count v rows /\
    forall i, 0 <= i < rows -> v i = FGPT ->
              row_cols (generate_sparsity_P_std P S v rows cols) i <> [] /\
              forall c, In c (row_cols (generate_sparsity_P_std P S v rows cols) i) ->
                        0 <= c < rows /\ v c = CGPT.
Proof.
  intros HS Hrows Hcolumns Hfree Hrow HA.
  assert (H0 : 0 <= rows) by (rewrite <- Hrows; apply HS).
  pose proof (graph_columns S rows HS Hrows Hcolumns) as Hcols.
  destruct (aggressive_level_returns A S vertices rows aggressive_path
              HS Hrows Hcolumns Hfree Hrow HA) as (v & cols & E & Hl & Hc & Hn).
  exists v, cols. split; [exact E|]. split.
  - unfold generate_sparsity_P_std. destruct (std_counts S v rows).
    cbn [col]. exact Hc.
  - intros i Hi Hf.
    rewrite (std_pattern_rows P S v rows cols i H0 Hcols Hi).
    unfold std_row. rewrite Hf. cbn [Z.eqb FGPT].
    destruct (firsts_spec (std_candidates S v i)) as [_ M]. split.
    + destruct (Hn i Hi Hf) as (k & Hk & Hv).
      assert (Hne : k <> i).
      { destruct Hk as (p & Hp & <-). apply Hfree; [lia | exact Hp]. }
      assert (Hin : exists c, In c (firsts (std_candidates S v i))).
      { destruct Hv as [Hv | (Hv & m & Hm & Hvm)].
        - exists k. apply M. apply candidates_spec. split; [exact Hv | now left].
        - exists m. apply M. apply candidates_spec. split; [exact Hvm|].
          right. exists k. now repeat split. }
      destruct Hin as (c & Hin). intros X. rewrite X in Hin. exact Hin.
    + intros c Hin. apply M in Hin. split.
      * now apply (candidates_range S v rows Hcols i c Hi).
      * apply candidates_spec in Hin. apply Hin.
Qed.

End Constants.

Lemma aggressive_pattern_covers_witness :
  let K := Samples.sample_constants in
  let A := path_operator in
  let S := generate_S A (9 # 10) (3 # 10) in
  exists v cols,
    @form_coarse_level_ag bucket_lists K A S (zeros 0) 5 INTERP_STD 1
    = Some (v, cols) /\
    col (generate_sparsity_P_std Samples.empty_matrix S v 5 cols)
    = coarse_count v 5 /\
    forall i, 0 <= i < 5 -> v i = FGPT ->
              row_cols (generate_sparsity_P_std Samples.empty_matrix S v 5 cols) i
              <> [] /\
              forall c,
                In c (row_cols
                        (generate_sparsity_P_std Samples.empty_matrix S v 5 cols) i) ->
                0 <= c < 5 /\ v c = CGPT.
Proof.
  cbv zeta. destruct path_operator_level as (HA & _ & HD).
  apply (@aggressive_pattern_covers Samples.sample_constants path_operator
           Samples.empty_matrix
           (@generate_S Samples.sample_constants path_operator (9 # 10) (3 # 10))
           (zeros 0) 5 1).
  - apply DecreaseFacts.strong_graph_valid; [exact HA | exact HD | vm_compute; reflexivity].
  - vm_compute. reflexivity.
  - vm_compute. reflexivity.
  - apply DecreaseFacts.strong_graph_loop_free;
      [exact HA | exact HD | vm_compute; reflexivity].
  - lia.
  - reflexivity.
Defined.

(** On the chain the one coarse vertex left is the only column of the
    three fine rows. *)
Example path_aggressive_pattern :
  let K := Samples.sample_constants in
  let S := generate_S path_operator (9 # 10) (3 # 10) in
  option_map
    (fun r => let Q := generate_sparsity_P_std Samples.empty_matrix S (fst r) 5
                         (snd r) in
              (col Q, map (IA Q) (zrange 0 6), map (JA Q) (zrange 0 (nnz Q))))
    (@form_coarse_level_ag bucket_lists K path_operator S (zeros 0) 5
       INTERP_STD 1)
  = Some (1, [0; 1; 2; 3; 4; 4], [1; 1; 1; 1]).
Proof. vm_compute. reflexivity. Qed.

End AggressivePatternFacts.

(* ------------------------------------------------------------------ *)
(** ** Standard interpolation: the weights of a fine row *)

Module StandardInterpFacts.
Import BlaSparseCSR Interpolation Rows Covering DirectInterp DirectInterpFacts
  StandardInterp SparsityStd SparsityStdFacts.

(** *** Sums over lists of vertices *)

Lemma qsum_map_ext {X : Type} (f g : X -> Q) (l : list X) :
  (forall x, In x l -> (f x == g x)%Q) -> (qsum (map f l) == qsum (map g l))%Q.
Proof.
  induction l as [|a l IH]; intros H; cbn [map qsum]; [reflexivity|].
  rewrite (H a) by now left. rewrite IH; [reflexivity|].
  intros x Hx. apply H. now right.
Qed.

Lemma qsum_map_scaled {X : Type} (c d : Q) (f : X -> Q) (l : list X) :
  (qsum (map (fun x => c * f x / d) l) == c * qsum (map f l) / d)%Q.
Proof.
  induction l as [|a l IH]; cbn [map qsum].
  - unfold Qdiv. ring.
  - rewrite IH. unfold Qdiv. ring.
Qed.

Lemma map_upd_out (f : arr Q) (h : Z) (v : Q) (l : list Z) :
  ~ In h l -> map (upd f h v) l = map f l.
Proof.
  intros Hn. apply map_ext_in. intros x Hx. apply upd_other.
  intros ->. now apply Hn.
Qed.

Lemma qsum_upd_in (f : arr Q) (h : Z) (v : Q) (l : list Z) :
  NoDup l -> In h l -> (qsum (map (upd f h v) l) == qsum (map f l) - f h + v)%Q.
Proof.
  induction l as [|a l IH]; intros Hn Hin; [contradiction|].
  inversion Hn as [|? ? Hna Hnl]. subst. cbn [map qsum].
  destruct (Z.eq_dec a h) as [->|Hne].
  - rewrite upd_same, (map_upd_out f h v l Hna). ring.
  - rewrite upd_other by exact Hne.
    destruct Hin as [E|Hin]; [contradiction|]. rewrite (IH Hnl Hin). ring.
Qed.

Lemma qsum_filter_or {X : Type} (v : X -> Q) (f g : X -> bool) (l : list X) :
  (forall x, In x l -> f x && g x = false) ->
  (qsum (map v (filter (fun x => f x || g x) l))
   == qsum (map v (filter f l)) + qsum (map v (filter g l)))%Q.
Proof.
  induction l as [|a l IH]; intros H; cbn [filter map qsum]; [ring|].
  assert (IH' := IH (fun x Hx => H x (or_intror Hx))).
  pose proof (H a (or_introl eq_refl)) as Ha.
  destruct (f a), (g a); cbn [orb map qsum]; try discriminate; rewrite IH'; ring.
Qed.

(** The entries at the columns of a list without repetitions, taken
    position by position or column by column. *)
Lemma sum_by_columns (v : Z -> Q) (col : Z -> Z) (cols : list Z) (l : list Z) :
  NoDup cols ->
  (qsum (map v (filter (fun p => existsb (Z.eqb (col p)) cols) l))
   == qsum (map (fun c => qsum (map v (filter (fun p => col p =? c) l))) cols))%Q.
Proof.
  induction cols as [|c cols IH]; intros Hn.
  - cbn [existsb map qsum]. rewrite TransposeFacts.filter_none; [reflexivity|].
    reflexivity.
  - inversion Hn as [|? ? Hc Hn']. subst. cbn [existsb map qsum].
    rewrite (qsum_filter_or v (fun p => col p =? c)
               (fun p => existsb (Z.eqb (col p)) cols)).
    + rewrite (IH Hn'). reflexivity.
    + intros p _. destruct (Z.eqb_spec (col p) c) as [E|E]; [|reflexivity].
      cbn [andb]. apply not_true_is_false. intros Hx.
      apply existsb_exists in Hx. destruct Hx as (y & Hy & Ey).
      apply Z.eqb_eq in Ey. apply Hc. now rewrite <- E, Ey.
Qed.

Lemma filter_unique (f : Z -> Z) (l : list Z) (p : Z) :
  NoDup (map f l) -> In p l -> filter (fun q => f q =? f p) l = [p].
Proof.
  induction l as [|a l IH]; intros Hn Hin; [contradiction|].
  cbn [map] in Hn. inversion Hn as [|? ? Hna Hnl]. subst. cbn [filter].
  destruct Hin as [->|Hin].
  - rewrite Z.eqb_refl. f_equal. apply TransposeFacts.filter_none.
    intros x Hx. apply Z.eqb_neq. intros E. apply Hna. rewrite <- E.
    now apply in_map.
  - destruct (Z.eqb_spec (f a) (f p)) as [E|E].
    + exfalso. apply Hna. rewrite E. now apply in_map.
    + now apply IH.
Qed.

Lemma existsb_member (c : Z) (l : list Z) : existsb (Z.eqb c) l = true <-> In c l.
Proof.
  rewrite existsb_exists. split.
  - intros (x & Hx & E). apply Z.eqb_eq in E. now subst.
  - intros H. exists c. split; [exact H | apply Z.eqb_refl].
Qed.

(** *** The entries of a row *)

Lemma coef_at (A : dCSRmat) (r p : Z) :
  NoDup (row_cols A r) -> IA A r <= p < IA A (r + 1) ->
  (coef A r (JA A p) == aval A p)%Q.
Proof.
  intros Hn Hp. unfold coef.
  rewrite (filter_unique (JA A) (positions (IA A) r) p Hn)
    by (apply zrange_In; exact Hp).
  cbn [map qsum]. ring.
Qed.

(** [Arind1], [Arind2]: the cell of a column of the row holds a position
    of the row with that column. *)
Lemma reverse_index_spec (A : dCSRmat) (r : Z) (ar : arr Z) (c : Z) :
  In c (row_cols A r) ->
  IA A r <= reverse_index A r ar c < IA A (r + 1) /\
  JA A (reverse_index A r ar c) = c.
Proof.
  intros Hin. unfold row_cols, positions in Hin. apply in_map_iff in Hin.
  destruct Hin as (p & Ep & Hp). apply zrange_In in Hp.
  unfold reverse_index.
  pose (I := fun (t : Z) (a : arr Z) =>
               (exists q, IA A r <= q < t /\ JA A q = c) ->
               IA A r <= a c < t /\ JA A (a c) = c).
  assert (G : I (IA A (r + 1))
                (for_loop (IA A r) (IA A (r + 1)) (fun a j => upd a (JA A j) j) ar)).
  { apply for_loop_inv; [lia | |].
    - intros (q & Hq & _). lia.
    - intros t a Ht Ia (q & Hq & Eq).
      destruct (Z.eq_dec (JA A t) c) as [E|E].
      + rewrite E, upd_same. split; [lia | exact E].
      + rewrite upd_other by congruence.
        assert (Hq' : IA A r <= q < t).
        { destruct (Z.eq_dec q t) as [->|]; [contradiction | lia]. }
        destruct (Ia (ex_intro _ q (conj Hq' Eq))) as [Hr Ec]. split; [lia | exact Ec]. }
  apply G. exists p. split; [lia | exact Ep].
Qed.

Lemma reverse_index_entry (A : dCSRmat) (r : Z) (ar : arr Z) (c : Z) :
  NoDup (row_cols A r) -> In c (row_cols A r) ->
  (aval A (reverse_index A r ar c) == coef A r c)%Q.
Proof.
  intros Hn Hin. destruct (reverse_index_spec A r ar c Hin) as [Hr Ec].
  rewrite <- (coef_at A r _ Hn Hr). now rewrite Ec.
Qed.

(** [aki] is the entry of row [k] in column [i]. *)
Lemma find_aki_spec (A : dCSRmat) (k i : Z) :
  NoDup (row_cols A k) -> (find_aki A k i == coef A k i)%Q.
Proof.
  intros Hn. unfold find_aki, coef, positions.
  destruct (Z.le_gt_cases (IA A k) (IA A (k + 1))) as [Hle|Hgt].
  2:{ rewrite for_loop_empty by lia. rewrite zrange_empty by lia. reflexivity. }
  pose (I := fun (t : Z) (a : Q) =>
               (a == qsum (map (aval A)
                             (filter (fun p => JA A p =? i) (zrange (IA A k) t))))%Q).
  apply (for_loop_inv I); [exact Hle | |].
  - unfold I. rewrite zrange_empty by lia. reflexivity.
  - intros t a Ht Ia. unfold I in *.
    rewrite zrange_last by lia. rewrite filter_app, map_app, qsum_app.
    cbn [filter]. destruct (Z.eqb_spec (JA A t) i) as [E|E]; cbn [map qsum].
    + rewrite TransposeFacts.filter_none; [cbn [map qsum]; ring|].
      intros q Hq. apply zrange_In in Hq. apply Z.eqb_neq. intros Eq.
      assert (q = t); [|lia].
      apply (injective_on_NoDup (JA A) (positions (IA A) k) Hn);
        [apply zrange_In; lia | apply zrange_In; lia | congruence].
    + rewrite Ia. ring.
Qed.

(** A loop that writes the cell [j] in turn [j]. *)
Lemma fill_loop (lo hi : Z) (g : Z -> Q) (pv : arr Q) (q : Z) :
  for_loop lo hi (fun pv j => upd pv j (g j)) pv q
  = if (lo <=? q) && (q <? hi) then g q else pv q.
Proof.
  destruct (Z.le_gt_cases hi lo) as [Hn|Hn].
  - rewrite for_loop_empty by lia.
    destruct (Z.leb_spec lo q); destruct (Z.ltb_spec q hi); cbn; try reflexivity; lia.
  - apply (for_loop_inv
             (fun t a => a q = if (lo <=? q) && (q <? t) then g q else pv q)).
    + lia.
    + destruct (Z.leb_spec lo q); destruct (Z.ltb_spec q lo); cbn; try reflexivity; lia.
    + intros t a Ht Ia. unfold upd. destruct (Z.eqb_spec q t) as [->|Hne].
      * destruct (Z.leb_spec lo t); destruct (Z.ltb_spec t (t + 1)); cbn;
          try reflexivity; lia.
      * rewrite Ia.
        destruct (Z.leb_spec lo q); destruct (Z.ltb_spec q t);
          destruct (Z.ltb_spec q (t + 1)); cbn; try reflexivity; lia.
Qed.

(** [hatA] is cleared at the columns of the row of the pattern. *)
Lemma clear_loop (ja : arr Z) (lo hi : Z) (h : arr Q) (c : Z) :
  for_loop lo hi (fun h j => upd h (ja j) 0%Q) h c
  = if existsb (Z.eqb c) (map ja (zrange lo hi)) then 0%Q else h c.
Proof.
  destruct (Z.le_gt_cases hi lo) as [Hn|Hn].
  - rewrite for_loop_empty by lia. now rewrite zrange_empty by lia.
  - apply (for_loop_inv
             (fun t a => a c = if existsb (Z.eqb c) (map ja (zrange lo t))
                               then 0%Q else h c)).
    + lia.
    + now rewrite zrange_empty by lia.
    + intros t a Ht Ia. rewrite zrange_last by lia.
      rewrite map_app, existsb_app. cbn [map existsb]. rewrite orb_false_r.
      unfold upd. destruct (Z.eqb_spec c (ja t)) as [E|E].
      * now rewrite orb_true_r.
      * now rewrite orb_false_r.
Qed.

(** *** The sums of the rows *)

Section Sums.
Variables (A : dCSRmat) (S : iCSRmat) (vec : arr Z) (rows : Z).
Hypothesis HA : csr_valid A.
Hypothesis Hrows : row A = rows.
Hypothesis HcA : col A = rows.
Hypothesis HnA : forall r, 0 <= r < rows -> NoDup (row_cols A r).
Hypothesis HnS : forall r, 0 <= r < rows -> NoDup (irow_cols S r).

Lemma row_positions (r p : Z) :
  0 <= r < rows -> IA A r <= p < IA A (r + 1) ->
  IA A r <= IA A (r + 1) /\ 0 <= JA A p < rows.
Proof.
  intros Hr Hp. destruct HA as [_ _ Hf Hl Hm Hc]. rewrite Hrows in *.
  pose proof (TransposeFacts.offsets_le rows (IA A) Hm 0 r
                ltac:(lia) ltac:(lia) ltac:(lia)).
  pose proof (TransposeFacts.offsets_le rows (IA A) Hm (r + 1) rows
                ltac:(lia) ltac:(lia) ltac:(lia)).
  split; [lia|]. rewrite <- HcA. apply Hc. lia.
Qed.

Lemma flag_loop (flag : arr Z) (r k : Z) :
  for_loop (iIA S r) (iIA S (r + 1))
    (fun flag j => let k := iJA S j in if vec k =? CGPT then upd flag k r else flag)
    flag k
  = if existsb (Z.eqb k) (strong_coarse S vec r) then r else flag k.
Proof.
  unfold strong_coarse, irow_cols, positions.
  destruct (Z.le_gt_cases (iIA S (r + 1)) (iIA S r)) as [Hn|Hn].
  - rewrite for_loop_empty by lia. now rewrite zrange_empty by lia.
  - apply (for_loop_inv
             (fun t a => a k = if existsb (Z.eqb k)
                                    (filter (fun c => vec c =? CGPT)
                                       (map (iJA S) (zrange (iIA S r) t)))
                               then r else flag k)).
    + lia.
    + now rewrite zrange_empty by lia.
    + intros t a Ht Ia. cbv zeta. rewrite zrange_last by lia.
      rewrite map_app, filter_app, existsb_app. cbn [map filter].
      destruct (vec (iJA S t) =? CGPT); cbn [existsb]; rewrite orb_false_r.
      * unfold upd. destruct (Z.eqb_spec k (iJA S t)) as [E|E].
        -- now rewrite orb_true_r.
        -- now rewrite orb_false_r.
      * exact Ia.
Qed.

Lemma row_sums_loop (flag : arr Z) (cs n diag : arr Q) (r : Z) :
  NoDup (row_cols A r) -> IA A r <= IA A (r + 1) -> diag r = 0%Q ->
  let '(cs', n', diag') :=
    for_loop (IA A r) (IA A (r + 1))
      (fun '((cs, n, diag) : arr Q * arr Q * arr Q) j =>
         let k := JA A j in
         let cs := if flag k =? r then upd cs r (cs r + aval A j)%Q else cs in
         if k =? r then (cs, n, upd diag r (aval A j))
         else (cs, upd n r (n r + aval A j)%Q, diag))
      (cs, n, diag) in
  (cs' r == cs r + qsum (map (aval A)
                           (filter (fun p => flag (JA A p) =? r)
                              (positions (IA A) r))))%Q /\
  (n' r == n r + qsum (offdiag A r))%Q /\
  (diag' r == coef A r r)%Q /\
  forall q, q <> r -> cs' q = cs q /\ n' q = n q /\ diag' q = diag q.
Proof.
  intros Hn Hle Hd. unfold offdiag, coef, positions.
  pose (I := fun (t : Z) (st : arr Q * arr Q * arr Q) =>
               let '(cs', n', diag') := st in
               (cs' r == cs r + qsum (map (aval A)
                                        (filter (fun p => flag (JA A p) =? r)
                                           (zrange (IA A r) t))))%Q /\
               (n' r == n r + qsum (map (aval A)
                                      (filter (fun j => negb (JA A j =? r))
                                         (zrange (IA A r) t))))%Q /\
               (diag' r == qsum (map (aval A)
                                   (filter (fun p => JA A p =? r)
                                      (zrange (IA A r) t))))%Q /\
               forall q, q <> r -> cs' q = cs q /\ n' q = n q /\ diag' q = diag q).
  match goal with
  | |- context [for_loop ?lo ?hi ?f ?s] => assert (G : I hi (for_loop lo hi f s))
  end.
  { apply for_loop_inv; [exact Hle | |].
    - unfold I. rewrite zrange_empty by lia. cbn [filter map qsum].
      rewrite Hd. repeat split; ring.
    - intros t [[c m] d] Ht (I1 & I2 & I3 & I4). unfold I.
      assert (Hc : ((if flag (JA A t) =? r then upd c r (c r + aval A t)%Q else c) r
                    == c r + qsum (map (aval A)
                                     (if flag (JA A t) =? r then [t] else [])))%Q).
      { destruct (flag (JA A t) =? r); cbn [map qsum];
          [rewrite upd_same|]; ring. }
      assert (Hq : forall q, q <> r ->
                   (if flag (JA A t) =? r then upd c r (c r + aval A t)%Q else c) q
                   = c q).
      { intros q Hq. destruct (flag (JA A t) =? r); [now apply upd_other | reflexivity]. }
      destruct (JA A t =? r) eqn:E; cbv beta iota zeta;
        rewrite zrange_last by lia; rewrite !filter_app, !map_app, !qsum_app;
        cbn [filter]; rewrite E; cbn [negb map qsum].
      + apply Z.eqb_eq in E.
        split; [rewrite Hc, I1; ring|]. split; [rewrite I2; ring|]. split.
        * rewrite upd_same. rewrite TransposeFacts.filter_none;
            [cbn [map qsum]; ring|].
          intros q Hq'. apply zrange_In in Hq'. apply Z.eqb_neq. intros Eq.
          assert (q = t); [|lia].
          apply (injective_on_NoDup (JA A) (positions (IA A) r) Hn);
            [apply zrange_In; lia | apply zrange_In; lia | congruence].
        * intros q Hne. rewrite (Hq q Hne), upd_other by exact Hne. now apply I4.
      + split; [rewrite Hc, I1; ring|]. split; [rewrite upd_same, I2; ring|]. split.
        * rewrite I3. ring.
        * intros q Hne. rewrite (Hq q Hne), upd_other by exact Hne. now apply I4. }
  destruct (for_loop (IA A r) (IA A (r + 1)) _ (cs, n, diag)) as [[c m] d].
  exact G.
Qed.

Lemma std_sums_spec :
  0 <= rows ->
  let '(_, cs, n, diag) := std_sums A S vec rows in
  forall r, 0 <= r < rows ->
            (cs r == coarse_sum A S vec r)%Q /\ (n r == qsum (offdiag A r))%Q /\
            (diag r == coef A r r)%Q.
Proof.
  intros H0. unfold std_sums.
  pose (I := fun (t : Z) (st : arr Z * arr Q * arr Q * arr Q) =>
               let '(flag, cs, n, diag) := st in
               (forall k, 0 <= k < rows -> flag k < t) /\
               (forall r, 0 <= r < t ->
                          (cs r == coarse_sum A S vec r)%Q /\
                          (n r == qsum (offdiag A r))%Q /\
                          (diag r == coef A r r)%Q) /\
               (forall r, t <= r -> cs r = 0%Q /\ n r = 0%Q /\ diag r = 0%Q)).
  match goal with
  | |- context [for_loop 0 rows ?f ?s] => assert (G : I rows (for_loop 0 rows f s))
  end.
  { apply for_loop_inv; [exact H0 | |].
    - unfold I. split; [|split].
      + intros k Hk.
        rewrite (cellwise_loop (fun _ _ => -1) rows (zeros 0) k).
        destruct (Z.leb_spec 0 k); destruct (Z.ltb_spec k rows); cbn; lia.
      + intros r Hr. lia.
      + intros r _. now repeat split.
    - intros t [[[flag cs] n] diag] Ht (I1 & I2 & I3). unfold I.
      set (flag' := for_loop (iIA S t) (iIA S (t + 1)) _ flag).
      assert (Hf : forall k, flag' k
                             = if existsb (Z.eqb k) (strong_coarse S vec t)
                               then t else flag k).
      { intros k. apply flag_loop. }
      assert (Hle : IA A t <= IA A (t + 1)).
      { destruct HA as [_ _ _ _ Hm _]. apply Hm. lia. }
      destruct (I3 t ltac:(lia)) as (Z1 & Z2 & Z3).
      pose proof (row_sums_loop flag' cs n diag t (HnA t Ht) Hle Z3) as R.
      destruct (for_loop (IA A t) (IA A (t + 1)) _ (cs, n, diag)) as [[cs' n'] diag'].
      destruct R as (R1 & R2 & R3 & R4).
      split; [|split].
      + intros k Hk. rewrite Hf. specialize (I1 k Hk).
        destruct (existsb _ _); lia.
      + intros r Hr. destruct (Z.eq_dec r t) as [->|Hne].
        * split; [|split; [|exact R3]].
          -- rewrite R1, Z1.
             rewrite (filter_ext_in
                        (fun p => flag' (JA A p) =? t)
                        (fun p => existsb (Z.eqb (JA A p)) (strong_coarse S vec t))).
             ++ rewrite (sum_by_columns (aval A) (JA A)).
                ** unfold coarse_sum, coef. ring.
                ** unfold strong_coarse. apply NoDup_filter. now apply HnS.
             ++ intros p Hp. apply zrange_In in Hp.
                destruct (row_positions t p Ht Hp) as [_ Hc].
                rewrite Hf. specialize (I1 _ Hc).
                destruct (existsb _ _); [apply Z.eqb_refl | apply Z.eqb_neq; lia].
          -- rewrite R2, Z2. ring.
        * destruct (R4 r Hne) as (E1 & E2 & E3). rewrite E1, E2, E3.
          apply I2. lia.
      + intros r Hr. destruct (R4 r ltac:(lia)) as (E1 & E2 & E3).
        rewrite E1, E2, E3. apply I3. lia. }
  destruct (for_loop 0 rows _ _) as [[[flag cs] n] diag].
  destruct G as (_ & G & _). exact G.
Qed.

End Sums.

(** *** The row of a fine vertex *)

Section Row.
Variables (A P : dCSRmat) (S : iCSRmat) (vec : arr Z) (rows i : Z).
Variables (cs n diag : arr Q).
Hypothesis HS : icsr_valid S.
Hypothesis HrS : irow S = rows.
Hypothesis HcS : icol S = rows.
Hypothesis Hfree : loop_free S.
Hypothesis HnA : forall r, 0 <= r < rows -> NoDup (row_cols A r).
Hypothesis HnS : forall r, 0 <= r < rows -> NoDup (irow_cols S r).
Hypothesis Hsub : forall r c, 0 <= r < rows -> In c (irow_cols S r) ->
                              In c (row_cols A r).
Hypothesis Hi : 0 <= i < rows.
Hypothesis Hv : vec i = FGPT.
Hypothesis HnP : NoDup (row_cols P i).
Hypothesis HiP : ~ In i (row_cols P i).
Hypothesis Hnear : forall c, In c (strong_coarse S vec i) -> In c (row_cols P i).
Hypothesis Hfar : forall k c, In k (strong_fine S vec i) ->
                              In c (strong_coarse S vec k) -> In c (row_cols P i).
Hypothesis Hsums : forall r, 0 <= r < rows ->
                             (cs r == coarse_sum A S vec r)%Q /\
                             (n r == qsum (offdiag A r))%Q /\
                             (diag r == coef A r r)%Q.

Lemma graph_row (r p : Z) :
  0 <= r < rows -> iIA S r <= p < iIA S (r + 1) ->
  0 <= iJA S p < rows /\ iJA S p <> r /\ In (iJA S p) (irow_cols S r).
Proof.
  intros Hr Hp. split; [|split].
  - apply (PhaseOneFacts.graph_columns S rows HS HrS HcS r p Hr Hp).
  - apply Hfree; [lia | exact Hp].
  - unfold irow_cols, positions. apply in_map. now apply zrange_In.
Qed.

Lemma graph_row_le (r : Z) : 0 <= r < rows -> iIA S r <= iIA S (r + 1).
Proof. intros Hr. destruct HS as [_ _ _ Hm _]. apply Hm. lia. Qed.

(** The shares of row [k] that [hatA] takes. *)
Lemma share_loop (k : Z) (aik akk : Q) (Arind2 : arr Z) (hatA0 : arr Q) :
  0 <= k < rows -> In k (strong_fine S vec i) ->
  (forall h, In h (irow_cols S k) -> (aval A (Arind2 h) == coef A k h)%Q) ->
  (qsum (map (std_share A S vec Arind2 i k aik akk hatA0) (row_cols P i))
   == qsum (map hatA0 (row_cols P i)) - aik * coarse_sum A S vec k / akk)%Q /\
  (std_share A S vec Arind2 i k aik akk hatA0 i
   == hatA0 i - (if existsb (Z.eqb i) (irow_cols S k)
                 then aik * coef A k i / akk else 0))%Q.
Proof.
  intros Hk Hin Har. unfold std_share.
  pose (I := fun (u : Z) (h : arr Q) =>
               (qsum (map h (row_cols P i))
                == qsum (map hatA0 (row_cols P i))
                   - qsum (map (fun c => aik * coef A k c / akk)
                             (filter (fun c => vec c =? CGPT)
                                (map (iJA S) (zrange (iIA S k) u)))))%Q /\
               (h i == hatA0 i
                       - (if existsb (Z.eqb i) (map (iJA S) (zrange (iIA S k) u))
                          then aik * coef A k i / akk else 0))%Q).
  match goal with
  | |- context [for_loop ?lo ?hi ?f ?s] => assert (G : I hi (for_loop lo hi f s))
  end.
  { apply for_loop_inv; [now apply graph_row_le | |].
    - unfold I. rewrite zrange_empty by lia. cbn [map filter qsum existsb].
      split; ring.
    - intros u h Hu [I1 I2]. unfold I. cbv zeta.
      destruct (graph_row k u Hk Hu) as (Hc & Hne & Hm).
      rewrite zrange_last by lia. rewrite map_app, filter_app, existsb_app.
      cbn [map filter existsb]. rewrite orb_false_r.
      pose proof (Har _ Hm) as Ex.
      destruct (vec (iJA S u) =? CGPT) eqn:Ec.
      + apply Z.eqb_eq in Ec.
        assert (Hp : In (iJA S u) (row_cols P i)).
        { apply (Hfar k _ Hin). unfold strong_coarse. apply filter_In.
          split; [exact Hm | now apply Z.eqb_eq]. }
        assert (Hni : iJA S u <> i).
        { intros E. rewrite E, Hv in Ec. discriminate. }
        rewrite (qsum_upd_in h _ _ _ HnP Hp), upd_other by congruence.
        rewrite map_app, qsum_app. cbn [map qsum].
        destruct (Z.eqb_spec i (iJA S u)) as [E|_]; [congruence|].
        rewrite orb_false_r. split; [rewrite I1, Ex; ring | exact I2].
      + rewrite app_nil_r.
        destruct (Z.eqb_spec (iJA S u) i) as [E|E].
        * rewrite E in *. rewrite (map_upd_out h i _ _ HiP), upd_same.
          rewrite Z.eqb_refl, orb_true_r. split; [exact I1|].
          assert (Hno : existsb (Z.eqb i) (map (iJA S) (zrange (iIA S k) u)) = false).
          { apply not_true_is_false. intros Hx. apply existsb_member in Hx.
            apply in_map_iff in Hx. destruct Hx as (q & Eq & Hq).
            apply zrange_In in Hq. assert (q = u); [|lia].
            apply (injective_on_NoDup (iJA S) (positions (iIA S) k) (HnS k Hk));
              [apply zrange_In; lia | apply zrange_In; lia | congruence]. }
          rewrite Hno in I2. rewrite I2, Ex. ring.
        * destruct (Z.eqb_spec i (iJA S u)) as [E'|_]; [congruence|].
          rewrite orb_false_r. split; [exact I1 | exact I2]. }
  destruct G as [G1 G2]. split.
  - rewrite G1. unfold coarse_sum, strong_coarse, irow_cols, positions.
    rewrite (qsum_map_scaled aik akk (coef A k)). reflexivity.
  - exact G2.
Qed.

(** The loop over the strong neighbours of [i]. *)
Lemma neighbour_loop (Arind1 Arind2 : arr Z) (alN0 alP0 : Q) (hatA0 : arr Q) :
  (forall c, In c (irow_cols S i) -> (aval A (Arind1 c) == coef A i c)%Q) ->
  let '(alN, alP, _, hatA) :=
    for_loop (iIA S i) (iIA S (i + 1))
      (std_neighbour A S vec cs n diag Arind1 i) (alN0, alP0, Arind2, hatA0) in
  (alN == alN0
          - qsum (map (fun k => (qsum (offdiag A k) - coef A k i + coef A k k)
                                * coef A i k / coef A k k)
                    (strong_fine S vec i)))%Q /\
  (alP == alP0
          - qsum (map (fun k => coarse_sum A S vec k * coef A i k / coef A k k)
                    (strong_fine S vec i)))%Q /\
  (hatA i == hatA0 i
             - qsum (map (fun k => if existsb (Z.eqb i) (irow_cols S k)
                                   then coef A i k * coef A k i / coef A k k else 0)
                       (strong_fine S vec i)))%Q /\
  (qsum (map hatA (row_cols P i))
   == qsum (map hatA0 (row_cols P i)) + coarse_sum A S vec i
      - qsum (map (fun k => coarse_sum A S vec k * coef A i k / coef A k k)
                (strong_fine S vec i)))%Q.
Proof.
  intros Har.
  pose (I := fun (u : Z) (st : Q * Q * arr Z * arr Q) =>
               let '(alN, alP, _, hatA) := st in
               let seen := map (iJA S) (zrange (iIA S i) u) in
               let fine := filter (fun k => vec k =? FGPT) seen in
               (alN == alN0
                       - qsum (map (fun k => (qsum (offdiag A k) - coef A k i
                                              + coef A k k)
                                             * coef A i k / coef A k k) fine))%Q /\
               (alP == alP0
                       - qsum (map (fun k => coarse_sum A S vec k * coef A i k
                                             / coef A k k) fine))%Q /\
               (hatA i == hatA0 i
                          - qsum (map (fun k => if existsb (Z.eqb i) (irow_cols S k)
                                                then coef A i k * coef A k i
                                                     / coef A k k else 0) fine))%Q /\
               (qsum (map hatA (row_cols P i))
                == qsum (map hatA0 (row_cols P i))
                   + qsum (map (coef A i) (filter (fun c => vec c =? CGPT) seen))
                   - qsum (map (fun k => coarse_sum A S vec k * coef A i k
                                         / coef A k k) fine))%Q).
  match goal with
  | |- context [for_loop ?lo ?hi ?f ?s] => assert (G : I hi (for_loop lo hi f s))
  end.
  { apply for_loop_inv; [now apply graph_row_le | |].
    - unfold I. cbv zeta. rewrite zrange_empty by lia. cbn [map filter qsum].
      repeat split; ring.
    - intros u [[[aN aP] ar2] h] Hu (I1 & I2 & I3 & I4).
      destruct (graph_row i u Hi Hu) as (Hc & Hne & Hm).
      pose proof (Har _ Hm) as Ex.
      destruct (Hsums _ Hc) as (S1 & S2 & S3).
      unfold I, std_neighbour. cbv zeta in I1, I2, I3, I4 |- *.
      rewrite zrange_last by lia. rewrite map_app, !filter_app.
      cbn [map filter].
      destruct (vec (iJA S u) =? CGPT) eqn:Ec.
      + assert (Ef : (vec (iJA S u) =? FGPT) = false).
        { apply Z.eqb_eq in Ec. rewrite Ec. reflexivity. }
        rewrite Ef, app_nil_r.
        assert (Hp : In (iJA S u) (row_cols P i)).
        { apply Hnear. unfold strong_coarse. apply filter_In. now split. }
        rewrite (qsum_upd_in h _ _ _ HnP Hp), upd_other by congruence.
        rewrite map_app, qsum_app. cbn [map qsum].
        split; [exact I1|]. split; [exact I2|]. split; [exact I3|].
        rewrite I4, Ex. ring.
      + destruct (vec (iJA S u) =? FGPT) eqn:Ef.
        * rewrite app_nil_r, !map_app, !qsum_app. cbn [map qsum].
          assert (Hk : In (iJA S u) (strong_fine S vec i)).
          { unfold strong_fine. apply filter_In. now split. }
          assert (Hr2 : forall c, In c (irow_cols S (iJA S u)) ->
                        (aval A (reverse_index A (iJA S u) ar2 c)
                         == coef A (iJA S u) c)%Q).
          { intros c Hin. apply reverse_index_entry; [now apply HnA|].
            now apply Hsub. }
          destruct (share_loop (iJA S u) (aval A (Arind1 (iJA S u)))
                      (diag (iJA S u)) (reverse_index A (iJA S u) ar2) h
                      Hc Hk Hr2) as [Sh1 Sh2].
          pose proof (find_aki_spec A (iJA S u) i (HnA _ Hc)) as Ea.
          split; [rewrite I1, S2, S3, Ea, Ex; ring|].
          split; [rewrite I2, S1, S3, Ex; ring|].
          split.
          -- rewrite Sh2, I3.
             destruct (existsb (Z.eqb i) (irow_cols S (iJA S u)));
               [rewrite S3, Ex|]; ring.
          -- rewrite Sh1, I4, S3, Ex. unfold Qdiv. ring.
        * rewrite !app_nil_r. now repeat split. }
  destruct (for_loop (iIA S i) (iIA S (i + 1)) _ _) as [[[aN aP] ar2] h].
  destruct G as (G1 & G2 & G3 & G4). split; [exact G1|]. split; [exact G2|].
  split; [exact G3|]. rewrite G4. unfold coarse_sum, strong_coarse, strong_fine.
  reflexivity.
Qed.

(** The weights of row [i] add up to [-alN / hatA[i]]. *)
Lemma std_row_fine (st : arr Z * arr Z * arr Q * arr Q) :
  ~ (coarse_total A S vec i == 0)%Q ->
  (qsum (map (snd (std_row_weights A S vec P cs n diag st i)) (positions (IA P) i))
   == - all_total A S vec i / pivot A S vec i)%Q.
Proof.
  intros HT. destruct st as [[[ar1 ar2] h] pv]. unfold std_row_weights.
  rewrite Hv. change (FGPT =? FGPT) with true. cbv iota zeta.
  set (h0 := upd (for_loop (IA P i) (IA P (i + 1))
                    (fun hatA j => upd hatA (JA P j) 0%Q) h) i (diag i)).
  assert (Har : forall c, In c (irow_cols S i) ->
                (aval A (reverse_index A i ar1 c) == coef A i c)%Q).
  { intros c Hin. apply reverse_index_entry; [now apply HnA | now apply Hsub]. }
  pose proof (neighbour_loop (reverse_index A i ar1) ar2 (n i) (cs i) h0 Har) as N.
  destruct (for_loop (iIA S i) (iIA S (i + 1)) _ _) as [[[aN aP] ar2'] h'].
  destruct N as (N1 & N2 & N3 & N4). cbn [snd].
  destruct (Hsums i Hi) as (S1 & S2 & S3).
  assert (E0 : (qsum (map h0 (row_cols P i)) == 0)%Q).
  { unfold h0. rewrite (map_upd_out _ i _ _ HiP).
    rewrite (qsum_map_ext _ (fun _ => 0%Q)).
    - clear. induction (row_cols P i) as [|a l IH]; cbn [map qsum]; [reflexivity|].
      rewrite IH. ring.
    - intros c Hc. rewrite clear_loop.
      apply existsb_member in Hc. unfold row_cols, positions in Hc.
      rewrite Hc. reflexivity. }
  assert (Ei : (h0 i == coef A i i)%Q) by (unfold h0; now rewrite upd_same).
  rewrite (map_ext_in _ (fun j => (- (aN / aP) * h' (JA P j) / h' i)%Q)).
  2:{ intros j Hj. apply zrange_In in Hj. rewrite fill_loop.
      destruct (Z.leb_spec (IA P i) j); destruct (Z.ltb_spec j (IA P (i + 1)));
        cbn [andb]; try reflexivity; lia. }
  rewrite (qsum_map_scaled (- (aN / aP)) (h' i) (fun j => h' (JA P j))).
  rewrite <- (map_map (JA P) h'). fold (row_cols P i).
  rewrite N4, N3, N1, N2, E0, Ei, S1, S2.
  fold (all_total A S vec i). fold (pivot A S vec i).
  setoid_replace (0 + coarse_sum A S vec i
                  - qsum (map (fun k => coarse_sum A S vec k * coef A i k
                                        / coef A k k) (strong_fine S vec i)))%Q
    with (coarse_total A S vec i) by (unfold coarse_total; ring).
  fold (coarse_total A S vec i).
  unfold Qdiv.
  setoid_replace (- (all_total A S vec i * / coarse_total A S vec i)
                  * coarse_total A S vec i)%Q
    with (- all_total A S vec i)%Q by (field; exact HT).
  reflexivity.
Qed.

End Row.

(** The rows after [i] leave the weights of row [i] alone. *)
Lemma std_row_keep (A P : dCSRmat) (S : iCSRmat) (vec : arr Z) (cs n diag : arr Q)
  (st : arr Z * arr Z * arr Q * arr Q) (r q : Z) :
  q < IA P r -> snd (std_row_weights A S vec P cs n diag st r) q = snd st q.
Proof.
  intros Hq. destruct st as [[[ar1 ar2] h] pv]. unfold std_row_weights.
  destruct (vec r =? FGPT).
  - cbv zeta. destruct (for_loop (iIA S r) (iIA S (r + 1)) _ _) as [[[aN aP] ar2'] h'].
    cbn [snd]. rewrite fill_loop.
    destruct (Z.leb_spec (IA P r) q); [lia | reflexivity].
  - destruct (vec r =? CGPT); [|reflexivity]. cbn [snd]. apply upd_other. lia.
Qed.

Lemma std_rows_keep (A P : dCSRmat) (S : iCSRmat) (vec : arr Z) (cs n diag : arr Q)
  (st0 : arr Z * arr Z * arr Q * arr Q) (i q : Z) (m : nat) :
  (forall r, 0 <= r < row P -> IA P r <= IA P (r + 1)) ->
  0 <= i -> i + 1 + Z.of_nat m <= row P -> q < IA P (i + 1) ->
  snd (for_loop 0 (i + 1 + Z.of_nat m) (std_row_weights A S vec P cs n diag) st0) q
  = snd (for_loop 0 (i + 1) (std_row_weights A S vec P cs n diag) st0) q.
Proof.
  intros Hm Hi. induction m as [|m IH]; intros Hn Hq.
  - now rewrite Z.add_0_r.
  - rewrite Nat2Z.inj_succ. unfold Z.succ. rewrite Z.add_assoc.
    rewrite for_loop_last by lia. rewrite std_row_keep.
    + apply IH; lia.
    + pose proof (TransposeFacts.offsets_le (row P) (IA P) Hm (i + 1)
                    (i + 1 + Z.of_nat m) ltac:(lia) ltac:(lia) ltac:(lia)). lia.
Qed.

(** The weights of a fine row before the truncation. *)
Lemma std_weights_row (A P : dCSRmat) (S : iCSRmat) (vec : arr Z) (i : Z) :
  csr_valid A -> col A = row A -> row P = row A ->
  (forall r, 0 <= r < row P -> IA P r <= IA P (r + 1)) ->
  icsr_valid S -> irow S = row A -> icol S = row A -> loop_free S ->
  (forall r, 0 <= r < row A -> NoDup (row_cols A r)) ->
  (forall r, 0 <= r < row A -> NoDup (irow_cols S r)) ->
  (forall r c, 0 <= r < row A -> In c (irow_cols S r) -> In c (row_cols A r)) ->
  0 <= i < row A -> vec i = FGPT ->
  NoDup (row_cols P i) -> ~ In i (row_cols P i) ->
  (forall c, In c (strong_coarse S vec i) -> In c (row_cols P i)) ->
  (forall k c, In k (strong_fine S vec i) -> In c (strong_coarse S vec k) ->
               In c (row_cols P i)) ->
  ~ (coarse_total A S vec i == 0)%Q ->
  row (std_weights A vec P S) = row A /\
  (qsum (row_vals (std_weights A vec P S) i)
   == - all_total A S vec i / pivot A S vec i)%Q.
Proof.
  intros HA HcA HrP Hm HS HrS HcS Hfree HnA HnS Hsub Hi Hv HnP HiP Hnear Hfar HT.
  unfold std_weights. cbv zeta.
  pose proof (std_sums_spec A S vec (row P) HA (eq_sym HrP)
                ltac:(now rewrite HrP) ltac:(now rewrite HrP)
                ltac:(now rewrite HrP) ltac:(lia)) as Hs.
  destruct (std_sums A S vec (row P)) as [[[fl cs] n] diag].
  pose proof (std_rows_keep A P S vec cs n diag
                (zeros 0, zeros 0, zeros 0%Q, aval P) i) as Hk.
  destruct (for_loop 0 (row P) (std_row_weights A S vec P cs n diag) _)
    as [[[a1 a2] h] pv] eqn:Ef.
  destruct (for_loop 0 (row A) _ (zeros 0, 0)) as [ci idx].
  cbn [row]. split; [exact HrP|].
  unfold row_vals, positions, aval. cbn [IA val].
  rewrite (map_ext_in pv
             (snd (for_loop 0 (i + 1) (std_row_weights A S vec P cs n diag)
                     (zeros 0, zeros 0, zeros 0%Q, aval P)))).
  2:{ intros q Hq. apply zrange_In in Hq.
      specialize (Hk q (Z.to_nat (row P - (i + 1))) Hm ltac:(lia) ltac:(lia)
                    ltac:(lia)).
      replace (i + 1 + Z.of_nat (Z.to_nat (row P - (i + 1)))) with (row P)
        in Hk by lia.
      rewrite Ef in Hk. cbn [snd] in Hk. exact Hk. }
  rewrite for_loop_last by lia.
  rewrite HrP in Hs.
  apply (std_row_fine A P S vec (row A) i cs n diag HS HrS HcS Hfree HnA HnS Hsub
           Hi Hv HnP HiP Hnear Hfar Hs _ HT).
Qed.

(** *** The pattern of [generate_sparsity_P_std] *)

Lemma std_pattern_offsets (P : dCSRmat) (S : iCSRmat) (vec : arr Z)
  (rows cols k : Z) :
  0 <= rows -> graph_cols S rows -> 0 <= k <= rows ->
  IA (generate_sparsity_P_std P S vec rows cols) k = std_offset S vec k.
Proof.
  intros Hrow Hcols Hk. unfold generate_sparsity_P_std.
  pose proof (std_counts_spec S vec rows Hrow Hcols) as Hc.
  destruct (std_counts S vec rows) as [tv counts]. cbn [snd] in Hc. cbv zeta.
  cbn [IA]. unfold std_offset.
  now apply (offsets_of_counts (std_length S vec)).
Qed.

Lemma std_pattern_size (P : dCSRmat) (S : iCSRmat) (vec : arr Z) (rows cols : Z) :
  row (generate_sparsity_P_std P S vec rows cols) = rows.
Proof.
  unfold generate_sparsity_P_std. now destruct (std_counts S vec rows).
Qed.

Lemma neighbour_member (S : iCSRmat) (r c : Z) :
  In c (irow_cols S r) <-> neighbour S r c.
Proof.
  unfold irow_cols, positions, neighbour. rewrite in_map_iff. split.
  - intros (p & E & Hp). apply zrange_In in Hp. now exists p.
  - intros (p & Hp & E). exists p. split; [exact E | now apply zrange_In].
Qed.

(** The sums of [alN] and [hatA[i]] when the rows add up to [0]. *)
Lemma totals_cancel (A : dCSRmat) (S : iCSRmat) (vec : arr Z) (i : Z) :
  (coef A i i + qsum (offdiag A i) == 0)%Q ->
  (forall k, In k (strong_fine S vec i) ->
             (coef A k k + qsum (offdiag A k) == 0)%Q /\
             (In i (irow_cols S k) \/ (coef A k i == 0)%Q)) ->
  (all_total A S vec i == - pivot A S vec i)%Q.
Proof.
  intros Hz Hk. unfold all_total, pivot.
  assert (E : (qsum (map (fun k => (qsum (offdiag A k) - coef A k i + coef A k k)
                                   * coef A i k / coef A k k)
                       (strong_fine S vec i))
               == - qsum (map (fun k => if existsb (Z.eqb i) (irow_cols S k)
                                        then coef A i k * coef A k i / coef A k k
                                        else 0)
                            (strong_fine S vec i)))%Q).
  { induction (strong_fine S vec i) as [|k l IH]; cbn [map qsum]; [ring|].
    rewrite IH by (intros x Hx; apply Hk; now right).
    destruct (Hk k (or_introl eq_refl)) as [Hzk Hik].
    assert (Eo : (qsum (offdiag A k) == - coef A k k)%Q) by lra.
    rewrite Eo. destruct (existsb (Z.eqb i) (irow_cols S k)) eqn:Ex.
    - unfold Qdiv. ring.
    - destruct Hik as [Hin | H0].
      + apply existsb_member in Hin. congruence.
      + rewrite H0. unfold Qdiv. ring. }
  rewrite E. lra.
Qed.

(** X30 (interp_STD, interpolation.c, on the pattern that
    [generate_sparsity_P_std] builds).  Standard interpolation for a fine
    vertex [i], in exact arithmetic: when the rows of [A] and of the
    strength graph [S] hold no column twice, [S] takes its couplings from
    [A] and has no loops, and [a_kk] for the fine strong neighbours [k] of
    [i], [alP] and [hatA[i]] are not zero, the weights of row [i],
    truncated with a threshold of at most one, add up to
    [-alN / hatA[i]]: here [alN] is the off-diagonal sum of row [i] less
    [(n_k - a_ki + a_kk) a_ik / a_kk] for each such [k], and [hatA[i]] is
    [a_ii] less [a_ik a_ki / a_kk] for each such [k] that has [i] as a
    strong neighbour.  They add up to [1] when row [i] and the rows of
    those [k] add up to [0] and each [k] either has [i] as a strong
    neighbour or has no entry in column [i]. *)
Theorem interp_STD_row_sum (A P0 : dCSRmat) (S : iCSRmat) (vec : arr Z)
  (param : AMG_param) (cols i : Z) :
  csr_valid A -> col A = row A ->
  icsr_valid S -> irow S = row A -> icol S = row A -> loop_free S ->
  (forall r, 0 <= r < row A -> NoDup (row_cols A r)) ->
  (forall r, 0 <= r < row A -> NoDup (irow_cols S r)) ->
  (forall r c, 0 <= r < row A -> In c (irow_cols S r) -> In c (row_cols A r)) ->
  0 <= i < row A -> vec i = FGPT ->
  (forall k, In k (strong_fine S vec i) -> ~ (coef A k k == 0)%Q) ->
  ~ (coarse_total A S vec i == 0)%Q -> ~ (pivot A S vec i == 0)%Q ->
  (truncation_threshold param <= 1)%Q ->
  let P := generate_sparsity_P_std P0 S vec (row A) cols in
  let w := row_vals (interp_STD A vec P S param) i in
  (qsum w == - all_total A S vec i / pivot A S vec i)%Q /\
  ((coef A i i + qsum (offdiag A i) == 0)%Q ->
   (forall k, In k (strong_fine S vec i) ->
              (coef A k k + qsum (offdiag A k) == 0)%Q /\
              (In i (irow_cols S k) \/ (coef A k i == 0)%Q)) ->
   (qsum w == 1)%Q).
Proof.
  intros HA HcA HS HrS HcS Hfree HnA HnS Hsub Hi Hv Hkk HT Hp He. cbv zeta.
  set (P := generate_sparsity_P_std P0 S vec (row A) cols).
  assert (H0 : 0 <= row A) by lia.
  pose proof (PhaseOneFacts.graph_columns S (row A) HS HrS HcS) as Hcols.
  assert (HrP : row P = row A) by apply std_pattern_size.
  assert (Hm : forall r, 0 <= r < row P -> IA P r <= IA P (r + 1)).
  { intros r Hr. rewrite HrP in Hr. unfold P.
    rewrite !std_pattern_offsets by (try assumption; lia).
    apply std_offset_le; lia. }
  assert (Er : row_cols P i = firsts (std_candidates S vec i)).
  { unfold P. rewrite (std_pattern_rows P0 S vec (row A) cols i H0 Hcols Hi).
    unfold std_row. now rewrite Hv. }
  destruct (firsts_spec (std_candidates S vec i)) as [Nf Mf].
  assert (HnP : NoDup (row_cols P i)) by (now rewrite Er).
  assert (HiP : ~ In i (row_cols P i)).
  { rewrite Er, Mf, candidates_spec. intros [Hc _]. rewrite Hv in Hc. discriminate. }
  assert (Hnear : forall c, In c (strong_coarse S vec i) -> In c (row_cols P i)).
  { intros c Hc. apply filter_In in Hc. destruct Hc as [Hin Hc].
    rewrite Er, Mf, candidates_spec. split; [now apply Z.eqb_eq|].
    left. now apply neighbour_member. }
  assert (Hfar : forall k c, In k (strong_fine S vec i) ->
                             In c (strong_coarse S vec k) -> In c (row_cols P i)).
  { intros k c Hk Hc. apply filter_In in Hk. destruct Hk as [Hik Hk].
    apply filter_In in Hc. destruct Hc as [Hkc Hc].
    rewrite Er, Mf, candidates_spec. split; [now apply Z.eqb_eq|].
    right. exists k. split; [now apply Z.eqb_eq|].
    apply neighbour_member in Hik. split.
    - destruct Hik as (p & Hp' & <-). apply Hfree; [lia | exact Hp'].
    - split; [exact Hik | now apply neighbour_member]. }
  destruct (std_weights_row A P S vec i HA HcA HrP Hm HS HrS HcS Hfree HnA HnS
              Hsub Hi Hv HnP HiP Hnear Hfar HT) as [Hrow Hsum].
  assert (Hw : (qsum (row_vals (interp_STD A vec P S param) i)
                == qsum (row_vals (std_weights A vec P S) i))%Q).
  { unfold interp_STD.
    rewrite TruncationFacts.truncation_rows by (rewrite Hrow; exact Hi).
    destruct (TruncationFacts.out_vals_sums (truncation_threshold param)
                (row_vals (std_weights A vec P S) i) He) as [N Q].
    rewrite (qsum_signed (TruncatedRow.out_vals _ _)), N, Q. symmetry.
    apply qsum_signed. }
  split.
  - rewrite Hw. exact Hsum.
  - intros Hz Hk. rewrite Hw, Hsum, (totals_cancel A S vec i Hz Hk).
    field. exact Hp.
Qed.

Lemma rail_valid : csr_valid rail.
Proof. apply SparseOpsFacts.csr_validb_sound. reflexivity. Qed.

Lemma rail_graph_valid : icsr_valid rail_graph.
Proof.
  constructor; try reflexivity.
  - discriminate.
  - intros r Hr. change (irow rail_graph) with 4 in Hr.
    assert (E : r = 0 \/ r = 1 \/ r = 2 \/ r = 3) by lia.
    destruct E as [-> | [-> | [-> | ->]]]; vm_compute; discriminate.
  - intros p Hp. change (innz rail_graph) with 6 in Hp.
    assert (E : p = 0 \/ p = 1 \/ p = 2 \/ p = 3 \/ p = 4 \/ p = 5) by lia.
    destruct E as [-> | [-> | [-> | [-> | [-> | ->]]]]]; vm_compute;
      (split; [discriminate | reflexivity]).
Qed.

Lemma rail_graph_free : loop_free rail_graph.
Proof.
  intros r p Hr Hp. change (irow rail_graph) with 4 in Hr.
  assert (E : r = 0 \/ r = 1 \/ r = 2 \/ r = 3) by lia.
  destruct E as [-> | [-> | [-> | ->]]].
  - change (0 <= p < 2) in Hp. assert (E : p = 0 \/ p = 1) by lia.
    destruct E as [-> | ->]; vm_compute; discriminate.
  - change (2 <= p < 4) in Hp. assert (E : p = 2 \/ p = 3) by lia.
    destruct E as [-> | ->]; vm_compute; discriminate.
  - change (4 <= p < 5) in Hp. assert (E : p = 4) by lia. subst p.
    vm_compute. discriminate.
  - change (5 <= p < 6) in Hp. assert (E : p = 5) by lia. subst p.
    vm_compute. discriminate.
Qed.

Lemma rail_rows (Q : Z -> Prop) :
  Q 0 -> Q 1 -> Q 2 -> Q 3 -> forall r, 0 <= r < row rail -> Q r.
Proof.
  intros Q0 Q1 Q2 Q3 r Hr. change (row rail) with 4 in Hr.
  assert (E : r = 0 \/ r = 1 \/ r = 2 \/ r = 3) by lia.
  destruct E as [-> | [-> | [-> | ->]]]; assumption.
Qed.

Lemma interp_STD_row_sum_witness :
  let P := generate_sparsity_P_std Samples.empty_matrix rail_graph rail_labels
             (row rail) 2 in
  let w := row_vals (interp_STD rail rail_labels P rail_graph Samples.default_param)
             0 in
  (qsum w == - all_total rail rail_graph rail_labels 0
             / pivot rail rail_graph rail_labels 0)%Q /\
  ((coef rail 0 0 + qsum (offdiag rail 0) == 0)%Q ->
   (forall k, In k (strong_fine rail_graph rail_labels 0) ->
              (coef rail k k + qsum (offdiag rail k) == 0)%Q /\
              (In 0 (irow_cols rail_graph k) \/ (coef rail k 0 == 0)%Q)) ->
   (qsum w == 1)%Q).
Proof.
  apply (interp_STD_row_sum rail Samples.empty_matrix rail_graph rail_labels
           Samples.default_param 2 0).
  - exact rail_valid.
  - reflexivity.
  - exact rail_graph_valid.
  - reflexivity.
  - reflexivity.
  - exact rail_graph_free.
  - apply (rail_rows (fun r => NoDup (row_cols rail r)));
      vm_compute; repeat constructor; cbn; intuition discriminate.
  - apply (rail_rows (fun r => NoDup (irow_cols rail_graph r)));
      vm_compute; repeat constructor; cbn; intuition discriminate.
  - intros r c Hr. revert c. revert r Hr.
    apply (rail_rows (fun r => forall c, In c (irow_cols rail_graph r) ->
                                         In c (row_cols rail r)));
      intros c Hc; vm_compute in Hc; vm_compute; intuition.
  - vm_compute. split; [discriminate | reflexivity].
  - reflexivity.
  - intros k Hk. vm_compute in Hk. destruct Hk as [<- | []]. vm_compute. discriminate.
  - vm_compute. discriminate.
  - vm_compute. discriminate.
  - vm_compute. discriminate.
Defined.

(** On the sample each fine vertex takes two thirds from the coarse vertex
    next to it and one third from the other one. *)
Example rail_weights :
  let P := generate_sparsity_P_std Samples.empty_matrix rail_graph rail_labels 4 2 in
  let R := interp_STD rail rail_labels P rail_graph Samples.default_param in
  (row R, col R, nnz R, map (IA R) (zrange 0 5), map (JA R) (zrange 0 6),
   map (fun k => Qred (aval R k)) (zrange 0 6))
  = (4, 2, 6, [0; 2; 4; 5; 6], [1; 0; 0; 1; 0; 1],
     [1 # 3; 2 # 3; 1 # 3; 2 # 3; 1; 1]%Q).
Proof. vm_compute. reflexivity. Qed.

End StandardInterpFacts.

